(* ===== verification/_CoqProject ===== *)
-Q . S2P
Prelude.v
Types.v
Heap.v
MemPool.v
PriceTime.v
OrderBook.v
BookInv.v
Cancel.v
TradeRing.v
Fifo.v
RingBuffer.v
Spsc.v
Engine.v
Group.v
EngineTheorems.v
Ledger.v
Oms.v
OmsSymbols.v
OmsTheorems.v
SymbolLoader.v
Wire.v
Server.v
TradeProcessor.v
MarketFeed.v
Recovery.v
Feed.v
Retransmit.v
Batch.v
Bots.v
BotMain.v
OmsLoop.v
Iceberg.v
System.v
IcebergRun.v
Exchange.v
Market.v
Archive.v
Pipeline.v
Net.v
Shm.v
Live.v
