(* ===== verification/Prelude.v ===== *)
(** * TradeX: a verified model of the exchange

    TradeX is an exchange in C++.  Clients send orders over TCP to the order
    receiving server; the order management system (OMS) looks up symbols,
    holds stop losses, cuts icebergs into slices and dispatches orders to two
    engine groups of 1024 symbols each; a group matches them in the books of
    its symbols and publishes trades into a ring in shared memory; the OMS,
    the trade processor (which writes trades to files) and the market feed
    reader (which sends them by UDP and, for retransmission, by TCP) read the
    ring; clients detect gaps in the feed and ask the retransmitter.

    ** The parts and the files that model them (paths under src/)

    - [Prelude]: machine integers, list lemmas, tactics and hint databases.
    - [Types]: the structs and constants of include/order.h, trade.h,
      message.h, common.h.
    - [Heap]: std::push_heap and std::pop_heap for a comparator of the class
      [StrictWeakOrder]; used by the books (ReservablePriorityQueue) and by
      the stop-loss registry.
    - [MemPool], [OrderBook]: classes MemPool, PriceQueues, OrderBook and
      OrderBookManager of include/order_book.h, operation by operation.  The
      nodes are a list; an access outside it is [None].
    - [PriceTime]: the abstract specification, two lists of resting orders in
      price-time priority with the matching of an incoming order ([amatch],
      [aprocess]).
    - [BookInv]: the representation invariant [book_inv] of a book and the
      refinement of the book operations to these lists.  [Cancel]: the same
      for cancelOrder and findOrder.
    - [TradeRing]: include/trade_ring_buffer.h, src/trade_ring_buffer.cpp.
    - [Fifo]: the interface class [FifoQueue] of bounded queues;
      [RingBuffer] (src/producer_consumer.cpp) and [Spsc] (src/spsc_queue.cpp
      and its copies in listener.cpp and trade_processor.cpp) are instances.
    - [Engine], [Group], [EngineTheorems]: GroupProcessor and
      MatchingEngineDispatcher of src/producer_consumer.cpp.
    - [Oms], [OmsSymbols], [OmsTheorems]: include/oms.h, src/oms.cpp.
    - [OmsLoop]: the thread of src/oms.cpp cut at its accesses to shared
      memory, and the invariant of the OMS state.
    - [Ledger]: quantities per order id through a group; [Iceberg]: the
      icebergs of the OMS against the trades it reads.
    - [System]: OMS, dispatcher and engine groups running together, as
      tests/pipeline_server.cpp composes them, against the abstract machine
      [flow_turn].  [IcebergRun]: icebergs through this system.
      [Exchange]: the same with its clients and the sessions of the order
      receiving server, as runs with a trace of what happens on the
      connections.  [Market]: the exchange with the market feed reader on
      its rings.  [Archive]: the exchange with the trade processors of
      src/live_tp.cpp on its rings.
      [Pipeline]: main of that file, from the command line and
      the symbol file to the stop and the end-of-day file.
    - [SymbolLoader]: src/symbol_loader.cpp.
    - [Wire]: the byte layout of the structs that travel over sockets and
      files.  [Server]: src/oms_order_receiving_server.cpp.
    - [TradeProcessor]: src/trade_processor.cpp, the writer and the
      persistence thread as two machines with a program counter each, over
      the two queues of memory regions.
    - [MarketFeed]: the pieces of src/MarketFeedReader.cpp; [Feed]: its two
      threads composed with the trade rings and the network.
    - [Recovery]: store and answer of src/retransmitter.cpp, gap detection of
      src/listener.cpp; [Retransmit]: the threads of both programs, the poll
      loop with its connections included; [Batch]: the same threads on the
      memory that their init_batch allocates.
    - [Net]: the set-up of the sockets of feed reader, retransmitter, listener
      and order server, as programs in an exit monad over the class [Sockets]
      of system calls.
    - [Shm]: the shared memory objects, over the class [SharedMemory]: names,
      constructor and destructor of the trade ring, and the object with the
      last prices (src/producer_consumer.cpp, src/oms.cpp).
    - [Live]: main of src/live_mfr.cpp.
    - [Bots]: the order generators, validators and client threads of
      bots/run.cpp and bots/bots.h, over any random engine of the class
      [RandomEngine]; [BotMain]: the monitor loop, the signal handler and the
      joins of main.

    ** Conventions

    An unsigned integer is a [Z]; results that may leave the width go through
    [u32], [u64] or [s32].  Operations return [option]: [None] is undefined
    behaviour (an access outside an array, a division by zero), an exception,
    or fuel that ran out, so a theorem that a call returns [Some] includes
    that none of these happens.  Uninitialised memory, the contents of
    malloc'ed blocks, clocks and the results of system calls are arguments of
    the definitions.  Threads are modelled as the iterations of their loops
    (Engine, Oms, Feed, Retransmit, Bots), as steps between two queue
    operations (TradeProcessor), interleaved by a step relation ([tp_step],
    [feed_step], [runner_step], [main_step], [sys_step], [pipe_step], and
    with labels [ex_step], [market_step], and [ar_step]), or, where the correctness lies in
    single memory accesses, access by access: the step
    relation [spsc_step], in which a load may return an old value of the
    other thread's counter as acquire/release permits, and the traces
    [slot_trace] of a ring slot.

    ** What the theorems show

    - Matching (EngineTheorems): [process_order] refines the price-time
      contract, for all four order kinds and every book that can arise;
      priority, conservation of quantity, no crossed book, rejection of
      prices outside the band, behaviour when the pool is full; the group
      thread serves its queue in order; routing reaches the right book, waits
      without losing the order, and set-up gives each symbol its book.
    - System: in every interleaving of clients whose orders are [client_fit]
      (see below), OMS thread and group threads the groups process, in order, what the OMS sends, according to the
      price-time contract ([system_refines]); no turn of a thread is
      undefined ([system_safe]); and every order sent is processed
      ([system_drains], by a measure each helpful turn lowers).
    - Icebergs (IcebergRun): in every such interleaving the quantity an
      iceberg is credited with is what the trades read report for its slices,
      slices carry the parent's terms and show no more than allowed, and the
      iceberg is closed when it is filled ([iceberg_accounts]); it rests on
      the ledger of a group, in which no id trades more than was ordered
      under it.
    - Exchange: a session run one system call at a time agrees with
      [clientSession] ([run_session_agrees]); in every interleaving the
      sessions hand over what the clients write, and the OMS takes it, in
      order and without loss ([exchange_sessions]).
    - Market: what the clients write, the books and trades of the groups, and
      the numbered messages of the feed correspond to each other in every
      interleaving of all threads, whatever the system calls of the feed
      return; the messages are without gap unless a push found the queue of
      the feed full, and TCP carries what UDP carries unless a send reported
      EAGAIN ([market_end_to_end]); without these two troubles a listener
      behind a network that loses, repeats and reorders packets gets all
      messages but the first ([tape_recovered]).
    - Archive: the trade processors copy the trades of the groups, in order,
      each into files of its own, and all of a full day reach the disk
      ([archive_faithful]); the process starts or exits ([live_tp_starts]).
    - Pipeline: from a symbol file for all books main starts an exchange that
      satisfies the hypotheses of System, with every ticker leading to its
      book; what is processed and what is dropped when it stops, and that the
      end-of-day file then reads outside the price array.
    - Cancel: cancelOrder removes exactly the named order; on any book the
      shared flag heap_entry hides an order of the other side that is added
      at the price of the only order of a level after its cancellation.
    - Queues and rings: FIFO round trips for any capacity and counter value;
      no interleaving of spsc_queue loses, duplicates or reorders an item or
      lets the two threads touch one cell; a ring reader within one lap gets
      each trade once; which reads of get_trade are safe and which are torn.
    - OMS: stop losses fire exactly when triggered, in trigger order; iceberg
      slices; distinct order ids in every run; intake; symbol hashing.
    - Server, SymbolLoader: exact framing of the TCP stream; the end-of-day
      file round trip.
    - Feed: in any interleaving of engine, reader and sender and whatever the
      sockets do the messages sent are trades of the rings, in order and each
      at most once, without gap unless a push found the queue full, and the
      sender drains its queue at the end.
    - Recovery and Retransmit: reassembly at the retransmitter for any
      fragmentation; the poll loop treats every connection as a loop without
      index arithmetic would, and closes every descriptor once; gap
      detection; end-to-end recovery, as a statement about the data and about
      the running threads, with the request at which they wait for ever; the
      buffers in memory refine the byte streams these theorems are about.
    - Net, Shm: which failing calls end a program and with which status, for
      any results; the order in which the programs of the feed can be
      started; all processes that attach to a ring, in any order, share it.
    - TradeProcessor: no region is lost between its threads in any
      interleaving; both threads end, with every trade synced; which trades
      are overwritten.
    - Bots: generated orders are valid, spoiled ones are recognised; every
      connection carries complete valid orders, the first of which the server
      hands to the OMS whatever happens to the connection, and all of them if
      it lasts; the bots' symbol loader agrees with the exchange's on files
      without empty lines and skips those; main returns
      after a bounded number of steps once it is told to stop.

    ** Bounds and fuel

    [match_loop] has one unit of fuel per pool node, since every round but
    the last frees one; [bestprice_loop] one per heap entry, [trigger_sells]
    and [trigger_buys] one per stop, [sift_up] and [adjust_heap] one per
    element, [lines] and [dec_digits] one per character; the theorems prove
    that these suffice.  [poll_ring], [clientSession] and [drain] take as
    fuel the number of items available; [connect_loop] has the 50 retries of
    the code, [client_loop] one unit per polled descriptor, [request_run] one
    per request; [feed_drains] needs 714 rounds of the sender, since a round
    takes 64 * 23 of at most 2^20 - 1 queued messages, and
    [trade_processor_ends] 500401 rounds of both threads.  Trade numbers stay below [MOD]
    ([seq_room]); the reader theorems hold below [2 * RING_SIZE - 3] trades,
    where any_new_trade stops being right (any_new_trade_caught_up), and
    [iceberg_accounts], [market_end_to_end], [tape_recovered] and
    [archive_faithful] while no ring has wrapped ([few]).  Price
    bands are at least 1, narrower than [2^31], and below UINT64_MAX.

    ** Hypotheses on the surroundings

    The theorems about the running exchange (System, IcebergRun, Exchange,
    Market, Archive, Pipeline) are about clients whose orders are
    [client_fit]: values of their C++ types, a terminated symbol, a positive
    quantity and, for an iceberg, a positive display quantity.  Neither the
    server nor the OMS checks this, and the findings say what happens
    otherwise.  [iceberg_accounts] needs clients that number their orders
    below [2^63], never use the id of an iceberg again and send icebergs
    active and unfilled ([plain_client]).  [boot_ok] says what the start of
    the exchange relies on: blocks of the requested size, and totals of the
    books, which the constructor leaves uninitialised, that happen to be zero.
    The ids and the trade numbers must not be used up ([small]).

    ** Not modelled

    SIGPIPE: a send on a connection whose peer is gone is an error result
    here, while bots/run.cpp sends without MSG_NOSIGNAL and may be ended by
    the signal.  Constructors of the trade ring run one after the other
    ([attach_all]); a consumer that opens the object between the producer's
    shm_open and ftruncate is not covered.  An OMS that could not map the
    prices is modelled by itself ([oms_micro] without prices) and at the end
    of main ([end_of_day_file]), but not inside [System].
    The calls that open and map the files of the trade processor (their
    results are arguments); thread objects, which are the steps of the
    relations; console output, sleeps and timing, so that a wait may end at
    any time; the statistics printer process_processing_times, which nothing
    calls; the tests and the benchmarks.  The connection that the sender of
    the feed accepts is in [Net] and does not delay the threads of [Feed].
    What the map leaves out of the sources that are modelled are includes,
    comments, declarations whose definitions are modelled, and output.

    ** What could follow

    The bots as the clients of [Exchange]; preservation of the book invariant
    by cancelOrder on a side whose level keeps an order, and a repaired flag
    under which it always holds. *)

From Stdlib Require Export ZArith Lia Permutation.
From stdpp Require Export base gmap strings option numbers.
From stdpp Require Export list_basics list.

#[global] Set Default Goal Selector "!".
#[global] Open Scope Z_scope.

(** * Machine integers

    A C++ [uint32_t]/[uint64_t]/[size_t] is a [Z] in range; every arithmetic
    result that may leave the range goes through [u32]/[u64], and a
    conversion to [int] goes through [s32]. *)

Definition u32 (z : Z) : Z := z mod 2 ^ 32.
Definition u64 (z : Z) : Z := z mod 2 ^ 64.
Definition s32 (z : Z) : Z := (z + 2 ^ 31) mod 2 ^ 32 - 2 ^ 31.

Definition UINT32_MAX : Z := 2 ^ 32 - 1.
Definition UINT64_MAX : Z := 2 ^ 64 - 1.

Definition is_u32 (z : Z) : Prop := 0 <= z < 2 ^ 32.
Definition is_u64 (z : Z) : Prop := 0 <= z < 2 ^ 64.

#[export] Instance is_u32_dec z : Decision (is_u32 z).
Proof. unfold is_u32. apply _. Defined.
#[export] Instance is_u64_dec z : Decision (is_u64 z).
Proof. unfold is_u64. apply _. Defined.

Lemma u32_small z : is_u32 z → u32 z = z.
Proof. apply Z.mod_small. Qed.

Lemma u64_small z : is_u64 z → u64 z = z.
Proof. apply Z.mod_small. Qed.

Lemma u32_range z : is_u32 (u32 z).
Proof. unfold is_u32, u32. apply Z.mod_pos_bound. lia. Qed.

Lemma u64_range z : is_u64 (u64 z).
Proof. unfold is_u64, u64. apply Z.mod_pos_bound. lia. Qed.

Lemma s32_small z : - 2 ^ 31 <= z < 2 ^ 31 → s32 z = z.
Proof. intros H. unfold s32. rewrite Z.mod_small; lia. Qed.

(** Converting to [int] only looks at the value modulo [2^32]. *)
Lemma s32_congr a b : a mod 2 ^ 32 = b mod 2 ^ 32 → s32 a = s32 b.
Proof.
  intros H. unfold s32. rewrite (Z.add_mod a), (Z.add_mod b) by lia.
  by rewrite H.
Qed.

Create HintDb tradex.
#[export] Hint Resolve u32_range u64_range : tradex.

(** Comparisons computed as booleans, as facts. *)
Ltac zbool :=
  repeat first
    [ rewrite Z.leb_le in * | rewrite Z.leb_gt in * | rewrite Z.ltb_lt in *
    | rewrite Z.ltb_ge in * | rewrite Z.eqb_eq in * | rewrite Z.eqb_neq in * ].
Ltac zb := zbool; lia.

Ltac mach := unfold is_u32, is_u64, UINT32_MAX, UINT64_MAX in *; lia.

(** * Lists *)

(** Writing back [f] of what was read is updating in place. *)
Lemma insert_alter_read {A} (f : A → A) (l : list A) i x :
  l !! i = Some x → <[i := f x]> l = alter f i l.
Proof.
  intros Hx. rewrite list_insert_alter. apply list_alter_ext; [|done].
  intros y Hy. by simplify_eq.
Qed.

(** Truncating to 64 bits first does not change the low 32 bits. *)
Lemma u64_mod32 z : u64 z mod 2 ^ 32 = z mod 2 ^ 32.
Proof. unfold u64. apply Z.mod_mod_divide. by exists (2 ^ 32). Qed.

Lemma s32_mod32 z : s32 z mod 2 ^ 32 = z mod 2 ^ 32.
Proof.
  unfold s32. rewrite Zminus_mod, Z.mod_mod, <- Zminus_mod by lia. f_equal. lia.
Qed.

Lemma insert_middle {A} (l1 l2 : list A) x y :
  <[length l1 := y]> (l1 ++ x :: l2) = l1 ++ y :: l2.
Proof. rewrite insert_app_r_alt, Nat.sub_diag by lia. done. Qed.

Lemma lookup_middle_ne {A} (l1 l2 : list A) x y k :
  k ≠ length l1 → (l1 ++ x :: l2) !! k = Some y →
  (l1 ++ l2) !! (if decide (k < length l1)%nat then k else pred k) = Some y.
Proof.
  intros Hk. rewrite !lookup_app. destruct (l1 !! k) eqn:E.
  - apply lookup_lt_Some in E as ?. rewrite decide_True by lia. by rewrite E.
  - apply lookup_ge_None in E. rewrite decide_False by lia.
    rewrite (lookup_ge_None_2 l1 (pred k)) by lia.
    destruct (k - length l1)%nat as [|m] eqn:Em; [lia|]. simpl.
    by replace (pred k - length l1)%nat with m by lia.
Qed.

Lemma filter_all {A} (P : A → Prop) `{∀ x, Decision (P x)} (l : list A) :
  (∀ x, x ∈ l → P x) → filter P l = l.
Proof.
  induction l as [|x l IH]; intros Hl; [done|].
  rewrite filter_cons_True by (apply Hl; left). f_equal. apply IH. intros y Hy. apply Hl. by right.
Qed.

Lemma filter_none {A} (P : A → Prop) `{∀ x, Decision (P x)} (l : list A) :
  (∀ x, x ∈ l → ¬ P x) → filter P l = [].
Proof.
  induction l as [|x l IH]; intros Hl; [done|].
  rewrite filter_cons_False by (apply Hl; left). apply IH. intros y Hy. apply Hl. by right.
Qed.

Lemma filter_ext_in {A} (P Q : A → Prop) `{∀ x, Decision (P x), ∀ x, Decision (Q x)} (l : list A) :
  (∀ x, x ∈ l → P x ↔ Q x) → filter P l = filter Q l.
Proof.
  intros Hl. induction l as [|x l IH]; [done|]. rewrite !filter_cons, IH by (intros y Hy; apply Hl; by right).
  specialize (Hl x ltac:(left)). repeat case_decide; tauto.
Qed.

Lemma nodup_fmap_filter {A B} (f : A → B) (P : A → Prop) `{∀ x, Decision (P x)} (l : list A) :
  NoDup (f <$> l) → NoDup (f <$> filter P l).
Proof.
  induction l as [|x l IH]; [done|]. rewrite fmap_cons, NoDup_cons, filter_cons. intros [Hx Hl].
  case_decide; [|by apply IH]. rewrite fmap_cons. apply NoDup_cons. split; [|by apply IH].
  intros (y & Hy & [_ Hin]%list_elem_of_filter)%list_elem_of_fmap. apply Hx. rewrite Hy. by apply list_elem_of_fmap_2.
Qed.

(** Masking with a power of two minus one. *)
Lemma land_mask x n : 0 <= n → Z.land x (Z.shiftl 1 n - 1) = x mod 2 ^ n.
Proof.
  intros Hn. rewrite Z.shiftl_1_l, Z.sub_1_r, <- Z.ones_equiv. by apply Z.land_ones.
Qed.

(** * Cyclic storage, shared by all ring queues *)

(** The items [l] lie in consecutive slots of [arr] from position [base] on. *)
Definition slots {T} (n base : Z) (arr l : list T) : Prop :=
  ∀ j x, l !! j = Some x → arr !! Z.to_nat ((base + Z.of_nat j) mod n) = Some x.

Lemma slots_nil {T} n base (arr : list T) : slots n base arr [].
Proof. done. Qed.

(** Positions less than a lap apart are in different slots. *)
Lemma slot_neq n a b : 0 < n → a < b < a + n → a mod n ≠ b mod n.
Proof.
  intros Hn Hab Heq. assert ((b - a) mod n = 0) as H.
  { by rewrite Zminus_mod, Heq, Z.sub_diag, Z.mod_0_l by lia. }
  rewrite Z.mod_small in H; lia.
Qed.

Lemma slots_push {T} n base (arr l : list T) x :
  0 < n → Z.of_nat (length l) < n → n <= Z.of_nat (length arr) → slots n base arr l →
  slots n base (<[Z.to_nat ((base + Z.of_nat (length l)) mod n) := x]> arr) (l ++ [x]).
Proof.
  intros Hn Hl Ha Hs j y Hj.
  pose proof (Z.mod_pos_bound (base + Z.of_nat (length l)) n Hn).
  apply lookup_app_Some in Hj as [Hj|[Hge Hj]].
  - apply lookup_lt_Some in Hj as Hjl.
    rewrite list_lookup_insert_ne; [by apply Hs|].
    pose proof (slot_neq n (base + Z.of_nat j) (base + Z.of_nat (length l)) Hn).
    pose proof (Z.mod_pos_bound (base + Z.of_nat j) n Hn). lia.
  - apply list_lookup_singleton_Some in Hj as [Hj <-].
    replace j with (length l) by lia. rewrite list_lookup_insert_eq; [done|lia].
Qed.

Lemma slots_pop {T} n base (arr l : list T) x :
  slots n base arr (x :: l) →
  arr !! Z.to_nat (base mod n) = Some x ∧ slots n (base + 1) arr l.
Proof.
  intros Hs. split; [rewrite <- (Z.add_0_r base); by apply (Hs 0%nat)|].
  intros j y Hj. rewrite <- (Hs (S j) y Hj). do 3 f_equal. lia.
Qed.

Lemma slots_mod {T} n base base' (arr l : list T) :
  base mod n = base' mod n → slots n base arr l → slots n base' arr l.
Proof.
  intros Hb Hs j x Hj. rewrite <- (Hs j x Hj). do 2 f_equal.
  by rewrite <- Zplus_mod_idemp_l, <- Hb, Zplus_mod_idemp_l.
Qed.
