(* ===== verification/Types.v ===== *)
(** The plain data shared by every part of TradeX: include/order.h,
    include/trade.h, include/message.h and include/common.h. *)

From S2P Require Import Prelude.

(** * order.h *)

Definition NULL_IDX : Z := UINT32_MAX.
Definition SYMBOL_BITS : Z := 10.
Definition SYMBOL_MASK : Z := Z.shiftl 1 SYMBOL_BITS - 1.
Definition MAX_SYMBOLS : Z := Z.shiftl 1 SYMBOL_BITS.
Definition GROUP_COUNT : Z := 2.
Definition TOTAL_SYMBOLS : Z := MAX_SYMBOLS * GROUP_COUNT.

Inductive OrderType := BUY | SELL.
Inductive OrderExecutionType := MARKET | LIMIT | STOP_LOSS | ICEBERG.

#[export] Instance OrderType_eq_dec : EqDecision OrderType.
Proof. solve_decision. Defined.
#[export] Instance OrderExecutionType_eq_dec : EqDecision OrderExecutionType.
Proof. solve_decision. Defined.

Record Order := mkOrder {
  o_order_id : Z;
  o_execution_type : OrderExecutionType;
  o_price : Z;
  o_timestamp : Z;
  o_trader_id : Z;
  o_type : OrderType;
  o_symbol_id : Z;
  o_quantity : Z;
  o_client_order_id : Z
}.

#[export] Instance Order_eq_dec : EqDecision Order.
Proof. solve_decision. Defined.

(** [order.quantity = q]. *)
Definition set_quantity (q : Z) (o : Order) : Order :=
  mkOrder (o_order_id o) (o_execution_type o) (o_price o) (o_timestamp o)
    (o_trader_id o) (o_type o) (o_symbol_id o) q (o_client_order_id o).

(** The value ranges the C++ field types enforce. *)
Record order_typed (o : Order) : Prop := {
  ot_order_id : is_u64 (o_order_id o);
  ot_price : is_u64 (o_price o);
  ot_timestamp : is_u64 (o_timestamp o);
  ot_trader_id : is_u64 (o_trader_id o);
  ot_symbol_id : is_u32 (o_symbol_id o);
  ot_quantity : is_u32 (o_quantity o);
  ot_client_order_id : is_u64 (o_client_order_id o)
}.

(** * trade.h *)

Record Trade := mkTrade {
  t_trade_id : Z;
  t_timestamp_ns : Z;
  t_price : Z;
  t_buy_order_id : Z;
  t_sell_order_id : Z;
  t_symbol_id : Z;
  t_quantity : Z
}.

#[export] Instance Trade_eq_dec : EqDecision Trade.
Proof. solve_decision. Defined.

(** [sizeof(matching_engine::Trade)]: five 8-byte and two 4-byte fields. *)
Definition sizeof_Trade : Z := 5 * 8 + 2 * 4.

(** * message.h and common.h *)

Record MarketDataMessage := mkMessage {
  m_trade_id : Z;
  m_timestamp_ns : Z;
  m_price : Z;
  m_symbol_id : Z;
  m_quantity : Z;
  m_seq_num : Z
}.

#[export] Instance MarketDataMessage_eq_dec : EqDecision MarketDataMessage.
Proof. solve_decision. Defined.

(** The struct is [alignas(64)]: its 40 bytes of fields are padded to 64. *)
Definition sizeof_MarketDataMessage : Z := 64.
Definition msg_per_packet : Z := 23.
Definition MAX_MSG_SIZE : Z := msg_per_packet * sizeof_MarketDataMessage.
