(* ===== verification/Heap.v ===== *)
(** Binary heaps in an array: [std::push_heap] and [std::pop_heap] as the
    engine and the OMS use them (directly in src/oms.cpp, and through
    [std::priority_queue] in include/order_book.h), for any comparator that
    is a strict weak order.  The array is a list; the sift steps are those of
    libstdc++ ([__push_heap], [__adjust_heap]) with "move the hole" written
    as "swap with the value in the hole". *)

From S2P Require Import Prelude.
Local Open Scope nat_scope.

(** * The comparator interface *)

Class StrictWeakOrder {A : Type} (comp : A → A → bool) : Prop := {
  swo_asym x y : comp x y = true → comp y x = false;
  swo_cotrans x y z : comp x z = true → comp x y = true ∨ comp y z = true
}.

(** * Operations *)

Section operations.
Context {A : Type} (comp : A → A → bool).

Definition parent (i : nat) : nat := (i - 1) / 2.

Definition swap (i j : nat) (l : list A) : list A :=
  match l !! i, l !! j with
  | Some x, Some y => <[i := y]> (<[j := x]> l)
  | _, _ => l
  end.

(** [__push_heap]: move the value at [i] up while its parent compares less. *)
Fixpoint sift_up (fuel i : nat) (l : list A) : list A :=
  match fuel with
  | 0 => l
  | S fuel =>
      if i =? 0 then l else
      match l !! parent i, l !! i with
      | Some p, Some v =>
          if comp p v then sift_up fuel (parent i) (swap (parent i) i l) else l
      | _, _ => l
      end
  end.

(** [std::push_heap] on a range whose last element has just been appended. *)
Definition push_heap (l : list A) : list A :=
  sift_up (length l) (length l - 1) l.

(** The child [__adjust_heap] moves up: the right one unless it compares less
    than the left one; the lone left child at the end of the array. *)
Definition bigger_child (i : nat) (l : list A) : option nat :=
  match l !! (2 * i + 1), l !! (2 * i + 2) with
  | Some a, Some b => Some (if comp b a then 2 * i + 1 else 2 * i + 2)
  | Some _, None => Some (2 * i + 1)
  | None, _ => None
  end.

(** [__adjust_heap]: sink the hole to a leaf, then [__push_heap] the value. *)
Fixpoint adjust_heap (fuel i : nat) (l : list A) : list A :=
  match fuel with
  | 0 => l
  | S fuel =>
      match bigger_child i l with
      | Some c => adjust_heap fuel c (swap i c l)
      | None => sift_up (S i) i l
      end
  end.

(** [std::pop_heap] followed by [pop_back]: the last value takes the root's
    place in the shortened range and is sifted into position. *)
Definition pop_heap (l : list A) : list A :=
  match last l with
  | None => l
  | Some v =>
      match removelast l with
      | [] => []
      | _ :: tl => adjust_heap (S (length tl)) 0 (v :: tl)
      end
  end.

(** [push_back] then [push_heap]; [priority_queue::push]. *)
Definition heap_push (x : A) (l : list A) : list A := push_heap (l ++ [x]).

(** [front()] / [priority_queue::top]. *)
Definition heap_top (l : list A) : option A := head l.

(** The heap condition: no element compares above its parent. *)
Definition is_heap (l : list A) : Prop :=
  ∀ i p v, 0 < i → l !! parent i = Some p → l !! i = Some v → comp p v = false.

End operations.

(** * Index arithmetic *)

Lemma parent_lt i : 0 < i → parent i < i.
Proof. intros H. unfold parent. pose proof (Nat.Div0.div_le_upper_bound (i - 1) 2 (i-1)). lia. Qed.

Lemma parent_spec j i : 0 < j → parent j = i ↔ j = 2 * i + 1 ∨ j = 2 * i + 2.
Proof.
  intros H. unfold parent.
  pose proof (Nat.div_mod_eq (j - 1) 2). pose proof (Nat.mod_upper_bound (j - 1) 2). lia.
Qed.

(** * Swapping *)

Section swap_facts.
Context {A : Type}.
Implicit Types l : list A.

Lemma length_swap i j l : length (swap i j l) = length l.
Proof. unfold swap. repeat case_match; by rewrite ?length_insert. Qed.

Lemma lookup_swap i j l x y k :
  l !! i = Some x → l !! j = Some y →
  swap i j l !! k = if decide (k = i) then Some y
                    else if decide (k = j) then Some x else l !! k.
Proof.
  intros Hi Hj. unfold swap. rewrite Hi, Hj.
  apply lookup_lt_Some in Hi as ?. apply lookup_lt_Some in Hj as ?.
  repeat case_decide; subst.
  - by rewrite list_lookup_insert_eq by (rewrite length_insert; lia).
  - by rewrite list_lookup_insert_ne, list_lookup_insert_eq by lia.
  - by rewrite !list_lookup_insert_ne by lia.
Qed.

Lemma swap_perm i j l : swap i j l ≡ₚ l.
Proof.
  unfold swap. repeat case_match; try done. by apply Permutation_insert_swap.
Qed.

End swap_facts.

(** * Sifting restores the heap condition *)

Section heap_facts.
Context {A : Type} (comp : A → A → bool) `{!StrictWeakOrder comp}.
Implicit Types l : list A.

Lemma negtrans x y z : comp x y = false → comp y z = false → comp x z = false.
Proof.
  intros H1 H2. destruct (comp x z) eqn:H; [|done].
  destruct (swo_cotrans x y z H); congruence.
Qed.

Lemma comp_irrefl x : comp x x = false.
Proof. destruct (comp x x) eqn:E; [|done]. by rewrite (swo_asym _ _ E) in E. Qed.

Lemma length_sift_up n i l : length (sift_up comp n i l) = length l.
Proof.
  revert i l. induction n as [|n IH]; intros i l; simpl; [done|].
  repeat case_match; try done. by rewrite IH, length_swap.
Qed.

Lemma sift_up_perm n i l : sift_up comp n i l ≡ₚ l.
Proof.
  revert i l. induction n as [|n IH]; intros i l; simpl; [done|].
  repeat case_match; try done. by rewrite IH, swap_perm.
Qed.

Lemma adjust_heap_perm n i l : adjust_heap comp n i l ≡ₚ l.
Proof.
  revert i l. induction n as [|n IH]; intros i l; cbn [adjust_heap]; [done|].
  case_match; [by rewrite IH, swap_perm | apply sift_up_perm].
Qed.

(** The heap condition holds except between [i] and its parent. *)
Definition up_inv (i : nat) l : Prop :=
  (∀ j p v, 0 < j → j ≠ i → l !! parent j = Some p → l !! j = Some v → comp p v = false) ∧
  (∀ j p v, 0 < i → 0 < j → parent j = i →
     l !! parent i = Some p → l !! j = Some v → comp p v = false).

(** ... and also not between [i] and its children. *)
Definition down_inv (i : nat) l : Prop :=
  (∀ j p v, 0 < j → j ≠ i → parent j ≠ i →
     l !! parent j = Some p → l !! j = Some v → comp p v = false) ∧
  (∀ j p v, 0 < i → 0 < j → parent j = i →
     l !! parent i = Some p → l !! j = Some v → comp p v = false).

Lemma up_inv_step i l p v :
  0 < i → up_inv i l → l !! parent i = Some p → l !! i = Some v → comp p v = true →
  up_inv (parent i) (swap (parent i) i l).
Proof.
  intros Hi [H1 H2] Hp Hv Hpv. pose proof (parent_lt i Hi) as Hlt.
  pose proof (swo_asym p v Hpv) as Hvp.
  split; intros j p' v' Hj Hne.
  - pose proof (parent_lt j Hj). rewrite !(lookup_swap _ _ _ p v) by done.
    intros Hpj Hvj. repeat case_decide; simplify_eq; try lia; eauto.
    apply (negtrans _ p); [done|]. eapply (H1 j); eauto with congruence.
  - intros Hpar. pose proof (parent_lt (parent i) Hj). pose proof (parent_lt j Hne).
    rewrite !(lookup_swap _ _ _ p v) by done.
    intros Hpj Hvj. repeat case_decide; simplify_eq; try lia.
    + eapply (H1 (parent i)); eauto with lia.
    + apply (negtrans _ p); [eapply (H1 (parent i)); eauto with lia|].
      eapply (H1 j); eauto with congruence.
Qed.

Lemma sift_up_heap n i l :
  i < n → i < length l → up_inv i l → is_heap comp (sift_up comp n i l).
Proof.
  revert i l. induction n as [|n IH]; intros i l Hn Hl Hinv; [lia|]. simpl.
  destruct (Nat.eqb_spec i 0) as [->|Hi].
  { intros j p v Hj. apply (proj1 Hinv); lia. }
  pose proof (parent_lt i ltac:(lia)) as Hlt.
  destruct (lookup_lt_is_Some_2 l (parent i)) as [p Hp]; [lia|].
  destruct (lookup_lt_is_Some_2 l i) as [v Hv]; [done|].
  rewrite Hp, Hv. destruct (comp p v) eqn:Hpv.
  - apply IH; [lia | rewrite length_swap; lia | by apply up_inv_step with p v; try lia].
  - intros j p' v' Hj Hpj Hvj. destruct (decide (j = i)) as [->|]; [congruence|].
    by eapply (proj1 Hinv j).
Qed.

Lemma bigger_child_spec i l c :
  bigger_child comp i l = Some c →
  0 < c ∧ i < c ∧ parent c = i ∧ c < length l ∧
  ∀ j w s, 0 < j → parent j = i → j ≠ c →
    l !! c = Some w → l !! j = Some s → comp w s = false.
Proof.
  unfold bigger_child. intros H.
  destruct (l !! (2 * i + 1)) as [a|] eqn:Ha; [|done].
  apply lookup_lt_Some in Ha as ?.
  destruct (l !! (2 * i + 2)) as [b|] eqn:Hb.
  - apply lookup_lt_Some in Hb as ?. apply (inj Some) in H; subst c.
    destruct (comp b a) eqn:Hba; split_and!; try lia; try (apply parent_spec; lia);
      intros j w s Hj Hpar Hne Hw Hs; apply parent_spec in Hpar; [|lia| |lia];
      destruct Hpar as [->| ->]; try lia; simplify_eq; try done; by apply swo_asym.
  - apply (inj Some) in H; subst c. split_and!; try lia; [apply parent_spec; lia|].
    intros j w s Hj Hpar Hne Hw Hs. apply parent_spec in Hpar; [|lia].
    destruct Hpar as [->| ->]; [lia|congruence].
Qed.

Lemma bigger_child_None i l j v :
  bigger_child comp i l = None → 0 < j → parent j = i → l !! j = Some v → False.
Proof.
  unfold bigger_child. intros H Hj Hpar Hv.
  apply parent_spec in Hpar; [|lia]. apply lookup_lt_Some in Hv.
  repeat case_match; try done.
  match goal with H : l !! (2 * i + 1) = None |- _ => apply lookup_ge_None in H end. lia.
Qed.

Lemma down_inv_step i c l :
  i < length l → bigger_child comp i l = Some c → down_inv i l → down_inv c (swap i c l).
Proof.
  intros Hil Hc [H1 H2].
  destruct (bigger_child_spec i l c Hc) as (Hc0 & Hic & Hpc & Hcl & Hsib).
  destruct (lookup_lt_is_Some_2 l c Hcl) as [w Hw].
  destruct (lookup_lt_is_Some_2 l i Hil) as [v Hv].
  split; intros j p' v' Hj Hne Hpar.
  - pose proof (parent_lt j Hj). rewrite !(lookup_swap _ _ _ v w) by done.
    intros Hpj Hvj. repeat case_decide; simplify_eq; try lia; eauto.
  - rewrite !(lookup_swap _ _ _ v w) by done. pose proof (parent_lt j Hne).
    intros Hpj Hvj. repeat case_decide; simplify_eq; try lia; try congruence.
    eapply (H1 j); eauto; congruence || lia.
Qed.

Lemma adjust_heap_heap n i l :
  i < length l → length l - i ≤ n → down_inv i l → is_heap comp (adjust_heap comp n i l).
Proof.
  revert i l. induction n as [|n IH]; intros i l Hl Hn Hinv; [lia|].
  cbn [adjust_heap]. destruct (bigger_child comp i l) as [c|] eqn:Hc.
  - destruct (bigger_child_spec i l c Hc) as (? & ? & ? & ? & _).
    apply IH; [rewrite length_swap; lia | rewrite length_swap; lia | by apply down_inv_step].
  - apply sift_up_heap; [lia|done|]. split; [|apply (proj2 Hinv)].
    intros j p v Hj Hne Hp Hv. apply (proj1 Hinv j); try done.
    intros Hpar. by eapply bigger_child_None.
Qed.

(** * What the users of the heap rely on *)

Lemma heap_push_perm x l : heap_push comp x l ≡ₚ x :: l.
Proof.
  unfold heap_push, push_heap. rewrite sift_up_perm. symmetry. apply Permutation_cons_append.
Qed.

Lemma heap_push_heap x l : is_heap comp l → is_heap comp (heap_push comp x l).
Proof.
  intros Hh. unfold heap_push, push_heap. rewrite length_app. simpl.
  apply sift_up_heap; [lia | rewrite length_app; simpl; lia |]. split.
  - intros j p v Hj Hne Hp Hv. apply lookup_lt_Some in Hv as Hjl.
    rewrite length_app in Hjl. simpl in Hjl. pose proof (parent_lt j Hj).
    rewrite lookup_app_l in Hp, Hv by lia. by eapply (Hh j).
  - intros j p v _ Hj Hpar _ Hv. apply lookup_lt_Some in Hv as Hjl.
    rewrite length_app in Hjl. simpl in Hjl. pose proof (parent_lt j Hj). lia.
Qed.

Lemma heap_top_max l x y : is_heap comp l → heap_top l = Some x → y ∈ l → comp x y = false.
Proof.
  intros Hh Hx Hy. apply list_elem_of_lookup in Hy as [i Hi].
  assert (l !! 0 = Some x) as H0 by (destruct l; naive_solver).
  revert i y Hi. induction i as [i IH] using lt_wf_ind. intros y Hi.
  destruct (decide (i = 0)) as [->|Hne].
  { simplify_eq. apply comp_irrefl. }
  pose proof (parent_lt i ltac:(lia)) as Hlt.
  destruct (lookup_lt_is_Some_2 l (parent i)) as [p Hp].
  { apply lookup_lt_Some in Hi. lia. }
  apply (negtrans _ p); [by apply (IH (parent i))|]. by eapply (Hh i); [lia|..].
Qed.

Lemma pop_heap_cons x l :
  pop_heap comp (x :: l) =
  match last l with
  | None => []
  | Some v => adjust_heap comp (length l) 0 (v :: removelast l)
  end.
Proof.
  destruct l as [|y l] using rev_ind; [done|]. unfold pop_heap.
  by rewrite app_comm_cons, !last_snoc, !removelast_last, length_app, Nat.add_1_r.
Qed.

Lemma pop_heap_perm x l : x :: pop_heap comp (x :: l) ≡ₚ x :: l.
Proof.
  rewrite pop_heap_cons. destruct l as [|v l _] using rev_ind; [done|].
  rewrite last_snoc, removelast_last, adjust_heap_perm.
  f_equiv. apply Permutation_cons_append.
Qed.

Lemma pop_heap_heap x l : is_heap comp (x :: l) → is_heap comp (pop_heap comp (x :: l)).
Proof.
  intros Hh. rewrite pop_heap_cons. destruct l as [|v l _] using rev_ind; [by intros ?|].
  rewrite last_snoc, removelast_last, length_app.
  apply adjust_heap_heap; [simpl; lia..|]. split; [|lia].
  intros [|j] p w Hj Hne Hpar Hp Hw; [lia|].
  destruct (parent (S j)) as [|k] eqn:Hk; [lia|]. simpl in Hp, Hw.
  pose proof (parent_lt (S j) Hj). apply lookup_lt_Some in Hw as ?.
  eapply (Hh (S j)); [lia|..].
  - rewrite Hk. simpl. rewrite lookup_app_l; [done|lia].
  - simpl. rewrite lookup_app_l; [done|lia].
Qed.

Lemma is_heap_singleton x : is_heap comp [x].
Proof. intros [|[|i]] p v Hi Hp Hv; simpl in *; [lia|done..]. Qed.

End heap_facts.

(** * The two comparators on numbers *)

#[export] Instance ltb_swo {A} (f : A → Z) : StrictWeakOrder (λ x y, f x <? f y)%Z.
Proof. split; intros; lia. Qed.

#[export] Instance gtb_swo {A} (f : A → Z) : StrictWeakOrder (λ x y, f y <? f x)%Z.
Proof. split; intros; lia. Qed.
