(* ===== verification/MemPool.v ===== *)
(** The order pool and the per-price FIFO queues of include/order_book.h:
    [OrderNode], [MemPool] (a free list threaded through a preallocated
    array) and [PriceQueues] (a doubly linked list of pool indices).

    [None] stands for an access outside the allocated array, which the C++
    code leaves undefined; the theorems show that it does not happen.  The
    representation predicates [free_rep] and [level_rep] relate the linked
    structures to plain lists of indices. *)

From S2P Require Import Prelude Types.

(** * Data *)

Record OrderNode := mkNode { n_order : Order; n_next : Z; n_back : Z }.

Record MemPool := mkPool {
  nodes : list OrderNode;
  freeHead : Z;
  used : Z;
  capacity : Z
}.

Record PriceQueues := mkQueue {
  q_head : Z;
  q_tail : Z;
  q_count : Z;
  q_heap_entry : bool
}.

Definition set_next (z : Z) (n : OrderNode) : OrderNode := mkNode (n_order n) z (n_back n).
Definition set_back (z : Z) (n : OrderNode) : OrderNode := mkNode (n_order n) (n_next n) z.
Definition set_order (o : Order) (n : OrderNode) : OrderNode := mkNode o (n_next n) (n_back n).

Definition with_nodes (ns : list OrderNode) (p : MemPool) : MemPool :=
  mkPool ns (freeHead p) (used p) (capacity p).

(** * MemPool *)

(** [nodes[idx]] read. *)
Definition node_at (p : MemPool) (idx : Z) : option OrderNode :=
  if idx <? 0 then None else nodes p !! Z.to_nat idx.

(** [nodes[idx]] updated in place by [f]. *)
Definition alter_node (idx : Z) (f : OrderNode → OrderNode) (p : MemPool) : option MemPool :=
  n ← node_at p idx;
  Some (with_nodes (<[Z.to_nat idx := f n]> (nodes p)) p).

(** [for(i = 0; i<capacity-1; i++) nodes[i].next = i+1; nodes[capacity-1].next = NULL_IDX;] *)
Definition link_free (mem : list OrderNode) : list OrderNode :=
  imap (λ i n, set_next (if Nat.eqb (S i) (length mem) then NULL_IDX else u32 (Z.of_nat i + 1)) n) mem.

(** The constructor: [mem] is the block [malloc] returned ([None] for a null
    pointer, where the code throws [std::bad_alloc]); its contents are
    arbitrary.  A capacity of zero makes [capacity-1] wrap and the first write
    leave the block. *)
Definition MemPool_new (mem : option (list OrderNode)) : option MemPool :=
  mem ← mem;
  if Nat.eqb (length mem) 0 then None
  else Some (mkPool (link_free mem) 0 0 (Z.of_nat (length mem))).

Definition allocate (p : MemPool) : option (Z * MemPool) :=
  if freeHead p =? NULL_IDX then Some (NULL_IDX, p)
  else
    let idx := freeHead p in
    n ← node_at p idx;
    p ← alter_node idx (λ n, set_back NULL_IDX (set_next NULL_IDX n)) p;
    Some (idx, mkPool (nodes p) (n_next n) (u64 (used p + 1)) (capacity p)).

(** [idx] is an [int]; the comparison with [NULL_IDX] is unsigned. *)
Definition deallocate (idx : Z) (p : MemPool) : option MemPool :=
  if u32 idx =? NULL_IDX then Some p
  else
    p ← alter_node idx (set_next (freeHead p)) p;
    Some (mkPool (nodes p) (u32 idx) (u64 (used p - 1)) (capacity p)).

(** [getNode(int idx)], then read or update through the pointer. *)
Definition getNode (p : MemPool) (idx : Z) : option OrderNode := node_at p (s32 idx).
Definition updNode (idx : Z) (f : OrderNode → OrderNode) (p : MemPool) : option MemPool :=
  alter_node (s32 idx) f p.

(** * PriceQueues *)

Definition PriceQueues_new : PriceQueues := mkQueue NULL_IDX NULL_IDX 0 false.

Definition gethead (q : PriceQueues) (p : MemPool) : option OrderNode := getNode p (q_head q).

Definition isEmpty (q : PriceQueues) : bool := q_count q =? 0.
Definition has_heap_entry (q : PriceQueues) : bool := q_heap_entry q.
Definition set_heap_entry (v : bool) (q : PriceQueues) : PriceQueues :=
  mkQueue (q_head q) (q_tail q) (q_count q) v.

(** The returned index is an [int]. *)
Definition insertOrder (order : Order) (q : PriceQueues) (p : MemPool)
  : option (Z * PriceQueues * MemPool) :=
  '(idx, p) ← allocate p;
  if idx =? NULL_IDX then Some (s32 NULL_IDX, q, p)
  else
    p ← updNode idx (set_order order) p;
    '(head, tail, p) ←
      (if q_head q =? NULL_IDX then Some (idx, idx, p)
       else
         p ← updNode (q_tail q) (set_next idx) p;
         p ← updNode idx (set_back (q_tail q)) p;
         Some (q_head q, idx, p));
    Some (s32 idx, mkQueue head tail (u64 (q_count q + 1)) (q_heap_entry q), p).

(** [removeOrder], first branch: the predecessor (or the head) skips [idx]. *)
Definition relink_prev (idx prev next : Z) (q : PriceQueues) (p : MemPool)
  : option (Z * MemPool) :=
  if u32 idx =? q_head q then
    p ← (if next =? NULL_IDX then Some p else updNode next (set_back NULL_IDX) p);
    Some (next, p)
  else
    p ← updNode prev (set_next next) p;
    Some (q_head q, p).

(** [removeOrder], second branch: the successor (or the tail) skips [idx]. *)
Definition relink_next (idx prev next : Z) (q : PriceQueues) (p : MemPool)
  : option (Z * MemPool) :=
  if u32 idx =? q_tail q then Some (prev, p)
  else
    p ← (if next =? NULL_IDX then Some p else updNode next (set_back prev) p);
    Some (q_tail q, p).

(** [idx] is an [int]. *)
Definition removeOrder (idx : Z) (q : PriceQueues) (p : MemPool)
  : option (bool * PriceQueues * MemPool) :=
  if u32 idx =? NULL_IDX then Some (false, q, p)
  else
    node ← getNode p idx;
    let prev := n_back node in
    let next := n_next node in
    '(head, p) ← relink_prev idx prev next q p;
    '(tail, p) ← relink_next idx prev next q p;
    p ← deallocate idx p;
    Some (true, mkQueue head tail (u64 (q_count q - 1)) (q_heap_entry q), p).

(** * Representation predicates *)

(** The link stored for "the first of [l], or [z] when there is none". *)
Definition link_or (l : list nat) (z : Z) : Z :=
  match l with [] => z | i :: _ => Z.of_nat i end.
Definition last_or (z : Z) (l : list nat) : Z :=
  match last l with None => z | Some i => Z.of_nat i end.

(** [seg ns prev l nxt]: the nodes [l] are doubly linked in this order, the
    first one's [back] is [prev] and the last one's [next] is [nxt]. *)
Fixpoint seg (ns : list OrderNode) (prev : Z) (l : list nat) (nxt : Z) : Prop :=
  match l with
  | [] => True
  | i :: l' => ∃ n, ns !! i = Some n ∧ n_back n = prev ∧ n_next n = link_or l' nxt ∧
                    seg ns (Z.of_nat i) l' nxt
  end.

(** The free list is singly linked. *)
Fixpoint fseg (ns : list OrderNode) (l : list nat) : Prop :=
  match l with
  | [] => True
  | i :: l' => ∃ n, ns !! i = Some n ∧ n_next n = link_or l' NULL_IDX ∧ fseg ns l'
  end.

Record level_rep (ns : list OrderNode) (q : PriceQueues) (l : list nat) : Prop := {
  lr_head : q_head q = link_or l NULL_IDX;
  lr_tail : q_tail q = last_or NULL_IDX l;
  lr_count : q_count q = Z.of_nat (length l);
  lr_seg : seg ns NULL_IDX l NULL_IDX
}.

(** [fl] is the free list, [u] the indices in use; together they are exactly
    the cells of the pool. *)
Record pool_rep (p : MemPool) (fl u : list nat) : Prop := {
  pr_cap : capacity p = Z.of_nat (length (nodes p));
  pr_small : Z.of_nat (length (nodes p)) <= 2 ^ 31;
  pr_head : freeHead p = link_or fl NULL_IDX;
  pr_free : fseg (nodes p) fl;
  pr_used : used p = Z.of_nat (length u);
  pr_part : fl ++ u ≡ₚ seq 0 (length (nodes p))
}.

(** The orders stored at a list of indices. *)
Definition orders_at (ns : list OrderNode) (l : list nat) : list Order :=
  omap (λ i, n_order <$> ns !! i) l.

(** * Segments *)

Lemma last_or_cons z i l : last_or z (i :: l) = last_or (Z.of_nat i) l.
Proof. unfold last_or. rewrite last_cons. by destruct (last l). Qed.

Lemma last_or_snoc z l i : last_or z (l ++ [i]) = Z.of_nat i.
Proof. unfold last_or. by rewrite last_snoc. Qed.

Lemma last_or_app z l1 l2 : last_or z (l1 ++ l2) = last_or (last_or z l1) l2.
Proof. unfold last_or. rewrite last_app. by destruct (last l2). Qed.

Lemma link_or_app l1 l2 z : link_or (l1 ++ l2) z = link_or l1 (link_or l2 z).
Proof. by destruct l1. Qed.

Lemma seg_app ns prev l1 l2 nxt :
  seg ns prev (l1 ++ l2) nxt ↔
  seg ns prev l1 (link_or l2 nxt) ∧ seg ns (last_or prev l1) l2 nxt.
Proof.
  revert prev. induction l1 as [|i l1 IH]; intros prev; simpl; [naive_solver|].
  setoid_rewrite IH. rewrite link_or_app, last_or_cons. naive_solver.
Qed.

Lemma seg_frame ns ns' prev l nxt :
  (∀ i, i ∈ l → ns' !! i = ns !! i) → seg ns prev l nxt → seg ns' prev l nxt.
Proof.
  revert prev. induction l as [|i l IH]; intros prev Heq; simpl; [done|].
  intros (n & Hn & Hb & Hx & Hs). exists n. split_and!; try done.
  - rewrite Heq; [done|by left].
  - apply IH; [|done]. intros j Hj. apply Heq. by right.
Qed.

Lemma fseg_frame ns ns' l :
  (∀ i, i ∈ l → ns' !! i = ns !! i) → fseg ns l → fseg ns' l.
Proof.
  induction l as [|i l IH]; intros Heq; simpl; [done|].
  intros (n & Hn & Hx & Hs). exists n. split_and!; try done.
  - rewrite Heq; [done|by left].
  - apply IH; [|done]. intros j Hj. apply Heq. by right.
Qed.

Lemma seg_elem ns prev l nxt i : seg ns prev l nxt → i ∈ l → is_Some (ns !! i).
Proof.
  revert prev. induction l as [|j l IH]; intros prev; simpl; [set_solver|].
  intros (n & Hn & _ & _ & Hs) [->|Hi]%elem_of_cons; eauto.
Qed.

(** Re-linking the last node of a segment forward. *)
Lemma seg_set_nxt ns ns' prev l t n z z' :
  seg ns prev (l ++ [t]) z →
  (∀ j, j ∈ l → ns' !! j = ns !! j) →
  ns !! t = Some n → ns' !! t = Some (set_next z' n) →
  seg ns' prev (l ++ [t]) z'.
Proof.
  rewrite !seg_app. intros [H1 H2] Hfr Hn Hn'. split.
  - by eapply seg_frame.
  - simpl in *. destruct H2 as (n' & ? & ? & ? & _). assert (n' = n) as -> by congruence.
    by exists (set_next z' n).
Qed.

(** Re-linking the first node of a segment backward. *)
Lemma seg_set_prev ns ns' prev prev' t l n z :
  seg ns prev (t :: l) z →
  (∀ j, j ∈ l → ns' !! j = ns !! j) →
  ns !! t = Some n → ns' !! t = Some (set_back prev' n) →
  seg ns' prev' (t :: l) z.
Proof.
  simpl. intros (n' & ? & ? & ? & Hs) Hfr Hn Hn'. assert (n' = n) as -> by congruence.
  exists (set_back prev' n). split_and!; try done. by eapply seg_frame.
Qed.

(** Node access by an in-range index. *)
Section access.
Context (p : MemPool) (i : nat).

Lemma node_at_nat : node_at p (Z.of_nat i) = nodes p !! i.
Proof. unfold node_at. rewrite Nat2Z.id. destruct (Z.ltb_spec (Z.of_nat i) 0); [lia|done]. Qed.

Lemma alter_node_nat f n :
  nodes p !! i = Some n →
  alter_node (Z.of_nat i) f p = Some (with_nodes (<[i := f n]> (nodes p)) p).
Proof. intros H. unfold alter_node. rewrite node_at_nat, H. simpl. by rewrite Nat2Z.id. Qed.

Lemma s32_nat : Z.of_nat i < 2 ^ 31 → s32 (Z.of_nat i) = Z.of_nat i.
Proof. intros. apply s32_small. lia. Qed.

Lemma u32_nat : Z.of_nat i < 2 ^ 31 → u32 (Z.of_nat i) = Z.of_nat i.
Proof. intros. apply u32_small. unfold is_u32. lia. Qed.

Lemma getNode_nat : Z.of_nat i < 2 ^ 31 → getNode p (Z.of_nat i) = nodes p !! i.
Proof. intros. unfold getNode. by rewrite s32_nat, node_at_nat. Qed.

Lemma updNode_nat f n :
  Z.of_nat i < 2 ^ 31 → nodes p !! i = Some n →
  updNode (Z.of_nat i) f p = Some (with_nodes (<[i := f n]> (nodes p)) p).
Proof. intros. unfold updNode. rewrite s32_nat by done. by apply alter_node_nat. Qed.

Lemma nat_not_NULL : Z.of_nat i < 2 ^ 31 → (Z.of_nat i =? NULL_IDX) = false.
Proof. unfold NULL_IDX, UINT32_MAX. lia. Qed.

End access.

Lemma pool_rep_lt p fl u i : pool_rep p fl u → i ∈ fl ++ u → Z.of_nat i < 2 ^ 31.
Proof.
  intros [_ Hs _ _ _ Hp] Hi. rewrite Hp in Hi. apply elem_of_seq in Hi. lia.
Qed.

Lemma pool_rep_NoDup p fl u : pool_rep p fl u → NoDup (fl ++ u).
Proof. intros [_ _ _ _ _ Hp]. rewrite Hp. apply NoDup_seq. Qed.

Lemma pool_rep_perm p fl u u' : u ≡ₚ u' → pool_rep p fl u → pool_rep p fl u'.
Proof.
  intros Hu []. split; try done; [by rewrite <- Hu|by rewrite <- Hu].
Qed.

Lemma pool_rep_length p fl u : pool_rep p fl u → (length fl + length u = length (nodes p))%nat.
Proof.
  intros [_ _ _ _ _ Hp]. apply Permutation_length in Hp.
  by rewrite length_app, length_seq in Hp.
Qed.

(** Changing nodes that are in use keeps the pool well formed. *)
Lemma pool_rep_with_nodes p fl u ns :
  pool_rep p fl u → length ns = length (nodes p) →
  (∀ j, j ∈ fl → ns !! j = nodes p !! j) → pool_rep (with_nodes ns p) fl u.
Proof.
  intros [] Hl Hfl. split; simpl; rewrite ?Hl; try done. by eapply fseg_frame.
Qed.

Ltac lookups :=
  repeat first
    [ rewrite list_lookup_insert_eq by (rewrite ?length_insert; lia)
    | rewrite list_lookup_insert_ne by first [done | lia | set_solver] ].

(** * Allocation *)

Lemma allocate_empty p u : pool_rep p [] u → allocate p = Some (NULL_IDX, p).
Proof. intros [_ _ Hh _ _ _]. unfold allocate. by rewrite Hh. Qed.

Lemma allocate_cons p i fl u :
  pool_rep p (i :: fl) u →
  ∃ n p', nodes p !! i = Some n ∧ allocate p = Some (Z.of_nat i, p') ∧
    pool_rep p' fl (i :: u) ∧
    nodes p' = <[i := mkNode (n_order n) NULL_IDX NULL_IDX]> (nodes p).
Proof.
  intros Hp. pose proof (pool_rep_lt p (i :: fl) u i Hp ltac:(set_solver)) as Hi.
  pose proof (pool_rep_NoDup _ _ _ Hp) as Hnd. pose proof (pool_rep_length _ _ _ Hp) as Hlen.
  destruct Hp as [Hc Hs Hh (n & Hn & Hx & Hf) Hu Hpart]. simpl in Hh, Hlen.
  unfold allocate. rewrite Hh, nat_not_NULL, node_at_nat, Hn by done. simpl.
  rewrite (alter_node_nat p i _ n Hn). simpl. do 2 eexists. split_and!; try done.
  split; simpl; rewrite ?length_insert; try done.
  - eapply fseg_frame; [|done]. intros j Hj. apply list_lookup_insert_ne.
    rewrite <- app_comm_cons, NoDup_cons in Hnd. set_solver.
  - rewrite Hu, u64_small; mach.
  - by rewrite <- Permutation_middle.
Qed.

(** * Insertion at the back of a level *)

Lemma insertOrder_full o q p u :
  pool_rep p [] u → insertOrder o q p = Some (-1, q, p).
Proof. intros Hp. unfold insertOrder. by rewrite (allocate_empty p u Hp). Qed.

(** Appending the node [i] after the tail [t] of a level. *)
Lemma level_append ns ns' q l t i nt o :
  level_rep ns q (l ++ [t]) → (t ∉ l) → ns !! t = Some nt →
  (∀ j, j ∈ l → ns' !! j = ns !! j) → ns' !! t = Some (set_next (Z.of_nat i) nt) →
  ns' !! i = Some (mkNode o NULL_IDX (Z.of_nat t)) → Z.of_nat (length l) + 2 < 2 ^ 64 →
  level_rep ns' (mkQueue (q_head q) (Z.of_nat i) (u64 (q_count q + 1)) (q_heap_entry q)) ((l ++ [t]) ++ [i]).
Proof.
  intros [Hh Ht Hc Hseg] Htl Hnt Hl Ht' Hi' Hlen. split; simpl.
  - by rewrite Hh, !link_or_app.
  - by rewrite last_or_snoc.
  - rewrite Hc, u64_small; rewrite !length_app in *; simpl in *; [lia|mach].
  - apply seg_app. rewrite last_or_snoc. split; [|by eexists].
    by apply (seg_set_nxt ns ns' _ l t nt NULL_IDX).
Qed.

Lemma insertOrder_ok o q p i fl l r :
  pool_rep p (i :: fl) (l ++ r) → level_rep (nodes p) q l →
  ∃ q' p', insertOrder o q p = Some (Z.of_nat i, q', p') ∧
    pool_rep p' fl (i :: l ++ r) ∧ level_rep (nodes p') q' (l ++ [i]) ∧
    q_heap_entry q' = q_heap_entry q ∧
    (n_order <$> nodes p' !! i) = Some o ∧
    (∀ j, j ∉ l → j ≠ i → nodes p' !! j = nodes p !! j) ∧
    (∀ j, j ≠ i → (n_order <$> nodes p' !! j) = (n_order <$> nodes p !! j)).
Proof.
  intros Hp Hlev. pose proof Hlev as [Hh Ht Hc Hseg].
  pose proof (λ j, pool_rep_lt p (i :: fl) (l ++ r) j Hp) as Hlt.
  pose proof (pool_rep_NoDup _ _ _ Hp) as Hnd.
  pose proof (pool_rep_length _ _ _ Hp) as Hlen.
  assert (Z.of_nat (length (nodes p)) <= 2 ^ 31) as Hsmall by apply Hp.
  destruct (allocate_cons p i fl (l ++ r) Hp) as (n & p1 & Hn & Hal & Hp1 & Hns1).
  assert (Z.of_nat i < 2 ^ 31) as Hi by (apply Hlt; set_solver).
  assert (i < length (nodes p))%nat as Hil by by eapply lookup_lt_Some.
  assert ((i ∉ l) ∧ (i ∉ fl)) as [Hil' Hifl].
  { rewrite <- app_comm_cons, NoDup_cons in Hnd. set_solver. }
  assert (∀ j, j ∈ fl → j ∉ l) as Hdis.
  { apply NoDup_app in Hnd as (_ & Hnd & _). set_solver. }
  assert (nodes p1 !! i = Some (mkNode (n_order n) NULL_IDX NULL_IDX)) as Hn1.
  { by rewrite Hns1, list_lookup_insert_eq. }
  unfold insertOrder. rewrite Hal. simpl. rewrite nat_not_NULL by done.
  rewrite (updNode_nat p1 i _ _ Hi Hn1). simpl. rewrite Hh, s32_nat by done.
  destruct l as [|t l _] using rev_ind; simpl.
  - do 2 eexists. split_and!; try done; simpl.
    + apply (pool_rep_with_nodes p1); [done|by rewrite length_insert|].
      intros j Hj. apply list_lookup_insert_ne. set_solver.
    + split; simpl; try done.
      * rewrite Hc. by vm_compute.
      * eexists. rewrite list_lookup_insert_eq by (rewrite Hns1, length_insert; lia). done.
    + by rewrite list_lookup_insert_eq by (rewrite Hns1, length_insert; lia).
    + intros j _ Hj. by rewrite list_lookup_insert_ne, Hns1, list_lookup_insert_ne by done.
    + intros j Hj. by rewrite list_lookup_insert_ne, Hns1, list_lookup_insert_ne by done.
  - rewrite Ht, last_or_snoc.
    assert (Z.of_nat t < 2 ^ 31) as Htl by (apply Hlt; set_solver).
    assert (i ≠ t) as Hit by set_solver.
    assert (t ∉ l) as Htnl.
    { apply NoDup_app in Hnd as (_ & _ & Hnd). rewrite <- app_assoc, NoDup_app in Hnd.
      set_solver. }
    destruct (seg_elem _ _ _ _ t Hseg ltac:(set_solver)) as [nt Hnt].
    assert (t < length (nodes p))%nat as Htl' by by eapply lookup_lt_Some.
    rewrite link_or_app. replace (link_or l (link_or [t] NULL_IDX) =? NULL_IDX) with false.
    2: { destruct l as [|h l]; simpl; symmetry; apply nat_not_NULL; [done|].
         apply Hlt. set_solver. }
    rewrite (updNode_nat _ t _ nt); [|done|by simpl; rewrite Hns1; lookups]. simpl.
    erewrite updNode_nat; [|done|simpl; rewrite Hns1; by lookups]. simpl.
    do 2 eexists. split_and!; try done; simpl.
    + apply (pool_rep_with_nodes p1); [done|by rewrite !length_insert|].
      intros j Hj. specialize (Hdis j Hj). by rewrite !list_lookup_insert_ne by set_solver.
    + rewrite link_or_app in Hh. simpl in Hh. rewrite <- Hh. apply (level_append (nodes p) _ q l t i nt o); try done.
      * intros j Hj. rewrite Hns1. by rewrite !list_lookup_insert_ne by set_solver.
      * rewrite Hns1. by lookups.
      * rewrite Hns1. by lookups.
      * rewrite !length_app in Hlen. simpl in Hlen. lia.
    + rewrite Hns1. by lookups.
    + intros j Hj Hji. by rewrite Hns1, !list_lookup_insert_ne by set_solver.
    + intros j Hj. rewrite Hns1. destruct (decide (j = t)) as [->|]; lookups; [|done].
      by rewrite Hnt.
Qed.

(** * Removal from any position of a level *)

Lemma updNode_alter p i f :
  Z.of_nat i < 2 ^ 31 → (i < length (nodes p))%nat →
  updNode (Z.of_nat i) f p = Some (with_nodes (alter f i (nodes p)) p).
Proof.
  intros Hi Hl. destruct (lookup_lt_is_Some_2 (nodes p) i Hl) as [n Hn].
  rewrite (updNode_nat p i f n Hi Hn). by rewrite (insert_alter_read _ _ _ n).
Qed.

Lemma deallocate_ok p i fl u :
  pool_rep p fl (i :: u) →
  ∃ p', deallocate (Z.of_nat i) p = Some p' ∧ pool_rep p' (i :: fl) u ∧
    nodes p' = alter (set_next (freeHead p)) i (nodes p).
Proof.
  intros Hp. pose proof (pool_rep_lt p fl (i :: u) i Hp ltac:(set_solver)) as Hi.
  pose proof (pool_rep_NoDup _ _ _ Hp) as Hnd. pose proof (pool_rep_length _ _ _ Hp) as Hlen.
  destruct Hp as [Hc Hs Hh Hf Hu Hpart].
  assert (i < length (nodes p))%nat as Hil.
  { assert (i ∈ fl ++ i :: u) as Hin by set_solver.
    rewrite Hpart, elem_of_seq in Hin. lia. }
  destruct (lookup_lt_is_Some_2 _ _ Hil) as [n Hn].
  unfold deallocate. rewrite u32_nat, nat_not_NULL by done.
  rewrite (alter_node_nat p i _ n Hn). simpl. eexists. split; [done|]. simpl.
  split; [|by rewrite (insert_alter_read _ _ _ n)].
  split; simpl; rewrite ?length_insert; try done.
  - eexists. rewrite list_lookup_insert_eq by done. split_and!; try done.
    eapply fseg_frame; [|done]. intros j Hj. apply list_lookup_insert_ne.
    apply NoDup_app in Hnd as (_ & Hnd & _). set_solver.
  - rewrite Hu, u64_small; simpl in *; mach.
  - by rewrite Permutation_middle.
Qed.

(** The nodes after [relink_prev], then after [relink_next]. *)
Definition nodes_prev (ns : list OrderNode) (l1 l2 : list nat) : list OrderNode :=
  match last l1, l2 with
  | Some t, _ => alter (set_next (link_or l2 NULL_IDX)) t ns
  | None, h :: _ => alter (set_back NULL_IDX) h ns
  | None, [] => ns
  end.
Definition nodes_next (ns : list OrderNode) (l1 l2 : list nat) : list OrderNode :=
  match l2 with
  | [] => nodes_prev ns l1 l2
  | h :: _ => alter (set_back (last_or NULL_IDX l1)) h (nodes_prev ns l1 l2)
  end.

Lemma removed_node ns q l1 i l2 :
  level_rep ns q (l1 ++ i :: l2) →
  ∃ n, ns !! i = Some n ∧ n_back n = last_or NULL_IDX l1 ∧ n_next n = link_or l2 NULL_IDX.
Proof. intros [_ _ _ Hs]. apply seg_app in Hs as [_ Hs]. naive_solver. Qed.

Lemma in_range ns q l j : level_rep ns q l → j ∈ l → (j < length ns)%nat.
Proof.
  intros Hr Hj. destruct (seg_elem _ _ _ _ j (lr_seg _ _ _ Hr) Hj) as [? ?].
  by eapply lookup_lt_Some.
Qed.

(** A level [l1 ++ i :: l2] from which [i] is removed. *)
Record removal (ns : list OrderNode) (q : PriceQueues) (l1 : list nat) (i : nat) (l2 : list nat)
  : Prop := {
  rm_lt : ∀ j, j ∈ l1 ++ i :: l2 → Z.of_nat j < 2 ^ 31;
  rm_nodup : NoDup (l1 ++ i :: l2);
  rm_rep : level_rep ns q (l1 ++ i :: l2)
}.

Lemma relink_prev_ok ns q l1 i l2 p :
  removal ns q l1 i l2 → nodes p = ns →
  relink_prev (Z.of_nat i) (last_or NULL_IDX l1) (link_or l2 NULL_IDX) q p =
  Some (link_or (l1 ++ l2) NULL_IDX, with_nodes (nodes_prev ns l1 l2) p).
Proof.
  intros [Hlt Hnd Hrep] Hp. unfold relink_prev, nodes_prev.
  rewrite (lr_head _ _ _ Hrep), u32_nat by (apply Hlt; set_solver).
  destruct l1 as [|h l _] using rev_ind.
  - simpl. rewrite Z.eqb_refl. destruct l2 as [|h l]; simpl; [by rewrite <- Hp; destruct p|].
    rewrite nat_not_NULL by (apply Hlt; set_solver).
    rewrite updNode_alter by (first [apply Hlt | rewrite ?Hp; apply (in_range _ _ _ _ Hrep)]; set_solver).
    by rewrite Hp.
  - rewrite last_snoc, last_or_snoc. rewrite !link_or_app. simpl.
    replace (Z.of_nat i =? link_or l (Z.of_nat h)) with false.
    2: { symmetry. apply Z.eqb_neq. intros Heq.
         rewrite <- app_assoc in Hnd. simpl in Hnd.
         destruct l as [|j l]; simpl in Heq; apply (inj Z.of_nat) in Heq; subst.
         - by apply NoDup_cons in Hnd as [Hn _]; set_solver.
         - by apply NoDup_cons in Hnd as [Hn _]; set_solver. }
    rewrite updNode_alter by (first [apply Hlt | rewrite ?Hp; apply (in_range _ _ _ _ Hrep)]; set_solver).
    by rewrite Hp.
Qed.

Lemma relink_next_ok ns q l1 i l2 p :
  removal ns q l1 i l2 → nodes p = nodes_prev ns l1 l2 →
  relink_next (Z.of_nat i) (last_or NULL_IDX l1) (link_or l2 NULL_IDX) q p =
  Some (last_or NULL_IDX (l1 ++ l2), with_nodes (nodes_next ns l1 l2) p).
Proof.
  intros [Hlt Hnd Hrep] Hp. unfold relink_next, nodes_next.
  assert (length (nodes_prev ns l1 l2) = length ns) as Hlen.
  { unfold nodes_prev. repeat case_match; by rewrite ?length_alter. }
  rewrite (lr_tail _ _ _ Hrep), u32_nat by (apply Hlt; set_solver).
  destruct l2 as [|h l].
  - rewrite last_or_snoc, Z.eqb_refl, app_nil_r. by rewrite <- Hp; destruct p.
  - rewrite !last_or_app, !last_or_cons.
    replace (Z.of_nat i =? last_or (Z.of_nat h) l) with false.
    2: { symmetry. apply Z.eqb_neq. unfold last_or.
         apply NoDup_app in Hnd as (_ & _ & [Hn _]%NoDup_cons).
         destruct (last l) as [t|] eqn:Ht; [apply last_Some_elem_of in Ht|];
           intros Heq%(inj Z.of_nat); set_solver. }
    simpl. rewrite nat_not_NULL by (apply Hlt; set_solver).
    rewrite updNode_alter by
      (first [apply Hlt | rewrite ?Hp, ?Hlen; apply (in_range _ _ _ _ Hrep)]; set_solver).
    by rewrite Hp.
Qed.

Lemma nodes_next_frame ns l1 l2 j : j ∉ l1 → j ∉ l2 → nodes_next ns l1 l2 !! j = ns !! j.
Proof.
  intros H1 H2. unfold nodes_next, nodes_prev.
  destruct (last l1) as [t|] eqn:Ht; [apply last_Some_elem_of in Ht|];
    destruct l2; rewrite ?list_lookup_alter_ne by set_solver; done.
Qed.

Lemma nodes_next_order ns l1 l2 j :
  (n_order <$> nodes_next ns l1 l2 !! j) = (n_order <$> ns !! j).
Proof.
  unfold nodes_next, nodes_prev.
  repeat case_match; rewrite ?list_lookup_alter; repeat case_decide; subst;
    rewrite ?list_lookup_alter; repeat case_decide; subst; try done;
    by destruct (ns !! _).
Qed.

Lemma nodes_next_seg ns q l1 i l2 :
  removal ns q l1 i l2 → seg (nodes_next ns l1 l2) NULL_IDX (l1 ++ l2) NULL_IDX.
Proof.
  intros [_ Hnd [_ _ _ Hs]]. apply seg_app in Hs as [Hs1 Hs2]. simpl in Hs1, Hs2.
  destruct Hs2 as (n & Hn & _ & _ & Hs2).
  pose proof Hnd as (Hnd1 & Hdis & Hnd2)%NoDup_app.
  apply NoDup_cons in Hnd2 as [Hi2 Hnd2].
  apply seg_app. split.
  - destruct l1 as [|t l _] using rev_ind; [done|].
    destruct (seg_elem _ _ _ _ t Hs1 ltac:(set_solver)) as [nt Hnt].
    apply NoDup_app in Hnd1 as (_ & Hd & _).
    apply (seg_set_nxt ns _ _ _ _ nt (Z.of_nat i)); try done; unfold nodes_next, nodes_prev;
      rewrite last_snoc.
    + intros j Hj. destruct l2; rewrite ?list_lookup_alter_ne by set_solver; done.
    + destruct l2; rewrite ?list_lookup_alter_ne by set_solver;
        by rewrite list_lookup_alter_eq, Hnt.
  - destruct l2 as [|h l]; [done|].
    destruct (seg_elem _ _ _ _ h Hs2 ltac:(set_solver)) as [nh Hnh].
    apply NoDup_cons in Hnd2 as [Hhl _].
    apply (seg_set_prev ns _ (Z.of_nat i) _ _ _ nh); try done; unfold nodes_next, nodes_prev.
    + intros j Hj. rewrite list_lookup_alter_ne by set_solver.
      destruct (last l1) as [t|] eqn:Ht; [apply last_Some_elem_of in Ht|];
        by rewrite list_lookup_alter_ne by set_solver.
    + rewrite list_lookup_alter_eq.
      destruct (last l1) as [t|] eqn:Ht.
      * apply last_Some_elem_of in Ht. by rewrite list_lookup_alter_ne, Hnh by set_solver.
      * by rewrite list_lookup_alter_eq, Hnh.
Qed.

Lemma removeOrder_ok q p fl l1 i l2 r :
  pool_rep p fl ((l1 ++ i :: l2) ++ r) → level_rep (nodes p) q (l1 ++ i :: l2) →
  ∃ q' p', removeOrder (Z.of_nat i) q p = Some (true, q', p') ∧
    pool_rep p' (i :: fl) ((l1 ++ l2) ++ r) ∧ level_rep (nodes p') q' (l1 ++ l2) ∧
    q_heap_entry q' = q_heap_entry q ∧
    (∀ j, j ∉ l1 ++ i :: l2 → nodes p' !! j = nodes p !! j) ∧
    (∀ j, (n_order <$> nodes p' !! j) = (n_order <$> nodes p !! j)).
Proof.
  intros Hp Hl.
  assert (∀ j, j ∈ l1 ++ i :: l2 → Z.of_nat j < 2 ^ 31) as Hlt.
  { intros j Hj. eapply pool_rep_lt; [done|]. set_solver. }
  pose proof (pool_rep_NoDup _ _ _ Hp) as (_ & Hdis & (Hnd & _ & _)%NoDup_app)%NoDup_app.
  assert (removal (nodes p) q l1 i l2) as Hrm by done.
  destruct (removed_node _ _ _ _ _ Hl) as (n & Hn & Hb & Hx).
  unfold removeOrder. rewrite u32_nat, nat_not_NULL, getNode_nat, Hn by (apply Hlt; set_solver).
  simpl. rewrite Hb, Hx, (relink_prev_ok (nodes p) q l1 i l2 p) by done. simpl.
  rewrite (relink_next_ok (nodes p) q l1 i l2) by done. simpl.
  set (ns' := nodes_next (nodes p) l1 l2).
  assert (pool_rep (with_nodes ns' p) fl (i :: (l1 ++ l2) ++ r)) as Hp2.
  { eapply pool_rep_perm; [by rewrite app_comm_cons, Permutation_middle|].
    apply pool_rep_with_nodes; [done|..].
    - unfold ns', nodes_next, nodes_prev. repeat case_match; by rewrite ?length_alter.
    - intros j Hj. specialize (Hdis j Hj). apply nodes_next_frame; set_solver. }
  destruct (deallocate_ok _ _ _ _ Hp2) as (p' & Hde & Hp' & Hns).
  simpl in Hns. change (with_nodes _ (with_nodes _ p)) with (with_nodes ns' p).
  rewrite Hde. simpl. do 2 eexists. split; [done|].
  apply NoDup_app in Hnd as (_ & Hd1 & [Hd2 _]%NoDup_cons).
  assert (i ∉ l1 ++ l2) as Hi by set_solver.
  pose proof (pool_rep_length _ _ _ Hp) as Hlen. pose proof (pr_small _ _ _ Hp) as Hsm.
  rewrite Hns. split_and!; try done.
  - split; simpl; try done.
    + destruct Hl as [_ _ -> _]. rewrite !length_app in *. simpl in *.
      rewrite u64_small; mach.
    + eapply seg_frame; [|by eapply nodes_next_seg].
      intros j Hj. apply list_lookup_alter_ne. set_solver.
  - intros j Hj. rewrite list_lookup_alter_ne by set_solver. apply nodes_next_frame; set_solver.
  - intros j. rewrite <- (nodes_next_order (nodes p) l1 l2 j), list_lookup_alter.
    fold ns'. case_decide; subst; [by destruct (ns' !! j)|done].
Qed.

(** * The fresh pool *)

Lemma link_free_fseg mem k :
  Z.of_nat (length mem) <= 2 ^ 31 → (k ≤ length mem)%nat →
  fseg (link_free mem) (seq k (length mem - k)).
Proof.
  intros Hs Hk. remember (length mem - k)%nat as m eqn:Hm.
  revert k Hk Hm. induction m as [|m IH]; intros k Hk Hm; simpl; [done|].
  destruct (lookup_lt_is_Some_2 mem k) as [n Hn]; [lia|].
  eexists. split_and!; [unfold link_free; by rewrite list_lookup_imap, Hn| |apply IH; lia].
  unfold set_next; cbn [n_next]. destruct (Nat.eqb_spec (S k) (length mem)) as [He|He].
  - by replace m with 0%nat by lia.
  - destruct m as [|m]; [lia|]. simpl. rewrite u32_small; mach.
Qed.

Lemma MemPool_new_ok mem :
  (0 < length mem)%nat → Z.of_nat (length mem) <= 2 ^ 31 →
  ∃ p, MemPool_new (Some mem) = Some p ∧ pool_rep p (seq 0 (length mem)) [] ∧
       length (nodes p) = length mem.
Proof.
  intros H0 Hs. unfold MemPool_new. simpl.
  destruct (Nat.eqb_spec (length mem) 0); [lia|]. eexists. split; [done|]. simpl.
  assert (length (link_free mem) = length mem) as Hl by apply length_imap.
  split; [|done]. split; simpl; rewrite ?Hl, ?app_nil_r; try done.
  - by destruct (length mem).
  - replace (length mem) with (length mem - 0)%nat by lia. apply link_free_fseg; lia.
Qed.
