(* ===== verification/PriceTime.v ===== *)
(** The contract of the matching engine, independent of how the book is
    stored: each side of the book is a queue of resting orders in price-time
    priority, an incoming order is matched against the opposite queue from
    its front, and what is left of a limit order joins its own queue behind
    the orders of the same or a better price. *)

From Stdlib Require Import Sorted.
From S2P Require Import Prelude Types.

(** * Priority *)

Definition opposite (s : OrderType) : OrderType :=
  match s with BUY => SELL | SELL => BUY end.

(** On side [s], an order at price [p] goes before (or ties with) one at [p']. *)
Definition as_good (s : OrderType) (p p' : Z) : bool :=
  match s with BUY => p' <=? p | SELL => p <=? p' end.

(** A resting order of side [s] at price [p] can trade with an incoming order
    of the opposite side limited to [limit]. *)
Definition within_limit (s : OrderType) (limit p : Z) : bool :=
  match s with SELL => p <=? limit | BUY => limit <=? p end.

(** A new order queues behind every order that is as good as it is. *)
Fixpoint insert_prio (s : OrderType) (o : Order) (l : list Order) : list Order :=
  match l with
  | [] => [o]
  | x :: l' => if as_good s (o_price x) (o_price o) then x :: insert_prio s o l' else o :: l
  end.

(** Price priority: a queue in which nobody stands before a better price.
    Time priority is the FIFO discipline of [insert_prio]. *)
Definition prio_sorted (s : OrderType) : list Order → Prop :=
  StronglySorted (λ x y, as_good s (o_price x) (o_price y) = true).

(** * Matching *)

Definition sum_quantity (l : list Order) : Z := foldr (λ o n, o_quantity o + n) 0 l.

(** A fill: the resting order as it stood, and the quantity traded. *)
Definition fill : Type := Order * Z.
Definition sum_fills (fs : list fill) : Z := foldr (λ f n, snd f + n) 0 fs.

(** [amatch ok q l] trades up to [q] against the front of [l] while [ok]
    accepts the front's price: the fills, the quantity left, the queue left. *)
Fixpoint amatch (ok : Z → bool) (q : Z) (l : list Order) : list fill * Z * list Order :=
  match l with
  | [] => ([], q, [])
  | m :: l' =>
      if (0 <? q) && ok (o_price m) then
        if q <? o_quantity m then ([(m, q)], 0, set_quantity (o_quantity m - q) m :: l')
        else
          let '(fs, q', r) := amatch ok (q - o_quantity m) l' in
          ((m, o_quantity m) :: fs, q', r)
      else ([], q, l)
  end.

(** The trade record of one fill of the incoming order [o]. *)
Definition trade_of (o : Order) (id : Z) (f : fill) : Trade :=
  let '(m, q) := f in
  match o_type o with
  | BUY => mkTrade id (o_timestamp o) (o_price m) (o_client_order_id o)
             (o_client_order_id m) (o_symbol_id o) q
  | SELL => mkTrade id (o_timestamp o) (o_price m) (o_client_order_id m)
              (o_client_order_id o) (o_symbol_id o) q
  end.

(** Trade ids count up from [id], as [next_trade_id++] does. *)
Fixpoint trades_of (o : Order) (id : Z) (fs : list fill) : list Trade :=
  match fs with
  | [] => []
  | f :: fs => trade_of o id f :: trades_of o (u64 (id + 1)) fs
  end.

(** * Two-sided books *)

Record ABook := mkABook { bids : list Order; asks : list Order }.

Definition queue (s : OrderType) (a : ABook) : list Order :=
  match s with BUY => bids a | SELL => asks a end.

Definition set_queue (s : OrderType) (l : list Order) (a : ABook) : ABook :=
  match s with BUY => mkABook l (asks a) | SELL => mkABook (bids a) l end.

(** Resting orders, and whether a pool of [cap] nodes has room for another. *)
Definition resting (a : ABook) : list Order := bids a ++ asks a.
Definition room (cap : nat) (a : ABook) : bool := bool_decide (length (resting a) < cap)%nat.

(** What an incoming order does to the book: it trades against the opposite
    queue, and what is left of a limit order rests if the pool has room. *)
Definition aprocess (market : bool) (cap : nat) (o : Order) (a : ABook) : list fill * ABook :=
  let s := o_type o in
  let ok := if market then λ _, true else within_limit (opposite s) (o_price o) in
  let '(fs, q, rest) := amatch ok (o_quantity o) (queue (opposite s) a) in
  let a := set_queue (opposite s) rest a in
  (fs,
   if market || (q =? 0) || negb (room cap a) then a
   else set_queue s (insert_prio s (set_quantity q o) (queue s a)) a).

(** * Facts about the contract itself *)

Lemma amatch_conservation ok q l fs q' r :
  amatch ok q l = (fs, q', r) → q = sum_fills fs + q'.
Proof.
  revert q fs q' r. induction l as [|m l IH]; intros q fs q' r; simpl.
  { intros [= <- <- <-]. done. }
  destruct ((0 <? q) && ok (o_price m)); [|by intros [= <- <- <-]].
  destruct (q <? o_quantity m).
  { intros [= <- <- <-]. simpl. lia. }
  destruct (amatch ok (q - o_quantity m) l) as [[fs0 q0] r0] eqn:E.
  intros [= <- <- <-]. apply IH in E. simpl. lia.
Qed.

Lemma amatch_resting ok q l fs q' r :
  amatch ok q l = (fs, q', r) → sum_quantity l = sum_fills fs + sum_quantity r.
Proof.
  revert q fs q' r. induction l as [|m l IH]; intros q fs q' r; simpl.
  { intros [= <- <- <-]. done. }
  destruct ((0 <? q) && ok (o_price m)); [|by intros [= <- <- <-]].
  destruct (q <? o_quantity m).
  { intros [= <- <- <-]. simpl. lia. }
  destruct (amatch ok (q - o_quantity m) l) as [[fs0 q0] r0] eqn:E.
  intros [= <- <- <-]. apply IH in E. simpl. lia.
Qed.

(** The makers are the front of the queue, in order. *)
Lemma amatch_prefix ok q l fs q' r :
  amatch ok q l = (fs, q', r) → (fst <$> fs) `prefix_of` l.
Proof.
  revert q fs q' r. induction l as [|m l IH]; intros q fs q' r; simpl.
  { intros [= <- <- <-]. done. }
  destruct ((0 <? q) && ok (o_price m)).
  2: { intros [= <- <- <-]. apply prefix_nil. }
  destruct (q <? o_quantity m).
  { intros [= <- <- <-]. simpl. apply prefix_cons, prefix_nil. }
  destruct (amatch ok (q - o_quantity m) l) as [[fs0 q0] r0] eqn:E.
  intros [= <- <- <-]. simpl. by eapply prefix_cons, IH.
Qed.

Lemma amatch_fills ok q l fs q' r :
  amatch ok q l = (fs, q', r) → Forall (λ f, ok (o_price f.1) = true ∧ f.2 <= o_quantity f.1) fs.
Proof.
  revert q fs q' r. induction l as [|m l IH]; intros q fs q' r; simpl.
  { intros [= <- <- <-]. done. }
  destruct ((0 <? q) && ok (o_price m)) eqn:Hok; [|by intros [= <- <- <-]].
  apply andb_true_iff in Hok as [_ Hok].
  destruct (Z.ltb_spec q (o_quantity m)).
  { intros [= <- <- <-]. repeat constructor; simpl; [done|lia]. }
  destruct (amatch ok (q - o_quantity m) l) as [[fs0 q0] r0] eqn:E.
  intros [= <- <- <-]. constructor; [simpl; split; [done|lia]|by eapply IH].
Qed.

(** Matching stops only when the incoming quantity is used up or the front
    of what is left is out of reach. *)
Lemma amatch_exhausts ok q l fs q' r :
  amatch ok q l = (fs, q', r) → 0 <= q →
  0 <= q' ∧ (q' = 0 ∨ ∀ m r', r = m :: r' → ok (o_price m) = false).
Proof.
  revert q fs q' r. induction l as [|m l IH]; intros q fs q' r; simpl.
  { intros [= <- <- <-] ?. naive_solver. }
  destruct ((0 <? q) && ok (o_price m)) eqn:Hok.
  2: { intros [= <- <- <-] ?. apply andb_false_iff in Hok as [?|?]; [lia|naive_solver]. }
  destruct (Z.ltb_spec q (o_quantity m)).
  { intros [= <- <- <-]. lia. }
  destruct (amatch ok (q - o_quantity m) l) as [[fs0 q0] r0] eqn:E.
  intros [= <- <- <-] ?. eapply IH; [done|lia].
Qed.

(** Matching never leaves more than what came in. *)
Lemma amatch_left ok q l fs q' r :
  amatch ok q l = (fs, q', r) → (∀ x, x ∈ l → 0 <= o_quantity x) → 0 <= q → q' <= q.
Proof.
  revert q fs q' r. induction l as [|m l IH]; intros q fs q' r; simpl.
  { intros [= <- <- <-] _ _. done. }
  intros H Hl Hq. destruct ((0 <? q) && ok (o_price m)); [|by simplify_eq].
  destruct (Z.ltb_spec q (o_quantity m)); [simplify_eq; lia|].
  destruct (amatch ok (q - o_quantity m) l) as [[fs0 q0] r0] eqn:E. simplify_eq.
  assert (0 <= o_quantity m) by (apply Hl; left).
  apply IH in E; [lia| |lia]. intros x Hx. apply Hl. by right.
Qed.

(** What is left of the queue are orders of the queue, the first of them
    perhaps with a smaller quantity. *)
Lemma amatch_rest ok q l fs q' r x :
  amatch ok q l = (fs, q', r) → x ∈ r → ∃ y, y ∈ l ∧ x = set_quantity (o_quantity x) y.
Proof.
  assert (∀ z, z = set_quantity (o_quantity z) z) as Hid by by intros [].
  revert q fs q' r. induction l as [|m l IH]; intros q fs q' r; simpl; intros H Hx.
  { simplify_eq. by apply elem_of_nil in Hx. }
  destruct ((0 <? q) && ok (o_price m)); [|simplify_eq; eauto].
  destruct (Z.ltb_spec q (o_quantity m)).
  { simplify_eq. apply elem_of_cons in Hx as [->|Hx]; [exists m; split; [left|done]|].
    exists x. split; [by right|done]. }
  destruct (amatch ok (q - o_quantity m) l) as [[fs0 q0] r0] eqn:E. simplify_eq.
  destruct (IH _ _ _ _ E Hx) as (y & Hy & ->). exists y. split; [by right|done].
Qed.

Lemma insert_prio_split s o l1 l2 :
  (∀ x, x ∈ l1 → as_good s (o_price x) (o_price o) = true) →
  (∀ x, x ∈ l2 → as_good s (o_price x) (o_price o) = false) →
  insert_prio s o (l1 ++ l2) = l1 ++ o :: l2.
Proof.
  intros H1 H2. induction l1 as [|x l1 IH]; simpl.
  - destruct l2 as [|y l2]; [done|]. simpl. by rewrite (H2 y) by set_solver.
  - rewrite (H1 x) by set_solver. rewrite IH; [done|set_solver].
Qed.

Lemma insert_prio_perm s o l : insert_prio s o l ≡ₚ o :: l.
Proof.
  induction l as [|x l IH]; simpl; [done|]. case_match; [|done].
  rewrite IH. apply Permutation_swap.
Qed.

Lemma as_good_trans s x y z : as_good s x y = true → as_good s y z = true → as_good s x z = true.
Proof. destruct s; simpl; lia. Qed.

Lemma insert_prio_sorted s o l : prio_sorted s l → prio_sorted s (insert_prio s o l).
Proof.
  unfold prio_sorted. induction 1 as [|x l Hl IH Hx]; simpl; [by repeat constructor|].
  destruct (as_good s (o_price x) (o_price o)) eqn:E.
  - constructor; [done|]. rewrite insert_prio_perm. by constructor.
  - constructor; [by constructor|]. assert (as_good s (o_price o) (o_price x) = true) as Hox.
    { destruct s; simpl in *; lia. }
    constructor; [done|]. eapply Forall_impl; [done|]. intros y Hy.
    by eapply as_good_trans.
Qed.
