(* ===== verification/OrderBook.v ===== *)
(** [OrderBook] and [OrderBookManager] of include/order_book.h: one FIFO
    queue per price of the symbol's band, two heaps of candidate best prices
    with lazy deletion, a map from order id to pool index, and the running
    totals of the two sides.  Every operation of the class is a definition
    here; [None] is an access outside an array or through an empty heap. *)

From S2P Require Import Prelude Types Heap MemPool PriceTime.

(** * Data *)

Record OrderBook := mkBook {
  lower_limit : Z;
  upper_limit : Z;
  PRICE_LEVELS : Z;
  price_levels : list PriceQueues;
  next_buy_price : list Z;
  next_sell_price : list Z;
  pool : MemPool;
  orderMap : gmap Z Z;
  default_best_buy_price : Z;
  default_best_sell_price : Z;
  total_buy_qty : Z;
  total_sell_qty : Z
}.

Definition set_levels_pool (ls : list PriceQueues) (p : MemPool) (b : OrderBook) : OrderBook :=
  mkBook (lower_limit b) (upper_limit b) (PRICE_LEVELS b) ls (next_buy_price b)
    (next_sell_price b) p (orderMap b) (default_best_buy_price b)
    (default_best_sell_price b) (total_buy_qty b) (total_sell_qty b).

Definition set_heaps (hb hs : list Z) (b : OrderBook) : OrderBook :=
  mkBook (lower_limit b) (upper_limit b) (PRICE_LEVELS b) (price_levels b) hb hs
    (pool b) (orderMap b) (default_best_buy_price b)
    (default_best_sell_price b) (total_buy_qty b) (total_sell_qty b).

Definition set_orderMap (m : gmap Z Z) (b : OrderBook) : OrderBook :=
  mkBook (lower_limit b) (upper_limit b) (PRICE_LEVELS b) (price_levels b)
    (next_buy_price b) (next_sell_price b) (pool b) m (default_best_buy_price b)
    (default_best_sell_price b) (total_buy_qty b) (total_sell_qty b).

Definition set_totals (tb ts : Z) (b : OrderBook) : OrderBook :=
  mkBook (lower_limit b) (upper_limit b) (PRICE_LEVELS b) (price_levels b)
    (next_buy_price b) (next_sell_price b) (pool b) (orderMap b) (default_best_buy_price b)
    (default_best_sell_price b) tb ts.

(** The comparators of the two heaps: [std::less] keeps the highest buy price
    on top, [std::greater] the lowest sell price. *)
Definition less (x y : Z) : bool := x <? y.
Definition greater (x y : Z) : bool := y <? x.

#[export] Instance less_swo : StrictWeakOrder less := ltb_swo id.
#[export] Instance greater_swo : StrictWeakOrder greater := gtb_swo id.

(** * Operations *)

(** The constructor.  [mem] is the pool's [malloc] block; [junk_buy] and
    [junk_sell] are the values of [total_buy_qty] and [total_sell_qty], which
    the constructor does not initialise. *)
Definition OrderBook_new (mem : option (list OrderNode)) (junk_buy junk_sell : Z)
  (lower_price upper_price : Z) : option OrderBook :=
  pool ← MemPool_new mem;
  let levels := u64 (upper_price - lower_price + 1) in
  let best_buy := if lower_price >? 0 then lower_price - 1 else 0 in
  let best_sell := if upper_price =? UINT64_MAX then UINT64_MAX else upper_price + 1 in
  Some (mkBook lower_price upper_price levels
          (replicate (Z.to_nat levels) PriceQueues_new)
          (heap_push less best_buy []) (heap_push greater best_sell [])
          pool ∅ best_buy best_sell junk_buy junk_sell).

(** [static_cast<int>(price) - lower_limit], computed in [uint64_t] and
    returned as [int]. *)
Definition priceToIndex (b : OrderBook) (price : Z) : Z :=
  s32 (u64 (u64 (s32 price) - lower_limit b)).

(** [price_levels[idx]]; [getpricelevels]. *)
Definition getpricelevels (b : OrderBook) (idx : Z) : option PriceQueues :=
  if idx <? 0 then None else price_levels b !! Z.to_nat idx.

Definition put_level (idx : Z) (q : PriceQueues) (p : MemPool) (b : OrderBook) : OrderBook :=
  set_levels_pool (<[Z.to_nat idx := q]> (price_levels b)) p b.

(** The [while] loop of [bestbuyprice]: each round pops one heap entry. *)
Fixpoint bestbuyprice_loop (fuel : nat) (b : OrderBook) : option (Z * OrderBook) :=
  top ← heap_top (next_buy_price b);
  if top =? default_best_buy_price b then Some (top, b)
  else
    let idx := priceToIndex b top in
    q ← getpricelevels b idx;
    if isEmpty q then
      match fuel with
      | O => None
      | S fuel =>
          let b := put_level idx (set_heap_entry false q) (pool b) b in
          bestbuyprice_loop fuel
            (set_heaps (pop_heap less (next_buy_price b)) (next_sell_price b) b)
      end
    else Some (top, b).
Definition bestbuyprice (b : OrderBook) : option (Z * OrderBook) :=
  bestbuyprice_loop (length (next_buy_price b)) b.

Fixpoint bestsellprice_loop (fuel : nat) (b : OrderBook) : option (Z * OrderBook) :=
  top ← heap_top (next_sell_price b);
  if top =? default_best_sell_price b then Some (top, b)
  else
    let idx := priceToIndex b top in
    q ← getpricelevels b idx;
    if isEmpty q then
      match fuel with
      | O => None
      | S fuel =>
          let b := put_level idx (set_heap_entry false q) (pool b) b in
          bestsellprice_loop fuel
            (set_heaps (next_buy_price b) (pop_heap greater (next_sell_price b)) b)
      end
    else Some (top, b).
Definition bestsellprice (b : OrderBook) : option (Z * OrderBook) :=
  bestsellprice_loop (length (next_sell_price b)) b.

(** [index<0 || index>=PRICE_LEVELS]. *)
Definition index_out_of_range (b : OrderBook) (index : Z) : bool :=
  (index <? 0) || (PRICE_LEVELS b <=? index).

Definition addBuyOrder (order : Order) (b : OrderBook) : option (bool * OrderBook) :=
  let index := priceToIndex b (o_price order) in
  if index_out_of_range b index then Some (false, b)
  else
    q ← getpricelevels b index;
    let price_level_is_empty := isEmpty q in
    let heap_entry := has_heap_entry q in
    '(idx, q, p) ← insertOrder order q (pool b);
    if u32 idx =? NULL_IDX then Some (false, put_level index q p b)
    else
      let b := set_orderMap (<[o_order_id order := u32 idx]> (orderMap b)) b in
      let b := put_level index (set_heap_entry true q) p b in
      let b := if price_level_is_empty && negb heap_entry
               then set_heaps (heap_push less (o_price order) (next_buy_price b))
                      (next_sell_price b) b
               else b in
      Some (true, set_totals (u64 (total_buy_qty b + o_quantity order)) (total_sell_qty b) b).

Definition addSellOrder (order : Order) (b : OrderBook) : option (bool * OrderBook) :=
  let index := priceToIndex b (o_price order) in
  if index_out_of_range b index then Some (false, b)
  else
    q ← getpricelevels b index;
    let price_level_is_empty := isEmpty q in
    let heap_entry := has_heap_entry q in
    '(idx, q, p) ← insertOrder order q (pool b);
    if u32 idx =? NULL_IDX then Some (false, put_level index q p b)
    else
      let b := set_orderMap (<[o_order_id order := u32 idx]> (orderMap b)) b in
      let b := put_level index (set_heap_entry true q) p b in
      let b := if price_level_is_empty && negb heap_entry
               then set_heaps (next_buy_price b)
                      (heap_push greater (o_price order) (next_sell_price b)) b
               else b in
      Some (true, set_totals (total_buy_qty b) (u64 (total_sell_qty b + o_quantity order)) b).

(** [findOrder]: the pool node's order, or [nullptr]. *)
Definition findOrder (order_id : Z) (b : OrderBook) : option (option Order) :=
  match orderMap b !! order_id with
  | None => Some None
  | Some idx => n ← getNode (pool b) idx; Some (Some (n_order n))
  end.

Definition removeBuyOrder (price : Z) (b : OrderBook) : option (bool * OrderBook) :=
  let idx := priceToIndex b price in
  q ← getpricelevels b idx;
  if isEmpty q then Some (false, b)
  else
    hd ← gethead q (pool b);
    let id := o_order_id (n_order hd) in
    let qty := o_quantity (n_order hd) in
    match orderMap b !! id with
    | None => Some (false, b)
    | Some index =>
        '(removed, q, p) ← removeOrder (s32 index) q (pool b);
        let b := put_level idx q p b in
        Some (removed,
              if removed : bool then
                set_totals (u64 (total_buy_qty b - qty)) (total_sell_qty b)
                  (set_orderMap (delete id (orderMap b)) b)
              else b)
    end.

Definition removeSellOrder (price : Z) (b : OrderBook) : option (bool * OrderBook) :=
  let idx := priceToIndex b price in
  q ← getpricelevels b idx;
  if isEmpty q then Some (false, b)
  else
    hd ← gethead q (pool b);
    let id := o_order_id (n_order hd) in
    let qty := o_quantity (n_order hd) in
    match orderMap b !! id with
    | None => Some (false, b)
    | Some index =>
        '(removed, q, p) ← removeOrder (s32 index) q (pool b);
        let b := put_level idx q p b in
        Some (removed,
              if removed : bool then
                set_totals (total_buy_qty b) (u64 (total_sell_qty b - qty))
                  (set_orderMap (delete id (orderMap b)) b)
              else b)
    end.

Definition cancelOrder (id : Z) (b : OrderBook) : option (bool * OrderBook) :=
  match orderMap b !! id with
  | None => Some (false, b)
  | Some index =>
      let idx := s32 index in
      let b := set_orderMap (delete id (orderMap b)) b in
      node ← getNode (pool b) idx;
      let i := priceToIndex b (o_price (n_order node)) in
      q ← getpricelevels b i;
      '(removed, q, p) ← removeOrder idx q (pool b);
      Some (removed, put_level i q p b)
  end.

Definition modifyQuantity (price new_qty : Z) (b : OrderBook) : option (bool * OrderBook) :=
  let idx := priceToIndex b price in
  if index_out_of_range b idx then Some (false, b)
  else
    q ← getpricelevels b idx;
    if isEmpty q then Some (false, b)
    else
      p ← updNode (q_head q)
            (λ n, set_order (set_quantity new_qty (n_order n)) n) (pool b);
      Some (true, set_levels_pool (price_levels b) p b).

Definition getTotalBuyQty (b : OrderBook) : Z := total_buy_qty b.
Definition getTotalSellQty (b : OrderBook) : Z := total_sell_qty b.
Definition getTotalQty (b : OrderBook) : Z := u64 (total_buy_qty b + total_sell_qty b).

Definition decreaseTotalBuyQty (qty : Z) (b : OrderBook) : OrderBook :=
  set_totals (u64 (total_buy_qty b - qty)) (total_sell_qty b) b.
Definition decreaseTotalSellQty (qty : Z) (b : OrderBook) : OrderBook :=
  set_totals (total_buy_qty b) (u64 (total_sell_qty b - qty)) b.

Definition isPriceValid (b : OrderBook) (price : Z) : bool :=
  (lower_limit b <=? price) && (price <=? upper_limit b).

(** * OrderBookManager *)

Record OrderBookManager := mkManager { books : list (option OrderBook); max_books : Z }.

Definition OrderBookManager_new (number_of_books : Z) : OrderBookManager :=
  mkManager (replicate (Z.to_nat number_of_books) None) number_of_books.

(** [None]: the code throws [std::out_of_range]. *)
Definition get (m : OrderBookManager) (symbol_id : Z) : option OrderBook :=
  if max_books m <=? symbol_id then None
  else mjoin (books m !! Z.to_nat symbol_id).

Definition put (m : OrderBookManager) (symbol_id : Z) (b : OrderBook) : OrderBookManager :=
  mkManager (<[Z.to_nat symbol_id := Some b]> (books m)) (max_books m).

Definition addBook (m : OrderBookManager) (symbol_id : Z) (mem : option (list OrderNode))
  (junk_buy junk_sell lower_price upper_price : Z) : option OrderBookManager :=
  if max_books m <=? symbol_id then None
  else
    b ← OrderBook_new mem junk_buy junk_sell lower_price upper_price;
    Some (put m symbol_id b).

(** * The two sides uniformly

    The buy and the sell versions of each operation differ only in the heap,
    the comparator, the sentinel and the total they use. *)

Definition heap_of (s : OrderType) (b : OrderBook) : list Z :=
  match s with BUY => next_buy_price b | SELL => next_sell_price b end.
Definition set_heap_of (s : OrderType) (h : list Z) (b : OrderBook) : OrderBook :=
  match s with
  | BUY => set_heaps h (next_sell_price b) b
  | SELL => set_heaps (next_buy_price b) h b
  end.
Definition cmp_of (s : OrderType) : Z → Z → bool :=
  match s with BUY => less | SELL => greater end.
Definition default_of (s : OrderType) (b : OrderBook) : Z :=
  match s with BUY => default_best_buy_price b | SELL => default_best_sell_price b end.
Definition total_of (s : OrderType) (b : OrderBook) : Z :=
  match s with BUY => getTotalBuyQty b | SELL => getTotalSellQty b end.
Definition set_total_of (s : OrderType) (t : Z) (b : OrderBook) : OrderBook :=
  match s with
  | BUY => set_totals t (total_sell_qty b) b
  | SELL => set_totals (total_buy_qty b) t b
  end.
Definition decrease_total (s : OrderType) (q : Z) (b : OrderBook) : OrderBook :=
  match s with BUY => decreaseTotalBuyQty q b | SELL => decreaseTotalSellQty q b end.
Definition bestprice_loop (s : OrderType) (fuel : nat) (b : OrderBook) : option (Z * OrderBook) :=
  match s with BUY => bestbuyprice_loop fuel b | SELL => bestsellprice_loop fuel b end.
Definition bestprice (s : OrderType) (b : OrderBook) : option (Z * OrderBook) :=
  match s with BUY => bestbuyprice b | SELL => bestsellprice b end.
Definition add_order (s : OrderType) (o : Order) (b : OrderBook) : option (bool * OrderBook) :=
  match s with BUY => addBuyOrder o b | SELL => addSellOrder o b end.
Definition remove_order (s : OrderType) (price : Z) (b : OrderBook) : option (bool * OrderBook) :=
  match s with BUY => removeBuyOrder price b | SELL => removeSellOrder price b end.

#[export] Instance cmp_of_swo s : StrictWeakOrder (cmp_of s).
Proof. destruct s; apply _. Qed.

Lemma add_order_eq s o b :
  add_order s o b =
  let index := priceToIndex b (o_price o) in
  if index_out_of_range b index then Some (false, b)
  else
    q ← getpricelevels b index;
    '(idx, q', p) ← insertOrder o q (pool b);
    if u32 idx =? NULL_IDX then Some (false, put_level index q' p b)
    else
      let b := put_level index (set_heap_entry true q') p
                 (set_orderMap (<[o_order_id o := u32 idx]> (orderMap b)) b) in
      let b := if isEmpty q && negb (has_heap_entry q)
               then set_heap_of s (heap_push (cmp_of s) (o_price o) (heap_of s b)) b else b in
      Some (true, set_total_of s (u64 (total_of s b + o_quantity o)) b).
Proof. by destruct s. Qed.

Lemma remove_order_eq s price b :
  remove_order s price b =
  let idx := priceToIndex b price in
  q ← getpricelevels b idx;
  if isEmpty q then Some (false, b)
  else
    hd ← gethead q (pool b);
    match orderMap b !! o_order_id (n_order hd) with
    | None => Some (false, b)
    | Some index =>
        '(removed, q, p) ← removeOrder (s32 index) q (pool b);
        let b := put_level idx q p b in
        Some (removed,
              if removed : bool then
                set_total_of s (u64 (total_of s b - o_quantity (n_order hd)))
                  (set_orderMap (delete (o_order_id (n_order hd)) (orderMap b)) b)
              else b)
    end.
Proof. by destruct s. Qed.

Lemma bestprice_loop_eq s fuel b :
  bestprice_loop s fuel b =
  (top ← heap_top (heap_of s b);
   if top =? default_of s b then Some (top, b)
   else
     let idx := priceToIndex b top in
     q ← getpricelevels b idx;
     if isEmpty q then
       match fuel with
       | O => None
       | S fuel =>
           let b := put_level idx (set_heap_entry false q) (pool b) b in
           bestprice_loop s fuel (set_heap_of s (pop_heap (cmp_of s) (heap_of s b)) b)
       end
     else Some (top, b)).
Proof. by destruct s, fuel. Qed.

Lemma bestprice_eq s b : bestprice s b = bestprice_loop s (length (heap_of s b)) b.
Proof. by destruct s. Qed.

(** * Price arithmetic *)

(** Inside a band of fewer than [2^31] prices, the conversions to [int] and
    back are exact, whatever the prices are. *)
Lemma priceToIndex_band b price :
  0 <= price - lower_limit b < 2 ^ 31 → priceToIndex b price = price - lower_limit b.
Proof.
  intros H. unfold priceToIndex. rewrite <- (s32_small (price - lower_limit b)) by lia.
  apply s32_congr. rewrite u64_mod32, Zminus_mod, u64_mod32, s32_mod32.
  by rewrite <- Zminus_mod.
Qed.

(** * What the side-generic setters leave alone *)

Section frames.
Context (b : OrderBook) (s : OrderType).

Lemma heap_set_heap s' h : heap_of s' (set_heap_of s h b) = if decide (s' = s) then h else heap_of s' b.
Proof. by destruct s, s'. Qed.
Lemma total_set_total s' t : total_of s' (set_total_of s t b) = if decide (s' = s) then t else total_of s' b.
Proof. by destruct s, s'. Qed.
Lemma heap_set_total s' t : heap_of s' (set_total_of s t b) = heap_of s' b.
Proof. by destruct s, s'. Qed.
Lemma total_set_heap s' h : total_of s' (set_heap_of s h b) = total_of s' b.
Proof. by destruct s, s'. Qed.
Lemma default_set_heap s' h : default_of s' (set_heap_of s h b) = default_of s' b.
Proof. by destruct s, s'. Qed.
Lemma default_set_total s' t : default_of s' (set_total_of s t b) = default_of s' b.
Proof. by destruct s, s'. Qed.
Lemma pool_set_heap h : pool (set_heap_of s h b) = pool b.
Proof. by destruct s. Qed.
Lemma pool_set_total t : pool (set_total_of s t b) = pool b.
Proof. by destruct s. Qed.
Lemma levels_set_heap h : price_levels (set_heap_of s h b) = price_levels b.
Proof. by destruct s. Qed.
Lemma levels_set_total t : price_levels (set_total_of s t b) = price_levels b.
Proof. by destruct s. Qed.
Lemma map_set_heap h : orderMap (set_heap_of s h b) = orderMap b.
Proof. by destruct s. Qed.
Lemma map_set_total t : orderMap (set_total_of s t b) = orderMap b.
Proof. by destruct s. Qed.
Lemma lower_set_heap h : lower_limit (set_heap_of s h b) = lower_limit b.
Proof. by destruct s. Qed.
Lemma lower_set_total t : lower_limit (set_total_of s t b) = lower_limit b.
Proof. by destruct s. Qed.
Lemma upper_set_heap h : upper_limit (set_heap_of s h b) = upper_limit b.
Proof. by destruct s. Qed.
Lemma upper_set_total t : upper_limit (set_total_of s t b) = upper_limit b.
Proof. by destruct s. Qed.
Lemma PL_set_heap h : PRICE_LEVELS (set_heap_of s h b) = PRICE_LEVELS b.
Proof. by destruct s. Qed.
Lemma PL_set_total t : PRICE_LEVELS (set_total_of s t b) = PRICE_LEVELS b.
Proof. by destruct s. Qed.
Lemma heap_put_level idx q p : heap_of s (put_level idx q p b) = heap_of s b.
Proof. by destruct s. Qed.
Lemma default_put_level idx q p : default_of s (put_level idx q p b) = default_of s b.
Proof. by destruct s. Qed.
Lemma total_put_level idx q p : total_of s (put_level idx q p b) = total_of s b.
Proof. by destruct s. Qed.
Lemma heap_set_map m : heap_of s (set_orderMap m b) = heap_of s b.
Proof. by destruct s. Qed.
Lemma default_set_map m : default_of s (set_orderMap m b) = default_of s b.
Proof. by destruct s. Qed.
Lemma total_set_map m : total_of s (set_orderMap m b) = total_of s b.
Proof. by destruct s. Qed.
Lemma heap_set_pool ls p : heap_of s (set_levels_pool ls p b) = heap_of s b.
Proof. by destruct s. Qed.
Lemma default_set_pool ls p : default_of s (set_levels_pool ls p b) = default_of s b.
Proof. by destruct s. Qed.
Lemma total_set_pool ls p : total_of s (set_levels_pool ls p b) = total_of s b.
Proof. by destruct s. Qed.
End frames.

Create Rewrite HintDb book.
#[export] Hint Rewrite heap_set_heap total_set_total heap_set_total total_set_heap
  default_set_heap default_set_total pool_set_heap pool_set_total levels_set_heap
  levels_set_total map_set_heap map_set_total lower_set_heap lower_set_total upper_set_heap
  upper_set_total PL_set_heap PL_set_total heap_put_level default_put_level total_put_level
  heap_set_map default_set_map total_set_map heap_set_pool default_set_pool total_set_pool : book.

Ltac book_simp := autorewrite with book in *; cbn [lower_limit upper_limit PRICE_LEVELS
  price_levels pool orderMap put_level set_levels_pool set_orderMap set_heaps set_totals] in *.
