(* ===== verification/BookInv.v ===== *)
(** The representation invariant of [OrderBook] and the refinement of its
    operations to the price-time queues of PriceTime.v: which list of resting
    orders each side holds ([side_queue]), and what every operation the
    engine uses does to it. *)

From stdpp Require Import sorting.
From S2P Require Import Prelude Types Heap MemPool PriceTime OrderBook.

(** * From price levels to priority queues *)

(** The ladder of levels from the best to the worst price of side [s]. *)
Definition ladder {A} (s : OrderType) (L : list A) : list A :=
  match s with SELL => L | BUY => reverse L end.

Definition side_queue (s : OrderType) (L : list (list Order)) : list Order :=
  filter (λ o, o_type o = s) (concat (ladder s L)).

(** The levels that come before and after a given one in priority. *)
Definition before {A} (s : OrderType) (L1 L2 : list A) : list A :=
  match s with SELL => L1 | BUY => L2 end.
Definition after {A} (s : OrderType) (L1 L2 : list A) : list A :=
  match s with SELL => L2 | BUY => L1 end.

Lemma side_queue_split s L1 l L2 :
  side_queue s (L1 ++ l :: L2) =
  side_queue s (before s L1 L2) ++ filter (λ o, o_type o = s) l ++ side_queue s (after s L1 L2).
Proof.
  unfold side_queue. destruct s; simpl;
    rewrite ?reverse_app, ?reverse_cons, ?concat_app; simpl;
    rewrite ?concat_app, ?app_nil_r; simpl; rewrite ?app_nil_r, ?filter_app; try done.
  by rewrite app_assoc.
Qed.

Lemma elem_of_concat {A} (x : A) (L : list (list A)) : x ∈ concat L ↔ ∃ l, l ∈ L ∧ x ∈ l.
Proof.
  induction L as [|l L IH]; simpl; [set_solver|].
  rewrite elem_of_app, IH. setoid_rewrite elem_of_cons. naive_solver.
Qed.

Lemma elem_of_side_queue s L o : o ∈ side_queue s L ↔ o ∈ concat L ∧ o_type o = s.
Proof.
  unfold side_queue. rewrite list_elem_of_filter, !elem_of_concat.
  destruct s; simpl; [setoid_rewrite elem_of_reverse|]; naive_solver.
Qed.

(** * The storage invariant *)

Definition order_of (ns : list OrderNode) (i : nat) : option Order := n_order <$> ns !! i.

(** The resting orders, level by level, when [Lv] lists the nodes of each level. *)
Definition level_orders (b : OrderBook) (Lv : list (list nat)) : list (list Order) :=
  orders_at (nodes (pool b)) <$> Lv.

(** [Lv] are the node lists of the price levels and [fl] the free list. *)
Record storage_inv (b : OrderBook) (Lv : list (list nat)) (fl : list nat) : Prop := {
  si_band : 1 <= lower_limit b <= upper_limit b;
  si_top : upper_limit b < UINT64_MAX;
  si_width : upper_limit b - lower_limit b < 2 ^ 31;
  si_PL : PRICE_LEVELS b = upper_limit b - lower_limit b + 1;
  si_defaults s : default_of s b = match s with BUY => lower_limit b - 1 | SELL => upper_limit b + 1 end;
  si_len : length (price_levels b) = Z.to_nat (PRICE_LEVELS b);
  si_len_Lv : length Lv = length (price_levels b);
  si_pool : pool_rep (pool b) fl (concat Lv);
  si_rep k q l : price_levels b !! k = Some q → Lv !! k = Some l →
                 level_rep (nodes (pool b)) q l;
  si_order k l i : Lv !! k = Some l → i ∈ l →
    ∃ o, order_of (nodes (pool b)) i = Some o ∧ o_price o = lower_limit b + Z.of_nat k;
  si_map id idx : orderMap b !! id = Some idx ↔
    ∃ i o, i ∈ concat Lv ∧ order_of (nodes (pool b)) i = Some o ∧
           o_order_id o = id ∧ idx = Z.of_nat i
}.

(** Each side's heap holds its sentinel, the price of every non-empty level
    of the side and, while the engine is between [removeOrder] and
    [bestprice], possibly one level that has just become empty. *)
Definition stale_entry : Type := option (OrderType * Z).

Record index_inv (st : stale_entry) (b : OrderBook) (L : list (list Order)) : Prop := {
  ii_heap s : is_heap (cmp_of s) (heap_of s b);
  ii_nodup s : NoDup (heap_of s b);
  ii_elem s p : p ∈ heap_of s b ↔
    p = default_of s b ∨ st = Some (s, p) ∨ p ∈ (o_price <$> side_queue s L);
  ii_flag k q : price_levels b !! k = Some q →
    q_heap_entry q = true ↔ ∃ s, lower_limit b + Z.of_nat k ∈ heap_of s b;
  ii_stale s p : st = Some (s, p) →
    lower_limit b <= p <= upper_limit b ∧ ∀ o, o ∈ concat L → o_price o ≠ p
}.

Record book_inv (st : stale_entry) (b : OrderBook) (Lv : list (list nat)) (fl : list nat)
  : Prop := {
  bi_storage : storage_inv b Lv fl;
  bi_index : index_inv st b (level_orders b Lv);
  bi_total s : total_of s b = sum_quantity (side_queue s (level_orders b Lv));
  bi_qty o : o ∈ concat (level_orders b Lv) → 0 < o_quantity o < 2 ^ 32;
  bi_cross x y : x ∈ concat (level_orders b Lv) → y ∈ concat (level_orders b Lv) →
    o_type x = BUY → o_type y = SELL → o_price x < o_price y
}.

(** * Reading the invariant *)

Lemma order_at_elem ns l o : o ∈ orders_at ns l ↔ ∃ i, i ∈ l ∧ order_of ns i = Some o.
Proof. unfold orders_at. rewrite list_elem_of_omap. naive_solver. Qed.

Lemma orders_at_cons ns i l :
  orders_at ns (i :: l) =
  match order_of ns i with Some o => o :: orders_at ns l | None => orders_at ns l end.
Proof. done. Qed.

Lemma orders_at_app ns l1 l2 : orders_at ns (l1 ++ l2) = orders_at ns l1 ++ orders_at ns l2.
Proof. apply omap_app. Qed.

Lemma orders_at_ext ns ns' l :
  (∀ i, i ∈ l → order_of ns' i = order_of ns i) → orders_at ns' l = orders_at ns l.
Proof.
  induction l as [|i l IH]; intros Heq; [done|].
  rewrite !orders_at_cons, Heq, IH; [done| |left]. intros j Hj. apply Heq. by right.
Qed.

Lemma elem_level_orders b Lv o :
  o ∈ concat (level_orders b Lv) ↔
  ∃ i, i ∈ concat Lv ∧ order_of (nodes (pool b)) i = Some o.
Proof.
  unfold level_orders. rewrite elem_of_concat. split.
  - intros (l & (l' & -> & Hl)%list_elem_of_fmap & (i & Hi & Ho)%order_at_elem).
    exists i. split; [|done]. apply elem_of_concat. eauto.
  - intros (i & (l & Hl & Hi)%elem_of_concat & Ho). exists (orders_at (nodes (pool b)) l).
    split; [apply list_elem_of_fmap; eauto|]. apply order_at_elem. eauto.
Qed.

Section reading.
Context (b : OrderBook) (Lv : list (list nat)) (fl : list nat).
Context (Hst : storage_inv b Lv fl).

Lemma level_order_price k l o :
  level_orders b Lv !! k = Some l → o ∈ l → o_price o = lower_limit b + Z.of_nat k.
Proof.
  unfold level_orders. rewrite list_lookup_fmap_Some.
  intros (l' & -> & Hk) (i & Hi & Ho)%order_at_elem.
  destruct (si_order _ _ _ Hst k l' i Hk Hi) as (o' & Ho' & Hp). congruence.
Qed.

Lemma order_in_band o :
  o ∈ concat (level_orders b Lv) → lower_limit b <= o_price o <= upper_limit b.
Proof.
  intros (l & Hl & Ho)%elem_of_concat. apply list_elem_of_lookup in Hl as [k Hk].
  rewrite (level_order_price k l o Hk Ho). destruct Hst.
  apply lookup_lt_Some in Hk. unfold level_orders in Hk. rewrite length_fmap in Hk. lia.
Qed.

Lemma level_in_range p :
  lower_limit b <= p <= upper_limit b →
  ∃ q l, getpricelevels b (priceToIndex b p) = Some q ∧
    priceToIndex b p = p - lower_limit b ∧
    price_levels b !! Z.to_nat (p - lower_limit b) = Some q ∧
    Lv !! Z.to_nat (p - lower_limit b) = Some l ∧
    level_rep (nodes (pool b)) q l.
Proof.
  intros Hp. destruct Hst.
  assert (Z.to_nat (p - lower_limit b) < length Lv)%nat as Hk by lia.
  destruct (lookup_lt_is_Some_2 _ _ Hk) as [l Hl].
  rewrite si_len_Lv0 in Hk. destruct (lookup_lt_is_Some_2 _ _ Hk) as [q Hq].
  exists q, l. rewrite priceToIndex_band by lia. unfold getpricelevels.
  destruct (Z.ltb_spec (p - lower_limit b) 0); [lia|]. eauto 10.
Qed.

Lemma orders_at_length l : (∃ k, Lv !! k = Some l) → length (orders_at (nodes (pool b)) l) = length l.
Proof.
  intros [k Hk].
  assert (∀ i, i ∈ l → is_Some (order_of (nodes (pool b)) i)) as Hs.
  { intros i Hi. destruct (si_order _ _ _ Hst k l i Hk Hi) as (o & Ho & _). eauto. }
  clear Hk. induction l as [|i l IH]; [done|]. simpl.
  destruct (Hs i) as [o Ho]; [by left|]. unfold order_of in Ho. rewrite Ho. simpl.
  f_equal. apply IH. intros j Hj. apply Hs. by right.
Qed.

Lemma isEmpty_spec q l :
  level_rep (nodes (pool b)) q l → isEmpty q = true ↔ l = [].
Proof.
  intros [_ _ Hc _]. unfold isEmpty. rewrite Hc. destruct l; simpl; split; intros; (done || lia).
Qed.

End reading.

(** * The front of a side *)

Definition priced (lo : Z) (L : list (list Order)) : Prop :=
  ∀ k l o, L !! k = Some l → o ∈ l → o_price o = lo + Z.of_nat k.
Definition uncrossed (L : list (list Order)) : Prop :=
  ∀ x y, x ∈ concat L → y ∈ concat L → o_type x = BUY → o_type y = SELL → o_price x < o_price y.

Lemma level_one_sided lo L k l s o x :
  priced lo L → uncrossed L → L !! k = Some l → o ∈ l → o_type o = s → x ∈ l → o_type x = s.
Proof.
  intros Hpr Hun Hk Ho Hs Hx.
  assert (l ∈ L) by (apply list_elem_of_lookup; eauto).
  pose proof (Hpr k l o Hk Ho). pose proof (Hpr k l x Hk Hx).
  assert (o ∈ concat L ∧ x ∈ concat L) as [? ?] by (rewrite !elem_of_concat; naive_solver).
  destruct s, (o_type x) eqn:E; try done; exfalso.
  - assert (o_price o < o_price x) by by apply Hun. lia.
  - assert (o_price x < o_price o) by by apply Hun. lia.
Qed.

Lemma before_better s lo L1 l L2 x :
  priced lo (L1 ++ l :: L2) → x ∈ side_queue s (before s L1 L2) →
  as_good s (lo + Z.of_nat (length L1)) (o_price x) = false.
Proof.
  intros Hpr [Hx _]%elem_of_side_queue. apply elem_of_concat in Hx as (l' & Hl' & Hx).
  apply list_elem_of_lookup in Hl' as [j Hj]. destruct s; simpl in *.
  - rewrite (Hpr (length L1 + S j)%nat l' x); [zb| |done].
    rewrite lookup_app_r by lia. by replace (length L1 + S j - length L1)%nat with (S j) by lia.
  - apply lookup_lt_Some in Hj as ?. rewrite (Hpr j l' x); [zb| |done].
    by rewrite lookup_app_l.
Qed.

Lemma after_worse s lo L1 l L2 x :
  priced lo (L1 ++ l :: L2) → x ∈ side_queue s (after s L1 L2) →
  as_good s (o_price x) (lo + Z.of_nat (length L1)) = false.
Proof.
  intros Hpr [Hx _]%elem_of_side_queue. apply elem_of_concat in Hx as (l' & Hl' & Hx).
  apply list_elem_of_lookup in Hl' as [j Hj]. destruct s; simpl in *.
  - apply lookup_lt_Some in Hj as ?. rewrite (Hpr j l' x); [zb| |done].
    by rewrite lookup_app_l.
  - rewrite (Hpr (length L1 + S j)%nat l' x); [zb| |done].
    rewrite lookup_app_r by lia. by replace (length L1 + S j - length L1)%nat with (S j) by lia.
Qed.

(** If [p] is a price of side [s] that no other price of the side beats, its
    level is the front of the side's queue. *)
Lemma front_split s lo L p :
  priced lo L → uncrossed L → p ∈ (o_price <$> side_queue s L) →
  (∀ p', p' ∈ (o_price <$> side_queue s L) → as_good s p p' = true) →
  ∃ L1 o tl L2, L = L1 ++ (o :: tl) :: L2 ∧ p = lo + Z.of_nat (length L1) ∧ o_price o = p ∧
    (∀ x, x ∈ o :: tl → o_type x = s) ∧
    side_queue s (before s L1 L2) = [] ∧
    side_queue s L = o :: tl ++ side_queue s (after s L1 L2).
Proof.
  intros Hpr Hun (o' & -> & Ho')%list_elem_of_fmap Hbest.
  apply elem_of_side_queue in Ho' as [(l & Hl & Hol)%elem_of_concat Hs].
  apply list_elem_of_lookup in Hl as [k Hk].
  pose proof (Hpr k l o' Hk Hol) as Hpo.
  apply list_elem_of_split_length in Hk as Hsp. destruct Hsp as (L1 & L2 & HL & Hlen). subst k.
  assert (∀ x, x ∈ l → o_type x = s) as Hone.
  { intros x Hx. by eapply (level_one_sided lo L (length L1) l s o'). }
  destruct l as [|o tl]; [set_solver|].
  assert (side_queue s (before s L1 L2) = []) as Hbefore.
  { destruct (side_queue s (before s L1 L2)) as [|x xs] eqn:E; [done|].
    rewrite HL in Hpr.
    assert (as_good s (lo + Z.of_nat (length L1)) (o_price x) = false) as Hc.
    { eapply before_better; [done|]. rewrite E. left. }
    rewrite <- Hpo, (Hbest (o_price x)) in Hc; [done|].
    apply list_elem_of_fmap. exists x. split; [done|].
    rewrite HL, side_queue_split, E. left. }
  exists L1, o, tl, L2. split_and!; try done.
  - rewrite Hpo. apply (Hpr (length L1) (o :: tl)); [done|left].
  - rewrite HL at 1. rewrite side_queue_split, Hbefore, filter_all by done. done.
Qed.

(** * [bestprice] *)

Definition front_price (s : OrderType) (b : OrderBook) (L : list (list Order)) : Z :=
  match side_queue s L with [] => default_of s b | o :: _ => o_price o end.

Lemma book_priced b Lv fl : storage_inv b Lv fl → priced (lower_limit b) (level_orders b Lv).
Proof. intros Hst k l o. by eapply level_order_price. Qed.

Lemma price_in_band b Lv fl s p :
  storage_inv b Lv fl → p ∈ (o_price <$> side_queue s (level_orders b Lv)) →
  lower_limit b <= p <= upper_limit b.
Proof.
  intros Hst (o & -> & [Ho _]%elem_of_side_queue)%list_elem_of_fmap.
  by eapply order_in_band.
Qed.

(** The sentinel loses against every price of the band. *)
Lemma default_worst b Lv fl s p :
  storage_inv b Lv fl → lower_limit b <= p <= upper_limit b → cmp_of s (default_of s b) p = true.
Proof.
  intros Hst Hp. rewrite (si_defaults _ _ _ Hst). destruct s; simpl; unfold less, greater; lia.
Qed.

Lemma cmp_as_good s p p' : cmp_of s p p' = false ↔ as_good s p p' = true.
Proof. destruct s; simpl; unfold less, greater; lia. Qed.

Lemma bestprice_clean s b Lv fl fuel :
  book_inv None b Lv fl →
  bestprice_loop s fuel b = Some (front_price s b (level_orders b Lv), b).
Proof.
  intros [Hst Hix _ _ Hun]. set (L := level_orders b Lv) in *.
  rewrite bestprice_loop_eq. unfold front_price.
  pose proof (ii_elem _ _ _ Hix s) as Hel.
  pose proof (λ x y, heap_top_max (cmp_of s) (heap_of s b) x y (ii_heap _ _ _ Hix s)) as Hmax.
  destruct (heap_of s b) as [|top h] eqn:Eh.
  { pose proof (proj2 (Hel _) (or_introl eq_refl)) as Hin. by apply elem_of_nil in Hin. }
  simpl. destruct (Z.eqb_spec top (default_of s b)) as [->|Hne].
  - destruct (side_queue s L) as [|o tl] eqn:Eq; [done|].
    assert (o_price o ∈ o_price <$> side_queue s L) as Ho by (rewrite Eq; left).
    pose proof (price_in_band _ _ _ _ _ Hst Ho) as Hband.
    rewrite <- Eq in Hel.
    pose proof (Hmax _ (o_price o) eq_refl (proj2 (Hel _) (or_intror (or_intror Ho)))) as Hc.
    by rewrite (default_worst _ _ _ s _ Hst Hband) in Hc.
  - assert (top ∈ o_price <$> side_queue s L) as Htop.
    { destruct (proj1 (Hel top)) as [|[|]]; [left|done..]. }
    destruct (front_split s _ L top (book_priced _ _ _ Hst) Hun Htop)
      as (L1 & o & tl & L2 & HL & Hp & Ho & _ & _ & Hq).
    { intros p' Hp'. apply cmp_as_good, Hmax; [done|]. apply Hel. auto. }
    rewrite Hq, Ho.
    destruct (level_in_range _ _ _ Hst top (price_in_band _ _ _ _ _ Hst Htop))
      as (q & l & -> & _ & _ & Hl & Hrep). simpl.
    destruct (isEmpty q) eqn:Hemp; [exfalso|done].
    apply (isEmpty_spec _ _ _ Hrep) in Hemp as ->.
    assert (L !! Z.to_nat (top - lower_limit b) = Some []) as HLk.
    { unfold L, level_orders. by rewrite list_lookup_fmap, Hl. }
    rewrite HL, Hp in HLk. replace (Z.to_nat _) with (length L1) in HLk by lia.
    by rewrite list_lookup_middle in HLk.
Qed.

(** Two books that differ at most in heaps and heap-entry flags. *)
Record same_store (b b' : OrderBook) : Prop := {
  ss_pool : pool b' = pool b;
  ss_lower : lower_limit b' = lower_limit b;
  ss_upper : upper_limit b' = upper_limit b
}.

Lemma same_store_level_orders b b' Lv :
  pool b' = pool b → level_orders b' Lv = level_orders b Lv.
Proof. intros H. unfold level_orders. by rewrite H. Qed.

(** Changing only a heap-entry flag and one heap keeps the storage invariant. *)
Lemma storage_set_flag b Lv fl idx q v s h :
  storage_inv b Lv fl → price_levels b !! Z.to_nat idx = Some q →
  storage_inv (set_heap_of s h (put_level idx (set_heap_entry v q) (pool b) b)) Lv fl.
Proof.
  intros Hst Hq. destruct Hst. split; book_simp; rewrite ?length_insert; try done.
  - intros s'. book_simp. done.
  - intros k q' l Hk Hl. apply list_lookup_insert_Some in Hk as [(<- & <- & _)|[_ Hk]]; [|eauto].
    destruct (si_rep0 _ _ _ Hq Hl). by split.
Qed.

Lemma index_drop_stale b Lv fl s p h q :
  storage_inv b Lv fl → index_inv (Some (s, p)) b (level_orders b Lv) →
  heap_of s b = p :: h →
  price_levels b !! Z.to_nat (p - lower_limit b) = Some q →
  index_inv None
    (set_heap_of s (pop_heap (cmp_of s) (p :: h))
       (put_level (p - lower_limit b) (set_heap_entry false q) (pool b) b))
    (level_orders b Lv).
Proof.
  intros Hst Hix Hh Hq. destruct (ii_stale _ _ _ Hix s p eq_refl) as [Hband Hno].
  pose proof (ii_nodup _ _ _ Hix s) as Hnd. rewrite Hh in Hnd.
  pose proof (pop_heap_perm (cmp_of s) p h) as Hperm. apply (inj _) in Hperm.
  apply NoDup_cons in Hnd as [Hph Hnd].
  assert (∀ s', p ∉ (o_price <$> side_queue s' (level_orders b Lv))) as Hnp.
  { intros s' (o & -> & [Ho _]%elem_of_side_queue)%list_elem_of_fmap. by apply (Hno o). }
  assert (∀ s', p ≠ default_of s' b) as Hnd'.
  { intros s' ->. rewrite (si_defaults _ _ _ Hst) in Hband. destruct s'; lia. }
  set (b' := set_heap_of _ _ _).
  assert (∀ s' p', p' ∈ heap_of s' b' ↔ p' ∈ heap_of s' b ∧ (s', p') ≠ (s, p)) as Hmem.
  { intros s' p'. unfold b'. rewrite heap_set_heap, heap_put_level. case_decide as Hs; subst.
    - rewrite Hperm, Hh, elem_of_cons. naive_solver.
    - naive_solver. }
  split.
  - intros s'. unfold b'. book_simp. case_decide; subst; [|apply Hix].
    apply pop_heap_heap; [apply _|]. rewrite <- Hh. apply Hix.
  - intros s'. unfold b'. book_simp. case_decide; subst; [by rewrite Hperm|apply Hix].
  - intros s' p'. rewrite Hmem, (ii_elem _ _ _ Hix s' p').
    replace (default_of s' b') with (default_of s' b) by (unfold b'; by book_simp).
    split; [intros [[|[|]] ?]; naive_solver|]. intros [->|[|Hp']]; [|done|].
    + split; [auto|]. intros [= -> Heq]. by apply (Hnd' s).
    + split; [auto|]. intros [= -> ->]. by apply (Hnp s).
  - intros k q'. setoid_rewrite Hmem. unfold b'. book_simp. intros Hk.
    apply list_lookup_insert_Some in Hk as [(<- & <- & _)|[Hne Hk]].
    + simpl. split; [done|]. intros (s' & Hin & Hns).
      replace (lower_limit b + _) with p in Hin, Hns by lia.
      apply (ii_elem _ _ _ Hix) in Hin as [Hd|[[= <-]|Hp']];
        exfalso;
        [by eapply Hnd'|done|by eapply Hnp].
    + rewrite (ii_flag _ _ _ Hix k q' Hk). split; [|naive_solver].
      intros (s' & Hin). exists s'. split; [done|]. intros [= -> Heq]. lia.
  - done.
Qed.

Lemma bestprice_stale s p b Lv fl :
  book_inv (Some (s, p)) b Lv fl →
  (∀ p', p' ∈ (o_price <$> side_queue s (level_orders b Lv)) → as_good s p p' = true) →
  ∃ b', bestprice s b = Some (front_price s b (level_orders b Lv), b') ∧
        book_inv None b' Lv fl ∧ same_store b b'.
Proof.
  intros [Hst Hix Htot Hqty Hun] Hbest.
  destruct (ii_stale _ _ _ Hix s p eq_refl) as [Hband Hno].
  assert (∃ h, heap_of s b = p :: h) as [h Hh].
  { pose proof (ii_elem _ _ _ Hix s) as Hel.
    pose proof (λ x, heap_top_max (cmp_of s) (heap_of s b) x p (ii_heap _ _ _ Hix s)) as Hmax.
    assert (p ∈ heap_of s b) as Hin by (apply Hel; auto).
    destruct (heap_of s b) as [|top h]; [set_solver|]. exists h. f_equal.
    specialize (Hmax top eq_refl Hin).
    destruct (proj1 (Hel top)) as [->|[[=]|Hp']]; [left| |done|].
    - by rewrite (default_worst _ _ _ s p Hst Hband) in Hmax.
    - specialize (Hbest _ Hp'). apply cmp_as_good in Hmax. destruct s; simpl in *; lia. }
  rewrite bestprice_eq, bestprice_loop_eq, Hh. simpl.
  destruct (Z.eqb_spec p (default_of s b)) as [->|_].
  { rewrite (si_defaults _ _ _ Hst) in Hband. destruct s; lia. }
  destruct (level_in_range _ _ _ Hst p Hband) as (q & l & -> & Hidx & Hq & Hl & Hrep). simpl.
  assert (l = []) as ->.
  { destruct l as [|i l]; [done|]. destruct (si_order _ _ _ Hst _ _ i Hl) as (o & Ho & Hp); [left|].
    exfalso. apply (Hno o); [|lia]. apply elem_level_orders. exists i. split; [|done].
    apply elem_of_concat. eexists. split; [by eapply list_elem_of_lookup_2|left]. }
  rewrite (proj2 (isEmpty_spec _ _ _ Hrep)) by done. rewrite Hidx.
  set (b' := set_heap_of _ _ _).
  assert (level_orders b' Lv = level_orders b Lv) as HL.
  { apply same_store_level_orders. unfold b'. by book_simp. }
  assert (book_inv None b' Lv fl) as Hb'.
  { split; rewrite ?HL; try done.
    - unfold b'. by apply storage_set_flag.
    - unfold b'. rewrite heap_put_level, Hh. by eapply index_drop_stale.
    - intros s'. unfold b'. book_simp. apply Htot. }
  exists b'. rewrite (bestprice_clean s b' Lv fl _ Hb'), HL. split; [|split; [done|]].
  - f_equal. f_equal. unfold front_price. case_match; [|done]. unfold b'. by book_simp.
  - unfold b'. split; by book_simp.
Qed.

(** * Changing one level *)

(** The parts of the book no order operation touches. *)
Record same_frame (b b' : OrderBook) : Prop := {
  sf_lower : lower_limit b' = lower_limit b;
  sf_upper : upper_limit b' = upper_limit b;
  sf_PL : PRICE_LEVELS b' = PRICE_LEVELS b;
  sf_default s : default_of s b' = default_of s b
}.

Lemma storage_relevel b b' V1 l V2 l' fl fl' q' :
  storage_inv b (V1 ++ l :: V2) fl → same_frame b b' →
  price_levels b' = <[length V1 := q']> (price_levels b) →
  pool_rep (pool b') fl' (concat (V1 ++ l' :: V2)) →
  level_rep (nodes (pool b')) q' l' →
  (∀ j, j ∈ concat (V1 ++ V2) → nodes (pool b') !! j = nodes (pool b) !! j) →
  (∀ i, i ∈ l' → ∃ o, order_of (nodes (pool b')) i = Some o ∧
                      o_price o = lower_limit b + Z.of_nat (length V1)) →
  (∀ id idx, orderMap b' !! id = Some idx ↔
     ∃ i o, i ∈ concat (V1 ++ l' :: V2) ∧ order_of (nodes (pool b')) i = Some o ∧
            o_order_id o = id ∧ idx = Z.of_nat i) →
  storage_inv b' (V1 ++ l' :: V2) fl'.
Proof.
  intros [] [Hlo Hup HPL Hdef] Hlv Hpool Hrep Hfr Hord Hmap.
  assert (∀ k l0, k ≠ length V1 → (V1 ++ l' :: V2) !! k = Some l0 →
            (V1 ++ l :: V2) !! k = Some l0 ∧ ∀ j, j ∈ l0 → j ∈ concat (V1 ++ V2)) as Hother.
  { intros k l0 Hk Hl0. split.
    - rewrite <- (insert_middle V1 V2 l l'), list_lookup_insert_ne in Hl0 by done. done.
    - intros j Hj. apply lookup_middle_ne in Hl0; [|done].
      apply elem_of_concat. exists l0. split; [by eapply list_elem_of_lookup_2|done]. }
  split; rewrite ?Hlo, ?Hup, ?HPL; try done.
  - intros s. rewrite Hdef, si_defaults0. done.
  - by rewrite Hlv, length_insert.
  - rewrite Hlv, length_insert, <- si_len_Lv0, !length_app. done.
  - intros k q l0 Hq Hl0. rewrite Hlv in Hq.
    apply list_lookup_insert_Some in Hq as [(<- & <- & _)|[Hne Hq]].
    + rewrite list_lookup_middle in Hl0 by done. by simplify_eq.
    + destruct (Hother k l0) as [Hl Hin]; [done..|].
      destruct (si_rep0 k q l0 Hq Hl). split; try done.
      eapply seg_frame; [|done]. intros j Hj. by apply Hfr, Hin.
  - intros k l0 i Hl0 Hi. destruct (decide (k = length V1)) as [->|Hne].
    + rewrite list_lookup_middle in Hl0 by done. simplify_eq. eauto.
    + destruct (Hother k l0) as [Hl Hin]; [done..|].
      destruct (si_order0 k l0 i Hl Hi) as (o & Ho & Hp). exists o. split; [|done].
      unfold order_of. by rewrite Hfr by auto.
Qed.

Lemma level_orders_relevel b b' V1 V2 l' :
  (∀ j, j ∈ concat (V1 ++ V2) →
        order_of (nodes (pool b')) j = order_of (nodes (pool b)) j) →
  level_orders b' (V1 ++ l' :: V2) =
  level_orders b V1 ++ orders_at (nodes (pool b')) l' :: level_orders b V2.
Proof.
  intros Hfr. unfold level_orders. rewrite fmap_app. simpl.
  assert (∀ V : list (list nat), (∀ l, l ∈ V → l ∈ V1 ++ V2) →
    orders_at (nodes (pool b')) <$> V = orders_at (nodes (pool b)) <$> V) as HV.
  { intros V HV. apply list_fmap_ext. intros k l Hl.
    assert (∀ j, j ∈ l → order_of (nodes (pool b')) j = order_of (nodes (pool b)) j) as Hl'.
    { intros j Hj. apply Hfr, elem_of_concat. exists l. split; [|done].
      by eapply HV, list_elem_of_lookup_2. }
    by apply orders_at_ext. }
  rewrite !HV; [done|set_solver..].
Qed.

(** * Totals never overflow *)

Lemma sum_quantity_bound l :
  (∀ o, o ∈ l → 0 < o_quantity o < 2 ^ 32) →
  0 <= sum_quantity l <= Z.of_nat (length l) * 2 ^ 32.
Proof.
  induction l as [|o l IH]; intros Hq; cbn [sum_quantity foldr length]; [lia|].
  pose proof (Hq o ltac:(left)).
  assert (0 <= sum_quantity l <= Z.of_nat (length l) * 2 ^ 32) as Hl.
  { apply IH. intros x Hx. apply Hq. by right. }
  unfold sum_quantity in Hl. lia.
Qed.

Lemma sum_quantity_perm l l' : l ≡ₚ l' → sum_quantity l = sum_quantity l'.
Proof. unfold sum_quantity. induction 1; simpl; lia. Qed.

Lemma sum_quantity_nonneg_zero l :
  (∀ o, o ∈ l → 0 < o_quantity o < 2 ^ 32) → sum_quantity l = 0 ↔ l = [].
Proof.
  intros Hq. split; [|by intros ->]. destruct l as [|o l]; [done|].
  pose proof (Hq o ltac:(left)).
  pose proof (sum_quantity_bound l ltac:(intros; apply Hq; by right)) as Hl.
  unfold sum_quantity in *. simpl. lia.
Qed.

Lemma level_orders_count b Lv fl :
  storage_inv b Lv fl → length (concat (level_orders b Lv)) = length (concat Lv).
Proof.
  intros Hst. pose proof (orders_at_length b Lv fl Hst) as Hl.
  unfold level_orders. clear Hst.
  assert (∀ l, l ∈ Lv → length (orders_at (nodes (pool b)) l) = length l) as H.
  { intros l Hin. apply Hl. by apply list_elem_of_lookup. }
  clear Hl. induction Lv as [|l Lv IH]; [done|]. rewrite fmap_cons. cbn [concat].
  rewrite !length_app, IH, H; [done|left|]. intros l' Hl'. apply H. by right.
Qed.

Lemma side_queue_length s L : (length (side_queue s L) ≤ length (concat L))%nat.
Proof.
  unfold side_queue. etransitivity; [apply length_filter|]. destruct s; simpl; [|done].
  induction L as [|l L IH]; [done|]. rewrite reverse_cons, concat_app. simpl.
  rewrite app_nil_r, !length_app. lia.
Qed.

Lemma total_small s b Lv fl :
  storage_inv b Lv fl →
  (∀ o, o ∈ concat (level_orders b Lv) → 0 < o_quantity o < 2 ^ 32) →
  0 <= sum_quantity (side_queue s (level_orders b Lv)) < 2 ^ 64.
Proof.
  intros Hst Hq.
  assert (∀ o, o ∈ side_queue s (level_orders b Lv) → 0 < o_quantity o < 2 ^ 32) as Hq'.
  { intros o [Ho _]%elem_of_side_queue. auto. }
  pose proof (sum_quantity_bound _ Hq'). pose proof (side_queue_length s (level_orders b Lv)).
  pose proof (level_orders_count _ _ _ Hst).
  pose proof (pool_rep_length _ _ _ (si_pool _ _ _ Hst)).
  pose proof (pr_small _ _ _ (si_pool _ _ _ Hst)). lia.
Qed.

(** * Adding an order *)

Lemma side_queue_snoc s lo L1 l L2 o :
  priced lo (L1 ++ (l ++ [o]) :: L2) → uncrossed (L1 ++ (l ++ [o]) :: L2) → o_type o = s →
  side_queue s (L1 ++ (l ++ [o]) :: L2) = insert_prio s o (side_queue s (L1 ++ l :: L2)) ∧
  side_queue (opposite s) (L1 ++ (l ++ [o]) :: L2) = side_queue (opposite s) (L1 ++ l :: L2).
Proof.
  intros Hpr Hun Hs.
  assert (o_price o = lo + Z.of_nat (length L1)) as Hop.
  { eapply Hpr; [by apply list_lookup_middle|]. set_solver. }
  assert (∀ x, x ∈ l → o_type x = s ∧ o_price x = o_price o) as Hl.
  { intros x Hx. split.
    - eapply (level_one_sided lo _ (length L1) (l ++ [o]) s o); eauto; [by apply list_lookup_middle|..];
        set_solver.
    - rewrite Hop. eapply Hpr; [by apply list_lookup_middle|]. set_solver. }
  rewrite !side_queue_split. split.
  - rewrite !filter_app, filter_cons_True, filter_nil, (filter_all _ l) by (done || naive_solver).
    rewrite <- app_assoc. simpl. rewrite (app_assoc (side_queue s (before s L1 L2))).
    rewrite (app_assoc (side_queue s (before s L1 L2)) l), insert_prio_split; [done|..].
    + intros x [Hx|Hx]%elem_of_app.
      * pose proof (before_better s lo L1 _ L2 x Hpr Hx) as Hb. rewrite <- Hop in Hb.
        destruct s; simpl in *; lia.
      * destruct (Hl x Hx) as [_ ->]. destruct s; simpl; lia.
    + intros x Hx. rewrite Hop. by eapply after_worse.
  - rewrite filter_app, filter_cons_False, filter_nil, app_nil_r; [done|].
    rewrite Hs. by destruct s.
Qed.

Lemma uncrossed_snoc L1 l L2 o s :
  uncrossed (L1 ++ l :: L2) → o_type o = s →
  (∀ x, x ∈ side_queue (opposite s) (L1 ++ l :: L2) →
        within_limit (opposite s) (o_price o) (o_price x) = false) →
  uncrossed (L1 ++ (l ++ [o]) :: L2).
Proof.
  intros Hun Hs Hnc x y Hx Hy Hbx Hsy.
  assert (∀ z, z ∈ concat (L1 ++ (l ++ [o]) :: L2) → z = o ∨ z ∈ concat (L1 ++ l :: L2)) as Hin.
  { intros z. rewrite !concat_app. simpl. set_solver. }
  destruct (Hin x Hx) as [->|Hx'], (Hin y Hy) as [->|Hy'].
  - congruence.
  - rewrite <- Hs, Hbx in Hnc. specialize (Hnc y). simpl in Hnc.
    assert ((o_price y <=? o_price o) = false) by (apply Hnc, elem_of_side_queue; done). lia.
  - rewrite <- Hs, Hsy in Hnc. specialize (Hnc x). simpl in Hnc.
    assert ((o_price o <=? o_price x) = false) by (apply Hnc, elem_of_side_queue; done). lia.
  - auto.
Qed.

(** With no stale entry, a level has a heap entry exactly when it is not empty. *)
Lemma flag_nonempty b Lv fl k q l :
  storage_inv b Lv fl → index_inv None b (level_orders b Lv) →
  price_levels b !! k = Some q → Lv !! k = Some l →
  q_heap_entry q = negb (isEmpty q).
Proof.
  intros Hst Hix Hq Hl. pose proof (si_rep _ _ _ Hst k q l Hq Hl) as Hrep.
  pose proof (isEmpty_spec b q l Hrep) as Hemp. apply eq_bool_prop_intro.
  assert (∀ c : bool, (c = true) ↔ Is_true c) as Hb by (intros []; simpl; naive_solver).
  rewrite <- !Hb, negb_true_iff, <- not_true_iff_false, Hemp, (ii_flag _ _ _ Hix k q Hq).
  split.
  - intros (s & Hin) ->. apply (ii_elem _ _ _ Hix) in Hin as [Hd|[[=]|Hp]].
    + rewrite (si_defaults _ _ _ Hst) in Hd. pose proof (si_len_Lv _ _ _ Hst).
      pose proof (si_len _ _ _ Hst). pose proof (si_PL _ _ _ Hst).
      apply lookup_lt_Some in Hl. destruct s; lia.
    + apply list_elem_of_fmap in Hp as (o & Hp & [Ho _]%elem_of_side_queue).
      apply elem_level_orders in Ho as (i & (l & Hl' & Hi)%elem_of_concat & Ho).
      apply list_elem_of_lookup in Hl' as [k' Hk'].
      destruct (si_order _ _ _ Hst k' l i Hk' Hi) as (o' & Ho' & Hp').
      assert (o' = o) as -> by congruence. assert (k' = k) as -> by lia. set_solver.
  - intros Hne. destruct l as [|i l]; [done|].
    destruct (si_order _ _ _ Hst k (i :: l) i Hl) as (o & Ho & Hp); [left|].
    exists (o_type o). apply (ii_elem _ _ _ Hix). right. right.
    apply list_elem_of_fmap. exists o. split; [done|]. apply elem_of_side_queue. split; [|done].
    apply elem_level_orders. exists i. split; [|done]. apply elem_of_concat.
    exists (i :: l). split; [by eapply list_elem_of_lookup_2|left].
Qed.

(** The heaps and flags after an order was appended to level [length L1]. *)
Lemma index_insert s o b b' L1 l L2 q' :
  index_inv None b (L1 ++ l :: L2) → same_frame b b' →
  o_type o = s → o_price o = lower_limit b + Z.of_nat (length L1) →
  side_queue s (L1 ++ (l ++ [o]) :: L2) = insert_prio s o (side_queue s (L1 ++ l :: L2)) →
  side_queue (opposite s) (L1 ++ (l ++ [o]) :: L2) = side_queue (opposite s) (L1 ++ l :: L2) →
  price_levels b' = <[length L1 := q']> (price_levels b) → q_heap_entry q' = true →
  (∀ x, x ∈ l → o_type x = s ∧ o_price x = o_price o) →
  (l = [] → ∀ s', o_price o ∉ heap_of s' b) →
  (∀ s', heap_of s' b' = if decide (s' = s ∧ l = []) then heap_push (cmp_of s) (o_price o) (heap_of s b)
                         else heap_of s' b) →
  index_inv None b' (L1 ++ (l ++ [o]) :: L2).
Proof.
  intros Hix [Hlo Hup _ Hdef] Hs Hpr Hq Hq' Hlv Hflag Hl Hfresh Hheap.
  assert (o_price o ∈ (o_price <$> side_queue s (L1 ++ l :: L2)) ∨ l = []) as Hold.
  { destruct l as [|x l]; [by right|left]. destruct (Hl x) as [Hx Hpx]; [left|].
    apply list_elem_of_fmap. exists x. split; [done|]. apply elem_of_side_queue.
    split; [|done]. rewrite concat_app. simpl. set_solver. }
  assert (∀ s' p, p ∈ heap_of s' b' ↔ p ∈ heap_of s' b ∨ (s' = s ∧ p = o_price o)) as Hmem.
  { intros s' p. rewrite Hheap. case_decide as Hc.
    - destruct Hc as [-> ->]. rewrite heap_push_perm, elem_of_cons. naive_solver.
    - split; [auto|]. intros [?|[-> ->]]; [done|]. apply (ii_elem _ _ _ Hix).
      destruct Hold as [|Hl0]; [auto|]. by destruct Hc. }
  assert (∀ s', side_queue s' (L1 ++ (l ++ [o]) :: L2) ≡ₚ
                (if decide (s' = s) then [o] else []) ++ side_queue s' (L1 ++ l :: L2)) as Hside.
  { intros s'. case_decide as Hc; [subst s'|].
    - by rewrite Hq, insert_prio_perm.
    - assert (s' = opposite s) as -> by (by destruct s, s'). by rewrite Hq'. }
  split.
  - intros s'. rewrite Hheap. case_decide as Hc; [|apply Hix]. destruct Hc as [-> _].
    apply heap_push_heap; [apply _|apply Hix].
  - intros s'. rewrite Hheap. case_decide as Hc; [|apply Hix]. destruct Hc as [-> Hl0].
    rewrite heap_push_perm. apply NoDup_cons. split; [by apply Hfresh|apply Hix].
  - intros s' p. rewrite Hmem, (ii_elem _ _ _ Hix s' p), Hdef, Hside.
    case_decide as Hc; rewrite fmap_app; simpl; rewrite ?elem_of_cons; naive_solver.
  - intros k q. rewrite Hlv. setoid_rewrite Hmem. rewrite Hlo. intros Hk.
    apply list_lookup_insert_Some in Hk as [(<- & <- & _)|[Hne Hk]].
    + rewrite Hflag, <- Hpr. naive_solver.
    + rewrite (ii_flag _ _ _ Hix k q Hk). split; [naive_solver|].
      intros (s' & [?|[-> Heq]]); [eauto|]. lia.
  - done.
Qed.

Lemma concat_middle {A} (V1 V2 : list (list A)) l :
  concat (V1 ++ l :: V2) ≡ₚ l ++ concat (V1 ++ V2).
Proof.
  rewrite !concat_app. simpl. rewrite !app_assoc. f_equiv. apply Permutation_app_comm.
Qed.

(** The price of a valid order, as a position in the list of levels. *)
Lemma level_split b Lv fl p :
  storage_inv b Lv fl → lower_limit b <= p <= upper_limit b →
  ∃ q V1 l V2, Lv = V1 ++ l :: V2 ∧ p = lower_limit b + Z.of_nat (length V1) ∧
    priceToIndex b p = Z.of_nat (length V1) ∧
    index_out_of_range b (Z.of_nat (length V1)) = false ∧
    getpricelevels b (Z.of_nat (length V1)) = Some q ∧
    price_levels b !! length V1 = Some q ∧ level_rep (nodes (pool b)) q l.
Proof.
  intros Hst Hp. destruct (level_in_range _ _ _ Hst p Hp) as (q & l & Hg & Hidx & Hq & Hl & Hrep).
  apply list_elem_of_split_length in Hl as (V1 & V2 & HLv & Hlen).
  exists q, V1, l, V2. rewrite <- Hlen. pose proof (si_PL _ _ _ Hst).
  unfold index_out_of_range. rewrite Hidx in *.
  replace (Z.of_nat (Z.to_nat (p - lower_limit b))) with (p - lower_limit b) by lia.
  split_and!; try done; lia.
Qed.

(** A full pool refuses the order and leaves the book as it was. *)
Lemma add_order_full s o b Lv :
  storage_inv b Lv [] → lower_limit b <= o_price o <= upper_limit b →
  add_order s o b = Some (false, b).
Proof.
  intros Hst Hp. rewrite add_order_eq.
  destruct (level_split _ _ _ _ Hst Hp) as (q & V1 & l & V2 & HLv & _ & Hidx & Hr & Hg & Hq & _).
  rewrite Hidx. cbn zeta. rewrite Hr, Hg. simpl.
  rewrite (insertOrder_full o q (pool b) (concat Lv)) by apply Hst. simpl.
  unfold put_level. rewrite Nat2Z.id, list_insert_id by done. by destruct b.
Qed.

(** The book [add_order] returns once the pool has given it a node. *)
Lemma add_order_run s o b k q i q' p' :
  priceToIndex b (o_price o) = Z.of_nat k → index_out_of_range b (Z.of_nat k) = false →
  getpricelevels b (Z.of_nat k) = Some q → Z.of_nat i < 2 ^ 31 →
  insertOrder o q (pool b) = Some (Z.of_nat i, q', p') →
  ∃ b', add_order s o b = Some (true, b') ∧ pool b' = p' ∧ same_frame b b' ∧
    price_levels b' = <[k := set_heap_entry true q']> (price_levels b) ∧
    orderMap b' = <[o_order_id o := Z.of_nat i]> (orderMap b) ∧
    (∀ s', heap_of s' b' =
       if decide (s' = s) then
         if isEmpty q && negb (q_heap_entry q)
         then heap_push (cmp_of s) (o_price o) (heap_of s b) else heap_of s b
       else heap_of s' b) ∧
    (∀ s', total_of s' b' =
       if decide (s' = s) then u64 (total_of s b + o_quantity o) else total_of s' b).
Proof.
  intros Hidx Hr Hg Hi Hins. eexists. split_and!.
  - rewrite add_order_eq, Hidx. cbn zeta. rewrite Hr, Hg. cbn [mbind option_bind]. rewrite Hins.
    cbn [mbind option_bind]. rewrite u32_nat, nat_not_NULL by done. reflexivity.
  - case_match; by book_simp.
  - split; intros; case_match; by book_simp.
  - case_match; book_simp; by rewrite Nat2Z.id.
  - case_match; by book_simp.
  - intros s'. unfold has_heap_entry. destruct (isEmpty q && negb (q_heap_entry q)); book_simp;
      repeat case_decide; by subst.
  - intros s'. case_match; book_simp; by case_decide.
Qed.

(** Node [i], carrying [o], was appended to the level [l] between [V1] and [V2]. *)
Record node_added (b b' : OrderBook) (V1 : list (list nat)) (l : list nat) (V2 : list (list nat))
  (i : nat) (o : Order) : Prop := {
  na_frame j : j ∈ concat (V1 ++ V2) → nodes (pool b') !! j = nodes (pool b) !! j;
  na_old j : j ∈ l → order_of (nodes (pool b')) j = order_of (nodes (pool b)) j;
  na_new : order_of (nodes (pool b')) i = Some o;
  na_sf : same_frame b b';
  na_map : orderMap b' = <[o_order_id o := Z.of_nat i]> (orderMap b);
  na_fresh : orderMap b !! o_order_id o = None;
  na_price : o_price o = lower_limit b + Z.of_nat (length V1)
}.

Lemma node_added_orders b b' V1 l V2 i o :
  node_added b b' V1 l V2 i o →
  level_orders b' (V1 ++ (l ++ [i]) :: V2) =
  level_orders b V1 ++ (orders_at (nodes (pool b)) l ++ [o]) :: level_orders b V2.
Proof.
  intros [Hfr Hold Hnew _ _ _ _].
  rewrite (level_orders_relevel b); [|intros j Hj; unfold order_of; by rewrite Hfr].
  rewrite orders_at_app, orders_at_cons, Hnew. do 3 f_equal. by apply orders_at_ext.
Qed.

Lemma node_added_storage b b' V1 l V2 i fl fl' o q' :
  node_added b b' V1 l V2 i o → storage_inv b (V1 ++ l :: V2) fl →
  price_levels b' = <[length V1 := q']> (price_levels b) →
  pool_rep (pool b') fl' (i :: l ++ concat (V1 ++ V2)) →
  level_rep (nodes (pool b')) q' (l ++ [i]) →
  storage_inv b' (V1 ++ (l ++ [i]) :: V2) fl'.
Proof.
  intros [Hfr Hold Hnew Hsf Hmap Hfresh Hprice] Hst Hlv Hpool Hrep.
  pose proof (si_order _ _ _ Hst (length V1) l) as Hord.
  rewrite list_lookup_middle in Hord by done.
  eapply storage_relevel; try done.
  - eapply pool_rep_perm; [|done]. rewrite concat_middle, <- app_assoc. simpl.
    by rewrite Permutation_middle.
  - intros j [Hj| ->%list_elem_of_singleton]%elem_of_app.
    + rewrite Hold by done. by apply Hord.
    + eauto.
  - intros id idx. rewrite Hmap, lookup_insert_Some.
    assert (∀ j, j ∈ concat (V1 ++ (l ++ [i]) :: V2) ↔ j = i ∨ j ∈ concat (V1 ++ l :: V2)) as Hin.
    { intros j. rewrite !concat_middle. set_solver. }
    assert (∀ j, j ∈ concat (V1 ++ l :: V2) →
              order_of (nodes (pool b')) j = order_of (nodes (pool b)) j) as Heq.
    { intros j. rewrite concat_middle. intros [Hj|Hj]%elem_of_app; [auto|].
      unfold order_of. by rewrite Hfr. }
    assert (∀ j x, j ∈ concat (V1 ++ l :: V2) → order_of (nodes (pool b)) j = Some x →
              o_order_id x ≠ o_order_id o) as Hne.
    { intros j x Hj Hx Hid. assert (orderMap b !! o_order_id x = Some (Z.of_nat j)) as Hl.
      { apply (si_map _ _ _ Hst). eauto 10. }
      by rewrite Hid, Hfresh in Hl. }
    rewrite (si_map _ _ _ Hst id idx). split.
    + intros [[<- <-]|(Hn & j & x & Hj & Hx & <- & ->)].
      * exists i, o. rewrite Hin. auto.
      * exists j, x. rewrite Hin, Heq by done. auto.
    + intros (j & x & Hj & Hx & <- & ->). apply Hin in Hj as [->|Hj].
      * left. by simplify_eq.
      * rewrite Heq in Hx by done. right. split; [|eauto 10]. symmetry. by eapply Hne.
Qed.

(** The heaps and flags after the node has been added. *)
Lemma node_added_index s o b b' V1 l V2 i fl fl' q q' :
  node_added b b' V1 l V2 i o → o_type o = s →
  storage_inv b (V1 ++ l :: V2) fl → storage_inv b' (V1 ++ (l ++ [i]) :: V2) fl' →
  index_inv None b (level_orders b (V1 ++ l :: V2)) →
  uncrossed (level_orders b' (V1 ++ (l ++ [i]) :: V2)) →
  price_levels b !! length V1 = Some q → level_rep (nodes (pool b)) q l →
  price_levels b' = <[length V1 := q']> (price_levels b) → q_heap_entry q' = true →
  (∀ s', heap_of s' b' =
     if decide (s' = s) then
       if isEmpty q && negb (q_heap_entry q) then heap_push (cmp_of s) (o_price o) (heap_of s b) else heap_of s b
     else heap_of s' b) →
  index_inv None b' (level_orders b' (V1 ++ (l ++ [i]) :: V2)).
Proof.
  intros Hna Htype Hst Hst' Hix Hun' Hlq Hrep Hlv Hflag' Hheap.
  pose proof (book_priced _ _ _ Hst') as Hpr'. pose proof (book_priced _ _ _ Hst) as Hpr.
  assert (q_heap_entry q = negb (isEmpty q)) as Hflag
    by (eapply (flag_nonempty b _ fl); [done|done|exact Hlq|by apply list_lookup_middle]).
  assert (isEmpty q = true ↔ orders_at (nodes (pool b)) l = []) as Hemp.
  { rewrite (isEmpty_spec b q l Hrep), <- !length_zero_iff_nil.
    erewrite orders_at_length; [done|done|]. exists (length V1). by apply list_lookup_middle. }
  pose proof (na_price _ _ _ _ _ _ _ Hna) as Hp.
  rewrite (node_added_orders _ _ _ _ _ _ _ Hna) in *. rewrite (sf_lower _ _ (na_sf _ _ _ _ _ _ _ Hna)) in Hpr'.
  rewrite (level_orders_relevel b b) in * by done.
  destruct (side_queue_snoc s _ _ _ _ o Hpr' Hun' Htype) as [Hqs Hqo].
  assert (length (level_orders b V1) = length V1) as HlenV by apply length_fmap. rewrite <- HlenV in *.
  eapply (index_insert s o b b'); try done; [apply Hna|..].
  - intros x Hx. split.
    + eapply (level_one_sided _ _ _ _ s o x Hpr' Hun'); [by apply list_lookup_middle|set_solver..].
    + rewrite Hp. eapply Hpr; [by apply list_lookup_middle|done].
  - intros Hlo s' Hin. apply Hemp in Hlo. rewrite Hlo in Hflag.
    assert (q_heap_entry q = true) as Ht; [|by rewrite Hflag in Ht].
    apply (ii_flag _ _ _ Hix _ q Hlq). exists s'. by rewrite <- Hp.
  - intros s'. rewrite Hheap, Hflag. destruct (isEmpty q); simpl; repeat case_decide; naive_solver.
Qed.

(** The total of a side that has gained an order. *)
Lemma total_added s o b' Lv' fl' Q :
  storage_inv b' Lv' fl' → (∀ x, x ∈ concat (level_orders b' Lv') → 0 < o_quantity x < 2 ^ 32) →
  side_queue s (level_orders b' Lv') = insert_prio s o Q →
  u64 (sum_quantity Q + o_quantity o) = sum_quantity (side_queue s (level_orders b' Lv')).
Proof.
  intros Hst' Hq' Hqs. pose proof (total_small s b' _ _ Hst' Hq') as Hsm. rewrite Hqs in *.
  rewrite (sum_quantity_perm _ _ (insert_prio_perm _ _ _)) in *. simpl in *.
  rewrite u64_small; [lia|]. unfold is_u64. lia.
Qed.

Lemma add_order_ok s o b Lv i fl :
  book_inv None b Lv (i :: fl) → o_type o = s →
  lower_limit b <= o_price o <= upper_limit b → 0 < o_quantity o < 2 ^ 32 →
  orderMap b !! o_order_id o = None →
  (∀ x, x ∈ side_queue (opposite s) (level_orders b Lv) →
        within_limit (opposite s) (o_price o) (o_price x) = false) →
  ∃ b' Lv', add_order s o b = Some (true, b') ∧ book_inv None b' Lv' fl ∧ same_frame b b' ∧
    orderMap b' = <[o_order_id o := Z.of_nat i]> (orderMap b) ∧
    side_queue s (level_orders b' Lv') = insert_prio s o (side_queue s (level_orders b Lv)) ∧
    side_queue (opposite s) (level_orders b' Lv') = side_queue (opposite s) (level_orders b Lv).
Proof.
  intros [Hst Hix Htot Hq Hun] Htype Hband Hqty Hfresh Hnocross.
  destruct (level_split _ _ _ _ Hst Hband)
    as (q & V1 & l & V2 & -> & Hp & Hidx & Hr & Hg & Hlq & Hrep).
  assert (pool_rep (pool b) (i :: fl) (l ++ concat (V1 ++ V2))) as Hpool.
  { eapply pool_rep_perm; [|apply Hst]. by rewrite concat_middle. }
  assert (Z.of_nat i < 2 ^ 31) as Hi by (eapply pool_rep_lt; [done|set_solver]).
  destruct (insertOrder_ok o q (pool b) i fl l _ Hpool Hrep)
    as (q' & p' & Hins & Hpool' & Hrep' & Hfl & Hoi & Hfr & Hor).
  pose proof (pool_rep_NoDup _ _ _ Hpool) as [Hnin Hnd]%NoDup_cons.
  apply NoDup_app in Hnd as (_ & _ & (_ & Hdis & _)%NoDup_app).
  destruct (add_order_run s o b _ q i q' p' Hidx Hr Hg Hi Hins)
    as (b' & Hrun & Hp' & Hsf & Hlv & Hmap & Hheap & Htot').
  subst p'. exists b', (V1 ++ (l ++ [i]) :: V2).
  assert (node_added b b' V1 l V2 i o) as Hna.
  { split; try done.
    - intros j Hj. apply Hfr; [|by intros ->; set_solver]. intros Hjl. by eapply Hdis.
    - intros j Hj. apply Hor. intros ->. set_solver. }
  assert (storage_inv b' (V1 ++ (l ++ [i]) :: V2) fl) as Hst'.
  { eapply node_added_storage; try done. destruct Hrep'. by split. }
  pose proof (node_added_orders _ _ _ _ _ _ _ Hna) as HL'.
  assert (level_orders b (V1 ++ l :: V2) =
    level_orders b V1 ++ orders_at (nodes (pool b)) l :: level_orders b V2) as HL
    by by apply level_orders_relevel.
  assert (uncrossed (level_orders b' (V1 ++ (l ++ [i]) :: V2))) as Hun'.
  { rewrite HL'. rewrite HL in *. by eapply uncrossed_snoc. }
  pose proof (book_priced _ _ _ Hst') as Hpr'. rewrite (sf_lower _ _ Hsf) in Hpr'.
  assert (side_queue s (level_orders b' (V1 ++ (l ++ [i]) :: V2))
          = insert_prio s o (side_queue s (level_orders b (V1 ++ l :: V2))) ∧
    side_queue (opposite s) (level_orders b' (V1 ++ (l ++ [i]) :: V2))
    = side_queue (opposite s) (level_orders b (V1 ++ l :: V2))) as [Hqs Hqo].
  { rewrite HL' in *. rewrite HL. by eapply side_queue_snoc. }
  assert (∀ x, x ∈ concat (level_orders b' (V1 ++ (l ++ [i]) :: V2)) → 0 < o_quantity x < 2 ^ 32) as Hq'.
  { intros x Hx. rewrite HL', concat_middle, <- app_assoc in Hx. simpl in Hx.
    destruct (decide (x = o)) as [->|Hne]; [done|]. apply Hq. rewrite HL, concat_middle. set_solver. }
  split_and!; try done. split; try done.
  - by eapply node_added_index.
  - intros s'. rewrite Htot', !Htot. case_decide as Hc; [subst s'; by eapply total_added|].
    assert (s' = opposite s) as -> by (by destruct s, s'). by rewrite Hqo.
Qed.

(** * Each side is in price priority *)

Lemma priced_cons lo l L : priced lo (l :: L) → priced (lo + 1) L.
Proof. intros Hpr k l' o Hk Ho. rewrite (Hpr (S k) l' o Hk Ho). lia. Qed.

Lemma same_price_sorted s lo l : (∀ x, x ∈ l → o_price x = lo) → prio_sorted s l.
Proof.
  induction l as [|x l IH]; intros Hx; constructor.
  - apply IH. intros y Hy. apply Hx. by right.
  - apply Forall_forall. intros y Hy. rewrite (Hx x), (Hx y) by set_solver.
    destruct s; simpl; lia.
Qed.

Lemma side_queue_sorted s lo L : priced lo L → prio_sorted s (side_queue s L).
Proof.
  revert lo. induction L as [|l L IH]; intros lo Hpr; [destruct s; constructor|].
  specialize (IH _ (priced_cons _ _ _ Hpr)).
  assert (∀ x, x ∈ filter (λ o, o_type o = s) l → o_price x = lo) as Hx.
  { intros x [_ Hx]%list_elem_of_filter. rewrite (Hpr 0%nat l x eq_refl Hx). lia. }
  pose proof (λ x, before_better s lo [] l L x Hpr) as Hb.
  pose proof (λ x, after_worse s lo [] l L x Hpr) as Ha.
  pose proof (side_queue_split s [] l L) as Hsp. simpl in Hsp, Ha, Hb. rewrite Hsp.
  rewrite Z.add_0_r in Ha, Hb.
  assert (∀ V, V = [] ∨ V = L → prio_sorted s (side_queue s V)) as HV.
  { intros V [->| ->]; [destruct s; constructor|done]. }
  apply StronglySorted_app_2; [|apply HV; destruct s; auto|apply StronglySorted_app_2].
  - intros x y Hx1 [Hy%Hx|Hy%Ha]%elem_of_app; apply Hb in Hx1; destruct s; simpl in *; lia.
  - intros x y Hx1%Hx Hy%Ha. destruct s; simpl in *; lia.
  - by eapply same_price_sorted.
  - apply HV. destruct s; auto.
Qed.

Lemma front_best s lo L o rest p :
  priced lo L → side_queue s L = o :: rest → p ∈ (o_price <$> side_queue s L) →
  as_good s (o_price o) p = true.
Proof.
  intros Hpr Hq (x & -> & Hx)%list_elem_of_fmap.
  pose proof (side_queue_sorted s lo L Hpr) as Hs. rewrite Hq in *.
  apply StronglySorted_cons in Hs as [Hs _]. rewrite Forall_forall in Hs.
  apply elem_of_cons in Hx as [->|Hx]; [destruct s; simpl; lia|by apply Hs].
Qed.

(** * The order at the front of a side *)

Record front_at (s : OrderType) (b : OrderBook) (Lv : list (list nat)) (o : Order)
  (rest : list Order) (q : PriceQueues) (V1 : list (list nat)) (i : nat) (l : list nat)
  (V2 : list (list nat)) (n : OrderNode) : Prop := {
  fa_Lv : Lv = V1 ++ (i :: l) :: V2;
  fa_price : o_price o = lower_limit b + Z.of_nat (length V1);
  fa_index : priceToIndex b (o_price o) = Z.of_nat (length V1);
  fa_range : index_out_of_range b (Z.of_nat (length V1)) = false;
  fa_get : getpricelevels b (Z.of_nat (length V1)) = Some q;
  fa_level : price_levels b !! length V1 = Some q;
  fa_rep : level_rep (nodes (pool b)) q (i :: l);
  fa_small : Z.of_nat i < 2 ^ 31;
  fa_node : nodes (pool b) !! i = Some n;
  fa_order : n_order n = o;
  fa_type x : x ∈ o :: orders_at (nodes (pool b)) l → o_type x = s;
  fa_before : side_queue s (before s (level_orders b V1) (level_orders b V2)) = [];
  fa_rest : rest = orders_at (nodes (pool b)) l ++
                   side_queue s (after s (level_orders b V1) (level_orders b V2));
  fa_head : gethead q (pool b) = Some n;
  fa_nonempty : isEmpty q = false
}.

Lemma front_level s b Lv fl o rest :
  book_inv None b Lv fl → side_queue s (level_orders b Lv) = o :: rest →
  ∃ q V1 i l V2 n, front_at s b Lv o rest q V1 i l V2 n.
Proof.
  intros [Hst Hix _ _ Hun] Hq. pose proof (book_priced _ _ _ Hst) as Hpr.
  assert (o_price o ∈ (o_price <$> side_queue s (level_orders b Lv))) as Hin by (rewrite Hq; left).
  destruct (level_split _ _ _ _ Hst (price_in_band _ _ _ _ _ Hst Hin))
    as (q & V1 & l & V2 & -> & Hp & Hidx & Hr & Hg & Hlq & Hrep).
  destruct (front_split s _ _ (o_price o) Hpr Hun Hin) as (L1 & o' & tl & L2 & HL & Hp' & Ho & Hty & Hbe & Hsq).
  { intros p' Hp'. by eapply front_best. }
  rewrite Hq in Hsq. injection Hsq as <- Hrest.
  rewrite (level_orders_relevel b b) in HL by done.
  assert (length (level_orders b V1) = length V1) as HlenV by apply length_fmap.
  apply app_inj_1 in HL as [HL1 HL2]; [|lia]. injection HL2 as Hol HL2.
  destruct l as [|i l]; [done|]. rewrite orders_at_cons in Hol.
  destruct (si_order _ _ _ Hst (length V1) (i :: l) i) as (x & Hx & _);
    [by apply list_lookup_middle|left|].
  rewrite Hx in Hol. injection Hol as -> Htl. unfold order_of in Hx.
  destruct (nodes (pool b) !! i) as [n|] eqn:Hn; [|done]. injection Hx as Hx.
  assert (Z.of_nat i < 2 ^ 31) as Hi.
  { eapply pool_rep_lt; [apply Hst|]. rewrite concat_middle. set_solver. }
  exists q, V1, i, l, V2, n. split; try done; try (by subst).
  - unfold gethead. rewrite (lr_head _ _ _ Hrep). simpl. by rewrite getNode_nat.
  - apply not_true_iff_false. by rewrite (isEmpty_spec b q _ Hrep).
Qed.

(** Replacing a one-sided level by another does not show on the other side. *)
Lemma side_queue_other s L1 l l' L2 :
  (∀ x, x ∈ l → o_type x = s) → (∀ x, x ∈ l' → o_type x = s) →
  side_queue (opposite s) (L1 ++ l' :: L2) = side_queue (opposite s) (L1 ++ l :: L2).
Proof.
  intros Hl Hl'. rewrite !side_queue_split.
  rewrite !(filter_none (λ o, o_type o = opposite s)); [done|..];
    intros x Hx; [rewrite Hl by done|rewrite Hl' by done]; by destruct s.
Qed.

(** * Removing an order *)

(** What taking the node [i] out of its level does to the storage. *)
Lemma removed_storage b b' V1 l1 i l2 V2 o q' fl :
  storage_inv b (V1 ++ (l1 ++ i :: l2) :: V2) fl → same_frame b b' →
  order_of (nodes (pool b)) i = Some o →
  price_levels b' = <[length V1 := q']> (price_levels b) →
  orderMap b' = delete (o_order_id o) (orderMap b) →
  pool_rep (pool b') (i :: fl) ((l1 ++ l2) ++ concat (V1 ++ V2)) →
  level_rep (nodes (pool b')) q' (l1 ++ l2) →
  (∀ j, j ∉ l1 ++ i :: l2 → nodes (pool b') !! j = nodes (pool b) !! j) →
  (∀ j, order_of (nodes (pool b')) j = order_of (nodes (pool b)) j) →
  storage_inv b' (V1 ++ (l1 ++ l2) :: V2) (i :: fl).
Proof.
  intros Hst Hsf Hoi Hlv Hmap Hpool Hrep Hfr Hor.
  pose proof (pool_rep_NoDup _ _ _ (si_pool _ _ _ Hst)) as Hnd.
  rewrite concat_middle, NoDup_app in Hnd. destruct Hnd as (_ & _ & Hnd).
  rewrite <- Permutation_middle in Hnd. simpl in Hnd.
  apply NoDup_cons in Hnd as [Hi Hnd]. apply NoDup_app in Hnd as (_ & Hdis & _).
  eapply storage_relevel; try done.
  - eapply pool_rep_perm; [|done]. by rewrite concat_middle.
  - intros j Hj. apply Hfr. rewrite elem_of_app, elem_of_cons. intros [?|[->|?]]; [|set_solver|];
      (eapply Hdis; [|done]); set_solver.
  - intros j Hj. rewrite Hor. eapply (si_order _ _ _ Hst (length V1)); [by apply list_lookup_middle|].
    set_solver.
  - intros id idx. rewrite Hmap, lookup_delete_Some, (si_map _ _ _ Hst id idx).
    setoid_rewrite Hor. setoid_rewrite concat_middle. setoid_rewrite <- Permutation_middle. simpl. split.
    + intros (Hne & j & x & Hj & Hx & <- & ->). exists j, x. split; [|done].
      apply elem_of_cons in Hj as [->|Hj]; [congruence|done].
    + intros (j & x & Hj & Hx & <- & ->). split.
      * intros Hid. apply Hi. replace i with j; [done|].
        assert (orderMap b !! o_order_id x = Some (Z.of_nat j)) as H1.
        { apply (si_map _ _ _ Hst). exists j, x. rewrite concat_middle. set_solver. }
        assert (orderMap b !! o_order_id o = Some (Z.of_nat i)) as H2.
        { apply (si_map _ _ _ Hst). exists i, o. rewrite concat_middle. set_solver. }
        rewrite <- Hid, H2 in H1. by simplify_eq.
      * exists j, x. split; [by right|done].
Qed.

Lemma front_removed_storage s b b' V1 i l V2 n o rest q q' fl :
  front_at s b (V1 ++ (i :: l) :: V2) o rest q V1 i l V2 n →
  storage_inv b (V1 ++ (i :: l) :: V2) fl → same_frame b b' →
  price_levels b' = <[length V1 := q']> (price_levels b) →
  orderMap b' = delete (o_order_id o) (orderMap b) →
  pool_rep (pool b') (i :: fl) (l ++ concat (V1 ++ V2)) →
  level_rep (nodes (pool b')) q' l →
  (∀ j, j ∉ i :: l → nodes (pool b') !! j = nodes (pool b) !! j) →
  (∀ j, order_of (nodes (pool b')) j = order_of (nodes (pool b)) j) →
  storage_inv b' (V1 ++ l :: V2) (i :: fl).
Proof.
  intros Hfa Hst Hsf. apply (removed_storage b b' V1 [] i l V2 o q' fl); try done.
  unfold order_of.
  by rewrite (fa_node _ _ _ _ _ _ _ _ _ _ _ Hfa), <- (fa_order _ _ _ _ _ _ _ _ _ _ _ Hfa).
Qed.

(** The level of price [p] goes stale when the removal leaves it empty. *)
Definition stale_if (s : OrderType) (p : Z) (tl : list Order) : stale_entry :=
  match tl with [] => Some (s, p) | _ :: _ => None end.

Lemma index_removed s o b b' L1 tl L2 q q' :
  index_inv None b (L1 ++ (o :: tl) :: L2) → same_frame b b' →
  priced (lower_limit b) (L1 ++ (o :: tl) :: L2) →
  lower_limit b <= o_price o <= upper_limit b →
  (∀ x, x ∈ o :: tl → o_type x = s) →
  price_levels b !! length L1 = Some q → q_heap_entry q' = q_heap_entry q →
  price_levels b' = <[length L1 := q']> (price_levels b) →
  (∀ s', heap_of s' b' = heap_of s' b) →
  index_inv (stale_if s (o_price o) tl) b' (L1 ++ tl :: L2).
Proof.
  intros Hix [Hlo Hup _ Hdef] Hpr Hband Hty Hq Hfl Hlv Hheap.
  pose proof (Hpr _ _ o (list_lookup_middle _ _ _ _ eq_refl) ltac:(left)) as Hpo.
  assert (∀ s' p, p ∈ (o_price <$> side_queue s' (L1 ++ (o :: tl) :: L2)) ↔
            (stale_if s (o_price o) tl) = Some (s', p) ∨
            p ∈ (o_price <$> side_queue s' (L1 ++ tl :: L2))) as Hprices.
  { intros s' p. rewrite !side_queue_split, !fmap_app, !elem_of_app.
    destruct (decide (s' = s)) as [->|Hne].
    - rewrite !filter_all by set_solver. destruct tl as [|x tl]; simpl; rewrite ?elem_of_cons.
      + naive_solver.
      + rewrite (Hpr _ _ x (list_lookup_middle _ _ _ _ eq_refl)), <- Hpo by set_solver. naive_solver.
    - rewrite !(filter_none (λ o, o_type o = s')).
      + destruct tl; naive_solver.
      + intros x Hx Hsx. apply Hne. rewrite <- Hsx. apply Hty. set_solver.
      + intros x Hx Hsx. apply Hne. rewrite <- Hsx. apply Hty. set_solver. }
  split.
  - intros s'. rewrite Hheap. apply Hix.
  - intros s'. rewrite Hheap. apply Hix.
  - intros s' p. rewrite Hheap, (ii_elem _ _ _ Hix s' p), Hprices, Hdef. naive_solver.
  - intros k q0. rewrite Hlv, Hlo. setoid_rewrite Hheap. intros Hk.
    apply list_lookup_insert_Some in Hk as [(<- & <- & _)|[_ Hk]].
    + rewrite Hfl. by apply (ii_flag _ _ _ Hix).
    + by apply (ii_flag _ _ _ Hix).
  - intros s' p Hst. destruct tl; [|done]. injection Hst as <- <-. rewrite Hlo, Hup. split; [done|].
    intros x (l & Hl & Hx)%elem_of_concat Hpx. apply list_elem_of_lookup in Hl as [k Hk].
    destruct (decide (k = length L1)) as [->|Hne].
    { rewrite list_lookup_middle in Hk by done. set_solver. }
    rewrite <- (insert_middle L1 L2 [o] []), list_lookup_insert_ne in Hk by done.
    rewrite (Hpr k l x Hk Hx) in Hpx. lia.
Qed.

Lemma remove_order_run s b Lv fl o rest q V1 i l V2 n q' p' :
  front_at s b Lv o rest q V1 i l V2 n → storage_inv b Lv fl →
  removeOrder (Z.of_nat i) q (pool b) = Some (true, q', p') →
  ∃ b', remove_order s (o_price o) b = Some (true, b') ∧ pool b' = p' ∧ same_frame b b' ∧
    price_levels b' = <[length V1 := q']> (price_levels b) ∧
    orderMap b' = delete (o_order_id o) (orderMap b) ∧
    (∀ s', heap_of s' b' = heap_of s' b) ∧
    (∀ s', total_of s' b' =
       if decide (s' = s) then u64 (total_of s b - o_quantity o) else total_of s' b).
Proof.
  intros Hfa Hst Hrm.
  assert (orderMap b !! o_order_id (n_order n) = Some (Z.of_nat i)) as Hm.
  { apply (si_map _ _ _ Hst). exists i, (n_order n). split_and!; try done.
    - rewrite (fa_Lv _ _ _ _ _ _ _ _ _ _ _ Hfa), concat_middle. set_solver.
    - unfold order_of. by rewrite (fa_node _ _ _ _ _ _ _ _ _ _ _ Hfa). }
  eexists. split_and!.
  - rewrite remove_order_eq, (fa_index _ _ _ _ _ _ _ _ _ _ _ Hfa). cbn zeta.
    rewrite (fa_get _ _ _ _ _ _ _ _ _ _ _ Hfa). cbn [mbind option_bind].
    rewrite (fa_nonempty _ _ _ _ _ _ _ _ _ _ _ Hfa), (fa_head _ _ _ _ _ _ _ _ _ _ _ Hfa).
    cbn [mbind option_bind].
    rewrite Hm, s32_nat, Hrm by apply Hfa. reflexivity.
  - by book_simp.
  - split; intros; by book_simp.
  - book_simp. by rewrite Nat2Z.id.
  - book_simp. by rewrite (fa_order _ _ _ _ _ _ _ _ _ _ _ Hfa).
  - intros s'. by book_simp.
  - intros s'. book_simp. by rewrite (fa_order _ _ _ _ _ _ _ _ _ _ _ Hfa).
Qed.

(** A stale entry [bestprice s] is allowed to find. *)
Definition front_stale (s : OrderType) (p : Z) (L : list (list Order)) (st : stale_entry) : Prop :=
  st = None ∨
  st = Some (s, p) ∧ ∀ p', p' ∈ (o_price <$> side_queue s L) → as_good s p p' = true.

Lemma front_removed_orders s b b' o rest q V1 i l V2 n :
  front_at s b (V1 ++ (i :: l) :: V2) o rest q V1 i l V2 n →
  (∀ j, order_of (nodes (pool b')) j = order_of (nodes (pool b)) j) →
  level_orders b (V1 ++ (i :: l) :: V2) =
    level_orders b V1 ++ (o :: orders_at (nodes (pool b)) l) :: level_orders b V2 ∧
  level_orders b' (V1 ++ l :: V2) =
    level_orders b V1 ++ orders_at (nodes (pool b)) l :: level_orders b V2.
Proof.
  intros [_ _ _ _ _ _ _ _ Hn Ho _ _ _ _ _] Hor. split.
  - rewrite (level_orders_relevel b b), orders_at_cons by done. unfold order_of. by rewrite Hn, <- Ho.
  - rewrite (level_orders_relevel b b') by (intros; apply Hor). do 2 f_equal.
    apply orders_at_ext. intros; apply Hor.
Qed.

(** The total of a side that has lost its front order. *)
Lemma total_removed s o b' Lv' fl' rest :
  storage_inv b' Lv' fl' → (∀ x, x ∈ concat (level_orders b' Lv') → 0 < o_quantity x < 2 ^ 32) →
  side_queue s (level_orders b' Lv') = rest →
  u64 (sum_quantity (o :: rest) - o_quantity o) = sum_quantity rest.
Proof.
  intros Hst' Hq' Hqs. pose proof (total_small s b' _ _ Hst' Hq') as Hsm. rewrite Hqs in *.
  simpl. rewrite u64_small; [|unfold is_u64]; lia.
Qed.

Lemma remove_front_ok s b Lv fl o rest :
  book_inv None b Lv fl → side_queue s (level_orders b Lv) = o :: rest →
  ∃ b' Lv' i st, remove_order s (o_price o) b = Some (true, b') ∧
    book_inv st b' Lv' (i :: fl) ∧ same_frame b b' ∧
    orderMap b' = delete (o_order_id o) (orderMap b) ∧
    front_stale s (o_price o) (level_orders b' Lv') st ∧
    side_queue s (level_orders b' Lv') = rest ∧
    side_queue (opposite s) (level_orders b' Lv') = side_queue (opposite s) (level_orders b Lv).
Proof.
  intros Hb Hsq. destruct (front_level _ _ _ _ _ _ Hb Hsq) as (q & V1 & i & l & V2 & n & Hfa).
  destruct Hb as [Hst Hix Htot Hqty Hun].
  destruct (removeOrder_ok q (pool b) fl [] i l (concat (V1 ++ V2)))
    as (q' & p' & Hrm & Hpool' & Hrep' & Hfl & Hfr & Hor).
  { eapply pool_rep_perm; [|apply Hst]. by rewrite (fa_Lv _ _ _ _ _ _ _ _ _ _ _ Hfa), concat_middle. }
  { apply Hfa. }
  destruct (remove_order_run _ _ _ _ _ _ _ _ _ _ _ _ _ _ Hfa Hst Hrm)
    as (b' & Hrun & Hp' & Hsf & Hlv & Hmap & Hheap & Htot').
  subst p'. pose proof Hfa as [-> Hp _ _ _ Hlq _ _ Hn Ho Hty Hbe Hrest _ _].
  assert (storage_inv b' (V1 ++ l :: V2) (i :: fl)) as Hst'.
  { by eapply front_removed_storage. }
  destruct (front_removed_orders _ _ b' _ _ _ _ _ _ _ _ Hfa Hor) as [HL HL'].
  assert (length (level_orders b V1) = length V1) as HlenV by apply length_fmap.
  pose proof (book_priced _ _ _ Hst) as Hpr. pose proof (book_priced _ _ _ Hst') as Hpr'.
  rewrite HL in *. rewrite HL' in *. set (tl := orders_at (nodes (pool b)) l) in *.
  assert (o ∈ concat (level_orders b V1 ++ (o :: tl) :: level_orders b V2)) as Hoin.
  { rewrite concat_middle. set_solver. }
  assert (∀ x, x ∈ concat (level_orders b V1 ++ tl :: level_orders b V2) →
     x ∈ concat (level_orders b V1 ++ (o :: tl) :: level_orders b V2)) as Hsub.
  { intros x. rewrite !concat_middle, !elem_of_app, elem_of_cons. tauto. }
  assert (side_queue s (level_orders b V1 ++ tl :: level_orders b V2) = rest) as Hq'.
  { rewrite side_queue_split, Hbe, filter_all by set_solver. done. }
  assert (side_queue (opposite s) (level_orders b V1 ++ tl :: level_orders b V2) =
    side_queue (opposite s) (level_orders b V1 ++ (o :: tl) :: level_orders b V2)) as Hqo.
  { apply (side_queue_other s); set_solver. }
  exists b', (V1 ++ l :: V2), i, (stale_if s (o_price o) tl).
  rewrite HL', Hq', Hqo. split_and!; try done.
  - split; rewrite ?HL'; try done.
    + eapply (index_removed s o b b'); try done; try by rewrite HlenV.
      rewrite <- HL in Hoin. by eapply order_in_band.
    + intros s'. rewrite Htot', !Htot. case_decide as Hc; [subst s'|].
      * rewrite Hsq, Hq'. eapply (total_removed s o b'); [done| |by rewrite HL']. rewrite HL'. auto.
      * assert (s' = opposite s) as -> by (by destruct s, s'). by rewrite Hqo.
    + intros x Hx. auto.
    + intros x y Hx Hy. auto.
  - unfold front_stale. rewrite Hq'. destruct tl as [|x tl']; [right|by left].
    split; [done|]. intros p' Hp'. apply (front_best s _ _ o rest p' Hpr Hsq).
    rewrite Hsq. by right.
Qed.

(** * Reducing the front order *)

Lemma seg_links ns ns' prev l nxt :
  (∀ j n, ns !! j = Some n →
     ∃ n', ns' !! j = Some n' ∧ n_next n' = n_next n ∧ n_back n' = n_back n) →
  seg ns prev l nxt → seg ns' prev l nxt.
Proof.
  intros Hl. revert prev. induction l as [|i l IH]; intros prev; simpl; [done|].
  intros (n & Hn & Hb & Hx & Hs). destruct (Hl i n Hn) as (n' & Hn' & Hx' & Hb').
  exists n'. rewrite Hx', Hb'. auto.
Qed.

(** Overwriting the order stored in one used node, same price and id. *)
Lemma storage_set_order b b' Lv fl i n o' :
  storage_inv b Lv fl → i ∈ concat Lv → nodes (pool b) !! i = Some n →
  o_price o' = o_price (n_order n) → o_order_id o' = o_order_id (n_order n) →
  same_frame b b' → price_levels b' = price_levels b → orderMap b' = orderMap b →
  pool b' = with_nodes (<[i := set_order o' n]> (nodes (pool b))) (pool b) →
  storage_inv b' Lv fl.
Proof.
  intros Hst Hi Hn Hp Hid [Hlo Hup HPL Hdef] Hlv Hmap Hpool.
  apply lookup_lt_Some in Hn as Hil.
  assert (∀ j, order_of (nodes (pool b')) j =
               if decide (j = i) then Some o' else order_of (nodes (pool b)) j) as Hord.
  { intros j. unfold order_of. rewrite Hpool. simpl. case_decide; subst.
    - by rewrite list_lookup_insert_eq.
    - by rewrite list_lookup_insert_ne. }
  pose proof (pool_rep_NoDup _ _ _ (si_pool _ _ _ Hst)) as (_ & Hd & _)%NoDup_app.
  destruct Hst. split; rewrite ?Hlo, ?Hup, ?HPL, ?Hlv, ?Hmap; try done.
  - intros s. rewrite Hdef. apply si_defaults0.
  - rewrite Hpool. apply pool_rep_with_nodes; [done|apply length_insert|].
    intros j Hj. apply list_lookup_insert_ne. intros ->. by eapply Hd.
  - intros k q l Hq Hl. destruct (si_rep0 k q l Hq Hl). split; try done.
    eapply seg_links; [|done]. intros j m Hm. rewrite Hpool. simpl.
    destruct (decide (j = i)) as [->|Hne].
    + exists (set_order o' n). rewrite list_lookup_insert_eq by done. by simplify_eq.
    + exists m. by rewrite list_lookup_insert_ne.
  - intros k l j Hl Hj. destruct (si_order0 k l j Hl Hj) as (x & Hx & Hpx). rewrite Hord.
    case_decide; subst; [|eauto]. exists o'. split; [done|]. rewrite Hp, <- Hpx.
    unfold order_of in Hx. rewrite Hn in Hx. by simplify_eq/=.
  - intros id idx. rewrite si_map0. split; intros (j & x & Hj & Hx & <- & ->).
    + exists j. destruct (decide (j = i)) as [->|Hne].
      * exists o'. rewrite Hord, decide_True by done. unfold order_of in Hx. rewrite Hn in Hx.
        by simplify_eq/=.
      * exists x. by rewrite Hord, decide_False.
    + exists j. rewrite Hord in Hx. case_decide; subst; [|eauto 10].
      exists (n_order n). unfold order_of. rewrite Hn. by simplify_eq/=.
Qed.

(** What replacing the front order by its remainder does to the index. *)
Lemma reduced_front s b b' Lv fl L1 o tl L2 q rest :
  let o' := set_quantity (o_quantity o - q) o in
  level_orders b Lv = L1 ++ (o :: tl) :: L2 → level_orders b' Lv = L1 ++ (o' :: tl) :: L2 →
  book_inv None b Lv fl → storage_inv b' Lv fl → same_frame b b' →
  price_levels b' = price_levels b → (∀ s', heap_of s' b' = heap_of s' b) →
  (∀ s', total_of s' b' = if decide (s' = s) then u64 (total_of s b - q) else total_of s' b) →
  (∀ x, x ∈ o :: tl → o_type x = s) → side_queue s (before s L1 L2) = [] →
  side_queue s (level_orders b Lv) = o :: rest → 0 < q < o_quantity o →
  book_inv None b' Lv fl ∧
  side_queue s (level_orders b' Lv) = o' :: rest ∧
  side_queue (opposite s) (level_orders b' Lv) = side_queue (opposite s) (level_orders b Lv).
Proof.
  intros o' HL HL' [Hst Hix Htot Hqty Hun] Hst' [Hlo Hup _ Hdef] Hlv Hheap Htot' Hty Hbe Hsq Hq.
  assert (∀ x, x ∈ o' :: tl → o_type x = s) as Hty'.
  { intros x [->|Hx]%elem_of_cons; [apply (Hty o); left|apply Hty; by right]. }
  assert (side_queue s (level_orders b' Lv) = o' :: rest) as Hsq'.
  { rewrite HL in Hsq. rewrite HL'. rewrite !side_queue_split, Hbe, filter_all in * by done.
    simpl in *. by injection Hsq as ->. }
  assert (side_queue (opposite s) (level_orders b' Lv) =
          side_queue (opposite s) (level_orders b Lv)) as Hqo.
  { rewrite HL, HL'. by apply (side_queue_other s). }
  assert (∀ s', o_price <$> side_queue s' (level_orders b' Lv) =
                o_price <$> side_queue s' (level_orders b Lv)) as Hprices.
  { intros s'. destruct (decide (s' = s)) as [->|Hne]; [by rewrite Hsq, Hsq'|].
    assert (s' = opposite s) as -> by (by destruct s, s'). by rewrite Hqo. }
  assert (∀ x, x ∈ concat (level_orders b' Lv) →
    ∃ y, y ∈ concat (level_orders b Lv) ∧ o_type x = o_type y ∧ o_price x = o_price y ∧
         0 < o_quantity x <= o_quantity y) as Hsim.
  { intros x. rewrite HL, HL'. setoid_rewrite concat_middle. simpl.
    intros [->|Hx]%elem_of_cons.
    - exists o. unfold o'. simpl. split_and!; try done; [by left|lia..].
    - exists x. split; [by right|]. split_and!; try done.
      apply Hqty. rewrite HL, concat_middle. by right. }
  split; [|done]. split; try done.
  - split; intros.
    + rewrite Hheap. apply Hix.
    + rewrite Hheap. apply Hix.
    + rewrite Hheap, Hprices, Hdef. apply Hix.
    + setoid_rewrite Hheap. rewrite Hlo. apply (ii_flag _ _ _ Hix). by rewrite <- Hlv.
    + done.
  - intros s'. rewrite Htot', !Htot. case_decide as Hc; [subst s'|].
    + rewrite Hsq, Hsq'.
      assert (0 <= sum_quantity (o :: rest) < 2 ^ 64) as Hs by (rewrite <- Hsq; by eapply total_small).
      assert (0 <= sum_quantity (o' :: rest) < 2 ^ 64) as Hs'.
      { rewrite <- Hsq'. eapply total_small; [done|]. intros x Hx.
        destruct (Hsim x Hx) as (y & Hy & _ & _ & ?). specialize (Hqty y Hy). lia. }
      simpl in *. rewrite u64_small; [|unfold is_u64]; lia.
    + assert (s' = opposite s) as -> by (by destruct s, s'). by rewrite Hqo.
  - intros x Hx. destruct (Hsim x Hx) as (y & Hy & _ & _ & ?). specialize (Hqty y Hy). lia.
  - intros x y Hx Hy Hbx Hsy. destruct (Hsim x Hx) as (x0 & Hx0 & Ht & -> & _).
    destruct (Hsim y Hy) as (y0 & Hy0 & Ht' & -> & _). apply Hun; congruence.
Qed.

Lemma reduce_front_ok s b Lv fl o rest q :
  book_inv None b Lv fl → side_queue s (level_orders b Lv) = o :: rest →
  0 < q < o_quantity o →
  ∃ b1, modifyQuantity (o_price o) (o_quantity o - q) b = Some (true, b1) ∧
    let b' := decrease_total s q b1 in
    book_inv None b' Lv fl ∧ same_frame b b' ∧ orderMap b' = orderMap b ∧
    side_queue s (level_orders b' Lv) = set_quantity (o_quantity o - q) o :: rest ∧
    side_queue (opposite s) (level_orders b' Lv) = side_queue (opposite s) (level_orders b Lv).
Proof.
  intros Hb Hsq Hq. destruct (front_level _ _ _ _ _ _ Hb Hsq) as (lq & V1 & i & l & V2 & n & Hfa).
  pose proof (bi_storage _ _ _ _ Hb) as Hst.
  pose proof Hfa as [HLv Hp Hidx Hr Hg Hlq Hrep Hi Hn Ho Hty Hbe Hrest Hhd Hne].
  set (o' := set_quantity (o_quantity o - q) o).
  eexists. split.
  { unfold modifyQuantity. rewrite Hidx. cbn zeta. rewrite Hr, Hg. cbn [mbind option_bind].
    rewrite Hne, (lr_head _ _ _ Hrep). cbn [link_or].
    rewrite (updNode_nat _ _ _ n Hi Hn), Ho. cbn [mbind option_bind]. reflexivity. }
  intros b'. fold o' in b'.
  assert (same_frame b b') as Hsf by (split; intros; unfold b', decrease_total; by destruct s).
  assert (pool b' = with_nodes (<[i := set_order o' n]> (nodes (pool b))) (pool b)) as Hpool.
  { unfold b', decrease_total. by destruct s. }
  assert (orderMap b' = orderMap b ∧ price_levels b' = price_levels b) as [Hmap Hlv].
  { unfold b', decrease_total. by destruct s. }
  assert (∀ s', heap_of s' b' = heap_of s' b) as Hheap.
  { intros s'. unfold b', decrease_total. by destruct s, s'. }
  assert (∀ s', total_of s' b' = if decide (s' = s) then u64 (total_of s b - q) else total_of s' b) as Htot'.
  { intros s'. unfold b', decrease_total. by destruct s, s'. }
  clearbody b'.
  assert (storage_inv b' Lv fl) as Hst'.
  { eapply (storage_set_order b b' Lv fl i n o'); try done.
    - rewrite HLv, concat_middle. set_solver.
    - by rewrite Ho.
    - by rewrite Ho. }
  assert (∀ j, j ≠ i → order_of (nodes (pool b')) j = order_of (nodes (pool b)) j) as Hord.
  { intros j Hj. unfold order_of. rewrite Hpool. simpl. by rewrite list_lookup_insert_ne. }
  pose proof (pool_rep_NoDup _ _ _ (si_pool _ _ _ Hst)) as (_ & _ & Hnd)%NoDup_app.
  rewrite HLv, concat_middle in Hnd. simpl in Hnd. apply NoDup_cons in Hnd as [Hnin _].
  assert (level_orders b Lv =
    level_orders b V1 ++ (o :: orders_at (nodes (pool b)) l) :: level_orders b V2) as HL.
  { rewrite HLv, (level_orders_relevel b b), orders_at_cons by done. unfold order_of.
    by rewrite Hn, <- Ho. }
  assert (level_orders b' Lv =
    level_orders b V1 ++ (o' :: orders_at (nodes (pool b)) l) :: level_orders b V2) as HL'.
  { rewrite HLv, (level_orders_relevel b b') by (intros j Hj; apply Hord; set_solver).
    rewrite orders_at_cons. unfold order_of at 1. rewrite Hpool. simpl.
    rewrite list_lookup_insert_eq by by eapply lookup_lt_Some. simpl. do 3 f_equal.
    apply orders_at_ext. intros j Hj. rewrite <- Hord by set_solver. by rewrite Hpool. }
  destruct (reduced_front s b b' Lv fl _ o _ _ q rest HL HL') as (? & ? & ?); done.
Qed.

(** * A fresh book *)

Lemma concat_replicate_nil {A} n : concat (replicate n (@nil A)) = [].
Proof. by induction n. Qed.

Lemma OrderBook_new_ok mem lower upper :
  1 <= lower <= upper → upper < UINT64_MAX → upper - lower < 2 ^ 31 →
  (0 < length mem)%nat → Z.of_nat (length mem) <= 2 ^ 31 →
  ∃ b Lv, OrderBook_new (Some mem) 0 0 lower upper = Some b ∧
    book_inv None b Lv (seq 0 (length mem)) ∧
    lower_limit b = lower ∧ upper_limit b = upper ∧ concat (level_orders b Lv) = [].
Proof.
  intros Hlo Hup Hw H0 Hm. destruct (MemPool_new_ok mem H0 Hm) as (p & Hp & Hpool & Hlen).
  unfold OrderBook_new. rewrite Hp. cbn [mbind option_bind].
  destruct (Z.gtb_spec lower 0); [|lia]. destruct (Z.eqb_spec upper UINT64_MAX) as [|_]; [lia|].
  rewrite u64_small by mach.
  set (n := Z.to_nat (upper - lower + 1)). eexists _, (replicate n []).
  split; [reflexivity|]. set (b := mkBook _ _ _ _ _ _ _ _ _ _ _ _).
  assert (concat (level_orders b (replicate n [])) = []) as HL.
  { unfold level_orders. rewrite fmap_replicate. apply concat_replicate_nil. }
  assert (∀ s, side_queue s (level_orders b (replicate n [])) = []) as Hq.
  { intros s. destruct (side_queue s _) as [|o l] eqn:E; [done|].
    assert (o ∈ side_queue s (level_orders b (replicate n []))) as Ho by (rewrite E; left).
    apply elem_of_side_queue in Ho as [Ho _]. rewrite HL in Ho. set_solver. }
  split_and!; try done. split; rewrite ?HL; try (intros; set_solver).
  - split; simpl; try done.
    + by rewrite length_replicate.
    + by rewrite !length_replicate.
    + by rewrite concat_replicate_nil.
    + intros k q l [-> _]%lookup_replicate [-> _]%lookup_replicate. done.
    + intros k l i [-> _]%lookup_replicate. set_solver.
    + intros id idx. rewrite lookup_empty, concat_replicate_nil. set_solver.
  - split.
    + intros []; apply is_heap_singleton.
    + intros []; apply NoDup_singleton.
    + intros s p'. rewrite Hq. destruct s; simpl; set_solver.
    + intros k q Hk. simpl in Hk. apply lookup_replicate in Hk as [-> Hk]. simpl.
      split; [done|]. intros ([] & Hin); simpl in Hin; set_solver by lia.
    + done.
  - intros s. rewrite Hq. by destruct s.
Qed.
