(* ===== verification/Cancel.v ===== *)
(** Cancellation ([OrderBook::cancelOrder]) and order lookup: what they do on a
    well-formed book, and what the flag [heap_entry], which the two sides of
    the book share, makes of an order added after a cancellation. *)

From S2P Require Import Prelude Types Heap MemPool PriceTime OrderBook BookInv.

(** A found order is the order of a live node of one level. *)
Lemma findOrder_live b Lv fl id o :
  storage_inv b Lv fl → findOrder id b = Some (Some o) →
  ∃ i, i ∈ concat Lv ∧ order_of (nodes (pool b)) i = Some o ∧ o_order_id o = id ∧
       orderMap b !! id = Some (Z.of_nat i).
Proof.
  intros Hst Hf. unfold findOrder in Hf. destruct (orderMap b !! id) as [idx|] eqn:Hm; [|done].
  destruct (proj1 (si_map _ _ _ Hst id idx) Hm) as (i & x & Hi & Hx & Hid & ->).
  rewrite getNode_nat in Hf by (eapply (pool_rep_lt _ fl); [apply Hst|set_solver]).
  exists i. unfold order_of in *. destruct (nodes (pool b) !! i) as [n|]; simplify_eq/=. done.
Qed.

Lemma findOrder_at b Lv fl id i o :
  storage_inv b Lv fl → i ∈ concat Lv → orderMap b !! id = Some (Z.of_nat i) →
  order_of (nodes (pool b)) i = Some o → findOrder id b = Some (Some o).
Proof.
  intros Hst Hi Hm Ho. unfold findOrder. rewrite Hm.
  rewrite getNode_nat by (eapply (pool_rep_lt _ fl); [apply Hst|set_solver]).
  unfold order_of in Ho. destruct (nodes (pool b) !! i) as [n|]; by simplify_eq/=.
Qed.

(** Looking up an order other than the one that was taken out. *)
Lemma findOrder_other b b' Lv Lv' fl fl' id id' :
  storage_inv b Lv fl → storage_inv b' Lv' fl' → id' ≠ id →
  orderMap b' = delete id (orderMap b) →
  (∀ j, order_of (nodes (pool b')) j = order_of (nodes (pool b)) j) →
  findOrder id' b' = findOrder id' b.
Proof.
  intros Hst Hst' Hne Hmap Hor.
  destruct (orderMap b !! id') as [idx|] eqn:Hm.
  - assert (orderMap b' !! id' = Some idx) as Hm' by (by rewrite Hmap, lookup_delete_ne).
    destruct (proj1 (si_map _ _ _ Hst _ _) Hm) as (i & x & Hi & Hx & _ & ->).
    destruct (proj1 (si_map _ _ _ Hst' _ _) Hm') as (i' & x' & Hi' & Hx' & _ & ->%Nat2Z.inj).
    rewrite (findOrder_at b Lv fl id' i' x), (findOrder_at b' Lv' fl' id' i' x); try done.
    by rewrite Hor.
  - unfold findOrder. by rewrite Hm, Hmap, lookup_delete_ne, Hm.
Qed.

(** The level an order lives in, and its place there. *)
Lemma live_split b Lv fl i o :
  storage_inv b Lv fl → i ∈ concat Lv → order_of (nodes (pool b)) i = Some o →
  ∃ q V1 l1 l2 V2, Lv = V1 ++ (l1 ++ i :: l2) :: V2 ∧ Z.of_nat i < 2 ^ 31 ∧
    priceToIndex b (o_price o) = Z.of_nat (length V1) ∧
    getpricelevels b (Z.of_nat (length V1)) = Some q ∧
    level_rep (nodes (pool b)) q (l1 ++ i :: l2).
Proof.
  intros Hst Hi Ho.
  assert (Z.of_nat i < 2 ^ 31) as Hlt by (eapply (pool_rep_lt _ fl); [apply Hst|set_solver]).
  assert (o ∈ concat (level_orders b Lv)) as Hin by (apply elem_level_orders; eauto).
  destruct (level_split b Lv fl (o_price o) Hst (order_in_band _ _ _ Hst _ Hin))
    as (q & V1 & l & V2 & HLv & Hp & Hidx & _ & Hg & _ & Hrep).
  apply elem_of_concat in Hi as (l' & [k Hk]%list_elem_of_lookup & Hi).
  destruct (si_order _ _ _ Hst k l' i Hk Hi) as (x & Hx & Hxp).
  assert (k = length V1) as -> by (rewrite Ho in Hx; simplify_eq; lia).
  rewrite HLv, list_lookup_middle in Hk by done. simplify_eq.
  apply list_elem_of_split in Hi as (l1 & l2 & ->). eauto 10.
Qed.

(** The book after the cancellation of the order of node [i]: its level keeps
    the flag [heap_entry], the heaps keep the price. *)
Record cancelled (b b' : OrderBook) (V1 : list (list nat)) (l1 : list nat) (i : nat) (l2 : list nat)
  (V2 : list (list nat)) (o : Order) (fl : list nat) (q' : PriceQueues) : Prop := {
  ca_run : cancelOrder (o_order_id o) b = Some (true, b');
  ca_storage : storage_inv b' (V1 ++ (l1 ++ l2) :: V2) (i :: fl);
  ca_levels : price_levels b' = <[length V1 := q']> (price_levels b);
  ca_flag q : getpricelevels b (Z.of_nat (length V1)) = Some q → q_heap_entry q' = q_heap_entry q;
  ca_map : orderMap b' = delete (o_order_id o) (orderMap b);
  ca_orders j : order_of (nodes (pool b')) j = order_of (nodes (pool b)) j;
  ca_frame : same_frame b b';
  ca_totals s : total_of s b' = total_of s b;
  ca_heaps s : heap_of s b' = heap_of s b
}.

Lemma cancelOrder_run b Lv fl id o :
  storage_inv b Lv fl → findOrder id b = Some (Some o) →
  ∃ b' V1 l1 i l2 V2 q', Lv = V1 ++ (l1 ++ i :: l2) :: V2 ∧ o_order_id o = id ∧
    order_of (nodes (pool b)) i = Some o ∧ priceToIndex b (o_price o) = Z.of_nat (length V1) ∧
    cancelled b b' V1 l1 i l2 V2 o fl q'.
Proof.
  intros Hst Hf. destruct (findOrder_live _ _ _ _ _ Hst Hf) as (i & Hi & Ho & <- & Hm).
  destruct (live_split _ _ _ _ _ Hst Hi Ho) as (q & V1 & l1 & l2 & V2 & -> & Hlt & Hidx & Hg & Hrep).
  destruct (removeOrder_ok q (pool b) fl l1 i l2 (concat (V1 ++ V2)))
    as (q' & p' & Hrm & Hpool & Hrep' & Hfl & Hfr & Hor); [|done|].
  { eapply pool_rep_perm; [by rewrite <- concat_middle|apply Hst]. }
  set (b' := put_level (Z.of_nat (length V1)) q' p' (set_orderMap (delete (o_order_id o) (orderMap b)) b)).
  assert (price_levels b' = <[length V1 := q']> (price_levels b)) as Hlv.
  { unfold b', put_level. cbn [price_levels set_levels_pool set_orderMap]. by rewrite Nat2Z.id. }
  exists b', V1, l1, i, l2, V2, q'. split_and!; try done. split; try done.
  - unfold cancelOrder. rewrite Hm, s32_nat by done. cbn [pool set_orderMap].
    rewrite getNode_nat by done. unfold order_of in Ho.
    destruct (nodes (pool b) !! i) as [n|]; simplify_eq/=. change (priceToIndex _ (o_price (n_order n)))
      with (priceToIndex b (o_price (n_order n))). rewrite Hidx.
    change (getpricelevels _ _) with (getpricelevels b (Z.of_nat (length V1))). rewrite Hg. cbn [mbind option_bind].
    by rewrite Hrm.
  - by apply (removed_storage b b' V1 l1 i l2 V2 o q' fl).
  - intros q0 Hq0. by simplify_eq.
Qed.

(** * The theorems *)

(** C21: [cancelOrder] takes exactly the named order out of the book.  For an
    unknown id it answers [false] and changes nothing.  For a resting order it
    answers [true]; the other orders keep their levels and their places in
    the queues, the node goes back to the pool, the order can no longer be
    found and every other order still can.  The totals and the heaps are left
    as they were: the cancelled quantity stays in the side's total. *)
Theorem cancelOrder_removes b Lv fl id :
  storage_inv b Lv fl →
  (orderMap b !! id = None → cancelOrder id b = Some (false, b)) ∧
  ∀ o, findOrder id b = Some (Some o) →
  ∃ b' Lv' i L1 l1 l2 L2, cancelOrder id b = Some (true, b') ∧ storage_inv b' Lv' (i :: fl) ∧
    level_orders b Lv = L1 ++ (l1 ++ o :: l2) :: L2 ∧
    level_orders b' Lv' = L1 ++ (l1 ++ l2) :: L2 ∧
    findOrder id b' = Some None ∧ (∀ id', id' ≠ id → findOrder id' b' = findOrder id' b) ∧
    (∀ s, total_of s b' = total_of s b) ∧ (∀ s, heap_of s b' = heap_of s b).
Proof.
  intros Hst. split; [intros Hm; unfold cancelOrder; by rewrite Hm|]. intros o Hf.
  destruct (cancelOrder_run b Lv fl id o Hst Hf) as (b' & V1 & l1 & i & l2 & V2 & q' & -> & <- & Ho & _ & [Hrun Hst' _ _ Hmap Hor _ Htot Hheap]).
  eexists b', _, i, (level_orders b V1), (orders_at (nodes (pool b)) l1),
    (orders_at (nodes (pool b)) l2), (level_orders b V2). split_and!; [done|exact Hst'|..]; try done.
  - rewrite (level_orders_relevel b b) by done. by rewrite orders_at_app, orders_at_cons, Ho.
  - rewrite (level_orders_relevel b b') by (intros; apply Hor). f_equal. f_equal.
    rewrite <- orders_at_app. apply orders_at_ext. intros; apply Hor.
  - unfold findOrder. by rewrite Hmap, lookup_delete_eq.
  - intros id' Hne. by eapply findOrder_other.
Qed.

(** ** The flag shared by the two sides *)

(** [bestprice] sees of a book only the heap of its side, the sentinel and
    which levels are empty. *)
Lemma bestprice_agrees s b b' p fuel :
  heap_of s b' = heap_of s b → same_frame b b' →
  (∀ k q, getpricelevels b k = Some q → ∃ q', getpricelevels b' k = Some q' ∧ isEmpty q' = isEmpty q) →
  bestprice_loop s 0 b = Some (p, b) → bestprice_loop s fuel b' = Some (p, b').
Proof.
  intros Hheap Hsf Hlev. rewrite !bestprice_loop_eq, Hheap, (sf_default _ _ Hsf).
  destruct (heap_top (heap_of s b)) as [top|]; cbn [mbind option_bind]; [|done].
  destruct (top =? default_of s b); [by intros [= ->]|].
  assert (priceToIndex b' top = priceToIndex b top) as -> by (unfold priceToIndex; by rewrite (sf_lower _ _ Hsf)).
  cbn zeta. destruct (getpricelevels b (priceToIndex b top)) as [q|] eqn:E; cbn [mbind option_bind]; [|done].
  destruct (Hlev _ _ E) as (q' & -> & Hemp). cbn [mbind option_bind]. rewrite Hemp. destruct (isEmpty q); [done|]. by intros [= ->].
Qed.

(** Every sell price is above every buy price, the sentinels included. *)
Lemma front_worse s b Lv fl o :
  book_inv None b Lv fl → o ∈ concat (level_orders b Lv) → o_type o = s →
  cmp_of (opposite s) (front_price (opposite s) b (level_orders b Lv)) (o_price o) = true.
Proof.
  intros [Hst _ _ _ Hun] Ho <-. unfold front_price. pose proof (order_in_band _ _ _ Hst _ Ho) as Hband.
  destruct (side_queue (opposite (o_type o)) (level_orders b Lv)) as [|x rest] eqn:E.
  { by apply (default_worst b Lv fl). }
  assert (x ∈ side_queue (opposite (o_type o)) (level_orders b Lv)) as [Hx Hs]%elem_of_side_queue by (rewrite E; left).
  destruct (o_type o) eqn:Et; cbn in *; unfold less, greater; apply Z.ltb_lt; auto.
Qed.

(** An order added to an empty level that still has its flag gets no heap entry. *)
Lemma add_flagged s o b V1 V2 i fl q :
  storage_inv b (V1 ++ [] :: V2) (i :: fl) → o_price o = lower_limit b + Z.of_nat (length V1) →
  price_levels b !! length V1 = Some q → q_heap_entry q = true → orderMap b !! o_order_id o = None →
  ∃ b' q', add_order s o b = Some (true, b') ∧ storage_inv b' (V1 ++ [i] :: V2) fl ∧
    findOrder (o_order_id o) b' = Some (Some o) ∧ same_frame b b' ∧ (∀ s', heap_of s' b' = heap_of s' b) ∧
    price_levels b' = <[length V1 := q']> (price_levels b) ∧ isEmpty q' = false.
Proof.
  intros Hst Hp Hq Hflag Hfresh.
  assert (length V1 < Z.to_nat (PRICE_LEVELS b))%nat as Hlen by (rewrite <- (si_len _ _ _ Hst); by eapply lookup_lt_Some).
  pose proof (si_PL _ _ _ Hst) as HPL.
  destruct (level_split b _ _ (o_price o) Hst ltac:(lia)) as (q0 & W1 & l & W2 & HL & Hp' & Hidx & Hr & Hg & Hq0 & Hrep).
  assert (length W1 = length V1) as Hlw by lia. rewrite Hlw in *. rewrite Hq in Hq0. injection Hq0 as <-.
  assert (l = []) as ->.
  { assert ((V1 ++ [] :: V2) !! length V1 = Some l) as H by (rewrite HL, <- Hlw; by apply list_lookup_middle).
    rewrite list_lookup_middle in H by done. by injection H. }
  assert (pool_rep (pool b) (i :: fl) ([] ++ concat (V1 ++ V2))) as Hpool.
  { eapply pool_rep_perm; [|apply Hst]. by rewrite concat_middle. }
  assert (Z.of_nat i < 2 ^ 31) as Hi by (eapply pool_rep_lt; [done|set_solver]).
  destruct (insertOrder_ok o q (pool b) i fl [] _ Hpool Hrep) as (q' & p' & Hins & Hpool' & Hrep' & _ & Hoi & Hfr & Hor).
  pose proof (pool_rep_NoDup _ _ _ Hpool) as [Hnin _]%NoDup_cons.
  destruct (add_order_run s o b _ q i q' p' Hidx Hr Hg Hi Hins) as (b' & Hrun & Hpl & Hsf & Hlv & Hmap & Hheap & _).
  subst p'. assert (storage_inv b' (V1 ++ [i] :: V2) fl) as Hst'.
  { eapply (node_added_storage b b' V1 [] V2 i (i :: fl) fl o); try done; [|by destruct Hrep'].
    split; try done; [|by intros j ?%elem_of_nil].
    intros j Hj. apply Hfr; [apply not_elem_of_nil|]. intros ->. set_solver. }
  exists b', (set_heap_entry true q'). split_and!; try done.
  - apply (findOrder_at b' (V1 ++ [i] :: V2) fl _ i); [done|rewrite concat_middle; set_solver|by rewrite Hmap, lookup_insert_eq|done].
  - intros s'. rewrite Hheap, Hflag, andb_false_r. by case_decide; subst.
  - unfold isEmpty. cbn [q_count set_heap_entry]. by rewrite (lr_count _ _ _ Hrep').
Qed.

(** The only order of a level is its only node. *)
Lemma only_node b V1 l1 i l2 V2 fl L1 o L2 :
  storage_inv b (V1 ++ (l1 ++ i :: l2) :: V2) fl → order_of (nodes (pool b)) i = Some o →
  level_orders b (V1 ++ (l1 ++ i :: l2) :: V2) = L1 ++ [o] :: L2 →
  l1 = [] ∧ l2 = [] ∧ o_price o = lower_limit b + Z.of_nat (length V1).
Proof.
  intros Hst Ho HL. set (Lv := V1 ++ (l1 ++ i :: l2) :: V2) in *.
  assert (Lv !! length V1 = Some (l1 ++ i :: l2)) as Hk by (by apply list_lookup_middle).
  destruct (si_order _ _ _ Hst _ _ i Hk) as (x & Hx & Hp); [set_solver|]. rewrite Ho in Hx. injection Hx as <-.
  pose proof (book_priced _ _ _ Hst (length L1) [o] o) as Hpr. rewrite HL, list_lookup_middle in Hpr by done.
  specialize (Hpr eq_refl ltac:(left)). assert (length L1 = length V1) as Hlen by lia.
  assert (level_orders b Lv !! length V1 = Some (orders_at (nodes (pool b)) (l1 ++ i :: l2))) as Hlo
    by (unfold level_orders; by rewrite list_lookup_fmap, Hk).
  rewrite HL, <- Hlen, list_lookup_middle in Hlo by done. injection Hlo as Hlo.
  pose proof (orders_at_length b Lv fl Hst (l1 ++ i :: l2)) as Hl. rewrite <- Hlo, length_app in Hl.
  specialize (Hl (ex_intro _ _ Hk)). cbn [length] in Hl.
  split; [destruct l1; [done|simpl in Hl; lia]|]. split; [destruct l2; [done|simpl in Hl; lia]|done].
Qed.

Lemma same_frame_trans b1 b2 b3 : same_frame b1 b2 → same_frame b2 b3 → same_frame b1 b3.
Proof. intros [? ? ? H1] [? ? ? H2]. split; [congruence..|]. intros s. by rewrite H2. Qed.

(** The book after both operations, as far as the best prices go. *)
Lemma hidden_order s b V1 i V2 fl o new b1 q1 :
  book_inv None b (V1 ++ [i] :: V2) fl → order_of (nodes (pool b)) i = Some o →
  o_price new = lower_limit b + Z.of_nat (length V1) → orderMap b !! o_order_id new = None →
  cancelled b b1 V1 [] i [] V2 o fl q1 →
  ∃ b2, add_order s new b1 = Some (true, b2) ∧ findOrder (o_order_id new) b2 = Some (Some new) ∧
    ∀ s', bestprice s' b2 = Some (front_price s' b (level_orders b (V1 ++ [i] :: V2)), b2).
Proof.
  intros Hbk Ho Hp Hfresh [_ Hst1 Hlv1 Hflag Hmap _ Hsf1 _ Hheap1]. pose proof (bi_storage _ _ _ _ Hbk) as Hst.
  assert ((V1 ++ [i] :: V2) !! length V1 = Some [i]) as Hk by (by apply list_lookup_middle).
  assert (length V1 < length (price_levels b))%nat as Hlt
    by (rewrite <- (si_len_Lv _ _ _ Hst); by eapply lookup_lt_Some).
  destruct (lookup_lt_is_Some_2 _ _ Hlt) as [q Hq]. pose proof (si_rep _ _ _ Hst _ _ _ Hq Hk) as Hrep.
  assert (isEmpty q = false) as Hne by (unfold isEmpty; by rewrite (lr_count _ _ _ Hrep)).
  pose proof (flag_nonempty b _ fl _ q [i] Hst (bi_index _ _ _ _ Hbk) Hq Hk) as Hfl. rewrite Hne in Hfl.
  assert (getpricelevels b (Z.of_nat (length V1)) = Some q) as Hg.
  { unfold getpricelevels. rewrite (proj2 (Z.ltb_ge _ _)) by lia. by rewrite Nat2Z.id. }
  destruct (add_flagged s new b1 V1 V2 i fl q1) as (b2 & q2 & Hadd & _ & Hfind & Hsf2 & Hheap2 & Hlv2 & Hne2).
  - exact Hst1.
  - by rewrite (sf_lower _ _ Hsf1).
  - rewrite Hlv1. by apply list_lookup_insert_eq.
  - by rewrite (Hflag q Hg).
  - rewrite Hmap. apply lookup_delete_None. by right.
  - exists b2. split; [done|]. split; [done|]. intros s'.
    assert (bestprice s' b2 = bestprice_loop s' (length (heap_of s' b2)) b2) as -> by (by destruct s').
    apply (bestprice_agrees s' b b2); [by rewrite Hheap2|by eapply same_frame_trans| |by apply bestprice_clean with fl].
    intros k q0. unfold getpricelevels. destruct (k <? 0); [done|]. intros Hq0. rewrite Hlv2, Hlv1, list_insert_insert_eq.
    destruct (decide (Z.to_nat k = length V1)) as [E|Hk'].
    + exists q2. rewrite E, Hq in Hq0. rewrite E. injection Hq0 as <-. rewrite list_lookup_insert_eq by done. by rewrite Hne, Hne2.
    + exists q0. by rewrite list_lookup_insert_ne.
Qed.

(** C39: A cancellation can hide the next order at its price.  The flag
    [heap_entry] says that a price is in a heap, not in which one.  So, on any
    well-formed book: when the only order at a price is cancelled and then an
    order of the other side with a new id is added at that price, the new
    order rests in the book and is found by its id, but the best price of its
    side is answered as if it were not there, a price worse than its own,
    while the best price of the cancelled order's side is answered as if that
    order were still there; if it was the best one, the new order's price is
    offered on the wrong side. *)
Theorem cancelled_price_hides_order s b Lv fl L1 o L2 new :
  book_inv None b Lv fl → findOrder (o_order_id o) b = Some (Some o) → o_type o = s →
  level_orders b Lv = L1 ++ [o] :: L2 →
  o_price new = o_price o → orderMap b !! o_order_id new = None →
  ∃ b1 b2, cancelOrder (o_order_id o) b = Some (true, b1) ∧ add_order (opposite s) new b1 = Some (true, b2) ∧
    findOrder (o_order_id new) b2 = Some (Some new) ∧
    bestprice (opposite s) b2 = Some (front_price (opposite s) b (level_orders b Lv), b2) ∧
    cmp_of (opposite s) (front_price (opposite s) b (level_orders b Lv)) (o_price new) = true ∧
    bestprice s b2 = Some (front_price s b (level_orders b Lv), b2) ∧
    (head (side_queue s (level_orders b Lv)) = Some o → bestprice s b2 = Some (o_price new, b2)).
Proof.
  intros Hbk Hf Hs HL Hp Hfresh. pose proof (bi_storage _ _ _ _ Hbk) as Hst.
  assert (o ∈ concat (level_orders b Lv)) as Hin by (rewrite HL, concat_middle; set_solver).
  pose proof (front_worse s b Lv fl o Hbk Hin Hs) as Hworse. rewrite <- Hp in Hworse.
  destruct (cancelOrder_run b Lv fl _ o Hst Hf) as (b1 & V1 & l1 & i & l2 & V2 & q1 & -> & _ & Ho & _ & Hca).
  destruct (only_node b V1 l1 i l2 V2 fl L1 o L2 Hst Ho HL) as (-> & -> & Hpo). cbn [app] in *.
  destruct (hidden_order (opposite s) b V1 i V2 fl o new b1 q1 Hbk Ho ltac:(congruence) Hfresh Hca) as (b2 & Hadd & Hfind & Hbest).
  exists b1, b2. split_and!; try done; [apply Hca|apply Hbest..|].
  intros Hh. rewrite Hbest. unfold front_price. destruct (side_queue s _); [done|]. injection Hh as ->. by rewrite Hp.
Qed.

(** * A book with one resting order *)

(** The one order of a book has a level to itself. *)
Lemma only_order_level b Lv fl o :
  book_inv None b Lv fl → side_queue (o_type o) (level_orders b Lv) = [o] →
  side_queue (opposite (o_type o)) (level_orders b Lv) = [] → ∃ L1 L2, level_orders b Lv = L1 ++ [o] :: L2.
Proof.
  intros Hb Hq Hqo. set (L := level_orders b Lv) in *.
  assert (o ∈ side_queue (o_type o) L) as [Ho _]%elem_of_side_queue by (rewrite Hq; left).
  apply elem_of_concat in Ho as (l & Hl & Hin). apply list_elem_of_split in Hl as (L1 & L2 & HL).
  exists L1, L2. rewrite HL. do 2 f_equal.
  assert (∀ x, x ∈ l → o_type x = o_type o) as Hty.
  { intros x Hx. destruct (decide (o_type x = o_type o)) as [|Hne]; [done|].
    assert (x ∈ side_queue (opposite (o_type o)) L) as H; [|rewrite Hqo in H; by apply elem_of_nil in H].
    apply elem_of_side_queue. split; [rewrite HL, concat_middle; set_solver|]. by destruct (o_type x), (o_type o). }
  rewrite HL, side_queue_split in Hq. rewrite (filter_all _ l) in Hq by done.
  destruct l as [|x l]; [by apply elem_of_nil in Hin|]. apply app_singleton in Hq as [[_ Hq]|[_ Hq]]; [|done].
  cbn [app] in Hq. injection Hq as -> Hq. by apply app_nil in Hq as [-> _].
Qed.


Definition demo_node : OrderNode := mkNode (mkOrder 0 LIMIT 0 0 0 BUY 0 0 0) 0 0.
Definition demo_bid : Order := mkOrder 7 LIMIT 105 1000 1 BUY 0 5 70.
Definition demo_ask : Order := mkOrder 8 LIMIT 105 1001 2 SELL 0 9 80.

Definition run_on {A} (r : option (A * OrderBook)) (b : OrderBook) : OrderBook :=
  from_option snd b r.
Definition demo_fresh : OrderBook :=
  default (mkBook 0 0 0 [] [] [] (mkPool [] 0 0 0) ∅ 0 0 0 0)
    (OrderBook_new (Some [demo_node; demo_node]) 0 0 100 110).
Definition demo_one : OrderBook := run_on (addBuyOrder demo_bid demo_fresh) demo_fresh.

Lemma demo_one_inv : ∃ Lv L1 L2, book_inv None demo_one Lv [1%nat] ∧ level_orders demo_one Lv = L1 ++ [demo_bid] :: L2 ∧
  head (side_queue BUY (level_orders demo_one Lv)) = Some demo_bid ∧
  front_price SELL demo_one (level_orders demo_one Lv) = 111.
Proof.
  destruct (OrderBook_new_ok [demo_node; demo_node] 100 110) as (b & Lv & Hb & Hi & Hlo & Hhi & Hnil);
    try (simpl; mach).
  assert (demo_fresh = b) as Hfresh by (unfold demo_fresh; by rewrite Hb).
  assert (∀ s, side_queue s (level_orders b Lv) = []) as Hempty
    by (intros s; apply elem_of_nil_inv; intros x [Hx _]%elem_of_side_queue; rewrite Hnil in Hx; by apply elem_of_nil in Hx).
  destruct (add_order_ok BUY demo_bid b Lv 0%nat [1%nat]) as (b' & Lv' & Hadd & Hi' & Hsf & _ & Hq & Hqo).
  - exact Hi.
  - done.
  - rewrite Hlo, Hhi. simpl. lia.
  - simpl. lia.
  - by rewrite <- Hfresh.
  - intros x Hx. rewrite Hempty in Hx. by apply elem_of_nil in Hx.
  - assert (demo_one = b') as ->.
    { change (add_order BUY demo_bid b) with (addBuyOrder demo_bid b) in Hadd. unfold demo_one. by rewrite Hfresh, Hadd. }
    rewrite Hempty in Hq, Hqo. exists Lv'.
    assert (∃ L1 L2, level_orders b' Lv' = L1 ++ [demo_bid] :: L2) as (L1 & L2 & HL) by (by eapply only_order_level).
    exists L1, L2. split; [exact Hi'|]. split; [exact HL|]. split; [by rewrite Hq|].
    unfold front_price. change SELL with (opposite BUY). rewrite Hqo. rewrite (sf_default _ _ Hsf), <- Hfresh. reflexivity.
Qed.

Lemma demo_one_storage : ∃ Lv, storage_inv demo_one Lv [1%nat].
Proof. destruct demo_one_inv as (Lv & _ & _ & Hb & _). exists Lv. apply Hb. Qed.

Lemma cancelOrder_removes_witness :
  ∃ b', cancelOrder 7 demo_one = Some (true, b') ∧ findOrder 7 b' = Some None ∧
        total_of BUY b' = 5.
Proof.
  destruct demo_one_storage as [Lv Hst].
  destruct (proj2 (cancelOrder_removes demo_one Lv [1%nat] 7 Hst) demo_bid eq_refl)
    as (b' & Lv' & i & L1 & l1 & l2 & L2 & H1 & _ & _ & _ & H2 & _ & H3 & _).
  exists b'. split_and!; [exact H1|exact H2|]. rewrite H3. reflexivity.
Defined.

(** The bid at 105 is cancelled and an ask at 105 added: there seems to be
    nothing to sell, and 105 is bid. *)
Lemma cancelled_price_hides_order_witness :
  ∃ b1 b2, cancelOrder 7 demo_one = Some (true, b1) ∧ addSellOrder demo_ask b1 = Some (true, b2) ∧
    findOrder 8 b2 = Some (Some demo_ask) ∧ bestsellprice b2 = Some (111, b2) ∧ bestbuyprice b2 = Some (105, b2).
Proof.
  destruct demo_one_inv as (Lv & L1 & L2 & Hb & HL & Hq & Hfront).
  destruct (cancelled_price_hides_order BUY demo_one Lv [1%nat] L1 demo_bid L2 demo_ask Hb)
    as (b1 & b2 & H1 & H2 & H3 & H4 & _ & _ & H5).
  - reflexivity.
  - reflexivity.
  - exact HL.
  - reflexivity.
  - reflexivity.
  - exists b1, b2. split; [exact H1|]. split; [exact H2|]. split; [exact H3|]. split.
    + change (opposite BUY) with SELL in H4. rewrite Hfront in H4. exact H4.
    + apply H5. exact Hq.
Defined.
