(* ===== verification/TradeRing.v ===== *)
(** The shared-memory trade ring of include/trade_ring_buffer.h and
    src/trade_ring_buffer.cpp: one producer per engine group, any number of
    independent consumers, a sequence number per slot.

    The mapped memory is [ring_mem]; a slot that was never written reads as
    zero, as a freshly truncated shared-memory object does.  Opening, sizing
    and mapping the object are operating-system calls and are not modelled. *)

From stdpp Require Import sorting.
From S2P Require Import Prelude Types.

Definition total_ring_buffer_count : Z := 2.
Definition RING_SIZE : Z := Z.shiftl 1 20.
Definition MOD : Z := Z.shiftl 1 60.

Record item_node := mkItem { curr_trade : Trade; seq_no : Z }.

Abbreviation ring_mem := (gmap Z item_node).

Definition zero_item : item_node := mkItem (mkTrade 0 0 0 0 0 0 0) 0.
Definition slot (mem : ring_mem) (i : Z) : item_node := default zero_item (mem !! i).

(** One process's view of a ring; [buffer_id] and the mapping are constant. *)
Record trade_ring_buffer := mkRing {
  index : Z;
  next_expected_seq : Z;
  is_producer : bool
}.

Definition trade_ring_buffer_new (IsProducer : bool) : trade_ring_buffer :=
  mkRing 0 1 IsProducer.

Definition update_index_and_seq (h : trade_ring_buffer) : trade_ring_buffer :=
  let e := Z.land (u64 (next_expected_seq h + 1)) (MOD - 1) in
  mkRing (Z.land (u64 (index h + 1)) (RING_SIZE - 1))
    (Z.lor e (if e =? 0 then 1 else 0)) (is_producer h).

(** The three writes of [add_trade]: mark the slot as being written, copy the
    payload, mark it as done. *)
Definition write_begin (h : trade_ring_buffer) (mem : ring_mem) : ring_mem :=
  let next_seq := u64 (Z.shiftl (next_expected_seq h) 1) in
  <[index h := mkItem (curr_trade (slot mem (index h))) (Z.lor next_seq 1)]> mem.
Definition write_payload (t : Trade) (h : trade_ring_buffer) (mem : ring_mem) : ring_mem :=
  <[index h := mkItem t (seq_no (slot mem (index h)))]> mem.
Definition write_end (h : trade_ring_buffer) (mem : ring_mem) : ring_mem :=
  let next_seq := u64 (Z.shiftl (next_expected_seq h) 1) in
  <[index h := mkItem (curr_trade (slot mem (index h))) (u64 (next_seq + 2))]> mem.

Definition add_trade (recent_trade : Trade) (h : trade_ring_buffer) (mem : ring_mem)
  : trade_ring_buffer * ring_mem :=
  (update_index_and_seq h, write_end h (write_payload recent_trade h (write_begin h mem))).

Definition any_new_trade (h : trade_ring_buffer) (mem : ring_mem) : bool :=
  next_expected_seq h <=? seq_no (slot mem (index h)).

Definition lagged_out (h : trade_ring_buffer) (mem : ring_mem) : bool :=
  let node_seq := seq_no (slot mem (index h)) in
  let diff := Z.land (u64 (u64 (node_seq + MOD) - next_expected_seq h)) (MOD - 1) in
  RING_SIZE <=? diff.

(** [get_trade] into an address.  Each round of the [do]/[while] loop makes one
    observation of the slot: the sequence number, the payload copied and the
    sequence number again.  [continue] jumps to the loop condition, so a round
    that finds an odd number compares it with the [seq2] of an earlier round
    ([seq2] starts uninitialised) and copies nothing.  [out] is the
    destination buffer; [None] means that the observations ran out while the
    loop was still spinning. *)
Record observation := mkObs { ob_seq1 : Z; ob_payload : Trade; ob_seq2 : Z }.

Fixpoint get_trade_loop (obs : list observation) (seq2 : Z) (out : Trade) : option Trade :=
  match obs with
  | [] => None
  | ob :: obs =>
      if Z.odd (ob_seq1 ob)
      then if ob_seq1 ob =? seq2 then Some out else get_trade_loop obs seq2 out
      else if ob_seq1 ob =? ob_seq2 ob then Some (ob_payload ob)
           else get_trade_loop obs (ob_seq2 ob) (ob_payload ob)
  end.

(** While no write is in progress every observation shows the slot's content. *)
Definition observe (mem : ring_mem) (i : Z) : observation :=
  mkObs (seq_no (slot mem i)) (curr_trade (slot mem i)) (seq_no (slot mem i)).

Definition get_trade (junk_seq : Z) (junk : Trade) (h : trade_ring_buffer) (mem : ring_mem)
  : option Trade * trade_ring_buffer :=
  (get_trade_loop [observe mem (index h)] junk_seq junk, update_index_and_seq h).

(** * The ring as a window on the history of trades *)

(** A process that has added or read [c] trades. *)
Definition handle_at (c : nat) (h : trade_ring_buffer) : Prop :=
  index h = Z.of_nat c mod RING_SIZE ∧ next_expected_seq h = Z.of_nat c + 1.

(** The last [RING_SIZE] trades of [hist] are in their slots, with the
    sequence numbers [add_trade] gives them; the other slots are untouched. *)
Record ring_inv (hist : list Trade) (mem : ring_mem) : Prop := {
  ri_slot k t : hist !! k = Some t → Z.of_nat (length hist) <= Z.of_nat k + RING_SIZE →
    slot mem (Z.of_nat k mod RING_SIZE) = mkItem t (2 * (Z.of_nat k + 1) + 2);
  ri_empty i : Z.of_nat (length hist) <= i < RING_SIZE → slot mem i = zero_item
}.

(** Sequence numbers are not reduced modulo [MOD] within this many trades. *)
Definition seq_room (n : nat) : Prop := Z.of_nat n + 2 < MOD.

Lemma slot_insert mem i x j : slot (<[i := x]> mem) j = if decide (i = j) then x else slot mem j.
Proof. unfold slot. rewrite lookup_insert. by case_decide. Qed.

Lemma add_trade_slot t h mem j :
  slot (add_trade t h mem).2 j =
  if decide (index h = j)
  then mkItem t (u64 (u64 (Z.shiftl (next_expected_seq h) 1) + 2)) else slot mem j.
Proof.
  unfold add_trade, write_end, write_payload, write_begin. simpl.
  rewrite !slot_insert. case_decide; [|done]. by rewrite decide_True by done.
Qed.

Lemma update_handle c h :
  handle_at c h → seq_room c → handle_at (S c) (update_index_and_seq h).
Proof.
  unfold handle_at, seq_room, update_index_and_seq, RING_SIZE, MOD. intros [-> ->] Hr.
  rewrite !Z.shiftl_1_l in Hr. cbn [index next_expected_seq].
  rewrite !land_mask by lia. rewrite !Z.shiftl_1_l.
  pose proof (Z.mod_pos_bound (Z.of_nat c) (2 ^ 20)).
  rewrite (u64_small (Z.of_nat c + 1 + 1)) by mach. rewrite u64_small by mach.
  rewrite (Z.mod_small (Z.of_nat c + 1 + 1) (2 ^ 60)) by lia.
  rewrite Z.add_mod_idemp_l by lia. split; [f_equal; lia|].
  destruct (Z.eqb_spec (Z.of_nat c + 1 + 1) 0); [lia|]. rewrite Z.lor_0_r. lia.
Qed.

Lemma add_trade_inv t h mem hist :
  ring_inv hist mem → handle_at (length hist) h → seq_room (length hist) →
  ring_inv (hist ++ [t]) (add_trade t h mem).2 ∧
  handle_at (S (length hist)) (add_trade t h mem).1.
Proof.
  intros [Hs He] Hh Hr. split; [|by apply update_handle].
  destruct Hh as [Hi Hn]. unfold seq_room in Hr.
  assert (RING_SIZE = 2 ^ 20 ∧ MOD = 2 ^ 60) as [HR HM] by done.
  pose proof (Z.mod_pos_bound (Z.of_nat (length hist)) RING_SIZE) as Hb.
  split.
  - intros k t' Hk Hw. rewrite length_app in Hw. simpl in Hw. rewrite add_trade_slot, Hi.
    destruct (decide (k = length hist)) as [->|Hne].
    + rewrite list_lookup_middle in Hk by done. simplify_eq. rewrite decide_True by done.
      f_equal. rewrite Hn, Z.shiftl_mul_pow2 by lia. rewrite (u64_small (_ * _)) by mach.
      rewrite u64_small; mach.
    + apply lookup_app_Some in Hk as [Hk|[? Hk]].
      2: { apply lookup_lt_Some in Hk. simpl in Hk. lia. }
      apply lookup_lt_Some in Hk as ?. rewrite decide_False; [by apply Hs; [|lia]|].
      intros Heq. rewrite HR in *.
      pose proof (Z.div_mod (Z.of_nat (length hist)) (2 ^ 20)).
      pose proof (Z.div_mod (Z.of_nat k) (2 ^ 20)). nia.
  - intros i Hi'. rewrite length_app in Hi'. simpl in Hi'. rewrite add_trade_slot, Hi.
    rewrite Z.mod_small by lia. rewrite decide_False by lia. apply He. lia.
Qed.

Lemma ring_inv_new : ring_inv [] ∅ ∧ handle_at 0 (trade_ring_buffer_new true).
Proof. split; [|done]. split; [done|]. intros i _. done. Qed.

(** * Reading *)

(** A reader that is behind by at most one lap sees a new trade, and reads
    exactly the next one of the history. *)
Lemma reader_next js jt h mem hist c t :
  ring_inv hist mem → handle_at c h → hist !! c = Some t → seq_room (length hist) →
  Z.of_nat (length hist) <= Z.of_nat c + RING_SIZE →
  any_new_trade h mem = true ∧
  get_trade js jt h mem = (Some t, update_index_and_seq h).
Proof.
  intros [Hs _] [Hi Hn] Hc Hr Hw. specialize (Hs c t Hc Hw).
  unfold any_new_trade, get_trade, observe. rewrite Hi, Hn, Hs. split; [cbn [seq_no]; lia|].
  cbn [get_trade_loop ob_seq1 ob_seq2 ob_payload curr_trade seq_no].
  replace (2 * (Z.of_nat c + 1) + 2) with (2 * (Z.of_nat c + 2)) by lia.
  by rewrite Z.odd_mul, Z.eqb_refl.
Qed.

(** What [any_new_trade] says to a reader that has read everything: it is
    right until the ring has been filled almost twice. *)
Lemma caught_up_signal h mem hist :
  ring_inv hist mem → handle_at (length hist) h → seq_room (length hist) →
  any_new_trade h mem = (2 * RING_SIZE - 3 <=? Z.of_nat (length hist)).
Proof.
  intros [Hs He] [Hi Hn] Hr. unfold any_new_trade. rewrite Hi, Hn.
  assert (RING_SIZE = 2 ^ 20) as HR by done.
  destruct (decide (Z.of_nat (length hist) < RING_SIZE)) as [Hlt|Hge].
  - rewrite Z.mod_small, He by lia. cbn [seq_no zero_item]. lia.
  - set (k := (length hist - Z.to_nat RING_SIZE)%nat).
    assert (Z.of_nat k = Z.of_nat (length hist) - RING_SIZE) as Hk by lia.
    destruct (lookup_lt_is_Some_2 hist k) as [t Ht]; [lia|].
    replace (Z.of_nat (length hist) mod RING_SIZE) with (Z.of_nat k mod RING_SIZE).
    2: { rewrite Hk. by rewrite <- (Z_mod_plus_full (Z.of_nat (length hist)) (-1)). }
    rewrite (Hs k t Ht) by lia. cbn [seq_no]. lia.
Qed.

(** The reader loop [while (any_new_trade()) get_trade()] that the OMS runs on
    each ring; [None] when it does not stop within [fuel] reads. *)
Fixpoint drain (fuel : nat) (js : Z) (jt : Trade) (h : trade_ring_buffer) (mem : ring_mem)
  : option (list Trade * trade_ring_buffer) :=
  if any_new_trade h mem then
    match fuel with
    | O => None
    | S fuel =>
        let '(t, h) := get_trade js jt h mem in
        t ← t;
        '(ts, h) ← drain fuel js jt h mem;
        Some (t :: ts, h)
    end
  else Some ([], h).

(** While the ring has been filled less than almost twice, the reader loop
    stops and returns exactly the trades the reader had not seen, in order. *)
Lemma drain_ok fuel js jt h mem hist c :
  ring_inv hist mem → handle_at c h → (c ≤ length hist)%nat →
  Z.of_nat (length hist) <= Z.of_nat c + RING_SIZE →
  Z.of_nat (length hist) < 2 * RING_SIZE - 3 →
  (length hist - c ≤ fuel)%nat →
  ∃ h', drain fuel js jt h mem = Some (drop c hist, h') ∧ handle_at (length hist) h'.
Proof.
  intros Hinv. revert h c. induction fuel as [|fuel IH]; intros h c Hh Hc Hw Hn Hf;
    (assert (seq_room (length hist)) as Hroom
       by (unfold seq_room, MOD; rewrite Z.shiftl_1_l; assert (RING_SIZE = 2 ^ 20) by done; lia)).
  - assert (c = length hist) as -> by lia. exists h. simpl.
    rewrite (caught_up_signal h mem hist) by done.
    destruct (Z.leb_spec (2 * RING_SIZE - 3) (Z.of_nat (length hist))); [lia|].
    by rewrite drop_all.
  - destruct (decide (c = length hist)) as [->|Hne].
    + exists h. cbn [drain]. rewrite (caught_up_signal h mem hist) by done.
      destruct (Z.leb_spec (2 * RING_SIZE - 3) (Z.of_nat (length hist))); [lia|].
      by rewrite drop_all.
    + destruct (lookup_lt_is_Some_2 hist c) as [t Ht]; [lia|].
      destruct (reader_next js jt h mem hist c t) as [Hany Hget]; try done.
      cbn [drain]. rewrite Hany, Hget. cbn [mbind option_bind].
      destruct (IH (update_index_and_seq h) (S c)) as (h' & Hd & Hh'); try lia.
      { apply update_handle; [done|]. unfold seq_room in *. lia. }
      rewrite Hd. cbn [mbind option_bind]. exists h'. split; [|done].
      by rewrite (drop_S hist t c).
Qed.

(** * One slot under concurrent access

    The producer writes the slot once per lap: it marks the slot with an odd
    number, copies the payload in pieces the reader can see ([snaps], the
    payloads visible while it copies) and marks it with an even number. *)

Record slot_write := mkWrite { w_seq : Z; w_snaps : list Trade; w_trade : Trade }.

Definition write_states (w : slot_write) : list item_node :=
  ((λ p, mkItem p (Z.lor (Z.shiftl (w_seq w) 1) 1)) <$> w_snaps w)
  ++ [mkItem (w_trade w) (Z.shiftl (w_seq w) 1 + 2)].

(** All the states of the slot, in order of time. *)
Definition slot_trace (init : item_node) (ws : list slot_write) : list item_node :=
  init :: concat (write_states <$> ws).

(** A reader's round: it loads the sequence number at time [i1], reads each
    field of the payload at some later time, and loads the number again. *)
Definition observed (tr : list item_node) (i1 i2 : nat) (ob : observation) : Prop :=
  (seq_no <$> tr !! i1) = Some (ob_seq1 ob) ∧ (seq_no <$> tr !! i2) = Some (ob_seq2 ob) ∧
  ∃ (at_ : Z → nat),
    (∀ c, i1 ≤ at_ c ≤ i2)%nat ∧
    Some (t_trade_id (ob_payload ob)) = (λ n, t_trade_id (curr_trade n)) <$> tr !! at_ 0 ∧
    Some (t_timestamp_ns (ob_payload ob)) = (λ n, t_timestamp_ns (curr_trade n)) <$> tr !! at_ 1 ∧
    Some (t_price (ob_payload ob)) = (λ n, t_price (curr_trade n)) <$> tr !! at_ 2 ∧
    Some (t_buy_order_id (ob_payload ob)) = (λ n, t_buy_order_id (curr_trade n)) <$> tr !! at_ 3 ∧
    Some (t_sell_order_id (ob_payload ob)) = (λ n, t_sell_order_id (curr_trade n)) <$> tr !! at_ 4 ∧
    Some (t_symbol_id (ob_payload ob)) = (λ n, t_symbol_id (curr_trade n)) <$> tr !! at_ 5 ∧
    Some (t_quantity (ob_payload ob)) = (λ n, t_quantity (curr_trade n)) <$> tr !! at_ 6.

(** A later state has a larger number, or the same odd one. *)
Definition later (x y : item_node) : Prop :=
  seq_no x < seq_no y ∨ seq_no x = seq_no y ∧ Z.odd (seq_no x) = true.

(** Writes with growing sequence numbers, after an initial state. *)
Definition writes_ok (init : item_node) (ws : list slot_write) : Prop :=
  Z.odd (seq_no init) = false ∧
  StronglySorted (λ w w', w_seq w < w_seq w') ws ∧
  Forall (λ w, 0 <= w_seq w ∧ seq_no init <= 2 * w_seq w) ws.

Lemma write_seq_odd e : 0 <= e → Z.lor (Z.shiftl e 1) 1 = 2 * e + 1.
Proof.
  intros He. destruct e as [|p|p]; [done|done|lia].
Qed.

Lemma write_states_seq w x :
  0 <= w_seq w → x ∈ write_states w →
  (seq_no x = 2 * w_seq w + 1 ∧ x ∈ ((λ p, mkItem p (Z.lor (Z.shiftl (w_seq w) 1) 1)) <$> w_snaps w)) ∨
  x = mkItem (w_trade w) (2 * w_seq w + 2).
Proof.
  intros He [Hx|Hx]%elem_of_app; [left|right].
  - split; [|done]. apply list_elem_of_fmap in Hx as (p & -> & _). cbn [seq_no]. by apply write_seq_odd.
  - apply list_elem_of_singleton in Hx as ->. rewrite Z.shiftl_mul_pow2 by lia. f_equal. lia.
Qed.

Lemma write_states_sorted w : 0 <= w_seq w → StronglySorted later (write_states w).
Proof.
  intros He. unfold write_states. apply StronglySorted_app_2; [|induction (w_snaps w) as [|p l IH]|by repeat constructor].
  - intros x y (p & -> & _)%list_elem_of_fmap ->%list_elem_of_singleton. left. cbn [seq_no].
    rewrite write_seq_odd by done. rewrite Z.shiftl_mul_pow2 by lia. lia.
  - constructor.
  - rewrite fmap_cons. constructor; [done|]. apply Forall_forall. intros y (p' & -> & _)%list_elem_of_fmap.
    right. split; [done|]. cbn [seq_no]. rewrite write_seq_odd by done. by rewrite Z.odd_add, Z.odd_mul.
Qed.

Lemma slot_trace_sorted init ws : writes_ok init ws → StronglySorted later (slot_trace init ws).
Proof.
  intros (Hodd & Hs & Hw). unfold slot_trace.
  assert (∀ x, x ∈ concat (write_states <$> ws) → ∃ w, w ∈ ws ∧ x ∈ write_states w) as Hin.
  { intros x Hx. apply list_elem_of_In, in_concat in Hx as (l & Hl & Hx).
    apply list_elem_of_In, list_elem_of_fmap in Hl as (w & -> & Hw'). exists w. split; [done|]. by apply list_elem_of_In. }
  assert (∀ w x, 0 <= w_seq w → x ∈ write_states w → 2 * w_seq w + 1 <= seq_no x <= 2 * w_seq w + 2) as Hb.
  { intros w x He Hx. destruct (write_states_seq w x He Hx) as [[-> _]| ->]; cbn [seq_no]; lia. }
  constructor.
  - clear Hin. induction Hs as [|w ws Hs IH Hlt]; [constructor|].
    apply Forall_cons in Hw as [[He Hi] Hw]. rewrite fmap_cons. cbn [concat].
    apply StronglySorted_app_2; [|by apply write_states_sorted|by apply IH].
    intros x y Hx Hy. left. apply list_elem_of_In, in_concat in Hy as (l & Hl & Hy).
    apply list_elem_of_In, list_elem_of_fmap in Hl as (w' & -> & Hw').
    rewrite Forall_forall in Hlt, Hw. specialize (Hlt _ Hw'). destruct (Hw _ Hw') as [He' _].
    rewrite <- list_elem_of_In in Hy. pose proof (Hb _ _ He Hx). pose proof (Hb _ _ He' Hy). lia.
  - apply Forall_forall. intros x (w & Hw' & Hx)%Hin. rewrite Forall_forall in Hw.
    destruct (Hw _ Hw') as [He Hi]. specialize (Hb _ _ He Hx). left. lia.
Qed.

(** Two sightings of the same even number are the same moment of the slot. *)
Lemma even_once tr i j x y :
  StronglySorted later tr → tr !! i = Some x → tr !! j = Some y → (i ≤ j)%nat →
  seq_no x = seq_no y → Z.odd (seq_no x) = false → i = j.
Proof.
  intros Hs. revert i j. induction Hs as [|z tr Hs IH Hz]; intros i j Hi Hj Hle Heq Hodd; [done|].
  destruct i as [|i], j as [|j]; simpl in *; [done| |lia|].
  - simplify_eq. rewrite Forall_forall in Hz.
    destruct (Hz y) as [?|[_ ?]]; [by eapply list_elem_of_lookup_2|lia|congruence].
  - f_equal. apply (IH i j); try done. lia.
Qed.

Lemma observed_consistent init ws i1 i2 ob :
  writes_ok init ws → observed (slot_trace init ws) i1 i2 ob →
  ob_seq1 ob = ob_seq2 ob → Z.odd (ob_seq1 ob) = false → (i1 ≤ i2)%nat →
  mkItem (ob_payload ob) (ob_seq1 ob) ∈ slot_trace init ws.
Proof.
  intros Hok (H1 & H2 & at_ & Hat & Hf) Heq Hodd Hle. apply slot_trace_sorted in Hok.
  destruct (slot_trace init ws !! i1) as [x|] eqn:E1; [|done].
  destruct (slot_trace init ws !! i2) as [y|] eqn:E2; [|done]. simpl in H1, H2. simplify_eq.
  assert (i1 = i2) as <- by (eapply even_once; try done; congruence).
  assert (∀ c, at_ c = i1) as Hc by (intros c; specialize (Hat c); lia).
  rewrite !Hc, E1 in Hf. simpl in Hf. destruct Hf as (? & ? & ? & ? & ? & ? & ?).
  assert (mkItem (ob_payload ob) (ob_seq1 ob) = x) as ->; [|by eapply list_elem_of_lookup_2].
  destruct x as [[] ?], (ob_payload ob). cbn in *. by simplify_eq.
Qed.

Lemma loop_even_rounds init ws obs junk out t :
  writes_ok init ws →
  (∀ ob, ob ∈ obs → Z.odd (ob_seq1 ob) = false ∧
     ∃ i1 i2, (i1 ≤ i2)%nat ∧ observed (slot_trace init ws) i1 i2 ob) →
  get_trade_loop obs junk out = Some t →
  ∃ s, Z.odd s = false ∧ mkItem t s ∈ slot_trace init ws.
Proof.
  intros Hok. revert junk out. induction obs as [|ob obs IH]; intros junk out Hobs Hrun; [done|].
  cbn [get_trade_loop] in Hrun. destruct (Hobs ob ltac:(left)) as (Hodd & i1 & i2 & Hle & Hob).
  rewrite Hodd in Hrun. destruct (ob_seq1 ob =? ob_seq2 ob) eqn:E.
  - simplify_eq. exists (ob_seq1 ob). split; [done|]. apply Z.eqb_eq in E. by eapply observed_consistent.
  - eapply IH; [|done]. intros ob' Hob'. apply Hobs. by right.
Qed.

(** * Theorems *)

(** The producer's calls for a list of trades. *)
Definition add_trades (ts : list Trade) (st : trade_ring_buffer * ring_mem) : trade_ring_buffer * ring_mem :=
  foldl (λ st t, add_trade t st.1 st.2) st ts.

Lemma add_trades_inv ts : ∀ hist h mem,
  ring_inv hist mem → handle_at (length hist) h → seq_room (length hist + length ts) →
  ring_inv (hist ++ ts) (add_trades ts (h, mem)).2 ∧
  handle_at (length (hist ++ ts)) (add_trades ts (h, mem)).1.
Proof.
  induction ts as [|t ts IH]; intros hist h mem Hr Hh Hroom; [by rewrite app_nil_r|].
  unfold seq_room in *. cbn [length] in Hroom.
  destruct (add_trade_inv t h mem hist Hr Hh) as [Hr1 Hh1]; [unfold seq_room; lia|].
  destruct (IH (hist ++ [t]) (add_trade t h mem).1 (add_trade t h mem).2) as [Hr2 Hh2].
  - done.
  - by rewrite length_app, Nat.add_comm.
  - rewrite length_app. simpl. lia.
  - rewrite <- app_assoc in Hr2, Hh2. destruct (add_trade t h mem) as [h1 mem1] eqn:E.
    unfold add_trades in *. cbn [foldl fst snd]. by rewrite E.
Qed.

(** C9: Delivery.  Whatever trades the producer has published since the ring
    was created, a reader that has already read the first [c] of them and is
    at most one lap behind reads exactly the rest, in order, each once, and
    its loop stops; this holds until [2 * RING_SIZE - 3] trades have been
    published. *)
Theorem trade_ring_delivers ts c h js jt :
  handle_at c h → (c ≤ length ts)%nat → Z.of_nat (length ts) <= Z.of_nat c + RING_SIZE →
  Z.of_nat (length ts) < 2 * RING_SIZE - 3 →
  let mem := (add_trades ts (trade_ring_buffer_new true, ∅)).2 in
  ∃ h', drain (length ts - c) js jt h mem = Some (drop c ts, h') ∧ handle_at (length ts) h'.
Proof.
  intros Hh Hc Hw Hn mem. destruct ring_inv_new as [Hr0 Hh0].
  destruct (add_trades_inv ts [] _ _ Hr0 Hh0) as [Hr _].
  { unfold seq_room. assert (RING_SIZE = 2 ^ 20 ∧ MOD = 2 ^ 60) as [? ?] by done. cbn [length]. lia. }
  by apply drain_ok.
Qed.

Lemma trade_ring_delivers_witness :
  let t i := mkTrade i 0 100 1 2 0 5 in
  let mem := (add_trades [t 1; t 2; t 3] (trade_ring_buffer_new true, ∅)).2 in
  ∃ h', drain 2 0 (t 0) (update_index_and_seq (trade_ring_buffer_new false)) mem = Some ([t 2; t 3], h')
        ∧ handle_at 3 h'.
Proof.
  intros t mem.
  apply (trade_ring_delivers [t 1; t 2; t 3] 1 (update_index_and_seq (trade_ring_buffer_new false)) 0 (t 0)).
  - split; reflexivity.
  - simpl. lia.
  - vm_compute. discriminate.
  - reflexivity.
Defined.

(** C40: To a reader that has read everything, [any_new_trade] answers [true]
    from the [2 * RING_SIZE - 3]-rd trade on, although there is nothing new:
    it compares the doubled sequence number in the slot with the undoubled
    one the reader expects. *)
Theorem any_new_trade_caught_up ts h :
  handle_at (length ts) h → seq_room (length ts) →
  any_new_trade h (add_trades ts (trade_ring_buffer_new true, ∅)).2
  = (2 * RING_SIZE - 3 <=? Z.of_nat (length ts)).
Proof.
  intros Hh Hroom. destruct ring_inv_new as [Hr0 Hh0].
  destruct (add_trades_inv ts [] _ _ Hr0 Hh0 Hroom) as [Hr _]. by apply caught_up_signal.
Qed.

(** A reader that has read two trades, and one that has read [2^21]. *)
Lemma any_new_trade_caught_up_witness :
  (let ts := replicate 2 (mkTrade 1 0 100 1 2 0 5) in
   any_new_trade (mkRing 2 3 false) (add_trades ts (trade_ring_buffer_new true, ∅)).2 = false) ∧
  (let ts := replicate (Z.to_nat (2 ^ 21)) (mkTrade 1 0 100 1 2 0 5) in
   any_new_trade (mkRing 0 (2 ^ 21 + 1) false) (add_trades ts (trade_ring_buffer_new true, ∅)).2 = true).
Proof.
  split; cbn zeta.
  - rewrite (any_new_trade_caught_up (replicate 2 _)); [reflexivity|split; reflexivity|reflexivity].
  - rewrite (any_new_trade_caught_up (replicate (Z.to_nat (2 ^ 21)) _)).
    + rewrite length_replicate, Z2Nat.id by lia. reflexivity.
    + unfold handle_at. rewrite length_replicate, Z2Nat.id by lia. split; reflexivity.
    + unfold seq_room. rewrite length_replicate, Z2Nat.id by lia. reflexivity.
Defined.

(** [lagged_out] says of a reader whose next trade is still in its slot
    that unread data was overwritten, from trade number [RING_SIZE - 3] on. *)
Theorem lagged_out_unread ts c h t :
  handle_at c h → ts !! c = Some t → Z.of_nat (length ts) <= Z.of_nat c + RING_SIZE →
  seq_room (length ts) →
  lagged_out h (add_trades ts (trade_ring_buffer_new true, ∅)).2 = (RING_SIZE - 3 <=? Z.of_nat c).
Proof.
  intros [Hi Hn] Ht Hw Hroom. destruct ring_inv_new as [Hr0 Hh0].
  destruct (add_trades_inv ts [] _ _ Hr0 Hh0 Hroom) as [[Hs _] _]. cbn [app] in Hs.
  apply lookup_lt_Some in Ht as Hc. unfold lagged_out. rewrite Hi, (Hs c t Ht Hw), Hn. cbn [seq_no].
  unfold seq_room in Hroom. unfold MOD in *. rewrite land_mask by lia.
  rewrite Z.shiftl_1_l in *.
  rewrite (u64_small (2 * _ + _ + _)) by mach. rewrite u64_small by mach.
  replace (2 * (Z.of_nat c + 1) + 2 + 2 ^ 60 - (Z.of_nat c + 1)) with (Z.of_nat c + 3 + 1 * 2 ^ 60) by lia.
  rewrite Z_mod_plus_full.
  destruct (decide (Z.of_nat c + 3 < 2 ^ 60)) as [Hlt|Hge]; [rewrite Z.mod_small by lia|lia].
  apply eq_bool_prop_intro; rewrite !Is_true_true, !Z.leb_le. lia.
Qed.

Lemma lagged_out_unread_witness :
  let ts := replicate (Z.to_nat RING_SIZE) (mkTrade 1 0 100 1 2 0 5) in
  lagged_out (mkRing (RING_SIZE - 3) (RING_SIZE - 2) false)
    (add_trades ts (trade_ring_buffer_new true, ∅)).2 = true.
Proof.
  cbn zeta. assert (Z.of_nat (Z.to_nat RING_SIZE) = RING_SIZE) as HR by (apply Z2Nat.id; discriminate).
  assert (Z.of_nat (Z.to_nat (RING_SIZE - 3)) = RING_SIZE - 3) as HR3 by (apply Z2Nat.id; discriminate).
  rewrite (lagged_out_unread _ (Z.to_nat (RING_SIZE - 3)) _ (mkTrade 1 0 100 1 2 0 5)).
  - rewrite HR3. reflexivity.
  - unfold handle_at. rewrite HR3. split; reflexivity.
  - apply lookup_replicate_2. lia.
  - rewrite length_replicate, HR, HR3. vm_compute. discriminate.
  - unfold seq_room. rewrite length_replicate, HR. reflexivity.
Defined.

(** C23: Rounds of [get_trade] that find an even number are safe: however the
    producer's writes interleave with the reader's loads, the payload a
    reader accepts was in the slot as a whole, under an even number. *)
Theorem get_trade_consistent init ws obs junk out t :
  writes_ok init ws →
  (∀ ob, ob ∈ obs → Z.odd (ob_seq1 ob) = false ∧
     ∃ i1 i2, (i1 ≤ i2)%nat ∧ observed (slot_trace init ws) i1 i2 ob) →
  get_trade_loop obs junk out = Some t →
  ∃ s, Z.odd s = false ∧ mkItem t s ∈ slot_trace init ws.
Proof. intros. by eapply loop_even_rounds. Qed.

(** A slot that holds trade 1 and is overwritten by trade 2 a lap later. *)
Definition old_trade : Trade := mkTrade 1 10 100 11 12 0 5.
Definition new_trade : Trade := mkTrade 2 20 200 21 22 0 7.
Definition mixed_trade : Trade := mkTrade 2 20 100 11 12 0 5.
Definition overwrite : slot_write := mkWrite (RING_SIZE + 1) [old_trade; mixed_trade] new_trade.
Definition one_round : list observation := [mkObs 4 old_trade 4].

Lemma get_trade_consistent_witness :
  ∃ s, Z.odd s = false ∧ mkItem old_trade s ∈ slot_trace (mkItem old_trade 4) [overwrite].
Proof.
  apply (get_trade_consistent (mkItem old_trade 4) [overwrite] one_round 0 new_trade old_trade).
  - split; [reflexivity|]. split; [repeat constructor|]. constructor; [|constructor].
    split; vm_compute; discriminate.
  - intros ob ->%list_elem_of_singleton. split; [reflexivity|]. exists 0%nat, 0%nat. split; [lia|].
    split; [reflexivity|]. split; [reflexivity|]. exists (λ _, 0%nat). split; [lia|].
    split_and!; reflexivity.
  - reflexivity.
Defined.

(** Torn reads are possible, because [continue] jumps to the loop's test:
    a round whose second load returns the odd number of a write in progress,
    followed by a round that finds the same odd number, ends the loop with
    a mixture of two trades, which was never published. *)
Theorem get_trade_torn :
  ∃ init ws obs t, writes_ok init ws ∧
    (∀ k ob, obs !! k = Some ob → ∃ i1 i2, (i1 ≤ i2)%nat ∧ observed (slot_trace init ws) i1 i2 ob) ∧
    get_trade_loop obs 0 new_trade = Some t ∧
    ∀ x, x ∈ slot_trace init ws → Z.odd (seq_no x) = false → curr_trade x ≠ t.
Proof.
  set (odd := 2 * (RING_SIZE + 1) + 1).
  exists (mkItem old_trade 4), [overwrite], [mkObs 4 mixed_trade odd; mkObs odd mixed_trade odd], mixed_trade.
  split_and!.
  - split; [reflexivity|]. split; [repeat constructor|]. constructor; [|constructor].
    split; vm_compute; discriminate.
  - intros k ob Hk. destruct k as [|[|k]]; [| |done]; simpl in Hk; simplify_eq.
    + exists 0%nat, 2%nat. split; [lia|]. split; [reflexivity|]. split; [reflexivity|].
      exists (λ _, 2%nat). split; [lia|]. split_and!; reflexivity.
    + exists 2%nat, 2%nat. split; [lia|]. split; [reflexivity|]. split; [reflexivity|].
      exists (λ _, 2%nat). split; [lia|]. split_and!; reflexivity.
  - reflexivity.
  - intros x Hx Hodd. unfold slot_trace, write_states in Hx. simpl in Hx.
    repeat (apply elem_of_cons in Hx as [->|Hx]; [done|]). by apply elem_of_nil in Hx.
Qed.
