(* ===== verification/Fifo.v ===== *)
(** What the program expects of a queue, whatever its implementation: a
    bounded FIFO.  [RingBuffer] (order queues) and [spsc_queue] (market data,
    missing sequence numbers, memory regions) are instances; the clients'
    loops are proved against the interface. *)

From S2P Require Import Prelude.

(** [fq_bound] is the number of items the queue can hold. *)
Class FifoQueue (Q T : Type) := {
  fq_push : T → Q → option (bool * Q);
  fq_pop : Q → option (option T * Q);
  fq_bound : Z;
  fq_rep : Q → list T → Prop;
  fq_push_room q l x : fq_rep q l → Z.of_nat (length l) < fq_bound →
    ∃ q', fq_push x q = Some (true, q') ∧ fq_rep q' (l ++ [x]);
  fq_push_full q l x : fq_rep q l → Z.of_nat (length l) = fq_bound → fq_push x q = Some (false, q);
  fq_pop_item q x l : fq_rep q (x :: l) → ∃ q', fq_pop q = Some (Some x, q') ∧ fq_rep q' l;
  fq_pop_empty q : fq_rep q [] → fq_pop q = Some (None, q);
  fq_bounded q l : fq_rep q l → Z.of_nat (length l) <= fq_bound
}.

Section clients.
Context {Q T : Type} {FQ : FifoQueue Q T}.

(** [for(x : xs) queue.push(x)], ignoring the results, as the callers do; the
    items that did not fit are returned. *)
Fixpoint push_all (xs : list T) (q : Q) : option (list T * Q) :=
  match xs with
  | [] => Some ([], q)
  | x :: xs =>
      '(ok, q) ← fq_push x q;
      '(lost, q) ← push_all xs q;
      Some (if ok : bool then lost else x :: lost, q)
  end.

(** [while(queue.pop(x)) ...], at most [fuel] times. *)
Fixpoint pop_all (fuel : nat) (q : Q) : option (list T * Q) :=
  match fuel with
  | O => Some ([], q)
  | S fuel =>
      '(r, q) ← fq_pop q;
      match r with
      | None => Some ([], q)
      | Some x => '(xs, q) ← pop_all fuel q; Some (x :: xs, q)
      end
  end.

Lemma push_all_ok xs : ∀ q l,
  fq_rep q l → let room := Z.to_nat (fq_bound - Z.of_nat (length l)) in
  ∃ q', push_all xs q = Some (drop room xs, q') ∧ fq_rep q' (l ++ take room xs).
Proof.
  induction xs as [|x xs IH]; intros q l Hq; cbn zeta.
  { exists q. rewrite take_nil, drop_nil, app_nil_r. done. }
  pose proof (fq_bounded q l Hq) as Hb. cbn [push_all].
  destruct (decide (Z.of_nat (length l) = fq_bound)) as [E|E].
  - rewrite (fq_push_full q l x Hq E). cbn [mbind option_bind].
    destruct (IH q l Hq) as (q' & Hrun & Hq'). rewrite Hrun. cbn [mbind option_bind].
    replace (Z.to_nat (fq_bound - Z.of_nat (length l))) with 0%nat in * by lia.
    exists q'. rewrite !drop_0, take_0 in *. done.
  - destruct (fq_push_room q l x Hq) as (q1 & Hp & Hq1); [lia|]. rewrite Hp. cbn [mbind option_bind].
    destruct (IH q1 _ Hq1) as (q' & Hrun & Hq'). rewrite Hrun. cbn [mbind option_bind].
    rewrite length_app in Hq' |- *. cbn [length] in *.
    replace (Z.to_nat (fq_bound - Z.of_nat (length l)))
      with (S (Z.to_nat (fq_bound - Z.of_nat (length l + 1)))) by lia.
    exists q'. split; [done|]. cbn [take firstn]. by rewrite <- app_assoc in Hq'.
Qed.

Lemma pop_all_ok l : ∀ q fuel, fq_rep q l → (length l ≤ fuel)%nat →
  ∃ q', pop_all fuel q = Some (l, q') ∧ fq_rep q' [].
Proof.
  induction l as [|x l IH]; intros q fuel Hq Hf.
  - exists q. destruct fuel; [done|]. cbn [pop_all]. by rewrite (fq_pop_empty q Hq).
  - destruct fuel as [|fuel]; [simpl in Hf; lia|]. cbn [pop_all].
    destruct (fq_pop_item q x l Hq) as (q1 & Hp & Hq1). rewrite Hp. cbn [mbind option_bind].
    destruct (IH q1 fuel Hq1) as (q' & Hrun & Hq'); [simpl in Hf; lia|]. rewrite Hrun.
    exists q'. done.
Qed.

(** What goes in comes out: everything that fits, once and in order; the
    items beyond the bound, and only those, are lost. *)
Lemma push_pop_all xs q :
  fq_rep q [] → ∃ q1 q2, push_all xs q = Some (drop (Z.to_nat fq_bound) xs, q1) ∧
    pop_all (length xs) q1 = Some (take (Z.to_nat fq_bound) xs, q2) ∧ fq_rep q2 [].
Proof.
  intros Hq. destruct (push_all_ok xs q [] Hq) as (q1 & Hrun & Hq1). simpl in Hrun, Hq1.
  rewrite Z.sub_0_r in *. destruct (pop_all_ok _ q1 (length xs) Hq1) as (q2 & Hrun2 & Hq2).
  { rewrite length_take. lia. }
  eauto.
Qed.
End clients.
