(* ===== verification/RingBuffer.v ===== *)
(** [RingBuffer<T>] of src/producer_consumer.cpp, the queue between the
    order server, the OMS and the engine groups.

    The class masks its positions with [capacity-1] for whatever capacity it
    is given, so the theory is stated for the effective size [2^k] where
    [capacity = 2^k * m] with [m] odd; for the power-of-two capacities of the
    pipeline server this is the capacity itself. *)

From S2P Require Import Prelude Fifo.

(** * The class *)

Record RingBuffer (T : Type) := mkRingBuffer {
  rb_buffer : list T;
  rb_capacity : Z;
  rb_head : Z;
  rb_tail : Z
}.
Arguments mkRingBuffer {T} _ _ _ _.
Arguments rb_buffer {T} _.
Arguments rb_capacity {T} _.
Arguments rb_head {T} _.
Arguments rb_tail {T} _.

Section ring_buffer.
Context {T : Type}.
Implicit Types rb : RingBuffer T.

(** [dflt] is the default-constructed [T] that [resize] stores. *)
Definition RingBuffer_new (dflt : T) (cap : Z) : RingBuffer T :=
  mkRingBuffer (replicate (Z.to_nat cap) dflt) cap 0 0.

(** [(cur+1) & (capacity-1)] stored in a [uint32_t]. *)
Definition next_pos (cap cur : Z) : Z := u32 (Z.land (u32 (cur + 1)) (u64 (cap - 1))).

(** [None]: an access outside [buffer]. *)
Definition push (item : T) rb : option (bool * RingBuffer T) :=
  let cur_tail := rb_tail rb in
  let next_tail := next_pos (rb_capacity rb) cur_tail in
  if next_tail =? rb_head rb then Some (false, rb)
  else
    if bool_decide (Z.to_nat cur_tail < length (rb_buffer rb))%nat then
      Some (true, mkRingBuffer (<[Z.to_nat cur_tail := item]> (rb_buffer rb))
                    (rb_capacity rb) (rb_head rb) next_tail)
    else None.

Definition pop rb : option (option T * RingBuffer T) :=
  let cur_head := rb_head rb in
  if cur_head =? rb_tail rb then Some (None, rb)
  else
    item ← rb_buffer rb !! Z.to_nat cur_head;
    Some (Some item, mkRingBuffer (rb_buffer rb) (rb_capacity rb)
                       (next_pos (rb_capacity rb) cur_head) (rb_tail rb)).

(** * Bounded FIFO behaviour *)

(** A capacity and the power of two it effectively provides. *)
Record effective (cap n : Z) : Prop := {
  ef_cap : ∃ k m, 0 <= k ∧ 0 <= m ∧ n = 2 ^ k ∧ cap = n * (2 * m + 1);
  ef_two : 2 <= n;
  ef_small : cap < 2 ^ 32
}.

(** [rb] holds the items [l], oldest first. *)
Record rb_rep (n : Z) rb (l : list T) : Prop := {
  rr_eff : effective (rb_capacity rb) n;
  rr_len : Z.of_nat (length (rb_buffer rb)) = rb_capacity rb;
  rr_head : 0 <= rb_head rb < n;
  rr_tail : rb_tail rb = (rb_head rb + Z.of_nat (length l)) mod n;
  rr_room : Z.of_nat (length l) < n;
  rr_slots : slots n (rb_head rb) (rb_buffer rb) l
}.

Lemma next_pos_cyclic cap n t :
  effective cap n → 0 <= t < n → next_pos cap t = (t + 1) mod n.
Proof.
  intros [(k & m & Hk & Hm & -> & ->) H2 Hs] Ht. unfold next_pos.
  assert (0 < 2 ^ k) by lia. assert (2 ^ k < 2 ^ 32) by nia.
  rewrite (u32_small (t + 1)) by (unfold is_u32; nia).
  rewrite u64_small by (unfold is_u64; nia).
  replace (2 ^ k * (2 * m + 1) - 1) with (Z.ones k + 2 ^ k * (2 * m)) by (rewrite Z.ones_equiv; nia).
  assert (Z.land (t + 1) (Z.ones k + 2 ^ k * (2 * m)) = (t + 1) mod 2 ^ k) as ->.
  { rewrite <- Z.land_ones by done. apply Z.bits_inj'. intros i Hi.
    rewrite !Z.land_spec. destruct (decide (i < k)) as [Hlt|Hge].
    - f_equal. rewrite Z.ones_spec_low by lia. rewrite Z.mul_comm.
      rewrite <- (Z.mod_pow2_bits_low _ k i) by lia.
      rewrite Z_mod_plus_full, Z.mod_pow2_bits_low by lia. by rewrite Z.ones_spec_low by lia.
    - rewrite (Z.ones_spec_high k) by lia. rewrite andb_false_r. apply andb_false_iff.
      destruct (decide (i = k)) as [->|Hne].
      + right. apply Z.b2z_inj. rewrite Z.testbit_spec' by lia.
        rewrite (Z.mul_comm (2 ^ k)), Z.div_add by lia.
        rewrite (Z.div_small (Z.ones k)) by (rewrite Z.ones_equiv; lia).
        by rewrite Z.add_0_l, Z.mul_comm, Z.mod_mul by lia.
      + left. apply Z.bits_above_log2; [lia|]. apply Z.log2_lt_pow2; [lia|].
        assert (2 ^ k * 2 ^ 1 <= 2 ^ i) by (rewrite <- Z.pow_add_r by lia; apply Z.pow_le_mono_r; lia).
        nia. }
  pose proof (Z.mod_pos_bound (t + 1) (2 ^ k) ltac:(lia)).
  apply u32_small. unfold is_u32. nia.
Qed.

Lemma RingBuffer_new_rep dflt cap n :
  effective cap n → rb_rep n (RingBuffer_new dflt cap) [].
Proof.
  intros Hef. pose proof (ef_two _ _ Hef). pose proof Hef as [(k & m & Hk & Hm & -> & ->) _ _].
  split; cbn; try done; try lia.
  rewrite length_replicate. nia.
Qed.

Lemma push_ok n rb l x :
  rb_rep n rb l →
  if Z.of_nat (length l) =? n - 1 then push x rb = Some (false, rb)
  else ∃ rb', push x rb = Some (true, rb') ∧ rb_rep n rb' (l ++ [x]).
Proof.
  intros [Hef Hlen Hh Ht Hr Hs]. pose proof (ef_two _ _ Hef).
  assert (n <= rb_capacity rb).
  { pose proof Hef as [(k & m & Hk & Hm & -> & ->) _ _]. nia. }
  pose proof (Z.mod_pos_bound (rb_head rb + Z.of_nat (length l)) n ltac:(lia)).
  assert (next_pos (rb_capacity rb) (rb_tail rb)
          = (rb_head rb + Z.of_nat (length l) + 1) mod n) as Hnext.
  { rewrite (next_pos_cyclic _ n) by (done || lia). by rewrite Ht, Zplus_mod_idemp_l. }
  unfold push. rewrite Hnext. case (Z.eqb_spec (Z.of_nat (length l)) (n - 1)) as [E|E].
  - replace (rb_head rb + Z.of_nat (length l) + 1) with (rb_head rb + 1 * n) by lia.
    rewrite Z_mod_plus_full, Z.mod_small by lia. by rewrite Z.eqb_refl.
  - case (Z.eqb_spec ((rb_head rb + Z.of_nat (length l) + 1) mod n) (rb_head rb)) as [E'|E'].
    { rewrite <- (Z.mod_small (rb_head rb) n) in E' at 2 by lia. symmetry in E'.
      apply slot_neq in E'; lia. }
    rewrite bool_decide_eq_true_2 by lia. eexists. split; [done|].
    split; cbn; rewrite ?length_insert, ?length_app; cbn [length]; try done; try lia.
    + f_equal. lia.
    + rewrite Ht. apply slots_push; try done; lia.
Qed.

Lemma pop_ok n rb l :
  rb_rep n rb l →
  match l with
  | [] => pop rb = Some (None, rb)
  | x :: l' => ∃ rb', pop rb = Some (Some x, rb') ∧ rb_rep n rb' l'
  end.
Proof.
  intros [Hef Hlen Hh Ht Hr Hs]. pose proof (ef_two _ _ Hef). unfold pop.
  destruct l as [|x l]; cbn [length] in *.
  - rewrite Ht, Z.add_0_r, Z.mod_small, Z.eqb_refl by lia. done.
  - case (Z.eqb_spec (rb_head rb) (rb_tail rb)) as [E|E].
    { rewrite Ht in E. rewrite <- (Z.mod_small (rb_head rb) n) in E at 1 by lia.
      apply slot_neq in E; lia. }
    apply slots_pop in Hs as [Hx Hs]. rewrite Z.mod_small in Hx by lia.
    rewrite Hx. cbn. eexists. split; [done|].
    rewrite (next_pos_cyclic _ n) by done.
    split; cbn; try done; try lia.
    + apply Z.mod_pos_bound. lia.
    + rewrite Ht, Zplus_mod_idemp_l. f_equal. lia.
    + eapply slots_mod, Hs. by rewrite Z.mod_mod by lia.
Qed.

End ring_buffer.

(** * The interface, and what it means for the capacities in use *)

#[export] Instance RingBuffer_fifo {T} (n : Z) : FifoQueue (RingBuffer T) T | 10.
Proof.
  refine {| fq_push := push; fq_pop := pop; fq_bound := n - 1; fq_rep := rb_rep n |}.
  - intros q l x Hq Hl. pose proof (push_ok n q l x Hq) as Hp.
    by rewrite (proj2 (Z.eqb_neq _ _)) in Hp by lia.
  - intros q l x Hq Hl. pose proof (push_ok n q l x Hq) as Hp.
    by rewrite (proj2 (Z.eqb_eq _ _)) in Hp by lia.
  - intros q x l Hq. apply (pop_ok n q (x :: l) Hq).
  - intros q Hq. apply (pop_ok n q [] Hq).
  - intros q l Hq. pose proof (rr_room _ _ _ Hq). lia.
Defined.

(** C22: [RingBuffer] is a bounded FIFO whatever capacity it is given: of the
    items pushed into a new queue, the first [n-1] come out, once and in
    order, and the others are refused, where [n] is the largest power of two
    that divides the capacity. *)
Theorem RingBuffer_roundtrip {T} (dflt : T) cap n xs :
  effective cap n →
  ∃ q1 q2, push_all (FQ:=RingBuffer_fifo n) xs (RingBuffer_new dflt cap)
           = Some (drop (Z.to_nat (n - 1)) xs, q1) ∧
    pop_all (FQ:=RingBuffer_fifo n) (length xs) q1 = Some (take (Z.to_nat (n - 1)) xs, q2) ∧ rb_rep n q2 [].
Proof. intros Hef. apply (push_pop_all (FQ:=RingBuffer_fifo n) xs). by apply RingBuffer_new_rep. Qed.

(** The OMS's default capacity 10000 is not a power of two: its queue holds
    fifteen orders. *)
Lemma RingBuffer_roundtrip_witness :
  ∃ q1 q2, push_all (FQ:=RingBuffer_fifo 16) (seqZ 0 20) (RingBuffer_new 0 10000)
           = Some ([15; 16; 17; 18; 19], q1) ∧
    pop_all (FQ:=RingBuffer_fifo 16) 20 q1 = Some (seqZ 0 15, q2) ∧ rb_rep 16 q2 [].
Proof.
  apply (RingBuffer_roundtrip 0 10000 16 (seqZ 0 20)).
  split; [|lia|lia]. exists 4, 312. split; [lia|]. split; [lia|]. split; reflexivity.
Defined.
