(* ===== verification/Spsc.v ===== *)
(** The single-producer single-consumer queue, of which the repository has
    three copies: src/spsc_queue.cpp (market data messages, 2^20 slots),
    [Client::spsc_queue] of src/listener.cpp (sequence numbers, 2^20 slots)
    and [TradeProcessor::spsc_queue] of src/trade_processor.cpp (memory
    regions, 32 slots).  They differ only in the item type and the size, so
    they are one definition over both.

    First the calls as wholes, then the interleaving of one producer thread
    and one consumer thread, in which every atomic access is a step of its
    own and a load may return an old value of the other thread's counter, as
    acquire/release ordering allows. *)

From stdpp Require Import relations.
From S2P Require Import Prelude Types Fifo.

Definition queue_buffer_size : Z := Z.shiftl 1 20.
Definition mem_regions : Z := 32.

Record spsc_queue (T : Type) := mkSpsc { q_head : Z; q_tail : Z; q_array : list T }.
Arguments mkSpsc {T} _ _ _.
Arguments q_head {T} _.
Arguments q_tail {T} _.
Arguments q_array {T} _.

Section spsc.
Context {T : Type} (size : Z).
Implicit Types (q : spsc_queue T) (x : T) (l : list T).

(** * The calls *)

(** [i & (size - 1)] *)
Definition cell (i : Z) : Z := Z.land i (size - 1).

Definition is_full (_head _tail : Z) : bool := cell (u64 (_tail + 1)) =? cell _head.

Definition spsc_new (arr : list T) : spsc_queue T := mkSpsc 0 0 arr.

(** [None]: an access outside the array. *)
Definition spsc_push (msg : T) q : option (bool * spsc_queue T) :=
  let _head := q_head q in
  let _tail := q_tail q in
  if negb (is_full _head _tail) then
    _ ← q_array q !! Z.to_nat (cell _tail);
    Some (true, mkSpsc _head (u64 (_tail + 1)) (<[Z.to_nat (cell _tail) := msg]> (q_array q)))
  else Some (false, q).

Definition spsc_pop q : option (option T * spsc_queue T) :=
  let _head := q_head q in
  let _tail := q_tail q in
  if negb (_tail =? _head) then
    out_msg ← q_array q !! Z.to_nat (cell _head);
    Some (Some out_msg, mkSpsc (u64 (_head + 1)) _tail (q_array q))
  else Some (None, q).

Definition spsc_empty q : bool := q_head q =? q_tail q.

(** * Bounded FIFO *)

Context (k : Z) (Hsize : size = 2 ^ k) (Hk : 1 <= k <= 32).

(** After [h] pops in all, [q] holds [l], oldest first; [h] is not reduced
    modulo [2^64], the counters are. *)
Record spsc_rep (h : nat) q l : Prop := {
  sr_head : q_head q = u64 (Z.of_nat h);
  sr_tail : q_tail q = u64 (Z.of_nat (h + length l));
  sr_room : Z.of_nat (length l) < size;
  sr_array : Z.of_nat (length (q_array q)) = size;
  sr_slots : slots size (Z.of_nat h) (q_array q) l
}.

Lemma size_bounds : 2 <= size <= 2 ^ 32.
Proof.
  rewrite Hsize. split; [|by apply Z.pow_le_mono_r; lia].
  change 2 with (2 ^ 1) at 1. apply Z.pow_le_mono_r; lia.
Qed.

Lemma cell_mod i : cell i = i mod size.
Proof. unfold cell. rewrite Hsize, <- Z.shiftl_1_l, land_mask by lia. by rewrite Z.shiftl_1_l. Qed.

Lemma cell_u64 i : cell (u64 i) = i mod size.
Proof.
  rewrite cell_mod. unfold u64. apply Z.mod_mod_divide. rewrite Hsize.
  exists (2 ^ (64 - k)). rewrite <- Z.pow_add_r by lia. f_equal. lia.
Qed.

Lemma cell_range i : 0 <= cell i < size.
Proof. rewrite cell_mod. pose proof size_bounds. apply Z.mod_pos_bound. lia. Qed.

(** The full test is exact even when the counters have wrapped around. *)
Lemma is_full_spec h t :
  h <= t < h + size → is_full (u64 h) (u64 t) = (t =? h + size - 1).
Proof.
  intros Ht. unfold is_full. pose proof size_bounds.
  assert (u64 (u64 t + 1) = u64 (t + 1)) as -> by (unfold u64; by rewrite Zplus_mod_idemp_l).
  rewrite !cell_u64. case (Z.eqb_spec t (h + size - 1)) as [->|Hne].
  - apply Z.eqb_eq. replace (h + size - 1 + 1) with (h + 1 * size) by lia. by rewrite Z_mod_plus_full.
  - apply Z.eqb_neq. intros Heq. symmetry in Heq. apply slot_neq in Heq; lia.
Qed.

(** So is the empty test. *)
Lemma is_empty_spec h t : h <= t < h + size → (u64 t =? u64 h) = (t =? h).
Proof.
  intros Ht. pose proof size_bounds. case (Z.eqb_spec t h) as [->|Hne]; [apply Z.eqb_refl|].
  apply Z.eqb_neq. intros Heq. symmetry in Heq. apply (slot_neq (2 ^ 64)) in Heq; lia.
Qed.

Lemma u64_succ i : u64 (u64 i + 1) = u64 (i + 1).
Proof. unfold u64. by rewrite Zplus_mod_idemp_l. Qed.

Lemma spsc_new_ok arr : Z.of_nat (length arr) = size → spsc_rep 0 (spsc_new arr) [].
Proof. intros Ha. pose proof size_bounds. split; try done; simpl; lia. Qed.

Lemma spsc_push_ok h q l x :
  spsc_rep h q l →
  if Z.of_nat (length l) =? size - 1 then spsc_push x q = Some (false, q)
  else ∃ q', spsc_push x q = Some (true, q') ∧ spsc_rep h q' (l ++ [x]).
Proof.
  intros [Hh Ht Hr Ha Hs]. unfold spsc_push. rewrite Hh, Ht, is_full_spec by lia.
  pose proof (cell_range (u64 (Z.of_nat (h + length l)))) as Hc. pose proof size_bounds.
  case (Z.eqb_spec (Z.of_nat (length l)) (size - 1)) as [E|E].
  - rewrite (proj2 (Z.eqb_eq (Z.of_nat (h + length l)) _)) by lia. done.
  - rewrite (proj2 (Z.eqb_neq (Z.of_nat (h + length l)) _)) by lia. cbn [negb].
    destruct (lookup_lt_is_Some_2 (q_array q) (Z.to_nat (cell (u64 (Z.of_nat (h + length l))))))
      as [y Hy]; [lia|].
    rewrite Hy. cbn [mbind option_bind]. eexists. split; [done|].
    split; cbn [q_head q_tail q_array]; rewrite ?length_insert, ?length_app; cbn [length]; try done; try lia.
    + rewrite u64_succ. f_equal. lia.
    + rewrite cell_u64, Nat2Z.inj_add. apply slots_push; try done; lia.
Qed.

Lemma spsc_pop_ok h q l :
  spsc_rep h q l →
  match l with
  | [] => spsc_pop q = Some (None, q)
  | x :: l' => ∃ q', spsc_pop q = Some (Some x, q') ∧ spsc_rep (S h) q' l'
  end.
Proof.
  intros [Hh Ht Hr Ha Hs]. unfold spsc_pop. rewrite Hh, Ht, is_empty_spec by lia.
  destruct l as [|x l]; cbn [length] in *.
  - rewrite Nat.add_0_r, Z.eqb_refl. done.
  - rewrite (proj2 (Z.eqb_neq (Z.of_nat (h + S (length l))) _)) by lia. cbn [negb].
    apply slots_pop in Hs as [Hx Hs]. rewrite cell_u64, Hx. cbn [mbind option_bind].
    eexists. split; [done|]. split; cbn [q_head q_tail q_array]; try done; try lia.
    + rewrite u64_succ. f_equal. lia.
    + f_equal. lia.
    + by replace (Z.of_nat (S h)) with (Z.of_nat h + 1) by lia.
Qed.

Lemma spsc_empty_ok h q l : spsc_rep h q l → spsc_empty q = bool_decide (l = []).
Proof.
  intros [Hh Ht Hr Ha Hs]. unfold spsc_empty. rewrite Hh, Ht, Z.eqb_sym, is_empty_spec by lia.
  destruct l; cbn [length].
  - rewrite bool_decide_eq_true_2 by done. apply Z.eqb_eq. lia.
  - rewrite bool_decide_eq_false_2 by done. apply Z.eqb_neq. lia.
Qed.

(** * Two threads *)

Inductive producer :=
| PIdle
| PLoaded (msg : T) (_head _tail : Z)    (* both counters loaded *)
| PWritten (msg : T) (_tail : Z).        (* item copied, tail not yet stored *)

Inductive consumer :=
| CIdle
| CLoaded (_head _tail : Z)
| CCopied (out_msg : T) (_head : Z).

(** [pushed] and [popped] record the successful calls; [seen_pops] and
    [seen_pushes] are the newest counter values each thread has loaded of
    the other's, below which it never falls back. *)
Record qstate := mkQ {
  s_head : Z; s_tail : Z; s_array : list T;
  s_prod : producer; s_cons : consumer;
  pushed : list T; popped : list T; seen_pops : nat; seen_pushes : nat
}.

Inductive spsc_step : qstate → qstate → Prop :=
| push_load hd tl arr c pu po sp sc msg v :
    (sp ≤ v ≤ length po)%nat →
    spsc_step (mkQ hd tl arr PIdle c pu po sp sc)
              (mkQ hd tl arr (PLoaded msg (u64 (Z.of_nat v)) tl) c pu po v sc)
| push_full hd tl arr c pu po sp sc msg _head _tail :
    is_full _head _tail = true →
    spsc_step (mkQ hd tl arr (PLoaded msg _head _tail) c pu po sp sc)
              (mkQ hd tl arr PIdle c pu po sp sc)
| push_write hd tl arr c pu po sp sc msg _head _tail :
    is_full _head _tail = false →
    spsc_step (mkQ hd tl arr (PLoaded msg _head _tail) c pu po sp sc)
              (mkQ hd tl (<[Z.to_nat (cell _tail) := msg]> arr) (PWritten msg _tail) c pu po sp sc)
| push_store hd tl arr c pu po sp sc msg _tail :
    spsc_step (mkQ hd tl arr (PWritten msg _tail) c pu po sp sc)
              (mkQ hd (u64 (_tail + 1)) arr PIdle c (pu ++ [msg]) po sp sc)
| pop_load hd tl arr p pu po sp sc v :
    (sc ≤ v ≤ length pu)%nat →
    spsc_step (mkQ hd tl arr p CIdle pu po sp sc)
              (mkQ hd tl arr p (CLoaded hd (u64 (Z.of_nat v))) pu po sp v)
| pop_empty hd tl arr p pu po sp sc _head _tail :
    (_tail =? _head) = true →
    spsc_step (mkQ hd tl arr p (CLoaded _head _tail) pu po sp sc)
              (mkQ hd tl arr p CIdle pu po sp sc)
| pop_copy hd tl arr p pu po sp sc _head _tail out_msg :
    (_tail =? _head) = false → arr !! Z.to_nat (cell _head) = Some out_msg →
    spsc_step (mkQ hd tl arr p (CLoaded _head _tail) pu po sp sc)
              (mkQ hd tl arr p (CCopied out_msg _head) pu po sp sc)
| pop_store hd tl arr p pu po sp sc out_msg _head :
    spsc_step (mkQ hd tl arr p (CCopied out_msg _head) pu po sp sc)
              (mkQ (u64 (_head + 1)) tl arr p CIdle pu (po ++ [out_msg]) sp sc).

Definition spsc_init (arr : list T) : qstate := mkQ 0 0 arr PIdle CIdle [] [] 0 0.
Definition spsc_reachable (arr : list T) : qstate → Prop := rtc spsc_step (spsc_init arr).

(** The items that are in the array: those pushed and, between the copy and
    the store of the tail, one more. *)
Definition in_array (s : qstate) : list T :=
  match s_prod s with PWritten msg _ => pushed s ++ [msg] | _ => pushed s end.

Definition producer_inv (s : qstate) : Prop :=
  match s_prod s with
  | PIdle => True
  | PLoaded _ _head _tail => _head = u64 (Z.of_nat (seen_pops s)) ∧ _tail = s_tail s
  | PWritten _ _tail => _tail = s_tail s
  end.

Definition consumer_inv (s : qstate) : Prop :=
  match s_cons s with
  | CIdle => True
  | CLoaded _head _tail => _head = s_head s ∧ _tail = u64 (Z.of_nat (seen_pushes s))
  | CCopied out _head => _head = s_head s ∧ (length (popped s) < seen_pushes s)%nat ∧
                         pushed s !! length (popped s) = Some out
  end.

Record spsc_inv (s : qstate) : Prop := {
  sv_head : s_head s = u64 (Z.of_nat (length (popped s)));
  sv_tail : s_tail s = u64 (Z.of_nat (length (pushed s)));
  sv_array : Z.of_nat (length (s_array s)) = size;
  sv_views : (seen_pops s ≤ length (popped s) ∧ length (popped s) ≤ seen_pushes s ∧
              seen_pushes s ≤ length (pushed s))%nat;
  sv_room : Z.of_nat (length (in_array s)) < Z.of_nat (seen_pops s) + size;
  sv_prefix : popped s `prefix_of` pushed s;
  sv_slots : slots size (Z.of_nat (length (popped s))) (s_array s)
               (drop (length (popped s)) (in_array s));
  sv_prod : producer_inv s;
  sv_cons : consumer_inv s
}.

Lemma spsc_inv_init arr : Z.of_nat (length arr) = size → spsc_inv (spsc_init arr).
Proof. intros Ha. pose proof size_bounds. split; try done; simpl; lia. Qed.

Ltac qcbn := cbn [s_head s_tail s_array s_prod s_cons pushed popped seen_pops seen_pushes
  in_array producer_inv consumer_inv] in *.

(** The copy of a new item does not touch an occupied cell. *)
Lemma push_write_inv hd tl arr c pu po sp sc msg _head _tail :
  is_full _head _tail = false →
  spsc_inv (mkQ hd tl arr (PLoaded msg _head _tail) c pu po sp sc) →
  spsc_inv (mkQ hd tl (<[Z.to_nat (cell _tail) := msg]> arr) (PWritten msg _tail) c pu po sp sc).
Proof.
  intros Hf [Hh Ht Ha Hv Hr Hp Hs Hpr Hco]. qcbn. unfold producer_inv, in_array in *. qcbn.
  destruct Hpr as [-> ->]. pose proof size_bounds. rewrite Ht, is_full_spec in Hf by lia.
  apply Z.eqb_neq in Hf.
  split; qcbn; rewrite ?length_insert, ?length_app; cbn [length]; try done; try lia.
  unfold in_array. qcbn. rewrite Ht, cell_u64, drop_app_le by lia.
  replace (Z.of_nat (length pu)) with (Z.of_nat (length po) + Z.of_nat (length (drop (length po) pu)))
    by (rewrite length_drop; lia).
  apply slots_push; try done; rewrite ?length_drop; lia.
Qed.

Lemma pop_copy_inv hd tl arr p pu po sp sc _head _tail out :
  (_tail =? _head) = false → arr !! Z.to_nat (cell _head) = Some out →
  spsc_inv (mkQ hd tl arr p (CLoaded _head _tail) pu po sp sc) →
  spsc_inv (mkQ hd tl arr p (CCopied out _head) pu po sp sc).
Proof.
  intros He Hout [Hh Ht Ha Hv Hr Hp Hs Hpr Hco]. qcbn. unfold consumer_inv, in_array in *. qcbn.
  destruct Hco as [-> ->]. pose proof size_bounds.
  assert (Z.of_nat (length pu) < Z.of_nat sp + size).
  { destruct p; rewrite ?length_app in Hr; simpl in Hr; lia. }
  rewrite Hh, is_empty_spec in He by lia. apply Z.eqb_neq in He.
  split; qcbn; try done. unfold consumer_inv. qcbn. split_and!; [done|lia|].
  destruct (lookup_lt_is_Some_2 pu (length po)) as [y Hy]; [lia|]. rewrite Hy, <- Hout, Hh, cell_u64.
  symmetry. rewrite <- (Z.add_0_r (Z.of_nat (length po))). apply (Hs 0%nat).
  rewrite lookup_drop, Nat.add_0_r. destruct p; [done..|]. by apply lookup_app_l_Some.
Qed.

Lemma pop_store_inv hd tl arr p pu po sp sc out _head :
  spsc_inv (mkQ hd tl arr p (CCopied out _head) pu po sp sc) →
  spsc_inv (mkQ (u64 (_head + 1)) tl arr p CIdle pu (po ++ [out]) sp sc).
Proof.
  intros [Hh Ht Ha Hv Hr Hp Hs Hpr Hco]. qcbn. unfold consumer_inv, in_array in *. qcbn.
  destruct Hco as (-> & Hlt & Hout). split; qcbn; rewrite ?length_app; cbn [length]; try done; try lia.
  - rewrite Hh, u64_succ. f_equal. lia.
  - destruct Hp as [l ->]. rewrite lookup_app_r, Nat.sub_diag in Hout by lia.
    destruct l as [|y l]; [done|]. simplify_eq/=. exists l. by rewrite <- app_assoc.
  - unfold in_array. qcbn. set (w := match p with PWritten msg _ => pu ++ [msg] | _ => pu end) in *.
    assert (w !! length po = Some out) as Hw by (destruct p; [done..|]; by apply lookup_app_l_Some).
    rewrite (drop_S _ _ _ Hw) in Hs. apply slots_pop in Hs as [_ Hs].
    replace (length po + 1)%nat with (S (length po)) by lia.
    by replace (Z.of_nat (S (length po))) with (Z.of_nat (length po) + 1) by lia.
Qed.

Lemma spsc_step_inv s s' : spsc_inv s → spsc_step s s' → spsc_inv s'.
Proof.
  intros Hs Hst. destruct Hst.
  - destruct Hs as [Hh Ht Ha Hv Hr Hp Hsl Hpr Hco]. split; qcbn; try done; try lia.
  - destruct Hs. by split.
  - by eapply push_write_inv.
  - destruct Hs as [Hh Ht Ha Hv Hr Hp Hsl Hpr Hco]. unfold in_array, producer_inv, consumer_inv in *. qcbn.
    subst _tail. split; qcbn; rewrite ?length_app; cbn [length]; try done; try lia.
    + rewrite Ht, u64_succ. f_equal. lia.
    + rewrite length_app in Hr. simpl in Hr. lia.
    + by apply prefix_app_r.
    + unfold consumer_inv. qcbn. destruct c; [done..|]. destruct Hco as (? & ? & ?).
      split_and!; [done..|]. by apply lookup_app_l_Some.
  - destruct Hs as [Hh Ht Ha Hv Hr Hp Hsl Hpr Hco]. split; qcbn; try done; lia.
  - destruct Hs. by split.
  - by eapply pop_copy_inv.
  - by eapply pop_store_inv.
Qed.

Lemma spsc_reachable_inv arr s :
  Z.of_nat (length arr) = size → spsc_reachable arr s → spsc_inv s.
Proof.
  intros Ha Hr. remember (spsc_init arr) as s0 eqn:Hs0.
  assert (spsc_inv s0) as H0 by (subst; by apply spsc_inv_init). unfold spsc_reachable in Hr.
  rewrite <- Hs0 in Hr. clear Hs0. induction Hr as [|s0 s1 s Hst _ IH]; [done|].
  apply IH. by eapply spsc_step_inv.
Qed.

End spsc.

Arguments PIdle {T}.
Arguments PLoaded {T} _ _ _.
Arguments PWritten {T} _ _.
Arguments CIdle {T}.
Arguments CLoaded {T} _ _.
Arguments CCopied {T} _ _.
Arguments mkQ {T} _ _ _ _ _ _ _ _ _.
Arguments s_head {T} _.
Arguments s_tail {T} _.
Arguments s_array {T} _.
Arguments s_prod {T} _.
Arguments s_cons {T} _.
Arguments pushed {T} _.
Arguments popped {T} _.

(** * The interface *)

(** The sizes the program uses. *)
Class QueueSize (size : Z) := { qs_log : Z; qs_pow : size = 2 ^ qs_log; qs_range : 1 <= qs_log <= 32 }.

#[export] Instance queue_buffer_size_ok : QueueSize queue_buffer_size.
Proof. refine {| qs_log := 20 |}; [done|lia]. Defined.
#[export] Instance mem_regions_ok : QueueSize mem_regions.
Proof. refine {| qs_log := 5 |}; [done|lia]. Defined.

#[export] Instance spsc_fifo {T} size `{!QueueSize size} : FifoQueue (spsc_queue T) T | 10.
Proof.
  refine {| fq_push := spsc_push size; fq_pop := spsc_pop size; fq_bound := size - 1;
            fq_rep := λ q l, ∃ h, spsc_rep size h q l |}.
  - intros q l x [h Hq] Hl. pose proof (spsc_push_ok size _ qs_pow qs_range h q l x Hq) as Hp.
    rewrite (proj2 (Z.eqb_neq _ _)) in Hp by lia. destruct Hp as (q' & ? & ?). eauto.
  - intros q l x [h Hq] Hl. pose proof (spsc_push_ok size _ qs_pow qs_range h q l x Hq) as Hp.
    by rewrite (proj2 (Z.eqb_eq _ _)) in Hp by lia.
  - intros q x l [h Hq]. destruct (spsc_pop_ok size _ qs_pow qs_range h q (x :: l) Hq) as (q' & ? & ?). eauto.
  - intros q [h Hq]. apply (spsc_pop_ok size _ qs_pow qs_range h q [] Hq).
  - intros q l [h Hq]. pose proof (sr_room _ _ _ _ Hq). lia.
Defined.

(** [spsc_queue] is a FIFO of [size-1] items at every moment of its life:
    also when its 64-bit counters are about to wrap around, the items pushed
    into an empty queue come out once and in order, up to the bound. *)
Theorem spsc_roundtrip {T} size `{!QueueSize size} (h : nat) (q : spsc_queue T) xs :
  spsc_rep size h q [] →
  ∃ q1 q2, push_all (FQ:=spsc_fifo size) xs q = Some (drop (Z.to_nat (size - 1)) xs, q1) ∧
    pop_all (FQ:=spsc_fifo size) (length xs) q1 = Some (take (Z.to_nat (size - 1)) xs, q2) ∧
    ∃ h', spsc_rep size h' q2 [].
Proof. intros Hq. apply (push_pop_all (FQ:=spsc_fifo size) xs). by exists h. Qed.

(** Both counters at [2^64 - 1]. *)
Lemma spsc_roundtrip_witness :
  ∃ q1 q2, push_all (FQ:=spsc_fifo mem_regions) [1; 2; 3]
             (mkSpsc UINT64_MAX UINT64_MAX (replicate 32 0)) = Some ([], q1) ∧
    pop_all (FQ:=spsc_fifo mem_regions) 3 q1 = Some ([1; 2; 3], q2) ∧ ∃ h', spsc_rep mem_regions h' q2 [].
Proof.
  apply (spsc_roundtrip mem_regions (Z.to_nat UINT64_MAX) (mkSpsc UINT64_MAX UINT64_MAX (replicate 32 0)) [1; 2; 3]).
  split.
  - cbn [q_head]. rewrite Z2Nat.id by mach. reflexivity.
  - cbn [q_tail length]. rewrite Nat.add_0_r, Z2Nat.id by mach. reflexivity.
  - reflexivity.
  - reflexivity.
  - apply slots_nil.
Defined.

(** C8: No interleaving of the producer and the consumer loses, duplicates or
    reorders an item: in every reachable state the items popped are a prefix
    of the items pushed, and at most [size-1] lie between. *)
Theorem spsc_concurrent_fifo {T} size `{!QueueSize size} (arr : list T) s :
  Z.of_nat (length arr) = size → spsc_reachable size arr s →
  popped s `prefix_of` pushed s ∧
  Z.of_nat (length (pushed s)) - Z.of_nat (length (popped s)) <= size - 1.
Proof.
  intros Ha Hr. destruct (spsc_reachable_inv size _ qs_pow qs_range arr s Ha Hr)
    as [_ _ _ Hv Hroom Hp _ _ _].
  split; [done|]. unfold in_array in Hroom.
  destruct (s_prod s); rewrite ?length_app in Hroom; simpl in Hroom; lia.
Qed.

(** The threads never touch the same cell at the same time: when the
    producer is about to write its item and the consumer is about to copy
    one, the two cells differ, and both are inside the array. *)
Theorem spsc_race_free {T} size `{!QueueSize size} (arr : list T) s msg ph pt ch ct :
  Z.of_nat (length arr) = size → spsc_reachable size arr s →
  s_prod s = PLoaded msg ph pt → is_full size ph pt = false →
  s_cons s = CLoaded ch ct → (ct =? ch) = false →
  cell size pt ≠ cell size ch ∧
  0 <= cell size pt < Z.of_nat (length (s_array s)) ∧ 0 <= cell size ch < Z.of_nat (length (s_array s)).
Proof.
  intros Ha Hr Hp Hf Hc He.
  pose proof (spsc_reachable_inv size _ qs_pow qs_range arr s Ha Hr)
    as [Hh Ht Harr Hv Hroom _ _ Hpi Hci].
  unfold producer_inv, consumer_inv, in_array in *. rewrite Hp in *. rewrite Hc in *.
  destruct Hpi as [-> ->]. destruct Hci as [-> ->].
  pose proof (size_bounds size _ qs_pow qs_range).
  rewrite Hh, (is_empty_spec size _ qs_pow qs_range) in He by lia. apply Z.eqb_neq in He.
  rewrite Ht, (is_full_spec size _ qs_pow qs_range) in Hf by lia. apply Z.eqb_neq in Hf.
  rewrite Harr. split; [|by split; eapply (cell_range size _ qs_pow qs_range)].
  rewrite Ht, Hh, !(cell_u64 size _ qs_pow qs_range). apply not_eq_sym, slot_neq; lia.
Qed.

(** A run on a queue of 32: one item pushed, then a push and a pop at once. *)
Definition racing_state : qstate (T:=Z) :=
  mkQ 0 1 (<[0%nat := 5]> (replicate 32 0)) (PLoaded 6 0 1) (CLoaded 0 1) [5] [] 0 1.

Lemma racing_reachable : spsc_reachable mem_regions (replicate 32 0) racing_state.
Proof.
  eapply rtc_l; [apply (push_load mem_regions _ _ _ _ _ _ _ _ 5 0); simpl; lia|].
  eapply rtc_l; [by apply push_write|].
  eapply rtc_l; [by apply push_store|].
  eapply rtc_l; [apply (push_load mem_regions _ _ _ _ _ _ _ _ 6 0); simpl; lia|].
  eapply rtc_l; [apply (pop_load mem_regions _ _ _ _ _ _ _ _ 1); simpl; lia|].
  apply rtc_refl.
Qed.

Lemma spsc_concurrent_fifo_witness : popped racing_state `prefix_of` pushed racing_state.
Proof.
  apply (spsc_concurrent_fifo mem_regions (replicate 32 0) racing_state); [reflexivity|].
  apply racing_reachable.
Defined.

Lemma spsc_race_free_witness : cell mem_regions 1 ≠ cell mem_regions 0.
Proof.
  apply (spsc_race_free mem_regions (replicate 32 0) racing_state 6 0 1 0 1); try reflexivity.
  apply racing_reachable.
Defined.
