(* ===== verification/Engine.v ===== *)
(** [GroupProcessor] and [MatchingEngineDispatcher] of
    src/producer_consumer.cpp: the matching loops of one engine group, the
    publication of trades, and the routing of orders to groups.

    The group thread owns the books and the producer end of its trade ring;
    the memory behind the ring and the [MarketState] of last traded prices
    are shared with other processes, so they are explicit parts of the state. *)

From stdpp Require Import sorting.
From S2P Require Import Prelude Types Heap MemPool PriceTime OrderBook BookInv TradeRing RingBuffer.

(** * State *)

Record GroupProcessor := mkGroup {
  bookmanager : option OrderBookManager;
  trade_buffer : trade_ring_buffer;
  trade_mem : ring_mem;
  group_queue : RingBuffer Order;
  next_trade_id : Z;
  group_no : Z;
  terminate_flag : bool;
  is_running_flag : bool
}.

(** [shared_data::MarketState]: the array [last_price]. *)
Abbreviation MarketState := (list Z).

Definition set_bookmanager (m : OrderBookManager) (g : GroupProcessor) : GroupProcessor :=
  mkGroup (Some m) (trade_buffer g) (trade_mem g) (group_queue g) (next_trade_id g)
    (group_no g) (terminate_flag g) (is_running_flag g).
Definition set_ring (h : trade_ring_buffer) (mem : ring_mem) (g : GroupProcessor) : GroupProcessor :=
  mkGroup (bookmanager g) h mem (group_queue g) (next_trade_id g)
    (group_no g) (terminate_flag g) (is_running_flag g).
Definition set_group_queue (q : RingBuffer Order) (g : GroupProcessor) : GroupProcessor :=
  mkGroup (bookmanager g) (trade_buffer g) (trade_mem g) q (next_trade_id g)
    (group_no g) (terminate_flag g) (is_running_flag g).
Definition set_next_trade_id (i : Z) (g : GroupProcessor) : GroupProcessor :=
  mkGroup (bookmanager g) (trade_buffer g) (trade_mem g) (group_queue g) i
    (group_no g) (terminate_flag g) (is_running_flag g).
Definition set_flags (t r : bool) (g : GroupProcessor) : GroupProcessor :=
  mkGroup (bookmanager g) (trade_buffer g) (trade_mem g) (group_queue g) (next_trade_id g)
    (group_no g) t r.

(** The default-constructed [Order] that fills a new queue. *)
Definition Order_default : Order := mkOrder 0 MARKET 0 0 0 BUY 0 0 0.

(** [mem] is the shared memory of the group's ring as the producer finds it. *)
Definition GroupProcessor_new (group_no queue_capacity : Z) (mem : ring_mem) : GroupProcessor :=
  mkGroup None (trade_ring_buffer_new true) mem (RingBuffer_new Order_default queue_capacity)
    1 group_no false false.

Definition setup_book_manager (g : GroupProcessor) : GroupProcessor :=
  set_bookmanager (OrderBookManager_new (Z.shiftl 1 SYMBOL_BITS)) g.

Definition terminate (g : GroupProcessor) : GroupProcessor := set_flags true (is_running_flag g) g.
Definition is_running (g : GroupProcessor) : bool := is_running_flag g.

Definition enqueue_order (o : Order) (g : GroupProcessor) : option (bool * GroupProcessor) :=
  '(ok, q) ← push o (group_queue g);
  Some (ok, set_group_queue q g).

(** * Publishing *)

Definition publish_trade (t : Trade) (g : GroupProcessor) : GroupProcessor :=
  let '(h, mem) := add_trade t (trade_buffer g) (trade_mem g) in
  set_ring h mem g.

(** What the matching functions work on: the book they hold a reference to,
    the group and the shared prices. *)
Record desk := mkDesk { d_book : OrderBook; d_group : GroupProcessor; d_prices : MarketState }.

Definition set_d_book (b : OrderBook) (d : desk) : desk := mkDesk b (d_group d) (d_prices d).

(** The trade between the incoming [order] and [resting] of side [s]. *)
Definition trade_with (s : OrderType) (order resting : Order) (id price qty : Z) : Trade :=
  match s with
  | SELL => mkTrade id (o_timestamp order) price (o_client_order_id order)
              (o_client_order_id resting) (o_symbol_id order) qty
  | BUY => mkTrade id (o_timestamp order) price (o_client_order_id resting)
             (o_client_order_id order) (o_symbol_id order) qty
  end.

(** [publish_trade({.trade_id = next_trade_id++, ...})] followed by the store
    of the last traded price. *)
Definition execute (s : OrderType) (order resting : Order) (price qty : Z) (d : desk) : desk :=
  let g := d_group d in
  let t := trade_with s order resting (next_trade_id g) price qty in
  mkDesk (d_book d) (publish_trade t (set_next_trade_id (u64 (next_trade_id g + 1)) g))
    (<[Z.to_nat (Z.land (o_symbol_id order) SYMBOL_MASK) := price]> (d_prices d)).

(** * Matching

    The loops of the four functions are the same up to the side [s] that is
    matched against and the last conjunct [cond] of the loop condition.  The
    price index, an [int] stored in an unsigned variable, is passed to a
    parameter of type [int], so it arrives unchanged.  [None] as the order
    returned means that the function returned from inside the loop; [None]
    as the result is undefined behaviour or fuel that ran out. *)

Fixpoint match_loop (s : OrderType) (cond : OrderBook → Z → bool) (fuel : nat) (order : Order)
  (best_price : Z) (d : desk) : option (option Order * desk) :=
  let b := d_book d in
  if (0 <? o_quantity order) && (0 <? total_of s b) && cond b best_price then
    match fuel with
    | O => None
    | S fuel =>
        let price_index := priceToIndex b best_price in
        lvl ← getpricelevels b price_index;
        hd ← gethead lvl (pool b);
        let resting := n_order hd in
        if o_quantity order <? o_quantity resting then
          let d := execute s order resting best_price (o_quantity order) d in
          let new_quantity := u32 (o_quantity resting - o_quantity order) in
          '(_, b) ← modifyQuantity best_price new_quantity b;
          Some (None, set_d_book (decrease_total s (o_quantity order) b) d)
        else
          let traded_quantity := o_quantity resting in
          let d := execute s order resting best_price traded_quantity d in
          let order := set_quantity (u32 (o_quantity order - traded_quantity)) order in
          '(_, b) ← remove_order s best_price b;
          '(best_price, b) ← bestprice s b;
          match_loop s cond fuel order best_price (set_d_book b d)
    end
  else Some (Some order, d).

(** One pool node can be freed per round. *)
Definition match_fuel (b : OrderBook) : nat := length (nodes (pool b)).

(** The body of a [process_] function, on the book of [order]'s symbol, which
    is written back when the function returns. *)
Definition with_book (order : Order) (f : desk → option desk) (st : GroupProcessor * MarketState)
  : option (GroupProcessor * MarketState) :=
  let '(g, ltp) := st in
  m ← bookmanager g;
  let i := Z.land (o_symbol_id order) SYMBOL_MASK in
  b ← get m i;
  d ← f (mkDesk b g ltp);
  Some (set_bookmanager (put m i (d_book d)) (d_group d), d_prices d).

(** [if(order.quantity > 0) book.add...Order(order);] at the end. *)
Definition rest_remainder (s : OrderType) (order : option Order) (d : desk) : option desk :=
  match order with
  | Some order =>
      if 0 <? o_quantity order
      then '(_, b) ← add_order s order (d_book d); Some (set_d_book b d)
      else Some d
  | None => Some d
  end.

Definition process_buy (order : Order) : GroupProcessor * MarketState → option (GroupProcessor * MarketState) :=
  with_book order (λ d,
    let b := d_book d in
    '(unmatched, b) ←
      (if getTotalSellQty b =? 0 then Some (true, b)
       else '(p, b) ← bestsellprice b; Some (o_price order <? p, b));
    if unmatched : bool then
      '(_, b) ← addBuyOrder order b; Some (set_d_book b d)
    else
      '(best_price, b) ← bestsellprice b;
      '(rem, d) ← match_loop SELL (λ _ best_price, best_price <=? o_price order) (match_fuel b)
                     order best_price (set_d_book b d);
      rest_remainder BUY rem d).

Definition process_sell (order : Order) : GroupProcessor * MarketState → option (GroupProcessor * MarketState) :=
  with_book order (λ d,
    let b := d_book d in
    '(unmatched, b) ←
      (if getTotalBuyQty b =? 0 then Some (true, b)
       else '(p, b) ← bestbuyprice b; Some (p <? o_price order, b));
    if unmatched : bool then
      '(_, b) ← addSellOrder order b; Some (set_d_book b d)
    else
      '(best_price, b) ← bestbuyprice b;
      '(rem, d) ← match_loop BUY (λ _ best_price, o_price order <=? best_price) (match_fuel b)
                     order best_price (set_d_book b d);
      rest_remainder SELL rem d).

Definition process_market_buy (order : Order) : GroupProcessor * MarketState → option (GroupProcessor * MarketState) :=
  with_book order (λ d,
    if getTotalSellQty (d_book d) =? 0 then Some d
    else
      '(best_price, b) ← bestsellprice (d_book d);
      '(_, d) ← match_loop SELL isPriceValid (match_fuel b) order best_price (set_d_book b d);
      Some d).

Definition process_market_sell (order : Order) : GroupProcessor * MarketState → option (GroupProcessor * MarketState) :=
  with_book order (λ d,
    if getTotalBuyQty (d_book d) =? 0 then Some d
    else
      '(best_price, b) ← bestbuyprice (d_book d);
      '(_, d) ← match_loop BUY isPriceValid (match_fuel b) order best_price (set_d_book b d);
      Some d).

Definition is_market (o : Order) : bool := bool_decide (o_execution_type o = MARKET).

Definition process_order (order : Order) (st : GroupProcessor * MarketState)
  : option (GroupProcessor * MarketState) :=
  m ← bookmanager st.1;
  book ← get m (Z.land (o_symbol_id order) SYMBOL_MASK);
  if is_market order then
    match o_type order with
    | BUY => process_market_buy order st
    | SELL => process_market_sell order st
    end
  else if negb (isPriceValid book (o_price order)) then Some st
  else
    match o_type order with
    | BUY => process_buy order st
    | SELL => process_sell order st
    end.

(** The store with which [start_group_thread] begins. *)
Definition mark_running (g : GroupProcessor) : GroupProcessor := set_flags (terminate_flag g) true g.

(** One iteration of the loop of [start_group_thread]. *)
Definition group_thread_step (st : GroupProcessor * MarketState)
  : option (GroupProcessor * MarketState) :=
  let '(g, ltp) := st in
  if terminate_flag g then Some st
  else
    '(item, q) ← pop (group_queue g);
    let g := set_group_queue q g in
    match item with
    | Some cur_order => process_order cur_order (g, ltp)
    | None => Some (g, ltp)
    end.

(** * The dispatcher *)

Record MatchingEngineDispatcher := mkDispatcher {
  groups : list GroupProcessor;
  disp_terminate_flag : bool;
  disp_is_running_flag : bool;
  last_price : MarketState
}.

Definition MatchingEngineDispatcher_new (capacity : Z) (mems : list ring_mem) : MatchingEngineDispatcher :=
  mkDispatcher
    ((λ i, GroupProcessor_new (Z.of_nat i) capacity (default ∅ (mems !! i))) <$> seq 0 (Z.to_nat GROUP_COUNT))
    false false (replicate (Z.to_nat MAX_SYMBOLS) 0).

Definition set_groups (gs : list GroupProcessor) (d : MatchingEngineDispatcher) : MatchingEngineDispatcher :=
  mkDispatcher gs (disp_terminate_flag d) (disp_is_running_flag d) (last_price d).

Definition disp_terminate (d : MatchingEngineDispatcher) : MatchingEngineDispatcher :=
  mkDispatcher (terminate <$> groups d) true (disp_is_running_flag d) (last_price d).

Definition all_groups_running (d : MatchingEngineDispatcher) : bool :=
  foldl (λ r g, r && is_running g) true (groups d) && disp_is_running_flag d.

(** [start], up to the joins: all group threads have begun. *)
Definition start (d : MatchingEngineDispatcher) : MatchingEngineDispatcher :=
  mkDispatcher (mark_running <$> groups d) (disp_terminate_flag d) true (last_price d).

(** The group an order is routed to; [group] is an [int] compared with a
    [size_t]. *)
Definition route (d : MatchingEngineDispatcher) (order : Order) : Z :=
  let group := s32 (Z.shiftr (o_symbol_id order) SYMBOL_BITS mod GROUP_COUNT) in
  if Z.of_nat (length (groups d)) <=? u64 group then 0 else group.

(** One attempt of the spin loop of [dispatch_order]. *)
Definition try_dispatch (order : Order) (d : MatchingEngineDispatcher)
  : option (bool * MatchingEngineDispatcher) :=
  let i := Z.to_nat (route d order) in
  g ← groups d !! i;
  '(ok, g) ← enqueue_order order g;
  Some (ok, set_groups (<[i := g]> (groups d)) d).

(** One iteration of the thread of group [i]. *)
Definition run_group (i : nat) (d : MatchingEngineDispatcher) : option MatchingEngineDispatcher :=
  g ← groups d !! i;
  '(g, ltp) ← group_thread_step (g, last_price d);
  Some (mkDispatcher (<[i := g]> (groups d)) (disp_terminate_flag d) (disp_is_running_flag d) ltp).

(** [dispatch_order] under a schedule: between two attempts the group threads
    named by the next element of [sched] run one iteration each.  The boolean
    tells whether the loop was left. *)
Fixpoint dispatch_order (sched : list (list nat)) (order : Order) (d : MatchingEngineDispatcher)
  : option (bool * MatchingEngineDispatcher) :=
  '(ok, d) ← try_dispatch order d;
  if ok : bool then Some (true, d)
  else
    match sched with
    | [] => Some (false, d)
    | ran :: sched =>
        d ← foldl (λ d i, d ← d; run_group i d) (Some d) ran;
        dispatch_order sched order d
    end.

(** [for(auto &group : groups) { ...; i++; }] *)
Fixpoint for_groups (f : Z → GroupProcessor → option GroupProcessor) (i : Z) (gs : list GroupProcessor)
  : option (list GroupProcessor) :=
  match gs with
  | [] => Some []
  | g :: gs => g ← f i g; gs ← for_groups f (i + 1) gs; Some (g :: gs)
  end.

(** [initialize_engine]: [mems] gives each book's pool block, which [malloc]
    returns with arbitrary content, and [junk] the uninitialised totals. *)
Definition add_books (mem : Z → option (list OrderNode)) (junk : Z → Z * Z) (overhead : Z)
  (lower_limits upper_limits : list Z) (m : OrderBookManager) : option OrderBookManager :=
  foldl (λ m symbol_id,
      m ← m;
      lo ← lower_limits !! Z.to_nat (overhead + symbol_id);
      hi ← upper_limits !! Z.to_nat (overhead + symbol_id);
      addBook m symbol_id (mem symbol_id) (junk symbol_id).1 (junk symbol_id).2 lo hi)
    (Some m) (seqZ 0 MAX_SYMBOLS).

(** The loop body: a manager for the group, then its books. *)
Definition init_group (mems : Z → Z → option (list OrderNode)) (junk : Z → Z → Z * Z)
  (lower_limits upper_limits : list Z) (i : Z) (g : GroupProcessor) : option GroupProcessor :=
  let g := setup_book_manager g in
  m ← bookmanager g;
  m ← add_books (mems i) (junk i) (Z.shiftl i SYMBOL_BITS) lower_limits upper_limits m;
  Some (set_bookmanager m g).

Definition initialize_engine (mems : Z → Z → option (list OrderNode)) (junk : Z → Z → Z * Z)
  (lower_limits upper_limits : list Z) (d : MatchingEngineDispatcher) : option MatchingEngineDispatcher :=
  gs ← for_groups (init_group mems junk lower_limits upper_limits) 0 (groups d);
  Some (set_groups gs d).

(** * Starting and stopping *)

Lemma started_running d : all_groups_running (start d) = true.
Proof.
  unfold all_groups_running, start. cbn [groups disp_is_running_flag]. rewrite andb_true_r.
  by induction (groups d).
Qed.

(** A terminated group takes no order from its queue, whatever is in it. *)
Lemma terminated_idle g ltp : group_thread_step (terminate g, ltp) = Some (terminate g, ltp).
Proof. done. Qed.

(** * The book as a pair of queues *)

(** [b] stores the two queues of [a]; the band and the pool size are fixed. *)
Record book_rep (lo hi : Z) (cap : nat) (b : OrderBook) (a : ABook) : Prop := {
  br_lower : lower_limit b = lo;
  br_upper : upper_limit b = hi;
  br_cap : match_fuel b = cap;
  br_inv : ∃ Lv fl, book_inv None b Lv fl ∧ ∀ s, queue s a = side_queue s (level_orders b Lv)
}.

Lemma filter_sides_length (l : list Order) :
  (length (filter (λ o, o_type o = BUY) l) + length (filter (λ o, o_type o = SELL) l) = length l)%nat.
Proof.
  induction l as [|o l IH]; [done|]. rewrite !filter_cons.
  destruct (o_type o) eqn:E; repeat case_decide; try congruence; cbn [length]; lia.
Qed.

Lemma side_queues_length L :
  (length (side_queue BUY L) + length (side_queue SELL L) = length (concat L))%nat.
Proof.
  unfold side_queue. rewrite <- (filter_sides_length (concat L)). f_equal.
  apply Permutation_length, filter_Permutation. simpl. by rewrite reverse_Permutation.
Qed.

Lemma level_orders_length b Lv fl :
  storage_inv b Lv fl → length (concat (level_orders b Lv)) = length (concat Lv).
Proof.
  intros Hst. assert (∀ l, l ∈ Lv → length (orders_at (nodes (pool b)) l) = length l) as Hl.
  { intros l Hl. eapply orders_at_length; [done|]. by apply list_elem_of_lookup. }
  clear Hst. unfold level_orders. induction Lv as [|l Lv IH]; [done|].
  rewrite fmap_cons. cbn [concat]. rewrite !length_app, IH, Hl; [done|left|].
  intros l' Hl'. apply Hl. by right.
Qed.

(** Every node of the pool is free or rests on one of the two sides. *)
Lemma free_count b Lv fl :
  storage_inv b Lv fl →
  (length fl + (length (side_queue BUY (level_orders b Lv))
                + length (side_queue SELL (level_orders b Lv))) = match_fuel b)%nat.
Proof.
  intros Hst. rewrite side_queues_length, (level_orders_length _ _ _ Hst).
  eapply pool_rep_length, Hst.
Qed.

(** * The matching loop *)

(** What publishing a list of fills of [order] does to the group and to the
    last traded price. *)
Definition after_fill (order : Order) (st : GroupProcessor * MarketState) (f : fill)
  : GroupProcessor * MarketState :=
  (publish_trade (trade_of order (next_trade_id st.1) f)
     (set_next_trade_id (u64 (next_trade_id st.1 + 1)) st.1),
   <[Z.to_nat (Z.land (o_symbol_id order) SYMBOL_MASK) := o_price f.1]> st.2).
Definition after_fills (order : Order) : list fill → GroupProcessor * MarketState → GroupProcessor * MarketState :=
  λ fs st, foldl (after_fill order) st fs.

Lemma after_fill_quantity order q st f : after_fill (set_quantity q order) st f = after_fill order st f.
Proof. unfold after_fill. by destruct f. Qed.

Lemma after_fills_quantity order q fs st :
  after_fills (set_quantity q order) fs st = after_fills order fs st.
Proof.
  unfold after_fills. revert st. induction fs as [|f fs IH]; intros st; [done|].
  cbn [foldl]. by rewrite after_fill_quantity, IH.
Qed.

Lemma execute_fill s order m q d :
  o_type order = opposite s →
  execute s order m (o_price m) q d =
  let st := after_fill order (d_group d, d_prices d) (m, q) in mkDesk (d_book d) st.1 st.2.
Proof. intros Ht. unfold execute, after_fill, trade_with, trade_of. rewrite Ht. by destruct s. Qed.

(** The head of the front level is the front of the side's queue. *)
Lemma front_head s b Lv fl o rest :
  book_inv None b Lv fl → side_queue s (level_orders b Lv) = o :: rest →
  ∃ lvl hd, getpricelevels b (priceToIndex b (o_price o)) = Some lvl ∧
    gethead lvl (pool b) = Some hd ∧ n_order hd = o.
Proof.
  intros Hb Hq. destruct (front_level _ _ _ _ _ _ Hb Hq) as (q & V1 & i & l & V2 & n & Hfa).
  exists q, n. rewrite (fa_index _ _ _ _ _ _ _ _ _ _ _ Hfa). split_and!; apply Hfa.
Qed.

Lemma bestprice_after_remove s p b Lv fl st :
  book_inv st b Lv fl → front_stale s p (level_orders b Lv) st →
  ∃ b', bestprice s b = Some (front_price s b (level_orders b Lv), b') ∧
        book_inv None b' Lv fl ∧ same_store b b'.
Proof.
  intros Hb [->|[-> Hbest]].
  - exists b. rewrite bestprice_eq, (bestprice_clean _ _ Lv fl) by done. split_and!; try done.
  - by apply (bestprice_stale s p).
Qed.

(** Emptiness of a side, as the loop conditions and the guards read it. *)
Lemma total_empty s b Lv fl :
  book_inv None b Lv fl →
  (0 <? total_of s b) = match side_queue s (level_orders b Lv) with [] => false | _ => true end ∧
  (total_of s b =? 0) = match side_queue s (level_orders b Lv) with [] => true | _ => false end.
Proof.
  intros Hb. rewrite (bi_total _ _ _ _ Hb). pose proof (bi_qty _ _ _ _ Hb) as Hq.
  assert (∀ x, x ∈ side_queue s (level_orders b Lv) → 0 < o_quantity x < 2 ^ 32) as Hpos.
  { intros x [Hx _]%elem_of_side_queue. by apply Hq. }
  pose proof (sum_quantity_bound _ Hpos). pose proof (sum_quantity_nonneg_zero _ Hpos) as Hz.
  destruct (side_queue s (level_orders b Lv)) as [|o l]; [done|].
  assert (sum_quantity (o :: l) ≠ 0) by (intros E; by apply Hz in E). split; zb.
Qed.

Section matching.
Context (s : OrderType) (cond : OrderBook → Z → bool) (ok : Z → bool) (order : Order) (lo hi : Z).
Context (Htype : o_type order = opposite s).
Context (Hcond : ∀ b p, lower_limit b = lo → upper_limit b = hi → lo <= p <= hi → cond b p = ok p).

(** The book after a matching loop that leaves the queue [r] on side [s]. *)
Record matched (b : OrderBook) (Lv : list (list nat)) (r : list Order)
  (b' : OrderBook) (Lv' : list (list nat)) (fl' : list nat) : Prop := {
  md_inv : book_inv None b' Lv' fl';
  md_lower : lower_limit b' = lower_limit b;
  md_upper : upper_limit b' = upper_limit b;
  md_cap : match_fuel b' = match_fuel b;
  md_queue : side_queue s (level_orders b' Lv') = r;
  md_other : side_queue (opposite s) (level_orders b' Lv') = side_queue (opposite s) (level_orders b Lv)
}.

Lemma matched_refl b Lv fl :
  book_inv None b Lv fl → matched b Lv (side_queue s (level_orders b Lv)) b Lv fl.
Proof. by split. Qed.

Lemma matched_cap b b' Lv Lv' fl fl' :
  storage_inv b Lv fl → storage_inv b' Lv' fl' →
  (length fl' + length (side_queue s (level_orders b' Lv'))
   = length fl + length (side_queue s (level_orders b Lv)))%nat →
  side_queue (opposite s) (level_orders b' Lv') = side_queue (opposite s) (level_orders b Lv) →
  match_fuel b' = match_fuel b.
Proof.
  intros Hb Hb' Hs Ho. rewrite <- (free_count _ _ _ Hb), <- (free_count _ _ _ Hb').
  apply (f_equal length) in Ho. destruct s; simpl in Ho; lia.
Qed.

(** A round that takes only part of the front order. *)
Lemma partial_round b Lv fl m rest q :
  book_inv None b Lv fl → side_queue s (level_orders b Lv) = m :: rest → 0 < q < o_quantity m →
  ∃ b1, modifyQuantity (o_price m) (u32 (o_quantity m - q)) b = Some (true, b1) ∧
    matched b Lv (set_quantity (o_quantity m - q) m :: rest) (decrease_total s q b1) Lv fl.
Proof.
  intros Hb Hq Hlt. destruct (reduce_front_ok s b Lv fl m rest q Hb Hq Hlt)
    as (b1 & Hrun & Hb1 & [Hlo Hup _ _] & _ & Hq1 & Ho1).
  assert (0 < o_quantity m < 2 ^ 32) as Hm.
  { apply (bi_qty _ _ _ _ Hb). apply (elem_of_side_queue s). rewrite Hq. left. }
  exists b1. rewrite u32_small by mach. split; [done|]. split; try done.
  eapply (matched_cap b _ Lv Lv fl fl); [apply Hb|apply Hb1| |done]. by rewrite Hq1, Hq.
Qed.

(** A round that consumes the front order. *)
Lemma full_round b Lv fl m rest :
  book_inv None b Lv fl → side_queue s (level_orders b Lv) = m :: rest →
  ∃ b1 b2 Lv' fl' p, remove_order s (o_price m) b = Some (true, b1) ∧ bestprice s b1 = Some (p, b2) ∧
    p = front_price s b2 (level_orders b2 Lv') ∧ matched b Lv rest b2 Lv' fl'.
Proof.
  intros Hb Hq. destruct (remove_front_ok s b Lv fl m rest Hb Hq)
    as (b1 & Lv' & i & st & Hrun & Hb1 & [Hlo Hup _ _] & _ & Hst & Hq1 & Ho1).
  destruct (bestprice_after_remove _ _ _ _ _ _ Hb1 Hst) as (b2 & Hbest & Hb2 & [Hpool Hlo2 Hup2]).
  pose proof (same_store_level_orders b1 b2 Lv' Hpool) as HL.
  exists b1, b2, Lv', (i :: fl), (front_price s b1 (level_orders b1 Lv')). split_and!; try done.
  - unfold front_price. rewrite HL.
    rewrite !(si_defaults _ _ _ (bi_storage _ _ _ _ Hb1)), !(si_defaults _ _ _ (bi_storage _ _ _ _ Hb2)).
    by rewrite Hlo2, Hup2.
  - assert (side_queue (opposite s) (level_orders b2 Lv') = side_queue (opposite s) (level_orders b Lv))
      as Ho2 by by rewrite HL.
    split; try done; try congruence.
    eapply (matched_cap b b2 Lv Lv' fl (i :: fl)); [apply Hb|apply Hb2| |done].
    rewrite HL, Hq1, Hq. cbn [length]. lia.
Qed.

(** What the loop hands back: an order to rest, or nothing. *)
Definition remainder (q' : Z) (rem : option Order) : Prop :=
  match rem with Some o => o = set_quantity q' order | None => q' = 0 end.

Lemma match_loop_ok fuel : ∀ q best b Lv fl st fs q' r,
  book_inv None b Lv fl → lower_limit b = lo → upper_limit b = hi → 0 <= q < 2 ^ 32 →
  best = front_price s b (level_orders b Lv) →
  (length (side_queue s (level_orders b Lv)) ≤ fuel)%nat →
  amatch ok q (side_queue s (level_orders b Lv)) = (fs, q', r) →
  ∃ rem b' Lv' fl',
    match_loop s cond fuel (set_quantity q order) best (mkDesk b st.1 st.2)
    = Some (rem, mkDesk b' (after_fills order fs st).1 (after_fills order fs st).2) ∧
    matched b Lv r b' Lv' fl' ∧ remainder q' rem.
Proof.
  induction fuel as [|fuel IH]; intros q best b Lv fl st fs q' r Hb Hlo Hhi Hq Hbest Hfuel Hm;
    cbn [match_loop d_book set_quantity o_quantity]; rewrite (proj1 (total_empty s b Lv fl Hb));
    destruct (side_queue s (level_orders b Lv)) as [|m rest] eqn:Hsq.
  - simpl in Hm. simplify_eq. rewrite andb_false_r. simpl.
    exists (Some (set_quantity q' order)), b, Lv, fl. split_and!; try done.
  - simpl in Hfuel. lia.
  - simpl in Hm. simplify_eq. rewrite andb_false_r. simpl.
    exists (Some (set_quantity q' order)), b, Lv, fl. split_and!; try done.
  - assert (o_price m ∈ (o_price <$> side_queue s (level_orders b Lv))) as Hin by (rewrite Hsq; left).
    assert (cond b best = ok best ∧ best = o_price m) as [Hc Hbm].
    { subst best. unfold front_price. rewrite Hsq. split; [|done]. apply Hcond; [done..|].
      rewrite <- Hlo, <- Hhi. eapply price_in_band; [apply Hb|done]. }
    rewrite Hc, Hbm, andb_true_r. simpl in Hm.
    destruct ((0 <? q) && ok (o_price m)) eqn:Hgo.
    2: { simplify_eq. exists (Some (set_quantity q' order)), b, Lv, fl. split_and!; try done.
         }
    destruct (front_head s b Lv fl m rest Hb Hsq) as (lvl & hd & Hlvl & Hhd & Hno).
    rewrite Hlvl. cbn [mbind option_bind]. rewrite Hhd. cbn [mbind option_bind]. rewrite Hno. clear hd Hlvl Hhd Hno.
    destruct (q <? o_quantity m) eqn:Hlt.
    + simplify_eq.
      destruct (partial_round b Lv fl m rest q Hb Hsq) as (b1 & Hrun & Hmd); [zb|].
      rewrite Hrun. cbn [mbind option_bind]. exists None, (decrease_total s q b1), Lv, fl.
      rewrite execute_fill by done. rewrite after_fill_quantity. by destruct st.
    + destruct (amatch ok (q - o_quantity m) rest) as [[fs0 q0] r0] eqn:Hm0. simplify_eq.
      destruct (full_round b Lv fl m rest Hb Hsq) as (b1 & b2 & Lv' & fl' & p & Hrun & Hbp & Hp & Hmd).
      rewrite Hrun. cbn [mbind option_bind]. rewrite Hbp. cbn [mbind option_bind].
      assert (0 < o_quantity m < 2 ^ 32) as Hmq.
      { apply (bi_qty _ _ _ _ Hb). apply (elem_of_side_queue s). rewrite Hsq. left. }
      rewrite (u32_small (q - o_quantity m)) by (zbool; mach).
      destruct Hmd as [Hb2 Hlo2 Hhi2 Hcap Hq2 Ho2].
      destruct (IH (q - o_quantity m) p b2 Lv' fl'
                  (after_fill order st (m, o_quantity m)) fs0 q' r)
        as (rem & b' & Lv'' & fl'' & Hrun' & [Hb' Hlo' Hhi' Hcap' Hq' Ho'] & Hrem);
        try congruence; try (zbool; lia).
      { rewrite Hq2. simpl in Hfuel. lia. }
      exists rem, b', Lv'', fl''. split_and!; [|split; congruence|done].
      rewrite execute_fill by done. rewrite after_fill_quantity.
      destruct st as [g ltp]. exact Hrun'.
Qed.

End matching.

(** * Resting what is left *)

Lemma resting_length s a : length (resting a) = (length (queue s a) + length (queue (opposite s) a))%nat.
Proof. unfold resting. rewrite length_app. destruct s; simpl; lia. Qed.

Lemma elem_of_resting s a x : x ∈ resting a ↔ x ∈ queue s a ∨ x ∈ queue (opposite s) a.
Proof. unfold resting. rewrite elem_of_app. destruct s; simpl; naive_solver. Qed.

Lemma room_free cap b Lv fl a :
  storage_inv b Lv fl → match_fuel b = cap → (∀ s, queue s a = side_queue s (level_orders b Lv)) →
  room cap a = match fl with [] => false | _ => true end.
Proof.
  intros Hst <- Ha. unfold room. rewrite (resting_length BUY), !Ha, <- (free_count _ _ _ Hst).
  cbn [opposite]. destruct fl; cbn [length].
  - apply bool_decide_eq_false_2. lia.
  - apply bool_decide_eq_true_2. lia.
Qed.

(** The order map knows exactly the resting orders. *)
Lemma fresh_id b Lv fl id :
  storage_inv b Lv fl → (∀ x, x ∈ concat (level_orders b Lv) → o_order_id x ≠ id) →
  orderMap b !! id = None.
Proof.
  intros Hst Hf. apply eq_None_not_Some. intros [idx Hidx].
  apply (si_map _ _ _ Hst) in Hidx as (i & o & Hi & Ho & Hid & _).
  eapply Hf; [|done]. apply elem_level_orders. eauto.
Qed.

Lemma queue_set_queue s s' l a : queue s (set_queue s' l a) = if decide (s = s') then l else queue s a.
Proof. by destruct s, s'. Qed.

Lemma rest_ok s o lo hi cap b a :
  book_rep lo hi cap b a → o_type o = s → lo <= o_price o <= hi → 0 < o_quantity o < 2 ^ 32 →
  (∀ x, x ∈ resting a → o_order_id x ≠ o_order_id o) →
  (∀ x, x ∈ queue (opposite s) a → within_limit (opposite s) (o_price o) (o_price x) = false) →
  ∃ ok b', add_order s o b = Some (ok, b') ∧
    book_rep lo hi cap b'
      (if room cap a then set_queue s (insert_prio s o (queue s a)) a else a).
Proof.
  intros [Hlo Hhi Hcap (Lv & fl & Hb & Ha)] Ht Hp Hq Hfresh Hcross.
  pose proof (bi_storage _ _ _ _ Hb) as Hst.
  rewrite (room_free _ _ _ _ _ Hst Hcap Ha). destruct fl as [|i fl].
  - exists false, b. rewrite (add_order_full s o b Lv Hst) by lia. split; [done|]. split; try done. eauto.
  - assert (orderMap b !! o_order_id o = None) as Hno.
    { eapply fresh_id; [done|]. intros x Hx. apply Hfresh. apply (elem_of_resting (o_type x)).
      left. rewrite Ha. by apply elem_of_side_queue. }
    destruct (add_order_ok s o b Lv i fl) as (b' & Lv' & Hrun & Hb' & [Hlo' Hhi' _ _] & _ & Hs & Hos);
      try done; try lia.
    { intros x Hx. apply Hcross. by rewrite Ha. }
    exists true, b'. split; [done|]. split; try congruence.
    + rewrite <- Hcap. rewrite <- (free_count _ _ _ Hst), <- (free_count _ _ _ (bi_storage _ _ _ _ Hb')).
      apply (f_equal length) in Hs. rewrite insert_prio_perm in Hs. cbn [length] in *.
      apply (f_equal length) in Hos. destruct s; simpl in *; lia.
    + exists Lv', fl. split; [done|]. intros s'. rewrite queue_set_queue, Ha.
      case_decide as Hs'; [by subst s'|]. rewrite Ha.
      assert (s' = opposite s) as -> by (destruct s, s'; done). done.
Qed.

(** * The four matching functions against the contract *)

(** [process_buy] and [process_sell] uniformly in the side of the order. *)
Definition limit_body (s : OrderType) (order : Order) (d : desk) : option desk :=
  let b := d_book d in
  '(unmatched, b) ←
    (if total_of (opposite s) b =? 0 then Some (true, b)
     else '(p, b) ← bestprice (opposite s) b;
          Some (match s with BUY => o_price order <? p | SELL => p <? o_price order end, b));
  if unmatched : bool then
    '(_, b) ← add_order s order b; Some (set_d_book b d)
  else
    '(best_price, b) ← bestprice (opposite s) b;
    '(rem, d) ← match_loop (opposite s) (λ _, within_limit (opposite s) (o_price order)) (match_fuel b)
                   order best_price (set_d_book b d);
    rest_remainder s rem d.

Definition market_body (s : OrderType) (order : Order) (d : desk) : option desk :=
  if total_of (opposite s) (d_book d) =? 0 then Some d
  else
    '(best_price, b) ← bestprice (opposite s) (d_book d);
    '(_, d) ← match_loop (opposite s) isPriceValid (match_fuel b) order best_price (set_d_book b d);
    Some d.

Lemma process_limit_eq s order :
  with_book order (limit_body s order) =
  match s with BUY => process_buy order | SELL => process_sell order end.
Proof. by destruct s. Qed.

Lemma process_market_eq s order :
  with_book order (market_body s order) =
  match s with BUY => process_market_buy order | SELL => process_market_sell order end.
Proof. by destruct s. Qed.

Lemma amatch_blocked ok q l :
  match l with [] => True | m :: _ => ok (o_price m) = false end → amatch ok q l = ([], q, l).
Proof. destruct l as [|m l]; simpl; [done|]. intros ->. by rewrite andb_false_r. Qed.

Lemma opposite_opposite s : opposite (opposite s) = s.
Proof. by destruct s. Qed.

Lemma set_quantity_id o : set_quantity (o_quantity o) o = o.
Proof. by destruct o. Qed.

(** If the front of a sorted queue is out of reach, everything is. *)
Lemma out_of_reach s limit m r x :
  prio_sorted s (m :: r) → within_limit s limit (o_price m) = false → x ∈ m :: r →
  within_limit s limit (o_price x) = false.
Proof.
  intros [Hm _]%StronglySorted_cons Hw [->|Hx]%elem_of_cons; [done|].
  rewrite Forall_forall in Hm. apply Hm in Hx. destruct s; simpl in *; zb.
Qed.

(** A matching loop started from the best price, on the abstract queues. *)
Lemma match_rep s cond ok order lo hi cap b a st fs q' r :
  o_type order = opposite s →
  (∀ b p, lower_limit b = lo → upper_limit b = hi → lo <= p <= hi → cond b p = ok p) →
  0 <= o_quantity order < 2 ^ 32 → book_rep lo hi cap b a →
  amatch ok (o_quantity order) (queue s a) = (fs, q', r) →
  ∃ best rem b', bestprice s b = Some (best, b) ∧
    best = match queue s a with [] => default_of s b | m :: _ => o_price m end ∧
    match_loop s cond (match_fuel b) order best (mkDesk b st.1 st.2)
    = Some (rem, mkDesk b' (after_fills order fs st).1 (after_fills order fs st).2) ∧
    book_rep lo hi cap b' (set_queue s r a) ∧ remainder order q' rem.
Proof.
  intros Ht Hc Hq [Hlo Hhi Hcap (Lv & fl & Hb & Ha)] Hm. rewrite Ha in Hm.
  destruct (match_loop_ok s cond ok order lo hi Ht Hc (match_fuel b) (o_quantity order)
              (front_price s b (level_orders b Lv)) b Lv fl st fs q' r)
    as (rem & b' & Lv' & fl' & Hrun & [Hb' Hlo' Hhi' Hcap' Hq' Ho'] & Hrem); try done.
  { rewrite <- (free_count _ _ _ (bi_storage _ _ _ _ Hb)). destruct s; lia. }
  rewrite set_quantity_id in Hrun. exists (front_price s b (level_orders b Lv)), rem, b'.
  rewrite bestprice_eq, (bestprice_clean s b Lv fl) by done.
  split_and!; try done; [by rewrite Ha|].
  split; try congruence. exists Lv', fl'. split; [done|]. intros s'. rewrite queue_set_queue.
  case_decide; [by subst|]. rewrite Ha. assert (s' = opposite s) as -> by (destruct s, s'; done). done.
Qed.

Lemma total_rep s lo hi cap b a :
  book_rep lo hi cap b a →
  (total_of s b =? 0) = match queue s a with [] => true | _ => false end.
Proof. intros [_ _ _ (Lv & fl & Hb & Ha)]. rewrite Ha. by eapply total_empty. Qed.

Lemma rep_sorted s lo hi cap b a : book_rep lo hi cap b a → prio_sorted s (queue s a).
Proof.
  intros [_ _ _ (Lv & fl & Hb & Ha)]. rewrite Ha. eapply side_queue_sorted, book_priced, Hb.
Qed.

Lemma set_queue_id s a : set_queue s (queue s a) a = a.
Proof. by destruct s, a. Qed.

Lemma rep_quantity s lo hi cap b a x :
  book_rep lo hi cap b a → x ∈ queue s a → 0 < o_quantity x < 2 ^ 32.
Proof.
  intros [_ _ _ (Lv & fl & Hb & Ha)] Hx. rewrite Ha in Hx.
  apply elem_of_side_queue in Hx as [Hx _]. by apply (bi_qty _ _ _ _ Hb).
Qed.

Section bodies.
Context (order : Order) (lo hi : Z) (cap : nat).
Context (Hqty : 0 < o_quantity order < 2 ^ 32).

Lemma market_body_ok b a st fs a' :
  book_rep lo hi cap b a → aprocess true cap order a = (fs, a') →
  ∃ b', market_body (o_type order) order (mkDesk b st.1 st.2)
        = Some (mkDesk b' (after_fills order fs st).1 (after_fills order fs st).2) ∧
        book_rep lo hi cap b' a'.
Proof.
  intros Hrep Hpr. unfold aprocess in Hpr. set (s := o_type order) in *.
  destruct (amatch _ _ _) as [[fs0 q0] r] eqn:Hm. simpl in Hpr. simplify_eq.
  unfold market_body. cbn [d_book]. rewrite (total_rep _ _ _ _ _ _ Hrep).
  destruct (queue (opposite s) a) as [|m rest] eqn:Hsq.
  - simpl in Hm. simplify_eq. exists b. rewrite <- Hsq, set_queue_id. by destruct st.
  - rewrite <- Hsq in Hm.
    destruct (match_rep (opposite s) isPriceValid (λ _, true) order lo hi cap b a st fs q0 r)
      as (best & rem & b' & Hbest & _ & Hrun & Hb' & _); try done; try lia.
    { by rewrite opposite_opposite. }
    { intros b0 p H1 H2 Hp. unfold isPriceValid. rewrite H1, H2. zb. }
    rewrite Hbest. cbn [mbind option_bind]. unfold set_d_book. cbn [d_group d_prices].
    rewrite Hrun. exists b'. done.
Qed.

(** No order of the opposite side is within the limit of [order]. *)
Definition blocked (s : OrderType) (a : ABook) : Prop :=
  match queue (opposite s) a with
  | [] => True
  | m :: _ => within_limit (opposite s) (o_price order) (o_price m) = false
  end.

#[local] Instance blocked_dec s a : Decision (blocked s a).
Proof. unfold blocked. destruct (queue (opposite s) a); apply _. Defined.

Lemma blocked_all s a x :
  prio_sorted (opposite s) (queue (opposite s) a) → blocked s a → x ∈ queue (opposite s) a →
  within_limit (opposite s) (o_price order) (o_price x) = false.
Proof.
  unfold blocked. destruct (queue (opposite s) a) as [|m r]; [by rewrite elem_of_nil|].
  intros Hs Hm Hx. by eapply out_of_reach.
Qed.

(** The end of the function: what is left of the order joins its side. *)
Lemma remainder_ok s b a q rem g ltp :
  book_rep lo hi cap b a → o_type order = s → lo <= o_price order <= hi → 0 <= q < 2 ^ 32 →
  (∀ x, x ∈ resting a → o_order_id x ≠ o_order_id order) →
  q = 0 ∨ blocked s a → remainder order q rem →
  ∃ b', rest_remainder s rem (mkDesk b g ltp) = Some (mkDesk b' g ltp) ∧
    book_rep lo hi cap b'
      (if (q =? 0) || negb (room cap a) then a
       else set_queue s (insert_prio s (set_quantity q order) (queue s a)) a).
Proof.
  intros Hb Ht Hband Hq Hfresh Hbl Hrem. destruct (decide (q = 0)) as [->|Hne].
  - exists b. split; [|done]. destruct rem as [o|]; [|done]. simpl in *. by subst o.
  - destruct rem as [o|]; [|by simpl in Hrem]. simpl in Hrem. subst o.
    destruct Hbl as [|Hbl]; [done|].
    destruct (rest_ok s (set_quantity q order) lo hi cap b a) as (ok & b' & Hadd & Hb'); try done.
    { simpl. lia. }
    { intros x Hx. cbn [set_quantity o_price]. eapply blocked_all; eauto using rep_sorted. }
    exists b'. unfold rest_remainder. cbn [set_quantity o_quantity d_book] in *.
    replace (0 <? q) with true by zb. rewrite Hadd. split; [done|].
    replace (q =? 0) with false by zb. by destruct (room cap a).
Qed.

Lemma limit_body_ok b a st fs a' :
  book_rep lo hi cap b a → lo <= o_price order <= hi →
  (∀ x, x ∈ resting a → o_order_id x ≠ o_order_id order) →
  aprocess false cap order a = (fs, a') →
  ∃ b', limit_body (o_type order) order (mkDesk b st.1 st.2)
        = Some (mkDesk b' (after_fills order fs st).1 (after_fills order fs st).2) ∧
        book_rep lo hi cap b' a'.
Proof.
  intros Hrep Hband Hfresh Hpr. unfold aprocess in Hpr. set (s := o_type order) in *.
  destruct (amatch _ _ _) as [[fs0 q0] r] eqn:Hm. simpl in Hpr.
  injection Hpr as -> Ha'.
  destruct (match_rep (opposite s) (λ _, within_limit (opposite s) (o_price order))
              (within_limit (opposite s) (o_price order)) order lo hi cap b a st fs q0 r)
      as (best & rem & b1 & Hbest & Hbv & Hrun & Hb1 & Hrem); try done; try lia.
  { by rewrite opposite_opposite. }
  unfold limit_body. cbn [d_book]. rewrite (total_rep _ _ _ _ _ _ Hrep).
  destruct (decide (blocked s a)) as [Hbl|Hbl].
  - rewrite (amatch_blocked _ _ _ Hbl) in Hm. simplify_eq. rewrite set_queue_id.
    destruct (rest_ok s order lo hi cap b a) as (ok & b' & Hadd & Hb'); try done.
    { intros x Hx. apply (blocked_all s a x); [by eapply rep_sorted|done|done]. }
    exists b'. split.
    + destruct (queue (opposite s) a) as [|m rest] eqn:Hsq; cbn [mbind option_bind].
      { rewrite Hadd. by destruct st. }
      rewrite Hbest. cbn [mbind option_bind]. unfold blocked in Hbl. rewrite Hsq in Hbl.
      replace (match s with BUY => _ | SELL => _ end) with true by (destruct s; simpl in Hbl; zb).
      rewrite Hadd. by destruct st.
    + replace (o_quantity order =? 0) with false by zb. rewrite set_quantity_id.
      by destruct (room cap a).
  - destruct (queue (opposite s) a) as [|m rest] eqn:Hsq.
    { destruct Hbl. unfold blocked. by rewrite Hsq. }
    unfold blocked in Hbl. rewrite Hsq in Hbl. apply not_false_is_true in Hbl.
    rewrite Hbest. cbn [mbind option_bind]. subst best.
    replace (match s with BUY => _ | SELL => _ end) with false by (destruct s; simpl in Hbl; zb).
    rewrite Hbest. cbn [mbind option_bind]. unfold set_d_book. cbn [d_group d_prices].
    rewrite Hrun. cbn [mbind option_bind].
    rewrite <- Hsq in Hm. rewrite <- Ha'.
    assert (∀ x, x ∈ queue (opposite s) a → 0 <= o_quantity x) as Hpos.
    { intros x Hx. apply (rep_quantity _ _ _ _ _ _ _ Hrep) in Hx. lia. }
    destruct (amatch_exhausts _ _ _ _ _ _ Hm) as [Hq0 Hex]; [lia|].
    pose proof (amatch_left _ _ _ _ _ _ Hm Hpos ltac:(lia)).
    apply (remainder_ok s b1 (set_queue (opposite s) r a) q0 rem); try done; [lia| |].
    + intros x [Hx|Hx]%(elem_of_resting s); rewrite queue_set_queue in Hx.
      * rewrite decide_False in Hx by by destruct s. apply Hfresh, (elem_of_resting s). by left.
      * rewrite decide_True in Hx by done. destruct (amatch_rest _ _ _ _ _ _ _ Hm Hx) as (y & Hy & ->).
        apply (Hfresh y), (elem_of_resting s). by right.
    + destruct Hex as [?|Hex]; [by left|right]. unfold blocked. rewrite queue_set_queue.
      rewrite decide_True by done. destruct r as [|x r]; [done|]. by apply (Hex x r).
Qed.
End bodies.

(** * One order, end to end *)

(** The contract of [process_order]: a limit order outside the band is
    rejected, everything else is matched. *)
Definition aengine (lo hi : Z) (cap : nat) (o : Order) (a : ABook) : list fill * ABook :=
  if is_market o || (lo <=? o_price o) && (o_price o <=? hi) then aprocess (is_market o) cap o a
  else ([], a).

Definition symbol_index (o : Order) : Z := Z.land (o_symbol_id o) SYMBOL_MASK.

(** What the caller has to guarantee about an incoming order. *)
Record admissible (o : Order) (a : ABook) : Prop := {
  ad_typed : order_typed o;
  ad_quantity : 0 < o_quantity o;
  ad_fresh x : x ∈ resting a → o_order_id x ≠ o_order_id o
}.

Lemma put_same m i b : get m i = Some b → put m i b = m.
Proof.
  unfold get, put. destruct (max_books m <=? i); [done|]. destruct m as [bs mx]. cbn [books max_books].
  intros Hb. f_equal. apply list_insert_id. by destruct (bs !! Z.to_nat i) as [[?|]|]; simplify_eq/=.
Qed.

Lemma get_put m i b b' j :
  0 <= i → 0 <= j → get m i = Some b → get (put m i b') j = if decide (j = i) then Some b' else get m j.
Proof.
  unfold get, put. cbn [books max_books]. intros Hi Hj Hb.
  destruct (max_books m <=? i) eqn:Hmi; [done|]. case_decide as Hij.
  - subst j. rewrite Hmi, list_lookup_insert_eq; [done|].
    apply lookup_lt_is_Some. by destruct (books m !! Z.to_nat i).
  - rewrite list_lookup_insert_ne by lia. done.
Qed.

Lemma symbol_index_range o : 0 <= symbol_index o < MAX_SYMBOLS.
Proof.
  unfold symbol_index, SYMBOL_MASK, SYMBOL_BITS. rewrite land_mask by lia.
  by apply Z.mod_pos_bound.
Qed.

Lemma with_book_run f order g ltp m b d :
  bookmanager g = Some m → get m (symbol_index order) = Some b → f (mkDesk b g ltp) = Some d →
  with_book order f (g, ltp)
  = Some (set_bookmanager (put m (symbol_index order) (d_book d)) (d_group d), d_prices d).
Proof.
  intros Hm Hb Hf. unfold with_book, symbol_index in *. rewrite Hm. cbn [mbind option_bind].
  rewrite Hb. cbn [mbind option_bind]. by rewrite Hf.
Qed.

Lemma process_order_run lo hi cap order g ltp m b a fs a' :
  bookmanager g = Some m → get m (symbol_index order) = Some b → book_rep lo hi cap b a →
  admissible order a → aengine lo hi cap order a = (fs, a') →
  ∃ b', book_rep lo hi cap b' a' ∧
    process_order order (g, ltp)
    = Some (set_bookmanager (put m (symbol_index order) b') (after_fills order fs (g, ltp)).1,
            (after_fills order fs (g, ltp)).2).
Proof.
  intros Hm Hb Hrep [Hty Hpos Hfresh] Ha. pose proof (ot_quantity _ Hty) as Hq.
  unfold aengine in Ha. unfold process_order. cbn [fst]. rewrite Hm. cbn [mbind option_bind].
  fold (symbol_index order). rewrite Hb. cbn [mbind option_bind].
  destruct (is_market order) eqn:Hmk; cbn [orb] in Ha.
  - destruct (market_body_ok order lo hi cap ltac:(mach) b a (g, ltp) fs a' Hrep Ha) as (b' & Hrun & Hb').
    exists b'. split; [done|]. pose proof (with_book_run _ order g ltp m b _ Hm Hb Hrun) as Hw.
    rewrite process_market_eq in Hw. by destruct (o_type order).
  - unfold isPriceValid. rewrite (br_lower _ _ _ _ _ Hrep), (br_upper _ _ _ _ _ Hrep).
    destruct ((lo <=? o_price order) && (o_price order <=? hi)) eqn:Hv; cbn [negb].
    2: { simplify_eq. exists b. split; [done|]. rewrite put_same by done. by destruct g; simplify_eq/=. }
    destruct (limit_body_ok order lo hi cap ltac:(mach) b a (g, ltp) fs a' Hrep ltac:(zb) Hfresh Ha)
      as (b' & Hrun & Hb').
    exists b'. split; [done|]. pose proof (with_book_run _ order g ltp m b _ Hm Hb Hrun) as Hw.
    rewrite process_limit_eq in Hw. by destruct (o_type order).
Qed.
