(* ===== verification/Group.v ===== *)
(** One engine group as a whole: every book of the group, the queue of
    pending orders and the published trades, against an abstract group that
    keeps two priority queues per symbol and a list of trades. *)

From stdpp Require Import sorting.
From S2P Require Import Prelude Types MemPool PriceTime OrderBook BookInv TradeRing RingBuffer Engine.

(** * Publishing the fills of one order *)

Lemma length_trades_of o id fs : length (trades_of o id fs) = length fs.
Proof. revert id. induction fs as [|f fs IH]; intros id; simpl; [done|]. by rewrite IH. Qed.

Lemma publish_fields t g :
  next_trade_id (publish_trade t g) = next_trade_id g ∧
  group_queue (publish_trade t g) = group_queue g ∧
  bookmanager (publish_trade t g) = bookmanager g ∧
  terminate_flag (publish_trade t g) = terminate_flag g.
Proof. done. Qed.

(** The fills only touch the ring, the trade counter and the prices. *)
Lemma after_fills_frame o fs : ∀ g ltp,
  let g' := (after_fills o fs (g, ltp)).1 in
  group_queue g' = group_queue g ∧ bookmanager g' = bookmanager g ∧
  terminate_flag g' = terminate_flag g ∧ length (after_fills o fs (g, ltp)).2 = length ltp.
Proof.
  induction fs as [|f fs IH]; intros g ltp; [done|].
  cbn zeta in *. rewrite <- (length_insert ltp (Z.to_nat (Z.land (o_symbol_id o) SYMBOL_MASK)) (o_price f.1)).
  exact (IH _ _).
Qed.

(** The ring after a group has published [fs]: the history grows by exactly
    the trades of the fills, numbered consecutively. *)
Record published (hist : list Trade) (g : GroupProcessor) : Prop := {
  pb_ring : ring_inv hist (trade_mem g);
  pb_handle : handle_at (length hist) (trade_buffer g)
}.

Lemma publish_published hist t g i :
  published hist g → seq_room (length hist) →
  published (hist ++ [t]) (publish_trade t (set_next_trade_id i g)).
Proof.
  intros [Hr Hh] Hroom. destruct (add_trade_inv t _ _ _ Hr Hh Hroom) as [Hr' Hh'].
  unfold publish_trade. cbn [trade_buffer trade_mem set_next_trade_id].
  destruct (add_trade t (trade_buffer g) (trade_mem g)) as [h mem]. split; [done|].
  rewrite length_app, Nat.add_comm. done.
Qed.

Lemma after_fills_published o fs : ∀ hist g ltp,
  published hist g → seq_room (length hist + length fs) →
  let g' := (after_fills o fs (g, ltp)).1 in
  published (hist ++ trades_of o (next_trade_id g) fs) g' ∧
  (is_u64 (next_trade_id g) → next_trade_id g' = u64 (next_trade_id g + Z.of_nat (length fs))).
Proof.
  induction fs as [|f fs IH]; intros hist g ltp Hp Hroom; cbn zeta.
  { simpl. rewrite app_nil_r. split; [done|]. intros H. by rewrite Z.add_0_r, u64_small. }
  cbn [trades_of]. unfold after_fills in *. cbn [foldl].
  set (g1 := publish_trade (trade_of o (next_trade_id g) f)
               (set_next_trade_id (u64 (next_trade_id g + 1)) g)).
  unfold seq_room in *. cbn [length] in Hroom.
  destruct (IH (hist ++ [trade_of o (next_trade_id g) f]) g1
              (<[Z.to_nat (Z.land (o_symbol_id o) SYMBOL_MASK) := o_price f.1]> ltp)) as [IHp IHn].
  { apply publish_published; [done|]. unfold seq_room. lia. }
  { rewrite length_app. simpl. lia. }
  change (after_fill o (g, ltp) f) with
    (g1, <[Z.to_nat (Z.land (o_symbol_id o) SYMBOL_MASK) := o_price f.1]> ltp).
  assert (next_trade_id g1 = u64 (next_trade_id g + 1)) as Hn by apply publish_fields.
  rewrite Hn, <- app_assoc in IHp. split; [exact IHp|]. intros Hid. rewrite IHn, Hn.
  - unfold u64. rewrite Zplus_mod_idemp_l. f_equal. cbn [length]. lia.
  - rewrite Hn. apply u64_range.
Qed.

(** * The abstract group *)

Record symbol_book := mkSymbolBook { sb_lo : Z; sb_hi : Z; sb_cap : nat; sb_book : ABook }.

Record AGroup := mkAGroup {
  ag_books : gmap Z symbol_book;
  ag_trades : list Trade;
  ag_next_id : Z;
  ag_pending : list Order
}.

Definition aprocess_order (o : Order) (A : AGroup) : AGroup :=
  match ag_books A !! symbol_index o with
  | None => A
  | Some sb =>
      let '(fs, a) := aengine (sb_lo sb) (sb_hi sb) (sb_cap sb) o (sb_book sb) in
      mkAGroup (<[symbol_index o := mkSymbolBook (sb_lo sb) (sb_hi sb) (sb_cap sb) a]> (ag_books A))
        (ag_trades A ++ trades_of o (ag_next_id A) fs)
        (u64 (ag_next_id A + Z.of_nat (length fs))) (ag_pending A)
  end.

(** An iteration of the group thread: the oldest pending order is processed. *)
Definition agroup_step (A : AGroup) : AGroup :=
  match ag_pending A with
  | [] => A
  | o :: rest =>
      aprocess_order o (mkAGroup (ag_books A) (ag_trades A) (ag_next_id A) rest)
  end.

Record group_rep (n : Z) (g : GroupProcessor) (A : AGroup) : Prop := {
  gr_books : ∃ m, bookmanager g = Some m ∧
    ∀ i sb, ag_books A !! i = Some sb → 0 <= i ∧
      ∃ b, get m i = Some b ∧ book_rep (sb_lo sb) (sb_hi sb) (sb_cap sb) b (sb_book sb);
  gr_trades : published (ag_trades A) g;
  gr_next_id : next_trade_id g = ag_next_id A;
  gr_next_u64 : is_u64 (ag_next_id A);
  gr_queue : rb_rep n (group_queue g) (ag_pending A);
  gr_alive : terminate_flag g = false
}.

(** An order the group can take: its symbol has a book it is admissible for. *)
Definition acceptable (o : Order) (A : AGroup) : Prop :=
  ∃ sb, ag_books A !! symbol_index o = Some sb ∧ admissible o (sb_book sb).

(** An order makes at most one trade per resting order. *)
Lemma amatch_length ok q l fs q' r : amatch ok q l = (fs, q', r) → (length fs ≤ length l)%nat.
Proof. intros H%amatch_prefix%prefix_length. by rewrite length_fmap in H. Qed.

(** The number of trades that fit in the sequence-number space. *)
Definition trade_room (A : AGroup) (o : Order) : Prop :=
  ∀ sb, ag_books A !! symbol_index o = Some sb →
    seq_room (length (ag_trades A) +
              length (aengine (sb_lo sb) (sb_hi sb) (sb_cap sb) o (sb_book sb)).1).

Lemma process_order_group n o g ltp A :
  group_rep n g A → acceptable o A → trade_room A o →
  ∃ g' ltp', process_order o (g, ltp) = Some (g', ltp') ∧ group_rep n g' (aprocess_order o A) ∧
    length ltp' = length ltp.
Proof.
  intros [(m & Hm & Hbooks) Htr Hid Hidr Hq Hal] (sb & Hsb & Had) Hroom.
  specialize (Hroom sb Hsb). destruct (Hbooks _ _ Hsb) as (Hi & b & Hb & Hrep).
  unfold aprocess_order. rewrite Hsb.
  destruct (aengine (sb_lo sb) (sb_hi sb) (sb_cap sb) o (sb_book sb)) as [fs a'] eqn:Ha.
  destruct (process_order_run _ _ _ o g ltp m b _ fs a' Hm Hb Hrep Had Ha) as (b' & Hrep' & Hrun).
  destruct (after_fills_published o fs _ g ltp Htr Hroom) as [Htr' Hid'].
  destruct (after_fills_frame o fs g ltp) as (Hq' & _ & Hal' & Hlen).
  eexists _, _. split; [exact Hrun|]. split; [|exact Hlen]. split; cbn [ag_books ag_trades ag_next_id ag_pending].
  - eexists. split; [done|]. intros i sb' Hsb'. rewrite lookup_insert in Hsb'. case_decide as Hii.
    + subst i. simplify_eq/=. split; [done|]. exists b'. rewrite (get_put m _ b) by done.
      by rewrite decide_True.
    + destruct (Hbooks _ _ Hsb') as (Hi' & b0 & Hb0 & Hr0). split; [done|]. exists b0.
      rewrite (get_put m _ b) by done. by rewrite decide_False by done.
  - rewrite Hid in Htr'. destruct Htr'. by split.
  - cbn [next_trade_id set_bookmanager]. rewrite Hid' by (by rewrite Hid). by rewrite Hid.
  - apply u64_range.
  - cbn [group_queue set_bookmanager]. by rewrite Hq'.
  - cbn [terminate_flag set_bookmanager]. by rewrite Hal'.
Qed.

(** * The group thread *)

Definition set_pending (os : list Order) (A : AGroup) : AGroup :=
  mkAGroup (ag_books A) (ag_trades A) (ag_next_id A) os.

Lemma group_step_ok n g ltp A :
  group_rep n g A →
  (∀ o rest, ag_pending A = o :: rest →
     acceptable o (set_pending rest A) ∧ trade_room (set_pending rest A) o) →
  ∃ g' ltp', group_thread_step (g, ltp) = Some (g', ltp') ∧ group_rep n g' (agroup_step A) ∧
    length ltp' = length ltp.
Proof.
  intros Hg Hok. pose proof Hg as [Hb Htr Hid Hidr Hq Hal]. unfold group_thread_step, agroup_step.
  rewrite Hal. pose proof (pop_ok _ _ _ Hq) as Hpop.
  destruct (ag_pending A) as [|o rest] eqn:Hp.
  - rewrite Hpop. cbn [mbind option_bind]. exists g, ltp. split; [|done]. by destruct g.
  - destruct Hpop as (q' & Hpop & Hq'). rewrite Hpop. cbn [mbind option_bind].
    destruct (Hok o rest eq_refl) as [Hacc Hroom]. fold (set_pending rest A).
    apply process_order_group; [|done..]. split; try done. destruct Htr. by split.
Qed.

Fixpoint run_group_thread (k : nat) (st : GroupProcessor * MarketState)
  : option (GroupProcessor * MarketState) :=
  match k with
  | O => Some st
  | S k => st ← group_thread_step st; run_group_thread k st
  end.

(** ** Orders with fresh ids stay acceptable while others are processed *)

(** What rests afterwards are orders that rested before or the incoming one,
    with another quantity; only orders that rested are filled. *)
Lemma aengine_orders lo hi cap o a fs a' :
  aengine lo hi cap o a = (fs, a') →
  (∀ x, x ∈ resting a' → ∃ y, (y = o ∨ y ∈ resting a) ∧ x = set_quantity (o_quantity x) y) ∧
  (∀ f, f ∈ fs → f.1 ∈ resting a).
Proof.
  assert (∀ x, x = set_quantity (o_quantity x) x) as Hid by by intros [].
  intros He. unfold aengine in He. destruct (is_market o || _).
  2: { injection He as <- <-. split; [by eauto|]. intros f Hf. by apply elem_of_nil in Hf. }
  unfold aprocess in He. set (s := o_type o) in *.
  destruct (amatch _ (o_quantity o) (queue (opposite s) a)) as [[fs0 q] r] eqn:Em. split.
  - intros x Hx.
    assert (x ∈ resting (set_queue (opposite s) r a) ∨ x = set_quantity q o) as [Hx'| ->]; [|clear Hx|exists o; by eauto].
    { destruct (_ || _ || _); injection He as <- <-; [by left|].
      apply (elem_of_resting s) in Hx as [Hx|Hx]; rewrite queue_set_queue in Hx.
      - rewrite decide_True, insert_prio_perm, elem_of_cons in Hx by done.
        destruct Hx as [->|Hx]; [by right|left]. apply (elem_of_resting s). auto.
      - rewrite decide_False in Hx by by destruct s. left. apply (elem_of_resting s). auto. }
    apply (elem_of_resting s) in Hx' as [Hx|Hx]; rewrite queue_set_queue in Hx.
    + rewrite decide_False in Hx by by destruct s. exists x. split; [right|done]. apply (elem_of_resting s). by left.
    + rewrite decide_True in Hx by done. destruct (amatch_rest _ _ _ _ _ _ x Em Hx) as (y & Hy & E). exists y.
      split; [right|done]. apply (elem_of_resting s). by right.
  - intros f Hf. assert (f ∈ fs0) as Hf' by (by destruct (_ || _ || _); injection He as <- <-).
    apply amatch_prefix in Em as [k Hk]. apply (elem_of_resting s). right. rewrite Hk. apply elem_of_app. left.
    by apply list_elem_of_fmap_2.
Qed.

Lemma aengine_resting lo hi cap o a x :
  x ∈ resting (aengine lo hi cap o a).2 →
  o_order_id x = o_order_id o ∨ ∃ y, y ∈ resting a ∧ o_order_id x = o_order_id y.
Proof.
  destruct (aengine lo hi cap o a) as [fs a'] eqn:E. intros Hx. destruct (aengine_orders _ _ _ _ _ _ _ E) as [H _].
  destruct (H x Hx) as (y & [->|Hy] & ->); [by left|right; by exists y].
Qed.

(** A batch of orders with distinct, new ids for symbols the group trades. *)
Record batch_ok (A : AGroup) (os : list Order) : Prop := {
  bo_typed o : o ∈ os → order_typed o ∧ 0 < o_quantity o;
  bo_symbol o : o ∈ os → is_Some (ag_books A !! symbol_index o);
  bo_nodup : NoDup (o_order_id <$> os);
  bo_fresh i sb x o : ag_books A !! i = Some sb → x ∈ resting (sb_book sb) → o ∈ os →
    o_order_id x ≠ o_order_id o
}.

Lemma batch_head A o os : batch_ok A (o :: os) → acceptable o A.
Proof.
  intros [Ht Hs _ Hf]. destruct (Hs o) as [sb Hsb]; [left|]. exists sb. split; [done|].
  destruct (Ht o) as [??]; [left|]. split; [done..|]. intros x Hx. eapply Hf; [done..|left].
Qed.

Lemma batch_tail A o os : batch_ok A (o :: os) → batch_ok (aprocess_order o A) os.
Proof.
  intros [Ht Hs Hnd Hf]. rewrite fmap_cons, NoDup_cons in Hnd. destruct Hnd as [Hni Hnd].
  destruct (Hs o) as [sb Hsb]; [left|]. unfold aprocess_order. rewrite Hsb.
  destruct (aengine _ _ _ o (sb_book sb)) as [fs a'] eqn:Ha. split; cbn [ag_books].
  - intros o' Ho'. apply Ht. by right.
  - intros o' Ho'. rewrite lookup_insert. case_decide; [by eexists|]. apply Hs. by right.
  - done.
  - intros i sb' x o' Hi Hx Ho'. rewrite lookup_insert in Hi. case_decide as Hii.
    + simplify_eq/=. assert (x ∈ resting (aengine (sb_lo sb) (sb_hi sb) (sb_cap sb) o (sb_book sb)).2)
        as [Hid|(y & Hy & Hid)]%aengine_resting by by rewrite Ha.
      * intros Heq. apply Hni. rewrite <- Hid, Heq. by apply list_elem_of_fmap_2.
      * rewrite Hid. eapply Hf; [done..|by right].
    + eapply Hf; [done..|by right].
Qed.

Lemma aprocess_pending o os A : aprocess_order o (set_pending os A) = set_pending os (aprocess_order o A).
Proof.
  unfold aprocess_order. cbn [set_pending ag_books]. destruct (ag_books A !! symbol_index o); [|done].
  by destruct (aengine _ _ _ _ _).
Qed.

(** No order makes more than [2^31] trades. *)
Lemma fills_bound n g A o sb :
  group_rep n g A → ag_books A !! symbol_index o = Some sb →
  Z.of_nat (length (aengine (sb_lo sb) (sb_hi sb) (sb_cap sb) o (sb_book sb)).1) <= 2 ^ 31.
Proof.
  intros [(m & Hm & Hb) _ _ _ _ _] Hsb. destruct (Hb _ _ Hsb) as (_ & b & _ & [_ _ Hc (Lv & fl & Hbi & Ha)]).
  pose proof (free_count _ _ _ (bi_storage _ _ _ _ Hbi)) as Hfc.
  pose proof (pr_small _ _ _ (si_pool _ _ _ (bi_storage _ _ _ _ Hbi))) as Hsm. unfold match_fuel in Hfc.
  unfold aengine. case_match; [|simpl; lia]. unfold aprocess.
  destruct (amatch _ _ _) as [[fs q] r] eqn:Hma. cbn [fst]. apply amatch_length in Hma. rewrite Ha in Hma.
  destruct (o_type o); simpl in Hma; lia.
Qed.

Lemma aprocess_trades n g A o :
  group_rep n g A → acceptable o A →
  Z.of_nat (length (ag_trades (aprocess_order o A))) <= Z.of_nat (length (ag_trades A)) + 2 ^ 31.
Proof.
  intros Hg (sb & Hsb & _). pose proof (fills_bound _ _ _ _ _ Hg Hsb) as Hf.
  unfold aprocess_order. rewrite Hsb. destruct (aengine _ _ _ _ _) as [fs a'].
  cbn [ag_trades fst] in *. rewrite length_app, length_trades_of. lia.
Qed.

Lemma run_group_thread_ok n : ∀ os g ltp A,
  group_rep n g A → ag_pending A = os → batch_ok A os →
  Z.of_nat (length (ag_trades A)) + Z.of_nat (length os) * 2 ^ 31 + 2 < MOD →
  ∃ g' ltp', run_group_thread (length os) (g, ltp) = Some (g', ltp') ∧
    group_rep n g' (foldl (λ A o, aprocess_order o A) (set_pending [] A) os).
Proof.
  induction os as [|o os IH]; intros g ltp A Hg Hp Hbo Hroom.
  - exists g, ltp. split; [done|]. destruct A. simpl in *. by subst.
  - cbn [length] in Hroom.
    assert (batch_ok (set_pending os A) (o :: os)) as Hbo' by by destruct Hbo.
    assert (trade_room (set_pending os A) o) as Htr.
    { intros sb Hsb. pose proof (fills_bound n g A o sb Hg Hsb). unfold seq_room.
      cbn [ag_trades set_pending] in *. lia. }
    destruct (group_step_ok n g ltp A Hg) as (g1 & ltp1 & Hstep & Hg1 & _).
    { intros o' rest Hp'. rewrite Hp in Hp'. simplify_eq. split; [by eapply batch_head|done]. }
    unfold agroup_step in Hg1. rewrite Hp in Hg1. fold (set_pending os A) in Hg1.
    pose proof (aprocess_trades n g A o Hg (batch_head _ _ _ Hbo)) as Hlen.
    destruct (IH g1 ltp1 _ Hg1) as (g' & ltp' & Hrun & Hg').
    { rewrite aprocess_pending. done. }
    { by apply batch_tail. }
    { rewrite aprocess_pending. cbn [set_pending ag_trades]. lia. }
    exists g', ltp'. cbn [length run_group_thread]. rewrite Hstep. cbn [mbind option_bind].
    split; [done|]. cbn [foldl]. rewrite !aprocess_pending in *. done.
Qed.
