(* ===== verification/EngineTheorems.v ===== *)
(** What the matching engine guarantees for one order and for a stream of
    orders, stated of [process_order] and the group thread, with a small
    concrete engine on which every hypothesis is discharged. *)

From stdpp Require Import sorting.
From S2P Require Import Prelude Types Heap MemPool PriceTime OrderBook BookInv TradeRing RingBuffer.
From S2P Require Import Engine Group.

(** * Helpers *)

Lemma after_fills_prices o fs : ∀ g ltp,
  (after_fills o fs (g, ltp)).2 =
  match last fs with None => ltp | Some f => <[Z.to_nat (symbol_index o) := o_price f.1]> ltp end.
Proof.
  induction fs as [|f fs IH]; intros g ltp; [done|].
  change ((after_fills o (f :: fs) (g, ltp)).2) with
    ((after_fills o fs (after_fill o (g, ltp) f)).2).
  unfold after_fill. cbn [fst snd]. rewrite IH. fold (symbol_index o).
  destruct fs as [|f' fs]; [done|]. rewrite (last_cons_cons f f' fs).
  destruct (last (f' :: fs)) as [x|] eqn:E; [by rewrite list_insert_insert_eq|].
  by apply last_None in E.
Qed.

Lemma queue_set_same s l a : queue s (set_queue s l a) = l.
Proof. by destruct s. Qed.
Lemma queue_set_opp s l a : queue s (set_queue (opposite s) l a) = queue s a.
Proof. by destruct s. Qed.
Lemma queue_set_other s l a : queue (opposite s) (set_queue s l a) = queue (opposite s) a.
Proof. by destruct s. Qed.

Lemma room_after cap s r a : room cap (set_queue (opposite s) r a) = (length r + length (queue s a) <? cap)%nat.
Proof.
  unfold room, resting. apply eq_true_iff_eq. rewrite bool_decide_eq_true, Nat.ltb_lt.
  destruct s; cbn [opposite set_queue queue bids asks]; rewrite length_app; lia.
Qed.

(** All the makers but the last are traded completely. *)
Lemma amatch_full ok q l fs q' r :
  amatch ok q l = (fs, q', r) →
  ∀ i f, fs !! i = Some f → (S i < length fs)%nat → f.2 = o_quantity f.1.
Proof.
  revert q fs q' r. induction l as [|m l IH]; intros q fs q' r; simpl; intros H i f Hi Hlt.
  { by simplify_eq. }
  destruct ((0 <? q) && ok (o_price m)); [|by simplify_eq].
  destruct (q <? o_quantity m).
  { simplify_eq. simpl in Hlt. lia. }
  destruct (amatch ok (q - o_quantity m) l) as [[fs0 q0] r0] eqn:E. simplify_eq.
  destruct i as [|i]; [by simplify_eq/=|]. simpl in *. eapply IH; [done..|lia].
Qed.

Lemma sum_quantity_insert s o l : sum_quantity (insert_prio s o l) = o_quantity o + sum_quantity l.
Proof. by rewrite (sum_quantity_perm _ _ (insert_prio_perm s o l)). Qed.

Lemma total_rep_sum s lo hi cap b a : book_rep lo hi cap b a → total_of s b = sum_quantity (queue s a).
Proof. intros [_ _ _ (Lv & fl & Hb & Ha)]. rewrite Ha. apply Hb. Qed.

Lemma rep_uncrossed lo hi cap b a x y :
  book_rep lo hi cap b a → x ∈ bids a → y ∈ asks a → o_price x < o_price y.
Proof.
  intros [_ _ _ (Lv & fl & Hb & Ha)] Hx Hy.
  change (x ∈ queue BUY a) in Hx. change (y ∈ queue SELL a) in Hy. rewrite Ha in Hx, Hy.
  apply elem_of_side_queue in Hx as [Hx Hxt]. apply elem_of_side_queue in Hy as [Hy Hyt].
  by apply (bi_cross _ _ _ _ Hb).
Qed.

Lemma rep_bestprice s lo hi cap b a :
  book_rep lo hi cap b a →
  bestprice s b = Some (match queue s a with
                        | [] => match s with BUY => lo - 1 | SELL => hi + 1 end
                        | m :: _ => o_price m end, b).
Proof.
  intros [Hlo Hhi _ (Lv & fl & Hb & Ha)]. rewrite bestprice_eq, (bestprice_clean s b Lv fl _ Hb).
  unfold front_price. rewrite Ha, (si_defaults _ _ _ (bi_storage _ _ _ _ Hb)), Hlo, Hhi. done.
Qed.

Lemma rep_band s lo hi cap b a x :
  book_rep lo hi cap b a → x ∈ queue s a → lo <= o_price x <= hi.
Proof.
  intros [<- <- _ (Lv & fl & Hb & Ha)] Hx. rewrite Ha in Hx.
  apply elem_of_side_queue in Hx as [Hx _]. eapply order_in_band; [apply Hb|done].
Qed.

Lemma new_book_rep mem lower upper b :
  1 <= lower <= upper → upper < UINT64_MAX → upper - lower < 2 ^ 31 →
  (0 < length mem)%nat → Z.of_nat (length mem) <= 2 ^ 31 →
  OrderBook_new (Some mem) 0 0 lower upper = Some b →
  book_rep lower upper (length mem) b (mkABook [] []).
Proof.
  intros H1 H2 H3 H4 H5 Hb.
  destruct (OrderBook_new_ok mem lower upper H1 H2 H3 H4 H5) as (b' & Lv & Hb' & Hinv & Hlo & Hhi & Hc).
  simplify_eq.
  assert (∀ s, side_queue s (level_orders b Lv) = []) as Hq.
  { intros s. destruct (side_queue s (level_orders b Lv)) as [|x l] eqn:E; [done|].
    assert (x ∈ side_queue s (level_orders b Lv)) as [Hx _]%elem_of_side_queue by (rewrite E; left).
    rewrite Hc in Hx. by apply elem_of_nil in Hx. }
  split; try done.
  - rewrite <- (free_count _ _ _ (bi_storage _ _ _ _ Hinv)), !Hq, length_seq. simpl. lia.
  - exists Lv, (seq 0 (length mem)). split; [done|]. intros s. rewrite Hq. by destruct s.
Qed.

(** * A concrete engine for the witnesses

    Band 100 to 110, a pool of two nodes, one resting sell order of 5 at 103. *)
Module Demo.

Definition node : OrderNode := mkNode Order_default 0 0.
Definition manager : OrderBookManager :=
  default (OrderBookManager_new 1) (addBook (OrderBookManager_new 1) 0 (Some [node; node]) 0 0 100 110).
Definition group : GroupProcessor := set_bookmanager manager (GroupProcessor_new 0 2 ∅).
Definition ask : Order := mkOrder 7 LIMIT 103 1000 1 SELL 0 5 70.
Definition bid : Order := mkOrder 8 LIMIT 104 1001 2 BUY 0 8 80.

Definition empty_book : OrderBook :=
  default (mkBook 0 0 0 [] [] [] (mkPool [] 0 0 0) ∅ 0 0 0 0) (get manager 0).
Definition book : OrderBook :=
  match addSellOrder ask empty_book with Some (_, b) => b | None => empty_book end.
Definition traded_manager : OrderBookManager := put manager 0 book.
Definition traded_group : GroupProcessor := set_bookmanager traded_manager group.

Lemma empty_rep : book_rep 100 110 2 empty_book (mkABook [] []).
Proof. apply (new_book_rep [node; node]); try done; simpl; lia. Qed.

Lemma ask_typed : order_typed ask.
Proof. split; simpl; mach. Qed.
Lemma bid_typed : order_typed bid.
Proof. split; simpl; mach. Qed.

Lemma book_ok : book_rep 100 110 2 book (mkABook [] [ask]).
Proof.
  destruct (rest_ok SELL ask 100 110 2 empty_book (mkABook [] []) empty_rep)
    as (ok & b' & Hadd & Hb').
  { reflexivity. }
  { simpl. lia. }
  { simpl. lia. }
  { intros x Hx. by apply elem_of_nil in Hx. }
  { intros x Hx. by apply elem_of_nil in Hx. }
  unfold book. change (addSellOrder ask empty_book) with (add_order SELL ask empty_book).
  by rewrite Hadd.
Qed.

Lemma bid_admissible : admissible bid (mkABook [] [ask]).
Proof.
  split; [apply bid_typed|simpl; lia|]. intros x Hx. apply list_elem_of_singleton in Hx as ->. done.
Qed.

Lemma nothing_published : published [] traded_group.
Proof. destruct ring_inv_new as [Hr Hh]. by split. Qed.
End Demo.

(** * One order *)

Section one_order.
Context (lo hi : Z) (cap : nat) (order : Order) (g : GroupProcessor) (ltp : MarketState).
Context (m : OrderBookManager) (b : OrderBook) (a : ABook).
Context (Hm : bookmanager g = Some m) (Hget : get m (symbol_index order) = Some b).
Context (Hrep : book_rep lo hi cap b a) (Hadm : admissible order a).

(** C1: [process_order] implements the price-time priority contract.  For any
    order with a positive quantity and a new id, on any book that represents
    the queues [a], it terminates without undefined behaviour; the book it
    leaves represents the queues of the contract; the trades it published are
    those of the contract, in order, with consecutive ids; the last traded
    price of the symbol is the price of the last of them; and the books of
    all other symbols are untouched. *)
Theorem process_order_refines hist fs a' :
  aengine lo hi cap order a = (fs, a') → published hist g → seq_room (length hist + length fs) →
  ∃ g' ltp' b', process_order order (g, ltp) = Some (g', ltp') ∧
    bookmanager g' = Some (put m (symbol_index order) b') ∧ book_rep lo hi cap b' a' ∧
    published (hist ++ trades_of order (next_trade_id g) fs) g' ∧
    ltp' = match last fs with
           | None => ltp
           | Some f => <[Z.to_nat (symbol_index order) := o_price f.1]> ltp
           end ∧
    ∀ i, 0 <= i → i ≠ symbol_index order → get (put m (symbol_index order) b') i = get m i.
Proof.
  intros Ha Hpub Hroom.
  destruct (process_order_run _ _ _ order g ltp m b a fs a' Hm Hget Hrep Hadm Ha) as (b' & Hb' & Hrun).
  destruct (after_fills_published order fs hist g ltp Hpub Hroom) as [Hpub' _].
  eexists _, _, b'. split_and!; [exact Hrun|done|done| |apply after_fills_prices|].
  - destruct Hpub'. by split.
  - intros i Hi Hne. pose proof (symbol_index_range order).
    rewrite (get_put m _ b) by (done || lia). by rewrite decide_False.
Qed.

(** C2: Fairness and completeness of matching.  The orders an incoming order
    trades with are the front of the opposite side in price-time order; it
    trades at the resting orders' prices, never outside its limit, and takes
    all of every order but possibly the last; and if any of its quantity is
    left, no order within its limit remains on the opposite side. *)
Theorem process_order_priority :
  ∃ g' ltp' b' fs a', process_order order (g, ltp) = Some (g', ltp') ∧
    (g', ltp') = (set_bookmanager (put m (symbol_index order) b') (after_fills order fs (g, ltp)).1,
                  (after_fills order fs (g, ltp)).2) ∧
    book_rep lo hi cap b' a' ∧
    let s := opposite (o_type order) in
    prio_sorted s (queue s a) ∧ (fst <$> fs) `prefix_of` queue s a ∧
    Forall (λ f, f.2 <= o_quantity f.1 ∧
                 (is_market order = false → within_limit s (o_price order) (o_price f.1) = true)) fs ∧
    (∀ i f, fs !! i = Some f → (S i < length fs)%nat → f.2 = o_quantity f.1) ∧
    sum_fills fs <= o_quantity order ∧
    (is_market order = false → lo <= o_price order <= hi → sum_fills fs < o_quantity order →
     ∀ x, x ∈ queue s a' → within_limit s (o_price order) (o_price x) = false).
Proof.
  destruct (aengine lo hi cap order a) as [fs a'] eqn:Ha.
  destruct (process_order_run _ _ _ order g ltp m b a fs a' Hm Hget Hrep Hadm Ha) as (b' & Hb' & Hrun).
  eexists _, _, b', fs, a'. split; [exact Hrun|]. split; [done|]. split; [done|]. cbn zeta.
  split; [by eapply rep_sorted|]. pose proof (ad_quantity _ _ Hadm) as Hpos.
  unfold aengine in Ha. destruct (is_market order || _) eqn:Hv.
  2: { simplify_eq. split_and!; try done; [apply prefix_nil|simpl; lia|]. intros Hmk Hband _.
       rewrite Hmk in Hv. exfalso. simpl in Hv. zb. }
  unfold aprocess in Ha. destruct (amatch _ _ _) as [[fs0 q] r] eqn:Hma. simpl in Ha.
  pose proof (amatch_prefix _ _ _ _ _ _ Hma). pose proof (amatch_fills _ _ _ _ _ _ Hma) as Hfl.
  pose proof (amatch_conservation _ _ _ _ _ _ Hma) as Hc.
  pose proof (amatch_exhausts _ _ _ _ _ _ Hma ltac:(lia)) as [Hq Hex].
  assert (fs = fs0) as -> by by simplify_eq. split_and!; try done; try lia.
  - eapply Forall_impl; [exact Hfl|]. intros f [Hok Hle]. split; [done|]. intros Hmk. by rewrite Hmk in Hok.
  - by eapply amatch_full.
  - intros Hmk Hband Hlt x Hx. destruct Hex as [->|Hex]; [lia|]. rewrite Hmk in Hex.
    assert (queue (opposite (o_type order)) a' = r) as Hqr.
    { injection Ha as <-. destruct (is_market order || _ || _);
        by rewrite ?queue_set_other, queue_set_same. }
    rewrite Hqr in Hx. destruct r as [|y r]; [by apply elem_of_nil in Hx|].
    eapply out_of_reach; [|by apply (Hex y r)|done]. rewrite <- Hqr. by eapply rep_sorted.
Qed.

(** C3: Conservation.  The quantity traded leaves the opposite side's total.
    The own side's total grows by exactly what is left of the order, if it is
    a limit order within the band and one of the pool's [cap] nodes is free
    after the matching, and by nothing otherwise. *)
Theorem process_order_totals fs a' :
  aengine lo hi cap order a = (fs, a') →
  let s := o_type order in
  let left := o_quantity order - sum_fills fs in
  let fits := (length (queue (opposite s) a') + length (queue s a) <? cap)%nat in
  let valid := negb (is_market order) && (lo <=? o_price order) && (o_price order <=? hi) in
  ∃ g' ltp' b', process_order order (g, ltp) = Some (g', ltp') ∧
    bookmanager g' = Some (put m (symbol_index order) b') ∧
    total_of (opposite s) b' = total_of (opposite s) b - sum_fills fs ∧
    total_of s b' = total_of s b + (if valid && fits then left else 0) ∧ 0 <= left.
Proof.
  intros Ha s left fits valid.
  destruct (process_order_run _ _ _ order g ltp m b a fs a' Hm Hget Hrep Hadm Ha) as (b' & Hb' & Hrun).
  eexists _, _, b'. split; [exact Hrun|]. split; [done|]. pose proof (ad_quantity _ _ Hadm) as Hq0.
  rewrite !(total_rep_sum _ _ _ _ _ _ Hrep), !(total_rep_sum _ _ _ _ _ _ Hb'). subst left fits valid.
  unfold aengine in Ha. destruct (is_market order) eqn:Hmk; cbn [negb orb andb] in *.
  2: destruct ((lo <=? o_price order) && (o_price order <=? hi)); [|simplify_eq; simpl; split_and!; lia].
  all: unfold aprocess in Ha; destruct (amatch _ _ _) as [[fs0 q] r] eqn:Hma; simpl in Ha; fold s in Ha, Hma |- *;
    pose proof (amatch_conservation _ _ _ _ _ _ Hma) as Hc; pose proof (amatch_resting _ _ _ _ _ _ Hma) as Hr;
    destruct (amatch_exhausts _ _ _ _ _ _ Hma (Z.lt_le_incl _ _ Hq0)) as [Hl _];
    rewrite ?room_after in Ha; injection Ha as -> <-; cbn [orb].
  { rewrite queue_set_same, queue_set_opp. split_and!; lia. }
  assert (∀ x, queue (opposite s) (if x : bool then set_queue (opposite s) r a
    else set_queue s (insert_prio s (set_quantity q order) (queue s (set_queue (opposite s) r a))) (set_queue (opposite s) r a)) = r) as Hopp
    by (intros []; by rewrite ?queue_set_other, queue_set_same).
  rewrite Hopp. cbn [andb]. destruct (Z.eqb_spec q 0) as [->|Hne]; cbn [orb].
  { rewrite queue_set_opp. destruct (_ <? cap)%nat; split_and!; lia. }
  destruct (_ <? cap)%nat; cbn [negb].
  - rewrite queue_set_same, queue_set_opp, sum_quantity_insert. cbn [o_quantity set_quantity]. split_and!; lia.
  - rewrite queue_set_opp. split_and!; lia.
Qed.

(** C4: The book is never crossed: after any order, [bestbuyprice] is strictly
    below [bestsellprice], and both only read the book. *)
Theorem process_order_uncrossed :
  ∃ g' ltp' b' p p', process_order order (g, ltp) = Some (g', ltp') ∧
    bookmanager g' = Some (put m (symbol_index order) b') ∧
    bestbuyprice b' = Some (p, b') ∧ bestsellprice b' = Some (p', b') ∧ p < p'.
Proof.
  destruct (aengine lo hi cap order a) as [fs a'] eqn:Ha.
  destruct (process_order_run _ _ _ order g ltp m b a fs a' Hm Hget Hrep Hadm Ha) as (b' & Hb' & Hrun).
  pose proof (rep_bestprice BUY _ _ _ _ _ Hb') as HB. pose proof (rep_bestprice SELL _ _ _ _ _ Hb') as HS.
  eexists _, _, b', _, _. split_and!; [exact Hrun|done|exact HB|exact HS|].
  pose proof (λ x, rep_band BUY _ _ _ _ _ x Hb') as Hbb. pose proof (λ x, rep_band SELL _ _ _ _ _ x Hb') as Hbs.
  pose proof (λ x y, rep_uncrossed _ _ _ _ _ x y Hb') as Hun. cbn [queue] in *.
  assert (lo <= hi) as Hlh.
  { destruct Hrep as [<- <- _ (Lv & fl & Hbi & _)]. apply (si_band _ _ _ (bi_storage _ _ _ _ Hbi)). }
  destruct (bids a') as [|x bs]; destruct (asks a') as [|y as']; try lia.
  - specialize (Hbs y ltac:(left)). lia.
  - specialize (Hbb x ltac:(left)). lia.
  - apply Hun; left.
Qed.

(** A limit order priced outside the symbol's band changes nothing. *)
Theorem process_order_rejects :
  is_market order = false → ¬ (lo <= o_price order <= hi) →
  process_order order (g, ltp) = Some (g, ltp).
Proof.
  intros Hmk Hout.
  unfold process_order. cbn [fst]. rewrite Hm. cbn [mbind option_bind]. fold (symbol_index order).
  rewrite Hget. cbn [mbind option_bind]. rewrite Hmk. unfold isPriceValid.
  rewrite (br_lower _ _ _ _ _ Hrep), (br_upper _ _ _ _ _ Hrep).
  by replace ((lo <=? o_price order) && (o_price order <=? hi)) with false by zb.
Qed.

(** C38: When the pool is full and nothing on the other side is within the
    limit, a valid limit order is dropped: nothing is stored, nothing is
    published and the caller is not told. *)
Theorem process_order_pool_full :
  is_market order = false → lo <= o_price order <= hi → blocked order (o_type order) a →
  length (resting a) = cap →
  process_order order (g, ltp) = Some (g, ltp).
Proof.
  intros Hmk Hband Hbl Hfull.
  assert (add_order (o_type order) order b = Some (false, b)) as Hadd.
  { destruct Hrep as [Hlo Hhi Hcap (Lv & fl & Hbi & Ha)].
    assert (room cap a = false) as Hroom by (apply bool_decide_eq_false_2; lia).
    rewrite (room_free _ _ _ _ _ (bi_storage _ _ _ _ Hbi) Hcap Ha) in Hroom. destruct fl; [|done].
    eapply add_order_full; [apply Hbi|lia]. }
  assert (limit_body (o_type order) order (mkDesk b g ltp) = Some (mkDesk b g ltp)) as Hbody.
  { unfold limit_body. cbn [d_book]. rewrite (total_rep _ _ _ _ _ _ Hrep). unfold blocked in Hbl.
    rewrite (rep_bestprice _ _ _ _ _ _ Hrep).
    destruct (queue (opposite (o_type order)) a) as [|x l]; cbn [mbind option_bind]; [by rewrite Hadd|].
    replace (match o_type order with BUY => _ | SELL => _ end) with true
      by (destruct (o_type order); simpl in Hbl; zb). by rewrite Hadd. }
  pose proof (with_book_run _ order g ltp m b _ Hm Hget Hbody) as Hw. rewrite process_limit_eq in Hw.
  cbn [d_book d_group d_prices] in Hw. rewrite put_same in Hw by done.
  assert (set_bookmanager m g = g) as Hg by (destruct g; simpl in *; by rewrite Hm). rewrite Hg in Hw.
  unfold process_order. cbn [fst]. rewrite Hm. cbn [mbind option_bind]. fold (symbol_index order).
  rewrite Hget. cbn [mbind option_bind]. rewrite Hmk. unfold isPriceValid.
  rewrite (br_lower _ _ _ _ _ Hrep), (br_upper _ _ _ _ _ Hrep).
  replace ((lo <=? o_price order) && (o_price order <=? hi)) with true by zb. cbn [negb].
  by destruct (o_type order).
Qed.
End one_order.

(** * A stream of orders *)

(** C5: The group thread serves its queue first in, first out.  For any queue
    of orders with positive quantities and distinct new ids, as many
    iterations of the thread as there are orders process all of them, each
    according to the contract, in the order in which they were enqueued, and
    leave the queue empty and the ring holding all the trades. *)
Theorem group_thread_refines n g ltp A :
  group_rep n g A → batch_ok A (ag_pending A) →
  Z.of_nat (length (ag_trades A)) + Z.of_nat (length (ag_pending A)) * 2 ^ 31 + 2 < MOD →
  ∃ g' ltp', run_group_thread (length (ag_pending A)) (g, ltp) = Some (g', ltp') ∧
    group_rep n g' (foldl (λ A o, aprocess_order o A) (set_pending [] A) (ag_pending A)).
Proof. intros Hg Hb Hroom. by apply run_group_thread_ok. Qed.

(** * Routing and set-up *)

Lemma route_symbol d o :
  length (groups d) = Z.to_nat GROUP_COUNT → 0 <= o_symbol_id o < TOTAL_SYMBOLS →
  route d o = o_symbol_id o / MAX_SYMBOLS ∧
  o_symbol_id o = route d o * MAX_SYMBOLS + symbol_index o.
Proof.
  intros Hl Hs. unfold route. rewrite Hl, Z.shiftr_div_pow2 by (unfold SYMBOL_BITS; lia).
  change (2 ^ SYMBOL_BITS) with MAX_SYMBOLS. unfold symbol_index, SYMBOL_MASK.
  rewrite land_mask by (unfold SYMBOL_BITS; lia). change (2 ^ SYMBOL_BITS) with MAX_SYMBOLS.
  assert (0 <= o_symbol_id o / MAX_SYMBOLS < GROUP_COUNT) as Hg.
  { unfold TOTAL_SYMBOLS in Hs. split; [apply Z.div_pos; [lia|done]|].
    apply Z.div_lt_upper_bound; [done|]. lia. }
  unfold GROUP_COUNT in *. rewrite (Z.mod_small _ 2) by lia. rewrite s32_small by lia.
  rewrite u64_small by mach.
  rewrite (proj2 (Z.leb_gt (Z.of_nat (Z.to_nat 2)) (o_symbol_id o / MAX_SYMBOLS))) by lia.
  split; [done|]. pose proof (Z.div_mod (o_symbol_id o) MAX_SYMBOLS ltac:(done)). lia.
Qed.

(** [dispatch_order] sends each of the 2048 symbols to one group and one
    book of that group, different symbols to different books, and an order
    that finds room in the group's queue becomes the last pending order of
    exactly that group. *)
Theorem dispatch_order_routes d o sched i g n A :
  length (groups d) = Z.to_nat GROUP_COUNT → 0 <= o_symbol_id o < TOTAL_SYMBOLS →
  i = Z.to_nat (o_symbol_id o / MAX_SYMBOLS) → groups d !! i = Some g → group_rep n g A →
  Z.of_nat (length (ag_pending A)) < n - 1 →
  o_symbol_id o = Z.of_nat i * MAX_SYMBOLS + symbol_index o ∧
  ∃ d' g', dispatch_order sched o d = Some (true, d') ∧ groups d' = <[i := g']> (groups d) ∧
    last_price d' = last_price d ∧ group_rep n g' (set_pending (ag_pending A ++ [o]) A).
Proof.
  intros Hl Hs -> Hg Hrep Hroom. destruct (route_symbol d o Hl Hs) as [Hr Hid].
  assert (0 <= o_symbol_id o / MAX_SYMBOLS) by (apply Z.div_pos; [lia|done]).
  split; [by rewrite Z2Nat.id, <- Hr by done|].
  assert (∃ g', try_dispatch o d = Some (true, set_groups (<[Z.to_nat (o_symbol_id o / MAX_SYMBOLS) := g']> (groups d)) d)
            ∧ group_rep n g' (set_pending (ag_pending A ++ [o]) A)) as (g' & Htry & Hg').
  { unfold try_dispatch, enqueue_order. rewrite Hr, Hg. cbn [mbind option_bind].
    destruct Hrep as [Hb Htr Hid' Hidr Hq Hal]. pose proof (push_ok _ _ _ o Hq) as Hp.
    replace (Z.of_nat (length (ag_pending A)) =? n - 1) with false in Hp by zb.
    destruct Hp as (q' & Hp & Hq'). rewrite Hp. cbn [mbind option_bind]. eexists. split; [done|].
    split; try done. destruct Htr. by split. }
  eexists _, g'. destruct sched; cbn [dispatch_order]; rewrite Htry; cbn [mbind option_bind]; done.
Qed.

(** While the group's queue is full, [dispatch_order] keeps trying without
    changing anything; as soon as the group thread has taken one order, the
    next attempt succeeds.  The order is neither lost nor duplicated. *)
Theorem dispatch_order_waits d o i g n A x rest :
  length (groups d) = Z.to_nat GROUP_COUNT → 0 <= o_symbol_id o < TOTAL_SYMBOLS →
  i = Z.to_nat (o_symbol_id o / MAX_SYMBOLS) → groups d !! i = Some g → group_rep n g A →
  Z.of_nat (length (ag_pending A)) = n - 1 → ag_pending A = x :: rest →
  acceptable x (set_pending rest A) → trade_room (set_pending rest A) x →
  dispatch_order [] o d = Some (false, d) ∧
  ∃ d' g', dispatch_order [[i]] o d = Some (true, d') ∧ groups d' !! i = Some g' ∧
    group_rep n g' (set_pending (rest ++ [o]) (aprocess_order x A)).
Proof.
  intros Hl Hs -> Hg Hrep Hfull Hp Hacc Hroom. set (i := Z.to_nat (o_symbol_id o / MAX_SYMBOLS)) in *.
  destruct (route_symbol d o Hl Hs) as [Hr _].
  assert (try_dispatch o d = Some (false, d)) as Htry.
  { unfold try_dispatch, enqueue_order. rewrite Hr. fold i. rewrite Hg. cbn [mbind option_bind].
    pose proof (push_ok _ _ _ o (gr_queue _ _ _ Hrep)) as Hpush.
    replace (Z.of_nat (length (ag_pending A)) =? n - 1) with true in Hpush by zb.
    rewrite Hpush. cbn [mbind option_bind]. do 2 f_equal. unfold set_groups.
    assert (set_group_queue (group_queue g) g = g) as -> by by destruct g.
    rewrite list_insert_id by done. by destruct d. }
  split; [cbn [dispatch_order]; by rewrite Htry|].
  destruct (group_step_ok n g (last_price d) A Hrep) as (g1 & ltp1 & Hstep & Hg1 & _).
  { intros o' rest' Hp'. rewrite Hp in Hp'. by simplify_eq. }
  unfold agroup_step in Hg1. rewrite Hp in Hg1. fold (set_pending rest A) in Hg1.
  rewrite aprocess_pending in Hg1.
  cbn [dispatch_order]. rewrite Htry. cbn [mbind option_bind foldl]. unfold run_group.
  rewrite Hg. cbn [mbind option_bind]. rewrite Hstep. cbn [mbind option_bind].
  apply lookup_lt_Some in Hg as Hlt.
  set (d1 := mkDispatcher _ _ _ _).
  assert (groups d1 !! i = Some g1) as Hd1 by by apply list_lookup_insert_eq.
  assert (length (groups d1) = Z.to_nat GROUP_COUNT) as Hl1 by (simpl; by rewrite length_insert).
  pose proof (push_ok _ _ _ o (gr_queue _ _ _ Hg1)) as Hpush. cbn [ag_pending set_pending] in Hpush.
  rewrite Hp in Hfull. cbn [length] in Hfull.
  replace (Z.of_nat (length rest) =? n - 1) with false in Hpush by zb.
  destruct Hpush as (q' & Hpush & Hq'). destruct (route_symbol d1 o Hl1 Hs) as [Hr1 _].
  unfold try_dispatch, enqueue_order. rewrite Hr1. fold i. rewrite Hd1. cbn [mbind option_bind].
  rewrite Hpush. cbn [mbind option_bind]. eexists _, _. split; [done|]. cbn [groups set_groups].
  split; [apply list_lookup_insert_eq; simpl; by rewrite length_insert|].
  destruct Hg1 as [Hb Htr Hid Hidr Hq Hal]. split; try done. destruct Htr. by split.
Qed.

(** A band of prices the book constructor can handle. *)
Definition band_ok (lo hi : Z) : Prop := 1 <= lo <= hi ∧ hi < UINT64_MAX ∧ hi - lo < 2 ^ 31.

Section setup.
Context (lower_limits upper_limits : list Z) (cap : nat).
Context (Hcap : (0 < cap)%nat ∧ Z.of_nat cap <= 2 ^ 31).

(** Book [j] of the group that starts at [overhead] is there, with its limits. *)
Definition book_ready (overhead : Z) (m : OrderBookManager) (j : Z) : Prop :=
  ∃ lo hi b, lower_limits !! Z.to_nat (overhead + j) = Some lo ∧
    upper_limits !! Z.to_nat (overhead + j) = Some hi ∧
    get m j = Some b ∧ book_rep lo hi cap b (mkABook [] []).

Lemma addBook_ready overhead m j mem lo hi :
  lower_limits !! Z.to_nat (overhead + j) = Some lo → upper_limits !! Z.to_nat (overhead + j) = Some hi →
  band_ok lo hi → length mem = cap → 0 <= j < max_books m →
  length (books m) = Z.to_nat (max_books m) →
  ∃ m', addBook m j (Some mem) 0 0 lo hi = Some m' ∧ book_ready overhead m' j ∧
    max_books m' = max_books m ∧ length (books m') = length (books m) ∧
    ∀ k, 0 <= k → book_ready overhead m k → book_ready overhead m' k.
Proof.
  intros Hlo Hhi (H1 & H2 & H3) Hmem Hj Hlen.
  destruct (OrderBook_new_ok mem lo hi H1 H2 H3) as (b & _ & Hb & _); [lia..|].
  assert (book_rep lo hi cap b (mkABook [] [])) as Hrep.
  { rewrite <- Hmem. eapply new_book_rep; try done; lia. }
  assert (get (put m j b) j = Some b) as Hget.
  { unfold get, put. cbn [max_books books]. replace (max_books m <=? j) with false by zb.
    by rewrite list_lookup_insert_eq by lia. }
  exists (put m j b). unfold addBook. replace (max_books m <=? j) with false by zb.
  rewrite Hb. cbn [mbind option_bind]. split; [done|].
  assert (book_ready overhead (put m j b) j) as Hready by (exists lo, hi, b; done).
  split; [done|]. split; [done|]. split; [simpl; by rewrite length_insert|].
  intros k Hk Hold. destruct (decide (k = j)) as [->|Hne]; [done|].
  destruct Hold as (lo' & hi' & b' & Hlo' & Hhi' & Hg & Hr). exists lo', hi', b'. split_and!; try done.
  unfold get, put in *. cbn [max_books books] in *. by rewrite list_lookup_insert_ne by lia.
Qed.

Lemma add_books_ready mem (junk : Z → Z * Z) overhead m ids : (∀ j, junk j = (0, 0)) →
  (∀ j, j ∈ ids → 0 <= j < max_books m ∧ ∃ lo hi,
     lower_limits !! Z.to_nat (overhead + j) = Some lo ∧
     upper_limits !! Z.to_nat (overhead + j) = Some hi ∧ band_ok lo hi) →
  (∀ j, length (mem j) = cap) → length (books m) = Z.to_nat (max_books m) →
  ∃ m', foldl (λ m symbol_id,
      m ← m;
      lo ← lower_limits !! Z.to_nat (overhead + symbol_id);
      hi ← upper_limits !! Z.to_nat (overhead + symbol_id);
      addBook m symbol_id (Some (mem symbol_id)) (junk symbol_id).1 (junk symbol_id).2 lo hi) (Some m) ids = Some m' ∧
    (∀ j, j ∈ ids → book_ready overhead m' j) ∧
    ∀ k, 0 <= k → book_ready overhead m k → book_ready overhead m' k.
Proof.
  intros Hjunk. revert m. induction ids as [|j ids IH]; intros m Hids Hmem Hlen.
  { exists m. split; [done|]. split; [|done]. intros j Hj. by apply elem_of_nil in Hj. }
  destruct (Hids j ltac:(left)) as (Hj & lo & hi & Hlo & Hhi & Hband).
  destruct (addBook_ready overhead m j (mem j) lo hi Hlo Hhi Hband (Hmem j) Hj Hlen)
    as (m1 & Hadd & Hrdy & Hmax & Hlen1 & Hkeep).
  destruct (IH m1) as (m' & Hrun & Hall & Hkeep').
  { intros k Hk. rewrite Hmax. apply Hids. by right. }
  { done. }
  { by rewrite Hlen1, Hmax. }
  exists m'. cbn [foldl mbind option_bind] in *. rewrite Hlo, Hhi. cbn [mbind option_bind].
  rewrite (Hjunk j). cbn [fst snd]. rewrite Hadd. split; [done|]. split; [|auto].
  intros k [->|Hk]%elem_of_cons; [|by apply Hall]. apply Hkeep'; [lia|done].
Qed.

Lemma for_groups_lookup f i gs :
  (∀ k g, gs !! k = Some g → is_Some (f (i + Z.of_nat k) g)) →
  ∃ gs', for_groups f i gs = Some gs' ∧
    ∀ k g, gs !! k = Some g → ∃ g', gs' !! k = Some g' ∧ f (i + Z.of_nat k) g = Some g'.
Proof.
  revert i. induction gs as [|g gs IH]; intros i Hf; [by exists []|].
  destruct (Hf 0%nat g eq_refl) as [g' Hg']. rewrite Z.add_0_r in Hg'.
  destruct (IH (i + 1)) as (gs' & Hrun & Hall).
  { intros k x Hk. replace (i + 1 + Z.of_nat k) with (i + Z.of_nat (S k)) by lia. by apply Hf. }
  exists (g' :: gs'). cbn [for_groups]. rewrite Hg'. cbn [mbind option_bind]. rewrite Hrun.
  split; [done|]. intros [|k] x Hk; simpl in Hk.
  - simplify_eq. exists g'. by rewrite Z.add_0_r.
  - destruct (Hall k x Hk) as (x' & Hx' & Hfx). exists x'. split; [done|].
    by replace (i + Z.of_nat (S k)) with (i + 1 + Z.of_nat k) by lia.
Qed.

Lemma init_group_ready mems junk i g :
  (∀ i j, junk i j = (0, 0)) →
  (∀ i j, length (mems i j) = cap) →
  (∀ sym, 0 <= sym < TOTAL_SYMBOLS → ∃ lo hi,
     lower_limits !! Z.to_nat sym = Some lo ∧ upper_limits !! Z.to_nat sym = Some hi ∧ band_ok lo hi) →
  0 <= i < GROUP_COUNT →
  ∃ m, init_group (λ i j, Some (mems i j)) junk lower_limits upper_limits i g
       = Some (set_bookmanager m (setup_book_manager g)) ∧
    ∀ j, 0 <= j < MAX_SYMBOLS → book_ready (i * MAX_SYMBOLS) m j.
Proof.
  intros Hjunk Hmem Hlim Hi. assert (Z.shiftl i SYMBOL_BITS = i * MAX_SYMBOLS) as Hsh
    by (rewrite Z.shiftl_mul_pow2 by (unfold SYMBOL_BITS; lia); done).
  destruct (add_books_ready (mems i) (junk i) (i * MAX_SYMBOLS) (OrderBookManager_new MAX_SYMBOLS)
              (seqZ 0 MAX_SYMBOLS) (Hjunk i)) as (m' & Hrun & Hall & _).
  - intros j Hj. apply elem_of_seqZ in Hj. split; [simpl; lia|]. apply Hlim.
    unfold TOTAL_SYMBOLS, GROUP_COUNT in *. nia.
  - apply Hmem.
  - apply length_replicate.
  - exists m'. split; [|intros j Hj; apply Hall, elem_of_seqZ; lia].
    unfold init_group, add_books, setup_book_manager. cbn [bookmanager set_bookmanager mbind option_bind].
    rewrite Hsh. fold MAX_SYMBOLS. by rewrite Hrun.
Qed.

(** [initialize_engine] gives every one of the 2048 symbols a book of its
    own: empty, within the symbol's price limits, with the given pool, and
    found under the index that [process_order] uses.  Hypotheses: [malloc]
    returns blocks of the requested size, and the two totals, which the
    constructor leaves uninitialised, happen to be zero. *)
Theorem initialize_engine_books mems junk d :
  (∀ i j, junk i j = (0, 0)) →
  length (groups d) = Z.to_nat GROUP_COUNT →
  (∀ i j, length (mems i j) = cap) →
  (∀ sym, 0 <= sym < TOTAL_SYMBOLS → ∃ lo hi,
     lower_limits !! Z.to_nat sym = Some lo ∧ upper_limits !! Z.to_nat sym = Some hi ∧ band_ok lo hi) →
  ∃ d', initialize_engine (λ i j, Some (mems i j)) junk lower_limits upper_limits d = Some d' ∧
    ∀ sym, 0 <= sym < TOTAL_SYMBOLS → ∃ g m b lo hi,
      groups d' !! Z.to_nat (sym / MAX_SYMBOLS) = Some g ∧ bookmanager g = Some m ∧
      get m (Z.land sym SYMBOL_MASK) = Some b ∧
      lower_limits !! Z.to_nat sym = Some lo ∧ upper_limits !! Z.to_nat sym = Some hi ∧
      book_rep lo hi cap b (mkABook [] []).
Proof.
  intros Hjunk Hl Hmem Hlim.
  set (f := init_group (λ i j, Some (mems i j)) junk lower_limits upper_limits).
  pose proof (λ i g, init_group_ready mems junk i g Hjunk Hmem Hlim) as Hf. fold f in Hf.
  destruct (for_groups_lookup f 0 (groups d)) as (gs' & Hrun & Hall).
  { intros k g Hk. apply lookup_lt_Some in Hk. destruct (Hf (0 + Z.of_nat k) g) as (m & Hm & _); [lia|eauto]. }
  exists (set_groups gs' d). split; [unfold initialize_engine; fold f; by rewrite Hrun|].
  intros sym Hsym. pose proof (Z.div_mod sym MAX_SYMBOLS ltac:(done)) as Hdm.
  pose proof (Z.mod_pos_bound sym MAX_SYMBOLS ltac:(done)) as Hmod.
  assert (0 <= sym / MAX_SYMBOLS < GROUP_COUNT) as Hg.
  { split; [apply Z.div_pos; [lia|done]|]. apply Z.div_lt_upper_bound; [done|]. unfold TOTAL_SYMBOLS in Hsym. lia. }
  destruct (lookup_lt_is_Some_2 (groups d) (Z.to_nat (sym / MAX_SYMBOLS))) as [g0 Hg0]; [lia|].
  destruct (Hall _ _ Hg0) as (g & Hgs & Hfg).
  rewrite Z2Nat.id, Z.add_0_l in Hfg by lia. destruct (Hf _ g0 Hg) as (m & Hm & Hready).
  rewrite Hfg in Hm. apply (inj Some) in Hm. subst g. destruct (Hready _ Hmod) as (lo & hi & b & Hlo & Hhi & Hget & Hrep).
  replace (sym / MAX_SYMBOLS * MAX_SYMBOLS + sym mod MAX_SYMBOLS) with sym in Hlo, Hhi by lia.
  eexists _, m, b, lo, hi. split; [exact Hgs|]. split; [reflexivity|].
  split; [|split; [exact Hlo|split; [exact Hhi|exact Hrep]]].
  unfold SYMBOL_MASK. rewrite land_mask by (unfold SYMBOL_BITS; lia). exact Hget.
Qed.
End setup.

(** * Witnesses *)

Lemma process_order_refines_witness :
  ∃ g' ltp' b', process_order Demo.bid (Demo.traded_group, replicate 4 0) = Some (g', ltp') ∧
    bookmanager g' = Some (put Demo.traded_manager 0 b') ∧
    book_rep 100 110 2 b' (mkABook [set_quantity 3 Demo.bid] []) ∧
    published [mkTrade 1 1001 103 80 70 0 5] g' ∧ ltp' = [103; 0; 0; 0].
Proof.
  destruct (process_order_refines 100 110 2 Demo.bid Demo.traded_group (replicate 4 0)
              Demo.traded_manager Demo.book (mkABook [] [Demo.ask]) eq_refl eq_refl Demo.book_ok
              Demo.bid_admissible [] [(Demo.ask, 5)] (mkABook [set_quantity 3 Demo.bid] []))
    as (g' & ltp' & b' & H1 & H2 & H3 & H4 & H5 & _).
  - reflexivity.
  - apply Demo.nothing_published.
  - reflexivity.
  - exists g', ltp', b'. split_and!; assumption.
Defined.

Lemma process_order_priority_witness :
  ∃ g' ltp' fs, process_order Demo.bid (Demo.traded_group, replicate 4 0) = Some (g', ltp') ∧
    (fst <$> (fs : list fill)) `prefix_of` [Demo.ask].
Proof.
  destruct (process_order_priority 100 110 2 Demo.bid Demo.traded_group (replicate 4 0)
              Demo.traded_manager Demo.book (mkABook [] [Demo.ask]) eq_refl eq_refl Demo.book_ok
              Demo.bid_admissible) as (g' & ltp' & b' & fs & a' & H1 & _ & _ & _ & H2 & _).
  exists g', ltp', fs. split; assumption.
Defined.

Lemma process_order_totals_witness :
  ∃ g' ltp' b', process_order Demo.bid (Demo.traded_group, replicate 4 0) = Some (g', ltp') ∧
    bookmanager g' = Some (put Demo.traded_manager 0 b') ∧ total_of SELL b' = total_of SELL Demo.book - 5 ∧
    total_of BUY b' = total_of BUY Demo.book + 3.
Proof.
  destruct (process_order_totals 100 110 2 Demo.bid Demo.traded_group (replicate 4 0)
              Demo.traded_manager Demo.book (mkABook [] [Demo.ask]) eq_refl eq_refl Demo.book_ok
              Demo.bid_admissible [(Demo.ask, 5)] (mkABook [set_quantity 3 Demo.bid] []) eq_refl)
    as (g' & ltp' & b' & H1 & H2 & H3 & H4 & _).
  exists g', ltp', b'. split_and!; assumption.
Defined.

Lemma process_order_uncrossed_witness :
  ∃ g' ltp' b' p p', process_order Demo.bid (Demo.traded_group, replicate 4 0) = Some (g', ltp') ∧
    bookmanager g' = Some (put Demo.traded_manager 0 b') ∧
    bestbuyprice b' = Some (p, b') ∧ bestsellprice b' = Some (p', b') ∧ p < p'.
Proof.
  exact (process_order_uncrossed 100 110 2 Demo.bid Demo.traded_group (replicate 4 0)
           Demo.traded_manager Demo.book (mkABook [] [Demo.ask]) eq_refl eq_refl Demo.book_ok
           Demo.bid_admissible).
Defined.

Definition high_bid : Order := mkOrder 9 LIMIT 111 1002 2 BUY 0 8 90.

Lemma process_order_rejects_witness :
  process_order high_bid (Demo.traded_group, []) = Some (Demo.traded_group, []).
Proof.
  apply (process_order_rejects 100 110 2 high_bid Demo.traded_group [] Demo.traded_manager Demo.book
           (mkABook [] [Demo.ask])); try reflexivity.
  - apply Demo.book_ok.
  - simpl. lia.
Defined.

(** The demo book with a second sell order, which fills the pool of two. *)
Definition ask2 : Order := mkOrder 9 LIMIT 105 1002 2 SELL 0 8 90.
Definition ask3 : Order := mkOrder 10 LIMIT 106 1003 2 SELL 0 8 91.
Definition full_book : OrderBook :=
  match addSellOrder ask2 Demo.book with Some (_, b) => b | None => Demo.book end.
Definition full_group : GroupProcessor := set_bookmanager (put Demo.manager 0 full_book) Demo.group.

Lemma full_book_ok : book_rep 100 110 2 full_book (mkABook [] [Demo.ask; ask2]).
Proof.
  destruct (rest_ok SELL ask2 100 110 2 Demo.book (mkABook [] [Demo.ask]) Demo.book_ok)
    as (ok & b' & Hadd & Hb').
  { reflexivity. }
  { simpl. lia. }
  { simpl. lia. }
  { intros x Hx. apply list_elem_of_singleton in Hx as ->. done. }
  { intros x Hx. by apply elem_of_nil in Hx. }
  unfold full_book. change (addSellOrder ask2 Demo.book) with (add_order SELL ask2 Demo.book).
  by rewrite Hadd.
Qed.

Lemma process_order_pool_full_witness :
  process_order ask3 (full_group, []) = Some (full_group, []).
Proof.
  apply (process_order_pool_full 100 110 2 ask3 full_group [] (put Demo.manager 0 full_book) full_book
           (mkABook [] [Demo.ask; ask2])); try reflexivity.
  - apply full_book_ok.
  - simpl. lia.
Defined.

(** The demo group with [bid] pending. *)
Definition queued : RingBuffer Order :=
  match push Demo.bid (group_queue Demo.traded_group) with
  | Some (_, q) => q
  | None => group_queue Demo.traded_group
  end.
Definition queued_group : GroupProcessor := set_group_queue queued Demo.traded_group.
Definition demo_books : gmap Z symbol_book := {[0 := mkSymbolBook 100 110 2 (mkABook [] [Demo.ask])]}.

Lemma effective_2 : effective 2 2.
Proof. split; [|lia..]. exists 1, 0. done. Qed.

Lemma queued_rep : group_rep 2 queued_group (mkAGroup demo_books [] 1 [Demo.bid]).
Proof.
  split; try done.
  - exists Demo.traded_manager. split; [done|]. intros i sb Hi. unfold demo_books in Hi. simpl in Hi.
    apply lookup_singleton_Some in Hi as [<- <-]. split; [done|]. exists Demo.book. split; [done|].
    apply Demo.book_ok.
  - pose proof (push_ok 2 (group_queue Demo.traded_group) [] Demo.bid
                  (RingBuffer_new_rep Order_default 2 2 effective_2)) as Hp.
    cbn [length Z.of_nat Z.eqb Z.sub] in Hp. destruct Hp as (q & Hq & Hrep).
    unfold queued_group, queued. rewrite Hq. exact Hrep.
Qed.

Lemma queued_batch : batch_ok (mkAGroup demo_books [] 1 [Demo.bid]) [Demo.bid].
Proof.
  split.
  - intros o ->%list_elem_of_singleton. split; [apply Demo.bid_typed|simpl; lia].
  - intros o ->%list_elem_of_singleton. by eexists.
  - apply NoDup_singleton.
  - intros i sb x o Hi Hx ->%list_elem_of_singleton. unfold demo_books in Hi. simpl in Hi.
    apply lookup_singleton_Some in Hi as [<- <-]. by apply list_elem_of_singleton in Hx as ->.
Qed.

Lemma group_thread_refines_witness :
  ∃ g' ltp', run_group_thread 1 (queued_group, []) = Some (g', ltp') ∧
    group_rep 2 g'
      (aprocess_order Demo.bid (mkAGroup demo_books [] 1 [])).
Proof.
  apply (group_thread_refines 2 queued_group [] (mkAGroup demo_books [] 1 [Demo.bid])).
  - apply queued_rep.
  - apply queued_batch.
  - reflexivity.
Defined.

(** A dispatcher over the demo group and a second, empty one. *)
Definition demo_dispatcher (g : GroupProcessor) : MatchingEngineDispatcher :=
  mkDispatcher [g; GroupProcessor_new 1 2 ∅] false true (replicate (Z.to_nat MAX_SYMBOLS) 0).

Lemma idle_rep : group_rep 2 Demo.traded_group (mkAGroup demo_books [] 1 []).
Proof.
  destruct queued_rep as [Hb [Hr Hh] Hid Hidr _ Hal].
  split; [exact Hb|by split|exact Hid|exact Hidr| |exact Hal].
  apply (RingBuffer_new_rep Order_default 2 2 effective_2).
Qed.

Lemma dispatch_order_routes_witness :
  ∃ d' g', dispatch_order [] Demo.bid (demo_dispatcher Demo.traded_group) = Some (true, d') ∧
    groups d' = [g'; GroupProcessor_new 1 2 ∅] ∧ group_rep 2 g' (mkAGroup demo_books [] 1 [Demo.bid]).
Proof.
  destruct (dispatch_order_routes (demo_dispatcher Demo.traded_group) Demo.bid [] 0 Demo.traded_group 2
              (mkAGroup demo_books [] 1 [])) as (_ & d' & g' & H1 & H2 & _ & H3).
  - reflexivity.
  - vm_compute. split; [discriminate|reflexivity].
  - reflexivity.
  - reflexivity.
  - apply idle_rep.
  - reflexivity.
  - exists d', g'. split; [assumption|]. split; [exact H2|exact H3].
Defined.

Definition late_bid : Order := mkOrder 12 LIMIT 101 1005 2 BUY 0 1 95.

Lemma dispatch_order_waits_witness :
  dispatch_order [] late_bid (demo_dispatcher queued_group) = Some (false, demo_dispatcher queued_group) ∧
  ∃ d' g', dispatch_order [[0%nat]] late_bid (demo_dispatcher queued_group) = Some (true, d') ∧
    groups d' !! 0%nat = Some g' ∧
    group_rep 2 g' (set_pending [late_bid] (aprocess_order Demo.bid (mkAGroup demo_books [] 1 [Demo.bid]))).
Proof.
  apply (dispatch_order_waits (demo_dispatcher queued_group) late_bid 0 queued_group 2
           (mkAGroup demo_books [] 1 [Demo.bid]) Demo.bid []).
  - reflexivity.
  - vm_compute. split; [discriminate|reflexivity].
  - reflexivity.
  - reflexivity.
  - apply queued_rep.
  - reflexivity.
  - reflexivity.
  - eexists. split; [reflexivity|apply Demo.bid_admissible].
  - intros sb Hsb. apply (inj Some) in Hsb. subst sb. reflexivity.
Defined.

Lemma initialize_engine_books_witness :
  ∃ d', initialize_engine (λ i j, Some [Demo.node; Demo.node]) (λ _ _, (0, 0))
          (replicate (Z.to_nat TOTAL_SYMBOLS) 100) (replicate (Z.to_nat TOTAL_SYMBOLS) 110)
          (MatchingEngineDispatcher_new 16 []) = Some d'.
Proof.
  destruct (initialize_engine_books (replicate (Z.to_nat TOTAL_SYMBOLS) 100)
              (replicate (Z.to_nat TOTAL_SYMBOLS) 110) 2 ltac:(lia)
              (λ _ _, [Demo.node; Demo.node]) (λ _ _, (0, 0)) (MatchingEngineDispatcher_new 16 [])) as (d' & H & _).
  - reflexivity.
  - reflexivity.
  - reflexivity.
  - intros sym Hsym. exists 100, 110. rewrite !lookup_replicate_2 by lia.
    split; [reflexivity|]. split; [reflexivity|]. unfold band_ok. mach.
  - exists d'. exact H.
Defined.
