(* ===== verification/Ledger.v ===== *)
(** Quantities per order id through an engine group: what the trades of a
    group say about an id never exceeds the quantity of the orders with that
    id that the group was given, whatever the other orders do.

    Trades carry client order ids, so these are the ids counted here.  The
    OMS credits icebergs from the trades alone; [Iceberg] uses this file. *)

From S2P Require Import Prelude Types PriceTime BookInv Engine Group.

(** * Tallies *)

(** What the items of [l] under the key [c] amount to. *)
Definition tally {A} (key amount : A → Z) (c : Z) (l : list A) : Z :=
  foldr (λ x n, (if key x =? c then amount x else 0) + n) 0 l.

Section tally.
Context {A : Type} (key amount : A → Z).
Implicit Types (c : Z) (l : list A).

Lemma tally_cons c x l : tally key amount c (x :: l) = (if key x =? c then amount x else 0) + tally key amount c l.
Proof. done. Qed.

Lemma tally_app c l1 l2 : tally key amount c (l1 ++ l2) = tally key amount c l1 + tally key amount c l2.
Proof. induction l1 as [|x l1 IH]; [done|]. cbn [app]. rewrite !tally_cons, IH. lia. Qed.

Lemma tally_snoc c l x : tally key amount c (l ++ [x]) = tally key amount c l + (if key x =? c then amount x else 0).
Proof. rewrite tally_app, tally_cons. cbn. lia. Qed.

Lemma tally_perm c l1 l2 : l1 ≡ₚ l2 → tally key amount c l1 = tally key amount c l2.
Proof. induction 1; rewrite ?tally_cons; try lia. Qed.

Lemma tally_nonneg c l : Forall (λ x, 0 <= amount x) l → 0 <= tally key amount c l.
Proof. induction 1 as [|x l Hx _ IH]; [done|]. rewrite tally_cons. case_match; lia. Qed.

Lemma tally_none c l : (∀ x, x ∈ l → key x ≠ c) → tally key amount c l = 0.
Proof.
  induction l as [|x l IH]; intros Hl; [done|]. rewrite tally_cons, IH by (intros y Hy; apply Hl; by right).
  rewrite (proj2 (Z.eqb_neq _ _)); [done|]. apply Hl. left.
Qed.

Lemma tally_prefix c l1 l2 :
  Forall (λ x, 0 <= amount x) l2 → l1 `prefix_of` l2 → tally key amount c l1 <= tally key amount c l2.
Proof.
  intros Hl [k ->]. rewrite tally_app. apply Forall_app in Hl as [_ Hk]. pose proof (tally_nonneg c k Hk). lia.
Qed.

Lemma tally_unique c l x :
  x ∈ l → key x = c → NoDup (key <$> l) → tally key amount c l = amount x.
Proof.
  intros Hx <- Hnd. induction l as [|y l IH]; [by apply elem_of_nil in Hx|].
  rewrite fmap_cons in Hnd. apply NoDup_cons in Hnd as [Hni Hnd]. rewrite tally_cons.
  apply elem_of_cons in Hx as [->|Hx].
  - rewrite Z.eqb_refl, tally_none; [lia|]. intros z Hz Heq. apply Hni. rewrite <- Heq. by apply list_elem_of_fmap_2.
  - rewrite IH by done. rewrite (proj2 (Z.eqb_neq _ _)); [done|]. intros Heq. apply Hni. rewrite Heq.
    by apply list_elem_of_fmap_2.
Qed.
End tally.

(** The quantity of the orders with id [c], and what trades say about [c]. *)
Definition ordered (c : Z) (l : list Order) : Z := tally o_client_order_id o_quantity c l.

Definition leg : Type := Z * Z.
Definition legs_of (t : Trade) : list leg := [(t_buy_order_id t, t_quantity t); (t_sell_order_id t, t_quantity t)].
Definition legs (ts : list Trade) : list leg := concat (legs_of <$> ts).
Definition traded (c : Z) (l : list leg) : Z := tally fst snd c l.

Lemma legs_app ts1 ts2 : legs (ts1 ++ ts2) = legs ts1 ++ legs ts2.
Proof. unfold legs. by rewrite fmap_app, concat_app. Qed.

Lemma legs_snoc ts t : legs (ts ++ [t]) = legs ts ++ legs_of t.
Proof. rewrite legs_app. unfold legs at 2. cbn. done. Qed.

(** * One order *)

(** What the fills say about the resting orders with id [c]. *)
Definition filled_rest (c : Z) (fs : list fill) : Z := tally (λ f, o_client_order_id f.1) snd c fs.

Lemma amatch_ledger c ok q l fs q' r :
  amatch ok q l = (fs, q', r) → ordered c l = filled_rest c fs + ordered c r.
Proof.
  revert q fs q' r. induction l as [|m l IH]; intros q fs q' r; cbn [amatch].
  { intros [= <- <- <-]. done. }
  destruct ((0 <? q) && ok (o_price m)); [|by intros [= <- <- <-]].
  destruct (q <? o_quantity m).
  { intros [= <- <- <-]. unfold ordered, filled_rest. rewrite !tally_cons. cbn. case_match; lia. }
  destruct (amatch ok (q - o_quantity m) l) as [[fs0 q0] r0] eqn:E.
  intros [= <- <- <-]. apply IH in E. unfold ordered, filled_rest in *. rewrite !tally_cons, E. cbn. lia.
Qed.

(** Positive quantities stay positive, and every fill is positive. *)
Definition positive (l : list Order) : Prop := Forall (λ o, 0 < o_quantity o) l.

Lemma amatch_positive ok q l fs q' r :
  amatch ok q l = (fs, q', r) → positive l → positive r ∧ Forall (λ f, 0 < f.2) fs.
Proof.
  revert q fs q' r. induction l as [|m l IH]; intros q fs q' r; cbn [amatch].
  { by intros [= <- <- <-]. }
  intros H Hp. pose proof Hp as [Hm Hl]%Forall_cons.
  destruct ((0 <? q) && ok (o_price m)) eqn:Eq; [|injection H as <- <- <-; done].
  apply andb_true_iff in Eq as [Hq%Z.ltb_lt _]. destruct (Z.ltb_spec q (o_quantity m)).
  { injection H as <- <- <-. split; [constructor; [cbn; lia|done]|by repeat constructor]. }
  destruct (amatch ok (q - o_quantity m) l) as [[fs0 q0] r0] eqn:E. injection H as <- <- <-.
  destruct (IH _ _ _ _ E Hl). split; [done|]. by constructor.
Qed.

Lemma trades_ledger c o fs : ∀ id,
  traded c (legs (trades_of o id fs)) = (if o_client_order_id o =? c then sum_fills fs else 0) + filled_rest c fs.
Proof.
  induction fs as [|[m q] fs IH]; intros id; [cbn; by case_match|]. cbn [trades_of].
  change (trade_of o id (m, q) :: trades_of o (u64 (id + 1)) fs)
    with ([trade_of o id (m, q)] ++ trades_of o (u64 (id + 1)) fs).
  rewrite legs_app. unfold traded, filled_rest in *. rewrite tally_app, IH, tally_cons.
  change (sum_fills ((m, q) :: fs)) with (q + sum_fills fs).
  assert (tally fst snd c (legs [trade_of o id (m, q)])
    = (if o_client_order_id o =? c then q else 0) + (if o_client_order_id m =? c then q else 0)) as ->
    by (unfold trade_of; destruct (o_type o); cbn; lia).
  cbn [fst snd]. destruct (o_client_order_id o =? c), (o_client_order_id m =? c); lia.
Qed.

Lemma trades_positive o fs : ∀ id, Forall (λ f, 0 < f.2) fs → Forall (λ t, 0 < t_quantity t) (trades_of o id fs).
Proof.
  induction fs as [|[m q] fs IH]; intros id Hf; [constructor|]. apply Forall_cons in Hf as [Hq Hf]. constructor; [|by apply IH].
  unfold trade_of. by destruct (o_type o).
Qed.

Lemma resting_ledger c s a : ordered c (resting a) = ordered c (queue s a) + ordered c (queue (opposite s) a).
Proof. unfold ordered, resting. rewrite tally_app. destruct s; cbn [queue opposite]; lia. Qed.

(** The trades of an order and what rests afterwards, for every id. *)
Lemma aengine_ledger c lo hi cap o a fs a' :
  aengine lo hi cap o a = (fs, a') → 0 < o_quantity o → positive (resting a) →
  positive (resting a') ∧ Forall (λ f, 0 < f.2) fs ∧
  (if o_client_order_id o =? c then sum_fills fs else 0) + filled_rest c fs + ordered c (resting a')
  <= ordered c (resting a) + (if o_client_order_id o =? c then o_quantity o else 0).
Proof.
  intros He Hq Hp. unfold aengine in He. destruct (is_market o || _); [|injection He as <- <-].
  2: { split; [done|]. split; [constructor|]. cbn. case_match; lia. }
  unfold aprocess in He. set (s := o_type o) in *.
  destruct (amatch _ (o_quantity o) (queue (opposite s) a)) as [[fs0 q] r] eqn:Em.
  assert (positive (queue s a) ∧ positive (queue (opposite s) a)) as [Hps Hpo].
  { unfold positive, resting in *. apply Forall_app in Hp as [H1 H2]. by destruct s. }
  destruct (amatch_positive _ _ _ _ _ _ Em Hpo) as [Hpr Hpf].
  pose proof (amatch_ledger c _ _ _ _ _ _ Em) as Hl. pose proof (amatch_conservation _ _ _ _ _ _ Em) as Hc.
  destruct (amatch_exhausts _ _ _ _ _ _ Em ltac:(lia)) as [Hq0 _].
  rewrite (resting_ledger c s a), Hl.
  destruct (is_market o || (q =? 0) || negb _) eqn:Eb; injection He as <- <-.
  - split; [|split; [done|]].
    + unfold positive, resting. apply Forall_app. destruct s; cbn; by split.
    + rewrite (resting_ledger c s). destruct s; cbn [opposite queue set_queue bids asks];
        (destruct (o_client_order_id o =? c); lia).
  - assert (q ≠ 0) by (intros ->; rewrite orb_true_r in Eb; done).
    split; [|split; [done|]].
    + unfold positive, resting. apply Forall_app.
      destruct s; cbn [opposite queue set_queue bids asks]; split; try done; rewrite insert_prio_perm;
        (constructor; [cbn; lia|done]).
    + rewrite (resting_ledger c s).
      assert (ordered c (insert_prio s (set_quantity q o) (queue s a))
        = (if o_client_order_id o =? c then q else 0) + ordered c (queue s a)) as Hins.
      { unfold ordered. rewrite (tally_perm _ _ c _ _ (insert_prio_perm s (set_quantity q o) (queue s a))). done. }
      destruct s; cbn [opposite queue set_queue bids asks] in *; rewrite Hins; (destruct (o_client_order_id o =? c); lia).
Qed.

Lemma trades_keys o fs l : ∀ id, l ∈ legs (trades_of o id fs) →
  l.1 = o_client_order_id o ∨ ∃ f, f ∈ fs ∧ l.1 = o_client_order_id f.1.
Proof.
  induction fs as [|[m q] fs IH]; intros id Hl; [by apply elem_of_nil in Hl|].
  change (l ∈ legs_of (trade_of o id (m, q)) ++ legs (trades_of o (u64 (id + 1)) fs)) in Hl.
  apply elem_of_app in Hl as [Hl|Hl].
  - unfold legs_of, trade_of in Hl.
    destruct (o_type o); cbn in Hl; rewrite !elem_of_cons in Hl; destruct Hl as [->|[->|Hl]];
      try (by left); try (right; exists (m, q); split; [left|done]); by apply elem_of_nil in Hl.
  - destruct (IH _ Hl) as [?|(f & Hf & ?)]; [by left|right]. exists f. split; [by right|done].
Qed.

(** Values of their C++ types. *)
Record trade_typed (t : Trade) : Prop := {
  tt_trade_id : is_u64 (t_trade_id t);
  tt_timestamp : is_u64 (t_timestamp_ns t);
  tt_price : is_u64 (t_price t);
  tt_symbol : is_u32 (t_symbol_id t);
  tt_quantity : is_u32 (t_quantity t)
}.

Lemma fill_le_sum fs f : Forall (λ f, 0 < f.2) fs → f ∈ fs → f.2 <= sum_fills fs.
Proof.
  induction 1 as [|g fs Hg Hfs IH]; intros Hf; [by apply elem_of_nil in Hf|].
  assert (0 <= sum_fills fs) by (clear -Hfs; induction Hfs as [|h fs Hh _ IH]; cbn; [done|]; unfold sum_fills in *; lia).
  change (sum_fills (g :: fs)) with (g.2 + sum_fills fs). apply elem_of_cons in Hf as [->|Hf]; [lia|]. specialize (IH Hf). lia.
Qed.

Lemma trades_typed o fs : ∀ id, is_u64 id → order_typed o →
  (∀ f, f ∈ fs → is_u64 (o_price f.1) ∧ is_u32 f.2) → Forall trade_typed (trades_of o id fs).
Proof.
  induction fs as [|[m q] fs IH]; intros id Hid Ho Hf; [constructor|]. cbn [trades_of]. constructor.
  - destruct (Hf (m, q) ltac:(left)), Ho. unfold trade_of. by destruct (o_type o).
  - apply IH; [apply u64_range|done|]. intros f Hin. apply Hf. by right.
Qed.

(** An order trades no more than its quantity. *)
Lemma aengine_filled lo hi cap o a fs a' :
  aengine lo hi cap o a = (fs, a') → 0 <= o_quantity o → sum_fills fs <= o_quantity o.
Proof.
  intros He Hq. unfold aengine in He. destruct (is_market o || _); [|injection He as <- _; done]. unfold aprocess in He.
  destruct (amatch _ (o_quantity o) _) as [[fs0 q] r] eqn:Em. pose proof (amatch_conservation _ _ _ _ _ _ Em).
  destruct (amatch_exhausts _ _ _ _ _ _ Em Hq) as [Hq0 _]. destruct (_ || _ || _); injection He as <- _; lia.
Qed.

(** * A group *)

(** What rests under the id [c] in all books of a group. *)
Definition books_rest (c : Z) (m : gmap Z symbol_book) : Z :=
  map_fold (λ _ sb n, ordered c (resting (sb_book sb)) + n) 0 m.

Lemma books_rest_delete c m j sb : m !! j = Some sb →
  books_rest c m = ordered c (resting (sb_book sb)) + books_rest c (delete j m).
Proof. intros Hj. unfold books_rest. rewrite (map_fold_delete_L _ _ j sb) by (done || lia). done. Qed.

Lemma books_rest_update c m j sb sb' : m !! j = Some sb →
  books_rest c (<[j := sb']> m) = books_rest c m - ordered c (resting (sb_book sb)) + ordered c (resting (sb_book sb')).
Proof.
  intros Hj. rewrite (books_rest_delete c m j sb Hj), (books_rest_delete c (<[j := sb']> m) j sb') by apply lookup_insert_eq.
  rewrite delete_insert_eq. lia.
Qed.

Lemma books_rest_nonneg c m : (∀ j sb, m !! j = Some sb → positive (resting (sb_book sb))) → 0 <= books_rest c m.
Proof.
  intros Hp. unfold books_rest. apply (map_fold_weak_ind (λ n m, (∀ j sb, m !! j = Some sb → positive (resting (sb_book sb))) → 0 <= n)); [done| |done].
  intros j sb m' n Hj IH Hm. assert (0 <= ordered c (resting (sb_book sb))).
  { apply tally_nonneg. eapply Forall_impl; [apply (Hm j); apply lookup_insert_eq|]. cbn. lia. }
  assert (0 <= n); [|lia]. apply IH. intros k sb' Hk. apply (Hm k). rewrite lookup_insert_ne; [done|]. intros ->. congruence.
Qed.

(** The group [A] has been given the orders [dn]. *)
Record balanced (dn : list Order) (A : AGroup) : Prop := {
  ba_positive j sb : ag_books A !! j = Some sb → positive (resting (sb_book sb));
  ba_trades : Forall (λ t, 0 < t_quantity t) (ag_trades A);
  ba_ledger c : traded c (legs (ag_trades A)) + books_rest c (ag_books A) <= ordered c dn;
  ba_resting j sb x : ag_books A !! j = Some sb → x ∈ resting (sb_book sb) →
    o_client_order_id x ∈ (o_client_order_id <$> dn);
  ba_legs l : l ∈ legs (ag_trades A) → l.1 ∈ (o_client_order_id <$> dn);
  ba_prices j sb x : ag_books A !! j = Some sb → x ∈ resting (sb_book sb) → is_u64 (o_price x);
  ba_typed : Forall trade_typed (ag_trades A);
  ba_next : is_u64 (ag_next_id A)
}.

Lemma balanced_snoc dn A o :
  order_typed o → 0 < o_quantity o → balanced dn A → balanced (dn ++ [o]) (aprocess_order o A).
Proof.
  intros Hty Hq [Hp Ht Hl Hk Hg Hpr Htt Hid].
  assert (∀ c, c ∈ (o_client_order_id <$> dn) → c ∈ (o_client_order_id <$> dn ++ [o])) as Hmore
    by (intros c Hc; rewrite fmap_app; set_solver).
  assert (o_client_order_id o ∈ (o_client_order_id <$> dn ++ [o])) as Hself by (rewrite fmap_app; set_solver).
  unfold aprocess_order. destruct (ag_books A !! symbol_index o) as [sb|] eqn:Hsb.
  2: { split; [done|done| |by eauto|by eauto|done|done|done]. intros c. specialize (Hl c). unfold ordered in *. rewrite tally_snoc. case_match; lia. }
  destruct (aengine (sb_lo sb) (sb_hi sb) (sb_cap sb) o (sb_book sb)) as [fs a'] eqn:Ha.
  pose proof (λ c, aengine_ledger c _ _ _ _ _ _ _ Ha Hq (Hp _ _ Hsb)) as Hstep.
  destruct (aengine_orders _ _ _ _ _ _ _ Ha) as [Hka Hkf].
  destruct (Hstep 0) as (Hp' & Hf & _). split; cbn [ag_books ag_trades].
  - intros j sb' Hj. rewrite lookup_insert in Hj. case_decide; [|by apply (Hp j)].
    apply (inj Some) in Hj. subst sb'. exact Hp'.
  - apply Forall_app. split; [done|by apply trades_positive].
  - intros c. destruct (Hstep c) as (_ & _ & Hc). specialize (Hl c).
    rewrite legs_app, (books_rest_update c _ _ sb) by done. unfold traded, ordered in *.
    rewrite tally_app, tally_snoc. fold (traded c (legs (trades_of o (ag_next_id A) fs))).
    rewrite trades_ledger. cbn [sb_book]. lia.
  - intros j sb' x Hj Hx. rewrite lookup_insert in Hj. case_decide; [|by eapply Hmore, Hk].
    apply (inj Some) in Hj. subst sb'. destruct (Hka x Hx) as (y & [->|Hy] & ->); [done|]. by apply Hmore, (Hk _ _ y Hsb).
  - intros l Hin. rewrite legs_app in Hin. apply elem_of_app in Hin as [Hin|Hin]; [by apply Hmore, Hg|].
    destruct (trades_keys _ _ _ _ Hin) as [->|(f & Hf' & ->)]; [done|]. by eapply Hmore, Hk, Hkf.
  - intros j sb' x Hj Hx. rewrite lookup_insert in Hj. case_decide; [|by apply (Hpr j sb')].
    apply (inj Some) in Hj. subst sb'. destruct (Hka x Hx) as (y & [->|Hy] & ->); [apply Hty|by apply (Hpr _ _ y Hsb)].
  - apply Forall_app. split; [done|]. apply trades_typed; [done|done|]. intros f Hin. split; [by apply (Hpr _ _ _ Hsb), Hkf|].
    rewrite Forall_forall in Hf. pose proof (Hf f Hin). pose proof (fill_le_sum fs f ltac:(by apply Forall_forall) Hin).
    pose proof (aengine_filled _ _ _ _ _ _ _ Ha ltac:(lia)). pose proof (ot_quantity _ Hty). mach.
  - apply u64_range.
Qed.

(** No id ever trades more than was ordered under it. *)
Lemma balanced_traded dn A c : balanced dn A → traded c (legs (ag_trades A)) <= ordered c dn.
Proof. intros [Hp _ Hl _ _ _ _ _]. pose proof (books_rest_nonneg c _ Hp). specialize (Hl c). lia. Qed.
