(* ===== verification/Oms.v ===== *)
(** [OrderManagementSystem] of include/oms.h and src/oms.cpp: symbol lookup,
    the intake of client orders, iceberg slicing, the stop-loss registry and
    the polling of trades and prices.

    Orders handed to [engine->dispatch_order] are collected, in order, in
    [sent]; the dispatcher's own behaviour is the subject of [Engine].  The
    successive results of [getCurrentTimestamp] and the value of the field
    [price], which the intake leaves uninitialised in a market order, are
    parameters. *)

From S2P Require Import Prelude Types Heap TradeRing RingBuffer Engine.

(** * Data *)

Inductive ClientOrderType := CMARKET | CLIMIT | CSTOP_LOSS | CICEBERG.

#[export] Instance ClientOrderType_eq_dec : EqDecision ClientOrderType.
Proof. solve_decision. Defined.

(** [symbol] is the array [char symbol[8]], as signed char values. *)
Record ClientOrder := mkClientOrder {
  c_client_order_id : Z;
  c_price : Z;
  c_trigger_price : Z;
  c_symbol : list Z;
  c_symbol_id : Z;
  c_trader_id : Z;
  c_type : OrderType;
  c_quantity : Z;
  c_display_quantity : Z;
  c_filled_quantity : Z;
  c_execution_type : ClientOrderType;
  c_is_active : bool
}.

Definition set_c_symbol_id (i : Z) (c : ClientOrder) : ClientOrder :=
  mkClientOrder (c_client_order_id c) (c_price c) (c_trigger_price c) (c_symbol c) i (c_trader_id c)
    (c_type c) (c_quantity c) (c_display_quantity c) (c_filled_quantity c) (c_execution_type c) (c_is_active c).
Definition set_c_filled (q : Z) (c : ClientOrder) : ClientOrder :=
  mkClientOrder (c_client_order_id c) (c_price c) (c_trigger_price c) (c_symbol c) (c_symbol_id c) (c_trader_id c)
    (c_type c) (c_quantity c) (c_display_quantity c) q (c_execution_type c) (c_is_active c).
Definition set_c_active (a : bool) (c : ClientOrder) : ClientOrder :=
  mkClientOrder (c_client_order_id c) (c_price c) (c_trigger_price c) (c_symbol c) (c_symbol_id c) (c_trader_id c)
    (c_type c) (c_quantity c) (c_display_quantity c) (c_filled_quantity c) (c_execution_type c) a.

(** The value-initialised order that [operator[]] of the hash map inserts. *)
Definition ClientOrder_default : ClientOrder := mkClientOrder 0 0 0 (replicate 8 0) 0 0 BUY 0 0 0 CMARKET false.

Record StopLossContainer := mkStops { sell_stops : list ClientOrder; buy_stops : list ClientOrder }.

(** [symbolLookupTable] maps a hash to an id, with [-1] where nothing is stored. *)
Record OMS := mkOMS {
  symbolLookupTable : gmap Z Z;
  next_oms_order_id : Z;
  stop_loss_registry : list StopLossContainer;
  last_seen_price : list Z;
  active_icebergs : gmap Z ClientOrder;
  child_to_parent : gmap Z Z;
  incoming_orders : RingBuffer ClientOrder;
  next_child_order_id : Z;
  trade_consumers : list trade_ring_buffer;
  clock_reads : nat;
  sent : list Order
}.

Definition ICEBERG_BIT : Z := Z.shiftl 1 63.
Definition LOOKUP_SIZE : Z := 880000.

Section oms.
Context (clock : nat → Z) (junk_price : Z).
Implicit Types s : OMS.

(** * Symbols *)

Definition toupper (c : Z) : Z := if (97 <=? c) && (c <=? 122) then c - 32 else c.

Definition char_val (symbol : list Z) (i : nat) : Z :=
  match symbol !! i with
  | Some c => u32 (toupper c - 65 + 1)
  | None => 0
  end.

Definition find_hash (symbol : list Z) : Z :=
  s32 (foldl (λ hash i, Z.lor (u32 (Z.shiftl hash 5)) (char_val symbol i)) 0 (seq 0 4)).

Definition find_id (tbl : gmap Z Z) (symbol : list Z) : Z :=
  let hash := u32 (find_hash symbol) in
  if LOOKUP_SIZE <=? hash then -1 else default (-1) (tbl !! hash).

(** The [std::string] made from the array: up to the first zero; the array is not
    followed by anything the program may read. *)
Fixpoint c_string (cs : list Z) : option (list Z) :=
  match cs with
  | [] => None
  | c :: cs => if c =? 0 then Some [] else l ← c_string cs; Some (c :: l)
  end.

(** The constructor's loop over the loaded symbols.  [None]: a hash outside
    the table. *)
Definition load_symbol (st : option (gmap Z Z)) (p : list Z * Z) : option (gmap Z Z) :=
  tbl ← st;
  let h := find_hash p.1 in
  if (0 <=? h) && (h <? LOOKUP_SIZE) then Some (<[h := s32 p.2]> tbl) else None.
Definition load_lookup (symbols : list (list Z * Z)) : option (gmap Z Z) :=
  foldl load_symbol (Some ∅) symbols.

(** * Field updates *)

Definition set_sent_clock (ord : list Order) (n : nat) s : OMS :=
  mkOMS (symbolLookupTable s) (next_oms_order_id s) (stop_loss_registry s) (last_seen_price s) (active_icebergs s)
    (child_to_parent s) (incoming_orders s) (next_child_order_id s) (trade_consumers s) n ord.
Definition set_oms_id (i : Z) s : OMS :=
  mkOMS (symbolLookupTable s) i (stop_loss_registry s) (last_seen_price s) (active_icebergs s)
    (child_to_parent s) (incoming_orders s) (next_child_order_id s) (trade_consumers s) (clock_reads s) (sent s).
Definition set_registry (r : list StopLossContainer) s : OMS :=
  mkOMS (symbolLookupTable s) (next_oms_order_id s) r (last_seen_price s) (active_icebergs s)
    (child_to_parent s) (incoming_orders s) (next_child_order_id s) (trade_consumers s) (clock_reads s) (sent s).
Definition set_last_seen (l : list Z) s : OMS :=
  mkOMS (symbolLookupTable s) (next_oms_order_id s) (stop_loss_registry s) l (active_icebergs s)
    (child_to_parent s) (incoming_orders s) (next_child_order_id s) (trade_consumers s) (clock_reads s) (sent s).
Definition set_icebergs (m : gmap Z ClientOrder) s : OMS :=
  mkOMS (symbolLookupTable s) (next_oms_order_id s) (stop_loss_registry s) (last_seen_price s) m
    (child_to_parent s) (incoming_orders s) (next_child_order_id s) (trade_consumers s) (clock_reads s) (sent s).
Definition set_children (m : gmap Z Z) s : OMS :=
  mkOMS (symbolLookupTable s) (next_oms_order_id s) (stop_loss_registry s) (last_seen_price s) (active_icebergs s)
    m (incoming_orders s) (next_child_order_id s) (trade_consumers s) (clock_reads s) (sent s).
Definition set_incoming (q : RingBuffer ClientOrder) s : OMS :=
  mkOMS (symbolLookupTable s) (next_oms_order_id s) (stop_loss_registry s) (last_seen_price s) (active_icebergs s)
    (child_to_parent s) q (next_child_order_id s) (trade_consumers s) (clock_reads s) (sent s).
Definition set_child_id (i : Z) s : OMS :=
  mkOMS (symbolLookupTable s) (next_oms_order_id s) (stop_loss_registry s) (last_seen_price s) (active_icebergs s)
    (child_to_parent s) (incoming_orders s) i (trade_consumers s) (clock_reads s) (sent s).
Definition set_consumers (l : list trade_ring_buffer) s : OMS :=
  mkOMS (symbolLookupTable s) (next_oms_order_id s) (stop_loss_registry s) (last_seen_price s) (active_icebergs s)
    (child_to_parent s) (incoming_orders s) (next_child_order_id s) l (clock_reads s) (sent s).

(** * Operations *)

Definition OMS_new (capacity boot_timestamp : Z) (symbols : list (list Z * Z)) : option OMS :=
  tbl ← load_lookup symbols;
  Some (mkOMS tbl boot_timestamp (replicate (Z.to_nat MAX_SYMBOLS) (mkStops [] []))
          (replicate (Z.to_nat MAX_SYMBOLS) 0) ∅ ∅ (RingBuffer_new ClientOrder_default capacity)
          (Z.lor ICEBERG_BIT 1) (replicate (Z.to_nat GROUP_COUNT) (trade_ring_buffer_new false)) 0 []).

(** [sendToEngine], with the timestamp the caller puts into the order. *)
Definition getCurrentTimestamp s : Z := clock (clock_reads s).
Definition sendToEngine (o : Order) s : OMS := set_sent_clock (sent s ++ [o]) (S (clock_reads s)) s.

Definition enqueueClientOrder (c : ClientOrder) s : option (bool * OMS) :=
  '(ok, q) ← push c (incoming_orders s);
  Some (ok, set_incoming q s).

(** ** Icebergs *)

Definition send_slice (parent_id : Z) s : OMS :=
  let parent := default ClientOrder_default (active_icebergs s !! parent_id) in
  let s := set_icebergs (<[parent_id := parent]> (active_icebergs s)) s in
  if negb (c_is_active parent) then s
  else
    let remaining := u32 (c_quantity parent - c_filled_quantity parent) in
    if remaining =? 0 then
      set_icebergs (<[parent_id := set_c_active false parent]> (active_icebergs s)) s
    else
      let slice_qty := Z.min (c_display_quantity parent) remaining in
      let child_id := next_child_order_id s in
      let s := set_child_id (u64 (child_id + 1)) s in
      let s := set_children (<[child_id := parent_id]> (child_to_parent s)) s in
      sendToEngine (mkOrder child_id LIMIT (c_price parent) (getCurrentTimestamp s) (c_trader_id parent)
                      (c_type parent) (c_symbol_id parent) slice_qty child_id) s.

(** [None]: division by zero. *)
Definition process_iceberg_leg (child_id traded_qty : Z) s : option OMS :=
  match child_to_parent s !! child_id with
  | None => Some s
  | Some parent_id =>
      let parent := default ClientOrder_default (active_icebergs s !! parent_id) in
      let filled := u32 (c_filled_quantity parent + traded_qty) in
      let parent := set_c_filled filled parent in
      let s := set_icebergs (<[parent_id := parent]> (active_icebergs s)) s in
      if c_display_quantity parent =? 0 then None
      else
        let slice_filled := (filled mod c_display_quantity parent =? 0) || (filled =? c_quantity parent) in
        Some (if slice_filled
              then send_slice parent_id (set_children (delete child_id (child_to_parent s)) s)
              else s)
  end.

Definition has_iceberg_bit (id : Z) : bool := negb (Z.land id ICEBERG_BIT =? 0).

Definition check_fill (t : Trade) s : option OMS :=
  if negb (has_iceberg_bit (t_buy_order_id t)) && negb (has_iceberg_bit (t_sell_order_id t)) then Some s
  else
    s ← (if has_iceberg_bit (t_buy_order_id t)
         then process_iceberg_leg (t_buy_order_id t) (t_quantity t) s else Some s);
    if has_iceberg_bit (t_sell_order_id t)
    then process_iceberg_leg (t_sell_order_id t) (t_quantity t) s else Some s.

(** ** Stop losses *)

Definition MaxTrigger (a b : ClientOrder) : bool := c_trigger_price a <? c_trigger_price b.
Definition MinTrigger (a b : ClientOrder) : bool := c_trigger_price b <? c_trigger_price a.

#[export] Instance MaxTrigger_swo : StrictWeakOrder MaxTrigger := ltb_swo c_trigger_price.
#[export] Instance MinTrigger_swo : StrictWeakOrder MinTrigger := gtb_swo c_trigger_price.

Definition registerStopLoss (c : ClientOrder) s : option OMS :=
  let i := Z.to_nat (Z.land (c_symbol_id c) SYMBOL_MASK) in
  container ← stop_loss_registry s !! i;
  let container :=
    match c_type c with
    | BUY => mkStops (sell_stops container) (heap_push MinTrigger c (buy_stops container))
    | SELL => mkStops (heap_push MaxTrigger c (sell_stops container)) (buy_stops container)
    end in
  Some (set_registry (<[i := container]> (stop_loss_registry s)) s).

(** The limit order a triggered stop becomes.  [None]: the symbol has no
    terminating zero. *)
Definition trigger (c : ClientOrder) s : option OMS :=
  let assigned_id := next_oms_order_id s in
  let s := set_oms_id (u64 (assigned_id + 1)) s in
  sym ← c_string (c_symbol c);
  Some (sendToEngine (mkOrder assigned_id LIMIT (c_price c) (getCurrentTimestamp s) (c_trader_id c)
                        (c_type c) (u32 (find_id (symbolLookupTable s) sym)) (c_quantity c) (c_client_order_id c)) s).

Fixpoint trigger_sells (fuel : nat) (current_ltp : Z) (stops : list ClientOrder) s
  : option (list ClientOrder * OMS) :=
  match heap_top stops with
  | None => Some (stops, s)
  | Some c =>
      if current_ltp <=? c_trigger_price c then
        match fuel with
        | O => None
        | S fuel => s ← trigger c s; trigger_sells fuel current_ltp (pop_heap MaxTrigger stops) s
        end
      else Some (stops, s)
  end.

Fixpoint trigger_buys (fuel : nat) (current_ltp : Z) (stops : list ClientOrder) s
  : option (list ClientOrder * OMS) :=
  match heap_top stops with
  | None => Some (stops, s)
  | Some c =>
      if c_trigger_price c <=? current_ltp then
        match fuel with
        | O => None
        | S fuel => s ← trigger c s; trigger_buys fuel current_ltp (pop_heap MinTrigger stops) s
        end
      else Some (stops, s)
  end.

Definition checkAndTriggerSL (sym_id current_ltp : Z) s : option OMS :=
  container ← stop_loss_registry s !! Z.to_nat sym_id;
  let sells := sell_stops container in
  '(sells, s) ← trigger_sells (length sells) current_ltp sells s;
  let buys := buy_stops container in
  '(buys, s) ← trigger_buys (length buys) current_ltp buys s;
  Some (set_registry (<[Z.to_nat sym_id := mkStops sells buys]> (stop_loss_registry s)) s).

(** ** The intake *)

(** The order sent for a market or a limit order. *)
Definition forward (execution_type : OrderExecutionType) (price : Z) (c : ClientOrder) s : OMS :=
  let assigned_id := next_oms_order_id s in
  let s := set_oms_id (u64 (assigned_id + 1)) s in
  sendToEngine (mkOrder assigned_id execution_type price (getCurrentTimestamp s) (c_trader_id c)
                  (c_type c) (c_symbol_id c) (c_quantity c) (c_client_order_id c)) s.

(** The body of [if(incoming_orders.pop(new_order))]. *)
Definition handle_client_order (c : ClientOrder) s : option OMS :=
  sym ← c_string (c_symbol c);
  let c := set_c_symbol_id (u32 (find_id (symbolLookupTable s) sym)) c in
  if c_symbol_id c =? UINT32_MAX then Some s
  else
    match c_execution_type c with
    | CICEBERG =>
        Some (send_slice (c_client_order_id c)
                (set_icebergs (<[c_client_order_id c := c]> (active_icebergs s)) s))
    | CSTOP_LOSS => registerStopLoss c s
    | CMARKET => Some (forward MARKET junk_price c s)
    | CLIMIT => Some (if c_price c =? 0 then s else forward LIMIT (c_price c) c s)
    end.

(** ** Polling *)

(** [while (trade_consumers[i]->any_new_trade()) check_fill(get_trade())]. *)
Fixpoint poll_ring (fuel : nat) (h : trade_ring_buffer) (mem : ring_mem) s
  : option (trade_ring_buffer * OMS) :=
  if any_new_trade h mem then
    match fuel with
    | O => None
    | S fuel =>
        let '(t, h) := get_trade 0 (mkTrade 0 0 0 0 0 0 0) h mem in
        t ← t;
        s ← check_fill t s;
        poll_ring fuel h mem s
    end
  else Some (h, s).

Definition poll_rings (fuel : nat) (mems : list ring_mem) s : option OMS :=
  foldl (λ (st : option OMS) i,
      s ← st;
      h ← trade_consumers s !! i;
      mem ← mems !! i;
      '(h, s) ← poll_ring fuel h mem s;
      Some (set_consumers (<[i := h]> (trade_consumers s)) s))
    (Some s) (seq 0 (Z.to_nat GROUP_COUNT)).

(** The scan for changed prices; [ltp] is the shared array as read. *)
Definition scan_prices (ltp : list Z) s : option OMS :=
  foldl (λ (st : option OMS) i,
      s ← st;
      current_ltp ← ltp !! i;
      seen ← last_seen_price s !! i;
      if current_ltp =? seen then Some s
      else
        s ← checkAndTriggerSL (Z.of_nat i) current_ltp s;
        Some (set_last_seen (<[i := current_ltp]> (last_seen_price s)) s))
    (Some s) (seq 0 (Z.to_nat MAX_SYMBOLS)).

(** One iteration of [listenForClientOrder]; [ltp = None] when the shared
    memory could not be mapped. *)
Definition listenForClientOrder_step (fuel : nat) (mems : list ring_mem) (ltp : option (list Z)) s
  : option OMS :=
  '(item, q) ← pop (incoming_orders s);
  let s := set_incoming q s in
  s ← (match item with Some c => handle_client_order c s | None => Some s end);
  s ← poll_rings fuel mems s;
  match ltp with Some l => scan_prices l s | None => Some s end.

End oms.
