(* ===== verification/OmsSymbols.v ===== *)
(** The symbol table of the OMS: [find_hash] is injective on the symbols the
    exchange lists, so [find_id] is the inverse of loading the table. *)

From S2P Require Import Prelude Types RingBuffer Engine Oms.

Definition is_letter (c : Z) : bool := ((65 <=? c) && (c <=? 90)) || ((97 <=? c) && (c <=? 122)).

(** A ticker: one to four letters. *)
Definition ticker (sym : list Z) : Prop := (1 ≤ length sym ≤ 4)%nat ∧ Forall (λ c, is_letter c = true) sym.

#[export] Instance ticker_dec sym : Decision (ticker sym).
Proof. unfold ticker. apply _. Defined.

Definition upper (sym : list Z) : list Z := toupper <$> sym.

Lemma toupper_letter c : is_letter c = true → 65 <= toupper c <= 90.
Proof. unfold is_letter, toupper. intros H. case_match; lia. Qed.

(** A present letter is 1 to 26, an absent one 0. *)
Lemma char_val_letter sym i :
  Forall (λ c, is_letter c = true) sym →
  match sym !! i with
  | Some c => char_val sym i = toupper c - 64 ∧ 1 <= char_val sym i <= 26
  | None => char_val sym i = 0
  end.
Proof.
  intros Hs. unfold char_val. destruct (sym !! i) as [c|] eqn:E; [|done].
  rewrite Forall_lookup in Hs. pose proof (toupper_letter c (Hs i c E)).
  rewrite u32_small by mach. lia.
Qed.

Lemma char_val_range sym i : Forall (λ c, is_letter c = true) sym → 0 <= char_val sym i <= 26.
Proof. intros Hs. pose proof (char_val_letter sym i Hs). case_match; lia. Qed.

(** [(hash << 5) | v] is base 32. *)
Lemma hash_step hash v :
  0 <= hash → hash * 32 < 2 ^ 32 → 0 <= v < 32 → Z.lor (u32 (Z.shiftl hash 5)) v = hash * 32 + v.
Proof.
  intros Hh Hb Hv. rewrite Z.shiftl_mul_pow2 by lia. rewrite u32_small by mach.
  assert (Z.land (hash * 2 ^ 5) v = 0) as Hl.
  { apply Z.bits_inj'. intros i Hi. rewrite Z.land_spec, Z.bits_0. destruct (decide (i < 5)) as [Hlt|Hge].
    - by rewrite Z.mul_pow2_bits_low by lia.
    - rewrite <- (Z.mod_small v (2 ^ 5)), Z.mod_pow2_bits_high by lia. by rewrite andb_false_r. }
  pose proof (Z.add_lor_land (hash * 2 ^ 5) v). lia.
Qed.

Lemma find_hash_value sym :
  Forall (λ c, is_letter c = true) sym →
  find_hash sym = ((char_val sym 0 * 32 + char_val sym 1) * 32 + char_val sym 2) * 32 + char_val sym 3.
Proof.
  intros Hs. pose proof (λ i, char_val_range sym i Hs) as Hr.
  pose proof (Hr 0%nat). pose proof (Hr 1%nat). pose proof (Hr 2%nat). pose proof (Hr 3%nat).
  unfold find_hash. cbn [seq foldl]. change (u32 (Z.shiftl 0 5)) with 0. rewrite Z.lor_0_l.
  rewrite (hash_step (char_val sym 0)) by lia.
  rewrite (hash_step (char_val sym 0 * 32 + _)) by lia. rewrite hash_step by lia.
  apply s32_small. lia.
Qed.

Lemma ticker_hash_range sym : ticker sym → 0 <= find_hash sym < LOOKUP_SIZE.
Proof.
  intros [_ Hs]. rewrite find_hash_value by done. pose proof (λ i, char_val_range sym i Hs) as Hr.
  pose proof (Hr 0%nat). pose proof (Hr 1%nat). pose proof (Hr 2%nat). pose proof (Hr 3%nat).
  unfold LOOKUP_SIZE. lia.
Qed.

Lemma ticker_hash_inj sym sym' :
  ticker sym → ticker sym' → find_hash sym = find_hash sym' → upper sym = upper sym'.
Proof.
  intros [Hl Hs] [Hl' Hs'] Heq. rewrite !find_hash_value in Heq by done.
  pose proof (λ i, char_val_range sym i Hs) as Hr. pose proof (λ i, char_val_range sym' i Hs') as Hr'.
  assert (∀ i, (i < 4)%nat → char_val sym i = char_val sym' i) as Hc.
  { pose proof (Hr 0%nat). pose proof (Hr 1%nat). pose proof (Hr 2%nat). pose proof (Hr 3%nat).
    pose proof (Hr' 0%nat). pose proof (Hr' 1%nat). pose proof (Hr' 2%nat). pose proof (Hr' 3%nat).
    intros i Hi. destruct i as [|[|[|[|i]]]]; lia. }
  apply list_eq. intros i. unfold upper. rewrite !list_lookup_fmap.
  pose proof (char_val_letter sym i Hs) as H1. pose proof (char_val_letter sym' i Hs') as H2.
  destruct (decide (i < 4)%nat) as [Hi|Hi].
  - specialize (Hc i Hi). destruct (sym !! i), (sym' !! i); simpl; try lia; f_equal; lia.
  - by rewrite !lookup_ge_None_2 by lia.
Qed.

(** Case does not matter to the hash. *)
Lemma toupper_idem c : toupper (toupper c) = toupper c.
Proof. unfold toupper. repeat case_match; lia. Qed.

Lemma find_hash_toupper sym : find_hash (upper sym) = find_hash sym.
Proof.
  assert (∀ i, char_val (upper sym) i = char_val sym i) as Hc.
  { intros i. unfold char_val, upper. rewrite list_lookup_fmap. destruct (sym !! i); simpl; [|done].
    by rewrite toupper_idem. }
  unfold find_hash. cbn [seq foldl]. by rewrite !Hc.
Qed.

(** * The table *)

Definition table_ok (symbols : list (list Z * Z)) : Prop :=
  Forall (λ p, ticker p.1 ∧ 0 <= p.2 < 2 ^ 31) symbols ∧ NoDup ((λ p : list Z * Z, upper p.1) <$> symbols).

(** The table after loading a list, from any table. *)
Lemma load_from symbols : ∀ tbl : gmap Z Z,
  Forall (λ p, ticker p.1 ∧ 0 <= p.2 < 2 ^ 31) symbols →
  ∃ tbl' : gmap Z Z, foldl load_symbol (Some tbl) symbols = Some tbl' ∧
    (∀ h, (∀ p, p ∈ symbols → find_hash p.1 ≠ h) → tbl' !! h = tbl !! h) ∧
    (NoDup ((λ p : list Z * Z, find_hash p.1) <$> symbols) →
     ∀ sym id, (sym, id) ∈ symbols → tbl' !! find_hash sym = Some id).
Proof.
  induction symbols as [|[sym id] symbols IH]; intros tbl Hs.
  { exists tbl. split_and!; try done. intros _ sym id H. by apply elem_of_nil in H. }
  apply Forall_cons in Hs as [[Ht Hid] Hs]. cbn [fst snd] in *.
  cbn [foldl]. unfold load_symbol at 2. cbn [mbind option_bind fst snd].
  pose proof (ticker_hash_range sym Ht) as Hr. cbn zeta.
  replace ((0 <=? find_hash sym) && (find_hash sym <? LOOKUP_SIZE)) with true by zb.
  destruct (IH (<[find_hash sym := s32 id]> tbl) Hs) as (tbl' & Hrun & Hold & Hnew).
  exists tbl'. split; [exact Hrun|]. split.
  - intros h Hh. rewrite Hold by (intros p Hp; apply Hh; by right).
    rewrite lookup_insert_ne; [done|]. apply (Hh (sym, id)). left.
  - intros [Hni Hnd]%NoDup_cons sym' id' [[= -> ->]|Hin]%elem_of_cons; [|by apply Hnew].
    rewrite Hold.
    + rewrite lookup_insert_eq, s32_small by lia. done.
    + intros p Hp Heq. apply Hni. cbn [fst]. rewrite <- Heq. by apply (list_elem_of_fmap_2 (λ p : list Z * Z, find_hash p.1)).
Qed.

Lemma table_hashes_nodup symbols : table_ok symbols → NoDup ((λ p : list Z * Z, find_hash p.1) <$> symbols).
Proof.
  intros [Ht Hnd]. induction symbols as [|p symbols IH]; [constructor|].
  rewrite fmap_cons in *. apply Forall_cons in Ht as [[Htp _] Ht]. apply NoDup_cons in Hnd as [Hni Hnd].
  constructor; [|by apply IH]. intros (q & Heq & Hq)%list_elem_of_fmap. apply Hni.
  rewrite Forall_forall in Ht. destruct (Ht q Hq) as [Htq _].
  rewrite (ticker_hash_inj _ _ Htp Htq Heq). by apply (list_elem_of_fmap_2 (λ p : list Z * Z, upper p.1)).
Qed.

Lemma find_id_hash tbl sym :
  ticker sym → find_id tbl sym = default (-1) (tbl !! find_hash sym).
Proof.
  intros Ht. pose proof (ticker_hash_range sym Ht) as Hr. unfold find_id.
  rewrite u32_small by (unfold LOOKUP_SIZE in Hr; mach).
  by replace (LOOKUP_SIZE <=? find_hash sym) with false by zb.
Qed.

(** C24: Symbol lookup.  Once a list of tickers of one to four letters, distinct
    up to case, has been loaded, [find_id] returns the id of every listed
    ticker in upper or lower case, and [-1] for every other ticker; loading
    stays inside the table. *)
Theorem find_id_roundtrip symbols :
  table_ok symbols →
  ∃ tbl, load_lookup symbols = Some tbl ∧
    (∀ sym id, (sym, id) ∈ symbols → find_id tbl sym = id ∧ find_id tbl (upper sym) = id) ∧
    (∀ sym, ticker sym → (∀ p, p ∈ symbols → upper p.1 ≠ upper sym) → find_id tbl sym = -1).
Proof.
  intros Hok. pose proof Hok as [Ht _]. destruct (load_from symbols ∅ Ht) as (tbl & Hrun & Hold & Hnew).
  specialize (Hnew (table_hashes_nodup _ Hok)). rewrite Forall_forall in Ht.
  exists tbl. split; [exact Hrun|]. split.
  - intros sym id Hin. destruct (Ht _ Hin) as [Htk _]. cbn [fst] in Htk.
    assert (find_id tbl sym = id) as Hid by (rewrite find_id_hash, (Hnew sym id) by done; done).
    split; [done|]. rewrite <- Hid. unfold find_id. by rewrite find_hash_toupper.
  - intros sym Htk Hno. rewrite find_id_hash by done. rewrite Hold, lookup_empty; [done|].
    intros p Hp Heq. apply (Hno p Hp). destruct (Ht p Hp) as [Htp _]. by apply ticker_hash_inj.
Qed.

(** AAPL and MSFT. *)
Definition two_symbols : list (list Z * Z) := [([65; 65; 80; 76], 0); ([77; 83; 70; 84], 1029)].

Lemma find_id_roundtrip_witness :
  ∃ tbl, load_lookup two_symbols = Some tbl ∧ find_id tbl [77; 83; 70; 84] = 1029.
Proof.
  destruct (find_id_roundtrip two_symbols) as (tbl & Hrun & Hall & _).
  - split; apply (bool_decide_eq_true_1 _); vm_compute; reflexivity.
  - exists tbl. split; [exact Hrun|]. apply (Hall [77; 83; 70; 84] 1029). right. left.
Defined.

(** Tickers of one to four letters that differ by more than case never
    collide, and their hashes lie inside the table of 880000 entries. *)
Theorem find_hash_injective sym sym' :
  ticker sym → ticker sym' →
  (0 <= find_hash sym < LOOKUP_SIZE) ∧
  (find_hash sym = find_hash sym' ↔ upper sym = upper sym').
Proof.
  intros Ht Ht'. split; [by apply ticker_hash_range|]. split; [by apply ticker_hash_inj|].
  intros Heq. by rewrite <- (find_hash_toupper sym), Heq, find_hash_toupper.
Qed.

Lemma find_hash_injective_witness :
  find_hash [65; 65; 80; 76] = find_hash [97; 97; 112; 108] ∧ find_hash [65; 65; 80; 76] ≠ find_hash [65; 65; 80].
Proof.
  split.
  - apply (find_hash_injective [65; 65; 80; 76] [97; 97; 112; 108]); [apply (bool_decide_eq_true_1 _); vm_compute; reflexivity..|reflexivity].
  - intros H. apply (find_hash_injective [65; 65; 80; 76] [65; 65; 80]) in H;
      [discriminate|apply (bool_decide_eq_true_1 _); vm_compute; reflexivity..].
Defined.
