(* ===== verification/OmsTheorems.v ===== *)
(** What the OMS guarantees: stop losses fire exactly when they should and in
    price order, icebergs never show more than their display quantity and
    never send more than the parent's quantity, and every order sent to the
    engine has an id of its own. *)

From stdpp Require Import sorting relations.
From S2P Require Import Prelude Types Heap TradeRing RingBuffer Engine Oms.

Ltac oms_cbn := cbn [symbolLookupTable next_oms_order_id stop_loss_registry last_seen_price active_icebergs
  child_to_parent incoming_orders next_child_order_id trade_consumers clock_reads sent
  set_sent_clock set_oms_id set_registry set_last_seen set_icebergs set_children set_incoming
  set_child_id set_consumers sendToEngine getCurrentTimestamp] in *.

Section theorems.
Context (clock : nat → Z) (junk_price : Z).
Implicit Types s : OMS.

(** * Stop losses *)

(** The two trigger loops, uniformly in the comparator and the condition. *)
Fixpoint trigger_loop (comp : ClientOrder → ClientOrder → bool) (fires : ClientOrder → bool)
  (fuel : nat) (stops : list ClientOrder) s : option (list ClientOrder * OMS) :=
  match heap_top stops with
  | None => Some (stops, s)
  | Some c =>
      if fires c then
        match fuel with
        | O => None
        | S fuel => s ← trigger clock c s; trigger_loop comp fires fuel (pop_heap comp stops) s
        end
      else Some (stops, s)
  end.

Lemma trigger_sells_eq ltp fuel stops s :
  trigger_sells clock fuel ltp stops s
  = trigger_loop MaxTrigger (λ c, ltp <=? c_trigger_price c) fuel stops s.
Proof.
  revert stops s. induction fuel as [|fuel IH]; intros stops s; [done|].
  cbn [trigger_sells trigger_loop]. destruct (heap_top stops); [|done].
  destruct (ltp <=? c_trigger_price c); [|done]. destruct (trigger clock c s); [|done]. apply IH.
Qed.

Lemma trigger_buys_eq ltp fuel stops s :
  trigger_buys clock fuel ltp stops s
  = trigger_loop MinTrigger (λ c, c_trigger_price c <=? ltp) fuel stops s.
Proof.
  revert stops s. induction fuel as [|fuel IH]; intros stops s; [done|].
  cbn [trigger_buys trigger_loop]. destruct (heap_top stops); [|done].
  destruct (c_trigger_price c <=? ltp); [|done]. destruct (trigger clock c s); [|done]. apply IH.
Qed.

(** The [k]-th order triggered from state [s]. *)
Definition triggered_order s (k : nat) (c : ClientOrder) : Order :=
  mkOrder (u64 (next_oms_order_id s + Z.of_nat k)) LIMIT (c_price c) (clock (clock_reads s + k))
    (c_trader_id c) (c_type c)
    (u32 (find_id (symbolLookupTable s) (default [] (c_string (c_symbol c)))))
    (c_quantity c) (c_client_order_id c).

(** What [n] orders sent leave behind. *)
Definition after_sends s (n : nat) (os : list Order) : OMS :=
  mkOMS (symbolLookupTable s)
    (match n with O => next_oms_order_id s | _ => u64 (next_oms_order_id s + Z.of_nat n) end)
    (stop_loss_registry s) (last_seen_price s) (active_icebergs s) (child_to_parent s)
    (incoming_orders s) (next_child_order_id s) (trade_consumers s) (clock_reads s + n) (sent s ++ os).

Lemma after_sends_nil s : after_sends s 0 [] = s.
Proof. unfold after_sends. rewrite app_nil_r, Nat.add_0_r. by destruct s. Qed.

Lemma trigger_ok c s :
  is_Some (c_string (c_symbol c)) → is_u64 (next_oms_order_id s) →
  trigger clock c s = Some (after_sends s 1 [triggered_order s 0 c]).
Proof.
  intros [sym Hsym] Hid. unfold trigger. rewrite Hsym. cbn [mbind option_bind].
  unfold after_sends, triggered_order. rewrite Hsym. cbn [from_option id]. f_equal.
  unfold sendToEngine, set_sent_clock, set_oms_id, getCurrentTimestamp.
  cbn [symbolLookupTable next_oms_order_id stop_loss_registry last_seen_price active_icebergs
       child_to_parent incoming_orders next_child_order_id trade_consumers clock_reads sent Z.of_nat].
  rewrite Z.add_0_r, Nat.add_0_r, (u64_small (next_oms_order_id s)) by done.
  f_equal; [by rewrite Nat.add_1_r].
Qed.

Lemma after_sends_id s m os z :
  u64 (next_oms_order_id (after_sends s m os) + z) = u64 (next_oms_order_id s + (Z.of_nat m + z)).
Proof.
  destruct m as [|m]; [done|]. cbn [after_sends next_oms_order_id]. unfold u64.
  rewrite Zplus_mod_idemp_l. f_equal. lia.
Qed.

Lemma triggered_order_comp s m os k c :
  triggered_order (after_sends s m os) k c = triggered_order s (m + k) c.
Proof.
  unfold triggered_order. rewrite after_sends_id. cbn [after_sends clock_reads symbolLookupTable].
  f_equal; f_equal; lia.
Qed.

Lemma after_sends_comp s m n os1 os2 :
  after_sends (after_sends s m os1) n os2 = after_sends s (m + n) (os1 ++ os2).
Proof.
  unfold after_sends at 1. rewrite after_sends_id. unfold after_sends.
  cbn [symbolLookupTable next_oms_order_id stop_loss_registry last_seen_price
      active_icebergs child_to_parent incoming_orders next_child_order_id trade_consumers clock_reads sent].
  f_equal; [|lia|by rewrite app_assoc].
  destruct n as [|n]; [by rewrite Nat.add_0_r|]. destruct m as [|m]; [done|].
  cbn [Nat.add]. f_equal. lia.
Qed.

Section stops.
Context (comp : ClientOrder → ClientOrder → bool) `{!StrictWeakOrder comp} (fires : ClientOrder → bool).
(** The condition is upward closed in the heap's order. *)
Context (Hup : ∀ a b, fires b = true → comp a b = false → fires a = true).

Lemma trigger_loop_ok fuel : ∀ stops s,
  is_heap comp stops → (∀ c, c ∈ stops → is_Some (c_string (c_symbol c))) → is_u64 (next_oms_order_id s) →
  (length stops ≤ fuel)%nat →
  ∃ fired rest, trigger_loop comp fires fuel stops s
      = Some (rest, after_sends s (length fired) (imap (triggered_order s) fired)) ∧
    fired ++ rest ≡ₚ stops ∧ is_heap comp rest ∧
    (∀ c, c ∈ fired → fires c = true) ∧ (∀ c, c ∈ rest → fires c = false) ∧
    StronglySorted (λ a b, comp a b = false) fired.
Proof.
  induction fuel as [|fuel IH]; intros stops s Hh Hsym Hid Hf.
  { destruct stops as [|c l]; [|simpl in Hf; lia]. exists [], []. cbn [imap length].
    rewrite after_sends_nil. split_and!; try done; [intros ? []%elem_of_nil..|constructor]. }
  cbn [trigger_loop]. destruct stops as [|c l] eqn:Est.
  { exists [], []. cbn [imap length]. rewrite after_sends_nil.
    split_and!; try done; [intros ? []%elem_of_nil..|constructor]. }
  cbn [heap_top head]. assert (∀ x, x ∈ c :: l → comp c x = false) as Hmax.
  { intros x Hx. by eapply heap_top_max. }
  destruct (fires c) eqn:Hfc.
  - rewrite trigger_ok; [|apply Hsym; left|done]. cbn [mbind option_bind].
    pose proof (pop_heap_perm comp c l) as Hperm.
    assert (pop_heap comp (c :: l) ≡ₚ l) as Hpl by (by apply Permutation_cons_inv in Hperm).
    destruct (IH (pop_heap comp (c :: l)) (after_sends s 1 [triggered_order s 0 c]))
      as (fired & rest & Hrun & Hp & Hr & Hfi & Hre & Hso).
    { by apply pop_heap_heap. }
    { intros x Hx. apply Hsym. rewrite Hpl in Hx. by right. }
    { apply u64_range. }
    { rewrite Hpl. simpl in Hf. lia. }
    exists (c :: fired), rest. split_and!; try done.
    + rewrite Hrun, after_sends_comp. do 3 f_equal. cbn [imap app]. f_equal.
      apply imap_ext. intros k x _. apply triggered_order_comp.
    + cbn [app]. by rewrite Hp, Hpl.
    + intros x [->|Hx]%elem_of_cons; [done|by apply Hfi].
    + constructor; [done|]. apply Forall_forall. intros x Hx. apply Hmax. right.
      rewrite <- Hpl, <- Hp. apply elem_of_app. by left.
  - exists [], (c :: l). cbn [imap length app]. split_and!; try done.
    + by rewrite after_sends_nil.
    + intros x []%elem_of_nil.
    + intros x Hx. destruct (fires x) eqn:Hfx; [|done].
      rewrite (Hup c x Hfx (Hmax x Hx)) in Hfc. done.
    + constructor.
Qed.
End stops.

(** Every registered stop is in a heap and names its symbol properly. *)
Record stops_ok (ct : StopLossContainer) : Prop := {
  so_sells : is_heap MaxTrigger (sell_stops ct);
  so_buys : is_heap MinTrigger (buy_stops ct);
  so_symbol c : c ∈ sell_stops ct ++ buy_stops ct → is_Some (c_string (c_symbol c))
}.

(** The result of a price move on one container. *)
Record fired_by (ltp : Z) (ct : StopLossContainer) (sells buys : list ClientOrder) (ct' : StopLossContainer)
  : Prop := {
  fb_sells : sells ++ sell_stops ct' ≡ₚ sell_stops ct;
  fb_buys : buys ++ buy_stops ct' ≡ₚ buy_stops ct;
  fb_fired c : (c ∈ sells → ltp <= c_trigger_price c) ∧ (c ∈ buys → c_trigger_price c <= ltp);
  fb_kept c : (c ∈ sell_stops ct' → c_trigger_price c < ltp) ∧
              (c ∈ buy_stops ct' → ltp < c_trigger_price c);
  fb_order : StronglySorted (λ a b, c_trigger_price b <= c_trigger_price a) sells ∧
             StronglySorted (λ a b, c_trigger_price a <= c_trigger_price b) buys
}.

Lemma StronglySorted_weaken {A} (R R' : A → A → Prop) l :
  (∀ x y, R x y → R' x y) → StronglySorted R l → StronglySorted R' l.
Proof.
  intros HR. induction 1 as [|x l Hl IH Hx]; constructor; [done|]. eapply Forall_impl; [done|]. auto.
Qed.

Lemma check_stops_ok s i ct ltp :
  stop_loss_registry s !! i = Some ct → stops_ok ct → is_u64 (next_oms_order_id s) →
  ∃ sells buys ct', fired_by ltp ct sells buys ct' ∧ stops_ok ct' ∧
    checkAndTriggerSL clock (Z.of_nat i) ltp s
    = Some (set_registry (<[i := ct']> (stop_loss_registry s))
              (after_sends s (length (sells ++ buys)) (imap (triggered_order s) (sells ++ buys)))).
Proof.
  intros Hi [Hs Hb Hsym] Hid. unfold checkAndTriggerSL. rewrite Nat2Z.id, Hi. cbn [mbind option_bind].
  rewrite trigger_sells_eq.
  destruct (trigger_loop_ok MaxTrigger (λ c, ltp <=? c_trigger_price c)) with
    (fuel := length (sell_stops ct)) (stops := sell_stops ct) (s := s)
    as (fs & rs & Hrun & Hp & Hh & Hf & Hr & Hso); try done.
  { unfold MaxTrigger. intros a b. zb. }
  { intros c Hc. apply Hsym, elem_of_app. by left. }
  rewrite Hrun. cbn [mbind option_bind]. rewrite trigger_buys_eq.
  set (s1 := after_sends s (length fs) (imap (triggered_order s) fs)).
  destruct (trigger_loop_ok MinTrigger (λ c, c_trigger_price c <=? ltp)) with
    (fuel := length (buy_stops ct)) (stops := buy_stops ct) (s := s1)
    as (fb & rb & Hrun' & Hp' & Hh' & Hf' & Hr' & Hso'); try done.
  { unfold MinTrigger. intros a b. zb. }
  { intros c Hc. apply Hsym, elem_of_app. by right. }
  { unfold s1. destruct fs; [done|apply u64_range]. }
  rewrite Hrun'. cbn [mbind option_bind]. exists fs, fb, (mkStops rs rb). split_and!.
  - split; cbn [sell_stops buy_stops]; try done.
    + intros c. split; [intros Hc%Hf; zb|intros Hc%Hf'; zb].
    + intros c. split; [intros Hc%Hr; zb|intros Hc%Hr'; zb].
    + split; (eapply StronglySorted_weaken; [|done]); unfold MaxTrigger, MinTrigger; intros; zb.
  - split; cbn [sell_stops buy_stops]; try done. intros c Hc. apply Hsym.
    rewrite <- Hp, <- Hp'. set_solver.
  - do 2 f_equal. unfold s1. rewrite after_sends_comp, length_app, imap_app. do 2 f_equal.
    apply imap_ext. intros k x _. apply triggered_order_comp.
Qed.

(** * Icebergs *)

Definition filled (p : ClientOrder) : Z := c_filled_quantity p.

(** The next slice of a parent. *)
Definition slice_of s (p : ClientOrder) : Order :=
  let id := next_child_order_id s in
  mkOrder id LIMIT (c_price p) (clock (clock_reads s)) (c_trader_id p) (c_type p) (c_symbol_id p)
    (Z.min (c_display_quantity p) (c_quantity p - filled p)) id.

(** The child ids in use are below the next one. *)
Definition child_ids_ok s : Prop :=
  0 <= next_child_order_id s < UINT64_MAX ∧
  ∀ c, is_Some (child_to_parent s !! c) → c < next_child_order_id s.

(** The parent [pid] has one open slice, child [cid], of which [o] is not yet
    traded; [slices] are the slices sent so far.  [B] is what was filled when
    the open slice was sent, a multiple of the display quantity. *)
Record ice_open s (pid cid : Z) (p : ClientOrder) (B o : Z) (slices : list Order) : Prop := {
  io_parent : active_icebergs s !! pid = Some p;
  io_active : c_is_active p = true;
  io_child : child_to_parent s !! cid = Some pid;
  io_only c : child_to_parent s !! c = Some pid → c = cid;
  io_ids : child_ids_ok s;
  io_range : 0 < c_display_quantity p < 2 ^ 32 ∧ 0 < c_quantity p < 2 ^ 32;
  io_base : B mod c_display_quantity p = 0 ∧ 0 <= B <= filled p;
  io_open : 0 < o ∧ filled p + o = Z.min (B + c_display_quantity p) (c_quantity p);
  io_total : foldr (λ x n, o_quantity x + n) 0 slices = filled p + o;
  io_show x : x ∈ slices → 0 < o_quantity x <= c_display_quantity p
}.

(** The parent is completely filled and nothing of it is open. *)
Record ice_closed s (pid : Z) (p : ClientOrder) (slices : list Order) : Prop := {
  ic_parent : active_icebergs s !! pid = Some p;
  ic_inactive : c_is_active p = false;
  ic_filled : filled p = c_quantity p;
  ic_child c : child_to_parent s !! c ≠ Some pid;
  ic_total : foldr (λ x n, o_quantity x + n) 0 slices = c_quantity p
}.

(** What a trade of [t] on the open slice makes of the parent: while part of
    the slice is left nothing is sent; when the slice is used up the next one
    is sent, or the parent is closed if it is completely filled. *)
Definition credited s s' (pid cid : Z) (p : ClientOrder) (B o : Z) (slices : list Order) (t : Z) : Prop :=
  let p' := set_c_filled (filled p + t) p in
  if t <? o then sent s' = sent s ∧ ice_open s' pid cid p' B (o - t) slices
  else if filled p + t =? c_quantity p then
    sent s' = sent s ∧ ice_closed s' pid (set_c_active false p') slices
  else sent s' = sent s ++ [slice_of s p'] ∧
    ice_open s' pid (next_child_order_id s) p' (B + c_display_quantity p)
      (Z.min (c_display_quantity p) (c_quantity p - (filled p + t))) (slices ++ [slice_of s p']).

Lemma sum_snoc (l : list Order) x :
  foldr (λ x n, o_quantity x + n) 0 (l ++ [x]) = foldr (λ x n, o_quantity x + n) 0 l + o_quantity x.
Proof. induction l as [|y l IH]; simpl; [lia|]. rewrite IH. lia. Qed.

(** [send_slice] for an active parent with something left. *)
Lemma send_slice_open s pid p B slices :
  active_icebergs s !! pid = Some p → c_is_active p = true →
  (∀ c, child_to_parent s !! c ≠ Some pid) → child_ids_ok s → next_child_order_id s + 1 < UINT64_MAX →
  0 < c_display_quantity p < 2 ^ 32 → 0 < c_quantity p < 2 ^ 32 →
  filled p = B → B mod c_display_quantity p = 0 → 0 <= B < c_quantity p →
  foldr (λ x n, o_quantity x + n) 0 slices = B →
  (∀ x, x ∈ slices → 0 < o_quantity x <= c_display_quantity p) →
  let s' := send_slice clock pid s in
  sent s' = sent s ++ [slice_of s p] ∧
  ice_open s' pid (next_child_order_id s) p B
    (Z.min (c_display_quantity p) (c_quantity p - filled p)) (slices ++ [slice_of s p]).
Proof.
  intros Hp Ha Hno [Hid Hids] Hroom HD HQ HB Hmod HBQ Hsum Hshow. unfold filled in HB.
  cbn zeta. unfold send_slice. rewrite Hp. cbn [from_option id]. rewrite Ha. cbn [negb].
  rewrite (u32_small (c_quantity p - _)) by mach.
  replace (c_quantity p - c_filled_quantity p =? 0) with false by zb.
  assert (<[pid := p]> (active_icebergs s) = active_icebergs s) as Hins by by apply insert_id.
  oms_cbn. split; [done|]. split; oms_cbn; rewrite ?Hins; try done; try (unfold filled; lia).
  - by rewrite lookup_insert_eq.
  - intros c. rewrite lookup_insert. case_decide; [done|]. intros Hc. by apply Hno in Hc.
  - unfold child_ids_ok. oms_cbn. rewrite u64_small by mach.
    split; [lia|]. intros c. rewrite lookup_insert. case_decide; [lia|]. intros Hc%Hids. lia.
  - rewrite sum_snoc, Hsum. unfold slice_of, filled. cbn [o_quantity]. lia.
  - intros x [Hx|Hx]%elem_of_app; [by apply Hshow|]. apply list_elem_of_singleton in Hx as ->.
    unfold slice_of, filled. cbn [o_quantity]. lia.
Qed.

Lemma mod_between B F D : 0 < D → B mod D = 0 → B < F < B + D → F mod D ≠ 0.
Proof.
  intros HD HB HF Hm. assert ((F - B) mod D = 0) as H by (rewrite Zminus_mod, Hm, HB; by rewrite Z.mod_0_l by lia).
  rewrite Z.mod_small in H; lia.
Qed.

(** A trade of [t] on the open slice. *)
Lemma iceberg_leg s pid cid p B o slices t :
  ice_open s pid cid p B o slices → 0 < t <= o → next_child_order_id s + 1 < UINT64_MAX →
  ∃ s', process_iceberg_leg clock cid t s = Some s' ∧ credited s s' pid cid p B o slices t.
Proof.
  unfold credited. intros [Hp Ha Hc Hon [Hid Hids] [HD HQ] [HB1 HB2] [Ho1 Ho2] Htot Hshow] Ht Hroom.
  unfold process_iceberg_leg. rewrite Hc, Hp. cbn [from_option id]. unfold filled in *.
  rewrite (u32_small (c_filled_quantity p + t)) by mach. cbn [c_display_quantity set_c_filled c_quantity].
  replace (c_display_quantity p =? 0) with false by zb. cbn zeta.
  set (p' := set_c_filled (c_filled_quantity p + t) p) in *.
  eexists. split; [done|]. destruct (Z.ltb_spec t o) as [Hlt|Hge].
  - assert ((c_filled_quantity p + t) mod c_display_quantity p ≠ 0) as Hm
      by (apply (mod_between B); lia).
    rewrite (proj2 (Z.eqb_neq _ _) Hm). replace (c_filled_quantity p + t =? c_quantity p) with false by zb.
    cbn [orb]. split; [done|]. split; try done.
    + apply lookup_insert_eq.
    + cbn [c_display_quantity p' set_c_filled filled c_filled_quantity]. unfold filled.
      cbn [c_filled_quantity set_c_filled]. lia.
    + unfold filled. cbn [c_filled_quantity c_display_quantity c_quantity p' set_c_filled]. lia.
    + unfold filled. cbn [c_filled_quantity p' set_c_filled]. lia.
  - assert (t = o) as -> by lia.
    assert (∀ c, delete cid (child_to_parent s) !! c ≠ Some pid) as Hno.
    { intros c. rewrite lookup_delete. case_decide; [done|]. intros Hx%Hon. congruence. }
    destruct (Z.eqb_spec (c_filled_quantity p + o) (c_quantity p)) as [Hfull|Hmore].
    + rewrite orb_true_r. unfold send_slice.
      oms_cbn. rewrite lookup_insert_eq.
      cbn [from_option id c_is_active p' set_c_filled c_quantity c_filled_quantity]. rewrite Ha. cbn [negb].
      rewrite Hfull, Z.sub_diag. cbn [u32 Z.eqb].
      change (u32 0 =? 0) with true. cbn iota. split; [done|]. split; try done.
      * cbn [active_icebergs set_icebergs]. apply lookup_insert_eq.
      * unfold filled. cbn [c_filled_quantity set_c_active c_quantity p' set_c_filled]. lia.
    + assert (c_filled_quantity p + o = B + c_display_quantity p) as HF by lia.
      assert ((B + c_display_quantity p) mod c_display_quantity p = 0) as Hm.
      { replace (B + c_display_quantity p) with (B + 1 * c_display_quantity p) by lia.
        by rewrite Z_mod_plus_full. }
      rewrite HF, Hm. cbn [Z.eqb orb].
      set (s1 := set_children (delete cid (child_to_parent (set_icebergs (<[pid := p']> (active_icebergs s)) s)))
                   (set_icebergs (<[pid := p']> (active_icebergs s)) s)).
      destruct (send_slice_open s1 pid p' (B + c_display_quantity p) slices) as [Hsent Hopen];
        try done; try (cbn [p' set_c_filled c_quantity c_display_quantity]; lia).
      * apply lookup_insert_eq.
      * split; [done|]. intros c [x Hx]. apply Hids. cbn [child_to_parent s1 set_children] in Hx.
        rewrite lookup_delete in Hx. case_decide; [done|]. eauto.
      * split; [exact Hsent|]. unfold filled in Hopen. cbn [c_display_quantity c_quantity p' set_c_filled
          c_filled_quantity] in Hopen. rewrite HF in Hopen. exact Hopen.
Qed.

(** A trade on a slice of [pid2] does not concern the other icebergs. *)
Lemma leg_others s s' pid2 cid2 t :
  child_to_parent s !! cid2 = Some pid2 → child_ids_ok s → next_child_order_id s + 1 < UINT64_MAX →
  process_iceberg_leg clock cid2 t s = Some s' →
  child_ids_ok s' ∧ next_child_order_id s' <= next_child_order_id s + 1 ∧ ∀ pid, pid ≠ pid2 →
    active_icebergs s' !! pid = active_icebergs s !! pid ∧
    ∀ c, child_to_parent s' !! c = Some pid ↔ child_to_parent s !! c = Some pid.
Proof.
  intros Hc [Hid Hids] Hroom. unfold process_iceberg_leg. rewrite Hc. set (p := default _ _). cbn zeta.
  destruct (_ =? 0); [done|]. intros H. apply (inj Some) in H. subst s'.
  assert (∀ c pid, pid ≠ pid2 → delete cid2 (child_to_parent s) !! c = Some pid ↔ child_to_parent s !! c = Some pid) as Hdel.
  { intros c pid Hne. rewrite lookup_delete. case_decide; [|done]. subst c. rewrite Hc. split; congruence. }
  assert (∀ c, is_Some (delete cid2 (child_to_parent s) !! c) → c < next_child_order_id s) as Hdids.
  { intros c [x Hx]. apply Hids. rewrite lookup_delete in Hx. case_decide; [done|by exists x]. }
  destruct (_ || _).
  2: { oms_cbn. split; [by split|]. split; [lia|]. intros pid Hne. by rewrite lookup_insert_ne. }
  unfold send_slice. oms_cbn. rewrite lookup_insert_eq. cbn [from_option id].
  destruct (negb _); [|destruct (_ =? 0)]; oms_cbn.
  1,2: split; [by split|]; split; [lia|]; intros pid Hne; rewrite !lookup_insert_ne by done; split; [done|];
    intros c; by apply Hdel.
  split.
  { unfold child_ids_ok. oms_cbn. rewrite u64_small by mach. split; [lia|]. intros c. rewrite lookup_insert.
    case_decide; [lia|]. intros Hx%Hdids. lia. }
  rewrite u64_small by mach. split; [lia|]. intros pid Hne. rewrite !lookup_insert_ne by done. split; [done|]. intros c.
  rewrite lookup_insert. case_decide as Hn; [|by apply Hdel]. subst c. split; [congruence|]. intros Hx.
  specialize (Hids _ (mk_is_Some _ _ Hx)). lia.
Qed.

Lemma leg_frame s s' pid pid2 cid2 t :
  child_to_parent s !! cid2 = Some pid2 → child_ids_ok s → next_child_order_id s + 1 < UINT64_MAX →
  process_iceberg_leg clock cid2 t s = Some s' → pid ≠ pid2 →
  (∀ cid p B o slices, ice_open s pid cid p B o slices → ice_open s' pid cid p B o slices) ∧
  (∀ p slices, ice_closed s pid p slices → ice_closed s' pid p slices).
Proof.
  intros Hc Hids Hroom Hrun Hne. destruct (leg_others s s' pid2 cid2 t Hc Hids Hroom Hrun) as (Hids' & _ & Hoth).
  destruct (Hoth pid Hne) as [Ha Hch]. split.
  - intros cid p B o slices []. split; try done; [by rewrite Ha|by apply Hch|]. intros c Hx%Hch. by auto.
  - intros p slices []. split; try done; [by rewrite Ha|]. intros c Hx%Hch. by eapply ic_child0.
Qed.

(** * Order ids *)

(** One order sent, with the id of one of the two counters, or none. *)
Inductive id_step s : OMS → Prop :=
| id_same s' : sent s' = sent s → next_oms_order_id s' = next_oms_order_id s →
    next_child_order_id s' = next_child_order_id s → id_step s s'
| id_oms s' o : sent s' = sent s ++ [o] → o_order_id o = next_oms_order_id s →
    next_oms_order_id s' = u64 (next_oms_order_id s + 1) →
    next_child_order_id s' = next_child_order_id s → id_step s s'
| id_child s' o : sent s' = sent s ++ [o] → o_order_id o = next_child_order_id s →
    next_child_order_id s' = u64 (next_child_order_id s + 1) →
    next_oms_order_id s' = next_oms_order_id s → id_step s s'.

Definition first_child : Z := Z.lor ICEBERG_BIT 1.

(** [a] ids were taken from the first counter and [b] from the second. *)
Record ids_taken (boot : Z) s (a b : nat) : Prop := {
  it_count : length (sent s) = (a + b)%nat;
  it_oms : next_oms_order_id s = boot + Z.of_nat a;
  it_child : next_child_order_id s = first_child + Z.of_nat b;
  it_nodup : NoDup (o_order_id <$> sent s);
  it_range o : o ∈ sent s → boot <= o_order_id o < boot + Z.of_nat a ∨
                           first_child <= o_order_id o < first_child + Z.of_nat b
}.

Definition ids_inv (boot : Z) s : Prop :=
  boot + Z.of_nat (length (sent s)) < 2 ^ 63 - 1 → ∃ a b, ids_taken boot s a b.

Lemma nodup_snoc (l : list Order) o :
  NoDup (o_order_id <$> l) → (∀ x, x ∈ l → o_order_id x ≠ o_order_id o) →
  NoDup (o_order_id <$> l ++ [o]).
Proof.
  intros Hl Ho. rewrite fmap_app, NoDup_app. split_and!; [done| |apply NoDup_singleton].
  intros i (x & -> & Hx)%list_elem_of_fmap Hi%list_elem_of_singleton. by apply (Ho x).
Qed.

Lemma first_child_eq : first_child = 2 ^ 63 + 1.
Proof. reflexivity. Qed.

Lemma ids_step boot s s' : 0 <= boot → id_step s s' → ids_inv boot s → ids_inv boot s'.
Proof.
  intros Hb Hst Hi Hroom. pose proof first_child_eq as Hfc.
  destruct Hst as [s' H1 H2 H3|s' o H1 H2 H3 H4|s' o H1 H2 H3 H4];
    rewrite H1, ?length_app in Hroom; cbn [length] in Hroom;
    (destruct Hi as (a & b & [Hc Ho Hch Hnd Hr]); [lia|]).
  - exists a, b. split; rewrite ?H1, ?H2, ?H3; done.
  - exists (S a), b. split; rewrite ?H1.
    + rewrite length_app. simpl. lia.
    + rewrite H3, u64_small by mach. lia.
    + by rewrite H4.
    + apply nodup_snoc; [done|]. intros x Hx. rewrite H2, Ho. destruct (Hr x Hx); lia.
    + intros x [Hx|Hx]%elem_of_app; [destruct (Hr x Hx); lia|].
      apply list_elem_of_singleton in Hx as ->. lia.
  - exists a, (S b). split; rewrite ?H1.
    + rewrite length_app. simpl. lia.
    + by rewrite H4.
    + rewrite H3, u64_small by mach. lia.
    + apply nodup_snoc; [done|]. intros x Hx. rewrite H2, Hch. destruct (Hr x Hx); lia.
    + intros x [Hx|Hx]%elem_of_app; [destruct (Hr x Hx); lia|].
      apply list_elem_of_singleton in Hx as ->. lia.
Qed.

Lemma id_steps_inv boot s s' : 0 <= boot → rtc id_step s s' → ids_inv boot s → ids_inv boot s'.
Proof. intros Hb. induction 1; [done|]. eauto using ids_step. Qed.

(** Every operation of the OMS takes ids only in this way. *)
Lemma send_slice_ids pid s : rtc id_step s (send_slice clock pid s).
Proof.
  unfold send_slice. set (p := default _ _). destruct (negb (c_is_active p)); [by apply rtc_once, id_same|].
  case_match; [by apply rtc_once, id_same|]. apply rtc_once. by eapply id_child.
Qed.

Lemma leg_ids cid t s s' : process_iceberg_leg clock cid t s = Some s' → rtc id_step s s'.
Proof.
  unfold process_iceberg_leg. destruct (child_to_parent s !! cid) as [pid|]; [|by intros [= <-]].
  cbn zeta. destruct (c_display_quantity _ =? 0); [done|]. intros [= <-]. destruct (_ || _).
  - eapply rtc_l; [|apply send_slice_ids]. by apply id_same.
  - by apply rtc_once, id_same.
Qed.

Lemma check_fill_ids t s s' : check_fill clock t s = Some s' → rtc id_step s s'.
Proof.
  unfold check_fill. destruct (_ && _); [by intros [= <-]|].
  intros (s1 & H1 & H2)%bind_Some. trans s1.
  - destruct (has_iceberg_bit (t_buy_order_id t)); [by eapply leg_ids|by simplify_eq].
  - destruct (has_iceberg_bit (t_sell_order_id t)); [by eapply leg_ids|by simplify_eq].
Qed.

Lemma trigger_ids c s s' : trigger clock c s = Some s' → id_step s s'.
Proof. unfold trigger. intros (sym & _ & [= <-])%bind_Some. by eapply id_oms. Qed.

Lemma trigger_loop_ids comp fires fuel : ∀ stops s rest s',
  trigger_loop comp fires fuel stops s = Some (rest, s') → rtc id_step s s'.
Proof.
  induction fuel as [|fuel IH]; intros stops s rest s'; cbn [trigger_loop];
    (destruct (heap_top stops) as [c|]; [|by intros [= <- <-]]);
    (destruct (fires c); [|by intros [= <- <-]]); [done|].
  intros (s1 & H1%trigger_ids & H2)%bind_Some. eapply rtc_l; [done|by eapply IH].
Qed.

Lemma check_stops_ids i ltp s s' : checkAndTriggerSL clock i ltp s = Some s' → rtc id_step s s'.
Proof.
  unfold checkAndTriggerSL. intros (ct & _ & H)%bind_Some.
  rewrite trigger_sells_eq in H. apply bind_Some in H as ([rs s1] & H1%trigger_loop_ids & H).
  rewrite trigger_buys_eq in H. apply bind_Some in H as ([rb s2] & H2%trigger_loop_ids & [= <-]).
  etrans; [exact H1|]. etrans; [exact H2|]. by apply rtc_once, id_same.
Qed.

Lemma handle_ids c s s' : handle_client_order clock junk_price c s = Some s' → rtc id_step s s'.
Proof.
  unfold handle_client_order. intros (sym & _ & H)%bind_Some. cbn zeta in H.
  case_match; [by simplify_eq|]. case_match.
  - simplify_eq. apply rtc_once. by eapply id_oms.
  - simplify_eq. case_match; [done|]. apply rtc_once. by eapply id_oms.
  - unfold registerStopLoss in H. apply bind_Some in H as (ct & _ & H).
    apply (inj Some) in H. subst s'. by apply rtc_once, id_same.
  - simplify_eq. eapply rtc_l; [|apply send_slice_ids]. by apply id_same.
Qed.

Lemma foldl_ids {A} (f : option OMS → A → option OMS) l : ∀ s s',
  (∀ x, f None x = None) →
  (∀ s s' x, f (Some s) x = Some s' → rtc id_step s s') →
  foldl f (Some s) l = Some s' → rtc id_step s s'.
Proof.
  intros s s' HN HS. revert s. induction l as [|x l IH]; intros s; cbn [foldl]; [by intros [= <-]|].
  destruct (f (Some s) x) as [s1|] eqn:E.
  - intros H. etrans; [by eapply HS|by apply IH].
  - assert (foldl f None l = None) as -> by (clear -HN; induction l as [|y l IHl]; [done|]; cbn [foldl]; by rewrite HN).
    done.
Qed.

(** Polling a ring is [check_fill] on each trade the reader has not seen yet,
    in order; with [drain_ok] it terminates with as many units of fuel as
    there are such trades. *)
Definition check_fills (ts : list Trade) (s : OMS) : option OMS :=
  foldl (λ (st : option OMS) t, s ← st; check_fill clock t s) (Some s) ts.

Lemma check_fills_cons t ts s : check_fills (t :: ts) s = (s' ← check_fill clock t s; check_fills ts s').
Proof.
  unfold check_fills. cbn [foldl mbind option_bind]. destruct (check_fill clock t s) as [s'|]; [done|].
  cbn [mbind option_bind]. induction ts as [|t' ts IH]; [done|]. cbn [foldl mbind option_bind]. exact IH.
Qed.

Lemma poll_ring_drain fuel mem : ∀ h s ts h',
  drain fuel 0 (mkTrade 0 0 0 0 0 0 0) h mem = Some (ts, h') →
  poll_ring clock fuel h mem s = (s' ← check_fills ts s; Some (h', s')).
Proof.
  induction fuel as [|fuel IH]; intros h s ts h'; cbn [drain poll_ring];
    destruct (any_new_trade h mem); try done; try (intros [= <- <-]; done).
  destruct (get_trade 0 _ h mem) as [[t|] h1]; [|done]. cbn [mbind option_bind].
  intros H. apply bind_Some in H as ([ts1 h2] & Hd & [= <- <-]). rewrite check_fills_cons.
  destruct (check_fill clock t s) as [s'|]; [|done]. cbn [mbind option_bind]. by apply IH.
Qed.

Lemma poll_ring_ok ts c h s :
  handle_at c h → (c ≤ length ts)%nat → Z.of_nat (length ts) <= Z.of_nat c + RING_SIZE →
  Z.of_nat (length ts) < 2 * RING_SIZE - 3 → ∀ mem, ring_inv ts mem →
  ∃ h', handle_at (length ts) h' ∧
    poll_ring clock (length ts - c) h mem s = (s' ← check_fills (drop c ts) s; Some (h', s')).
Proof.
  intros Hh Hc Hw Hn mem Hr.
  destruct (drain_ok (length ts - c) 0 (mkTrade 0 0 0 0 0 0 0) h mem ts c) as (h' & Hd & Hh'); try done.
  exists h'. split; [done|]. by apply poll_ring_drain.
Qed.

Lemma poll_ring_ids fuel : ∀ h mem s h' s', poll_ring clock fuel h mem s = Some (h', s') → rtc id_step s s'.
Proof.
  induction fuel as [|fuel IH]; intros h mem s h' s'; cbn [poll_ring];
    (destruct (any_new_trade h mem); [|by intros [= <- <-]]); [done|].
  destruct (get_trade _ _ h mem) as [t h1]. intros (t' & _ & H)%bind_Some.
  apply bind_Some in H as (s1 & H1%check_fill_ids & H). etrans; [exact H1|]. by eapply IH.
Qed.

Lemma listen_ids fuel mems ltp s s' :
  listenForClientOrder_step clock junk_price fuel mems ltp s = Some s' → rtc id_step s s'.
Proof.
  unfold listenForClientOrder_step. intros ([item q] & _ & H)%bind_Some.
  apply bind_Some in H as (s1 & H1 & H). apply bind_Some in H as (s2 & H2 & H3).
  trans (set_incoming q s); [by apply rtc_once, id_same|]. trans s1.
  { destruct item; [by eapply handle_ids|by simplify_eq]. }
  trans s2.
  - unfold poll_rings in H2. eapply foldl_ids; [| |exact H2]; [done|].
    intros x x' i Hx. apply bind_Some in Hx as (y & [= <-] & Hx).
    apply bind_Some in Hx as (h & _ & Hx). apply bind_Some in Hx as (mem & _ & Hx).
    apply bind_Some in Hx as ([h' s3] & Hx%poll_ring_ids & [= <-]).
    etrans; [exact Hx|]. by apply rtc_once, id_same.
  - destruct ltp as [l|]; [|by simplify_eq]. unfold scan_prices in H3. eapply foldl_ids; [| |exact H3]; [done|].
    intros x x' i Hx. apply bind_Some in Hx as (y & [= <-] & Hx).
    apply bind_Some in Hx as (cur & _ & Hx). apply bind_Some in Hx as (seen & _ & Hx).
    destruct (cur =? seen); [apply (inj Some) in Hx; by subst x'|].
    apply bind_Some in Hx as (s3 & Hx%check_stops_ids & [= <-]).
    etrans; [exact Hx|]. by apply rtc_once, id_same.
Qed.

(** The life of the OMS: clients enqueue orders, the OMS thread iterates. *)
Inductive oms_step s : OMS → Prop :=
| oms_enqueue c ok s' : enqueueClientOrder c s = Some (ok, s') → oms_step s s'
| oms_listen fuel mems ltp s' :
    listenForClientOrder_step clock junk_price fuel mems ltp s = Some s' → oms_step s s'.

Lemma oms_step_ids s s' : oms_step s s' → rtc id_step s s'.
Proof.
  intros [c ok s1 H|fuel mems ltp s1 H]; [|by eapply listen_ids].
  unfold enqueueClientOrder in H. apply bind_Some in H as ([b q] & _ & [= <- <-]).
  by apply rtc_once, id_same.
Qed.

Lemma oms_run_ids boot s0 s :
  0 <= boot → ids_inv boot s0 → rtc oms_step s0 s → ids_inv boot s.
Proof.
  intros Hb H0 Hr. induction Hr as [|s0 s1 s Hst _ IH]; [done|].
  apply IH. eapply id_steps_inv; [done| |done]. by apply oms_step_ids.
Qed.
End theorems.

(** * Theorems *)

(** C6: Stop losses fire exactly when they should.  A move of a symbol's last
    price to [ltp] sends to the engine, as limit orders, exactly the
    registered sell stops triggered at or above it, highest trigger first,
    then exactly the buy stops triggered at or below it, lowest trigger
    first, with consecutive order ids; all other stops stay registered, and
    the heaps stay heaps. *)
Theorem stop_loss_exact clock s i ct ltp :
  stop_loss_registry s !! i = Some ct → stops_ok ct → is_u64 (next_oms_order_id s) →
  ∃ sells buys ct', fired_by ltp ct sells buys ct' ∧ stops_ok ct' ∧
    checkAndTriggerSL clock (Z.of_nat i) ltp s
    = Some (set_registry (<[i := ct']> (stop_loss_registry s))
              (after_sends s (length (sells ++ buys)) (imap (triggered_order clock s) (sells ++ buys)))).
Proof. intros. by apply check_stops_ok. Qed.

(** [registerStopLoss] adds the order to the stops of its side, and to no
    other, and keeps every container well formed. *)
Theorem registerStopLoss_adds c s ct :
  stop_loss_registry s !! Z.to_nat (Z.land (c_symbol_id c) SYMBOL_MASK) = Some ct →
  stops_ok ct → is_Some (c_string (c_symbol c)) →
  ∃ ct', registerStopLoss c s
      = Some (set_registry (<[Z.to_nat (Z.land (c_symbol_id c) SYMBOL_MASK) := ct']> (stop_loss_registry s)) s) ∧
    stops_ok ct' ∧
    match c_type c with
    | BUY => buy_stops ct' ≡ₚ c :: buy_stops ct ∧ sell_stops ct' = sell_stops ct
    | SELL => sell_stops ct' ≡ₚ c :: sell_stops ct ∧ buy_stops ct' = buy_stops ct
    end.
Proof.
  intros Hct [Hs Hb Hsym] Hc. unfold registerStopLoss. rewrite Hct. cbn [mbind option_bind].
  eexists. split; [reflexivity|]. destruct (c_type c).
  - split; [|cbn [buy_stops sell_stops]; split; [apply heap_push_perm|done]].
    split; cbn [buy_stops sell_stops]; [done|by apply (heap_push_heap MinTrigger)|].
    intros x. rewrite (heap_push_perm MinTrigger), elem_of_app, elem_of_cons.
    intros [Hx|[->|Hx]]; [|done|]; apply Hsym; set_solver.
  - split; [|cbn [buy_stops sell_stops]; split; [apply heap_push_perm|done]].
    split; cbn [buy_stops sell_stops]; [by apply (heap_push_heap MaxTrigger)|done|].
    intros x. rewrite (heap_push_perm MaxTrigger), elem_of_app, elem_of_cons.
    intros [[->|Hx]|Hx]; [done|..]; apply Hsym; set_solver.
Qed.

(** Accepting an iceberg.  For a listed symbol and a client id that is not
    in use, the intake sends one slice, of the smaller of the display and the
    total quantity, and leaves the parent with exactly that slice open. *)
Theorem iceberg_accepted clock junk c sym s :
  c_execution_type c = CICEBERG → c_string (c_symbol c) = Some sym →
  u32 (find_id (symbolLookupTable s) sym) ≠ UINT32_MAX →
  c_is_active c = true → c_filled_quantity c = 0 →
  0 < c_display_quantity c < 2 ^ 32 → 0 < c_quantity c < 2 ^ 32 →
  (∀ x, child_to_parent s !! x ≠ Some (c_client_order_id c)) → child_ids_ok s →
  next_child_order_id s + 1 < UINT64_MAX →
  ∃ s' slice, handle_client_order clock junk c s = Some s' ∧ sent s' = sent s ++ [slice] ∧
    o_quantity slice = Z.min (c_display_quantity c) (c_quantity c) ∧
    o_symbol_id slice = u32 (find_id (symbolLookupTable s) sym) ∧
    ice_open s' (c_client_order_id c) (next_child_order_id s)
      (set_c_symbol_id (u32 (find_id (symbolLookupTable s) sym)) c) 0
      (Z.min (c_display_quantity c) (c_quantity c)) [slice].
Proof.
  intros Hty Hsym Hid Hact Hfill HD HQ Hno Hids Hroom. unfold handle_client_order. rewrite Hsym.
  cbn [mbind option_bind]. set (c' := set_c_symbol_id (u32 (find_id (symbolLookupTable s) sym)) c).
  cbn zeta. rewrite (proj2 (Z.eqb_neq (c_symbol_id c') UINT32_MAX)) by done.
  replace (c_execution_type c') with CICEBERG.
  set (s1 := set_icebergs (<[c_client_order_id c' := c']> (active_icebergs s)) s).
  destruct (send_slice_open clock s1 (c_client_order_id c) c' 0 []) as [Hsent Hopen]; try done.
  { apply lookup_insert_eq. }
  { cbn [c_quantity c' set_c_symbol_id]. lia. }
  { intros x Hx. by apply elem_of_nil in Hx. }
  eexists _, (slice_of clock s1 c'). split; [reflexivity|]. split; [exact Hsent|].
  unfold filled in Hopen. cbn [c_filled_quantity c' set_c_symbol_id c_quantity c_display_quantity] in Hopen.
  rewrite Hfill, Z.sub_0_r in Hopen. split; [|split; [done|exact Hopen]].
  unfold slice_of, filled. cbn [o_quantity c_filled_quantity c' set_c_symbol_id c_quantity c_display_quantity].
  by rewrite Hfill, Z.sub_0_r.
Qed.

(** C7: Filling an iceberg.  A trade of [t] on the open slice, as the buy or as
    the sell order of the trade, is credited to the parent.  While part of the
    slice is left nothing is sent; when the slice is used up the next one is
    sent, never larger than the display quantity; and when the parent is
    completely filled it is closed, nothing more is sent, and the slices sent
    add up to exactly its quantity.  When both orders of the trade are slices,
    of two icebergs, both are credited so, the buyer first. *)
Theorem iceberg_filled clock s pid cid p B o slices tr :
  ice_open s pid cid p B o slices → has_iceberg_bit cid = true →
  0 < t_quantity tr <= o → next_child_order_id s + 2 < UINT64_MAX →
  (t_buy_order_id tr = cid ∧ has_iceberg_bit (t_sell_order_id tr) = false ∨
   t_sell_order_id tr = cid ∧ has_iceberg_bit (t_buy_order_id tr) = false →
   ∃ s', check_fill clock tr s = Some s' ∧ credited clock s s' pid cid p B o slices (t_quantity tr)) ∧
  (∀ pid2 p2 B2 o2 slices2, t_buy_order_id tr = cid → has_iceberg_bit (t_sell_order_id tr) = true →
   ice_open s pid2 (t_sell_order_id tr) p2 B2 o2 slices2 → pid ≠ pid2 → t_quantity tr <= o2 →
   ∃ s1 s', check_fill clock tr s = Some s' ∧ credited clock s s1 pid cid p B o slices (t_quantity tr) ∧
     credited clock s1 s' pid2 (t_sell_order_id tr) p2 B2 o2 slices2 (t_quantity tr) ∧
     (∀ c p B o slices, ice_open s1 pid c p B o slices → ice_open s' pid c p B o slices) ∧
     (∀ p slices, ice_closed s1 pid p slices → ice_closed s' pid p slices)).
Proof.
  intros Ho Hbit Ht Hroom. assert (next_child_order_id s + 1 < UINT64_MAX) as Hroom1 by lia.
  destruct (iceberg_leg clock s pid _ p B o slices (t_quantity tr) Ho Ht Hroom1) as (s1 & Hrun & Hres). split.
  - intros [[E Hn]|[E Hn]]; exists s1; (split; [|exact Hres]); unfold check_fill; rewrite E, Hbit, Hn; cbn [negb andb];
      rewrite ?Hrun; cbn [mbind option_bind]; rewrite ?Hrun; reflexivity.
  - intros pid2 p2 B2 o2 slices2 E Hbit2 Ho2 Hne Ht2.
    pose proof (io_child _ _ _ _ _ _ _ Ho) as Hc. pose proof (io_ids _ _ _ _ _ _ _ Ho) as Hids.
    destruct (leg_others clock s s1 pid cid _ Hc Hids Hroom1 Hrun) as (Hids1 & Hnext & _).
    destruct (leg_frame clock s s1 pid2 pid cid _ Hc Hids Hroom1 Hrun) as [Hopen _]; [done|]. apply Hopen in Ho2.
    destruct (iceberg_leg clock s1 pid2 _ p2 B2 o2 slices2 (t_quantity tr) Ho2) as (s' & Hrun2 & Hres2); [lia..|].
    exists s1, s'. split; [|split; [exact Hres|split; [exact Hres2|]]].
    + unfold check_fill. rewrite E, Hbit, Hbit2. cbn [negb andb]. rewrite Hrun. cbn [mbind option_bind]. exact Hrun2.
    + apply (leg_frame clock s1 s' pid pid2 (t_sell_order_id tr) (t_quantity tr)); [apply Ho2|done|lia|done|done].
Qed.

(** Every order the OMS ever sends to the engine has an id of its own,
    whatever the clients send and however trades and prices arrive, as long
    as the clock it boots with and the number of orders stay below [2^63]. *)
Theorem sent_ids_distinct clock junk capacity boot symbols s0 s :
  OMS_new capacity boot symbols = Some s0 → 0 <= boot →
  rtc (oms_step clock junk) s0 s → boot + Z.of_nat (length (sent s)) < 2 ^ 63 - 1 →
  NoDup (o_order_id <$> sent s).
Proof.
  intros H0 Hb Hr Hroom. destruct (oms_run_ids clock junk boot s0 s Hb) as (a & b & Hit); try done.
  - intros _. unfold OMS_new in H0. apply bind_Some in H0 as (tbl & _ & H0). apply (inj Some) in H0. subst s0.
    exists 0%nat, 0%nat. split; cbn [sent next_oms_order_id next_child_order_id]; try done; try lia; [constructor|].
    intros o Ho. by apply elem_of_nil in Ho.
  - apply Hit.
Qed.

(** The intake forwards a market order, and a limit order with a price, as
    one engine order with the client's side, quantity, price and client id and
    the next order id; it drops an order for an unknown symbol and a limit
    order without a price. *)
Theorem intake_forwards clock junk c sym s :
  c_string (c_symbol c) = Some sym →
  let id := u32 (find_id (symbolLookupTable s) sym) in
  let order ty price := mkOrder (next_oms_order_id s) ty price (clock (clock_reads s)) (c_trader_id c)
    (c_type c) id (c_quantity c) (c_client_order_id c) in
  let forwarded o := set_oms_id (u64 (next_oms_order_id s + 1))
    (set_sent_clock (sent s ++ [o]) (S (clock_reads s)) s) in
  (id = UINT32_MAX → handle_client_order clock junk c s = Some s) ∧
  (id ≠ UINT32_MAX → c_execution_type c = CLIMIT → c_price c ≠ 0 →
   handle_client_order clock junk c s = Some (forwarded (order LIMIT (c_price c)))) ∧
  (id ≠ UINT32_MAX → c_execution_type c = CLIMIT → c_price c = 0 →
   handle_client_order clock junk c s = Some s) ∧
  (id ≠ UINT32_MAX → c_execution_type c = CMARKET →
   handle_client_order clock junk c s = Some (forwarded (order MARKET junk))).
Proof.
  intros Hsym id order forwarded. unfold handle_client_order. rewrite Hsym. cbn [mbind option_bind].
  cbn [c_symbol_id set_c_symbol_id c_execution_type c_price]. fold id. split_and!.
  - intros ->. by rewrite Z.eqb_refl.
  - intros Hid -> Hp. rewrite (proj2 (Z.eqb_neq _ _) Hid), (proj2 (Z.eqb_neq _ _) Hp). done.
  - intros Hid -> ->. by rewrite (proj2 (Z.eqb_neq _ _) Hid).
  - intros Hid ->. rewrite (proj2 (Z.eqb_neq _ _) Hid). done.
Qed.

(** ** Witnesses *)

Definition aapl : list Z := [65; 65; 80; 76; 0; 0; 0; 0].
Definition demo_oms : OMS :=
  mkOMS {[find_hash [65; 65; 80; 76] := 0]} 1000 [mkStops [] []] [0] ∅ ∅
    (RingBuffer_new ClientOrder_default 2) first_child [] 0 [].
Definition stop_at (id trigger : Z) : ClientOrder :=
  mkClientOrder id 95 trigger aapl 0 1 SELL 10 0 0 CSTOP_LOSS true.
Definition demo_stops : StopLossContainer :=
  mkStops (heap_push MaxTrigger (stop_at 2 105) (heap_push MaxTrigger (stop_at 1 98) [])) [].
Definition stop_oms : OMS := set_registry [demo_stops] demo_oms.

Lemma demo_stops_ok : stops_ok demo_stops.
Proof.
  split.
  - apply (heap_push_heap MaxTrigger), (heap_push_heap MaxTrigger). by intros [] ?.
  - by intros [] ?.
  - intros c Hc. cbn [demo_stops sell_stops buy_stops] in Hc. rewrite app_nil_r in Hc.
    rewrite !(heap_push_perm MaxTrigger) in Hc. apply elem_of_cons in Hc as [->|Hc]; [by eexists|].
    apply list_elem_of_singleton in Hc as ->. by eexists.
Qed.

Lemma stop_loss_exact_witness :
  ∃ sells buys ct', fired_by 100 demo_stops sells buys ct' ∧
    is_Some (checkAndTriggerSL (λ _, 7) 0 100 stop_oms).
Proof.
  destruct (stop_loss_exact (λ _, 7) stop_oms 0 demo_stops 100 eq_refl demo_stops_ok)
    as (sells & buys & ct' & H1 & _ & H2).
  - vm_compute. split; [discriminate|reflexivity].
  - exists sells, buys, ct'. split; [exact H1|]. eexists. exact H2.
Defined.

Lemma registerStopLoss_adds_witness :
  ∃ ct', stops_ok ct' ∧ sell_stops ct' ≡ₚ stop_at 3 100 :: sell_stops demo_stops.
Proof.
  destruct (registerStopLoss_adds (stop_at 3 100) stop_oms demo_stops eq_refl demo_stops_ok)
    as (ct' & _ & H1 & H2 & _).
  - eexists. reflexivity.
  - exists ct'. split; assumption.
Defined.

Definition berg : ClientOrder := mkClientOrder 5 101 0 aapl 0 1 BUY 25 10 0 CICEBERG true.

Lemma iceberg_accepted_witness :
  ∃ s' slice, handle_client_order (λ _, 7) 0 berg demo_oms = Some s' ∧ o_quantity slice = 10 ∧
    ice_open s' 5 first_child berg 0 10 [slice].
Proof.
  destruct (iceberg_accepted (λ _, 7) 0 berg [65; 65; 80; 76] demo_oms) as (s' & slice & H1 & _ & H2 & _ & H3).
  - reflexivity.
  - reflexivity.
  - vm_compute. intros H. discriminate.
  - reflexivity.
  - reflexivity.
  - split; reflexivity.
  - split; reflexivity.
  - intros x. cbn [child_to_parent demo_oms]. rewrite lookup_empty. discriminate.
  - split; [split; [discriminate|reflexivity]|]. intros x. cbn [child_to_parent demo_oms].
    rewrite lookup_empty. intros [? ?]. discriminate.
  - reflexivity.
  - exists s', slice. split; [exact H1|]. split; [exact H2|exact H3].
Defined.

(** The parent of [berg] after its first slice was sent. *)
Definition open_oms : OMS :=
  mkOMS ∅ 1000 [] [] {[5 := berg]} {[first_child := 5]} (RingBuffer_new ClientOrder_default 2)
    (first_child + 1) [] 1 [].
Definition first_slice : Order := mkOrder first_child LIMIT 101 7 1 BUY 0 10 first_child.

Lemma open_oms_ok : ice_open open_oms 5 first_child berg 0 10 [first_slice].
Proof.
  split; try done.
  - intros c Hc. cbn [open_oms child_to_parent] in Hc. by apply lookup_singleton_Some in Hc as [<- _].
  - split; [done|]. intros c [x Hx]. cbn [open_oms child_to_parent] in Hx.
    apply lookup_singleton_Some in Hx as [<- _]. done.
  - intros x ->%list_elem_of_singleton. done.
Qed.

(** A trade of 10 uses up the slice, whichever side it is on: the next slice
    of 10 is sent. *)
Lemma iceberg_filled_witness :
  ∃ s' s'', check_fill (λ _, 7) (mkTrade 1 0 101 first_child 9 0 10) open_oms = Some s' ∧
    check_fill (λ _, 7) (mkTrade 1 0 101 9 first_child 0 10) open_oms = Some s'' ∧
    ice_open s' 5 (first_child + 1) (set_c_filled 10 berg) 10 10
      [first_slice; mkOrder (first_child + 1) LIMIT 101 7 1 BUY 0 10 (first_child + 1)] ∧
    ice_open s'' 5 (first_child + 1) (set_c_filled 10 berg) 10 10
      [first_slice; mkOrder (first_child + 1) LIMIT 101 7 1 BUY 0 10 (first_child + 1)].
Proof.
  destruct (iceberg_filled (λ _, 7) open_oms 5 first_child berg 0 10 [first_slice]
              (mkTrade 1 0 101 first_child 9 0 10) open_oms_ok) as [H _]; [reflexivity|split; [reflexivity|discriminate]|reflexivity|].
  destruct H as (s' & H1 & _ & H3); [left; split; reflexivity|].
  destruct (iceberg_filled (λ _, 7) open_oms 5 first_child berg 0 10 [first_slice]
              (mkTrade 1 0 101 9 first_child 0 10) open_oms_ok) as [H _]; [reflexivity|split; [reflexivity|discriminate]|reflexivity|].
  destruct H as (s'' & H4 & _ & H6); [right; split; reflexivity|].
  exists s', s''. split; [exact H1|]. split; [exact H4|]. split; [exact H3|exact H6].
Defined.

(** A fresh OMS after a client has enqueued an order. *)
Definition booted : OMS := default demo_oms (OMS_new 2 1000 [([65; 65; 80; 76], 0)]).
Definition booted_busy : OMS :=
  match enqueueClientOrder berg booted with Some (_, s) => s | None => booted end.

Lemma sent_ids_distinct_witness : NoDup (o_order_id <$> sent booted_busy).
Proof.
  apply (sent_ids_distinct (λ _, 0) 0 2 1000 [([65; 65; 80; 76], 0)] booted booted_busy).
  - vm_compute. reflexivity.
  - discriminate.
  - apply rtc_once. apply (oms_enqueue _ _ _ berg true). vm_compute. reflexivity.
  - vm_compute. reflexivity.
Defined.

Lemma intake_forwards_witness :
  handle_client_order (λ _, 7) 0 (mkClientOrder 6 101 0 aapl 0 1 BUY 25 0 0 CLIMIT true) demo_oms
  = Some (set_oms_id 1001 (set_sent_clock [mkOrder 1000 LIMIT 101 7 1 BUY 0 25 6] 1 demo_oms)).
Proof.
  apply (intake_forwards (λ _, 7) 0 (mkClientOrder 6 101 0 aapl 0 1 BUY 25 0 0 CLIMIT true) [65; 65; 80; 76]
           demo_oms eq_refl); [vm_compute; intros H; discriminate|reflexivity|discriminate].
Defined.
