(* ===== verification/SymbolLoader.v ===== *)
(** src/symbol_loader.cpp: the CSV file of symbols, read when the system
    starts and written at the end of the day.

    A text is the list of its character codes.  [std::getline] on a stream
    that has already reached its end leaves the string as it was, which is
    what a line with too few fields runs into; [std::stoul] and
    [std::stoull] throw when the token does not start with a number. *)

From Stdlib Require Import Ascii.
From S2P Require Import Prelude Types EngineTheorems.

Abbreviation text := (list Z).

Record SymbolInfo := mkSymbol {
  sy_symbol : text;
  sy_symbol_id : Z;
  sy_ltp : Z;
  sy_lower_limit : Z;
  sy_upper_limit : Z
}.

(** * Library functions *)

(** A string literal of the source. *)
Definition literal (s : string) : text := (λ a, Z.of_N (N_of_ascii a)) <$> String.list_ascii_of_string s.

Definition newline : Z := 10.
Definition comma : Z := 44.

(** The part of a text before the first [d], and what follows it; [None] when
    the end was reached without finding [d]. *)
Fixpoint split_at (d : Z) (t : text) : text * option text :=
  match t with
  | [] => ([], None)
  | c :: t => if c =? d then ([], Some t) else let '(a, r) := split_at d t in (c :: a, r)
  end.

(** [std::getline(stream, str, d)]; the stream is [None] once its end has been
    reached. *)
Definition getline (d : Z) (str : text) (st : option text) : text * option text :=
  match st with
  | None => (str, None)
  | Some t => split_at d t
  end.

(** [while(std::getline(file, line))]: the lines, a last one without a newline
    included if it is not empty. *)
Fixpoint lines (fuel : nat) (t : text) : list text :=
  match fuel with
  | O => []
  | S fuel =>
      match t with
      | [] => []
      | _ =>
          match split_at newline t with
          | (l, Some r) => l :: lines fuel r
          | (l, None) => [l]
          end
      end
  end.

Definition is_space (c : Z) : bool := (c =? 32) || ((9 <=? c) && (c <=? 13)).
Definition is_digit (c : Z) : bool := (48 <=? c) && (c <=? 57).

Fixpoint skip_spaces (t : text) : text :=
  match t with
  | c :: t' => if is_space c then skip_spaces t' else t
  | [] => []
  end.

Fixpoint take_digits (t : text) : text :=
  match t with
  | c :: t => if is_digit c then c :: take_digits t else []
  | [] => []
  end.

Definition digits_value (ds : text) : Z := foldl (λ n d, 10 * n + (d - 48)) 0 ds.

(** [std::stoul]/[std::stoull] ([unsigned long] has 64 bits); [None]: it throws. *)
Definition stoull (t : text) : option Z :=
  let t := skip_spaces t in
  let '(neg, t) := match t with
                   | c :: t' => if c =? 45 then (true, t') else if c =? 43 then (false, t') else (false, t)
                   | [] => (false, t)
                   end in
  let ds := take_digits t in
  if bool_decide (ds = []) then None
  else
    let n := digits_value ds in
    if UINT64_MAX <? n then None else Some (if neg : bool then u64 (- n) else n).

(** [file << n] for an unsigned integer. *)
Fixpoint dec_digits (fuel : nat) (n : Z) : text :=
  match fuel with
  | O => []
  | S fuel => if n <? 10 then [48 + n] else dec_digits fuel (n / 10) ++ [48 + n mod 10]
  end.
Definition print_dec (n : Z) : text := dec_digits 20 n.

(** * The program *)

Definition calculateLower (ltp : Z) : Z := u64 (ltp * 90) / 100.
Definition calculateUpper (ltp : Z) : Z := u64 (ltp * 110) / 100.

(** The body of the loop of [loadSymbolCSV]. *)
Definition parse_line (line : text) : option SymbolInfo :=
  let '(symbol, ss) := getline comma [] (Some line) in
  let '(token, ss) := getline comma [] ss in
  symbol_id ← stoull token;
  let '(token, ss) := getline comma token ss in
  ltp ← stoull token;
  let '(token, ss) := getline comma token ss in
  lower_limit ← stoull token;
  let '(token, ss) := getline comma token ss in
  upper_limit ← stoull token;
  Some (mkSymbol symbol (u32 symbol_id) ltp lower_limit upper_limit).

(** [None]: an exception. *)
Definition loadSymbolCSV (file : text) : option (list SymbolInfo) :=
  mapM parse_line (drop 1 (lines (S (length file)) file)).

Definition header : text :=
  [115; 121; 109; 98; 111; 108; 44; 115; 121; 109; 98; 111; 108; 95; 105; 100; 44; 108; 116; 112; 44;
   108; 111; 119; 101; 114; 95; 108; 105; 109; 105; 116; 44; 117; 112; 112; 101; 114; 95; 108; 105; 109; 105; 116].

(** What [saveEndOfDayCSV] stores for a symbol; [None]: [last_price] is read
    outside the array. *)
Definition end_of_day (last_price : list Z) (s : SymbolInfo) : option SymbolInfo :=
  p ← last_price !! Z.to_nat (sy_symbol_id s);
  let latest_ltp := if p =? 0 then sy_ltp s else p in
  Some (mkSymbol (sy_symbol s) (sy_symbol_id s) latest_ltp
          (calculateLower latest_ltp) (calculateUpper latest_ltp)).

Definition print_line (s : SymbolInfo) : text :=
  sy_symbol s ++ [comma] ++ print_dec (sy_symbol_id s) ++ [comma] ++ print_dec (sy_ltp s) ++ [comma]
  ++ print_dec (sy_lower_limit s) ++ [comma] ++ print_dec (sy_upper_limit s) ++ [newline].

Definition saveEndOfDayCSV (last_price : list Z) (symbols : list SymbolInfo) : option text :=
  ss ← mapM (end_of_day last_price) symbols;
  Some (header ++ [newline] ++ concat (print_line <$> ss)).

(** * Decimal numbers *)

Lemma digits_value_snoc ds d : digits_value (ds ++ [d]) = 10 * digits_value ds + (d - 48).
Proof. unfold digits_value. by rewrite foldl_app. Qed.

Lemma dec_digits_ok fuel n :
  0 <= n < 10 ^ Z.of_nat fuel →
  Forall (λ c, is_digit c = true) (dec_digits fuel n) ∧ digits_value (dec_digits fuel n) = n ∧
  ((0 < fuel)%nat → dec_digits fuel n ≠ []).
Proof.
  revert n. induction fuel as [|fuel IH]; intros n Hn; cbn [dec_digits].
  { simpl in Hn. split_and!; [constructor|unfold digits_value; simpl; lia|lia]. }
  rewrite Nat2Z.inj_succ, Z.pow_succ_r in Hn by lia. destruct (Z.ltb_spec n 10).
  - split_and!; [|unfold digits_value; simpl; lia|done].
    repeat constructor. unfold is_digit. lia.
  - pose proof (Z.mod_pos_bound n 10 ltac:(lia)). pose proof (Z.div_mod n 10 ltac:(lia)).
    destruct (IH (n / 10)) as (Hd & Hv & _).
    { split; [apply Z.div_pos; lia|]. apply Z.div_lt_upper_bound; lia. }
    split_and!.
    + apply Forall_app. split; [done|]. repeat constructor. unfold is_digit. lia.
    + rewrite digits_value_snoc, Hv. lia.
    + intros _ Hnil. by apply app_nil in Hnil as [_ Hnil].
Qed.

Lemma print_dec_ok n :
  is_u64 n → Forall (λ c, is_digit c = true) (print_dec n) ∧ digits_value (print_dec n) = n ∧ print_dec n ≠ [].
Proof. intros Hn. destruct (dec_digits_ok 20 n) as (H1 & H2 & H3); [mach|]. split_and!; auto with lia. Qed.

Lemma take_digits_all ds : Forall (λ c, is_digit c = true) ds → take_digits ds = ds.
Proof. induction 1 as [|c ds Hc _ IH]; cbn [take_digits]; [done|]. by rewrite Hc, IH. Qed.

Lemma stoull_print n : is_u64 n → stoull (print_dec n) = Some n.
Proof.
  intros Hn. destruct (print_dec_ok n Hn) as (Hd & Hv & Hne). unfold stoull.
  destruct (print_dec n) as [|c t] eqn:E; [done|]. apply Forall_cons in Hd as Hc. destruct Hc as [Hc _].
  assert (skip_spaces (c :: t) = c :: t) as ->.
  { cbn [skip_spaces]. unfold is_digit, is_space in *.
    destruct ((c =? 32) || _) eqn:Es; [|done]. exfalso. lia. }
  cbn zeta. unfold is_digit in Hc.
  rewrite (proj2 (Z.eqb_neq c 45)), (proj2 (Z.eqb_neq c 43)) by lia. cbn zeta beta iota.
  rewrite take_digits_all by done. rewrite bool_decide_eq_false_2 by done. rewrite Hv.
  unfold UINT64_MAX. rewrite (proj2 (Z.ltb_ge _ _)) by mach. done.
Qed.

(** * Lines and fields *)

Lemma split_at_app d a r : d ∉ a → split_at d (a ++ d :: r) = (a, Some r).
Proof.
  induction a as [|c a IH]; intros Hd; cbn [app split_at]; [by rewrite Z.eqb_refl|].
  rewrite (proj2 (Z.eqb_neq c d)) by set_solver. rewrite IH by set_solver. done.
Qed.

Lemma split_at_end d a : d ∉ a → split_at d a = (a, None).
Proof.
  induction a as [|c a IH]; intros Hd; cbn [split_at]; [done|].
  rewrite (proj2 (Z.eqb_neq c d)) by set_solver. rewrite IH by set_solver. done.
Qed.

Lemma lines_ok ls : ∀ fuel,
  Forall (λ l, newline ∉ l) ls → (length (concat ((λ l, l ++ [newline]) <$> ls)) < fuel)%nat →
  lines fuel (concat ((λ l, l ++ [newline]) <$> ls)) = ls.
Proof.
  induction ls as [|l ls IH]; intros fuel Hl Hf; (destruct fuel as [|fuel]; [simpl in Hf; lia|]); [done|].
  apply Forall_cons in Hl as [Hl Hls]. rewrite fmap_cons in *. cbn [concat] in *.
  rewrite <- app_assoc in *. cbn [app] in *. cbn [lines].
  rewrite length_app in Hf. cbn [length] in Hf.
  destruct (l ++ newline :: concat _) as [|c t] eqn:E; [by destruct l|]. rewrite <- E.
  rewrite split_at_app by done. f_equal. apply IH; [done|]. lia.
Qed.

Lemma print_dec_no n c : is_u64 n → is_digit c = false → c ∉ print_dec n.
Proof.
  intros Hn Hc Hin. destruct (print_dec_ok n Hn) as (Hd & _). rewrite Forall_forall in Hd.
  apply Hd in Hin. congruence.
Qed.

(** A symbol whose fields fit their C++ types and whose name is one CSV field. *)
Record symbol_ok (s : SymbolInfo) : Prop := {
  sk_name : (comma ∉ sy_symbol s) ∧ (newline ∉ sy_symbol s);
  sk_id : is_u32 (sy_symbol_id s);
  sk_ltp : is_u64 (sy_ltp s);
  sk_lower : is_u64 (sy_lower_limit s);
  sk_upper : is_u64 (sy_upper_limit s)
}.

Definition line_of (s : SymbolInfo) : text :=
  sy_symbol s ++ comma :: print_dec (sy_symbol_id s) ++ comma :: print_dec (sy_ltp s) ++ comma ::
  print_dec (sy_lower_limit s) ++ comma :: print_dec (sy_upper_limit s).

Lemma print_line_eq s : print_line s = line_of s ++ [newline].
Proof. unfold print_line, line_of. cbn [app]. by repeat (rewrite <- app_assoc; cbn [app]). Qed.

Lemma parse_line_ok s : symbol_ok s → parse_line (line_of s) = Some s.
Proof.
  intros [[Hc _] Hid Hl Hlo Hup]. assert (is_u64 (sy_symbol_id s)) as Hid' by mach.
  unfold parse_line, line_of, getline. rewrite split_at_app by done. cbn zeta.
  rewrite split_at_app by (by apply print_dec_no). rewrite stoull_print by done. cbn [mbind option_bind].
  rewrite split_at_app by (by apply print_dec_no). rewrite stoull_print by done. cbn [mbind option_bind].
  rewrite split_at_app by (by apply print_dec_no). rewrite stoull_print by done. cbn [mbind option_bind].
  rewrite split_at_end by (by apply print_dec_no). rewrite stoull_print by done. cbn [mbind option_bind].
  rewrite u32_small by done. by destruct s.
Qed.

Lemma line_of_no_newline s : symbol_ok s → newline ∉ line_of s.
Proof.
  intros [[_ Hn] Hid Hl Hlo Hup]. assert (is_u64 (sy_symbol_id s)) as Hid' by mach.
  pose proof (print_dec_no _ newline Hid' eq_refl). pose proof (print_dec_no _ newline Hl eq_refl).
  pose proof (print_dec_no _ newline Hlo eq_refl). pose proof (print_dec_no _ newline Hup eq_refl).
  assert (newline ≠ comma) by done. unfold line_of. set_solver.
Qed.

(** * Round trip *)

Lemma end_of_day_ok last_price s :
  symbol_ok s → sy_symbol_id s < Z.of_nat (length last_price) →
  (∀ p, p ∈ last_price → is_u64 p) →
  ∃ s', end_of_day last_price s = Some s' ∧ symbol_ok s'.
Proof.
  intros [Hn Hid Hl Hlo Hup] Hlen Hp. unfold end_of_day.
  destruct (lookup_lt_is_Some_2 last_price (Z.to_nat (sy_symbol_id s))) as [p Hlook]; [mach|].
  rewrite Hlook. cbn [mbind option_bind]. eexists. split; [done|].
  assert (is_u64 p) as Hpu by (eapply Hp, list_elem_of_lookup_2, Hlook).
  assert (∀ x, is_u64 (u64 x / 100)) as Hdiv.
  { intros x. pose proof (u64_range x) as [? ?]. split; [apply Z.div_pos; lia|].
    apply Z.div_lt_upper_bound; lia. }
  split; cbn [sy_symbol sy_symbol_id sy_ltp sy_lower_limit sy_upper_limit]; try done; try apply Hdiv.
  by destruct (p =? 0).
Qed.

Lemma mapM_end_of_day last_price symbols :
  Forall symbol_ok symbols → (∀ s, s ∈ symbols → sy_symbol_id s < Z.of_nat (length last_price)) →
  (∀ p, p ∈ last_price → is_u64 p) →
  ∃ ss, mapM (end_of_day last_price) symbols = Some ss ∧ Forall symbol_ok ss.
Proof.
  intros Hs Hid Hp. induction symbols as [|s symbols IH]; [exists []; split; [done|constructor]|].
  apply Forall_cons in Hs as [Hs Hss].
  destruct (end_of_day_ok last_price s Hs) as (s' & Hrun & Hs'); [apply Hid; left|done|].
  destruct IH as (ss & Hrun' & Hss'); [done|intros x Hx; apply Hid; by right|].
  exists (s' :: ss). cbn [mapM]. rewrite Hrun. cbn [mbind option_bind]. rewrite Hrun'.
  split; [done|by constructor].
Qed.

Lemma mapM_parse ss : Forall symbol_ok ss → mapM parse_line (line_of <$> ss) = Some ss.
Proof.
  induction 1 as [|s ss Hs _ IH]; [done|]. rewrite fmap_cons. cbn [mapM].
  rewrite parse_line_ok by done. cbn [mbind option_bind]. by rewrite IH.
Qed.

(** C25: The end-of-day file can be loaded again: for symbols whose names are
    single CSV fields and whose ids are inside the price array,
    [loadSymbolCSV] returns from what [saveEndOfDayCSV] wrote exactly the
    symbols with their new prices and limits. *)
Theorem symbols_roundtrip last_price symbols :
  Forall symbol_ok symbols → (∀ s, s ∈ symbols → sy_symbol_id s < Z.of_nat (length last_price)) →
  (∀ p, p ∈ last_price → is_u64 p) →
  ∃ file ss, saveEndOfDayCSV last_price symbols = Some file ∧
    mapM (end_of_day last_price) symbols = Some ss ∧ loadSymbolCSV file = Some ss.
Proof.
  intros Hs Hid Hp. destruct (mapM_end_of_day last_price symbols Hs Hid Hp) as (ss & Hrun & Hss).
  unfold saveEndOfDayCSV. rewrite Hrun. cbn [mbind option_bind]. eexists _, ss. split_and!; [done..|].
  unfold loadSymbolCSV.
  assert (header ++ [newline] ++ concat (print_line <$> ss)
          = concat ((λ l, l ++ [newline]) <$> header :: (line_of <$> ss))) as ->.
  { rewrite fmap_cons. cbn [concat]. rewrite <- app_assoc. do 2 f_equal.
    rewrite <- list_fmap_compose. f_equal. apply list_fmap_ext. intros i s _. apply print_line_eq. }
  rewrite lines_ok; [|constructor; [|apply Forall_fmap; eapply Forall_impl; [done|]; apply line_of_no_newline]|lia].
  - cbn [drop]. by apply mapM_parse.
  - apply (bool_decide_eq_true_1 _). reflexivity.
Qed.

(** AAPL at 103 today, MSFT not traded. *)
Definition sample_symbols : list SymbolInfo :=
  [mkSymbol [65; 65; 80; 76] 0 100 90 110; mkSymbol [77; 83; 70; 84] 1 250 225 275].

Lemma symbols_roundtrip_witness :
  ∃ file, saveEndOfDayCSV [103; 0] sample_symbols = Some file ∧
    loadSymbolCSV file
    = Some [mkSymbol [65; 65; 80; 76] 0 103 92 113; mkSymbol [77; 83; 70; 84] 1 250 225 275].
Proof.
  destruct (symbols_roundtrip [103; 0] sample_symbols) as (file & ss & H1 & H2 & H3).
  - unfold sample_symbols. repeat constructor; cbn [sy_symbol sy_symbol_id sy_ltp sy_lower_limit sy_upper_limit];
      try discriminate; apply (bool_decide_eq_true_1 _); reflexivity.
  - intros s Hs. repeat (apply elem_of_cons in Hs as [->|Hs]; [reflexivity|]). by apply elem_of_nil in Hs.
  - intros p Hp. repeat (apply elem_of_cons in Hp as [->|Hp]; [split; [discriminate|reflexivity]|]).
    by apply elem_of_nil in Hp.
  - exists file. split; [exact H1|]. vm_compute in H2. rewrite H3. symmetry. exact H2.
Defined.

(** [saveEndOfDayCSV] reads outside the price array as soon as one of the
    symbols belongs to the second engine group: the array has one entry per
    symbol of a group, the ids run over all groups. *)
Theorem end_of_day_out_of_bounds last_price symbols s :
  length last_price = Z.to_nat MAX_SYMBOLS → s ∈ symbols → MAX_SYMBOLS <= sy_symbol_id s →
  saveEndOfDayCSV last_price symbols = None.
Proof.
  intros Hl Hin Hid. unfold saveEndOfDayCSV.
  assert (mapM (end_of_day last_price) symbols = None) as ->; [|done].
  induction symbols as [|x symbols IH]; [by apply elem_of_nil in Hin|]. cbn [mapM].
  apply elem_of_cons in Hin as [->|Hin].
  - assert (end_of_day last_price x = None) as ->; [|done].
    unfold end_of_day. by rewrite lookup_ge_None_2 by lia.
  - rewrite IH by done. by destruct (end_of_day last_price x).
Qed.

Lemma end_of_day_out_of_bounds_witness :
  saveEndOfDayCSV (replicate (Z.to_nat MAX_SYMBOLS) 0) [mkSymbol [65] 1024 100 90 110] = None.
Proof.
  apply (end_of_day_out_of_bounds _ _ (mkSymbol [65] 1024 100 90 110)).
  - apply length_replicate.
  - left.
  - discriminate.
Defined.

(** The limits computed for the next day surround the last price, within
    the rounding, and are limits the order books can be created with. *)
Theorem limits_valid ltp :
  2 <= ltp <= 10 ^ 10 →
  calculateLower ltp <= ltp <= calculateUpper ltp ∧
  9 * ltp - 10 < 10 * calculateLower ltp <= 9 * ltp ∧
  11 * ltp - 10 < 10 * calculateUpper ltp <= 11 * ltp ∧
  band_ok (calculateLower ltp) (calculateUpper ltp).
Proof.
  intros H. unfold calculateLower, calculateUpper, band_ok. rewrite !u64_small by mach.
  pose proof (Z.div_mod (ltp * 90) 100 ltac:(lia)). pose proof (Z.mod_pos_bound (ltp * 90) 100 ltac:(lia)).
  pose proof (Z.div_mod (ltp * 110) 100 ltac:(lia)). pose proof (Z.mod_pos_bound (ltp * 110) 100 ltac:(lia)).
  mach.
Qed.

Lemma limits_valid_witness : calculateLower 100 <= 100 <= calculateUpper 100.
Proof. apply (limits_valid 100). lia. Defined.
