(* ===== verification/Wire.v ===== *)
(** The program sends its structs over sockets and into files as raw memory
    (x86-64, little endian, natural alignment).  This file gives the layouts
    of [ClientOrder] (72 bytes), [MarketDataMessage] (64 bytes) and [Trade]
    (48 bytes) and shows that reading back what was written is the identity.

    An enumerator outside the declared range is read the way the program's
    comparisons treat it: a side that is not [BUY] acts as [SELL], an
    execution type that is none of the others acts as [LIMIT]. *)

From S2P Require Import Prelude Types Oms.

Abbreviation bytes := (list Z).

(** * Little-endian integers *)

Fixpoint le (n : nat) (z : Z) : bytes :=
  match n with
  | O => []
  | S n => z mod 256 :: le n (z / 256)
  end.

Definition unle (bs : bytes) : Z := foldr (λ b a, b + 256 * a) 0 bs.

Lemma length_le n z : length (le n z) = n.
Proof. revert z. induction n as [|n IH]; intros z; simpl; [done|]. by rewrite IH. Qed.

Lemma unle_le n z : 0 <= z < 256 ^ Z.of_nat n → unle (le n z) = z.
Proof.
  revert z. induction n as [|n IH]; intros z Hz; cbn [le unle foldr]; [simpl in Hz; lia|].
  rewrite Nat2Z.inj_succ, Z.pow_succ_r in Hz by lia. fold (unle (le n (z / 256))).
  rewrite IH.
  - pose proof (Z.div_mod z 256 ltac:(lia)). lia.
  - split; [apply Z.div_pos; lia|]. apply Z.div_lt_upper_bound; lia.
Qed.

(** The integer of [len] bytes at offset [off] of a struct. *)
Definition field (off len : nat) (bs : bytes) : Z := unle (take len (drop off bs)).

(** A struct is written as the sequence of its fields. *)
Lemma chunk_at (L : list bytes) i off len c :
  L !! i = Some c → length (concat (take i L)) = off → length c = len →
  take len (drop off (concat L)) = c.
Proof.
  intros Hi <- <-. rewrite <- (take_drop_middle L i c Hi) at 2.
  rewrite concat_app, drop_app_length. cbn [concat]. by rewrite take_app_length.
Qed.

Lemma field_chunk (L : list bytes) i off len z :
  L !! i = Some (le len z) → length (concat (take i L)) = off → 0 <= z < 256 ^ Z.of_nat len →
  field off len (concat L) = z.
Proof.
  intros Hi Ho Hz. unfold field. rewrite (chunk_at L i off len _ Hi Ho) by apply length_le.
  by apply unle_le.
Qed.

(** Computes the offset of a field. *)
Ltac offset := cbn [take firstn concat]; rewrite ?length_app, ?length_le, ?length_fmap, ?length_replicate;
  cbn [length]; try lia; done.

(** Struct padding. *)
Definition pad (n : nat) : bytes := replicate n 0.

(** A [char] is signed. *)
Definition char_byte (c : Z) : Z := c mod 256.
Definition byte_char (b : Z) : Z := if b <? 128 then b else b - 256.

Lemma byte_char_byte c : -128 <= c < 128 → byte_char (char_byte c) = c.
Proof.
  intros H. unfold byte_char, char_byte. destruct (Z.ltb_spec c 0).
  - replace (c mod 256) with (c + 256) by (rewrite <- (Z_mod_plus_full c 1), Z.mod_small; lia).
    destruct (Z.ltb_spec (c + 256) 128); lia.
  - rewrite Z.mod_small by lia. destruct (Z.ltb_spec c 128); lia.
Qed.

(** * ClientOrder *)

Definition sizeof_ClientOrder : nat := 72.

Definition side_code (s : OrderType) : Z := match s with BUY => 0 | SELL => 1 end.
Definition code_side (z : Z) : OrderType := if z =? 0 then BUY else SELL.
Definition type_code (t : ClientOrderType) : Z :=
  match t with CMARKET => 0 | CLIMIT => 1 | CSTOP_LOSS => 2 | CICEBERG => 3 end.
Definition code_type (z : Z) : ClientOrderType :=
  if z =? 0 then CMARKET else if z =? 2 then CSTOP_LOSS else if z =? 3 then CICEBERG else CLIMIT.

Definition client_fields (c : ClientOrder) : list bytes :=
  [le 8 (c_client_order_id c); le 8 (c_price c); le 8 (c_trigger_price c);
   char_byte <$> c_symbol c; le 4 (c_symbol_id c); pad 4; le 8 (c_trader_id c);
   le 4 (side_code (c_type c)); le 4 (c_quantity c); le 4 (c_display_quantity c);
   le 4 (c_filled_quantity c); le 4 (type_code (c_execution_type c));
   le 1 (if c_is_active c then 1 else 0); pad 3].
Definition encode_client (c : ClientOrder) : bytes := concat (client_fields c).

Definition decode_client (bs : bytes) : ClientOrder :=
  mkClientOrder (field 0 8 bs) (field 8 8 bs) (field 16 8 bs) (byte_char <$> take 8 (drop 24 bs))
    (field 32 4 bs) (field 40 8 bs) (code_side (field 48 4 bs)) (field 52 4 bs) (field 56 4 bs)
    (field 60 4 bs) (code_type (field 64 4 bs)) (negb (field 68 1 bs =? 0)).

(** The ranges of the C++ field types. *)
Record client_typed (c : ClientOrder) : Prop := {
  ct_id : is_u64 (c_client_order_id c);
  ct_price : is_u64 (c_price c);
  ct_trigger : is_u64 (c_trigger_price c);
  ct_symbol : length (c_symbol c) = 8%nat ∧ Forall (λ x, -128 <= x < 128) (c_symbol c);
  ct_symbol_id : is_u32 (c_symbol_id c);
  ct_trader : is_u64 (c_trader_id c);
  ct_quantity : is_u32 (c_quantity c);
  ct_display : is_u32 (c_display_quantity c);
  ct_filled : is_u32 (c_filled_quantity c)
}.

Lemma length_encode_client c : length (c_symbol c) = 8%nat → length (encode_client c) = sizeof_ClientOrder.
Proof.
  intros H. unfold encode_client, client_fields, pad. cbn [concat].
  rewrite !length_app, !length_le, !length_replicate, length_fmap, H. done.
Qed.

Lemma decode_encode_client c : client_typed c → decode_client (encode_client c) = c.
Proof.
  intros [Hid Hp Htr [Hsl Hsf] Hsy Htd Hq Hd Hf].
  assert (256 ^ Z.of_nat 8 = 2 ^ 64 ∧ 256 ^ Z.of_nat 4 = 2 ^ 32 ∧ 256 ^ Z.of_nat 1 = 256) as (E8 & E4 & E1) by done.
  assert (take 8 (drop 24 (encode_client c)) = (char_byte <$> c_symbol c)) as Hsym.
  { apply (chunk_at (client_fields c) 3); [done|offset|by rewrite length_fmap]. }
  assert (0 <= side_code (c_type c) <= 1 ∧ 0 <= type_code (c_execution_type c) <= 3) as [Hs Ht]
    by (destruct (c_type c), (c_execution_type c); done).
  unfold decode_client. rewrite Hsym. unfold encode_client, client_fields, pad.
  rewrite (field_chunk _ 0 0 8 (c_client_order_id c)) by (done || offset || mach).
  rewrite (field_chunk _ 1 8 8 (c_price c)) by (done || offset || mach).
  rewrite (field_chunk _ 2 16 8 (c_trigger_price c)) by (done || offset || mach).
  rewrite (field_chunk _ 4 32 4 (c_symbol_id c)) by (done || offset || mach).
  rewrite (field_chunk _ 6 40 8 (c_trader_id c)) by (done || offset || mach).
  rewrite (field_chunk _ 7 48 4 (side_code (c_type c))) by (done || offset || mach).
  rewrite (field_chunk _ 8 52 4 (c_quantity c)) by (done || offset || mach).
  rewrite (field_chunk _ 9 56 4 (c_display_quantity c)) by (done || offset || mach).
  rewrite (field_chunk _ 10 60 4 (c_filled_quantity c)) by (done || offset || mach).
  rewrite (field_chunk _ 11 64 4 (type_code (c_execution_type c))) by (done || offset || mach).
  rewrite (field_chunk _ 12 68 1 (if c_is_active c then 1 else 0)) by (done || offset || (destruct (c_is_active c); lia)).
  assert (byte_char <$> (char_byte <$> c_symbol c) = c_symbol c) as ->.
  { rewrite <- list_fmap_compose. rewrite <- (list_fmap_id (c_symbol c)) at 2.
    apply list_fmap_ext. intros i x Hx. rewrite Forall_lookup in Hsf. apply byte_char_byte, (Hsf i x Hx). }
  destruct c as [? ? ? ? ? ? [] ? ? ? [] []]; done.
Qed.

(** * MarketDataMessage *)

Definition message_fields (m : MarketDataMessage) : list bytes :=
  [le 8 (m_trade_id m); le 8 (m_timestamp_ns m); le 8 (m_price m); le 4 (m_symbol_id m);
   le 4 (m_quantity m); le 8 (m_seq_num m); pad 24].
Definition encode_message (m : MarketDataMessage) : bytes := concat (message_fields m).

Definition decode_message (bs : bytes) : MarketDataMessage :=
  mkMessage (field 0 8 bs) (field 8 8 bs) (field 16 8 bs) (field 24 4 bs) (field 28 4 bs) (field 32 8 bs).

Record message_typed (m : MarketDataMessage) : Prop := {
  mt_trade : is_u64 (m_trade_id m);
  mt_time : is_u64 (m_timestamp_ns m);
  mt_price : is_u64 (m_price m);
  mt_symbol : is_u32 (m_symbol_id m);
  mt_quantity : is_u32 (m_quantity m);
  mt_seq : is_u64 (m_seq_num m)
}.

Lemma length_encode_message m : length (encode_message m) = Z.to_nat sizeof_MarketDataMessage.
Proof.
  unfold encode_message, message_fields, pad. cbn [concat].
  by rewrite !length_app, !length_le, length_replicate.
Qed.

Lemma decode_encode_message m : message_typed m → decode_message (encode_message m) = m.
Proof.
  intros [Ht Hti Hp Hs Hq Hse].
  assert (256 ^ Z.of_nat 8 = 2 ^ 64 ∧ 256 ^ Z.of_nat 4 = 2 ^ 32) as (E8 & E4) by done.
  unfold decode_message, encode_message, message_fields, pad.
  rewrite (field_chunk _ 0 0 8 (m_trade_id m)) by (done || offset || mach).
  rewrite (field_chunk _ 1 8 8 (m_timestamp_ns m)) by (done || offset || mach).
  rewrite (field_chunk _ 2 16 8 (m_price m)) by (done || offset || mach).
  rewrite (field_chunk _ 3 24 4 (m_symbol_id m)) by (done || offset || mach).
  rewrite (field_chunk _ 4 28 4 (m_quantity m)) by (done || offset || mach).
  rewrite (field_chunk _ 5 32 8 (m_seq_num m)) by (done || offset || mach).
  by destruct m.
Qed.

(** * Trade *)

Definition trade_fields (t : Trade) : list bytes :=
  [le 8 (t_trade_id t); le 8 (t_timestamp_ns t); le 8 (t_price t); le 8 (t_buy_order_id t);
   le 8 (t_sell_order_id t); le 4 (t_symbol_id t); le 4 (t_quantity t)].
Definition encode_trade (t : Trade) : bytes := concat (trade_fields t).

Lemma length_encode_trade t : length (encode_trade t) = Z.to_nat sizeof_Trade.
Proof. unfold encode_trade, trade_fields. cbn [concat]. by rewrite !length_app, !length_le. Qed.

(** * Streams of fixed-size records *)

(** The records of [size] bytes at the front of a stream. *)
Fixpoint records (fuel size : nat) (bs : bytes) : list bytes :=
  match fuel with
  | O => []
  | S fuel => if (size <=? length bs)%nat then take size bs :: records fuel size (drop size bs) else []
  end.

Lemma records_concat size rs tail : ∀ fuel,
  (0 < size)%nat → Forall (λ r, length r = size) rs → (length tail < size)%nat → (length rs ≤ fuel)%nat →
  records fuel size (concat rs ++ tail) = rs.
Proof.
  induction rs as [|r rs IH]; intros fuel Hs Hr Ht Hf.
  - destruct fuel; [done|]. cbn [records concat app].
    destruct (Nat.leb_spec size (length tail)); [lia|done].
  - destruct fuel as [|fuel]; [simpl in Hf; lia|]. apply Forall_cons in Hr as [Hr Hrs].
    cbn [records concat]. rewrite <- app_assoc, length_app.
    destruct (Nat.leb_spec size (length r + length (concat rs ++ tail))); [|lia].
    rewrite take_app_length', drop_app_length' by done. f_equal. apply IH; try done. simpl in Hf. lia.
Qed.
