(* ===== verification/Server.v ===== *)
(** [OrderReceivingServer] of src/oms_order_receiving_server.cpp: the TCP
    intake of client orders.  A socket is the sequence of what [recv] will
    report on it; setting up the listening socket is not modelled. *)

From S2P Require Import Prelude Types Fifo RingBuffer Oms Wire.

(** What a call of [recv] runs into: bytes of the stream (at least one), a
    signal, the end of the stream, an error, or, as seen by the loops, the
    shutdown flag being set. *)
Inductive event := Data (bs : bytes) | Interrupt | Closed | Failure | ShutdownFlag.

Abbreviation socket := (list event).

(** [readExact]: the bytes, or [None] for [false]; [recv] never returns more
    than what is still missing, the rest of a chunk stays in the socket.  An
    exhausted socket is one whose peer is gone. *)
Fixpoint readExact (size : nat) (acc : bytes) (sock : socket) : option bytes * socket :=
  if (size <=? length acc)%nat then (Some acc, sock)
  else
    match sock with
    | Data bs :: sock =>
        let missing := (size - length acc)%nat in
        if bool_decide (bs = []) then (None, sock)
        else if (length bs <=? missing)%nat then readExact size (acc ++ bs) sock
        else (Some (acc ++ take missing bs), Data (drop missing bs) :: sock)
    | Interrupt :: sock => readExact size acc sock
    | Closed :: sock | Failure :: sock => (None, sock)
    | ShutdownFlag :: _ => (None, sock)
    | [] => (None, [])
    end.

(** The inner loop of [clientSession]: try until the OMS queue takes the
    order.  Between two attempts the rest of the system runs: the next
    function of [env].  The boolean is [enqueued]. *)
Fixpoint enqueue_loop (env : list (OMS → option OMS)) (c : ClientOrder) (s : OMS)
  : option (bool * list (OMS → option OMS) * OMS) :=
  '(ok, s) ← enqueueClientOrder c s;
  if ok : bool then Some (true, env, s)
  else
    match env with
    | [] => Some (false, [], s)
    | f :: env => s ← f s; enqueue_loop env c s
    end.

(** [clientSession], without the closing of the descriptor at its end.  One
    unit of fuel per order. *)
Fixpoint clientSession (fuel : nat) (env : list (OMS → option OMS)) (sock : socket) (s : OMS)
  : option OMS :=
  match fuel with
  | O => None
  | S fuel =>
      match readExact sizeof_ClientOrder [] sock with
      | (None, _) => Some s
      | (Some bs, sock) =>
          '(enqueued, env, s) ← enqueue_loop env (decode_client bs) s;
          if enqueued : bool then clientSession fuel env sock s else Some s
      end
  end.

(** ** The table of open connections *)

(** The threads are named by the descriptors they serve. *)
Record OrderReceivingServer := mkServer {
  srv_shutdown : bool;
  server_fd : Z;
  client_threads : list Z;
  active_client_fds : list Z
}.

Definition OrderReceivingServer_new : OrderReceivingServer := mkServer false (-1) [] [].

(** The body of the loop of [acceptLoop] with the result of [accept]; a
    negative one, interruption and failure alike, changes nothing. *)
Definition accept_client (client_fd : Z) (srv : OrderReceivingServer) : OrderReceivingServer :=
  if srv_shutdown srv then srv
  else if client_fd <? 0 then srv
  else mkServer false (server_fd srv) (client_threads srv ++ [client_fd]) (active_client_fds srv ++ [client_fd]).

Fixpoint erase_first (fd : Z) (l : list Z) : list Z :=
  match l with
  | [] => []
  | x :: l => if x =? fd then l else x :: erase_first fd l
  end.

Definition removeClientFd (client_fd : Z) (srv : OrderReceivingServer) : OrderReceivingServer :=
  mkServer (srv_shutdown srv) (server_fd srv) (client_threads srv)
    (erase_first client_fd (active_client_fds srv)).

(** [stop]: the connections it shuts down, and the server afterwards; each
    session thread it joins removes its descriptor before it ends. *)
Definition stop (srv : OrderReceivingServer) : list Z * OrderReceivingServer :=
  let srv' := foldl (λ s fd, removeClientFd fd s) (mkServer true (-1) (client_threads srv) (active_client_fds srv))
                (client_threads srv) in
  (active_client_fds srv, mkServer true (-1) [] (active_client_fds srv')).

(** The open descriptors are always those of some of the session threads. *)
Inductive server_step : OrderReceivingServer → OrderReceivingServer → Prop :=
| srv_accept fd srv : server_step srv (accept_client fd srv)
| srv_close fd srv : server_step srv (removeClientFd fd srv).

Lemma erase_first_submseteq fd l : erase_first fd l ⊆+ l.
Proof.
  induction l as [|x l IH]; [done|]. cbn [erase_first]. destruct (x =? fd); [by apply submseteq_cons|].
  by apply submseteq_skip.
Qed.

Lemma server_fds srv srv' :
  rtc server_step srv srv' → active_client_fds srv ⊆+ client_threads srv →
  active_client_fds srv' ⊆+ client_threads srv'.
Proof.
  intros Hr. induction Hr as [|s1 s2 s3 Hs _ IH]; [done|]. intros H. apply IH. destruct Hs as [fd s1|fd s1].
  - unfold accept_client. destruct (srv_shutdown s1); [done|]. destruct (fd <? 0); [done|].
    cbn [active_client_fds client_threads]. by apply submseteq_app.
  - unfold removeClientFd. cbn [active_client_fds client_threads].
    by etrans; [apply erase_first_submseteq|].
Qed.

Lemma erase_first_perm fd l l' : l ⊆+ fd :: l' → erase_first fd l ⊆+ l'.
Proof.
  revert l'. induction l as [|x l IH]; intros l' H; [apply submseteq_nil_l|]. cbn [erase_first].
  destruct (Z.eqb_spec x fd) as [->|Hne]; [by apply (submseteq_app_inv_l _ _ [fd]) in H|].
  assert (x ∈ l') as Hx.
  { assert (x ∈ fd :: l') as Hx by (eapply elem_of_submseteq; [|done]; left). by apply elem_of_cons in Hx as [?|?]. }
  apply list_elem_of_split in Hx as (k1 & k2 & ->). rewrite <- Permutation_middle in *.
  apply submseteq_skip, IH. apply (submseteq_app_inv_l _ _ [x]). cbn [app]. by rewrite (Permutation_swap fd x).
Qed.

(** Whatever was open before, [stop] leaves no descriptor open. *)
Lemma stop_closes srv :
  active_client_fds srv ⊆+ client_threads srv → active_client_fds (stop srv).2 = [].
Proof.
  unfold stop. cbn [snd active_client_fds].
  enough (∀ ts s, active_client_fds s ⊆+ ts → active_client_fds (foldl (λ s fd, removeClientFd fd s) s ts) ⊆+ [])
    as H by (intros Hs; by apply submseteq_nil_r, H).
  induction ts as [|t ts IH]; intros s Hs; [done|]. cbn [foldl]. apply IH.
  unfold removeClientFd. cbn [active_client_fds]. by apply erase_first_perm.
Qed.

(** * Fragmentation *)

(** The bytes a socket still delivers. *)
Fixpoint payload (sock : socket) : bytes :=
  match sock with
  | Data bs :: sock => bs ++ payload sock
  | _ :: sock => payload sock
  | [] => []
  end.

(** A connection that delivers bytes, in pieces of any size and with any
    number of interruptions, and is then closed by the peer. *)
Fixpoint healthy (sock : socket) : Prop :=
  match sock with
  | Data bs :: sock => bs ≠ [] ∧ healthy sock
  | Interrupt :: sock => healthy sock
  | [Closed] => True
  | _ => False
  end.

Lemma readExact_healthy size sock : ∀ acc,
  healthy sock → (length acc ≤ size)%nat →
  if (size <=? length (acc ++ payload sock))%nat then
    ∃ sock', readExact size acc sock = (Some (take size (acc ++ payload sock)), sock') ∧
      healthy sock' ∧ payload sock' = drop size (acc ++ payload sock)
  else ∃ sock', readExact size acc sock = (None, sock').
Proof.
  induction sock as [|ev sock IH]; intros acc Hh Ha; [done|].
  destruct (Nat.leb_spec size (length acc)) as [Hfull|Hless].
  { assert (length acc = size) as Hl by lia.
    rewrite length_app. destruct (Nat.leb_spec size (length acc + length (payload (ev :: sock)))); [|lia].
    exists (ev :: sock). rewrite take_app_length', drop_app_length' by done. split; [|done].
    cbn [readExact]. by rewrite (proj2 (Nat.leb_le size (length acc))) by lia. }
  destruct ev as [bs| | | |]; cbn [healthy payload] in *; try done;
    cbn [readExact]; rewrite (proj2 (Nat.leb_gt size (length acc))) by lia.
  - destruct Hh as [Hne Hh]. rewrite bool_decide_eq_false_2 by done.
    destruct (Nat.leb_spec (length bs) (size - length acc)) as [Hsmall|Hbig].
    + rewrite app_assoc. apply IH; [done|]. rewrite length_app. lia.
    + rewrite !length_app. destruct (Nat.leb_spec size (length acc + (length bs + length (payload sock)))); [|lia].
      eexists. split; [|split].
      * f_equal. f_equal. rewrite take_app, (take_ge acc) by lia. f_equal. by rewrite take_app_le by lia.
      * cbn [healthy]. split; [|done]. intros Hd. apply (f_equal length) in Hd. rewrite length_drop in Hd. simpl in Hd. lia.
      * cbn [payload]. rewrite drop_app, (drop_ge acc), app_nil_l by lia. by rewrite drop_app_le by lia.
  - by apply IH.
  - destruct sock; [|done]. cbn [payload]. rewrite app_nil_r.
    rewrite ?(proj2 (Nat.leb_gt size (length acc))) by lia. by eexists.
Qed.

(** ** A whole session *)

Lemma enqueue_loop_room env c s n l :
  rb_rep n (incoming_orders s) l → Z.of_nat (length l) < n - 1 →
  ∃ q, enqueue_loop env c s = Some (true, env, set_incoming q s) ∧ rb_rep n q (l ++ [c]).
Proof.
  intros Hq Hl. pose proof (push_ok n _ l c Hq) as Hp.
  rewrite (proj2 (Z.eqb_neq _ _)) in Hp by lia. destruct Hp as (q & Hp & Hq').
  exists q. split; [|done]. destruct env; cbn [enqueue_loop]; unfold enqueueClientOrder; by rewrite Hp.
Qed.

Lemma session_ok n env : ∀ orders tail sock s l fuel,
  healthy sock → payload sock = concat (encode_client <$> orders) ++ tail →
  Forall client_typed orders → (length tail < sizeof_ClientOrder)%nat →
  rb_rep n (incoming_orders s) l → Z.of_nat (length l + length orders) < n → (length orders < fuel)%nat →
  ∃ q, clientSession fuel env sock s = Some (set_incoming q s) ∧ rb_rep n q (l ++ orders).
Proof.
  induction orders as [|c orders IH]; intros tail sock s l fuel Hh Hp Ht Htail Hq Hroom Hf;
    (destruct fuel as [|fuel]; [lia|]); cbn [clientSession].
  - cbn in Hp. pose proof (readExact_healthy sizeof_ClientOrder sock [] Hh ltac:(simpl; lia)) as Hr.
    cbn [app] in Hr. rewrite Hp, (proj2 (Nat.leb_gt _ _)) in Hr by done. destruct Hr as (sock' & Hr).
    rewrite Hr. exists (incoming_orders s). rewrite app_nil_r. split; [by destruct s|done].
  - apply Forall_cons in Ht as [Hc Hts]. rewrite fmap_cons in Hp. cbn [concat] in Hp. rewrite <- app_assoc in Hp.
    pose proof (length_encode_client c (proj1 (ct_symbol _ Hc))) as Hlen.
    pose proof (readExact_healthy sizeof_ClientOrder sock [] Hh ltac:(simpl; lia)) as Hr.
    cbn [app] in Hr. rewrite Hp, length_app, Hlen, (proj2 (Nat.leb_le _ _)) in Hr by lia.
    destruct Hr as (sock' & Hr & Hh' & Hp'). rewrite Hr.
    rewrite take_app_length' by done. rewrite drop_app_length' in Hp' by done.
    rewrite decode_encode_client by done. cbn [length] in Hroom, Hf.
    destruct (enqueue_loop_room env c s n l Hq) as (q & Henq & Hq'); [lia|].
    rewrite Henq. cbn [mbind option_bind].
    destruct (IH tail sock' (set_incoming q s) (l ++ [c]) fuel) as (q2 & Hrun & Hq2); try done.
    { rewrite length_app. simpl. lia. }
    { lia. }
    exists q2. rewrite Hrun, <- app_assoc in *. split; [by destruct s|done].
Qed.

(** ** A session that may fail or have to wait *)

(** The rest of the system, between two attempts to enqueue, takes some orders
    from the front of the queue, at least one if there is one. *)
Definition takes (n : Z) (f : OMS → option OMS) : Prop :=
  ∀ s l, rb_rep n (incoming_orders s) l →
    ∃ s' k, f s = Some s' ∧ (k ≤ length l)%nat ∧ rb_rep n (incoming_orders s') (drop k l) ∧ (l ≠ [] → (0 < k)%nat).

Lemma readExact_payload size sock : ∀ acc bs sock',
  readExact size acc sock = (Some bs, sock') → (length acc ≤ size)%nat →
  length bs = size ∧ acc ++ payload sock = bs ++ payload sock'.
Proof.
  induction sock as [|ev sock IH]; intros acc bs sock'; cbn [readExact];
    (destruct (Nat.leb_spec size (length acc)); [intros [= <- <-] ?; split; [lia|done]|]); [done|].
  destruct ev as [d| | | |]; cbn [payload]; try done; [|by apply IH].
  case_bool_decide; [done|]. destruct (Nat.leb_spec (length d) (size - length acc)) as [Hle|Hgt].
  - intros Hr _. rewrite app_assoc. apply IH; [done|]. rewrite length_app. lia.
  - intros [= <- <-] _. cbn [payload]. rewrite length_app, length_take, <- !app_assoc, (app_assoc (take _ _)), take_drop.
    split; [lia|done].
Qed.

Lemma enqueue_loop_any n c : ∀ env s l,
  Forall (takes n) env → rb_rep n (incoming_orders s) l →
  ∃ ok env' s' k, enqueue_loop env c s = Some (ok, env', s') ∧ Forall (takes n) env' ∧ (k ≤ length l)%nat ∧
    rb_rep n (incoming_orders s') (drop k l ++ if ok : bool then [c] else []) ∧
    (1 < n → Z.of_nat (length l) < n - 1 + Z.of_nat (length env) →
       ok = true ∧ (length (drop k l) + length env ≤ length l + length env')%nat).
Proof.
  induction env as [|f env IH]; intros s l Henv Hq; cbn [enqueue_loop]; unfold enqueueClientOrder;
    pose proof (push_ok n _ l c Hq) as Hp; destruct (Z.eqb_spec (Z.of_nat (length l)) (n - 1)) as [E|E].
  - rewrite Hp. cbn [mbind option_bind]. exists false, [], (set_incoming (incoming_orders s) s), 0%nat.
    rewrite app_nil_r, drop_0. split_and!; try done; cbn [length]; lia.
  - destruct Hp as (q & -> & Hq'). cbn [mbind option_bind]. exists true, [], (set_incoming q s), 0%nat.
    rewrite drop_0. split_and!; done || lia.
  - rewrite Hp. cbn [mbind option_bind]. apply Forall_cons in Henv as [Hf Henv].
    destruct (Hf (set_incoming (incoming_orders s) s) l Hq) as (s1 & k & -> & Hk & Hq1 & Hpos). cbn [mbind option_bind].
    destruct (IH s1 (drop k l) Henv Hq1) as (ok & env' & s' & k' & Hrun & Henv' & Hk' & Hq2 & Hal).
    exists ok, env', s', (k + k')%nat. rewrite length_drop in Hk'. rewrite <- drop_drop. split_and!; try done; [lia|].
    intros Hn Hroom. rewrite !length_drop in *. assert (0 < k)%nat as Hk0 by (apply Hpos; intros ->; cbn [length] in E; lia).
    cbn [length] in *. destruct (Hal Hn) as [-> ?]; [lia|]. split; [done|lia].
  - destruct Hp as (q & -> & Hq'). cbn [mbind option_bind]. exists true, (f :: env), (set_incoming q s), 0%nat.
    rewrite drop_0. split_and!; done || lia.
Qed.

(** Whatever [recv] reports and whenever the queue is full: the first orders
    are handed over, and all of them if the connection lasts and the queue is
    emptied often enough. *)
Lemma session_any n : 1 < n → ∀ orders tail env sock s l fuel,
  payload sock = concat (encode_client <$> orders) ++ tail →
  Forall client_typed orders → (length tail < sizeof_ClientOrder)%nat →
  Forall (takes n) env → rb_rep n (incoming_orders s) l → (length orders < fuel)%nat →
  ∃ s' handed k, clientSession fuel env sock s = Some s' ∧ handed `prefix_of` orders ∧
    rb_rep n (incoming_orders s') (drop k (l ++ handed)) ∧
    (healthy sock → Z.of_nat (length l + length orders) < n + Z.of_nat (length env) → handed = orders).
Proof.
  intros Hn. induction orders as [|c orders IH]; intros tail env sock s l fuel Hp Ht Htail Henv Hq Hf;
    (destruct fuel as [|fuel]; [lia|]); cbn [clientSession];
    destruct (readExact sizeof_ClientOrder [] sock) as [[bs|] sock'] eqn:Er.
  - apply readExact_payload in Er as [Hl Hpay]; [|simpl; lia]. cbn [app] in Hpay. cbn in Hp. rewrite Hp in Hpay.
    apply (f_equal length) in Hpay. rewrite length_app in Hpay. lia.
  - exists s, [], 0%nat. rewrite app_nil_r, drop_0. by split_and!.
  - apply Forall_cons in Ht as [Hc Hts]. rewrite fmap_cons in Hp. cbn [concat] in Hp. rewrite <- app_assoc in Hp.
    pose proof (length_encode_client c (proj1 (ct_symbol _ Hc))) as Hlen.
    assert (healthy sock → healthy sock') as Hheal.
    { intros Hh. pose proof (readExact_healthy sizeof_ClientOrder sock [] Hh ltac:(simpl; lia)) as Hr. rewrite Er in Hr.
      destruct (_ <=? _)%nat; [by destruct Hr as (? & [= -> ->] & ? & _)|by destruct Hr]. }
    apply readExact_payload in Er as [Hl Hpay]; [|simpl; lia]. cbn [app] in Hpay. rewrite Hp in Hpay.
    apply app_inj_1 in Hpay as [<- Hpay]; [|congruence]. rewrite decode_encode_client by done.
    destruct (enqueue_loop_any n c env s l Henv Hq) as (ok & env' & s1 & k & -> & Henv' & Hk & Hq1 & Hal).
    cbn [mbind option_bind length] in *. destruct ok.
    + destruct (IH tail env' sock' s1 (drop k l ++ [c]) fuel) as (s' & hd & k' & Hrun & Hpre & Hq' & Hall); try done; [lia|].
      exists s', (c :: hd), (k + k')%nat. split; [done|]. split; [by apply prefix_cons|]. split.
      * replace (l ++ c :: hd) with ((l ++ [c]) ++ hd) by (by rewrite <- app_assoc).
        rewrite <- drop_drop, (drop_app_le (l ++ [c])) by (rewrite length_app; lia). by rewrite (drop_app_le l) by done.
      * intros Hh Hroom. f_equal. destruct (Hal Hn) as [_ Hle]; [lia|]. apply Hall; [auto|].
        rewrite length_app. cbn [length]. lia.
    + exists s1, [], k. rewrite !app_nil_r in *. split_and!; try done; [apply prefix_nil|].
      intros _ Hroom. destruct (Hal Hn) as [? _]; [lia|done].
  - exists s, [], 0%nat. rewrite app_nil_r, drop_0. split_and!; try done; [apply prefix_nil|].
    apply Forall_cons in Ht as [Hc Hts]. intros Hh _.
    pose proof (readExact_healthy sizeof_ClientOrder sock [] Hh ltac:(simpl; lia)) as Hr. rewrite Er in Hr.
    rewrite fmap_cons in Hp. cbn [concat app] in Hp, Hr.
    rewrite Hp, !length_app, (length_encode_client c (proj1 (ct_symbol _ Hc))), (proj2 (Nat.leb_le _ _)) in Hr by lia.
    by destruct Hr as (? & [=] & _).
Qed.

(** However TCP cuts the stream into pieces, and however often [recv] is
    interrupted, a session enqueues exactly the orders the client sent, in
    the order in which it sent them; an incomplete order at the end of the
    stream is discarded. *)
Theorem clientSession_orders n env orders tail sock s l :
  healthy sock → payload sock = concat (encode_client <$> orders) ++ tail →
  Forall client_typed orders → (length tail < sizeof_ClientOrder)%nat →
  rb_rep n (incoming_orders s) l → Z.of_nat (length l + length orders) < n →
  ∃ q, clientSession (S (length orders)) env sock s = Some (set_incoming q s) ∧ rb_rep n q (l ++ orders).
Proof. intros. eapply session_ok; try done. lia. Qed.

(** [readExact] delivers the next [size] bytes of the stream whatever the
    fragmentation, leaves exactly the rest, and fails only when the stream
    ends first. *)
Theorem readExact_exact size sock :
  healthy sock →
  if (size <=? length (payload sock))%nat then
    ∃ sock', readExact size [] sock = (Some (take size (payload sock)), sock') ∧
      healthy sock' ∧ payload sock' = drop size (payload sock)
  else ∃ sock', readExact size [] sock = (None, sock').
Proof. intros Hh. apply (readExact_healthy size sock [] Hh). simpl. lia. Qed.

Lemma readExact_exact_witness :
  ∃ sock', readExact 3 [] [Data [1]; Interrupt; Data [2; 3; 4]; Closed] = (Some [1; 2; 3], sock') ∧
    healthy sock' ∧ payload sock' = [4].
Proof.
  apply (readExact_exact 3 [Data [1]; Interrupt; Data [2; 3; 4]; Closed]).
  split; [discriminate|]. split; [discriminate|exact I].
Defined.

(** One order in two pieces, followed by three stray bytes. *)
Definition wire_order : ClientOrder :=
  mkClientOrder 6 101 0 [65; 65; 80; 76; 0; 0; 0; 0] 0 1 BUY 25 0 0 CLIMIT true.
Definition wire_socket : socket :=
  [Data (take 30 (encode_client wire_order)); Interrupt;
   Data (drop 30 (encode_client wire_order) ++ [1; 2; 3]); Closed].
Definition idle_oms : OMS := mkOMS ∅ 0 [] [] ∅ ∅ (RingBuffer_new ClientOrder_default 4) 0 [] 0 [].

Lemma clientSession_orders_witness :
  ∃ q, clientSession 2 [] wire_socket idle_oms = Some (set_incoming q idle_oms) ∧ rb_rep 4 q [wire_order].
Proof.
  apply (clientSession_orders 4 [] [wire_order] [1; 2; 3] wire_socket idle_oms []).
  - split; [discriminate|]. split; [discriminate|exact I].
  - reflexivity.
  - constructor; [|constructor]. split; try (split; [discriminate|reflexivity]).
    split; [reflexivity|]. apply (bool_decide_eq_true_1 _). reflexivity.
  - apply Nat.ltb_lt. reflexivity.
  - apply RingBuffer_new_rep. split; [exists 2, 0; split; [lia|]; split; [lia|]; split; reflexivity|lia|lia].
  - reflexivity.
Defined.
