(* ===== verification/TradeProcessor.v ===== *)
(** src/trade_processor.cpp: the writer thread copies trades from a ring into
    memory-mapped regions of a file each, the persistence thread syncs full
    regions to disk and hands them back; two [spsc_queue]s of regions connect
    them.  When the day's trades are written, the persistence thread syncs
    what is left, unmaps the regions and closes the files.

    A region is the number of its file.  Each thread has a program counter;
    one step is one iteration of the writer, and at most one action on shared
    state of the persistence thread.  What the threads do to the regions is
    recorded in a trace. *)

From stdpp Require Import relations.
From S2P Require Import Prelude Types TradeRing Fifo Spsc.

Definition max_trades_in_a_day : Z := 100000.
Definition maxTradesPerTP : Z := max_trades_in_a_day / total_ring_buffer_count.
Definition fileSize : Z := maxTradesPerTP * sizeof_Trade / mem_regions.

(** * The queues of regions *)

Definition give_region (pmem_region : Z) (q : spsc_queue Z) : option (bool * spsc_queue Z) :=
  spsc_push mem_regions pmem_region q.
Definition get_region (q : spsc_queue Z) : option (option Z * spsc_queue Z) := spsc_pop mem_regions q.

(** What [open], [posix_fallocate] and [mmap] return for a file; [mmap_ok] is
    [false] for [MAP_FAILED]. *)
Record file_result := mkFile { fr_open : Z; fr_fallocate : Z; mmap_ok : bool }.

(** The loop of the constructor of [rb_write]; [inl] is the code of [exit]. *)
Fixpoint open_regions (files : Z → file_result) (todo : list Z) (fdArray : list Z) (q : spsc_queue Z)
  : option (Z + list Z * spsc_queue Z) :=
  match todo with
  | [] => Some (inr (fdArray, q))
  | i :: todo =>
      let f := files i in
      if fr_open f =? -1 then Some (inl (-1))
      else
        let fdArray := <[Z.to_nat i := fr_open f]> fdArray in
        if negb (fr_fallocate f =? 0) then Some (inl (-1))
        else if negb (mmap_ok f) then Some (inl (-1))
        else '(_, q) ← give_region i q; open_regions files todo fdArray q
  end.

(** * State *)

Inductive tp_event := EWrite (r offset : Z) (t : Trade) | ESync (r : Z) | EUnmap (r : Z) | EClose (fd : Z).

(** The writer: in its loop, about to set [t2done], finished. *)
Inductive writer_pc := WLoop | WFlag | WEnd.

(** The persistence thread: at the head of its loop, about to sync and to give
    back the claimed region, the same after the loop ([PLast]), then draining
    [rb_persist], draining [rb_write], closing the files, finished. *)
Inductive persist_pc := PHead | PSync | PGive | PLast | PDrain | PDrainGive | PDrainSync | PClean | PClose | PEnd.

Record writer := mkWriter {
  w_pc : writer_pc;
  trBuffer : trade_ring_buffer;
  w_region : option Z;
  writeOffset : Z;
  trade_counter : Z
}.

Record persister := mkPersister { p_pc : persist_pc; p_region : option Z }.

Record TradeProcessor := mkTP {
  rb_write : spsc_queue Z;
  rb_persist : spsc_queue Z;
  t2done : bool;
  fdArray : list Z;
  tp_writer : writer;
  tp_persister : persister;
  tp_trace : list tp_event
}.

Definition region_count : Z := mem_regions - 1.

(** The members are initialised in the order of their declaration: [rb_write],
    whose constructor stores the descriptors into [fdArray], before [fdArray]
    itself, which is then set to zero.  [junk_w] and [junk_p] are the
    uninitialised arrays of the queues. *)
Definition TradeProcessor_new (files : Z → file_result) (junk_fds junk_w junk_p : list Z)
  : option (Z + TradeProcessor) :=
  r ← open_regions files (seqZ 0 region_count) junk_fds (spsc_new junk_w);
  match r with
  | inl code => Some (inl code)
  | inr (_, q) =>
      Some (inr (mkTP q (spsc_new junk_p) false (replicate (Z.to_nat mem_regions) 0)
                   (mkWriter WLoop (trade_ring_buffer_new false) None 0 0) (mkPersister PHead None) []))
  end.

(** * The writer thread *)

(** The body of the loop, with at least one trade to be written: a spin while
    there is no new trade or no region, else the copy of one trade. *)
Definition writer_copy (js : Z) (jt : Trade) (mem : ring_mem) (t : TradeProcessor) : option TradeProcessor :=
  let w := tp_writer t in
  if negb (any_new_trade (trBuffer w) mem) then Some t
  else
    '(region, offset, q) ←
      match w_region w with
      | Some r => Some (Some r, writeOffset w, rb_write t)
      | None => '(r, q) ← get_region (rb_write t);
                Some (r, match r with Some _ => 0 | None => writeOffset w end, q)
      end;
    match region with
    | None => Some (mkTP q (rb_persist t) (t2done t) (fdArray t)
                      (mkWriter (w_pc w) (trBuffer w) None offset (trade_counter w)) (tp_persister t) (tp_trace t))
    | Some r =>
        let '(tr, h) := get_trade js jt (trBuffer w) mem in
        tr ← tr;
        let trace := tp_trace t ++ [EWrite r offset tr] in
        let offset := u64 (offset + sizeof_Trade) in
        let counter := trade_counter w + 1 in
        if fileSize <=? offset then
          '(_, p) ← give_region r (rb_persist t);
          Some (mkTP q p (t2done t) (fdArray t) (mkWriter WLoop h None offset counter) (tp_persister t) trace)
        else
          Some (mkTP q (rb_persist t) (t2done t) (fdArray t) (mkWriter WLoop h (Some r) offset counter)
                  (tp_persister t) trace)
    end.

Definition set_writer_pc (pc : writer_pc) (w : writer) : writer :=
  mkWriter pc (trBuffer w) (w_region w) (writeOffset w) (trade_counter w).

(** One step of [writerThread]. *)
Definition writer_step (js : Z) (jt : Trade) (mem : ring_mem) (t : TradeProcessor) : option TradeProcessor :=
  let w := tp_writer t in
  match w_pc w with
  | WLoop =>
      if trade_counter w <? maxTradesPerTP then writer_copy js jt mem t
      else
        p ← match w_region w with
            | Some r => '(_, p) ← give_region r (rb_persist t); Some p
            | None => Some (rb_persist t)
            end;
        Some (mkTP (rb_write t) p (t2done t) (fdArray t) (set_writer_pc WFlag w) (tp_persister t) (tp_trace t))
  | WFlag =>
      Some (mkTP (rb_write t) (rb_persist t) true (fdArray t) (set_writer_pc WEnd w) (tp_persister t) (tp_trace t))
  | WEnd => Some t
  end.

(** * The persistence thread *)

Definition set_persister (pc : persist_pc) (r : option Z) (t : TradeProcessor) : TradeProcessor :=
  mkTP (rb_write t) (rb_persist t) (t2done t) (fdArray t) (tp_writer t) (mkPersister pc r) (tp_trace t).

Definition emit (es : list tp_event) (t : TradeProcessor) : TradeProcessor :=
  mkTP (rb_write t) (rb_persist t) (t2done t) (fdArray t) (tp_writer t) (tp_persister t) (tp_trace t ++ es).

(** [rb_write.give_region(mem_region)]. *)
Definition give_back (r : Z) (t : TradeProcessor) : option TradeProcessor :=
  '(_, q) ← give_region r (rb_write t);
  Some (mkTP q (rb_persist t) (t2done t) (fdArray t) (tp_writer t) (tp_persister t) (tp_trace t)).

(** [rb_persist.get_region(mem_region)]; on failure [mem_region] keeps its value. *)
Definition claim (found other : persist_pc) (t : TradeProcessor) : option TradeProcessor :=
  '(r, p) ← get_region (rb_persist t);
  let t := mkTP (rb_write t) p (t2done t) (fdArray t) (tp_writer t) (tp_persister t) (tp_trace t) in
  Some (match r with
        | Some r => set_persister found (Some r) t
        | None => set_persister other (p_region (tp_persister t)) t
        end).

(** [if (fd != -1 && fd != 0) close(fd)] for every [fd] of [fdArray]. *)
Definition close_files (fds : list Z) : list tp_event :=
  EClose <$> filter (λ fd, fd ≠ -1 ∧ fd ≠ 0) fds.

(** One step of [persistenceThread].  [None]: an access through a null region. *)
Definition persist_step (t : TradeProcessor) : option TradeProcessor :=
  let region := p_region (tp_persister t) in
  match p_pc (tp_persister t) with
  | PHead =>
      if t2done t then
        Some (set_persister (match region with Some _ => PLast | None => PDrain end) region t)
      else
        match region with
        | Some _ => Some (set_persister PSync region t)
        | None => claim PSync PHead t
        end
  | PSync => r ← region; Some (set_persister PGive region (emit [ESync r] t))
  | PGive => r ← region; t ← give_back r t; Some (set_persister PHead None t)
  | PLast => r ← region; t ← give_back r (emit [ESync r] t); Some (set_persister PDrain region t)
  | PDrain => claim PDrainGive PClean t
  | PDrainGive => r ← region; t ← give_back r t; Some (set_persister PDrainSync region t)
  | PDrainSync => r ← region; Some (set_persister PDrain region (emit [ESync r] t))
  | PClean =>
      '(r, q) ← get_region (rb_write t);
      let t := mkTP q (rb_persist t) (t2done t) (fdArray t) (tp_writer t) (tp_persister t) (tp_trace t) in
      Some (match r with
            | Some r => emit [EUnmap r] t
            | None => set_persister PClose region t
            end)
  | PClose => Some (set_persister PEnd region (emit (close_files (fdArray t)) t))
  | PEnd => Some t
  end.

(** * Where the regions are *)

(** The trades that fit before [writeOffset >= fileSize]. *)
Definition trades_per_region : Z := 1563.

Lemma region_sizes :
  fileSize = 75000 ∧ maxTradesPerTP = 50000 ∧ sizeof_Trade = 48 ∧ trades_per_region = 1563 ∧
  (trades_per_region - 1) * sizeof_Trade < fileSize < trades_per_region * sizeof_Trade.
Proof. done. Qed.

Definition held (r : option Z) : list Z := match r with Some r => [r] | None => [] end.

(** The region the writer uses. *)
Definition current (w : writer) : list Z := match w_pc w with WLoop => held (w_region w) | _ => [] end.

(** The region the persistence thread has claimed and not given back, and the
    one it has claimed and not synced. *)
Definition hand (p : persister) : list Z :=
  match p_pc p with PSync | PGive | PDrainGive => held (p_region p) | _ => [] end.
Definition unsynced (p : persister) : list Z :=
  match p_pc p with PSync | PDrainGive | PDrainSync => held (p_region p) | _ => [] end.

Definition writes (tr : list tp_event) : list (Z * Z * Trade) :=
  omap (λ e, match e with EWrite r o x => Some (r, o, x) | _ => None end) tr.
Definition unmapped (tr : list tp_event) : list Z :=
  omap (λ e, match e with EUnmap r => Some r | _ => None end) tr.

Definition is_work (e : tp_event) : Prop := match e with EWrite _ _ _ | ESync _ => True | _ => False end.

Definition is_unmap (e : tp_event) : Prop := match e with EUnmap _ => True | _ => False end.

Definition cleaning (pc : persist_pc) : Prop := pc = PClean ∨ pc = PClose ∨ pc = PEnd.

(** The regions in the order in which they will be used next, after [n] of
    them have been taken. *)
Definition cycle (n : Z) : list Z := (λ i, (n + i) mod region_count) <$> seqZ 0 region_count.

(** How many regions have been taken when [c] trades are written. *)
Definition takes (c : Z) : Z := (c + (trades_per_region - 1)) / trades_per_region.

Definition holds (q : spsc_queue Z) (l : list Z) : Prop := ∃ h, spsc_rep mem_regions h q l.

Definition writer_ok (t : TradeProcessor) : Prop :=
  let w := tp_writer t in
  match w_pc w with
  | WLoop => t2done t = false ∧
      match w_region w with
      | Some r => writeOffset w = sizeof_Trade * (trade_counter w mod trades_per_region) ∧
          trade_counter w mod trades_per_region ≠ 0 ∧ r = (trade_counter w / trades_per_region) mod region_count
      | None => trade_counter w mod trades_per_region = 0
      end
  | WFlag => t2done t = false ∧ trade_counter w = maxTradesPerTP
  | WEnd => t2done t = true ∧ trade_counter w = maxTradesPerTP
  end.

Definition persister_ok (t : TradeProcessor) (w p : list Z) : Prop :=
  match p_pc (tp_persister t) with
  | PHead => p_region (tp_persister t) = None
  | PSync | PGive => is_Some (p_region (tp_persister t))
  | PLast => False
  | PDrain => t2done t = true
  | PDrainGive | PDrainSync => t2done t = true ∧ is_Some (p_region (tp_persister t))
  | PClean => t2done t = true ∧ p = []
  | PClose | PEnd => t2done t = true ∧ p = [] ∧ w = []
  end.

(** Every write is followed by a sync of its region, unless the region still
    has to pass through the persistence thread. *)
Definition sync_ok (tr : list tp_event) (pending : list Z) : Prop :=
  ∀ i r o x, tr !! i = Some (EWrite r o x) → r ∈ pending ∨ ∃ j, (i < j)%nat ∧ tr !! j = Some (ESync r).

Record tp_inv (hist : list Trade) (t : TradeProcessor) (w p : list Z) : Prop := {
  ti_write : holds (rb_write t) w;
  ti_persist : holds (rb_persist t) p;
  ti_cycle : unmapped (tp_trace t) ++ w ++ hand (tp_persister t) ++ p ++ current (tp_writer t)
             = cycle (takes (trade_counter (tp_writer t)));
  ti_handle : handle_at (length (writes (tp_trace t))) (trBuffer (tp_writer t));
  ti_counter : trade_counter (tp_writer t) = Z.of_nat (length (writes (tp_trace t)));
  ti_max : trade_counter (tp_writer t) <= maxTradesPerTP;
  ti_log : (snd <$> writes (tp_trace t)) `prefix_of` hist;
  ti_place k r o x : writes (tp_trace t) !! k = Some (r, o, x) →
    r = (Z.of_nat k / trades_per_region) mod region_count ∧ o = sizeof_Trade * (Z.of_nat k mod trades_per_region);
  ti_writer : writer_ok t;
  ti_persister : persister_ok t w p;
  ti_work : ¬ cleaning (p_pc (tp_persister t)) → Forall is_work (tp_trace t);
  ti_shape : ∃ work clean, tp_trace t = work ++ clean ∧ Forall is_work work ∧ Forall is_unmap clean;
  ti_synced : sync_ok (tp_trace t) (current (tp_writer t) ++ p ++ unsynced (tp_persister t));
  ti_fds : fdArray t = replicate (Z.to_nat mem_regions) 0
}.

(** ** Queues, cycles and traces *)

Lemma give_region_ok q l r :
  holds q l → Z.of_nat (length l) < region_count → ∃ q', give_region r q = Some (true, q') ∧ holds q' (l ++ [r]).
Proof. intros Hq Hl. by apply (fq_push_room (FifoQueue:=spsc_fifo mem_regions)). Qed.

Lemma get_region_ok q l :
  holds q l →
  match l with
  | [] => get_region q = Some (None, q)
  | r :: l => ∃ q', get_region q = Some (Some r, q') ∧ holds q' l
  end.
Proof.
  intros Hq. destruct l as [|r l]; [by apply (fq_pop_empty (FifoQueue:=spsc_fifo mem_regions))|].
  by apply (fq_pop_item (FifoQueue:=spsc_fifo mem_regions)).
Qed.

Lemma length_cycle n : length (cycle n) = 31%nat.
Proof. unfold cycle. by rewrite length_fmap, length_seqZ. Qed.

(** Taking a region moves it to the end. *)
Lemma cycle_take n : ∃ l, cycle n = n mod region_count :: l ∧ cycle (n + 1) = l ++ [n mod region_count].
Proof.
  exists ((λ i, (n + i) mod region_count) <$> seqZ 1 30). unfold cycle. split.
  - change (seqZ 0 region_count) with (0 :: seqZ 1 30). rewrite fmap_cons. by rewrite Z.add_0_r.
  - change (seqZ 0 region_count) with (seqZ 0 30 ++ [30]). rewrite fmap_app. f_equal.
    + change (seqZ 1 30) with (Z.add 1 <$> seqZ 0 30). rewrite <- list_fmap_compose. apply list_fmap_ext.
      intros i x _. cbn. f_equal. lia.
    + change ([(n + 1 + 30) mod region_count] = [n mod region_count]). f_equal.
      change region_count with 31. replace (n + 1 + 30) with (n + 1 * 31) by lia. by rewrite Z_mod_plus_full.
Qed.

Lemma trades_step c :
  0 <= c →
  (if c mod trades_per_region =? 0 then takes c = c / trades_per_region ∧ takes (c + 1) = takes c + 1
   else takes (c + 1) = takes c) ∧
  if c mod trades_per_region =? trades_per_region - 1
  then (c + 1) mod trades_per_region = 0
  else (c + 1) mod trades_per_region = c mod trades_per_region + 1 ∧
       (c + 1) / trades_per_region = c / trades_per_region.
Proof.
  intros Hc. unfold takes, trades_per_region. split.
  - destruct (Z.eqb_spec (c mod 1563) 0); Z.div_mod_to_equations; lia.
  - destruct (Z.eqb_spec (c mod 1563) (1563 - 1)); Z.div_mod_to_equations; lia.
Qed.

Lemma sync_ok_app tr es P P' :
  sync_ok tr P → (∀ y, y ∈ P → y ∈ P' ∨ ESync y ∈ es) → (∀ r o x, EWrite r o x ∈ es → r ∈ P') →
  sync_ok (tr ++ es) P'.
Proof.
  intros Hs Hp He i r o x [Hi|[Hge Hi]]%lookup_app_Some.
  - destruct (Hs i r o x Hi) as [Hin|(j & Hj & Hl)].
    + destruct (Hp r Hin) as [?|Hsy]; [by left|]. right. apply list_elem_of_lookup_1 in Hsy as [k Hk].
      apply lookup_lt_Some in Hi. exists (length tr + k)%nat. split; [lia|]. rewrite lookup_app_r by lia.
      by replace (length tr + k - length tr)%nat with k by lia.
    + right. exists j. split; [done|]. by apply lookup_app_l_Some.
  - left. eapply He, list_elem_of_lookup_2, Hi.
Qed.

Lemma sync_ok_mono tr P P' : sync_ok tr P → P ⊆ P' → sync_ok tr P'.
Proof. intros Hs Hp. rewrite <- (app_nil_r tr). eapply sync_ok_app; [done|by left; apply Hp|]. by intros ? ? ? ?%elem_of_nil. Qed.

Lemma writes_snoc tr r o x : writes (tr ++ [EWrite r o x]) = writes tr ++ [(r, o, x)].
Proof. unfold writes. by rewrite omap_app. Qed.

Lemma unmapped_work tr : Forall is_work tr → unmapped tr = [].
Proof. unfold unmapped. induction 1 as [|e tr He _ IH]; [done|]. destruct e; simpl; done. Qed.

(** The lengths of the pieces add up to 31. *)
Lemma regions_length hist t w p :
  tp_inv hist t w p →
  (length (unmapped (tp_trace t)) + (length w + (length (hand (tp_persister t)) +
    (length p + length (current (tp_writer t))))) = 31)%nat.
Proof. intros Hi. pose proof (f_equal length (ti_cycle _ _ _ _ Hi)) as H. by rewrite !length_app, length_cycle in H. Qed.

(** While the writer is in its loop the persistence thread is in its own. *)
Lemma writing_not_cleaning hist t w p :
  tp_inv hist t w p → w_pc (tp_writer t) ≠ WEnd → ¬ cleaning (p_pc (tp_persister t)).
Proof.
  intros Hi Hw Hc. pose proof (ti_writer _ _ _ _ Hi) as Hwo. pose proof (ti_persister _ _ _ _ Hi) as Hpo.
  assert (t2done t = false) as Hd by (unfold writer_ok in Hwo; destruct (w_pc (tp_writer t)); [apply Hwo..|done]).
  unfold persister_ok in Hpo. destruct Hc as [Hc|[Hc|Hc]]; rewrite Hc in Hpo; destruct Hpo; congruence.
Qed.

(** ** The writer *)

(** The region for the next trade. *)
Lemma pick_region hist t w p :
  tp_inv hist t w p → w_pc (tp_writer t) = WLoop →
  let c := trade_counter (tp_writer t) in
  ∃ r off q, match w_region (tp_writer t) with
      | Some r => Some (Some r, writeOffset (tp_writer t), rb_write t)
      | None => '(r, q) ← get_region (rb_write t);
                Some (r, match r with Some _ => 0 | None => writeOffset (tp_writer t) end, q)
      end = Some (r, off, q) ∧
    match r with
    | None => w = [] ∧ w_region (tp_writer t) = None ∧ q = rb_write t ∧ off = writeOffset (tp_writer t)
    | Some r => ∃ w', holds q w' ∧ r = (c / trades_per_region) mod region_count ∧
        off = sizeof_Trade * (c mod trades_per_region) ∧
        unmapped (tp_trace t) ++ w' ++ hand (tp_persister t) ++ p ++ [r] = cycle (takes (c + 1)) ∧
        current (tp_writer t) ⊆ [r]
    end.
Proof.
  intros Hi Hpc c. pose proof (ti_writer _ _ _ _ Hi) as Hwo. pose proof (ti_cycle _ _ _ _ Hi) as Hcy.
  pose proof (trades_step c) as [Hst _]; [unfold c; rewrite (ti_counter _ _ _ _ Hi); lia|].
  unfold writer_ok in Hwo. unfold current in *. rewrite Hpc in *. destruct Hwo as [Hd Hwo]. fold c in Hcy, Hwo.
  destruct (w_region (tp_writer t)) as [r|]; cbn [held] in *.
  - destruct Hwo as (Ho & Hne & Hr). eexists (Some r), _, _. split; [done|]. exists w.
    rewrite (proj2 (Z.eqb_neq _ _) Hne) in Hst. rewrite Hst. split_and!; try done. apply Hi.
  - pose proof (get_region_ok _ _ (ti_write _ _ _ _ Hi)) as Hget. destruct w as [|r w].
    { rewrite Hget. by eexists None, _, _. }
    destruct Hget as (q & -> & Hq). eexists (Some r), 0, q. split; [done|]. exists w.
    rewrite Hwo in Hst. cbn in Hst. destruct Hst as [Ht0 Ht1]. destruct (cycle_take (takes c)) as (l & Hl1 & Hl2).
    rewrite (unmapped_work (tp_trace t)) in *
      by (eapply ti_work; [done|]; eapply writing_not_cleaning; [done|by rewrite Hpc]).
    rewrite Hl1 in Hcy. cbn [app] in Hcy. injection Hcy as -> Hcy. rewrite Ht1, Hl2, <- Hcy, Ht0, Hwo.
    split_and!; try done; [|set_solver]. cbn [app]. by rewrite app_nil_r, <- !app_assoc.
Qed.

(** What one more copy of a trade does to the log. *)
Lemma log_snoc hist t w p r o x :
  tp_inv hist t w p → Z.of_nat (length hist) <= RING_SIZE → hist !! length (writes (tp_trace t)) = Some x →
  let c := trade_counter (tp_writer t) in
  let log := writes (tp_trace t ++ [EWrite r o x]) in
  r = (c / trades_per_region) mod region_count → o = sizeof_Trade * (c mod trades_per_region) →
  handle_at (length log) (update_index_and_seq (trBuffer (tp_writer t))) ∧ Z.of_nat (length log) = c + 1 ∧
  (snd <$> log) `prefix_of` hist ∧
  (∀ k r' o' y, log !! k = Some (r', o', y) →
     r' = (Z.of_nat k / trades_per_region) mod region_count ∧ o' = sizeof_Trade * (Z.of_nat k mod trades_per_region)).
Proof.
  intros Hi Hmaxh Hx c log Hr Ho. subst c log. rewrite writes_snoc. apply lookup_lt_Some in Hx as Hlt.
  destruct Hi as [_ _ _ Hh Hc _ Hlog Hpl _ _ _ _ _ _].
  assert (RING_SIZE = 2 ^ 20 ∧ MOD = 2 ^ 60) as [HR HMod] by done. split_and!.
  - rewrite length_app, Nat.add_1_r. apply update_handle; [done|]. unfold seq_room. lia.
  - rewrite length_app. simpl. lia.
  - rewrite fmap_app. destruct Hlog as [l ->].
    rewrite lookup_app_r, length_fmap, Nat.sub_diag in Hx by (rewrite length_fmap; lia).
    destruct l as [|y l]; [done|]. simpl in Hx. simplify_eq. exists l. by rewrite <- app_assoc.
  - intros k r' o' y [Hk|[Hge Hk]]%lookup_app_Some; [by eapply Hpl|].
    apply list_lookup_singleton_Some in Hk as [Hk [= <- <- <-]].
    replace k with (length (writes (tp_trace t))) by lia. by rewrite <- Hc.
Qed.

(** When a region is given up. *)
Lemma full_test c off :
  off = sizeof_Trade * (c mod trades_per_region) →
  u64 (off + sizeof_Trade) = off + sizeof_Trade ∧
  (fileSize <=? off + sizeof_Trade) = (c mod trades_per_region =? trades_per_region - 1).
Proof.
  intros ->. destruct region_sizes as (-> & _ & -> & -> & _). pose proof (Z.mod_pos_bound c 1563 ltac:(lia)).
  split; [apply u64_small; mach|].
  destruct (Z.eqb_spec (c mod 1563) (1563 - 1)); [apply Z.leb_le; lia|apply Z.leb_gt; lia].
Qed.

(** The trace stays in shape when the writer adds to it. *)
Lemma work_snoc hist t w p e :
  tp_inv hist t w p → w_pc (tp_writer t) ≠ WEnd → is_work e → Forall is_work (tp_trace t ++ [e]).
Proof.
  intros Hi Hw He. apply Forall_app. split; [|by constructor].
  eapply ti_work; [done|]. by eapply writing_not_cleaning.
Qed.

Lemma work_shape tr : Forall is_work tr →
  ∃ work clean, tr = work ++ clean ∧ Forall is_work work ∧ Forall is_unmap clean.
Proof. intros H. exists tr, []. by rewrite app_nil_r. Qed.

Lemma persister_frame t t' w p w' p' :
  persister_ok t w p → tp_persister t' = tp_persister t → t2done t' = t2done t →
  ¬ cleaning (p_pc (tp_persister t)) → persister_ok t' w' p'.
Proof.
  intros Hp E1 E2 Hc. unfold persister_ok in *. rewrite E1, E2. unfold cleaning in Hc.
  destruct (p_pc (tp_persister t)); try done; exfalso; apply Hc; auto.
Qed.

Definition copied (t t' : TradeProcessor) (p p' : list Z) : Prop :=
  trade_counter (tp_writer t') = trade_counter (tp_writer t) + 1 ∧ w_pc (tp_writer t') = WLoop ∧
  (length p' ≤ S (length p))%nat ∧ tp_persister t' = tp_persister t.

(** The state after a copy, whether or not the region is full. *)
Lemma copy_inv hist t w p t' w' p' r off x :
  let c := trade_counter (tp_writer t) in
  tp_inv hist t w p → w_pc (tp_writer t) = WLoop → c < maxTradesPerTP → Z.of_nat (length hist) <= RING_SIZE →
  hist !! length (writes (tp_trace t)) = Some x →
  r = (c / trades_per_region) mod region_count → off = sizeof_Trade * (c mod trades_per_region) →
  unmapped (tp_trace t) ++ w' ++ hand (tp_persister t) ++ p ++ [r] = cycle (takes (c + 1)) →
  current (tp_writer t) ⊆ [r] →
  holds (rb_write t') w' → holds (rb_persist t') p' → p' ++ current (tp_writer t') = p ++ [r] →
  tp_persister t' = tp_persister t → t2done t' = t2done t → fdArray t' = fdArray t →
  tp_trace t' = tp_trace t ++ [EWrite r off x] → trade_counter (tp_writer t') = c + 1 →
  trBuffer (tp_writer t') = update_index_and_seq (trBuffer (tp_writer t)) → writer_ok t' → tp_inv hist t' w' p'.
Proof.
  intros c Hi Hpc Hmax Hmaxh Hx Hr Ho Hcy Hcur Hw' Hp' Hpr Ep Ed Ef Et Ec Eb Hwo'.
  pose proof (log_snoc hist t w p r off x Hi Hmaxh Hx Hr Ho) as (Hh' & Hlen & Hlog & Hpl).
  pose proof (work_snoc hist t w p (EWrite r off x) Hi ltac:(by rewrite Hpc) I) as Hwork.
  pose proof (writing_not_cleaning hist t w p Hi ltac:(by rewrite Hpc)) as Hnc. rewrite <- Et in *.
  split; try done; rewrite ?Eb, ?Ec, ?Ep; try done.
  - rewrite Hpr, <- Hcy, Et. unfold unmapped. by rewrite omap_app, app_nil_r.
  - lia.
  - eapply persister_frame; [by apply Hi|done..].
  - by apply work_shape.
  - assert (∀ y, y ∈ p ++ [r] → y ∈ current (tp_writer t') ++ p' ++ unsynced (tp_persister t)) as Hin.
    { intros y. rewrite <- Hpr. set_solver. }
    rewrite Et. eapply sync_ok_app; [by apply Hi|set_solver|].
    intros r' o' x' He%list_elem_of_singleton. simplify_eq. apply Hin. set_solver.
  - rewrite Ef. apply Hi.
Qed.

Lemma writer_copy_ok js jt hist mem t w p :
  tp_inv hist t w p → w_pc (tp_writer t) = WLoop → trade_counter (tp_writer t) < maxTradesPerTP →
  ring_inv hist mem → Z.of_nat (length hist) <= RING_SIZE →
  ∃ t' w' p', writer_copy js jt mem t = Some t' ∧ tp_inv hist t' w' p' ∧
    (t' = t ∧ (length (writes (tp_trace t)) = length hist ∨ w = [] ∧ current (tp_writer t) = []) ∨ copied t t' p p').
Proof.
  intros Hi Hpc Hmax Hring Hmaxh. unfold writer_copy. pose proof (ti_handle _ _ _ _ Hi) as Hh.
  assert (RING_SIZE = 2 ^ 20 ∧ MOD = 2 ^ 60) as [HR HMod] by done.
  assert (seq_room (length hist)) as Hroom by (unfold seq_room; lia).
  pose proof (prefix_length _ _ (ti_log _ _ _ _ Hi)) as Hle. rewrite length_fmap in Hle.
  destruct (decide (length (writes (tp_trace t)) = length hist)) as [Eq|Hlt].
  { rewrite Eq in Hh. rewrite (caught_up_signal _ mem hist Hring Hh Hroom), (proj2 (Z.leb_gt _ _)) by lia.
    exists t, w, p. split; [done|]. split; [done|]. left. auto. }
  destruct (lookup_lt_is_Some_2 hist (length (writes (tp_trace t)))) as [x Hx]; [lia|].
  destruct (reader_next js jt (trBuffer (tp_writer t)) mem hist _ x Hring Hh Hx Hroom) as [Hany Hget]; [lia|].
  rewrite Hany. cbn [negb]. destruct (pick_region hist t w p Hi Hpc) as (r & off & q & -> & Hr). cbn [mbind option_bind].
  destruct r as [r|].
  2: { destruct Hr as (-> & Hnone & -> & ->). exists t, [], p. split_and!; [|done|].
       - f_equal. destruct t as [? ? ? ? [? ? ? ? ?] ? ?]. cbn in *. by subst.
       - left. unfold current. rewrite Hpc, Hnone. auto. }
  destruct Hr as (w' & Hq & Hr & Ho & Hcy & Hcur). rewrite Hget. cbn [mbind option_bind].
  pose proof (trades_step (trade_counter (tp_writer t))) as [_ Hst]; [rewrite (ti_counter _ _ _ _ Hi); lia|].
  destruct (full_test (trade_counter (tp_writer t)) off Ho) as [-> ->].
  pose proof (ti_writer _ _ _ _ Hi) as Hwo. unfold writer_ok in Hwo. rewrite Hpc in Hwo. destruct Hwo as [Hd _].
  destruct (_ =? trades_per_region - 1) eqn:Efull.
  - destruct (give_region_ok (rb_persist t) p r (ti_persist _ _ _ _ Hi)) as (p' & -> & Hp').
    { apply (f_equal length) in Hcy. rewrite !length_app, length_cycle in Hcy. simpl in Hcy.
      change region_count with 31. lia. }
    cbn [mbind option_bind]. eexists _, w', (p ++ [r]). split; [done|].
    split; [|right; split_and!; try done; rewrite length_app; simpl; lia].
    eapply (copy_inv hist t w p _ _ _ r off x); try done. by rewrite app_nil_r.
  - eexists _, w', p. split; [done|]. split; [|right; split_and!; try done; lia].
    eapply (copy_inv hist t w p _ _ _ r off x); try done; [apply Hi|]. split; [done|].
    cbn [w_region writeOffset trade_counter tp_writer]. destruct Hst as [Hm Hdv].
    pose proof (Z.mod_pos_bound (trade_counter (tp_writer t)) trades_per_region ltac:(done)).
    rewrite Hm, Hdv, Ho. split_and!; try done; lia.
Qed.

(** Leaving the loop: the last region is handed over. *)
Lemma writer_exit_ok hist t w p :
  tp_inv hist t w p → w_pc (tp_writer t) = WLoop → maxTradesPerTP <= trade_counter (tp_writer t) →
  ∃ q, match w_region (tp_writer t) with
       | Some r => '(_, p) ← give_region r (rb_persist t); Some p
       | None => Some (rb_persist t)
       end = Some q ∧
    tp_inv hist (mkTP (rb_write t) q (t2done t) (fdArray t) (set_writer_pc WFlag (tp_writer t)) (tp_persister t)
                   (tp_trace t)) w (p ++ current (tp_writer t)).
Proof.
  intros Hi Hpc Hge. pose proof (ti_max _ _ _ _ Hi) as Hmax. pose proof (regions_length _ _ _ _ Hi) as Hlen.
  pose proof (writing_not_cleaning hist t w p Hi ltac:(by rewrite Hpc)) as Hnc.
  assert (∃ q, match w_region (tp_writer t) with
            | Some r => '(_, p) ← give_region r (rb_persist t); Some p
            | None => Some (rb_persist t) end = Some q ∧ holds q (p ++ current (tp_writer t))) as (q & Hq & Hh).
  { unfold current in *. rewrite Hpc in *. destruct (w_region (tp_writer t)) as [r|]; cbn [held] in *.
    - destruct (give_region_ok (rb_persist t) p r (ti_persist _ _ _ _ Hi)) as (q & -> & Hq); [|by exists q].
      change region_count with 31. cbn [length] in Hlen. lia.
    - rewrite app_nil_r. exists (rb_persist t). split; [done|]. apply Hi. }
  exists q. split; [done|].
  split; cbn [rb_write rb_persist t2done fdArray tp_writer tp_persister tp_trace trade_counter trBuffer set_writer_pc];
    try apply Hi; try done.
  - rewrite <- (ti_cycle _ _ _ _ Hi). cbn [current w_pc set_writer_pc]. by rewrite app_nil_r.
  - pose proof (ti_writer _ _ _ _ Hi) as Hwo. unfold writer_ok in *. rewrite Hpc in Hwo. cbn. split; [apply Hwo|lia].
  - eapply persister_frame; [by apply Hi|done..].
  - eapply sync_ok_mono; [apply Hi|]. set_solver.
Qed.

Lemma writer_step_ok js jt hist mem t w p :
  tp_inv hist t w p → ring_inv hist mem → Z.of_nat (length hist) <= RING_SIZE →
  ∃ t' w' p', writer_step js jt mem t = Some t' ∧ tp_inv hist t' w' p' ∧
    (t' = t ∧ (w_pc (tp_writer t) = WEnd ∨
       trade_counter (tp_writer t) < maxTradesPerTP ∧ length (writes (tp_trace t)) = length hist ∨
       w_pc (tp_writer t) = WLoop ∧ w = [] ∧ current (tp_writer t) = []) ∨
     copied t t' p p' ∨
     w_pc (tp_writer t) = WLoop ∧ w_pc (tp_writer t') = WFlag ∧ (length p' ≤ S (length p))%nat ∧
       trade_counter (tp_writer t') = trade_counter (tp_writer t) ∧ tp_persister t' = tp_persister t ∨
     w_pc (tp_writer t) = WFlag ∧ w_pc (tp_writer t') = WEnd ∧ p' = p ∧
       trade_counter (tp_writer t') = trade_counter (tp_writer t) ∧ tp_persister t' = tp_persister t).
Proof.
  intros Hi Hring Hmaxh. unfold writer_step. destruct (w_pc (tp_writer t)) eqn:Hpc.
  - destruct (Z.ltb_spec (trade_counter (tp_writer t)) maxTradesPerTP) as [Hlt|Hge].
    { destruct (writer_copy_ok js jt hist mem t w p Hi Hpc Hlt Hring Hmaxh) as (t' & w' & p' & Hrun & Hi' & Hc).
      exists t', w', p'. split; [done|]. split; [done|]. naive_solver. }
    destruct (writer_exit_ok hist t w p Hi Hpc Hge) as (q & -> & Hi'). cbn [mbind option_bind].
    eexists _, w, (p ++ current (tp_writer t)). split; [done|]. split; [done|].
    right. right. left. split_and!; try done. rewrite length_app.
    unfold current. destruct (w_pc (tp_writer t)), (w_region (tp_writer t)); simpl; lia.
  - eexists _, w, p. split; [done|]. split; [|right; right; right; by split_and!].
    pose proof (ti_writer _ _ _ _ Hi) as Hwo. unfold writer_ok in Hwo. rewrite Hpc in Hwo.
    pose proof (ti_cycle _ _ _ _ Hi) as Hcy. pose proof (ti_synced _ _ _ _ Hi) as Hsy.
    unfold current in Hcy, Hsy. rewrite Hpc in Hcy, Hsy.
    split; cbn [rb_write rb_persist t2done fdArray tp_writer tp_persister tp_trace trade_counter trBuffer set_writer_pc];
      try apply Hi; try done; [split; [done|apply Hwo]|].
    pose proof (ti_persister _ _ _ _ Hi) as Hpo. unfold persister_ok in *. destruct Hwo as [Hd _].
    cbn [tp_persister t2done]. destruct (p_pc (tp_persister t)); naive_solver.
  - exists t, w, p. split; [done|]. split; [done|]. auto.
Qed.

(** ** The persistence thread *)

Lemma persist_update hist t w p t' w' p' es :
  tp_inv hist t w p → tp_writer t' = tp_writer t → t2done t' = t2done t → fdArray t' = fdArray t →
  tp_trace t' = tp_trace t ++ es → writes es = [] → holds (rb_write t') w' → holds (rb_persist t') p' →
  unmapped es ++ w' ++ hand (tp_persister t') ++ p' = w ++ hand (tp_persister t) ++ p →
  persister_ok t' w' p' →
  (¬ cleaning (p_pc (tp_persister t')) → ¬ cleaning (p_pc (tp_persister t)) ∧ Forall is_work es) →
  (Forall is_work es ∧ ¬ cleaning (p_pc (tp_persister t)) ∨ Forall is_unmap es) →
  (∀ y, y ∈ p ++ unsynced (tp_persister t) → y ∈ p' ++ unsynced (tp_persister t') ∨ ESync y ∈ es) →
  tp_inv hist t' w' p'.
Proof.
  intros Hi Ew Ed Ef Et Hnw Hw Hp Hcy Hpo Hcl Hsh Hsy.
  assert (writes (tp_trace t') = writes (tp_trace t)) as Hwr.
  { unfold writes in *. by rewrite Et, omap_app, Hnw, app_nil_r. }
  split; rewrite ?Ew, ?Hwr; try apply Hi; try done.
  - rewrite <- (ti_cycle _ _ _ _ Hi). unfold unmapped in *. rewrite Et, omap_app, <- app_assoc. f_equal.
    rewrite !app_assoc, <- (app_assoc w), <- Hcy, !app_assoc. done.
  - pose proof (ti_writer _ _ _ _ Hi) as Hwo. unfold writer_ok in *. by rewrite Ew, Ed.
  - intros [Hc He]%Hcl. rewrite Et. apply Forall_app. split; [by apply Hi|done].
  - rewrite Et. destruct Hsh as [[He Hc]|He].
    + apply work_shape, Forall_app. split; [by apply Hi|done].
    + destruct (ti_shape _ _ _ _ Hi) as (work & clean & -> & H1 & H2). exists work, (clean ++ es).
      rewrite <- app_assoc. split_and!; try done. by apply Forall_app.
  - rewrite Et. eapply sync_ok_app; [apply Hi| |].
    + intros y. specialize (Hsy y). set_solver.
    + intros r o x He. exfalso. apply list_elem_of_lookup_1 in He as [i He]. revert Hnw.
      apply (list_elem_of_lookup_2 es) in He. clear -He. unfold writes. induction es as [|e es IH]; [by apply elem_of_nil in He|].
      apply elem_of_cons in He as [<-|He]; cbn; [done|]. destruct e; [done|auto..].
  - rewrite Ef. apply Hi.
Qed.

(** How far the persistence thread has come; [w] is the length of [rb_write]. *)
Definition p_stage (pc : persist_pc) (w : list Z) : Z :=
  match pc with
  | PHead => 100 | PSync => 102 | PGive => 101 | PLast => 99 | PDrain => 50 | PDrainGive => 53 | PDrainSync => 52
  | PClean => 2 + Z.of_nat (length w) | PClose => 1 | PEnd => 0
  end.

Definition persist_work (t : TradeProcessor) (w p : list Z) : Z :=
  5 * Z.of_nat (length p) + p_stage (p_pc (tp_persister t)) w.

Lemma not_cleaning pc : pc ≠ PClean → pc ≠ PClose → pc ≠ PEnd → ¬ cleaning pc.
Proof. unfold cleaning. tauto. Qed.

Lemma close_none n : close_files (replicate n 0) = [].
Proof. unfold close_files. induction n as [|n IH]; [done|]. cbn [replicate]. by rewrite filter_cons_False by naive_solver. Qed.

Ltac tp_cbn :=
  cbn [rb_write rb_persist t2done fdArray tp_writer tp_persister tp_trace p_pc p_region set_persister emit
       hand unsynced held] in *.

(** The side conditions of [persist_update] that only need evaluation. *)
Ltac upd Hi es :=
  eapply (persist_update _ _ _ _ _ _ _ es Hi); tp_cbn; unfold persister_ok; tp_cbn;
  try first
    [ done | apply Hi | by rewrite app_nil_r | by rewrite <- ?app_assoc
    | intros _; split; [by apply not_cleaning|by repeat constructor]
    | left; split; [by repeat constructor|by apply not_cleaning]
    | right; by repeat constructor
    | intros Hc; exfalso; apply Hc; unfold cleaning; tauto
    | set_solver ].

Lemma persist_step_ok hist t w p :
  tp_inv hist t w p →
  ∃ t' w' p', persist_step t = Some t' ∧ tp_inv hist t' w' p' ∧ tp_writer t' = tp_writer t ∧
    (t' = t ∧ (p_pc (tp_persister t) = PEnd ∨
               t2done t = false ∧ p = [] ∧ hand (tp_persister t) = [] ∧ ¬ cleaning (p_pc (tp_persister t))) ∨
     persist_work t' w' p' < persist_work t w p).
Proof.
  intros Hi. pose proof (ti_persister _ _ _ _ Hi) as Hpo. pose proof (regions_length _ _ _ _ Hi) as Hlen.
  pose proof (get_region_ok _ _ (ti_persist _ _ _ _ Hi)) as Hgp. pose proof (get_region_ok _ _ (ti_write _ _ _ _ Hi)) as Hgw.
  assert (∀ r, hand (tp_persister t) = [r] → ∃ q, give_region r (rb_write t) = Some (true, q) ∧ holds q (w ++ [r])) as Hgive.
  { intros r Hr. apply give_region_ok; [apply Hi|]. rewrite Hr in Hlen. cbn [length] in Hlen.
    change region_count with 31. lia. }
  destruct t as [q1 q2 d fds wr [pc reg] tr]. unfold persist_step, claim, persister_ok, persist_work, give_back in *.
  destruct pc; tp_cbn.
  - subst reg. destruct d; [|destruct p as [|r p]].
    + eexists _, w, p. split; [done|]. split_and!; [upd Hi ([] : list tp_event)|done|right; cbn; lia].
    + rewrite Hgp. eexists _, w, []. split; [done|]. split; [exact Hi|]. split; [done|]. left. split; [done|].
      right. split_and!; try done. by apply not_cleaning.
    + destruct Hgp as (q & -> & Hq). eexists _, w, p. split; [done|].
      split_and!; [upd Hi ([] : list tp_event)|done|right; cbn; lia].
  - destruct Hpo as [r ->]. eexists _, w, p. split; [done|]. split_and!; [upd Hi [ESync r]|done|right; cbn; lia].
  - destruct Hpo as [r ->]. destruct (Hgive r eq_refl) as (q & Hg & Hq). cbn [mbind option_bind]. rewrite Hg.
    eexists _, (w ++ [r]), p. split; [done|]. split_and!; [upd Hi ([] : list tp_event)|done|right; cbn; lia].
  - done.
  - destruct p as [|r p].
    + rewrite Hgp. eexists _, w, []. split; [done|]. split_and!; [upd Hi ([] : list tp_event)|done|right; cbn; lia].
    + destruct Hgp as (q & -> & Hq). eexists _, w, p. split; [done|].
      split_and!; [upd Hi ([] : list tp_event)|done|right; cbn; lia].
  - destruct Hpo as [Hd [r ->]]. destruct (Hgive r eq_refl) as (q & Hg & Hq). cbn [mbind option_bind]. rewrite Hg.
    eexists _, (w ++ [r]), p. split; [done|]. split_and!; [upd Hi ([] : list tp_event)|done|right; cbn; lia].
  - destruct Hpo as [Hd [r ->]]. eexists _, w, p. split; [done|].
    split_and!; [upd Hi [ESync r]|done|right; cbn; lia].
  - destruct Hpo as [Hd ->]. destruct w as [|r w].
    + rewrite Hgw. eexists _, [], []. split; [done|]. split_and!; [upd Hi ([] : list tp_event)|done|right; cbn; lia].
    + destruct Hgw as (q & -> & Hq). eexists _, w, []. split; [done|].
      split_and!; [upd Hi [EUnmap r]|done|right; cbn; lia].
  - pose proof (ti_fds _ _ _ _ Hi) as Hf. tp_cbn. subst fds. rewrite close_none. destruct Hpo as (Hd & -> & ->).
    eexists _, [], []. split; [done|]. split_and!; [upd Hi ([] : list tp_event)|done|right; cbn; lia].
  - eexists _, w, p. split; [done|]. split; [exact Hi|]. split; [done|]. left. auto.
Qed.

(** * Both threads *)

(** The trades published so far, the ring that holds them, the processor. *)
Definition tp_state : Type := list Trade * ring_mem * TradeProcessor.

(** The engine group publishes, the writer and the persistence thread run, in
    any order. *)
Inductive tp_step (js : Z) (jt : Trade) : tp_state → tp_state → Prop :=
| tp_publish hist mem hist' mem' t : hist `prefix_of` hist' → ring_inv hist' mem' →
    Z.of_nat (length hist') <= RING_SIZE → tp_step js jt (hist, mem, t) (hist', mem', t)
| tp_write hist mem t t' : writer_step js jt mem t = Some t' → tp_step js jt (hist, mem, t) (hist, mem, t')
| tp_persist hist mem t t' : persist_step t = Some t' → tp_step js jt (hist, mem, t) (hist, mem, t').

Definition state_inv (s : tp_state) : Prop :=
  let '(hist, mem, t) := s in
  ring_inv hist mem ∧ Z.of_nat (length hist) <= RING_SIZE ∧ ∃ w p, tp_inv hist t w p.

Lemma tp_inv_mono hist hist' t w p : tp_inv hist t w p → hist `prefix_of` hist' → tp_inv hist' t w p.
Proof. intros [] Hp. split; try done. by etrans. Qed.

Lemma tp_steps_inv js jt s s' : rtc (tp_step js jt) s s' → state_inv s → state_inv s'.
Proof.
  induction 1 as [|s1 s2 s3 Hst _ IH]; [done|]. intros Hs. apply IH. clear IH.
  destruct Hst as [hist mem hist' mem' t Hp Hr Hl|hist mem t t' Hrun|hist mem t t' Hrun];
    destruct Hs as (Hring & Hlen & w & p & Hi); (split; [done|]); (split; [done|]).
  - exists w, p. by eapply tp_inv_mono.
  - destruct (writer_step_ok js jt hist mem t w p Hi Hring Hlen) as (t2 & w' & p' & Hrun' & Hi' & _).
    rewrite Hrun in Hrun'. simplify_eq. eauto.
  - destruct (persist_step_ok hist t w p Hi) as (t2 & w' & p' & Hrun' & Hi' & _).
    rewrite Hrun in Hrun'. simplify_eq. eauto.
Qed.

(** A file that could be opened, enlarged and mapped; and all of them. *)
Definition file_good (f : file_result) : Prop := fr_open f ≠ -1 ∧ fr_fallocate f = 0 ∧ mmap_ok f = true.
Definition files_ok (files : Z → file_result) : Prop := ∀ i, file_good (files i).

(** The loop of the constructor stops at the first bad file. *)
Definition open_result (files : Z → file_result) (todo l : list Z) (r : Z + list Z * spsc_queue Z) : Prop :=
  match r with
  | inl code => code = -1 ∧ ∃ i, i ∈ todo ∧ ¬ file_good (files i)
  | inr (_, q') => Forall (λ i, file_good (files i)) todo ∧ holds q' (l ++ todo)
  end.

Lemma open_regions_cases files todo : ∀ fds q l,
  holds q l → Z.of_nat (length l + length todo) <= region_count →
  ∃ r, open_regions files todo fds q = Some r ∧ open_result files todo l r.
Proof.
  induction todo as [|i todo IH]; intros fds q l Hq Hl; cbn [open_regions].
  { exists (inr (fds, q)). split; [done|]. split; [done|by rewrite app_nil_r]. }
  assert (¬ file_good (files i) → ∃ r, Some (inl (-1)) = Some r ∧ open_result files (i :: todo) l r) as Hbad.
  { intros Hb. exists (inl (-1)). split; [done|]. split; [done|]. exists i. split; [left|done]. }
  destruct (Z.eqb_spec (fr_open (files i)) (-1)) as [?|H1]; [apply Hbad; by intros (? & _)|].
  destruct (Z.eqb_spec (fr_fallocate (files i)) 0) as [H2|?]; cbn [negb]; [|apply Hbad; by intros (_ & ? & _)].
  destruct (mmap_ok (files i)) eqn:H3; cbn [negb]; [|apply Hbad; intros (_ & _ & ?); congruence].
  cbn [length] in Hl. destruct (give_region_ok q l i Hq) as (q1 & -> & Hq1); [lia|]. cbn [mbind option_bind].
  destruct (IH (<[Z.to_nat i := fr_open (files i)]> fds) q1 (l ++ [i]) Hq1) as (r & Hr & Hcase).
  { rewrite length_app. simpl. lia. }
  exists r. split; [done|]. destruct r as [code|[fds' q']].
  - destruct Hcase as (-> & j & Hj & Hb). split; [done|]. exists j. split; [by right|done].
  - destruct Hcase as [Hall Hq']. rewrite <- app_assoc in Hq'. split; [by constructor|done].
Qed.

(** The constructor gives a trade processor that owns all regions, or exits. *)
Lemma tp_new_cases files jf jw jp :
  length jw = Z.to_nat mem_regions → length jp = Z.to_nat mem_regions →
  ∃ r, TradeProcessor_new files jf jw jp = Some r ∧
    match r with
    | inl code => code = -1 ∧ ∃ i, 0 <= i < region_count ∧ ¬ file_good (files i)
    | inr t => (∀ i, 0 <= i < region_count → file_good (files i)) ∧ tp_inv [] t (seqZ 0 region_count) []
    end.
Proof.
  intros Hw Hp. assert (∀ j, length j = Z.to_nat mem_regions → holds (spsc_new j) []) as Hnew.
  { intros j Hj. exists 0%nat. apply (spsc_new_ok mem_regions 5); [done|lia|]. by rewrite Hj. }
  destruct (open_regions_cases files (seqZ 0 region_count) jf (spsc_new jw) [] (Hnew jw Hw)) as (r & Hrun & Hcase); [done|].
  unfold TradeProcessor_new. rewrite Hrun. cbn [mbind option_bind]. destruct r as [code|[fds q]]; (eexists; split; [reflexivity|]).
  - destruct Hcase as (-> & i & Hi%elem_of_seqZ & Hb). split; [done|]. exists i. split; [lia|done].
  - destruct Hcase as [Hall Hq]. rewrite Forall_forall in Hall. split; [intros i Hi; apply Hall, elem_of_seqZ; lia|].
    split; cbn [rb_write rb_persist tp_trace tp_writer tp_persister fdArray]; try done; [by apply Hnew|by apply work_shape].
Qed.

Lemma tp_new_inv files jf jw jp :
  files_ok files → length jw = Z.to_nat mem_regions → length jp = Z.to_nat mem_regions →
  ∃ t, TradeProcessor_new files jf jw jp = Some (inr t) ∧ tp_inv [] t (seqZ 0 region_count) [].
Proof.
  intros Hf Hw Hp. destruct (tp_new_cases files jf jw jp Hw Hp) as ([code|t] & Hrun & Hcase).
  - destruct Hcase as (_ & i & _ & Hb). by destruct (Hb (Hf i)).
  - exists t. split; [done|apply Hcase].
Qed.

Lemma tp_reachable_inv js jt files jf jw jp t0 hist mem t :
  files_ok files → length jw = Z.to_nat mem_regions → length jp = Z.to_nat mem_regions →
  TradeProcessor_new files jf jw jp = Some (inr t0) → rtc (tp_step js jt) ([], ∅, t0) (hist, mem, t) →
  state_inv (hist, mem, t).
Proof.
  intros Hf Hw Hp H0 Hst. destruct (tp_new_inv files jf jw jp Hf Hw Hp) as (t0' & H0' & Hi0).
  rewrite H0 in H0'. simplify_eq. eapply tp_steps_inv; [done|]. split; [apply ring_inv_new|].
  split; [done|]. eauto.
Qed.

(** ** Termination *)

Inductive thread := Writer | Persister.

Definition thread_step (js : Z) (jt : Trade) (mem : ring_mem) (th : thread) (t : TradeProcessor) : option TradeProcessor :=
  match th with Writer => writer_step js jt mem t | Persister => persist_step t end.

(** The threads run in the order of a schedule. *)
Definition run_threads (js : Z) (jt : Trade) (mem : ring_mem) (ths : list thread) (t : TradeProcessor)
  : option TradeProcessor :=
  foldl (λ (o : option TradeProcessor) th, t ← o; thread_step js jt mem th t) (Some t) ths.

(** What remains to be done: it decreases with every step that changes anything. *)
Definition tp_work (t : TradeProcessor) (w p : list Z) : Z :=
  10 * (maxTradesPerTP - trade_counter (tp_writer t)) +
  match w_pc (tp_writer t) with WLoop => 20 | WFlag => 10 | WEnd => 0 end + persist_work t w p.

(** When a thread spins. *)
Definition stuck (t : TradeProcessor) (w p : list Z) (th : thread) : Prop :=
  match th with
  | Writer => w_pc (tp_writer t) = WEnd ∨ w_pc (tp_writer t) = WLoop ∧ w = [] ∧ current (tp_writer t) = []
  | Persister => p_pc (tp_persister t) = PEnd ∨
      t2done t = false ∧ p = [] ∧ hand (tp_persister t) = [] ∧ ¬ cleaning (p_pc (tp_persister t))
  end.

Lemma persist_work_bound hist t w p : tp_inv hist t w p → 0 <= persist_work t w p <= 300.
Proof.
  intros Hi. pose proof (regions_length _ _ _ _ Hi). unfold persist_work, p_stage.
  destruct (p_pc (tp_persister t)); lia.
Qed.

Lemma tp_work_bound hist t w p : tp_inv hist t w p → 0 <= tp_work t w p <= 500400.
Proof.
  intros Hi. pose proof (persist_work_bound _ _ _ _ Hi). pose proof (ti_max _ _ _ _ Hi).
  pose proof (ti_counter _ _ _ _ Hi). assert (maxTradesPerTP = 50000) by done. unfold tp_work.
  destruct (w_pc (tp_writer t)); lia.
Qed.

(** The persistence thread's part does not grow by more than a queue entry. *)
Lemma persist_work_frame hist t t' w w' p p' :
  tp_inv hist t w p → w_pc (tp_writer t) ≠ WEnd → tp_persister t' = tp_persister t → (length p' ≤ S (length p))%nat →
  persist_work t' w' p' <= persist_work t w p + 5.
Proof.
  intros Hi Hw E Hp. pose proof (writing_not_cleaning _ _ _ _ Hi Hw) as Hc. unfold persist_work, p_stage.
  rewrite E. unfold cleaning in Hc. destruct (p_pc (tp_persister t)); try lia; exfalso; apply Hc; auto.
Qed.

Section progress.
Context (js : Z) (jt : Trade) (mem : ring_mem) (hist : list Trade).
Context (Hring : ring_inv hist mem) (Hlen : maxTradesPerTP <= Z.of_nat (length hist) <= RING_SIZE).

Lemma thread_step_work th t w p :
  tp_inv hist t w p →
  ∃ t' w' p', thread_step js jt mem th t = Some t' ∧ tp_inv hist t' w' p' ∧
    (t' = t ∧ w' = w ∧ p' = p ∧ stuck t w p th ∨ tp_work t' w' p' < tp_work t w p).
Proof.
  intros Hi. destruct th; cbn [thread_step stuck].
  - destruct (writer_step_ok js jt hist mem t w p Hi Hring) as (t' & w' & p' & Hrun & Hi' & Hc); [lia|].
    pose proof (ti_counter _ _ _ _ Hi) as Hcnt.
    destruct Hc as [[-> Hc]|[(H1 & H2 & H3 & H4)|[(H0 & H1 & H2 & H3 & H4)|(H0 & H1 & -> & H3 & H4)]]].
    + exists t, w, p. split; [done|]. split; [done|]. left. split_and!; try done.
      destruct Hc as [?|[[Hlt Heq]|?]]; [by left| |by right]. lia.
    + exists t', w', p'. split; [done|]. split; [done|]. right.
      assert (w_pc (tp_writer t) = WLoop) as Hpc.
      { pose proof (ti_max _ _ _ _ Hi') as Hmax. pose proof (ti_writer _ _ _ _ Hi) as Hwo. unfold writer_ok in Hwo.
        destruct (w_pc (tp_writer t)); [done|destruct Hwo; lia..]. }
      pose proof (persist_work_frame _ _ _ w w' p p' Hi ltac:(by rewrite Hpc) H4 H3).
      unfold tp_work. rewrite H1, H2, Hpc. lia.
    + exists t', w', p'. split; [done|]. split; [done|]. right.
      pose proof (persist_work_frame _ _ _ w w' p p' Hi ltac:(by rewrite H0) H4 H2).
      unfold tp_work. rewrite H0, H1, H3. lia.
    + exists t', w', p. split; [done|]. split; [done|]. right.
      pose proof (persist_work_frame _ _ _ w w' p p Hi ltac:(by rewrite H0) H4 ltac:(lia)).
      unfold tp_work. rewrite H0, H1, H3. lia.
  - destruct (persist_step_ok hist t w p Hi) as (t' & w' & p' & Hrun & Hi' & Hwr & Hc).
    destruct Hc as [[-> Hc]|Hc].
    + exists t, w, p. split; [done|]. split; [done|]. left. by split_and!.
    + exists t', w', p'. split; [done|]. split; [done|]. right. unfold tp_work. rewrite Hwr. lia.
Qed.

(** A thread that cannot move is waiting for the other one, unless all is done. *)
Lemma both_stuck t w p :
  tp_inv hist t w p → stuck t w p Writer → stuck t w p Persister → p_pc (tp_persister t) = PEnd.
Proof.
  intros Hi Hw [?|(Hd & -> & Hh & Hc)]; [done|]. exfalso. pose proof (ti_writer _ _ _ _ Hi) as Hwo.
  unfold writer_ok in Hwo. destruct Hw as [Hw|(Hw & -> & Hcur)].
  - rewrite Hw in Hwo. destruct Hwo. congruence.
  - pose proof (regions_length _ _ _ _ Hi) as Hl. rewrite (unmapped_work _ (ti_work _ _ _ _ Hi Hc)), Hh, Hcur in Hl.
    done.
Qed.

Lemma run_threads_cons th ths t :
  run_threads js jt mem (th :: ths) t = t' ← thread_step js jt mem th t; run_threads js jt mem ths t'.
Proof.
  unfold run_threads. cbn [foldl mbind option_bind]. destruct (thread_step js jt mem th t); cbn [mbind option_bind]; [done|].
  induction ths; done.
Qed.

Lemma run_threads_app ths1 : ∀ ths2 t,
  run_threads js jt mem (ths1 ++ ths2) t = t' ← run_threads js jt mem ths1 t; run_threads js jt mem ths2 t'.
Proof.
  induction ths1 as [|th ths1 IH]; intros ths2 t; [done|]. cbn [app]. rewrite !run_threads_cons.
  destruct (thread_step js jt mem th t); cbn [mbind option_bind]; [apply IH|done].
Qed.

Lemma block_work ths : ∀ t w p,
  tp_inv hist t w p →
  ∃ t' w' p', run_threads js jt mem ths t = Some t' ∧ tp_inv hist t' w' p' ∧
    (t' = t ∧ w' = w ∧ p' = p ∧ (∀ th, th ∈ ths → stuck t w p th) ∨ tp_work t' w' p' < tp_work t w p).
Proof.
  induction ths as [|th ths IH]; intros t w p Hi.
  { exists t, w, p. split; [done|]. split; [done|]. left. split_and!; try done. by intros th ?%elem_of_nil. }
  destruct (thread_step_work th t w p Hi) as (t1 & w1 & p1 & Hrun & Hi1 & Hc).
  destruct (IH t1 w1 p1 Hi1) as (t2 & w2 & p2 & Hrun2 & Hi2 & Hc2).
  exists t2, w2, p2. rewrite run_threads_cons, Hrun. split; [done|]. split; [done|].
  destruct Hc as [(-> & -> & -> & Hs)|Hlt], Hc2 as [(-> & -> & -> & Hs2)|Hlt2]; [left|right; lia..].
  split_and!; try done. intros th' [->|Hin]%elem_of_cons; auto.
Qed.

(** Enough rounds in which both threads run end in the final state. *)
Lemma threads_end blocks : ∀ t w p,
  tp_inv hist t w p → Forall (λ b, Writer ∈ b ∧ Persister ∈ b) blocks → tp_work t w p < Z.of_nat (length blocks) →
  ∃ t' w' p', run_threads js jt mem (concat blocks) t = Some t' ∧ tp_inv hist t' w' p' ∧ p_pc (tp_persister t') = PEnd.
Proof.
  induction blocks as [|b blocks IH]; intros t w p Hi Hb Hw.
  { pose proof (tp_work_bound _ _ _ _ Hi). simpl in Hw. lia. }
  apply Forall_cons in Hb as [[Hbw Hbp] Hb]. cbn [length] in Hw. cbn [concat].
  destruct (block_work b t w p Hi) as (t1 & w1 & p1 & Hrun & Hi1 & Hc). rewrite run_threads_app, Hrun. cbn [mbind option_bind].
  destruct Hc as [(-> & -> & -> & Hs)|Hlt]; [|apply (IH _ _ _ Hi1 Hb); lia].
  assert (p_pc (tp_persister t) = PEnd) as Hend by (eapply both_stuck; eauto).
  destruct (block_work (concat blocks) t w p Hi) as (t2 & w2 & p2 & Hrun2 & Hi2 & Hc2).
  exists t2, w2, p2. split; [done|]. split; [done|]. destruct Hc2 as [(-> & _)|Hlt]; [done|].
  exfalso. pose proof (tp_work_bound _ _ _ _ Hi2). pose proof (ti_persister _ _ _ _ Hi) as Hpo.
  pose proof (ti_writer _ _ _ _ Hi) as Hwo. unfold persister_ok, writer_ok in *. rewrite Hend in Hpo.
  destruct Hpo as (Hd & -> & ->). assert (tp_work t [] [] = 10 * (maxTradesPerTP - trade_counter (tp_writer t)) +
    match w_pc (tp_writer t) with WLoop => 20 | WFlag => 10 | WEnd => 0 end) as Hw0.
  { unfold tp_work, persist_work. rewrite Hend. simpl. lia. }
  destruct (w_pc (tp_writer t)); destruct Hwo as [Hd' Hcnt]; [congruence..|]. lia.
Qed.

End progress.

(** ** Correctness *)

Lemma cycle_perm n : 0 <= n → cycle n ≡ₚ seqZ 0 region_count.
Proof.
  intros Hn. rewrite <- (Z2Nat.id n Hn). induction (Z.to_nat n) as [|k IH]; [done|].
  destruct (cycle_take (Z.of_nat k)) as (l & H1 & H2). rewrite Nat2Z.inj_succ. unfold Z.succ. rewrite H2, <- IH, H1.
  symmetry. apply Permutation_cons_append.
Qed.

Lemma takes_nonneg c : 0 <= c → 0 <= takes c.
Proof. intros Hc. apply Z.div_pos; [unfold trades_per_region; lia|done]. Qed.

(** What holds in every state of a trade processor. *)
Lemma tp_state_safe js jt hist mem t :
  state_inv (hist, mem, t) →
  (∃ w p, holds (rb_write t) w ∧ holds (rb_persist t) p ∧
     unmapped (tp_trace t) ++ w ++ hand (tp_persister t) ++ p ++ current (tp_writer t) ≡ₚ seqZ 0 region_count) ∧
  is_Some (writer_step js jt mem t) ∧ is_Some (persist_step t) ∧
  (snd <$> writes (tp_trace t)) `prefix_of` hist ∧
  (∃ work clean, tp_trace t = work ++ clean ∧ Forall is_work work ∧ Forall is_unmap clean).
Proof.
  intros (Hring & Hlen & w & p & Hi).
  destruct (writer_step_ok js jt hist mem t w p Hi Hring Hlen) as (t1 & ? & ? & -> & _).
  destruct (persist_step_ok hist t w p Hi) as (t2 & ? & ? & -> & _).
  split_and!; [|done|done|apply Hi..]. exists w, p. split_and!; [apply Hi..|]. rewrite (ti_cycle _ _ _ _ Hi).
  apply cycle_perm, takes_nonneg. rewrite (ti_counter _ _ _ _ Hi). lia.
Qed.

(** The two threads of a trade processor, in any interleaving with each
    other and with the publication of trades, keep the memory regions: each
    of the 31 regions is at every moment in exactly one place (queued for
    writing, in the hands of a thread, queued for syncing, unmapped), so that
    [give_region], whose result both threads ignore, never fails; the next
    step of both threads is defined; the trades copied are the trades of the
    ring, in order; and no region is written or synced once unmapping has
    begun. *)
Theorem trade_processor_safe js jt files jf jw jp t0 hist mem t :
  files_ok files → length jw = Z.to_nat mem_regions → length jp = Z.to_nat mem_regions →
  TradeProcessor_new files jf jw jp = Some (inr t0) → rtc (tp_step js jt) ([], ∅, t0) (hist, mem, t) →
  (∃ w p, holds (rb_write t) w ∧ holds (rb_persist t) p ∧
     unmapped (tp_trace t) ++ w ++ hand (tp_persister t) ++ p ++ current (tp_writer t) ≡ₚ seqZ 0 region_count) ∧
  is_Some (writer_step js jt mem t) ∧ is_Some (persist_step t) ∧
  (snd <$> writes (tp_trace t)) `prefix_of` hist ∧
  (∃ work clean, tp_trace t = work ++ clean ∧ Forall is_work work ∧ Forall is_unmap clean).
Proof.
  intros Hf Hw Hp H0 Hst. apply tp_state_safe. by apply (tp_reachable_inv js jt files jf jw jp t0).
Qed.

(** How it ends. *)
Lemma tp_state_ends js jt hist mem t blocks :
  state_inv (hist, mem, t) → maxTradesPerTP <= Z.of_nat (length hist) →
  Forall (λ b, Writer ∈ b ∧ Persister ∈ b) blocks → 500400 < Z.of_nat (length blocks) →
  ∃ t', run_threads js jt mem (concat blocks) t = Some t' ∧
    w_pc (tp_writer t') = WEnd ∧ p_pc (tp_persister t') = PEnd ∧
    (snd <$> writes (tp_trace t')) = take (Z.to_nat maxTradesPerTP) hist ∧
    (∀ i r o x, tp_trace t' !! i = Some (EWrite r o x) → ∃ j, (i < j)%nat ∧ tp_trace t' !! j = Some (ESync r)) ∧
    unmapped (tp_trace t') ≡ₚ seqZ 0 region_count ∧
    ∃ work clean, tp_trace t' = work ++ clean ∧ Forall is_work work ∧ Forall is_unmap clean.
Proof.
  intros (Hring & Hlen & w & p & Hi) Hmax Hb Hn.
  pose proof (tp_work_bound _ _ _ _ Hi) as Hwb.
  destruct (threads_end js jt mem hist Hring (conj Hmax Hlen) blocks t w p Hi Hb) as (t' & w' & p' & Hrun & Hi' & Hend); [lia|].
  exists t'. pose proof (ti_persister _ _ _ _ Hi') as Hpo. pose proof (ti_writer _ _ _ _ Hi') as Hwo.
  unfold persister_ok in Hpo. rewrite Hend in Hpo. destruct Hpo as (Hd & -> & ->). unfold writer_ok in Hwo.
  assert (w_pc (tp_writer t') = WEnd ∧ trade_counter (tp_writer t') = maxTradesPerTP) as [Hwe Hcnt].
  { destruct (w_pc (tp_writer t')); destruct Hwo; [congruence..|done]. }
  assert (current (tp_writer t') = []) as Hcur by (unfold current; by rewrite Hwe).
  assert (hand (tp_persister t') = [] ∧ unsynced (tp_persister t') = []) as [Hh Hu]
    by (unfold hand, unsynced; by rewrite Hend).
  split_and!; try done.
  - destruct (ti_log _ _ _ _ Hi') as [l ->]. rewrite take_app_length'; [done|].
    rewrite length_fmap. pose proof (ti_counter _ _ _ _ Hi'). lia.
  - intros i r o x Hx. destruct (ti_synced _ _ _ _ Hi' i r o x Hx) as [Hin|?]; [|done].
    rewrite Hcur, Hu in Hin. by apply elem_of_nil in Hin.
  - pose proof (ti_cycle _ _ _ _ Hi') as Hcy. rewrite Hcur, Hh in Hcy. cbn [app] in Hcy. rewrite app_nil_r in Hcy.
    rewrite Hcy. apply cycle_perm, takes_nonneg. by rewrite Hcnt.
  - apply Hi'.
Qed.

(** C26: A trade processor finishes its day: once the ring holds the 50000
    trades of the day, every schedule that runs both threads often enough
    (500401 rounds suffice) brings both threads to their end; by then exactly
    these trades have been copied, every copy is followed by a sync of its
    region, and every region has been unmapped once, after its last use. *)
Theorem trade_processor_ends js jt files jf jw jp t0 hist mem t blocks :
  files_ok files → length jw = Z.to_nat mem_regions → length jp = Z.to_nat mem_regions →
  TradeProcessor_new files jf jw jp = Some (inr t0) → rtc (tp_step js jt) ([], ∅, t0) (hist, mem, t) →
  maxTradesPerTP <= Z.of_nat (length hist) →
  Forall (λ b, Writer ∈ b ∧ Persister ∈ b) blocks → 500400 < Z.of_nat (length blocks) →
  ∃ t', run_threads js jt mem (concat blocks) t = Some t' ∧
    w_pc (tp_writer t') = WEnd ∧ p_pc (tp_persister t') = PEnd ∧
    (snd <$> writes (tp_trace t')) = take (Z.to_nat maxTradesPerTP) hist ∧
    (∀ i r o x, tp_trace t' !! i = Some (EWrite r o x) → ∃ j, (i < j)%nat ∧ tp_trace t' !! j = Some (ESync r)) ∧
    unmapped (tp_trace t') ≡ₚ seqZ 0 region_count ∧
    ∃ work clean, tp_trace t' = work ++ clean ∧ Forall is_work work ∧ Forall is_unmap clean.
Proof.
  intros Hf Hw Hp H0 Hst. apply tp_state_ends. by apply (tp_reachable_inv js jt files jf jw jp t0).
Qed.

(** C27: A region is used twice in a full day: trade [k + 48453] is copied to
    the same offset of the same region as trade [k], since 31 regions of 1563
    trades hold fewer than the 50000 trades of the day; the first 1547 trades
    are gone from the files in the end. *)
Theorem early_trades_overwritten js jt files jf jw jp t0 hist mem t k r o x r' o' y :
  files_ok files → length jw = Z.to_nat mem_regions → length jp = Z.to_nat mem_regions →
  TradeProcessor_new files jf jw jp = Some (inr t0) → rtc (tp_step js jt) ([], ∅, t0) (hist, mem, t) →
  writes (tp_trace t) !! k = Some (r, o, x) →
  writes (tp_trace t) !! (k + Z.to_nat (region_count * trades_per_region))%nat = Some (r', o', y) →
  r' = r ∧ o' = o ∧ region_count * trades_per_region < maxTradesPerTP.
Proof.
  intros Hf Hw Hp H0 Hst Hk Hk'. pose proof (tp_reachable_inv _ _ _ _ _ _ _ _ _ _ Hf Hw Hp H0 Hst) as (_ & _ & w & p & Hi).
  destruct (ti_place _ _ _ _ Hi _ _ _ _ Hk) as [-> ->]. destruct (ti_place _ _ _ _ Hi _ _ _ _ Hk') as [-> ->].
  rewrite Nat2Z.inj_add, Z2Nat.id by done. unfold region_count, mem_regions, trades_per_region.
  rewrite Z.div_add, Z_mod_plus_full by lia. split_and!; [|done..].
  replace (Z.of_nat k / 1563 + (32 - 1)) with (Z.of_nat k / 1563 + 1 * (32 - 1)) by lia. apply Z_mod_plus_full.
Qed.

(** The last trade of every region that fills up does not fit: a region is
    given up when its offset reaches [fileSize] = 75000 bytes, which is not a
    multiple of the 48 bytes of a trade, so the 1563rd trade is written
    across the end of the file. *)
Theorem last_trade_cut js jt files jf jw jp t0 hist mem t k r o x :
  files_ok files → length jw = Z.to_nat mem_regions → length jp = Z.to_nat mem_regions →
  TradeProcessor_new files jf jw jp = Some (inr t0) → rtc (tp_step js jt) ([], ∅, t0) (hist, mem, t) →
  writes (tp_trace t) !! k = Some (r, o, x) →
  (fileSize < o + sizeof_Trade ↔ Z.of_nat k mod trades_per_region = trades_per_region - 1).
Proof.
  intros Hf Hw Hp H0 Hst Hk. pose proof (tp_reachable_inv _ _ _ _ _ _ _ _ _ _ Hf Hw Hp H0 Hst) as (_ & _ & w & p & Hi).
  destruct (ti_place _ _ _ _ Hi _ _ _ _ Hk) as [_ ->]. destruct region_sizes as (-> & _ & -> & -> & _).
  pose proof (Z.mod_pos_bound (Z.of_nat k) 1563 ltac:(lia)). lia.
Qed.

(** ** Examples: a day of 50000 equal trades *)

Definition good_files (i : Z) : file_result := mkFile (Z.abs i + 3) 0 true.
Definition fresh_tp : TradeProcessor :=
  match TradeProcessor_new good_files [] (replicate 32 0) (replicate 32 0) with
  | Some (inr t) => t
  | _ => mkTP (spsc_new []) (spsc_new []) false [] (mkWriter WLoop (trade_ring_buffer_new false) None 0 0)
           (mkPersister PHead None) []
  end.

Definition first_trade : Trade := mkTrade 1 10 100 11 12 0 5.
Definition day_of (n : nat) : list Trade := replicate n first_trade.
Definition day_mem (n : nat) : ring_mem := (add_trades (day_of n) (trade_ring_buffer_new true, ∅)).2.

Lemma good_files_ok : files_ok good_files.
Proof. intros i. unfold file_good. cbn. split_and!; [lia|done..]. Qed.

Lemma fresh_new : TradeProcessor_new good_files [] (replicate 32 0) (replicate 32 0)
  = Some (inr fresh_tp).
Proof. vm_compute. reflexivity. Qed.

Lemma day_published js jt n : Z.of_nat n <= RING_SIZE → rtc (tp_step js jt) ([], ∅, fresh_tp) (day_of n, day_mem n, fresh_tp).
Proof.
  intros Hn. apply rtc_once, tp_publish; [apply prefix_nil| |by unfold day_of; rewrite length_replicate].
  destruct ring_inv_new as [Hr Hh]. apply (add_trades_inv (day_of n) [] _ _ Hr Hh).
  unfold seq_room, day_of. cbn [app]. rewrite length_replicate. assert (RING_SIZE = 2 ^ 20 ∧ MOD = 2 ^ 60) as [? ?] by done. simpl. lia.
Qed.

Lemma run_threads_steps js jt hist mem ths : ∀ t t',
  run_threads js jt mem ths t = Some t' → rtc (tp_step js jt) (hist, mem, t) (hist, mem, t').
Proof.
  induction ths as [|th ths IH]; intros t t' Hrun; [by injection Hrun as <-; apply rtc_refl|].
  rewrite run_threads_cons in Hrun. destruct (thread_step js jt mem th t) as [t1|] eqn:E; [|done].
  eapply rtc_l; [|by apply IH]. destruct th; [by apply tp_write|by apply tp_persist].
Qed.

Lemma trade_processor_safe_witness :
  (snd <$> writes (tp_trace (default fresh_tp (writer_step 0 first_trade (day_mem 1) fresh_tp)))) `prefix_of` day_of 1.
Proof.
  apply (trade_processor_safe 0 first_trade good_files [] (replicate 32 0) (replicate 32 0)
           fresh_tp (day_of 1) (day_mem 1)).
  - apply good_files_ok.
  - reflexivity.
  - reflexivity.
  - apply fresh_new.
  - eapply rtc_r; [apply (day_published _ _ 1); done|]. apply tp_write. vm_compute. reflexivity.
Defined.

Definition rounds : list (list thread) := replicate (Z.to_nat 500401) [Writer; Persister].

Lemma rounds_fair : Forall (λ b, Writer ∈ b ∧ Persister ∈ b) rounds.
Proof. apply Forall_replicate. set_solver. Qed.

Lemma rounds_enough : 500400 < Z.of_nat (length rounds).
Proof. unfold rounds. rewrite length_replicate, Z2Nat.id by lia. lia. Qed.

Lemma full_day : maxTradesPerTP <= Z.of_nat (length (day_of (Z.to_nat 50000))).
Proof. unfold day_of. rewrite length_replicate, Z2Nat.id by lia. done. Qed.

Lemma trade_processor_ends_witness :
  ∃ t', run_threads 0 first_trade (day_mem (Z.to_nat 50000)) (concat rounds) fresh_tp = Some t' ∧
    p_pc (tp_persister t') = PEnd ∧ (snd <$> writes (tp_trace t')) = day_of (Z.to_nat 50000).
Proof.
  destruct (trade_processor_ends 0 first_trade good_files [] (replicate 32 0) (replicate 32 0)
           fresh_tp (day_of (Z.to_nat 50000)) (day_mem (Z.to_nat 50000)) fresh_tp rounds)
    as (t' & H1 & _ & H2 & H3 & _).
  - apply good_files_ok.
  - reflexivity.
  - reflexivity.
  - apply fresh_new.
  - apply day_published. rewrite Z2Nat.id by lia. discriminate.
  - apply full_day.
  - apply rounds_fair.
  - apply rounds_enough.
  - exists t'. split; [exact H1|]. split; [exact H2|]. rewrite H3. apply take_ge.
    unfold day_of. rewrite length_replicate. apply Nat.le_refl.
Defined.

(** The end of that day. *)
Lemma day_end : ∃ t, rtc (tp_step 0 first_trade) ([], ∅, fresh_tp) (day_of (Z.to_nat 50000), day_mem (Z.to_nat 50000), t) ∧
  Z.of_nat (length (writes (tp_trace t))) = maxTradesPerTP.
Proof.
  assert (Z.of_nat (Z.to_nat 50000) <= RING_SIZE) as Hle by (rewrite Z2Nat.id by lia; done).
  pose proof (day_published 0 first_trade (Z.to_nat 50000) Hle) as Hst.
  pose proof (tp_reachable_inv 0 first_trade good_files [] (replicate 32 0) (replicate 32 0) fresh_tp _ _ _ good_files_ok eq_refl eq_refl fresh_new Hst)
    as (Hring & Hlen & w & p & Hi).
  pose proof (tp_work_bound _ _ _ _ Hi) as Hwb. pose proof rounds_enough as Hre.
  destruct (threads_end 0 first_trade _ _ Hring (conj full_day Hlen) rounds fresh_tp w p Hi rounds_fair)
    as (t & w' & p' & Hrun & Hi' & Hend); [lia|].
  exists t. split; [etrans; [exact Hst|]; by eapply run_threads_steps|]. rewrite <- (ti_counter _ _ _ _ Hi').
  pose proof (ti_persister _ _ _ _ Hi') as Hpo. pose proof (ti_writer _ _ _ _ Hi') as Hwo.
  unfold persister_ok, writer_ok in *. rewrite Hend in Hpo. destruct Hpo as (Hd & _).
  destruct (w_pc (tp_writer t)); destruct Hwo; [congruence..|done].
Qed.

Lemma early_trades_overwritten_witness :
  ∃ t r o x y, writes (tp_trace t) !! 0%nat = Some (r, o, x) ∧
    writes (tp_trace t) !! (0 + Z.to_nat (region_count * trades_per_region))%nat = Some (r, o, y).
Proof.
  destruct day_end as (t & Hst & Hlen).
  destruct (lookup_lt_is_Some_2 (writes (tp_trace t)) 0) as [[[r o] x] Hx].
  { assert (maxTradesPerTP = 50000) by reflexivity. lia. }
  destruct (lookup_lt_is_Some_2 (writes (tp_trace t)) (0 + Z.to_nat (region_count * trades_per_region))) as [[[r' o'] y] Hy].
  { assert (maxTradesPerTP = 50000 ∧ region_count * trades_per_region = 48453) by (split; reflexivity). lia. }
  exists t, r, o, x, y. split; [exact Hx|].
  destruct (early_trades_overwritten 0 first_trade good_files [] (replicate 32 0) (replicate 32 0)
      fresh_tp (day_of (Z.to_nat 50000)) (day_mem (Z.to_nat 50000)) t 0 r o x r' o' y) as (H1 & H2 & _).
  - apply good_files_ok.
  - reflexivity.
  - reflexivity.
  - apply fresh_new.
  - exact Hst.
  - exact Hx.
  - exact Hy.
  - rewrite <- H1, <- H2. exact Hy.
Defined.
