(* ===== verification/MarketFeed.v ===== *)
(** [MarketFeedReader] of src/MarketFeedReader.cpp: the reader thread turns
    trades into numbered messages and queues them, the sender thread packs
    them into UDP packets of up to 23 and repeats the same bytes on the TCP
    connection to the retransmitter.  The system calls are represented by
    the results they return. *)

From S2P Require Import Prelude Types TradeRing Fifo Spsc Wire.

Definition batch_capacity : nat := 64.

(** * The reader *)

Record MarketFeedReader := mkMFR {
  seq_num : Z;
  mf_queue : spsc_queue MarketDataMessage;
  trb_vec : list trade_ring_buffer
}.

Definition formatMarketData (t : Trade) (seq : Z) : MarketDataMessage * Z :=
  (mkMessage (t_trade_id t) (t_timestamp_ns t) (t_price t) (t_symbol_id t) (t_quantity t) seq,
   u64 (seq + 1)).

(** [while (any_new_trade() && reads < 10)] on one ring; the result of
    [queue.push] is ignored. *)
Fixpoint read_ring (reads_left : nat) (js : Z) (jt : Trade) (h : trade_ring_buffer) (mem : ring_mem)
  (seq : Z) (q : spsc_queue MarketDataMessage)
  : option (trade_ring_buffer * Z * spsc_queue MarketDataMessage) :=
  match reads_left with
  | O => Some (h, seq, q)
  | S n =>
      if any_new_trade h mem then
        let '(t, h) := get_trade js jt h mem in
        t ← t;
        let '(msg, seq) := formatMarketData t seq in
        '(_, q) ← spsc_push queue_buffer_size msg q;
        read_ring n js jt h mem seq q
      else Some (h, seq, q)
  end.

(** One round of [readThread] over all the rings. *)
Definition readThread_round (js : Z) (jt : Trade) (mems : list ring_mem) (m : MarketFeedReader)
  : option MarketFeedReader :=
  foldl (λ (st : option MarketFeedReader) i,
      m ← st;
      h ← trb_vec m !! i;
      mem ← mems !! i;
      '(h, seq, q) ← read_ring 10 js jt h mem (seq_num m) (mf_queue m);
      Some (mkMFR seq q (<[i := h]> (trb_vec m))))
    (Some m) (seq 0 (Z.to_nat total_ring_buffer_count)).

(** * The sender *)

(** The inner loop: pops into the current packet until it holds 23 messages;
    [true] when the queue ran empty first. *)
Fixpoint pack_packet (room : nat) (q : spsc_queue MarketDataMessage)
  : option (list MarketDataMessage * bool * spsc_queue MarketDataMessage) :=
  match room with
  | O => Some ([], false, q)
  | S room =>
      '(r, q) ← spsc_pop queue_buffer_size q;
      match r with
      | None => Some ([], true, q)
      | Some msg => '(ms, e, q) ← pack_packet room q; Some (msg :: ms, e, q)
      end
  end.

(** The outer loop: the packets completed, and what the loop was packing when
    it jumped to [flush]. *)
Fixpoint pack_batch (capacity : nat) (q : spsc_queue MarketDataMessage)
  : option (list (list MarketDataMessage) * list MarketDataMessage * spsc_queue MarketDataMessage) :=
  match capacity with
  | O => Some ([], [], q)
  | S capacity =>
      '(ms, e, q) ← pack_packet (Z.to_nat msg_per_packet) q;
      if e : bool then Some ([], ms, q)
      else '(ps, part, q) ← pack_batch capacity q; Some (ms :: ps, part, q)
  end.

(** The packets handed to [sendmmsg] and the bytes handed to [send]: after
    [flush] the length of the unfinished packet is computed from the TCP
    offset. *)
Definition flush (capacity : nat) (full : list (list MarketDataMessage)) (part : list MarketDataMessage)
  : list (list MarketDataMessage) * bytes :=
  let packed := concat full ++ part in
  let tcp_offset := sizeof_MarketDataMessage * Z.of_nat (length packed) in
  let current_packet_msgs := (tcp_offset / sizeof_MarketDataMessage) mod msg_per_packet in
  (if (length full <? capacity)%nat && (0 <? current_packet_msgs)
   then full ++ [take (Z.to_nat current_packet_msgs) part] else full,
   concat (encode_message <$> packed)).

(** What [sendmmsg] or [send] returns: a count, "try again" ([EINTR] for the
    former, [EAGAIN] for the latter), or an error. *)
Inductive send_result := Sent (n : nat) | Retry | Error.

(** The loop around [sendmmsg]: the packets sent, and whether the thread goes
    on; an error ends it.  A loop that outlives [results] does not go on. *)
Fixpoint udp_send (results : list send_result) (packets : list (list MarketDataMessage))
  : list (list MarketDataMessage) * bool :=
  match packets with
  | [] => ([], true)
  | _ =>
      match results with
      | [] | Error :: _ => ([], false)
      | Retry :: rs => udp_send rs packets
      | Sent n :: rs =>
          let '(ps, alive) := udp_send rs (drop n packets) in (take n packets ++ ps, alive)
      end
  end.

(** The loop around [send]: at [EAGAIN] it gives up the rest of the batch and
    the thread goes on; an error ends the thread. *)
Fixpoint tcp_send (results : list send_result) (bs : bytes) : bytes * bool :=
  match bs with
  | [] => ([], true)
  | _ =>
      match results with
      | [] | Error :: _ => ([], false)
      | Retry :: _ => ([], true)
      | Sent n :: rs => let '(cs, alive) := tcp_send rs (drop n bs) in (take n bs ++ cs, alive)
      end
  end.

(** One iteration of [sendThread]: what reaches the network, whether the
    thread goes on, and the queue. *)
Definition sendThread_round (udp tcp : list send_result) (q : spsc_queue MarketDataMessage)
  : option (list (list MarketDataMessage) * bytes * bool * spsc_queue MarketDataMessage) :=
  '(full, part, q) ← pack_batch batch_capacity q;
  let '(packets, bs) := flush batch_capacity full part in
  if bool_decide (packets = []) then Some ([], [], true, q)
  else
    let '(ps, alive) := udp_send udp packets in
    if alive then let '(cs, alive) := tcp_send tcp bs in Some (ps, cs, alive, q)
    else Some (ps, [], false, q).

(** * Packing *)

#[local] Abbreviation mq_rep := (fq_rep (FifoQueue:=spsc_fifo queue_buffer_size)).

Lemma pack_packet_ok room : ∀ q l,
  mq_rep q l → ∃ q', pack_packet room q = Some (take room l, (length l <? room)%nat, q') ∧
    mq_rep q' (drop room l).
Proof.
  induction room as [|room IH]; intros q l Hq; [by exists q|]. cbn [pack_packet].
  destruct l as [|m l].
  - pose proof (fq_pop_empty (FifoQueue:=spsc_fifo queue_buffer_size) q Hq) as Hp. simpl in Hp.
    rewrite Hp. by exists q.
  - destruct (fq_pop_item (FifoQueue:=spsc_fifo queue_buffer_size) q m l Hq) as (q1 & Hp & Hq1). simpl in Hp.
    rewrite Hp. cbn [mbind option_bind]. destruct (IH q1 l Hq1) as (q' & Hr & Hq'). rewrite Hr.
    by exists q'.
Qed.

(** Chunks of [k] from the front of a list; the last, shorter one separately. *)
Lemma pack_batch_ok capacity : ∀ q l,
  mq_rep q l →
  ∃ full part q', pack_batch capacity q = Some (full, part, q') ∧
    concat full ++ part = take (capacity * Z.to_nat msg_per_packet) l ∧
    Forall (λ p, length p = Z.to_nat msg_per_packet) full ∧
    (length part < Z.to_nat msg_per_packet)%nat ∧
    (length full ≤ capacity)%nat ∧ (length full = capacity → part = []) ∧
    mq_rep q' (drop (capacity * Z.to_nat msg_per_packet) l).
Proof.
  assert (Z.to_nat msg_per_packet = 23%nat) as E by done. rewrite E.
  induction capacity as [|capacity IH]; intros q l Hq.
  { exists [], [], q. split_and!; try done; simpl; lia. }
  cbn [pack_batch]. rewrite E. destruct (pack_packet_ok 23 q l Hq) as (q1 & Hr & Hq1). rewrite Hr.
  cbn [mbind option_bind]. destruct (Nat.ltb_spec (length l) 23) as [Hlt|Hge].
  - exists [], (take 23 l), q1. rewrite (take_ge l 23) by lia. rewrite (take_ge l) by lia.
    rewrite (drop_ge l 23) in Hq1 by lia. rewrite (drop_ge l) by lia. split_and!; try done; simpl; lia.
  - destruct (IH q1 (drop 23 l) Hq1) as (full & part & q' & Hrun & Hc & Hf & Hp & Hl & Hfull & Hq').
    rewrite Hrun. cbn [mbind option_bind]. exists (take 23 l :: full), part, q'. split_and!; try done.
    + cbn [concat]. rewrite <- app_assoc, Hc. replace (S capacity * 23)%nat with (23 + capacity * 23)%nat by lia.
      by rewrite take_take_drop.
    + constructor; [rewrite length_take; lia|done].
    + simpl. lia.
    + simpl. intros H. apply Hfull. lia.
    + rewrite drop_drop in Hq'. by replace (S capacity * 23)%nat with (23 + capacity * 23)%nat by lia.
Qed.

Lemma concat_full_length (full : list (list MarketDataMessage)) n :
  Forall (λ p, length p = n) full → length (concat full) = (length full * n)%nat.
Proof. induction 1 as [|p full Hp _ IH]; [done|]. cbn [concat length]. rewrite length_app, IH, Hp. lia. Qed.

Lemma flush_ok capacity full part :
  Forall (λ p, length p = Z.to_nat msg_per_packet) full → (length part < Z.to_nat msg_per_packet)%nat →
  (length full ≤ capacity)%nat → (length full = capacity → part = []) →
  concat (flush capacity full part).1 = concat full ++ part ∧
  Forall (λ p, 1 ≤ length p ≤ Z.to_nat msg_per_packet)%nat (flush capacity full part).1.
Proof.
  intros Hf Hp Hc Hfull. assert (Z.to_nat msg_per_packet = 23%nat) as E by done. rewrite E in *.
  unfold flush, sizeof_MarketDataMessage. cbn zeta. cbn [fst].
  rewrite Z.mul_comm, Z.div_mul by lia. rewrite length_app, (concat_full_length _ 23) by done.
  assert (Z.of_nat (length full * 23 + length part) mod msg_per_packet = Z.of_nat (length part)) as ->.
  { unfold msg_per_packet. rewrite Nat2Z.inj_add, Nat2Z.inj_mul, Z.add_comm. change (Z.of_nat 23) with 23.
    rewrite Z_mod_plus_full. apply Z.mod_small. lia. }
  assert (Forall (λ p, 1 ≤ length p ≤ 23)%nat full) as Hb.
  { eapply Forall_impl; [done|]. simpl. lia. }
  rewrite Nat2Z.id, take_ge by lia. destruct part as [|m part].
  - rewrite andb_false_r, app_nil_r. done.
  - destruct (Nat.ltb_spec (length full) capacity) as [Hlt|Hge].
    + cbn [andb length]. rewrite (proj2 (Z.ltb_lt 0 _)) by lia. rewrite concat_app. cbn [concat].
      rewrite app_nil_r. split; [done|]. apply Forall_app. split; [done|]. constructor; [|done].
      simpl in *. lia.
    + specialize (Hfull ltac:(lia)). done.
Qed.

Lemma flush_length capacity full part :
  (length full ≤ capacity)%nat → (length (flush capacity full part).1 ≤ capacity)%nat.
Proof.
  intros Hl. unfold flush. cbn [fst].
  destruct (Nat.ltb_spec (length full) capacity); [|by rewrite andb_false_l].
  destruct (0 <? _); cbn [andb]; [rewrite length_app; simpl; lia|done].
Qed.

(** Results of a network that always takes something. *)
Definition progress (results : list send_result) : Prop := Forall (λ r, ∃ n, r = Sent (S n)) results.

Lemma udp_send_all results : ∀ packets,
  progress results → (length packets ≤ length results)%nat → udp_send results packets = (packets, true).
Proof.
  induction results as [|r rs IH]; intros [|p ps] Hf Hl; cbn [udp_send]; try done.
  { simpl in Hl. lia. }
  apply Forall_cons in Hf as [[n ->] Hf]. rewrite IH; [by rewrite take_drop|done|].
  rewrite length_drop. simpl in *. lia.
Qed.

Lemma tcp_send_all results : ∀ bs,
  progress results → (length bs ≤ length results)%nat → tcp_send results bs = (bs, true).
Proof.
  induction results as [|r rs IH]; intros [|b bs] Hf Hl; cbn [tcp_send]; try done.
  { simpl in Hl. lia. }
  apply Forall_cons in Hf as [[n ->] Hf]. rewrite IH; [by rewrite take_drop|done|].
  rewrite length_drop. simpl in *. lia.
Qed.

Lemma length_encoded ms :
  length (concat (encode_message <$> ms)) = (length ms * Z.to_nat sizeof_MarketDataMessage)%nat.
Proof.
  induction ms as [|m ms IH]; [done|]. cbn [fmap list_fmap concat length].
  rewrite length_app, length_encode_message, IH. lia.
Qed.

(** Packing.  From any queue of messages, one iteration of the sender takes
    the oldest 64 * 23 of them, or all.  Over a network that always takes
    something, the UDP packets that leave carry exactly these messages, in
    order, between one and 23 to a packet, the TCP stream carries the same
    messages in the same order, and the thread goes on. *)
Theorem sender_batch udp tcp q l :
  fq_rep (FifoQueue:=spsc_fifo queue_buffer_size) q l → progress udp → progress tcp →
  (batch_capacity ≤ length udp)%nat → (64 * (64 * 23) ≤ length tcp)%nat →
  ∃ packets q',
    sendThread_round udp tcp q = Some (packets, concat (encode_message <$> take (64 * 23) l), true, q') ∧
    fq_rep (FifoQueue:=spsc_fifo queue_buffer_size) q' (drop (64 * 23) l) ∧
    concat packets = take (64 * 23) l ∧
    Forall (λ p, 1 ≤ length p ≤ 23)%nat packets ∧ (length packets ≤ batch_capacity)%nat.
Proof.
  intros Hq Hu Ht Hlu Hlt. destruct (pack_batch_ok batch_capacity q l Hq)
    as (full & part & q' & Hrun & Hc & Hf & Hp & Hl & Hfull & Hq').
  change (batch_capacity * Z.to_nat msg_per_packet)%nat with (64 * 23)%nat in *.
  destruct (flush_ok batch_capacity full part Hf Hp Hl Hfull) as [Hcat Hall].
  pose proof (flush_length batch_capacity full part Hl) as Hlen.
  assert ((flush batch_capacity full part).2 = concat (encode_message <$> take (64 * 23) l)) as Hbs
    by (unfold flush; cbn [snd]; by rewrite Hc).
  exists (flush batch_capacity full part).1, q'. rewrite Hcat, Hc. split_and!; try done.
  unfold sendThread_round. rewrite Hrun. cbn [mbind option_bind].
  destruct (flush batch_capacity full part) as [packets bs]. cbn [fst snd] in *. subst bs.
  rewrite Hc in Hcat. case_bool_decide as Hnil.
  - subst packets. by rewrite <- Hcat.
  - rewrite udp_send_all by (done || lia). rewrite tcp_send_all; [done|done|].
    rewrite length_encoded, length_take. change (Z.to_nat sizeof_MarketDataMessage) with 64%nat. lia.
Qed.

Definition message_of (seq : Z) (t : Trade) : MarketDataMessage := (formatMarketData t seq).1.

Definition numbered (seq : Z) (ts : list Trade) : list MarketDataMessage :=
  imap (λ i t, message_of (seq + Z.of_nat i) t) ts.

Lemma numbered_cons seq t ts : numbered seq (t :: ts) = message_of seq t :: numbered (seq + 1) ts.
Proof.
  unfold numbered. cbn [imap]. f_equal; [f_equal; lia|]. apply imap_ext. intros i x _. simpl. f_equal. lia.
Qed.

(** The messages that find the queue full are dropped, though they have
    taken their numbers. *)
Definition queue_takes (l ms : list MarketDataMessage) : list MarketDataMessage :=
  take (Z.to_nat (queue_buffer_size - 1 - Z.of_nat (length l))) ms.

Lemma queue_takes_cons l m ms :
  Z.of_nat (length l) < queue_buffer_size - 1 → l ++ queue_takes l (m :: ms) = (l ++ [m]) ++ queue_takes (l ++ [m]) ms.
Proof.
  intros Hl. unfold queue_takes. rewrite length_app. cbn [length].
  replace (Z.to_nat (queue_buffer_size - 1 - Z.of_nat (length l)))
    with (S (Z.to_nat (queue_buffer_size - 1 - Z.of_nat (length l + 1)))) by lia.
  cbn [take firstn]. by rewrite <- app_assoc.
Qed.

Lemma queue_takes_full l ms : Z.of_nat (length l) = queue_buffer_size - 1 → queue_takes l ms = [].
Proof. intros Hl. unfold queue_takes. rewrite Hl, Z.sub_diag. apply take_0. Qed.

Lemma queue_takes_all l ms : Z.of_nat (length l + length ms) <= queue_buffer_size - 1 → queue_takes l ms = ms.
Proof. intros Hl. unfold queue_takes. apply take_ge. lia. Qed.

(** One push, into a queue with or without room. *)
Lemma push_takes q (l : list MarketDataMessage) m :
  mq_rep q l → ∃ ok q', spsc_push queue_buffer_size m q = Some (ok, q') ∧
    (mq_rep q' (l ++ [m]) ∧ Z.of_nat (length l) < queue_buffer_size - 1 ∨
     mq_rep q' l ∧ Z.of_nat (length l) = queue_buffer_size - 1).
Proof.
  intros Hq. pose proof (fq_bounded (FifoQueue:=spsc_fifo queue_buffer_size) q l Hq) as Hb. cbn [fq_bound spsc_fifo] in Hb.
  destruct (decide (Z.of_nat (length l) = queue_buffer_size - 1)) as [E|E].
  - pose proof (fq_push_full (FifoQueue:=spsc_fifo queue_buffer_size) q l m Hq E) as Hp. exists false, q. split; [exact Hp|by right].
  - destruct (fq_push_room (FifoQueue:=spsc_fifo queue_buffer_size) q l m Hq) as (q' & Hp & Hq'); [cbn [fq_bound spsc_fifo]; lia|].
    exists true, q'. split; [exact Hp|]. left. split; [done|lia].
Qed.

Lemma read_ring_takes n js jt mem hist : ∀ h c seq q l,
  ring_inv hist mem → handle_at c h → (c ≤ length hist)%nat →
  Z.of_nat (length hist) <= Z.of_nat c + RING_SIZE → Z.of_nat (length hist) < 2 * RING_SIZE - 3 →
  mq_rep q l → 0 <= seq → seq + Z.of_nat n < 2 ^ 64 →
  let ts := take n (drop c hist) in
  ∃ h' q', read_ring n js jt h mem seq q = Some (h', seq + Z.of_nat (length ts), q') ∧
    handle_at (c + length ts) h' ∧ mq_rep q' (l ++ queue_takes l (numbered seq ts)).
Proof.
  induction n as [|n IH]; intros h c seq q l Hr Hh Hc Hw Hn Hq Hs1 Hs2; cbn zeta.
  { exists h, q. rewrite take_0. unfold queue_takes. cbn [length numbered imap]. by rewrite take_nil, Z.add_0_r, Nat.add_0_r, app_nil_r. }
  assert (seq_room (length hist)) as Hsr
    by (unfold seq_room, MOD; rewrite Z.shiftl_1_l; assert (RING_SIZE = 2 ^ 20) by done; lia).
  cbn [read_ring]. destruct (decide (c = length hist)) as [->|Hne].
  - rewrite (caught_up_signal h mem hist) by done. rewrite (proj2 (Z.leb_gt _ _)) by lia.
    exists h, q. rewrite drop_all. unfold queue_takes. cbn [take firstn length numbered imap].
    by rewrite take_nil, Z.add_0_r, Nat.add_0_r, app_nil_r.
  - destruct (lookup_lt_is_Some_2 hist c) as [t Ht]; [lia|].
    destruct (reader_next js jt h mem hist c t Hr Hh Ht Hsr Hw) as [Hany Hget]. rewrite Hany, Hget.
    cbn [mbind option_bind]. unfold formatMarketData.
    destruct (push_takes q l (message_of seq t) Hq) as (ok & q1 & Hp & Hq1).
    unfold message_of, formatMarketData in Hp. cbn [fst] in Hp. rewrite Hp.
    cbn [mbind option_bind]. rewrite (u64_small (seq + 1)) by mach.
    assert (handle_at (S c) (update_index_and_seq h)) as Hh1 by (apply update_handle; [done|unfold seq_room in *; lia]).
    rewrite (drop_S hist t c Ht). cbn [take firstn length]. rewrite numbered_cons.
    replace (seq + Z.of_nat (S (length (take n (drop (S c) hist))))) with (seq + 1 + Z.of_nat (length (take n (drop (S c) hist)))) by lia.
    rewrite Nat.add_succ_r, <- Nat.add_succ_l. destruct Hq1 as [[Hq1 Hlt]|[Hq1 Heq]].
    + rewrite queue_takes_cons by done. apply IH; try done; lia.
    + rewrite (queue_takes_full l (_ :: _)) by done. rewrite <- (queue_takes_full l (numbered (seq + 1) (take n (drop (S c) hist)))) by done.
      apply IH; try done; lia.
Qed.

Lemma numbered_length seq ts : length (numbered seq ts) = length ts.
Proof. unfold numbered. apply length_imap. Qed.

Lemma read_ring_ok n js jt mem hist : ∀ h c seq q l,
  ring_inv hist mem → handle_at c h → (c ≤ length hist)%nat →
  Z.of_nat (length hist) <= Z.of_nat c + RING_SIZE → Z.of_nat (length hist) < 2 * RING_SIZE - 3 →
  mq_rep q l → Z.of_nat (length l + n) < queue_buffer_size → 0 <= seq → seq + Z.of_nat n < 2 ^ 64 →
  let ts := take n (drop c hist) in
  ∃ h' q', read_ring n js jt h mem seq q = Some (h', seq + Z.of_nat (length ts), q') ∧
    handle_at (c + length ts) h' ∧ mq_rep q' (l ++ numbered seq ts).
Proof.
  intros h c seq q l Hr Hh Hc Hw Hn Hq Hroom Hs1 Hs2 ts.
  destruct (read_ring_takes n js jt mem hist h c seq q l) as (h' & q' & Hrun & Hh' & Hq'); try done.
  fold ts in Hrun, Hh', Hq'. exists h', q'. split_and!; try done.
  rewrite queue_takes_all in Hq'; [done|]. rewrite numbered_length. subst ts. rewrite length_take. lia.
Qed.

(** Numbering.  A visit of the reader to one ring queues the next ten
    unread trades, or all, as messages with consecutive sequence numbers, in
    the order in which the engine published them, provided that the queue has
    room for ten more. *)
Theorem reader_numbers js jt mem hist h c seq q l :
  ring_inv hist mem → handle_at c h → (c ≤ length hist)%nat →
  Z.of_nat (length hist) <= Z.of_nat c + RING_SIZE → Z.of_nat (length hist) < 2 * RING_SIZE - 3 →
  fq_rep (FifoQueue:=spsc_fifo queue_buffer_size) q l → Z.of_nat (length l + 10) < queue_buffer_size →
  0 <= seq → seq + 10 < 2 ^ 64 →
  let ts := take 10 (drop c hist) in
  ∃ h' q', read_ring 10 js jt h mem seq q = Some (h', seq + Z.of_nat (length ts), q') ∧
    handle_at (c + length ts) h' ∧
    fq_rep (FifoQueue:=spsc_fifo queue_buffer_size) q' (l ++ numbered seq ts).
Proof. intros. by apply (read_ring_ok 10 js jt mem hist). Qed.

Lemma tcp_stream_prefix results : ∀ bs, (tcp_send results bs).1 `prefix_of` bs.
Proof.
  induction results as [|[n| |] rs IH]; intros [|b bs]; cbn [tcp_send]; try apply prefix_nil.
  destruct (IH (drop n (b :: bs))) as [r Hr]. destruct (tcp_send rs _) as [cs alive]. exists r.
  cbn [fst] in *. rewrite <- app_assoc, <- Hr. by rewrite take_drop.
Qed.

(** What reaches the retransmitter is a prefix of the batch, and all of it
    if the socket always takes something.  But a batch given up at [EAGAIN]
    may stop inside a message while the thread goes on, after which the byte
    stream of the following batches is out of step with the 64-byte messages;
    and when [sendmmsg] fails, packets that did leave on UDP never reach the
    retransmitter. *)
Theorem tcp_stream bs results :
  (tcp_send results bs).1 `prefix_of` bs ∧
  (∀ m m', ∃ cs, tcp_send [Sent 100; Retry] (encode_message m ++ encode_message m') = (cs, true) ∧
     length cs = 100%nat ∧ 100 mod sizeof_MarketDataMessage ≠ 0) ∧
  (∀ p p', udp_send [Sent 1; Error] [p; p'] = ([p], false)).
Proof.
  split_and!.
  - apply tcp_stream_prefix.
  - intros m m'.
    assert (length (encode_message m ++ encode_message m') = 128%nat) as Hl
      by (rewrite length_app, !length_encode_message; done).
    exists (take 100 (encode_message m ++ encode_message m')). rewrite length_take, Hl.
    split; [|done]. destruct (encode_message m ++ encode_message m') as [|b' bs']; [done|].
    cbn [tcp_send]. destruct (drop 100 (b' :: bs')); by rewrite app_nil_r.
  - done.
Qed.

(** ** Witnesses *)

Definition empty_mq : spsc_queue MarketDataMessage :=
  spsc_new (replicate (Z.to_nat queue_buffer_size) (mkMessage 0 0 0 0 0 0)).

Lemma empty_mq_rep : fq_rep (FifoQueue:=spsc_fifo queue_buffer_size) empty_mq [].
Proof.
  exists 0%nat. apply (spsc_new_ok queue_buffer_size 20); [done|lia|].
  rewrite length_replicate. by apply Z2Nat.id.
Qed.

Lemma one_message_rep m :
  ∃ q, spsc_push queue_buffer_size m empty_mq = Some (true, q) ∧
    fq_rep (FifoQueue:=spsc_fifo queue_buffer_size) q [m].
Proof. by apply (fq_push_room (FifoQueue:=spsc_fifo queue_buffer_size) empty_mq [] m empty_mq_rep). Qed.

Lemma sender_batch_witness :
  let m := mkMessage 1 10 100 0 5 0 in
  ∃ q packets q', spsc_push queue_buffer_size m empty_mq = Some (true, q) ∧
    sendThread_round (replicate 64 (Sent 1)) (replicate (64 * (64 * 23)) (Sent 1)) q
    = Some (packets, encode_message m, true, q') ∧ concat packets = [m].
Proof.
  intros m. destruct (one_message_rep m) as (q & Hp & Hq).
  destruct (sender_batch (replicate 64 (Sent 1)) (replicate (64 * (64 * 23)) (Sent 1)) q [m] Hq)
    as (packets & q' & H1 & _ & H2 & _).
  - apply Forall_replicate. exists 0%nat. reflexivity.
  - apply Forall_replicate. exists 0%nat. reflexivity.
  - apply Nat.leb_le. reflexivity.
  - rewrite length_replicate. apply le_n.
  - exists q, packets, q'. split; [exact Hp|]. split; [exact H1|exact H2].
Defined.

Lemma reader_numbers_witness :
  let t := mkTrade 1 10 100 11 12 0 5 in
  ∃ h' q', read_ring 10 0 t (trade_ring_buffer_new false)
             (add_trades [t] (trade_ring_buffer_new true, ∅)).2 0 empty_mq = Some (h', 1, q') ∧
    handle_at 1 h' ∧ fq_rep (FifoQueue:=spsc_fifo queue_buffer_size) q' [mkMessage 1 10 100 0 5 0].
Proof.
  intros t.
  apply (reader_numbers 0 t (add_trades [t] (trade_ring_buffer_new true, ∅)).2 [t]
           (trade_ring_buffer_new false) 0 0 empty_mq []).
  - destruct ring_inv_new as [Hr Hh]. apply (add_trades_inv [t] [] _ _ Hr Hh). reflexivity.
  - split; reflexivity.
  - apply Nat.leb_le. reflexivity.
  - discriminate.
  - reflexivity.
  - apply empty_mq_rep.
  - reflexivity.
  - discriminate.
  - reflexivity.
Defined.
