(* ===== verification/Recovery.v ===== *)
(** Recovery of lost market data: [Retransmitter] of src/retransmitter.cpp
    keeps the messages of the last million sequence numbers, [Listener] of
    src/listener.cpp finds the gaps in the UDP feed and asks for them. *)

From S2P Require Import Prelude Types Fifo Spsc Wire MarketFeed.

(** * Retransmitter *)

Definition SIZE : Z := Z.shiftl 1 20.

(** [rt_buffer] is indexed by the low bits of the sequence number; a cell that
    was never written holds [junk]. [rt_pending] are the bytes received of a
    message that is not complete yet. *)
Record Retransmitter := mkRT { rt_buffer : gmap Z MarketDataMessage; rt_pending : bytes }.

Definition Retransmitter_new : Retransmitter := mkRT ∅ [].

Definition cell_of (seq : Z) : Z := Z.land seq (SIZE - 1).

Definition store (m : MarketDataMessage) (buf : gmap Z MarketDataMessage) : gmap Z MarketDataMessage :=
  <[cell_of (m_seq_num m) := m]> buf.

(** The inner loop of [storeThread]: every complete message in the buffer. *)
Fixpoint parse_messages (fuel : nat) (bs : bytes) (buf : gmap Z MarketDataMessage)
  : gmap Z MarketDataMessage * bytes :=
  match fuel with
  | O => (buf, bs)
  | S fuel =>
      if (Z.to_nat sizeof_MarketDataMessage <=? length bs)%nat
      then parse_messages fuel (drop (Z.to_nat sizeof_MarketDataMessage) bs)
             (store (decode_message (take (Z.to_nat sizeof_MarketDataMessage) bs)) buf)
      else (buf, bs)
  end.

(** One iteration of [storeThread] with [recv] returning [chunk]. *)
Definition storeThread_step (chunk : bytes) (r : Retransmitter) : Retransmitter :=
  let buffered := rt_pending r ++ chunk in
  let '(buf, leftover) := parse_messages (length buffered) buffered (rt_buffer r) in
  mkRT buf leftover.

(** The answer of [listenerThread] to a request. *)
Definition serve (junk : MarketDataMessage) (requested_seq : Z) (r : Retransmitter) : option MarketDataMessage :=
  let cached := default junk (rt_buffer r !! cell_of requested_seq) in
  if m_seq_num cached =? requested_seq then Some cached else None.

(** * Listener *)

(** [push] and [pop] of [Client::spsc_queue]. *)
Definition queue_push (m : Z) (q : spsc_queue Z) : option (bool * spsc_queue Z) := spsc_push queue_buffer_size m q.
Definition queue_pop (q : spsc_queue Z) : option (option Z * spsc_queue Z) := spsc_pop queue_buffer_size q.

Record Listener := mkListener { last_seq_num : Z; missing : spsc_queue Z }.

(** [for(missing = last+1; missing < seq; ++missing) queue.push(missing)];
    [n] is the number of iterations, [seq - last - 1]. *)
Fixpoint push_missing (n : nat) (from : Z) (q : spsc_queue Z) : option (spsc_queue Z) :=
  match n with
  | O => Some q
  | S n => '(_, q) ← queue_push from q; push_missing n (u64 (from + 1)) q
  end.

Definition listen_message (m : MarketDataMessage) (l : Listener) : option Listener :=
  let next := u64 (last_seq_num l + 1) in
  q ← (if next <? m_seq_num m then push_missing (Z.to_nat (m_seq_num m - next)) next (missing l)
       else Some (missing l));
  Some (mkListener (m_seq_num m) q).

(** The messages of a packet of [bytes_received] bytes. *)
Fixpoint listen_packet (ms : list MarketDataMessage) (l : Listener) : option Listener :=
  match ms with
  | [] => Some l
  | m :: ms => l ← listen_message m l; listen_packet ms l
  end.
Definition packet_messages (bs : bytes) : list MarketDataMessage :=
  decode_message <$> records (length bs / Z.to_nat sizeof_MarketDataMessage)
                       (Z.to_nat sizeof_MarketDataMessage) bs.

(** One iteration of [missing_packet_request] that finds a number in the queue:
    the number requested. *)
Definition request (l : Listener) : option (option Z * Listener) :=
  '(r, q) ← queue_pop (missing l);
  Some (r, mkListener (last_seq_num l) q).

(** * Reassembly *)

Lemma parse_records fuel : ∀ ms tail buf,
  Forall message_typed ms → (length tail < 64)%nat → (length ms ≤ fuel)%nat →
  parse_messages fuel (concat (encode_message <$> ms) ++ tail) buf = (foldl (λ b m, store m b) buf ms, tail).
Proof.
  assert (Z.to_nat sizeof_MarketDataMessage = 64%nat) as E by done.
  induction fuel as [|fuel IH]; intros ms tail buf Hm Ht Hf.
  { destruct ms; [done|simpl in Hf; lia]. }
  cbn [parse_messages]. rewrite E. destruct ms as [|m ms].
  { cbn [fmap list_fmap concat app foldl]. by rewrite (proj2 (Nat.leb_gt _ _)) by lia. }
  apply Forall_cons in Hm as [Hm Hms]. rewrite fmap_cons. cbn [concat]. rewrite <- app_assoc.
  pose proof (length_encode_message m) as Hl. rewrite E in Hl.
  rewrite length_app, Hl, (proj2 (Nat.leb_le _ _)) by lia.
  rewrite take_app_length', drop_app_length' by done. rewrite decode_encode_message by done.
  cbn [foldl]. apply IH; [done..|]. simpl in Hf. lia.
Qed.

(** Any stream is a sequence of whole messages and a shorter rest. *)
Lemma parse_split fuel : ∀ bs buf,
  (length bs ≤ fuel)%nat →
  let '(buf', rest) := parse_messages fuel bs buf in
  ∃ rs, bs = concat rs ++ rest ∧ Forall (λ r, length r = 64%nat) rs ∧ (length rest < 64)%nat ∧
    buf' = foldl (λ b r, store (decode_message r) b) buf rs.
Proof.
  assert (Z.to_nat sizeof_MarketDataMessage = 64%nat) as E by done.
  induction fuel as [|fuel IH]; intros bs buf Hf; cbn [parse_messages].
  { exists []. split_and!; try done; simpl; lia. }
  rewrite E. destruct (Nat.leb_spec 64 (length bs)) as [Hge|Hlt].
  2: { exists []. split_and!; done. }
  specialize (IH (drop 64 bs) (store (decode_message (take 64 bs)) buf)).
  destruct (parse_messages fuel (drop 64 bs) _) as [buf' rest].
  destruct IH as (rs & Hbs & Hrs & Hr & Hb); [rewrite length_drop; lia|].
  exists (take 64 bs :: rs). split_and!; try done.
  - cbn [concat]. rewrite <- app_assoc, <- Hbs. symmetry. apply take_drop.
  - constructor; [rewrite length_take; lia|done].
Qed.

Lemma foldl_store_decode (rs : list bytes) buf :
  foldl (λ b r, store (decode_message r) b) buf rs
  = foldl (λ b m, store m b) buf (decode_message <$> rs).
Proof. revert buf. induction rs as [|r rs IH]; intros buf; [done|]. cbn [foldl]. apply IH. Qed.

(** The state after a stream has been received, in one piece. *)
Definition received (bs : bytes) (r : Retransmitter) : Prop :=
  ∃ rs, bs = concat rs ++ rt_pending r ∧ Forall (λ x, length x = 64%nat) rs ∧
    (length (rt_pending r) < 64)%nat ∧ rt_buffer r = foldl (λ b m, store m b) ∅ (decode_message <$> rs).

Lemma storeThread_received bs r chunk :
  received bs r → received (bs ++ chunk) (storeThread_step chunk r).
Proof.
  intros (rs & Hbs & Hrs & Hp & Hb). unfold storeThread_step.
  pose proof (parse_split (length (rt_pending r ++ chunk)) (rt_pending r ++ chunk) (rt_buffer r) ltac:(lia)) as H.
  destruct (parse_messages _ _ _) as [buf rest]. destruct H as (rs' & Hsplit & Hrs' & Hrest & Hbuf).
  exists (rs ++ rs'). cbn [rt_pending rt_buffer]. split_and!; try done.
  - by rewrite Hbs, <- app_assoc, Hsplit, concat_app, <- app_assoc.
  - by apply Forall_app.
  - by rewrite Hbuf, Hb, foldl_store_decode, fmap_app, foldl_app.
Qed.

Lemma received_chunks chunks : ∀ bs r,
  received bs r → received (bs ++ concat chunks) (foldl (λ r c, storeThread_step c r) r chunks).
Proof.
  induction chunks as [|c chunks IH]; intros bs r Hr; cbn [foldl concat]; [by rewrite app_nil_r|].
  rewrite app_assoc. by apply IH, storeThread_received.
Qed.

Lemma received_unique bs r ms tail :
  received bs r → bs = concat (encode_message <$> ms) ++ tail → Forall message_typed ms → (length tail < 64)%nat →
  rt_buffer r = foldl (λ b m, store m b) ∅ ms ∧ rt_pending r = tail.
Proof.
  intros (rs & Hbs & Hrs & Hp & Hb) Heq Hm Ht.
  assert (Forall (λ x, length x = 64%nat) (encode_message <$> ms)) as Hl.
  { apply Forall_fmap, Forall_true. intros m. apply length_encode_message. }
  set (n := (length rs + length ms)%nat).
  pose proof (records_concat 64 rs (rt_pending r) n ltac:(lia) Hrs Hp ltac:(lia)) as H1.
  pose proof (records_concat 64 (encode_message <$> ms) tail n ltac:(lia) Hl Ht) as H2.
  rewrite <- Hbs in H1. rewrite <- Heq in H2. rewrite H1 in H2.
  rewrite H2 in Hbs by (rewrite length_fmap; lia). split.
  - rewrite Hb, (H2 ltac:(rewrite length_fmap; lia)). f_equal. rewrite <- list_fmap_compose.
    rewrite <- (list_fmap_id ms) at 2. apply list_fmap_ext. intros i m Hi. simpl.
    rewrite Forall_lookup in Hm. apply decode_encode_message, (Hm i m Hi).
  - rewrite Heq in Hbs. by apply app_inv_head in Hbs.
Qed.

Lemma stream_stored chunks ms tail :
  concat chunks = concat (encode_message <$> ms) ++ tail → Forall message_typed ms → (length tail < 64)%nat →
  let r := foldl (λ r c, storeThread_step c r) Retransmitter_new chunks in
  rt_buffer r = foldl (λ b m, store m b) ∅ ms ∧ rt_pending r = tail.
Proof.
  intros Hc Hm Ht r. apply (received_unique (concat chunks) r ms tail); try done.
  apply (received_chunks chunks [] Retransmitter_new). exists []. split_and!; try done. simpl. lia.
Qed.

(** Reassembly.  However TCP cuts the stream of messages into pieces, the
    retransmitter stores exactly the messages of the stream, in order, and
    keeps the incomplete rest; the rest is always shorter than a message, so
    that the receive buffer never fills up. *)
Theorem retransmitter_reassembles chunks ms tail :
  concat chunks = concat (encode_message <$> ms) ++ tail → Forall message_typed ms → (length tail < 64)%nat →
  let r := foldl (λ r c, storeThread_step c r) Retransmitter_new chunks in
  rt_buffer r = foldl (λ b m, store m b) ∅ ms ∧ rt_pending r = tail.
Proof. apply stream_stored. Qed.

(** * Serving *)

Lemma cell_of_mod s : cell_of s = s mod SIZE.
Proof. unfold cell_of, SIZE. rewrite land_mask by lia. by rewrite Z.shiftl_1_l. Qed.

(** The messages numbered from [first] on. *)
Definition numbered_from (first : Z) (ms : list MarketDataMessage) : Prop :=
  ∀ k m, ms !! k = Some m → m_seq_num m = first + Z.of_nat k.

Lemma store_lookup first ms : numbered_from first ms → ∀ k m buf,
  ms !! k = Some m → Z.of_nat (length ms) <= Z.of_nat k + SIZE →
  foldl (λ b m, store m b) buf ms !! cell_of (m_seq_num m) = Some m.
Proof.
  assert (0 < SIZE) as HS by done.
  induction ms as [|x ms IH] using rev_ind; intros Hn k m buf Hk Hw; [done|].
  rewrite foldl_app. cbn [foldl]. unfold store at 1. rewrite length_app in Hw. cbn [length] in Hw.
  apply lookup_app_Some in Hk as Hk'. destruct Hk' as [Hk'|[Hge Hk']].
  - apply lookup_lt_Some in Hk' as Hlt. rewrite lookup_insert_ne.
    + apply (IH ltac:(intros j y Hj; apply Hn; by apply lookup_app_l_Some) k m buf Hk'). lia.
    + rewrite !cell_of_mod, (Hn k m Hk).
      rewrite (Hn (length ms) x) by (by apply list_lookup_middle). intros Heq. symmetry in Heq.
      apply slot_neq in Heq; lia.
  - apply list_lookup_singleton_Some in Hk' as [_ <-]. apply lookup_insert_eq.
Qed.

Lemma store_elem cell m ms : ∀ buf,
  foldl (λ b m, store m b) buf ms !! cell = Some m → m ∈ ms ∨ buf !! cell = Some m.
Proof.
  induction ms as [|x ms IH]; intros buf H; cbn [foldl] in H; [by right|].
  apply IH in H as [H|H]; [left; by right|]. unfold store in H. rewrite lookup_insert in H.
  case_decide; [simplify_eq; left; left|by right].
Qed.

(** Serving.  After a feed numbered consecutively, a request for any of the
    last [2^20] numbers is answered with exactly that message, and a request
    for an older number, or one not yet sent, is not answered. *)
Theorem retransmitter_serves junk first ms s :
  numbered_from first ms →
  let r := mkRT (foldl (λ b m, store m b) ∅ ms) [] in
  (∀ k m, ms !! k = Some m → Z.of_nat (length ms) <= Z.of_nat k + SIZE →
     serve junk (first + Z.of_nat k) r = Some m) ∧
  ((∀ m, m ∈ ms → m_seq_num m ≠ s) → m_seq_num junk ≠ s → serve junk s r = None) ∧
  (∀ k, (k < length ms)%nat → Z.of_nat k + SIZE < Z.of_nat (length ms) →
     serve junk (first + Z.of_nat k) r = None).
Proof.
  intros Hn r. assert (0 < SIZE) as HS by done. split_and!.
  - intros k m Hk Hw. unfold serve. cbn [rt_buffer r]. pose proof (Hn k m Hk) as Hs. rewrite <- Hs.
    rewrite (store_lookup first ms Hn k m ∅ Hk Hw). cbn [from_option id]. by rewrite Z.eqb_refl.
  - intros Hno Hj. unfold serve. cbn [rt_buffer r].
    destruct (foldl (λ b m, store m b) ∅ ms !! cell_of s) as [m|] eqn:E; cbn [from_option id].
    + apply store_elem in E as [E|E]; [|by rewrite lookup_empty in E].
      rewrite (proj2 (Z.eqb_neq _ _)); [done|]. by apply Hno.
    + by rewrite (proj2 (Z.eqb_neq _ _)).
  - intros k Hk Hold. set (j := (k + Z.to_nat SIZE * ((length ms - 1 - k) / Z.to_nat SIZE))%nat).
    assert (0 < Z.to_nat SIZE)%nat as HSn by lia.
    pose proof (Nat.div_mod_eq (length ms - 1 - k) (Z.to_nat SIZE)) as Hdm.
    pose proof (Nat.mod_upper_bound (length ms - 1 - k) (Z.to_nat SIZE) ltac:(lia)) as Hmb.
    assert (1 ≤ (length ms - 1 - k) / Z.to_nat SIZE)%nat as Hd1.
    { apply Nat.div_le_lower_bound; lia. }
    destruct (lookup_lt_is_Some_2 ms j) as [m Hm]; [unfold j; lia|].
    unfold serve. cbn [rt_buffer r].
    assert (cell_of (first + Z.of_nat k) = cell_of (m_seq_num m)) as ->.
    { rewrite !cell_of_mod, (Hn j m Hm). unfold j. rewrite Nat2Z.inj_add, Nat2Z.inj_mul, Z2Nat.id by lia.
      rewrite Z.add_assoc, (Z.mul_comm SIZE). by rewrite Z_mod_plus_full. }
    rewrite (store_lookup first ms Hn j m ∅ Hm) by (unfold j; lia). cbn [from_option id].
    rewrite (proj2 (Z.eqb_neq _ _)); [done|]. rewrite (Hn j m Hm). unfold j. nia.
Qed.

(** * Gaps *)

(** The numbers skipped between the last number seen and the numbers received. *)
Fixpoint gaps (last : Z) (seqs : list Z) : list Z :=
  match seqs with
  | [] => []
  | s :: seqs => seqZ (last + 1) (s - last - 1) ++ gaps s seqs
  end.

(** Received in order: each number larger than the one before. *)
Fixpoint increasing (last : Z) (seqs : list Z) : Prop :=
  match seqs with
  | [] => True
  | s :: seqs => last < s ∧ increasing s seqs
  end.

Definition final_seq (last : Z) (seqs : list Z) : Z := List.last seqs last.

Lemma final_seq_cons last s seqs : final_seq last (s :: seqs) = final_seq s seqs.
Proof.
  unfold final_seq. revert last s. induction seqs as [|x seqs IH]; intros last s; [done|].
  change (List.last (s :: x :: seqs) last) with (List.last (x :: seqs) last). by rewrite !IH.
Qed.

Lemma final_seq_ge last seqs : increasing last seqs → last <= final_seq last seqs.
Proof.
  revert last. induction seqs as [|s seqs IH]; intros last Hi; [done|].
  destruct Hi as [Hlt Hi]. rewrite final_seq_cons. specialize (IH s Hi). lia.
Qed.

Lemma increasing_lower last seqs x : increasing last seqs → x ∈ seqs → last < x.
Proof.
  revert last. induction seqs as [|s seqs IH]; intros last Hi Hx; [by apply elem_of_nil in Hx|].
  destruct Hi as [Hlt Hi]. apply elem_of_cons in Hx as [->|Hx]; [done|]. specialize (IH s Hi Hx). lia.
Qed.

Lemma increasing_upper last seqs x : increasing last seqs → x ∈ seqs → x <= final_seq last seqs.
Proof.
  revert last. induction seqs as [|s seqs IH]; intros last Hi Hx; [by apply elem_of_nil in Hx|].
  destruct Hi as [Hlt Hi]. rewrite final_seq_cons. apply elem_of_cons in Hx as [->|Hx]; [by apply final_seq_ge|].
  by apply IH.
Qed.

Lemma elem_of_gaps last seqs x :
  increasing last seqs → x ∈ gaps last seqs ↔ last < x <= final_seq last seqs ∧ (x ∉ seqs).
Proof.
  revert last. induction seqs as [|s seqs IH]; intros last Hi; cbn [gaps].
  { unfold final_seq. simpl. set_solver by lia. }
  destruct Hi as [Hlt Hi]. rewrite final_seq_cons, elem_of_app, elem_of_seqZ, IH, not_elem_of_cons by done.
  pose proof (final_seq_ge s seqs Hi). pose proof (increasing_lower s seqs x Hi).
  split.
  - intros [Hx|[Hx Hn]].
    + split; [lia|]. split; [lia|]. intros Hin. specialize (H0 Hin). lia.
    + split; [lia|]. split; [lia|done].
  - intros [? [? ?]]. destruct (decide (x < s)); [left; lia|right]. split; [lia|done].
Qed.

Lemma gaps_length last seqs :
  increasing last seqs → Z.of_nat (length (gaps last seqs)) <= final_seq last seqs - last.
Proof.
  revert last. induction seqs as [|s seqs IH]; intros last Hi; cbn [gaps].
  { unfold final_seq. simpl. lia. }
  destruct Hi as [Hlt Hi]. rewrite final_seq_cons, length_app, length_seqZ. specialize (IH s Hi). lia.
Qed.

(** In whatever order the numbers come: one between the start and a received
    number is received or skipped, and only such numbers are skipped. *)
Lemma gaps_complete last seqs x s :
  last < x → s ∈ seqs → x <= s → (x ∉ seqs) → x ∈ gaps last seqs.
Proof.
  revert last. induction seqs as [|y seqs IH]; intros last Hx Hs Hle Hn; [by apply elem_of_nil in Hs|].
  apply not_elem_of_cons in Hn as [Hy Hn]. cbn [gaps]. rewrite elem_of_app, elem_of_seqZ.
  destruct (decide (x < y)); [left; lia|right]. apply IH; [lia| |done|done].
  apply elem_of_cons in Hs as [->|Hs]; [lia|done].
Qed.

Lemma gaps_between last seqs x :
  0 <= last → Forall (λ s, 0 <= s) seqs → x ∈ gaps last seqs → 0 < x ∧ ∃ s, s ∈ seqs ∧ x < s.
Proof.
  revert last. induction seqs as [|y seqs IH]; intros last H0 Hs Hx; cbn [gaps] in Hx; [by apply elem_of_nil in Hx|].
  apply Forall_cons in Hs as [Hy Hs]. rewrite elem_of_app, elem_of_seqZ in Hx. destruct Hx as [Hx|Hx].
  - split; [lia|]. exists y. split; [left|lia].
  - destruct (IH y Hy Hs Hx) as (? & s & ? & ?). split; [done|]. exists s. split; [by right|done].
Qed.

(** The numbers a new listener has to queue fit into its queue: always when
    the messages come in order, the first of them being number 0 or a later
    one; otherwise when there are not more of them than the queue holds. *)
Definition queue_holds (seqs : list Z) : Prop :=
  increasing (-1) seqs ∨ Z.of_nat (length (gaps 0 seqs)) <= queue_buffer_size - 1.

Lemma queue_holds_room seqs :
  queue_holds seqs → Forall (λ s, s < queue_buffer_size) seqs →
  Z.of_nat (length (gaps 0 seqs)) <= queue_buffer_size - 1.
Proof.
  assert (0 < queue_buffer_size) as HQ by done.
  assert (∀ l, increasing 0 l → Forall (λ s, s < queue_buffer_size) l →
            Z.of_nat (length (gaps 0 l)) <= queue_buffer_size - 1) as H.
  { intros l Hi Hs. pose proof (gaps_length 0 l Hi) as Hl. destruct l as [|y l _] using rev_ind; [simpl; lia|].
    apply Forall_app in Hs as [_ [Hy _]%Forall_cons]. unfold final_seq in Hl. rewrite last_last in Hl. lia. }
  intros [Hi|?] Hs; [|done]. destruct seqs as [|s seqs]; [simpl; lia|]. destruct Hi as [Hlt Hi].
  destruct (decide (s = 0)) as [->|Hne].
  - cbn [gaps]. rewrite seqZ_nil by lia. apply H; [done|]. by apply Forall_cons in Hs as [_ Hs].
  - apply H; [|done]. split; [lia|done].
Qed.

#[local] Abbreviation seq_rep := (fq_rep (FifoQueue:=spsc_fifo (T:=Z) queue_buffer_size)).

Lemma push_missing_ok n : ∀ from q l,
  seq_rep q l → Z.of_nat (length l + n) <= queue_buffer_size - 1 → 0 <= from → from + Z.of_nat n < 2 ^ 64 →
  ∃ q', push_missing n from q = Some q' ∧ seq_rep q' (l ++ seqZ from (Z.of_nat n)).
Proof.
  induction n as [|n IH]; intros from q l Hq Hroom H0 Hf.
  { exists q. cbn. by rewrite app_nil_r. }
  cbn [push_missing]. destruct (fq_push_room (FifoQueue:=spsc_fifo queue_buffer_size) q l from Hq)
    as (q1 & Hp & Hq1); [cbn [fq_bound spsc_fifo]; lia|].
  cbn [fq_push spsc_fifo] in Hp. unfold queue_push. rewrite Hp. cbn [mbind option_bind]. rewrite u64_small by mach.
  destruct (IH (from + 1) q1 (l ++ [from]) Hq1) as (q' & Hrun & Hq'); [rewrite length_app; simpl; lia|lia|lia|].
  exists q'. split; [done|]. rewrite <- app_assoc in Hq'. rewrite seqZ_cons by lia.
  by replace (Z.of_nat (S n)) with (Z.succ (Z.of_nat n)) by lia; rewrite Z.pred_succ.
Qed.

(** Whatever the order of the numbers, and whether or not some come twice. *)
Lemma listen_packet_ok ms : ∀ last q l,
  seq_rep q l → 0 <= last < 2 ^ 64 - 1 → Forall (λ m, 0 <= m_seq_num m < 2 ^ 64 - 1) ms →
  Z.of_nat (length l + length (gaps last (m_seq_num <$> ms))) <= queue_buffer_size - 1 →
  ∃ q', listen_packet ms (mkListener last q)
        = Some (mkListener (final_seq last (m_seq_num <$> ms)) q') ∧
    seq_rep q' (l ++ gaps last (m_seq_num <$> ms)).
Proof.
  induction ms as [|m ms IH]; intros last q l Hq H0 Hm Hroom.
  { exists q. cbn. by rewrite app_nil_r. }
  apply Forall_cons in Hm as [Hm Hms]. rewrite fmap_cons in *. rewrite final_seq_cons.
  cbn [gaps listen_packet] in *. rewrite length_app, length_seqZ in Hroom.
  unfold listen_message. cbn [last_seq_num missing]. rewrite (u64_small (last + 1)) by mach.
  assert (∃ q1, (if last + 1 <? m_seq_num m then push_missing (Z.to_nat (m_seq_num m - (last + 1))) (last + 1) q
                 else Some q) = Some q1 ∧ seq_rep q1 (l ++ seqZ (last + 1) (m_seq_num m - last - 1)))
    as (q1 & Hrun & Hq1).
  { destruct (Z.ltb_spec (last + 1) (m_seq_num m)) as [Hg|Hng].
    - destruct (push_missing_ok (Z.to_nat (m_seq_num m - (last + 1))) (last + 1) q l Hq) as (q1 & Hr & Hq1); [lia..|].
      exists q1. split; [done|]. replace (m_seq_num m - last - 1)
        with (Z.of_nat (Z.to_nat (m_seq_num m - (last + 1)))) by lia. done.
    - exists q. rewrite seqZ_nil by lia. by rewrite app_nil_r. }
  rewrite Hrun. cbn [mbind option_bind].
  destruct (IH (m_seq_num m) q1 _ Hq1) as (q' & Hrun' & Hq'); try done.
  { rewrite length_app, length_seqZ. lia. }
  exists q'. split; [done|]. by rewrite app_assoc.
Qed.

(** Gap detection.  From messages received in increasing order, the
    listener requests exactly the numbers that lie between the last number it
    knew and the last number received and were not received, each once, in
    increasing order, provided that its queue has room for them. *)
Theorem listener_finds_gaps ms last q l :
  fq_rep (FifoQueue:=spsc_fifo queue_buffer_size) q l → 0 <= last → increasing last (m_seq_num <$> ms) →
  final_seq last (m_seq_num <$> ms) < 2 ^ 64 - 1 →
  Z.of_nat (length l) + (final_seq last (m_seq_num <$> ms) - last) <= queue_buffer_size - 1 →
  ∃ q', listen_packet ms (mkListener last q) = Some (mkListener (final_seq last (m_seq_num <$> ms)) q') ∧
    fq_rep (FifoQueue:=spsc_fifo queue_buffer_size) q' (l ++ gaps last (m_seq_num <$> ms)) ∧
    ∀ x, x ∈ gaps last (m_seq_num <$> ms) ↔
         last < x <= final_seq last (m_seq_num <$> ms) ∧ (x ∉ (m_seq_num <$> ms)).
Proof.
  intros Hq H0 Hi Hmax Hroom. pose proof (gaps_length _ _ Hi) as Hg. pose proof (final_seq_ge _ _ Hi) as Hge.
  destruct (listen_packet_ok ms last q l Hq) as (q' & Hrun & Hq'); [lia| |lia|].
  - apply Forall_forall. intros m Hm. assert (m_seq_num m ∈ (m_seq_num <$> ms)) as Hin by (by apply list_elem_of_fmap_2).
    pose proof (increasing_lower _ _ _ Hi Hin). pose proof (increasing_upper _ _ _ Hi Hin). lia.
  - exists q'. split_and!; [done..|]. intros x. by apply elem_of_gaps.
Qed.

(** A received number is one of the feed. *)
Lemma feed_number ms m : numbered_from 0 ms → m ∈ ms → 0 <= m_seq_num m < Z.of_nat (length ms).
Proof. intros Hn [k Hk]%list_elem_of_lookup. rewrite (Hn k m Hk). apply lookup_lt_Some in Hk. lia. Qed.

Lemma feed_numbers ms got :
  numbered_from 0 ms → (∀ m, m ∈ got → m ∈ ms) →
  Forall (λ m, 0 <= m_seq_num m < Z.of_nat (length ms)) got.
Proof. intros Hn Hsub. apply Forall_forall. intros m Hm. apply feed_number; auto. Qed.

(** What a new listener makes of messages of a feed that the retransmitter can hold. *)
Lemma listener_queues ms got q :
  numbered_from 0 ms → Z.of_nat (length ms) <= SIZE → (∀ m, m ∈ got → m ∈ ms) →
  queue_holds (m_seq_num <$> got) → seq_rep q [] →
  ∃ q', listen_packet got (mkListener 0 q) = Some (mkListener (final_seq 0 (m_seq_num <$> got)) q') ∧
    seq_rep q' (gaps 0 (m_seq_num <$> got)).
Proof.
  intros Hn Hsize Hsub Hroom Hq. assert (queue_buffer_size = SIZE ∧ SIZE = 2 ^ 20) as [HQ HS] by done.
  pose proof (feed_numbers ms got Hn Hsub) as Hf.
  apply (listen_packet_ok got 0 q [] Hq); [lia| |].
  - eapply Forall_impl; [exact Hf|]. cbn. lia.
  - apply queue_holds_room; [done|]. apply Forall_fmap. eapply Forall_impl; [exact Hf|]. cbn. lia.
Qed.

Lemma gaps_range ms got x :
  numbered_from 0 ms → (∀ m, m ∈ got → m ∈ ms) →
  x ∈ gaps 0 (m_seq_num <$> got) → 0 < x < Z.of_nat (length ms).
Proof.
  intros Hn Hsub Hx. pose proof (feed_numbers ms got Hn Hsub) as Hf. rewrite Forall_forall in Hf.
  apply gaps_between in Hx as (H0 & s & (m & -> & Hm)%list_elem_of_fmap & Hlt).
  - specialize (Hf m Hm). lia.
  - lia.
  - apply Forall_fmap, Forall_forall. intros m Hm. specialize (Hf m Hm). cbn. lia.
Qed.

Lemma same_number ms m m' :
  numbered_from 0 ms → m ∈ ms → m' ∈ ms → m_seq_num m = m_seq_num m' → m = m'.
Proof.
  intros Hn [k Hk]%list_elem_of_lookup [k' Hk']%list_elem_of_lookup Heq.
  rewrite (Hn k m Hk), (Hn k' m' Hk') in Heq. assert (k = k') as -> by lia. by simplify_eq.
Qed.

Lemma serve_stored junk ms r m :
  numbered_from 0 ms → Z.of_nat (length ms) <= SIZE → rt_buffer r = foldl (λ b m, store m b) ∅ ms →
  m ∈ ms → serve junk (m_seq_num m) r = Some m.
Proof.
  intros Hn Hsize Hr [k Hk]%list_elem_of_lookup. unfold serve.
  rewrite Hr, (store_lookup 0 ms Hn k m ∅ Hk) by lia. cbn [from_option id]. by rewrite Z.eqb_refl.
Qed.

(** A message up to one received is received or skipped, unless it is number 0. *)
Lemma gaps_cover ms got m m' :
  numbered_from 0 ms → (∀ m, m ∈ got → m ∈ ms) → m ∈ ms → m' ∈ got → m_seq_num m <= m_seq_num m' →
  m ∈ got ∨ m_seq_num m ∈ gaps 0 (m_seq_num <$> got) ∨ m_seq_num m = 0.
Proof.
  intros Hn Hsub Hm Hm' Hle. destruct (decide (m_seq_num m = 0)) as [|Hnz]; [by right; right|].
  destruct (decide (m_seq_num m ∈ (m_seq_num <$> got))) as [Hin|Hnin].
  - left. apply list_elem_of_fmap in Hin as (m1 & Heq & Hm1).
    by rewrite (same_number ms m m1 Hn Hm (Hsub _ Hm1) Heq).
  - right. left. pose proof (feed_number ms m Hn Hm).
    apply (gaps_complete _ _ _ (m_seq_num m')); [lia|by apply list_elem_of_fmap_2|done|done].
Qed.

(** In order, nothing received is asked for. *)
Lemma gaps_not_received seqs x : increasing (-1) seqs → x ∈ seqs → (x ∉ gaps 0 seqs).
Proof.
  intros Hi Hx Hg. destruct seqs as [|s seqs]; [by apply elem_of_nil in Hx|]. destruct Hi as [Hlt Hi].
  assert (gaps 0 (s :: seqs) = seqZ 1 (s - 1) ++ gaps s seqs) as E by (cbn [gaps]; by replace (s - 0 - 1) with (s - 1) by lia).
  rewrite E, elem_of_app, elem_of_seqZ, (elem_of_gaps s seqs x Hi) in Hg.
  apply elem_of_cons in Hx as [->|Hx]; [lia|]. pose proof (increasing_lower s seqs x Hi Hx).
  destruct Hg as [?|[_ ?]]; [lia|done].
Qed.

(** A listener that misses messages asks for them and gets them. *)
Lemma recovery_ok junk ms got chunks q :
  numbered_from 0 ms → Forall message_typed ms → Z.of_nat (length ms) <= SIZE →
  concat chunks = concat (encode_message <$> ms) →
  (∀ m, m ∈ got → m ∈ ms) → queue_holds (m_seq_num <$> got) →
  fq_rep (FifoQueue:=spsc_fifo queue_buffer_size) q [] →
  let r := foldl (λ r c, storeThread_step c r) Retransmitter_new chunks in
  ∃ l requested, listen_packet got (mkListener 0 q) = Some l ∧
    fq_rep (FifoQueue:=spsc_fifo queue_buffer_size) (missing l) requested ∧
    (∀ m m', m ∈ ms → m' ∈ got → m_seq_num m <= m_seq_num m' →
       m ∈ got ∨ (m_seq_num m ∈ requested ∧ serve junk (m_seq_num m) r = Some m) ∨ m_seq_num m = 0) ∧
    (∀ s, s ∈ requested → s ≠ 0 ∧ ∃ m, m ∈ ms ∧ serve junk s r = Some m) ∧
    (increasing (-1) (m_seq_num <$> got) → ∀ m, m ∈ got → m_seq_num m ∉ requested).
Proof.
  intros Hn Hty Hsize Hc Hsub Hroom Hq r.
  destruct (stream_stored chunks ms []) as [Hbuf _]; [by rewrite app_nil_r|done|simpl; lia|].
  destruct (listener_queues ms got q Hn Hsize Hsub Hroom Hq) as (q' & Hrun & Hq').
  eexists _, _. split; [exact Hrun|]. cbn [missing]. split; [exact Hq'|]. split_and!.
  - intros m m' Hm Hm' Hle. destruct (gaps_cover ms got m m' Hn Hsub Hm Hm' Hle) as [?|[?|?]]; [by left| |by right; right].
    right. left. split; [done|by eapply serve_stored].
  - intros s Hs. pose proof (gaps_range ms got s Hn Hsub Hs) as Hr. split; [lia|].
    destruct (lookup_lt_is_Some_2 ms (Z.to_nat s)) as [m Hm]; [lia|]. exists m.
    split; [by eapply list_elem_of_lookup_2|]. replace s with (m_seq_num m) by (rewrite (Hn _ _ Hm); lia).
    apply (serve_stored junk ms); try done. by eapply list_elem_of_lookup_2.
  - intros Hi m Hm. apply gaps_not_received; [done|by apply list_elem_of_fmap_2].
Qed.

(** C10: Recovery, end to end.  A feed of at most [2^20] messages, numbered
    from 0, reaches the retransmitter completely over TCP, in whatever pieces.
    Any of its messages reach a new listener over UDP: in order, or in any
    order and also repeatedly as long as the numbers it skips fit into its
    queue.  Then every message up to any one received has been received, or
    its number is among those the listener requests and the retransmitter
    answers the request with it; except message 0, which is never requested,
    because a listener starts as if it had received it.  Every number
    requested is answered with a message of the feed, and what was received
    in order is not requested. *)
Theorem recovery_complete junk ms got chunks q :
  numbered_from 0 ms → Forall message_typed ms → Z.of_nat (length ms) <= SIZE →
  concat chunks = concat (encode_message <$> ms) →
  (∀ m, m ∈ got → m ∈ ms) → queue_holds (m_seq_num <$> got) →
  fq_rep (FifoQueue:=spsc_fifo queue_buffer_size) q [] →
  let r := foldl (λ r c, storeThread_step c r) Retransmitter_new chunks in
  ∃ l requested, listen_packet got (mkListener 0 q) = Some l ∧
    fq_rep (FifoQueue:=spsc_fifo queue_buffer_size) (missing l) requested ∧
    (∀ m m', m ∈ ms → m' ∈ got → m_seq_num m <= m_seq_num m' →
       m ∈ got ∨ (m_seq_num m ∈ requested ∧ serve junk (m_seq_num m) r = Some m) ∨ m_seq_num m = 0) ∧
    (∀ s, s ∈ requested → s ≠ 0 ∧ ∃ m, m ∈ ms ∧ serve junk s r = Some m) ∧
    (increasing (-1) (m_seq_num <$> got) → ∀ m, m ∈ got → m_seq_num m ∉ requested).
Proof. apply recovery_ok. Qed.

(** ** Witnesses *)

Definition msg (s : Z) : MarketDataMessage := mkMessage (s + 100) 5 101 0 7 s.

Lemma msg_typed s : is_u64 (s + 100) → is_u64 s → message_typed (msg s).
Proof. intros H1 H2. split; cbn; try done; mach. Qed.

Lemma feed_numbered : numbered_from 0 (msg <$> [0; 1; 2; 3]).
Proof.
  intros k m Hk. destruct k as [|[|[|[|k]]]]; simpl in Hk; try discriminate; injection Hk as <-; reflexivity.
Qed.

Lemma retransmitter_reassembles_witness :
  let r := foldl (λ r c, storeThread_step c r) Retransmitter_new
             [take 50 (encode_message (msg 1)); drop 50 (encode_message (msg 1)) ++ [9; 9]] in
  rt_buffer r = {[1 := msg 1]} ∧ rt_pending r = [9; 9].
Proof.
  apply (retransmitter_reassembles
           [take 50 (encode_message (msg 1)); drop 50 (encode_message (msg 1)) ++ [9; 9]] [msg 1] [9; 9]).
  - reflexivity.
  - constructor; [|constructor]. apply msg_typed; split; (discriminate || reflexivity).
  - apply Nat.ltb_lt. reflexivity.
Defined.

Lemma retransmitter_serves_witness :
  serve (msg 0) 2 (mkRT (foldl (λ b m, store m b) ∅ (msg <$> [0; 1; 2; 3])) []) = Some (msg 2).
Proof.
  destruct (retransmitter_serves (msg 0) 0 (msg <$> [0; 1; 2; 3]) 9 feed_numbered) as (H & _ & _).
  apply (H 2%nat (msg 2)); [reflexivity|discriminate].
Defined.

Definition empty_sq : spsc_queue Z := spsc_new (replicate (Z.to_nat queue_buffer_size) 0).

Lemma empty_sq_rep : fq_rep (FifoQueue:=spsc_fifo queue_buffer_size) empty_sq [].
Proof.
  exists 0%nat. apply (spsc_new_ok queue_buffer_size 20); [done|lia|].
  rewrite length_replicate. by apply Z2Nat.id.
Qed.

Lemma listener_finds_gaps_witness :
  ∃ q', listen_packet [msg 1; msg 4] (mkListener 0 empty_sq) = Some (mkListener 4 q') ∧
    fq_rep (FifoQueue:=spsc_fifo queue_buffer_size) q' [2; 3].
Proof.
  destruct (listener_finds_gaps [msg 1; msg 4] 0 empty_sq [] empty_sq_rep) as (q' & H1 & H2 & _).
  - discriminate.
  - split; [reflexivity|]. split; [reflexivity|exact I].
  - reflexivity.
  - discriminate.
  - exists q'. split; [exact H1|exact H2].
Defined.

(** Message 2 of four was lost and is recovered; 3 comes before 1, which is
    therefore asked for although it arrives. *)
Lemma recovery_complete_witness :
  let r := foldl (λ r c, storeThread_step c r) Retransmitter_new
             [concat (encode_message <$> (msg <$> [0; 1; 2; 3]))] in
  ∃ l requested, listen_packet [msg 0; msg 3; msg 1] (mkListener 0 empty_sq) = Some l ∧
    fq_rep (FifoQueue:=spsc_fifo queue_buffer_size) (missing l) requested ∧
    2 ∈ requested ∧ serve (msg 9) 2 r = Some (msg 2) ∧ (0 ∉ requested).
Proof.
  destruct (recovery_complete (msg 9) (msg <$> [0; 1; 2; 3]) [msg 0; msg 3; msg 1]
              [concat (encode_message <$> (msg <$> [0; 1; 2; 3]))] empty_sq) as (l & req & H1 & H2 & H3 & H4 & _).
  - exact feed_numbered.
  - repeat constructor; discriminate.
  - discriminate.
  - cbn [concat]. apply app_nil_r.
  - intros m Hm. apply elem_of_cons in Hm as [->|Hm]; [left|]. apply elem_of_cons in Hm as [->|Hm]; [do 3 right; left|].
    apply list_elem_of_singleton in Hm as ->. right. left.
  - right. discriminate.
  - exact empty_sq_rep.
  - exists l, req. split; [exact H1|]. split; [exact H2|].
    destruct (H3 (msg 2) (msg 3)) as [H|[[H H']|H]]; [do 2 right; left|right; left|discriminate| | |discriminate H].
    + repeat (apply elem_of_cons in H as [H|H]; [discriminate H|]). by apply elem_of_nil in H.
    + split; [exact H|]. split; [exact H'|]. intros H0. by destruct (H4 0 H0).
Defined.
