(* ===== verification/Feed.v ===== *)
(** The two threads of [MarketFeedReader] together (src/MarketFeedReader.cpp):
    the engine groups publish trades into their rings, [readThread] numbers
    and queues them, [sendThread] sends them; until the flag is reset, the
    reader sets [done], and the sender has emptied the queue. *)

From stdpp Require Import relations.
From S2P Require Import Prelude Types TradeRing Fifo Spsc Wire MarketFeed Recovery.

(** * State and steps *)

(** [mf_rings] are the shared rings, each with the trades published in it;
    [mf_udp] and [mf_tcp] what has left on the two sockets. *)
Record Feed := mkFeed {
  mf_rings : list (list Trade * ring_mem);
  mf_reader : MarketFeedReader;
  mf_flag : bool;
  mf_done : bool;
  mf_sending : bool;
  mf_udp : list (list MarketDataMessage);
  mf_tcp : bytes
}.

(** The constructor. *)
Definition MarketFeedReader_new (junk : list MarketDataMessage) : MarketFeedReader :=
  mkMFR 0 (spsc_new junk) (replicate (Z.to_nat total_ring_buffer_count) (trade_ring_buffer_new false)).

Definition Feed_new (junk : list MarketDataMessage) : Feed :=
  mkFeed (replicate (Z.to_nat total_ring_buffer_count) ([], ∅)) (MarketFeedReader_new junk) true false true [] [].

Definition set_reader (m : MarketFeedReader) (f : Feed) : Feed :=
  mkFeed (mf_rings f) m (mf_flag f) (mf_done f) (mf_sending f) (mf_udp f) (mf_tcp f).

(** A visit of [readThread] to ring [i], of at most ten reads; the sender and
    the engine may run between any two reads, so a visit may also be cut into
    shorter ones. *)
Definition read_visit (js : Z) (jt : Trade) (n i : nat) (f : Feed) : option Feed :=
  '(_, mem) ← mf_rings f !! i;
  h ← trb_vec (mf_reader f) !! i;
  '(h, seq, q) ← read_ring n js jt h mem (seq_num (mf_reader f)) (mf_queue (mf_reader f));
  Some (set_reader (mkMFR seq q (<[i := h]> (trb_vec (mf_reader f)))) f).

(** The reader sees the flag reset. *)
Definition read_end (f : Feed) : Feed :=
  mkFeed (mf_rings f) (mf_reader f) (mf_flag f) true (mf_sending f) (mf_udp f) (mf_tcp f).

(** One iteration of [sendThread], or its end. *)
Definition send_iter (udp tcp : list send_result) (f : Feed) : option Feed :=
  if negb (mf_sending f) then Some f
  else if mf_done f && spsc_empty (mf_queue (mf_reader f)) then
    Some (mkFeed (mf_rings f) (mf_reader f) (mf_flag f) (mf_done f) false (mf_udp f) (mf_tcp f))
  else
    '(ps, cs, alive, q) ← sendThread_round udp tcp (mf_queue (mf_reader f));
    Some (mkFeed (mf_rings f) (mkMFR (seq_num (mf_reader f)) q (trb_vec (mf_reader f))) (mf_flag f) (mf_done f)
            alive (mf_udp f ++ ps) (mf_tcp f ++ cs)).

(** What can go wrong on the way without any thread taking notice: the result
    of a push into the full queue is ignored, and at [EAGAIN] the rest of the
    bytes of a batch is given up. *)
Inductive trouble := QueueFull | SendAgain.

#[export] Instance trouble_eq_dec : EqDecision trouble.
Proof. solve_decision. Defined.

(** The items of a queue. *)
Definition spsc_count {T} (q : spsc_queue T) : Z := u64 (q_tail q - q_head q).

(** The messages numbered between [f] and [f'] do not fit into the queue of [f]. *)
Definition read_trouble (f f' : Feed) : list trouble :=
  if spsc_count (mf_queue (mf_reader f)) + (seq_num (mf_reader f') - seq_num (mf_reader f)) <=? queue_buffer_size - 1
  then [] else [QueueFull].

#[export] Instance send_result_eq_dec : EqDecision send_result.
Proof. solve_decision. Defined.

(** A socket that does not report [EAGAIN]. *)
Definition no_again (tcp : list send_result) : Prop := Retry ∉ tcp.

Definition send_trouble (tcp : list send_result) : list trouble := if decide (Retry ∈ tcp) then [SendAgain] else [].

(** All threads, in any order and whatever the system calls return, with the
    troubles of each step.  The reader keeps within a lap of the engine: a
    ring has received at most as many trades as it has slots. *)
Inductive feed_step (js : Z) (jt : Trade) : Feed → list trouble → Feed → Prop :=
| feed_publish i hist mem hist' mem' f : mf_rings f !! i = Some (hist, mem) → hist `prefix_of` hist' →
    ring_inv hist' mem' → Z.of_nat (length hist') <= RING_SIZE →
    feed_step js jt f [] (mkFeed (<[i := (hist', mem')]> (mf_rings f)) (mf_reader f) (mf_flag f) (mf_done f)
                         (mf_sending f) (mf_udp f) (mf_tcp f))
| feed_read n i f f' : mf_done f = false → (n ≤ 10)%nat →
    read_visit js jt n i f = Some f' → feed_step js jt f (read_trouble f f') f'
| feed_flag f : feed_step js jt f [] (mkFeed (mf_rings f) (mf_reader f) false (mf_done f) (mf_sending f) (mf_udp f) (mf_tcp f))
| feed_read_end f : mf_flag f = false → feed_step js jt f [] (read_end f)
| feed_send udp tcp f f' : send_iter udp tcp f = Some f' → feed_step js jt f (send_trouble tcp) f'.

(** A run with all its troubles. *)
Inductive feed_run (js : Z) (jt : Trade) (f0 : Feed) : list trouble → Feed → Prop :=
| feed_start : feed_run js jt f0 [] f0
| feed_more es f e f' : feed_run js jt f0 es f → feed_step js jt f e f' → feed_run js jt f0 (es ++ e) f'.

(** * The batch *)

(** [init_batch]: where the packets of a batch start, and their lengths. *)
Definition init_batch (cap : Z) : list (Z * Z) := (λ i, (i * MAX_MSG_SIZE, 0)) <$> seqZ 0 cap.

(** Message [k] of packet [p] is written inside the buffer and inside the
    packet's own part of it. *)
Lemma init_batch_layout cap p k base len :
  0 <= k < msg_per_packet → init_batch cap !! p = Some (base, len) →
  0 <= base + k * sizeof_MarketDataMessage ∧
  base + (k + 1) * sizeof_MarketDataMessage <= cap * MAX_MSG_SIZE ∧
  ∀ p' base' len', init_batch cap !! p' = Some (base', len') → p ≠ p' →
    base + (k + 1) * sizeof_MarketDataMessage <= base' ∨ base' + MAX_MSG_SIZE <= base + k * sizeof_MarketDataMessage.
Proof.
  assert (∀ j b n, init_batch cap !! j = Some (b, n) → b = Z.of_nat j * MAX_MSG_SIZE ∧ Z.of_nat j < cap) as Hl.
  { intros j b n. unfold init_batch. rewrite list_lookup_fmap.
    destruct (seqZ 0 cap !! j) as [x|] eqn:E; [|done]. apply lookup_seqZ in E as [-> Hj].
    intros [= <- _]. rewrite Z.add_0_l. split; [done|lia]. }
  intros Hk Hp. destruct (Hl _ _ _ Hp) as [-> Hlt].
  unfold MAX_MSG_SIZE, msg_per_packet, sizeof_MarketDataMessage in *. split_and!; [lia|lia|].
  intros p' base' len' Hp' Hne. destruct (Hl _ _ _ Hp') as [-> Hlt']. lia.
Qed.

(** * Sending *)

#[local] Abbreviation mq_rep := (fq_rep (FifoQueue:=spsc_fifo queue_buffer_size)).

(** Unless the sender gives up, every packet leaves. *)
Lemma udp_send_alive results : ∀ packets ps,
  udp_send results packets = (ps, true) → ps = packets.
Proof.
  induction results as [|[n| |] rs IH]; intros [|p packets] ps; cbn [udp_send]; try (intros [= <-]; done).
  - destruct (udp_send rs (drop n (p :: packets))) as [ps' alive] eqn:E. intros [= <- ->].
    rewrite (IH _ _ E). apply take_drop.
  - apply IH.
Qed.

Lemma udp_send_prefix results : ∀ packets, (udp_send results packets).1 `prefix_of` packets.
Proof.
  induction results as [|[n| |] rs IH]; intros [|p packets]; cbn [udp_send]; try apply prefix_nil; [|apply IH].
  destruct (IH (drop n (p :: packets))) as [k Hk]. destruct (udp_send rs (drop n (p :: packets))) as [ps' alive].
  cbn [fst] in *. exists k. by rewrite <- app_assoc, <- Hk, take_drop.
Qed.

Lemma tcp_send_alive results : ∀ bs cs,
  no_again results → tcp_send results bs = (cs, true) → cs = bs.
Proof.
  induction results as [|r rs IH]; intros [|b bs] cs Hn; cbn [tcp_send]; try congruence.
  apply not_elem_of_cons in Hn as [Hr Hn]. destruct r as [n| |]; [|done|done].
  destruct (tcp_send rs (drop n (b :: bs))) as [cs' alive] eqn:E. intros [= <- ->].
  rewrite (IH _ _ Hn E). apply take_drop.
Qed.

(** A round of the sender, whatever the network does. *)
Lemma send_round_ok udp tcp q l :
  mq_rep q l →
  ∃ ps cs alive q', sendThread_round udp tcp q = Some (ps, cs, alive, q') ∧ mq_rep q' (drop (64 * 23) l) ∧
    concat ps `prefix_of` take (64 * 23) l ∧ Forall (λ p, 1 ≤ length p ≤ 23)%nat ps ∧
    cs `prefix_of` concat (encode_message <$> concat ps) ∧
    (alive = true → concat ps = take (64 * 23) l ∧ (no_again tcp → cs = concat (encode_message <$> take (64 * 23) l))).
Proof.
  intros Hq. destruct (pack_batch_ok batch_capacity q l Hq) as (full & part & q' & Hrun & Hc & Hf & Hp & Hl & Hfull & Hq').
  change (batch_capacity * Z.to_nat msg_per_packet)%nat with (64 * 23)%nat in *.
  destruct (flush_ok batch_capacity full part Hf Hp Hl Hfull) as [Hcat Hall].
  assert ((flush batch_capacity full part).2 = concat (encode_message <$> take (64 * 23) l)) as Hbs
    by (unfold flush; cbn [snd]; by rewrite Hc).
  unfold sendThread_round. rewrite Hrun. cbn [mbind option_bind].
  destruct (flush batch_capacity full part) as [packets bs]. cbn [fst snd] in *. subst bs. rewrite Hc in Hcat.
  case_bool_decide as Hnil.
  { subst packets. exists [], [], true, q'. rewrite <- Hcat. split_and!; try done. }
  pose proof (udp_send_prefix udp packets) as Hpre. destruct (udp_send udp packets) as [ps alive] eqn:Eu. cbn [fst] in Hpre.
  destruct Hpre as [rest Hrest].
  assert (concat ps `prefix_of` take (64 * 23) l) as Hps by (rewrite <- Hcat, Hrest, concat_app; by eexists).
  assert (Forall (λ p, 1 ≤ length p ≤ 23)%nat ps) as Hsz by (rewrite Hrest in Hall; by apply Forall_app in Hall as [? _]).
  destruct alive; [|exists ps, [], false, q'; split_and!; try done; apply prefix_nil].
  pose proof (tcp_stream_prefix tcp (concat (encode_message <$> take (64 * 23) l))) as Htp.
  destruct (tcp_send tcp _) as [cs alive] eqn:Et. cbn [fst] in Htp. rewrite <- (udp_send_alive _ _ _ Eu) in Hcat.
  exists ps, cs, alive, q'. split_and!; try done; [by rewrite Hcat|]. intros ->.
  split; [done|]. intros Hn. by apply (tcp_send_alive _ _ _ Hn Et).
Qed.

(** * What the feed is *)

(** The trades of ring [i] in a list of trades tagged with their rings. *)
Definition of_ring (i : nat) (log : list (nat * Trade)) : list Trade := snd <$> filter (λ p, p.1 = i) log.

(** The messages of the feed: numbered in the order of reading. *)
Definition messages (log : list (nat * Trade)) : list MarketDataMessage := numbered 0 (snd <$> log).

Lemma of_ring_app i log1 log2 : of_ring i (log1 ++ log2) = of_ring i log1 ++ of_ring i log2.
Proof. unfold of_ring. by rewrite filter_app, fmap_app. Qed.

Lemma of_ring_tagged i j ts : of_ring i ((j,.) <$> ts) = if decide (i = j) then ts else [].
Proof.
  unfold of_ring. induction ts as [|t ts IH]; [by case_decide|]. rewrite fmap_cons. case_decide as E.
  - rewrite filter_cons_True by done. rewrite fmap_cons. by rewrite IH.
  - by rewrite filter_cons_False.
Qed.

Lemma length_of_rings log :
  Forall (λ p, p.1 < 2)%nat log → length log = (length (of_ring 0 log) + length (of_ring 1 log))%nat.
Proof.
  induction 1 as [|[i t] log Hi _ IH]; [done|]. unfold of_ring in *. cbn [fst] in Hi.
  destruct i as [|[|i]]; [| |lia].
  - rewrite filter_cons_True, filter_cons_False by done. cbn. rewrite IH. done.
  - rewrite filter_cons_False, filter_cons_True by done. cbn. rewrite IH. lia.
Qed.

Lemma messages_app log1 log2 :
  messages (log1 ++ log2) = messages log1 ++ numbered (Z.of_nat (length log1)) (snd <$> log2).
Proof.
  unfold messages, numbered. rewrite fmap_app, imap_app. f_equal. apply imap_ext. intros i t _. cbn. f_equal.
  rewrite length_fmap. lia.
Qed.

Lemma messages_numbered log : numbered_from 0 (messages log).
Proof.
  intros k m Hk. unfold messages, numbered in Hk. rewrite list_lookup_imap in Hk.
  destruct ((snd <$> log) !! k) as [t|]; [|done]. injection Hk as <-. done.
Qed.

(** After the troubles [es]: [lost] is what an aborted batch did not send. *)
Record feed_inv (es : list trouble) (f : Feed) (log : list (nat * Trade)) (lost queue : list MarketDataMessage) : Prop := {
  fi_rings i hist mem : mf_rings f !! i = Some (hist, mem) →
    ring_inv hist mem ∧ Z.of_nat (length hist) <= RING_SIZE ∧ of_ring i log `prefix_of` hist;
  fi_handles i h : trb_vec (mf_reader f) !! i = Some h → handle_at (length (of_ring i log)) h;
  fi_count : length (mf_rings f) = 2%nat ∧ length (trb_vec (mf_reader f)) = 2%nat;
  fi_tags : Forall (λ p, p.1 < 2)%nat log;
  fi_seq : seq_num (mf_reader f) = Z.of_nat (length log);
  fi_queue : mq_rep (mf_queue (mf_reader f)) queue;
  fi_order : concat (mf_udp f) ++ lost ++ queue `sublist_of` messages log;
  fi_sent : QueueFull ∉ es → concat (mf_udp f) ++ lost ++ queue = messages log;
  fi_packets : Forall (λ p, 1 ≤ length p ≤ 23)%nat (mf_udp f);
  fi_alive : mf_sending f = true → lost = [];
  fi_bytes : mf_tcp f `sublist_of` concat (encode_message <$> concat (mf_udp f));
  fi_tcp : SendAgain ∉ es → mf_sending f = true → mf_tcp f = concat (encode_message <$> concat (mf_udp f))
}.

Lemma log_bound es f log lost queue : feed_inv es f log lost queue → Z.of_nat (length log) <= 2 * RING_SIZE.
Proof.
  intros Hi. rewrite (length_of_rings log (fi_tags _ _ _ _ _ Hi)). destruct (fi_count _ _ _ _ _ Hi) as [Hc _].
  assert (∀ i, (i < 2)%nat → Z.of_nat (length (of_ring i log)) <= RING_SIZE) as H.
  { intros i Hi2. destruct (lookup_lt_is_Some_2 (mf_rings f) i) as [[hist mem] Hr]; [lia|].
    destruct (fi_rings _ _ _ _ _ Hi i hist mem Hr) as (_ & Hl & Hp). apply prefix_length in Hp. lia. }
  pose proof (H 0%nat ltac:(lia)). pose proof (H 1%nat ltac:(lia)). lia.
Qed.

Lemma feed_new_inv junk : Z.of_nat (length junk) = queue_buffer_size → feed_inv [] (Feed_new junk) [] [] [].
Proof.
  intros Hj. assert (∀ {A} (x y : A) i, replicate (Z.to_nat total_ring_buffer_count) x !! i = Some y → y = x) as Hrep
    by (intros A x y i [? _]%lookup_replicate; done).
  split; try done.
  - intros i hist mem Hr. apply Hrep in Hr. injection Hr as -> ->. split; [apply ring_inv_new|]. split; [done|apply prefix_nil].
  - intros i h Hh. apply Hrep in Hh as ->. done.
  - exists 0%nat. apply (spsc_new_ok queue_buffer_size 20); [done|lia|done].
Qed.

(** ** Reading *)

Lemma spsc_count_ok q (l : list MarketDataMessage) : mq_rep q l → spsc_count q = Z.of_nat (length l).
Proof.
  intros [h [Hh Ht Hr _ _]]. unfold spsc_count. rewrite Hh, Ht. unfold u64. rewrite <- Zminus_mod.
  rewrite Nat2Z.inj_add, Z.add_simpl_l. apply Z.mod_small. assert (queue_buffer_size = 2 ^ 20) by done. lia.
Qed.

Lemma queue_takes_sublist l ms : queue_takes l ms `sublist_of` ms.
Proof. unfold queue_takes. apply sublist_take. Qed.

(** What the visit leaves: everything numbered, unless a push failed. *)
Lemma read_visit_ok js jt n i es f log lost queue f' :
  feed_inv es f log lost queue → (n ≤ 10)%nat → read_visit js jt n i f = Some f' →
  ∃ ts, feed_inv (es ++ read_trouble f f') f' (log ++ ((i,.) <$> ts)) lost
          (queue ++ queue_takes queue (numbered (Z.of_nat (length log)) ts)).
Proof.
  intros Hi Hn. pose proof (log_bound _ _ _ _ _ Hi) as Hlb. unfold read_visit.
  destruct (mf_rings f !! i) as [[hist mem]|] eqn:Er; cbn [mbind option_bind]; [|done].
  destruct (trb_vec (mf_reader f) !! i) as [h|] eqn:Eh; cbn [mbind option_bind]; [|done].
  destruct (fi_rings _ _ _ _ _ Hi i hist mem Er) as (Hring & Hlen & Hp).
  assert (RING_SIZE = 2 ^ 20) as HR by done. apply prefix_length in Hp as Hpl.
  destruct (read_ring_takes n js jt mem hist h (length (of_ring i log)) (seq_num (mf_reader f)) (mf_queue (mf_reader f)) queue)
    as (h' & q' & Hrun & Hh' & Hq'); try done; try lia; [by apply (fi_handles _ _ _ _ _ Hi)|apply Hi|
      rewrite (fi_seq _ _ _ _ _ Hi); lia..|].
  set (ts := take n (drop (length (of_ring i log)) hist)) in *. rewrite Hrun. cbn [mbind option_bind]. intros [= <-].
  exists ts. apply lookup_lt_Some in Er as Hi2. destruct (fi_count _ _ _ _ _ Hi) as [Hc1 Hc2].
  assert (of_ring i (log ++ ((i,.) <$> ts)) = of_ring i log ++ ts) as Hsame
    by (rewrite of_ring_app, of_ring_tagged; by rewrite decide_True).
  assert (∀ j, j ≠ i → of_ring j (log ++ ((i,.) <$> ts)) = of_ring j log) as Hother
    by (intros j Hj; rewrite of_ring_app, of_ring_tagged; rewrite decide_False by done; apply app_nil_r).
  assert (messages (log ++ ((i,.) <$> ts)) = messages log ++ numbered (Z.of_nat (length log)) ts) as Hmsg.
  { rewrite messages_app. f_equal. f_equal. rewrite <- list_fmap_compose. rewrite <- (list_fmap_id ts) at 2. by apply list_fmap_ext. }
  destruct (Hi) as [H1 H2 H3 H4 H5 H6 H7 H8 H9 H10 H11 H12].
  split; cbn [mf_rings mf_reader mf_sending mf_udp mf_tcp trb_vec seq_num mf_queue set_reader]; try done.
  - intros j hj memj Hj. destruct (decide (j = i)) as [->|Hne]; [|rewrite Hother by done; by apply H1].
    rewrite Er in Hj. injection Hj as <- <-. rewrite Hsame. split_and!; try done.
    destruct Hp as [rest ->]. subst ts. rewrite drop_app_length. apply prefix_app, prefix_take.
  - intros j hj Hj. apply list_lookup_insert_Some in Hj as [(-> & <- & _)|[Hne Hj]].
    + by rewrite Hsame, length_app.
    + rewrite Hother by done. by apply H2.
  - split; [done|]. by rewrite length_insert.
  - apply Forall_app. split; [done|]. apply Forall_fmap, Forall_forall. intros t _. cbn. lia.
  - rewrite H5, length_app, length_fmap. lia.
  - by rewrite <- H5.
  - rewrite Hmsg, !app_assoc. apply sublist_app; [by rewrite <- app_assoc|apply queue_takes_sublist].
  - intros [Hes Hread]%not_elem_of_app. rewrite Hmsg, <- H8, !app_assoc by done. f_equal. apply queue_takes_all.
    unfold read_trouble in Hread. cbn [mf_reader set_reader seq_num] in Hread. rewrite (spsc_count_ok _ _ H6) in Hread.
    rewrite numbered_length. destruct (Z.leb_spec (Z.of_nat (length queue) + (seq_num (mf_reader f) + Z.of_nat (length ts) - seq_num (mf_reader f)))
      (queue_buffer_size - 1)); [lia|]. exfalso. apply Hread. left.
  - intros Hes. apply H12. by apply not_elem_of_app in Hes as [? _].
Qed.

(** ** Sending *)

Lemma send_trouble_none tcp : SendAgain ∉ send_trouble tcp → no_again tcp.
Proof. unfold send_trouble, no_again. case_decide; [|done]. intros Hn. destruct Hn. left. Qed.

Lemma feed_inv_more es e f log lost queue : feed_inv es f log lost queue → feed_inv (es ++ e) f log lost queue.
Proof.
  intros [H1 H2 H3 H4 H5 H6 H7 H8 H9 H10 H11 H12]. split; try done.
  - intros [? _]%not_elem_of_app. auto.
  - intros [? _]%not_elem_of_app. auto.
Qed.

Lemma send_iter_ok udp tcp es f log lost queue :
  feed_inv es f log lost queue →
  ∃ f' lost' queue', send_iter udp tcp f = Some f' ∧ feed_inv (es ++ send_trouble tcp) f' log lost' queue'.
Proof.
  intros Hi. pose proof Hi as [H1 H2 H3 H4 H5 H6 H7 H8 H9 H10 H11 H12]. unfold send_iter.
  assert (∀ t, t ∉ es ++ send_trouble tcp → t ∉ es) as Hes by (intros t [? _]%not_elem_of_app; done).
  destruct (mf_sending f) eqn:Es; cbn [negb].
  2: { exists f, lost, queue. split; [done|by apply feed_inv_more]. }
  destruct (mf_done f && _) eqn:Ed.
  { eexists _, lost, queue. split; [done|]. by apply (feed_inv_more _ (send_trouble tcp)) in Hi as []. }
  rewrite (H10 eq_refl) in *. cbn [app] in H7, H8.
  destruct (send_round_ok udp tcp _ queue H6) as (ps & cs & alive & q' & -> & Hq' & Hpre & Hsz & Hcs & Hal).
  cbn [mbind option_bind]. destruct Hpre as [lost' Hl].
  assert (concat (mf_udp f ++ ps) ++ lost' ++ drop (64 * 23) queue = concat (mf_udp f) ++ queue) as Hall
    by (rewrite concat_app, <- app_assoc, (app_assoc (concat ps)), <- Hl, take_drop; done).
  eexists _, lost', (drop (64 * 23) queue). split; [done|].
  split; cbn [mf_rings mf_reader mf_sending mf_udp mf_tcp trb_vec seq_num mf_queue]; try done.
  - by rewrite Hall.
  - intros Ht. rewrite Hall. by apply H8, Hes.
  - by apply Forall_app.
  - intros ->. destruct (Hal eq_refl) as [Hps _]. rewrite Hps in Hl.
    apply (f_equal length) in Hl. rewrite length_app in Hl. destruct lost'; [done|simpl in Hl; lia].
  - rewrite concat_app, fmap_app, concat_app. apply sublist_app; [done|].
    destruct Hcs as [rest ->]. by apply sublist_inserts_r.
  - intros Ht ->. destruct (Hal eq_refl) as [Hps Hc]. apply not_elem_of_app in Ht as [Ht1 Ht2].
    rewrite concat_app, fmap_app, concat_app, Hps, (Hc (send_trouble_none _ Ht2)). by rewrite (H12 Ht1 eq_refl).
Qed.

Lemma feed_step_inv js jt es f e f' log lost queue :
  feed_step js jt f e f' → feed_inv es f log lost queue →
  ∃ log' lost' queue', feed_inv (es ++ e) f' log' lost' queue' ∧ log `prefix_of` log'.
Proof.
  intros Hst Hi. destruct Hst as [i hist mem hist' mem' f Hr Hp Hring Hlen|n i f f' Hd Hn Hrun|f|f Hfl|udp tcp f f' Hrun].
  - exists log, lost, queue. split; [|done]. rewrite app_nil_r.
    destruct Hi as [H1 H2 H3 H4 H5 H6 H7 H8 H9 H10 H11 H12]. split; try done.
    + intros j hj memj Hj. apply list_lookup_insert_Some in Hj as [(-> & [= <- <-] & _)|[_ Hj]]; [|by apply H1].
      destruct (H1 _ _ _ Hr) as (_ & _ & Hp1). split_and!; [done|done|by etrans].
    + cbn [mf_rings]. by rewrite length_insert.
  - destruct (read_visit_ok js jt n i es f log lost queue f' Hi Hn Hrun) as (ts & Hi').
    eexists _, _, _. split; [done|]. by eexists.
  - exists log, lost, queue. split; [|done]. rewrite app_nil_r. by destruct Hi.
  - exists log, lost, queue. split; [|done]. rewrite app_nil_r. by destruct Hi.
  - destruct (send_iter_ok udp tcp es f log lost queue Hi) as (f2 & lost' & queue' & Hrun' & Hi').
    rewrite Hrun in Hrun'. injection Hrun' as <-. by eexists _, _, _.
Qed.

Lemma feed_reachable_inv js jt junk es f :
  Z.of_nat (length junk) = queue_buffer_size → feed_run js jt (Feed_new junk) es f →
  ∃ log lost queue, feed_inv es f log lost queue.
Proof.
  intros Hj Hst. induction Hst as [|es f e f' _ (log & lost & queue & Hi) Hs].
  { eexists _, _, _. by apply feed_new_inv. }
  destruct (feed_step_inv _ _ _ _ _ _ _ _ _ Hs Hi) as (? & ? & ? & ? & _). eauto.
Qed.

(** The market feed, whatever the interleaving of the engine groups, the
    reader and the sender and whatever the network does: the messages that
    left in UDP packets, then those of an aborted batch, then those still
    queued are messages of the trades read so far, in order and each at most
    once, and what left over TCP left over UDP, in the same order.  The trades
    read so far are for each ring its first ones, in the order of publication,
    and they are numbered 0, 1, 2 and so on.  Unless a push found the queue
    full, the messages are all of these; as long as the sender runs, no batch
    was aborted; and unless a send reported [EAGAIN] the TCP stream then
    carries the same messages as the packets. *)
Theorem feed_complete js jt junk es f :
  Z.of_nat (length junk) = queue_buffer_size → feed_run js jt (Feed_new junk) es f →
  ∃ log lost queue,
    fq_rep (FifoQueue:=spsc_fifo queue_buffer_size) (mf_queue (mf_reader f)) queue ∧
    concat (mf_udp f) ++ lost ++ queue `sublist_of` messages log ∧
    mf_tcp f `sublist_of` concat (encode_message <$> concat (mf_udp f)) ∧
    (QueueFull ∉ es → concat (mf_udp f) ++ lost ++ queue = messages log) ∧ numbered_from 0 (messages log) ∧
    (∀ i hist mem, mf_rings f !! i = Some (hist, mem) → of_ring i log `prefix_of` hist) ∧
    Forall (λ p, 1 ≤ length p ≤ 23)%nat (mf_udp f) ∧
    (mf_sending f = true → lost = []) ∧
    (SendAgain ∉ es → mf_sending f = true → mf_tcp f = concat (encode_message <$> concat (mf_udp f))).
Proof.
  intros Hj Hst. destruct (feed_reachable_inv js jt junk es f Hj Hst) as (log & lost & queue & Hi).
  exists log, lost, queue. split_and!; apply Hi || apply messages_numbered.
Qed.

(** ** The end of the day *)

(** The sender with a sequence of networks. *)
Definition run_sender (nets : list (list send_result * list send_result)) (f : Feed) : option Feed :=
  foldl (λ (o : option Feed) n, f ← o; send_iter n.1 n.2 f) (Some f) nets.

(** A network that takes something with every call. *)
Definition good_net (n : list send_result * list send_result) : Prop :=
  progress n.1 ∧ progress n.2 ∧ (batch_capacity ≤ length n.1)%nat ∧ (64 * (64 * 23) ≤ length n.2)%nat.

Lemma run_sender_ended nets f : mf_sending f = false → run_sender nets f = Some f.
Proof.
  intros Hs. unfold run_sender. induction nets as [|n nets IH]; [done|]. cbn [foldl mbind option_bind].
  unfold send_iter at 2. by rewrite Hs.
Qed.

Lemma send_round_good udp tcp q l :
  mq_rep q l → good_net (udp, tcp) →
  ∃ packets q', sendThread_round udp tcp q = Some (packets, concat (encode_message <$> take (64 * 23) l), true, q') ∧
    mq_rep q' (drop (64 * 23) l) ∧ concat packets = take (64 * 23) l.
Proof.
  intros Hq (Hu & Ht & Hlu & Hlt). destruct (send_round_ok udp tcp q l Hq) as (ps & cs & alive & q' & Hrun & Hq' & _ & _ & _ & Hal).
  assert (no_again tcp) as Hna.
  { intros Hin. unfold progress in Ht. rewrite Forall_forall in Ht. by destruct (Ht _ Hin). }
  exists ps, q'. destruct (pack_batch_ok batch_capacity q l Hq) as (full & part & q1 & Hp & Hc & Hf & Hpa & Hl & Hfull & _).
  change (batch_capacity * Z.to_nat msg_per_packet)%nat with (64 * 23)%nat in *.
  assert (alive = true) as ->; [|destruct (Hal eq_refl) as [Hps Hcs]; by rewrite Hrun, (Hcs Hna)].
  unfold sendThread_round in Hrun. rewrite Hp in Hrun. cbn [mbind option_bind] in Hrun.
  pose proof (flush_length batch_capacity full part Hl) as Hlen.
  assert ((flush batch_capacity full part).2 = concat (encode_message <$> take (64 * 23) l)) as Hbs
    by (unfold flush; cbn [snd]; by rewrite Hc).
  destruct (flush batch_capacity full part) as [packets bs]. cbn [fst snd] in *. subst bs.
  case_bool_decide; [by injection Hrun|]. rewrite udp_send_all in Hrun by (done || lia).
  rewrite tcp_send_all in Hrun; [by injection Hrun|done|].
  rewrite length_encoded, length_take. change (Z.to_nat sizeof_MarketDataMessage) with 64%nat. lia.
Qed.

Lemma run_sender_drains nets : ∀ k f l,
  mf_done f = true → mf_sending f = true → mq_rep (mf_queue (mf_reader f)) l → Forall good_net nets →
  (length l ≤ 1472 * k)%nat → (k < length nets)%nat →
  ∃ f', run_sender nets f = Some f' ∧ mf_sending f' = false ∧ concat (mf_udp f') = concat (mf_udp f) ++ l ∧
    mf_tcp f' = mf_tcp f ++ concat (encode_message <$> l).
Proof.
  induction nets as [|[udp tcp] nets IH]; intros k f l Hd Hs Hq Hn Hk Hlen; [simpl in Hlen; lia|].
  apply Forall_cons in Hn as [Hnet Hn]. unfold run_sender. cbn [foldl mbind option_bind fst snd]. unfold send_iter at 2.
  rewrite Hs, Hd. cbn [negb andb]. destruct Hq as [h Hq]. rewrite (spsc_empty_ok queue_buffer_size 20 ltac:(done) ltac:(lia) h _ l Hq).
  case_bool_decide as Hl.
  - subst l. fold (run_sender nets). eexists. split; [by apply run_sender_ended|]. cbn. by rewrite !app_nil_r.
  - destruct (send_round_good udp tcp _ l (ex_intro _ h Hq) Hnet) as (ps & q' & -> & Hq' & Hps). cbn [mbind option_bind].
    destruct k as [|k]; [destruct l; [done|simpl in Hk; lia]|]. cbn [length] in Hlen.
    match goal with |- context [foldl _ (Some ?g)] => set (f1 := g) end.
    destruct (IH k f1 (drop (64 * 23) l)) as (f' & Hrun & Hs' & Hu & Ht); try done; [rewrite length_drop; lia|lia|].
    exists f'. split; [exact Hrun|]. split; [done|]. rewrite Hu, Ht. subst f1. cbn [mf_udp mf_tcp].
    rewrite concat_app, <- !app_assoc, Hps, take_drop. split; [done|]. f_equal.
    rewrite <- concat_app, <- fmap_app. by rewrite take_drop.
Qed.

(** After the reader has stopped the sender finishes: over a network that
    takes something with every call, 714 iterations are always enough to send
    every message queued, and to leave the loop.  Unless a push has found the
    queue full these are all the messages read, and unless a send has reported
    [EAGAIN] the TCP stream carries them all, too. *)
Theorem feed_drains js jt junk es f nets :
  Z.of_nat (length junk) = queue_buffer_size → feed_run js jt (Feed_new junk) es f →
  mf_done f = true → mf_sending f = true → Forall good_net nets → (714 ≤ length nets)%nat →
  ∃ log f', run_sender nets f = Some f' ∧ mf_sending f' = false ∧
    concat (mf_udp f') `sublist_of` messages log ∧
    (QueueFull ∉ es → concat (mf_udp f') = messages log) ∧
    (SendAgain ∉ es → mf_tcp f' = concat (encode_message <$> concat (mf_udp f'))) ∧
    (∀ i hist mem, mf_rings f !! i = Some (hist, mem) → of_ring i log `prefix_of` hist).
Proof.
  intros Hj Hst Hd Hs Hn Hlen. destruct (feed_reachable_inv js jt junk es f Hj Hst) as (log & lost & queue & Hi).
  pose proof Hi as [H1 H2 H3 H4 H5 H6 H7 H8 H9 H10 H11 H12]. rewrite (H10 Hs) in H7, H8. cbn [app] in H7, H8.
  pose proof (fq_bounded (FifoQueue:=spsc_fifo queue_buffer_size) _ _ H6) as Hb.
  destruct (run_sender_drains nets 713 f queue Hd Hs H6 Hn) as (f' & Hrun & Hs' & Hu & Ht); [|lia|].
  { change (fq_bound (FifoQueue:=spsc_fifo (T:=MarketDataMessage) queue_buffer_size)) with 1048575 in Hb. lia. }
  exists log, f'. split_and!; try done; [by rewrite Hu..| |].
  - intros Hes. by rewrite Ht, (H12 Hes Hs), Hu, fmap_app, concat_app.
  - intros i hist mem Hr. by apply (H1 i hist mem).
Qed.

(** ** Examples *)

Definition junk_mq : list MarketDataMessage := replicate (Z.to_nat queue_buffer_size) (mkMessage 0 0 0 0 0 0).

Lemma junk_mq_length : Z.of_nat (length junk_mq) = queue_buffer_size.
Proof. unfold junk_mq. rewrite length_replicate. by apply Z2Nat.id. Qed.

Definition day_trade : Trade := mkTrade 1 10 100 11 12 0 5.
Definition day_ring : ring_mem := (add_trades [day_trade] (trade_ring_buffer_new true, ∅)).2.

Lemma day_ring_inv : ring_inv [day_trade] day_ring.
Proof. destruct ring_inv_new as [Hr Hh]. by apply (add_trades_inv [day_trade] [] _ _ Hr Hh). Qed.

(** One trade is published and read, the flag is reset and the reader ends. *)
Lemma day_read : ∃ f, feed_run 0 day_trade (Feed_new junk_mq) [] f ∧ mf_done f = true ∧ mf_sending f = true ∧
  seq_num (mf_reader f) = 1.
Proof.
  set (f0 := Feed_new junk_mq).
  set (f1 := mkFeed (<[0%nat := ([day_trade], day_ring)]> (mf_rings f0)) (mf_reader f0) true false true [] []).
  destruct (read_ring_ok 1 0 day_trade day_ring [day_trade] (trade_ring_buffer_new false) 0 0
              (mf_queue (mf_reader f0)) []) as (h & q & Hrun & _); try done.
  { apply day_ring_inv. } { simpl. lia. }
  { apply (fi_queue _ _ _ _ _ (feed_new_inv junk_mq junk_mq_length)). }
  set (f2 := set_reader (mkMFR 1 q (<[0%nat := h]> (trb_vec (mf_reader f1)))) f1).
  exists (read_end (mkFeed (mf_rings f2) (mf_reader f2) false false true [] [])). split; [|done].
  apply (feed_more _ _ _ [] (mkFeed (mf_rings f2) (mf_reader f2) false false true [] []) []); [|by apply feed_read_end].
  apply (feed_more _ _ _ [] f2 []); [|apply feed_flag]. apply (feed_more _ _ _ [] f1 (read_trouble f1 f2)).
  - apply (feed_more _ _ _ [] f0 []); [constructor|].
    apply (feed_publish _ _ 0 [] ∅ [day_trade] day_ring f0); [done|apply prefix_nil|apply day_ring_inv|done].
  - apply (feed_read _ _ 1 0 f1 f2); [done|lia|].
    unfold read_visit. change (mf_rings f1 !! 0%nat) with (Some ([day_trade], day_ring)).
    change (trb_vec (mf_reader f1) !! 0%nat) with (Some (trade_ring_buffer_new false)). cbn [mbind option_bind].
    change (seq_num (mf_reader f1)) with 0. change (mf_queue (mf_reader f1)) with (mf_queue (mf_reader f0)).
    by rewrite Hrun.
Qed.

Lemma feed_complete_witness :
  ∃ f log lost queue, concat (mf_udp f) ++ lost ++ queue = messages log ∧ seq_num (mf_reader f) = 1.
Proof.
  destruct day_read as (f & Hst & _ & _ & Hseq).
  destruct (feed_complete 0 day_trade junk_mq [] f junk_mq_length Hst) as (log & lost & queue & _ & _ & _ & H & _).
  exists f, log, lost, queue. split; [apply H, not_elem_of_nil|exact Hseq].
Defined.

Definition steady_net : list send_result * list send_result :=
  (replicate 64 (Sent 1), replicate (64 * (64 * 23)) (Sent 1)).

Lemma steady_trouble : send_trouble steady_net.2 = [].
Proof.
  unfold send_trouble. case_decide as Hin; [|done]. unfold steady_net in Hin. cbn [snd] in Hin.
  by apply elem_of_replicate in Hin as [? _].
Qed.

Lemma steady_net_good : good_net steady_net.
Proof.
  split_and!; cbn [fst snd steady_net]; [apply Forall_replicate; by exists 0%nat..| |]; rewrite length_replicate; [done|lia].
Qed.

Lemma feed_drains_witness :
  ∃ f log f', seq_num (mf_reader f) = 1 ∧ run_sender (replicate 714 steady_net) f = Some f' ∧ mf_sending f' = false ∧
    concat (mf_udp f') = messages log.
Proof.
  destruct day_read as (f & Hst & Hd & Hs & Hseq).
  destruct (feed_drains 0 day_trade junk_mq [] f (replicate 714 steady_net) junk_mq_length Hst Hd Hs)
    as (log & f' & H1 & H2 & _ & H3 & _).
  - apply Forall_replicate, steady_net_good.
  - rewrite length_replicate. apply Nat.le_refl.
  - exists f, log, f'. split; [exact Hseq|]. split; [exact H1|]. split; [exact H2|apply H3, not_elem_of_nil].
Defined.
