(* ===== verification/Retransmit.v ===== *)
(** The threads around the retransmission buffer, with what their system
    calls return as arguments: [storeThread] and the poll loop
    [listenerThread] of src/retransmitter.cpp, and the two threads of the
    client, [listener] and [missing_packet_request] of src/listener.cpp. *)

From S2P Require Import Prelude Types Fifo Spsc Wire MarketFeed Recovery.

(** What [recv] returns: bytes (at least one), 0 at the end of the stream,
    [EAGAIN]/[EWOULDBLOCK], [EINTR], another error. *)
Inductive recv_result := RBytes (bs : bytes) | REnd | RAgain | RIntr | RError.

(** * storeThread *)

(** [batch.capacity * MAX_MSG_SIZE], with the capacity set by [init_batch(64)]. *)
Definition max_buffer_size : Z := 64 * MAX_MSG_SIZE.

(** What the next [recv] may deliver at most. *)
Definition recv_room (r : Retransmitter) : Z := max_buffer_size - Z.of_nat (length (rt_pending r)).

(** The loop over the results of [recv]; [true] when it has been left, that
    is, when [done] is set. *)
Fixpoint storeThread (results : list recv_result) (r : Retransmitter) : bool * Retransmitter :=
  match results with
  | [] => (false, r)
  | RBytes chunk :: results => storeThread results (storeThread_step chunk r)
  | RAgain :: results | RIntr :: results => storeThread results r
  | RError :: _ | REnd :: _ => (true, r)
  end.

(** * listenerThread *)

(** An entry of [poll_fds]: descriptor and whether [revents] has [POLLIN]. *)
Record pollfd := mkPoll { fd : Z; pollin : bool }.

(** The poll list, whose first entry is the listening socket, the answers sent
    so far, with the descriptor, and the descriptors accepted and closed. *)
Record rt_server := mkRTS {
  poll_fds : list pollfd;
  rt_answers : list (Z * bytes);
  rt_accepted : list Z;
  rt_closed : list Z
}.

Definition rt_server_new (sockfd_tcp_send : Z) : rt_server := mkRTS [mkPoll sockfd_tcp_send false] [] [] [].

(** What happens in one round: the result of [poll], with the events it
    reports and [errno = EINTR] for a negative result, the result of [accept],
    and the results of [recv] by descriptor. *)
Record poll_input := mkInput {
  in_activity : Z;
  in_revents : list bool;
  in_eintr : bool;
  in_new_fd : Z;
  in_recv : Z → recv_result
}.

Definition set_poll_fds (l : list pollfd) (s : rt_server) : rt_server :=
  mkRTS l (rt_answers s) (rt_accepted s) (rt_closed s).

(** [poll] stores the events. *)
Definition set_revents (evs : list bool) (l : list pollfd) : list pollfd :=
  zip_with (λ p e, mkPoll (fd p) e) l evs.

Definition accept_listener (new_fd : Z) (s : rt_server) : rt_server :=
  if 0 <=? new_fd then
    mkRTS (poll_fds s ++ [mkPoll new_fd false]) (rt_answers s) (rt_accepted s ++ [new_fd]) (rt_closed s)
  else s.

(** The request of eight bytes, and the answer. *)
Definition answer_request (junk : MarketDataMessage) (r : Retransmitter) (f : Z) (bs : bytes) (s : rt_server) : rt_server :=
  match serve junk (unle bs) r with
  | Some cached => mkRTS (poll_fds s) (rt_answers s ++ [(f, encode_message cached)]) (rt_accepted s) (rt_closed s)
  | None => s
  end.

Definition drop_client (i : nat) (f : Z) (s : rt_server) : rt_server :=
  mkRTS (delete i (poll_fds s)) (rt_answers s) (rt_accepted s) (rt_closed s ++ [f]).

(** A client with something to read; the new index comes with the state. *)
Definition serve_client (junk : MarketDataMessage) (r : Retransmitter) (recv : Z → recv_result) (i : nat) (f : Z) (s : rt_server)
  : rt_server * nat :=
  match recv f with
  | RBytes bs => (if (length bs =? 8)%nat then answer_request junk r f bs s else s, i)
  | RAgain => (s, i)
  | REnd | RIntr | RError => (drop_client i f s, pred i)
  end.

(** The loop over the clients, from index [i] on.  [None]: out of fuel. *)
Fixpoint client_loop (fuel : nat) (junk : MarketDataMessage) (r : Retransmitter) (recv : Z → recv_result)
  (i : nat) (activity : Z) (s : rt_server) : option rt_server :=
  match fuel with
  | O => None
  | S fuel =>
      match poll_fds s !! i with
      | None => Some s
      | Some p =>
          if pollin p then
            let '(s, i) := serve_client junk r recv i (fd p) s in
            let activity := activity - 1 in
            if activity <=? 0 then Some s else client_loop fuel junk r recv (S i) activity s
          else client_loop fuel junk r recv (S i) activity s
      end
  end.

(** One iteration of [while (true)]; the boolean is [true] for [break]. *)
Definition poll_round (junk : MarketDataMessage) (r : Retransmitter) (mfr_finished : bool) (e : poll_input) (s : rt_server)
  : option (bool * rt_server) :=
  if in_activity e <? 0 then Some (negb (in_eintr e), s)
  else
    let s := set_poll_fds (set_revents (in_revents e) (poll_fds s)) s in
    if (in_activity e =? 0) && mfr_finished then Some (true, s)
    else
      server ← poll_fds s !! 0%nat;
      let s1 := if pollin server then accept_listener (in_new_fd e) s else s in
      let activity := if pollin server then in_activity e - 1 else in_activity e in
      if pollin server && (activity <=? 0) then Some (false, s1)
      else s ← client_loop (S (length (poll_fds s1))) junk r (in_recv e) 1 activity s1; Some (false, s).

(** The clean-up at the end. *)
Definition close_all (s : rt_server) : rt_server :=
  mkRTS (poll_fds s) (rt_answers s) (rt_accepted s) (rt_closed s ++ (fd <$> tail (poll_fds s)) ++ (fd <$> take 1 (poll_fds s))).

(** [listenerThread]: rounds until [break].  Each round comes with the state of
    the buffer and of [done] at that moment. *)
Fixpoint listenerThread (junk : MarketDataMessage) (rounds : list (Retransmitter * bool * poll_input)) (s : rt_server)
  : option (bool * rt_server) :=
  match rounds with
  | [] => Some (false, s)
  | (r, finished, e) :: rounds =>
      '(stop, s) ← poll_round junk r finished e s;
      if stop : bool then Some (true, close_all s) else listenerThread junk rounds s
  end.

(** * The client *)

Record ClientState := mkClientState { cl_listener : Listener; cl_done : bool }.

(** One iteration of [listener]: what [recvmmsg] delivered, [None] for an
    error; the packets lie one after the other in the batch. *)
Fixpoint listen_batch (packets : list bytes) (l : Listener) : option Listener :=
  match packets with
  | [] => Some l
  | p :: packets => l ← listen_packet (packet_messages p) l; listen_batch packets l
  end.

Definition listener_iter (ret : option (list bytes)) (c : ClientState) : option ClientState :=
  if cl_done c then Some c
  else
    match ret with
    | None => Some c
    | Some packets => l ← listen_batch packets (cl_listener c); Some (mkClientState l (cl_done c))
    end.

(** What an iteration of [missing_packet_request] does: it returns, it spins,
    or it has sent a request and waits for 64 bytes.  [answer] is what comes
    back: [None] for ever, [Some []] the end of the stream. *)
Inductive request_outcome := Returned | Spinning | Requested (seq : Z) | Waiting (seq : Z).

Definition request_iter (answer : Z → option bytes) (c : ClientState) : option (request_outcome * ClientState) :=
  '(seq, l) ← request (cl_listener c);
  match seq with
  | None => Some (if cl_done c then Returned else Spinning, mkClientState l (cl_done c))
  | Some seq =>
      match answer seq with
      | None => Some (Waiting seq, mkClientState l (cl_done c))
      | Some received =>
          Some (Requested seq, mkClientState l (if bool_decide (received = []) then true else cl_done c))
      end
  end.

(** * The store thread *)

(** The bytes received before the loop is left. *)
Fixpoint chunks_of (results : list recv_result) : list bytes :=
  match results with
  | [] => []
  | RBytes chunk :: results => chunk :: chunks_of results
  | RAgain :: results | RIntr :: results => chunks_of results
  | RError :: _ | REnd :: _ => []
  end.

Lemma storeThread_chunks results : ∀ r,
  (storeThread results r).2 = foldl (λ r c, storeThread_step c r) r (chunks_of results).
Proof. induction results as [|[] results IH]; intros r; cbn; auto. Qed.

Lemma store_step_pending chunk r : (length (rt_pending (storeThread_step chunk r)) < 64)%nat.
Proof.
  unfold storeThread_step. set (bs := rt_pending r ++ chunk).
  pose proof (parse_split (length bs) bs (rt_buffer r) (le_n _)) as H.
  destruct (parse_messages (length bs) bs (rt_buffer r)) as [buf rest]. destruct H as (rs & _ & _ & H & _). done.
Qed.

Lemma store_pending chunks r :
  (length (rt_pending r) < 64)%nat → (length (rt_pending (foldl (λ r c, storeThread_step c r) r chunks)) < 64)%nat.
Proof. revert r. induction chunks as [|c chunks IH]; intros r Hr; [done|]. cbn [foldl]. apply IH, store_step_pending. Qed.

(** The store thread, whatever [recv] returns: interrupted and empty calls
    change nothing, the loop is left exactly at the first end of stream or
    error; however the stream is cut, exactly its complete messages have been
    stored, in order; and [recv] is always offered room for at least 64 * 23
    - 1 messages, never zero bytes, which it would report as a disconnect. *)
Theorem storeThread_stores results ms tail :
  concat (chunks_of results) = concat (encode_message <$> ms) ++ tail → Forall message_typed ms →
  (length tail < 64)%nat →
  let '(stop, r) := storeThread results Retransmitter_new in
  rt_buffer r = foldl (λ b m, store m b) ∅ ms ∧ rt_pending r = tail ∧
  max_buffer_size - 64 < recv_room r ∧
  (stop = true ↔ ∃ pre x post, results = pre ++ x :: post ∧ (x = REnd ∨ x = RError)).
Proof.
  intros Hc Hm Ht. destruct (storeThread results Retransmitter_new) as [stop r] eqn:E.
  pose proof (storeThread_chunks results Retransmitter_new) as Hr. rewrite E in Hr. cbn [snd] in Hr.
  destruct (stream_stored (chunks_of results) ms tail Hc Hm Ht) as [Hb Hp]. rewrite <- Hr in Hb, Hp.
  split_and!; [done|done| |].
  - unfold recv_room. rewrite Hp. lia.
  - clear -E. revert stop r E. generalize Retransmitter_new. induction results as [|x results IH]; intros r0 stop r E; cbn in E.
    { simplify_eq. split; [done|]. intros (pre & x & post & H & _). by destruct pre. }
    assert (∀ b, (b = true ↔ ∃ pre y post, results = pre ++ y :: post ∧ (y = REnd ∨ y = RError)) →
      x ≠ REnd → x ≠ RError → b = true ↔ ∃ pre y post, x :: results = pre ++ y :: post ∧ (y = REnd ∨ y = RError)) as Hskip.
    { intros b -> H1 H2. split.
      - intros (pre & y & post & -> & Hy). by exists (x :: pre), y, post.
      - intros ([|z pre] & y & post & Heq & Hy); simplify_eq/=; [by destruct Hy|]. eauto. }
    destruct x; try (apply Hskip; [by eapply IH|done..]); simplify_eq;
      (split; [intros _; eexists [], _, _; eauto|done]).
Qed.

Lemma storeThread_stores_witness :
  let '(stop, r) := storeThread [RAgain; RBytes (take 50 (encode_message (msg 1))); RIntr;
                                 RBytes (drop 50 (encode_message (msg 1)) ++ [9; 9]); REnd] Retransmitter_new in
  rt_buffer r = {[1 := msg 1]} ∧ rt_pending r = [9; 9] ∧ max_buffer_size - 64 < recv_room r ∧
  (stop = true ↔ ∃ pre x post, [RAgain; RBytes (take 50 (encode_message (msg 1))); RIntr;
     RBytes (drop 50 (encode_message (msg 1)) ++ [9; 9]); REnd] = pre ++ x :: post ∧ (x = REnd ∨ x = RError)).
Proof.
  apply (storeThread_stores [RAgain; RBytes (take 50 (encode_message (msg 1))); RIntr;
                             RBytes (drop 50 (encode_message (msg 1)) ++ [9; 9]); REnd] [msg 1] [9; 9]).
  - reflexivity.
  - constructor; [|constructor]. apply msg_typed; split; (discriminate || reflexivity).
  - apply Nat.ltb_lt. reflexivity.
Defined.

(** * The poll loop *)

(** The reference: every ready client is answered or dropped, independently of
    the others. *)
Definition answer_of (junk : MarketDataMessage) (r : Retransmitter) (recv : Z → recv_result) (p : pollfd) : list (Z * bytes) :=
  if pollin p then
    match recv (fd p) with
    | RBytes bs =>
        if (length bs =? 8)%nat
        then match serve junk (unle bs) r with Some m => [(fd p, encode_message m)] | None => [] end
        else []
    | _ => []
    end
  else [].

Definition dropped (recv : Z → recv_result) (p : pollfd) : Prop :=
  pollin p = true ∧ match recv (fd p) with REnd | RIntr | RError => True | _ => False end.

#[export] Instance dropped_dec recv p : Decision (dropped recv p).
Proof. unfold dropped. destruct (recv (fd p)); apply _. Defined.

(** The round of the whole server as the reference does it. *)
Definition handle_clients (junk : MarketDataMessage) (r : Retransmitter) (recv : Z → recv_result)
  (before clients : list pollfd) (s : rt_server) : rt_server :=
  mkRTS (before ++ filter (λ p, ¬ dropped recv p) clients) (rt_answers s ++ (clients ≫= answer_of junk r recv))
    (rt_accepted s) (rt_closed s ++ (fd <$> filter (dropped recv) clients)).

Definition ready_count (l : list pollfd) : Z := Z.of_nat (length (filter (λ p, pollin p = true) l)).

Lemma ready_count_cons p l : ready_count (p :: l) = (if pollin p then 1 else 0) + ready_count l.
Proof.
  unfold ready_count. destruct (pollin p) eqn:E.
  - rewrite filter_cons_True by done. simpl. lia.
  - rewrite filter_cons_False by (by rewrite E). lia.
Qed.

Lemma ready_count_nonneg l : 0 <= ready_count l.
Proof. unfold ready_count. lia. Qed.

(** One client more. *)
Lemma handle_clients_cons junk r recv before p clients s :
  handle_clients junk r recv before (p :: clients) s =
  if decide (dropped recv p)
  then handle_clients junk r recv before clients
         (mkRTS (before ++ clients) (rt_answers s) (rt_accepted s) (rt_closed s ++ [fd p]))
  else handle_clients junk r recv (before ++ [p]) clients
         (mkRTS (before ++ p :: clients) (rt_answers s ++ answer_of junk r recv p) (rt_accepted s) (rt_closed s)).
Proof.
  unfold handle_clients. rewrite bind_cons. cbn [rt_answers rt_accepted rt_closed].
  case_decide as Hd.
  - rewrite filter_cons_False by (by intros []). rewrite filter_cons_True by done. rewrite fmap_cons.
    assert (answer_of junk r recv p = []) as ->.
    { unfold answer_of. destruct Hd as [-> Hd]. by destruct (recv (fd p)). }
    cbn [app]. by rewrite <- app_assoc.
  - rewrite filter_cons_True, filter_cons_False by done. by rewrite <- !app_assoc.
Qed.

Lemma handle_clients_idle junk r recv clients : ∀ before s,
  ready_count clients <= 0 → poll_fds s = before ++ clients → handle_clients junk r recv before clients s = s.
Proof.
  induction clients as [|p clients IH]; intros before s Hc Hp.
  { unfold handle_clients. destruct s. cbn in *. by rewrite Hp, !app_nil_r. }
  rewrite ready_count_cons in Hc. pose proof (ready_count_nonneg clients).
  destruct (pollin p) eqn:E; [lia|]. rewrite handle_clients_cons, decide_False by (intros []; congruence).
  rewrite IH; [|done|cbn; by rewrite <- app_assoc]. unfold answer_of. rewrite E, app_nil_r.
  destruct s. cbn in *. by rewrite Hp.
Qed.

Lemma handle_clients_frame junk r recv before clients s s' :
  rt_answers s = rt_answers s' → rt_accepted s = rt_accepted s' → rt_closed s = rt_closed s' →
  handle_clients junk r recv before clients s = handle_clients junk r recv before clients s'.
Proof. unfold handle_clients. by intros -> -> ->. Qed.

Lemma serve_client_spec junk r recv before p clients s :
  poll_fds s = before ++ p :: clients → pollin p = true →
  serve_client junk r recv (length before) (fd p) s =
  if decide (dropped recv p)
  then (mkRTS (before ++ clients) (rt_answers s) (rt_accepted s) (rt_closed s ++ [fd p]), pred (length before))
  else (mkRTS (before ++ p :: clients) (rt_answers s ++ answer_of junk r recv p) (rt_accepted s) (rt_closed s),
        length before).
Proof.
  intros Hp Ep. destruct s as [pf an ac cl]. cbn in Hp. subst pf. unfold serve_client, drop_client.
  cbn [poll_fds rt_answers rt_accepted rt_closed]. rewrite delete_middle.
  case_decide as Hd; unfold dropped in Hd; rewrite Ep in Hd.
  - destruct Hd as [_ Hd]. by destruct (recv (fd p)).
  - unfold answer_of. rewrite Ep. destruct (recv (fd p)) as [bs| | | |]; try (exfalso; by apply Hd); [|by rewrite app_nil_r].
    destruct (length bs =? 8)%nat; [|by rewrite app_nil_r]. unfold answer_request. cbn.
    destruct (serve junk (unle bs) r); [done|by rewrite app_nil_r].
Qed.

(** The loop with its index, its removals and its countdown is the reference. *)
Lemma client_loop_spec junk r recv clients : ∀ fuel before activity s,
  poll_fds s = before ++ clients → before ≠ [] → ready_count clients <= activity →
  (length clients < fuel)%nat →
  client_loop fuel junk r recv (length before) activity s = Some (handle_clients junk r recv before clients s).
Proof.
  induction clients as [|p clients IH]; intros fuel before activity s Hp Hb Hc Hf;
    (destruct fuel as [|fuel]; [simpl in Hf; lia|]); cbn [client_loop]; rewrite Hp.
  { rewrite app_nil_r in *. rewrite lookup_ge_None_2 by lia. rewrite handle_clients_idle; [done..|by rewrite app_nil_r]. }
  rewrite list_lookup_middle by done. rewrite ready_count_cons in Hc. cbn [length] in Hf.
  pose proof (ready_count_nonneg clients) as Hnn. rewrite handle_clients_cons.
  assert (∀ s' act, poll_fds s' = before ++ p :: clients → ready_count clients <= act →
    client_loop fuel junk r recv (S (length before)) act s'
    = Some (handle_clients junk r recv (before ++ [p]) clients s')) as Hnext.
  { intros s' act Hs' Hcl. replace (S (length before)) with (length (before ++ [p])) by (rewrite length_app; simpl; lia).
    apply IH; try done; [by rewrite <- app_assoc|by destruct before|lia]. }
  destruct (pollin p) eqn:Ep.
  - rewrite (serve_client_spec junk r recv before p clients s Hp Ep). case_decide as Hd.
    + replace (S (pred (length before))) with (length before) by (destruct before; [done|simpl; lia]).
      destruct (Z.leb_spec (activity - 1) 0); [|apply IH; [done..|lia|lia]].
      by rewrite handle_clients_idle by (done || lia).
    + destruct (Z.leb_spec (activity - 1) 0); [|apply Hnext; [done|lia]].
      rewrite handle_clients_idle; [done|lia|]. cbn [poll_fds]. by rewrite <- app_assoc.
  - rewrite decide_False by (intros []; congruence).
    assert (mkRTS (before ++ p :: clients) (rt_answers s ++ answer_of junk r recv p) (rt_accepted s) (rt_closed s) = s) as ->.
    { unfold answer_of. rewrite Ep, app_nil_r. destruct s. cbn in *. by rewrite Hp. }
    by apply Hnext.
Qed.

(** ** A round *)

(** What [poll] promises: the events of every entry, and a count that is not
    below the number of entries with [POLLIN]. *)
Definition poll_ok (e : poll_input) (s : rt_server) : Prop :=
  0 <= in_activity e → length (in_revents e) = length (poll_fds s) ∧
    ready_count (set_revents (in_revents e) (poll_fds s)) <= in_activity e.

(** The reference for a round: a new connection, then all clients. *)
Definition ref_round (junk : MarketDataMessage) (r : Retransmitter) (mfr_finished : bool) (e : poll_input) (s : rt_server)
  : bool * rt_server :=
  if in_activity e <? 0 then (negb (in_eintr e), s)
  else
    let s := set_poll_fds (set_revents (in_revents e) (poll_fds s)) s in
    if (in_activity e =? 0) && mfr_finished then (true, s)
    else
      let s := match poll_fds s with p :: _ => if pollin p then accept_listener (in_new_fd e) s else s | [] => s end in
      (false, handle_clients junk r (in_recv e) (take 1 (poll_fds s)) (drop 1 (poll_fds s)) s).

Lemma poll_round_ref junk r finished e s :
  poll_fds s ≠ [] → poll_ok e s → poll_round junk r finished e s = Some (ref_round junk r finished e s).
Proof.
  intros Hne Hok. unfold poll_round, ref_round. destruct (Z.ltb_spec (in_activity e) 0) as [|Hact]; [done|].
  destruct (Hok Hact) as [Hlen Hcnt]. clear Hok. set (l := set_revents (in_revents e) (poll_fds s)) in *.
  set (s0 := set_poll_fds l s). change (poll_fds s0) with l. destruct ((in_activity e =? 0) && finished); [done|].
  destruct l as [|p clients] eqn:El.
  { exfalso. apply (f_equal length) in El. subst l. unfold set_revents in El. rewrite length_zip_with, Hlen in El.
    rewrite Nat.min_id in El. destruct (poll_fds s); done. }
  clear El Hlen Hne. cbn [lookup list_lookup mbind option_bind]. rewrite ready_count_cons in Hcnt.
  pose proof (ready_count_nonneg clients) as Hnn.
  set (s1 := if pollin p then accept_listener (in_new_fd e) s0 else s0).
  assert (∃ new, poll_fds s1 = p :: clients ++ new ∧ ready_count (clients ++ new) = ready_count clients) as (new & Hs1 & Hnew).
  { subst s1. destruct (pollin p); [|exists []; by rewrite app_nil_r]. unfold accept_listener.
    destruct (0 <=? in_new_fd e); [|exists []; by rewrite app_nil_r]. exists [mkPoll (in_new_fd e) false].
    split; [done|]. unfold ready_count. by rewrite filter_app, app_nil_r. }
  rewrite Hs1. cbn [take drop]. rewrite take_0, drop_0. set (act := if pollin p then in_activity e - 1 else in_activity e).
  assert (ready_count (clients ++ new) <= act) as Hle by (subst act; rewrite Hnew; destruct (pollin p); lia).
  destruct (pollin p && (act <=? 0)) eqn:Estop.
  - apply andb_true_iff in Estop as [_ Hz]. apply Z.leb_le in Hz.
      rewrite (handle_clients_idle junk r (in_recv e) (clients ++ new) [p] s1); [done|lia|exact Hs1].
  - rewrite (client_loop_spec junk r (in_recv e) (clients ++ new) _ [p] act s1 Hs1); try done. simpl. lia.
Qed.

(** C29: A round of the poll loop is equivalent to the reference that treats
    the listening socket and every ready client independently: the index
    arithmetic around [erase] skips nobody and visits nobody twice, and the
    countdown of [activity] never ends the loop before the last ready client,
    given a [poll] that counts at least the entries it marks. *)
Theorem poll_round_equiv junk r finished e s :
  poll_fds s ≠ [] → poll_ok e s → poll_round junk r finished e s = Some (ref_round junk r finished e s).
Proof. apply poll_round_ref. Qed.

(** Three clients: the first asks for message 1, the second is gone, the third
    has sent half a request. *)
Definition three_clients : rt_server :=
  mkRTS [mkPoll 3 false; mkPoll 4 false; mkPoll 5 false; mkPoll 6 false] [] [4; 5; 6] [].
Definition busy_round : poll_input :=
  mkInput 4 [true; true; true; true] false 7
    (λ f, if f =? 4 then RBytes (le 8 1) else if f =? 5 then REnd else RBytes [1; 0; 0]).

Lemma poll_round_equiv_witness :
  poll_round (msg 0) (mkRT {[1 := msg 1]} []) false busy_round three_clients
  = Some (false, mkRTS [mkPoll 3 true; mkPoll 4 true; mkPoll 6 true; mkPoll 7 false] [(4, encode_message (msg 1))]
                   [4; 5; 6; 7] [5]).
Proof.
  rewrite (poll_round_equiv (msg 0) (mkRT {[1 := msg 1]} []) false busy_round three_clients).
  - vm_compute. reflexivity.
  - discriminate.
  - intros _. split; [reflexivity|]. vm_compute. discriminate.
Defined.

(** ** Descriptors *)

(** Every accepted descriptor is closed or still polled. *)
Definition fds_inv (lfd : Z) (s : rt_server) : Prop :=
  ∃ p clients, poll_fds s = p :: clients ∧ fd p = lfd ∧ rt_accepted s ≡ₚ rt_closed s ++ (fd <$> clients).

Lemma fmap_fd_set_revents evs l : (length evs = length l)%nat → fd <$> set_revents evs l = fd <$> l.
Proof.
  revert l. induction evs as [|ev evs IH]; intros [|p l] Hl; try done. unfold set_revents. cbn. f_equal.
  apply IH. by injection Hl.
Qed.

Lemma handle_clients_fds junk r recv lfd p clients s :
  poll_fds s = p :: clients → fd p = lfd → rt_accepted s ≡ₚ rt_closed s ++ (fd <$> clients) →
  fds_inv lfd (handle_clients junk r recv [p] clients s).
Proof.
  intros Hp Hl Ha. eexists p, _. split; [done|]. split; [done|]. cbn [rt_accepted rt_closed handle_clients].
  rewrite Ha, <- app_assoc. f_equiv. rewrite <- fmap_app. f_equiv. symmetry. apply filter_app_complement.
Qed.

Lemma ref_round_fds junk r finished e lfd s :
  fds_inv lfd s → poll_ok e s → fds_inv lfd (ref_round junk r finished e s).2.
Proof.
  intros (p & clients & Hp & Hl & Ha) Hok. unfold ref_round.
  destruct (Z.ltb_spec (in_activity e) 0) as [|Hact]; [by exists p, clients|].
  destruct (Hok Hact) as [Hlen _]. pose proof (fmap_fd_set_revents (in_revents e) (poll_fds s) Hlen) as Hfd.
  set (l := set_revents (in_revents e) (poll_fds s)) in *. rewrite Hp in Hfd. destruct l as [|q qs]; [done|].
  rewrite !fmap_cons in Hfd. injection Hfd as Hq Hqs. cbn [poll_fds set_poll_fds].
  assert (∀ s', rt_accepted s' ≡ₚ rt_closed s' ++ (fd <$> tail (poll_fds s')) → head (poll_fds s') = Some q →
    fds_inv lfd s') as Hinv.
  { intros s' Hs' Hh. destruct (poll_fds s') as [|q' qs'] eqn:E; [done|]. injection Hh as ->. exists q, qs'.
    rewrite Hq. done. }
  destruct (_ && _); [apply Hinv; [cbn; by rewrite Hqs|done]|]. cbn [snd].
  set (s1 := if pollin q then _ else _).
  assert (rt_accepted s1 ≡ₚ rt_closed s1 ++ (fd <$> tail (poll_fds s1)) ∧ head (poll_fds s1) = Some q) as [H1 H2].
  { subst s1. destruct (pollin q); [|cbn; by rewrite Hqs]. unfold accept_listener. destruct (0 <=? in_new_fd e); [|cbn; by rewrite Hqs].
    cbn. rewrite fmap_app, Hqs, app_assoc, <- Ha. done. }
  destruct (poll_fds s1) as [|q' qs'] eqn:E; [done|]. injection H2 as ->. cbn [take drop]. rewrite take_0, drop_0.
  apply handle_clients_fds; [done|congruence|done].
Qed.

(** [poll] behaves in every round. *)
Fixpoint rounds_ok (junk : MarketDataMessage) (rounds : list (Retransmitter * bool * poll_input)) (s : rt_server) : Prop :=
  match rounds with
  | [] => True
  | (r, finished, e) :: rounds =>
      poll_ok e s ∧ ((ref_round junk r finished e s).1 = false → rounds_ok junk rounds (ref_round junk r finished e s).2)
  end.

Lemma listenerThread_fds junk rounds lfd : ∀ s,
  fds_inv lfd s → rounds_ok junk rounds s →
  ∃ stop s', listenerThread junk rounds s = Some (stop, s') ∧
    if stop : bool then rt_closed s' ≡ₚ rt_accepted s' ++ [lfd] else fds_inv lfd s'.
Proof.
  induction rounds as [|[[r finished] e] rounds IH]; intros s Hi Hok; [by exists false, s|].
  destruct Hok as [Hp Hok]. cbn [listenerThread].
  assert (poll_fds s ≠ []) as Hne by (destruct Hi as (p & cs & -> & _); done).
  rewrite poll_round_ref by done. cbn [mbind option_bind].
  pose proof (ref_round_fds junk r finished e lfd s Hi Hp) as Hi'.
  destruct (ref_round junk r finished e s) as [stop s1]. cbn [fst snd] in *. destruct stop.
  - exists true, (close_all s1). split; [done|]. destruct Hi' as (p & cs & Hs & Hl & Ha).
    unfold close_all. cbn [rt_closed rt_accepted]. rewrite Hs. cbn [tail take fmap list_fmap].
    rewrite Hl, app_assoc, <- Ha. done.
  - by apply IH; [|apply Hok].
Qed.

(** The retransmitter leaks no connection: whatever the rounds of its poll
    loop bring, every descriptor it has accepted is being polled or has been
    closed, and when the loop is left all of them, and the listening socket,
    have been closed, each exactly once. *)
Theorem listenerThread_closes junk rounds lfd :
  rounds_ok junk rounds (rt_server_new lfd) →
  ∃ stop s', listenerThread junk rounds (rt_server_new lfd) = Some (stop, s') ∧
    if stop : bool then rt_closed s' ≡ₚ rt_accepted s' ++ [lfd]
    else rt_accepted s' ≡ₚ rt_closed s' ++ (fd <$> tail (poll_fds s')).
Proof.
  intros Hok. assert (fds_inv lfd (rt_server_new lfd)) as Hi by (by exists (mkPoll lfd false), []).
  destruct (listenerThread_fds junk rounds lfd _ Hi Hok) as (stop & s' & Hrun & H). exists stop, s'.
  split; [done|]. destruct stop; [done|]. by destruct H as (p & cs & -> & _ & Ha).
Qed.

(** A client connects, and the feed ends. *)
Definition two_rounds : list (Retransmitter * bool * poll_input) :=
  [(Retransmitter_new, false, mkInput 1 [true] false 7 (λ _, RAgain));
   (Retransmitter_new, true, mkInput 0 [false; false] false (-1) (λ _, RAgain))].

Lemma listenerThread_closes_witness :
  ∃ s', listenerThread (msg 0) two_rounds (rt_server_new 3) = Some (true, s') ∧ rt_closed s' ≡ₚ rt_accepted s' ++ [3].
Proof.
  destruct (listenerThread_closes (msg 0) two_rounds 3) as (stop & s' & H1 & H2).
  - split; [intros _; split; [reflexivity|vm_compute; discriminate]|]. intros _.
    split; [intros _; split; [reflexivity|vm_compute; discriminate]|]. intros _. exact I.
  - assert (stop = true) as ->.
    { vm_compute in H1. injection H1 as <- _. reflexivity. }
    exists s'. split; [exact H1|exact H2].
Defined.

(** * The client's two threads *)

(** Iterations of [missing_packet_request] until it does not get on: the
    numbers whose answers it has received, and the last outcome. *)
Fixpoint request_run (fuel : nat) (answer : Z → option bytes) (c : ClientState)
  : option (list Z * request_outcome * ClientState) :=
  match fuel with
  | O => None
  | S fuel =>
      '(o, c) ← request_iter answer c;
      match o with
      | Requested seq => '(l, o, c) ← request_run fuel answer c; Some (seq :: l, o, c)
      | _ => Some ([], o, c)
      end
  end.

(** What a retransmitter with the buffer of [r] sends back. *)
Definition answers_of (junk : MarketDataMessage) (r : Retransmitter) (seq : Z) : option bytes :=
  encode_message <$> serve junk seq r.

#[local] Abbreviation seq_rep := (fq_rep (FifoQueue:=spsc_fifo (T:=Z) queue_buffer_size)).

Lemma request_ok last q l :
  seq_rep q l →
  match l with
  | [] => request (mkListener last q) = Some (None, mkListener last q)
  | s :: l => ∃ q', request (mkListener last q) = Some (Some s, mkListener last q') ∧ seq_rep q' l
  end.
Proof.
  intros Hq. unfold request, queue_pop. cbn [missing last_seq_num]. destruct l as [|s l].
  - pose proof (fq_pop_empty (FifoQueue:=spsc_fifo queue_buffer_size) q Hq) as Hp. cbn in Hp. by rewrite Hp.
  - destruct (fq_pop_item (FifoQueue:=spsc_fifo queue_buffer_size) q s l Hq) as (q' & Hp & Hq'). cbn in Hp.
    rewrite Hp. by exists q'.
Qed.

(** All numbers are answered. *)
Lemma request_run_all answer l : ∀ last q d,
  seq_rep q l → (∀ s, s ∈ l → ∃ b bs, answer s = Some (b :: bs)) →
  ∃ q', request_run (S (length l)) answer (mkClientState (mkListener last q) d)
        = Some (l, if d then Returned else Spinning, mkClientState (mkListener last q') d) ∧ seq_rep q' [].
Proof.
  induction l as [|s l IH]; intros last q d Hq Ha; cbn [request_run]; unfold request_iter; cbn [cl_listener cl_done];
    pose proof (request_ok last q _ Hq) as Hr; cbn in Hr.
  - rewrite Hr. cbn [mbind option_bind]. exists q. by destruct d.
  - destruct Hr as (q1 & -> & Hq1). cbn [mbind option_bind]. destruct (Ha s) as (b & bs & ->); [left|].
    rewrite bool_decide_eq_false_2 by done. cbn iota.
    destruct (IH last q1 d Hq1) as (q' & Hrun & Hq'); [intros s' Hs'; apply Ha; by right|].
    cbn [length mbind option_bind] in *. rewrite Hrun. cbn [mbind option_bind]. by exists q'.
Qed.

(** The first number without an answer is waited for. *)
Lemma request_run_stuck answer l1 s l2 : ∀ last q d,
  seq_rep q (l1 ++ s :: l2) → (∀ x, x ∈ l1 → ∃ b bs, answer x = Some (b :: bs)) → answer s = None →
  ∃ q', request_run (S (length l1)) answer (mkClientState (mkListener last q) d)
        = Some (l1, Waiting s, mkClientState (mkListener last q') d) ∧ seq_rep q' l2.
Proof.
  induction l1 as [|x l1 IH]; intros last q d Hq Ha Hs; cbn [request_run]; unfold request_iter; cbn [cl_listener cl_done];
    pose proof (request_ok last q _ Hq) as Hr; cbn [app] in Hr; destruct Hr as (q1 & -> & Hq1); cbn [mbind option_bind].
  - rewrite Hs. cbn [mbind option_bind]. by exists q1.
  - destruct (Ha x) as (b & bs & ->); [left|]. rewrite bool_decide_eq_false_2 by done. cbn iota.
    destruct (IH last q1 d Hq1) as (q' & Hrun & Hq'); [intros y Hy; apply Ha; by right|done|].
    cbn [length mbind option_bind] in *. rewrite Hrun. by exists q'.
Qed.

Lemma answered_nonempty junk r s m : serve junk s r = Some m → ∃ b bs, answers_of junk r s = Some (b :: bs).
Proof.
  intros Hs. unfold answers_of. rewrite Hs. cbn. pose proof (length_encode_message m) as Hl.
  destruct (encode_message m) as [|b bs]; [done|]. eauto.
Qed.

(** Packets of whole messages. *)
Lemma length_messages ms : length (concat (encode_message <$> ms)) = (length ms * 64)%nat.
Proof.
  induction ms as [|m ms IH]; [done|]. rewrite fmap_cons. cbn [concat].
  rewrite length_app, IH, length_encode_message.
  change (Z.to_nat sizeof_MarketDataMessage) with 64%nat. cbn [length]. lia.
Qed.

Lemma packet_messages_ok ms : Forall message_typed ms → packet_messages (concat (encode_message <$> ms)) = ms.
Proof.
  intros Hm. unfold packet_messages. change (Z.to_nat sizeof_MarketDataMessage) with 64%nat.
  rewrite length_messages, Nat.div_mul by lia. rewrite <- (app_nil_r (concat _)).
  rewrite records_concat; [|lia| |simpl; lia|by rewrite length_fmap].
  - rewrite <- list_fmap_compose. rewrite <- (list_fmap_id ms) at 2. apply list_fmap_ext. intros i m Hi.
    cbn. apply decode_encode_message. rewrite Forall_lookup in Hm. eauto.
  - apply Forall_fmap, Forall_forall. intros m _. apply (length_encode_message m).
Qed.

Lemma listen_packet_app ms1 : ∀ ms2 l, listen_packet (ms1 ++ ms2) l = l ← listen_packet ms1 l; listen_packet ms2 l.
Proof.
  induction ms1 as [|m ms1 IH]; intros ms2 l; [done|]. cbn [app listen_packet].
  destruct (listen_message m l); cbn [mbind option_bind]; [apply IH|done].
Qed.

Lemma listen_batch_ok groups : ∀ l,
  Forall (Forall message_typed) groups →
  listen_batch ((λ ms, concat (encode_message <$> ms)) <$> groups) l = listen_packet (concat groups) l.
Proof.
  induction groups as [|ms groups IH]; intros l Hg; [done|]. apply Forall_cons in Hg as [Hm Hg].
  rewrite fmap_cons. cbn [listen_batch concat]. rewrite packet_messages_ok, listen_packet_app by done.
  destruct (listen_packet ms l); cbn [mbind option_bind]; [by apply IH|done].
Qed.

(** ** Recovery by the threads *)

(** The part of the feed that the retransmitter has stored decides. *)
Lemma prefix_served junk ms n chunks s :
  numbered_from 0 ms → Forall message_typed ms → Z.of_nat (length ms) <= SIZE → (n ≤ length ms)%nat →
  concat chunks = concat (encode_message <$> take n ms) → m_seq_num junk ≠ s → 0 <= s < Z.of_nat (length ms) →
  serve junk s (foldl (λ r c, storeThread_step c r) Retransmitter_new chunks)
  = if s <? Z.of_nat n then ms !! Z.to_nat s else None.
Proof.
  intros Hn Hty Hsize Hle Hc Hj Hs. destruct (stream_stored chunks (take n ms) []) as [Hbuf _].
  { by rewrite app_nil_r. } { by apply Forall_take. } { simpl. lia. }
  assert (numbered_from 0 (take n ms)) as Hnt.
  { intros k m Hk. apply lookup_take_Some in Hk as [Hk _]. by apply Hn. }
  destruct (lookup_lt_is_Some_2 ms (Z.to_nat s)) as [m Hm]; [lia|]. pose proof (Hn _ _ Hm) as Hseq.
  destruct (Z.ltb_spec s (Z.of_nat n)) as [Hlt|Hge].
  - rewrite Hm. replace s with (m_seq_num m) by lia. apply (serve_stored junk (take n ms)); try done.
    + rewrite length_take. lia.
    + apply (list_elem_of_lookup_2 _ (Z.to_nat s)). by rewrite lookup_take_lt by lia.
  - unfold serve. rewrite Hbuf. destruct (foldl (λ b m, store m b) ∅ (take n ms) !! cell_of s) as [x|] eqn:E; cbn [from_option id].
    + apply store_elem in E as [E|E]; [|by rewrite lookup_empty in E]. apply list_elem_of_lookup in E as [k Hk].
      pose proof (Hnt k x Hk) as Hx. apply lookup_lt_Some in Hk. rewrite length_take in Hk.
      by rewrite (proj2 (Z.eqb_neq _ _)) by lia.
    + by rewrite (proj2 (Z.eqb_neq _ _)).
Qed.

Lemma split_first (n : Z) (l : list Z) :
  ∃ l1 l2, l = l1 ++ l2 ∧ (∀ s, s ∈ l1 → s < n) ∧ (∀ s, head l2 = Some s → n <= s).
Proof.
  induction l as [|x l (l1 & l2 & -> & H1 & H2)].
  { exists [], []. split_and!; try done. by intros s ?%elem_of_nil. }
  destruct (Z.lt_ge_cases x n).
  - exists (x :: l1), l2. split_and!; try done. intros s [->|Hs]%elem_of_cons; auto.
  - exists [], (x :: l1 ++ l2). split_and!; try done; [by intros s ?%elem_of_nil|]. by intros s [= <-].
Qed.

(** C30: Recovery by the running threads.  A client receives any messages of a
    feed of at most [2^20] in UDP packets, in order or as far as the numbers it
    skips fit into its queue, while the retransmitter has stored the first [n]
    messages of it; the memory for its cells was not zeroed and held no number
    of the feed but perhaps 0.  The listener thread queues the missing numbers,
    number 0 never; the request thread asks for them in order and gets, for
    each number below [n], exactly that message; at the first number the
    retransmitter does not have yet it waits for an answer that is not sent,
    and the requests behind it are not made. *)
Theorem recovery_threads junk ms n chunks groups q :
  numbered_from 0 ms → Forall message_typed ms → Z.of_nat (length ms) <= SIZE → (n ≤ length ms)%nat →
  (m_seq_num junk <= 0 ∨ Z.of_nat (length ms) <= m_seq_num junk) →
  concat chunks = concat (encode_message <$> take n ms) →
  (∀ m, m ∈ concat groups → m ∈ ms) → queue_holds (m_seq_num <$> concat groups) →
  fq_rep (FifoQueue:=spsc_fifo queue_buffer_size) q [] →
  let r := foldl (λ r c, storeThread_step c r) Retransmitter_new chunks in
  let missing := gaps 0 (m_seq_num <$> concat groups) in
  ∃ c c' answered rest,
    listener_iter (Some ((λ ms, concat (encode_message <$> ms)) <$> groups)) (mkClientState (mkListener 0 q) false) = Some c ∧
    missing = answered ++ rest ∧
    request_run (S (length answered)) (answers_of junk r) c
    = Some (answered, match rest with [] => Spinning | s :: _ => Waiting s end, c') ∧
    (∀ s, s ∈ answered → s < Z.of_nat n ∧
       ∃ m, m ∈ ms ∧ m_seq_num m = s ∧ answers_of junk r s = Some (encode_message m)) ∧
    (∀ s, head rest = Some s → Z.of_nat n <= s ∧ answers_of junk r s = None) ∧
    (∀ m m', m ∈ ms → m' ∈ concat groups → m_seq_num m <= m_seq_num m' →
       m ∈ concat groups ∨ m_seq_num m ∈ missing ∨ m_seq_num m = 0).
Proof.
  intros Hn Hty Hsize Hle Hj Hc Hsub Hroom Hq r miss.
  assert (Forall (Forall message_typed) groups) as Hgt.
  { apply Forall_forall. intros g Hg. apply Forall_forall. intros m Hm. rewrite Forall_forall in Hty.
    apply Hty, Hsub. apply list_elem_of_In, in_concat. exists g. by split; apply list_elem_of_In. }
  destruct (listener_queues ms (concat groups) q Hn Hsize Hsub Hroom Hq) as (q' & Hrun & Hq').
  unfold listener_iter. cbn [cl_done cl_listener]. rewrite listen_batch_ok, Hrun by done. cbn [mbind option_bind app] in *.
  fold miss in Hq'. destruct (split_first (Z.of_nat n) miss) as (l1 & l2 & Hmiss & H1 & H2).
  assert (∀ s, s ∈ miss → serve junk s r = if s <? Z.of_nat n then ms !! Z.to_nat s else None) as Hserve.
  { intros s Hs. apply (gaps_range ms _ _ Hn Hsub) in Hs. apply prefix_served; try done; lia. }
  assert (∀ s, s ∈ l1 → ∃ m, m ∈ ms ∧ m_seq_num m = s ∧ serve junk s r = Some m) as Hl1.
  { intros s Hs. assert (s ∈ miss) as Hsm by (rewrite Hmiss; set_solver). rewrite (Hserve s Hsm).
    rewrite (proj2 (Z.ltb_lt _ _)) by auto. apply (gaps_range ms _ _ Hn Hsub) in Hsm.
    destruct (lookup_lt_is_Some_2 ms (Z.to_nat s)) as [m Hm]; [lia|]. rewrite Hm. exists m.
    split_and!; [by eapply list_elem_of_lookup_2| |done]. rewrite (Hn _ _ Hm). lia. }
  assert (∀ s, s ∈ l1 → ∃ b bs, answers_of junk r s = Some (b :: bs)) as Hb
    by (intros s Hs; destruct (Hl1 s Hs) as (m & _ & _ & Hm); by eapply answered_nonempty).
  assert (∀ s, head l2 = Some s → Z.of_nat n <= s ∧ answers_of junk r s = None) as Hl2.
  { intros s Hs. split; [auto|]. unfold answers_of. rewrite Hserve.
    - by rewrite (proj2 (Z.ltb_ge _ _)) by auto.
    - rewrite Hmiss. destruct l2; [done|]. injection Hs as ->. set_solver. }
  pose proof (λ m m', gaps_cover ms (concat groups) m m' Hn Hsub) as Hcover. fold miss in Hcover.
  clearbody miss. subst miss.
  exists (mkClientState (mkListener (final_seq 0 (m_seq_num <$> concat groups)) q') false). destruct l2 as [|s l2].
  - rewrite app_nil_r in Hq'. destruct (request_run_all (answers_of junk r) l1 (final_seq 0 (m_seq_num <$> concat groups)) q' false Hq' Hb) as (q2 & Hrun2 & _).
    eexists _, l1, []. split_and!; [done|done|exact Hrun2| |done|done]. intros s Hs. split; [auto|].
    destruct (Hl1 s Hs) as (m & ? & ? & Hm). exists m. unfold answers_of. by rewrite Hm.
  - destruct (request_run_stuck (answers_of junk r) l1 s l2 (final_seq 0 (m_seq_num <$> concat groups)) q' false Hq' Hb) as (q2 & Hrun2 & _); [by apply Hl2|].
    eexists _, l1, (s :: l2). split_and!; [done|done|exact Hrun2| |done|done]. intros x Hx. split; [auto|].
    destruct (Hl1 x Hx) as (m & ? & ? & Hm). exists m. unfold answers_of. by rewrite Hm.
Qed.

(** Messages 1 and 3 of five were lost; the retransmitter has three so far, and
    its memory was zero. *)
Lemma recovery_threads_witness :
  ∃ c c' answered rest,
    listener_iter (Some [concat (encode_message <$> [msg 0; msg 2]); concat (encode_message <$> [msg 4])])
      (mkClientState (mkListener 0 empty_sq) false) = Some c ∧
    answered ++ rest = [1; 3] ∧
    request_run (S (length answered))
      (answers_of (mkMessage 0 0 0 0 0 0) (storeThread_step (concat (encode_message <$> (msg <$> [0; 1; 2]))) Retransmitter_new)) c
    = Some (answered, match rest with [] => Spinning | s :: _ => Waiting s end, c').
Proof.
  destruct (recovery_threads (mkMessage 0 0 0 0 0 0) (msg <$> [0; 1; 2; 3; 4]) 3
              [concat (encode_message <$> (msg <$> [0; 1; 2]))] [[msg 0; msg 2]; [msg 4]] empty_sq)
    as (c & c' & a & rest & H1 & H2 & H3 & _).
  - intros k m Hk. destruct k as [|[|[|[|[|k]]]]]; simpl in Hk; try discriminate; injection Hk as <-; reflexivity.
  - repeat constructor; discriminate.
  - discriminate.
  - apply Nat.leb_le. reflexivity.
  - left. discriminate.
  - cbn [concat]. by rewrite app_nil_r.
  - intros m Hm. apply elem_of_cons in Hm as [->|Hm]; [left|]. apply elem_of_cons in Hm as [->|Hm]; [do 2 right; left|].
    apply list_elem_of_singleton in Hm as ->. do 4 right. left.
  - left. split; [reflexivity|]. split; [reflexivity|]. split; [reflexivity|exact I].
  - exact empty_sq_rep.
  - exists c, c', a, rest. split; [exact H1|]. split; [symmetry; exact H2|exact H3].
Defined.
