(* ===== verification/Batch.v ===== *)
(** The receive buffers as memory: [init_batch] of src/retransmitter.cpp and of
    src/listener.cpp, [storeThread] with its [recv] behind the bytes left over
    and its [memmove], and the packets that [recvmmsg] puts into the slots of
    the listener's batch.

    A block of memory is its bytes; an access outside of it is [None].  The
    threads of [Recovery] and [Retransmit] work on the bytes received; here
    they are refined down to the blocks. *)

From S2P Require Import Prelude Types Fifo Spsc Wire MarketFeed Recovery Retransmit.

(** * Blocks *)

Definition read_at (off n : nat) (mem : bytes) : option bytes :=
  if (off + n <=? length mem)%nat then Some (take n (drop off mem)) else None.

Definition write_at (off : nat) (bs mem : bytes) : option bytes :=
  if (off + length bs <=? length mem)%nat then Some (take off mem ++ bs ++ drop (off + length bs) mem) else None.

(** Source and destination may overlap. *)
Definition memmove (dst src n : nat) (mem : bytes) : option bytes :=
  bs ← read_at src n mem; write_at dst bs mem.

Lemma read_at_ok off n mem : (off + n ≤ length mem)%nat → read_at off n mem = Some (take n (drop off mem)).
Proof. intros H. unfold read_at. by rewrite (proj2 (Nat.leb_le _ _)) by done. Qed.

Lemma write_at_ok off bs mem : (off + length bs ≤ length mem)%nat →
  ∃ mem', write_at off bs mem = Some mem' ∧ length mem' = length mem ∧
    take off mem' = take off mem ∧ take (length bs) (drop off mem') = bs ∧
    drop (off + length bs) mem' = drop (off + length bs) mem.
Proof.
  intros H. unfold write_at. rewrite (proj2 (Nat.leb_le _ _)) by done. eexists. split; [done|].
  assert (length (take off mem) = off) as Hl by (rewrite length_take; lia). split_and!.
  - rewrite !length_app, length_drop, Hl. lia.
  - by rewrite take_app_length'.
  - rewrite drop_app_length' by done. by rewrite take_app_length'.
  - rewrite app_assoc, drop_app_length'; [done|]. rewrite length_app, Hl. done.
Qed.

(** * The buffer of the retransmitter *)

(** [init_batch(cap)]: the capacity and the bytes allocated. *)
Definition rt_init_batch (cap : Z) (mem : nat → bytes) : Z * bytes := (cap, mem (Z.to_nat (cap * MAX_MSG_SIZE))).

(** [batch], the variable [buffered] of [storeThread], and [buffer]. *)
Record StoreMem := mkStoreMem {
  sm_capacity : Z;
  sm_tcp_buffer : bytes;
  sm_buffered : nat;
  sm_buffer : gmap Z MarketDataMessage
}.

(** The length given to [recv]. *)
Definition sm_room (s : StoreMem) : Z := sm_capacity s * MAX_MSG_SIZE - Z.of_nat (sm_buffered s).

Definition msg_bytes : nat := Z.to_nat sizeof_MarketDataMessage.

(** [while(buffered - offset >= sizeof(MarketDataMessage))]. *)
Fixpoint parse_mem (fuel : nat) (mem : bytes) (buffered offset : nat) (buf : gmap Z MarketDataMessage)
  : option (nat * gmap Z MarketDataMessage) :=
  match fuel with
  | O => None
  | S fuel =>
      if (msg_bytes <=? buffered - offset)%nat then
        bs ← read_at offset msg_bytes mem;
        parse_mem fuel mem buffered (offset + msg_bytes) (store (decode_message bs) buf)
      else Some (offset, buf)
  end.

(** One iteration of [storeThread] in which [recv] writes [chunk]. *)
Definition store_iter (chunk : bytes) (s : StoreMem) : option StoreMem :=
  mem ← write_at (sm_buffered s) chunk (sm_tcp_buffer s);
  let buffered := (sm_buffered s + length chunk)%nat in
  '(offset, buf) ← parse_mem (S buffered) mem buffered 0 (sm_buffer s);
  let leftover := (buffered - offset)%nat in
  mem ← (if (0 <? leftover)%nat && (0 <? offset)%nat then memmove 0 offset leftover mem else Some mem);
  Some (mkStoreMem (sm_capacity s) mem leftover buf).

Fixpoint store_run (chunks : list bytes) (s : StoreMem) : option StoreMem :=
  match chunks with
  | [] => Some s
  | c :: chunks => s ← store_iter c s; store_run chunks s
  end.

Definition store_start (mem : nat → bytes) : StoreMem :=
  let '(cap, buf) := rt_init_batch 64 mem in mkStoreMem cap buf 0 ∅.

(** [recv] never delivers more than it is asked for. *)
Fixpoint recv_fits (chunks : list bytes) (r : Retransmitter) : Prop :=
  match chunks with
  | [] => True
  | c :: chunks => Z.of_nat (length c) <= recv_room r ∧ recv_fits chunks (storeThread_step c r)
  end.

(** * The batch of the listener *)

(** [init_batch(capacity)]: [iov_base] (from the start of the buffer) and
    [iov_len] of every slot. *)
Definition listener_init_batch (capacity : nat) : list (nat * nat) :=
  (λ i, (i * Z.to_nat MAX_MSG_SIZE, Z.to_nat MAX_MSG_SIZE)%nat) <$> seq 0 capacity.

(** [recvmmsg]: datagram by datagram into the slots, cut to [iov_len]; the
    [msg_len]s. *)
Fixpoint recvmmsg (slots : list (nat * nat)) (packets : list bytes) (mem : bytes) : option (bytes * list nat) :=
  match slots, packets with
  | (base, len) :: slots, p :: packets =>
      let p := take len p in
      mem ← write_at base p mem;
      '(mem, lens) ← recvmmsg slots packets mem;
      Some (mem, length p :: lens)
  | _, _ => Some (mem, [])
  end.

(** [for(count = 0; count < msgs_in_packet; count++)], with [p_msg]. *)
Fixpoint listen_slot (count : nat) (p_msg : nat) (mem : bytes) (l : Listener) : option Listener :=
  match count with
  | O => Some l
  | S count =>
      bs ← read_at p_msg msg_bytes mem;
      l ← listen_message (decode_message bs) l;
      listen_slot count (p_msg + msg_bytes) mem l
  end.

(** [for(i = 0; i < ret; i++)]. *)
Fixpoint listen_slots (slots : list (nat * nat)) (lens : list nat) (mem : bytes) (l : Listener) : option Listener :=
  match slots, lens with
  | (base, _) :: slots, n :: lens =>
      l ← listen_slot (n / msg_bytes) base mem l;
      listen_slots slots lens mem l
  | _, _ => Some l
  end.

(** One iteration of [listener] on the memory of the batch; [ret] is what
    waits at the socket, [None] for an error. *)
Definition listener_mem_iter (slots : list (nat * nat)) (ret : option (list bytes)) (c : ClientState) (mem : bytes)
  : option (ClientState * bytes) :=
  if cl_done c then Some (c, mem)
  else
    match ret with
    | None => Some (c, mem)
    | Some packets =>
        '(mem, lens) ← recvmmsg slots packets mem;
        l ← listen_slots slots lens mem (cl_listener c);
        Some (mkClientState l (cl_done c), mem)
    end.

(** * The retransmitter's buffer holds the bytes received *)

Lemma parse_mem_ok fuel : ∀ mem buffered offset buf buf' rest,
  (buffered ≤ length mem)%nat → (offset ≤ buffered)%nat → (buffered - offset ≤ fuel)%nat →
  parse_messages fuel (drop offset (take buffered mem)) buf = (buf', rest) →
  ∃ offset', parse_mem (S fuel) mem buffered offset buf = Some (offset', buf') ∧
    (offset' ≤ buffered)%nat ∧ rest = drop offset' (take buffered mem).
Proof.
  induction fuel as [|fuel IH]; intros mem buffered offset buf buf' rest Hm Ho Hf; remember msg_bytes as sz eqn:Esz.
  { intros [= <- <-]. exists offset. cbn [parse_mem]. rewrite <- Esz, (proj2 (Nat.leb_gt _ _)); [done|].
    rewrite Esz. change msg_bytes with 64%nat. lia. }
  cbn [parse_messages]. fold msg_bytes. rewrite <- Esz, length_drop, length_take, Nat.min_l by done.
  intros Hp. remember (S fuel) as fuel1 eqn:Ef. cbn [parse_mem]. rewrite <- Esz. subst fuel1.
  destruct (Nat.leb_spec sz (buffered - offset)) as [Hle|Hlt].
  - assert (64 = sz)%nat as <- by (by rewrite Esz). rewrite read_at_ok by lia. cbn [mbind option_bind].
    apply IH; [done|lia|lia|]. rewrite <- Hp, drop_drop. f_equal. f_equal. f_equal.
    rewrite skipn_firstn_comm, firstn_firstn. f_equal. lia.
  - injection Hp as <- <-. by exists offset.
Qed.

Record store_rep (s : StoreMem) (r : Retransmitter) : Prop := {
  sr_capacity : sm_capacity s = 64;
  sr_size : Z.of_nat (length (sm_tcp_buffer s)) = max_buffer_size;
  sr_pending : take (sm_buffered s) (sm_tcp_buffer s) = rt_pending r;
  sr_buffered : sm_buffered s = length (rt_pending r);
  sr_short : (length (rt_pending r) < 64)%nat;
  sr_buffer : sm_buffer s = rt_buffer r
}.

Lemma store_room s r : store_rep s r → sm_room s = recv_room r ∧ 0 < recv_room r.
Proof.
  intros [Hc _ _ Hb Hs _]. unfold sm_room, recv_room, max_buffer_size, MAX_MSG_SIZE, sizeof_MarketDataMessage, msg_per_packet. lia.
Qed.

Lemma store_iter_ok chunk s r : store_rep s r → Z.of_nat (length chunk) <= sm_room s →
  ∃ s', store_iter chunk s = Some s' ∧ store_rep s' (storeThread_step chunk r).
Proof.
  intros Hr Hfit. rewrite (proj1 (store_room _ _ Hr)) in Hfit. pose proof (store_step_pending chunk r) as Hsh.
  destruct Hr as [Hc Hsz Hp Hb Hs Hbuf]. unfold store_iter. unfold recv_room in Hfit.
  destruct (write_at_ok (sm_buffered s) chunk (sm_tcp_buffer s)) as (mem & -> & Hl & Ht & Hd & _); [lia|].
  cbn [mbind option_bind]. revert Hsh. unfold storeThread_step. set (n := (sm_buffered s + length chunk)%nat).
  assert (n ≤ length mem)%nat as Hn by lia.
  assert (take n mem = rt_pending r ++ chunk) as Hin.
  { unfold n. rewrite <- take_take_drop, Ht, Hp, Hd. done. }
  rewrite length_app, <- Hb. fold n. destruct (parse_messages n (rt_pending r ++ chunk) (rt_buffer r)) as [buf rest] eqn:Ep.
  rewrite <- Hin, <- (drop_0 (take n mem)) in Ep.
  destruct (parse_mem_ok n mem n 0 _ _ _ Hn ltac:(lia) ltac:(lia) Ep) as (off & Hrun & Hoff & Hrest).
  rewrite Hbuf, Hrun. cbn [mbind option_bind rt_pending]. intros Hsh.
  assert (length rest = n - off)%nat as Hlr by (rewrite Hrest, length_drop, length_take; lia).
  destruct ((0 <? n - off)%nat && (0 <? off)%nat) eqn:Emv.
  - unfold memmove. rewrite read_at_ok by lia. cbn [mbind option_bind].
    assert (take (n - off) (drop off mem) = rest) as Hmv by (by rewrite Hrest, skipn_firstn_comm).
    rewrite Hmv. destruct (write_at_ok 0 rest mem) as (mem' & -> & Hl' & _ & Hd' & _); [lia|].
    eexists. split; [done|]. rewrite drop_0 in Hd'.
    split; cbn [sm_capacity sm_tcp_buffer sm_buffered sm_buffer rt_pending rt_buffer]; try done; [lia|by rewrite <- Hlr].
  - eexists. split; [done|].
    split; cbn [sm_capacity sm_tcp_buffer sm_buffered sm_buffer rt_pending rt_buffer]; try done; [lia|].
    apply andb_false_iff in Emv as [E|E]; apply Nat.ltb_ge in E.
    + destruct rest; [|cbn [length] in Hlr; lia]. by replace (n - off)%nat with 0%nat by lia.
    + rewrite Hrest. replace off with 0%nat by lia. by rewrite Nat.sub_0_r, drop_0.
Qed.

Lemma store_run_ok chunks : ∀ s r, store_rep s r → recv_fits chunks r →
  ∃ s', store_run chunks s = Some s' ∧ store_rep s' (foldl (λ r c, storeThread_step c r) r chunks).
Proof.
  induction chunks as [|c chunks IH]; intros s r Hr Hf; [by exists s|]. destruct Hf as [Hc Hf].
  rewrite <- (proj1 (store_room _ _ Hr)) in Hc. cbn [store_run foldl].
  destruct (store_iter_ok c s r Hr Hc) as (s' & -> & Hr'). cbn [mbind option_bind]. by apply IH.
Qed.

Lemma store_start_rep mem : (∀ n, length (mem n) = n) → store_rep (store_start mem) Retransmitter_new.
Proof.
  intros Hm. unfold store_start, rt_init_batch.
  split; cbn [sm_capacity sm_tcp_buffer sm_buffered sm_buffer Retransmitter_new rt_pending rt_buffer];
    [done| |apply take_0|done|simpl; lia|done].
  rewrite Hm. by apply Z2Nat.id.
Qed.

(** * The listener's slots hold the packets *)

Section slots.
Context (M : nat).

Definition slots_from (a k : nat) : list (nat * nat) := (λ i, (i * M, M)%nat) <$> seq a k.

Lemma slots_from_S a k : slots_from a (S k) = (a * M, M)%nat :: slots_from (S a) k.
Proof. done. Qed.

(** What the slots from [a] on hold after [recvmmsg]. *)
Definition slots_hold (a : nat) (ps : list bytes) (mem : bytes) : Prop :=
  ∀ i p, ps !! i = Some p → take (length p) (drop ((a + i) * M) mem) = p.

(** A packet in a part of the buffer that does not change stays there. *)
Lemma packet_kept off (p mem mem' : bytes) b :
  (off + length p ≤ b)%nat → take b mem' = take b mem → take (length p) (drop off mem) = p →
  take (length p) (drop off mem') = p.
Proof.
  intros Hb Hm Hp. rewrite <- Hp at 2. rewrite !take_drop_commute. f_equal.
  replace (off + length p)%nat with ((off + length p) `min` b)%nat by lia. rewrite <- !take_take. by rewrite Hm.
Qed.

Lemma recvmmsg_ok k : ∀ a packets mem,
  ((a + k) * M ≤ length mem)%nat →
  let ps := take M <$> take k packets in
  ∃ mem', recvmmsg (slots_from a k) packets mem = Some (mem', length <$> ps) ∧ length mem' = length mem ∧
    take (a * M) mem' = take (a * M) mem ∧ slots_hold a ps mem'.
Proof.
  induction k as [|k IH]; intros a packets mem Hl ps.
  { exists mem. split_and!; try done. }
  destruct packets as [|p packets]; [by exists mem|]. subst ps. cbn [take].
  rewrite slots_from_S, !fmap_cons. cbn [recvmmsg]. assert (length (take M p) ≤ M)%nat by (rewrite length_take; lia).
  destruct (write_at_ok (a * M) (take M p) mem) as (mem1 & -> & Hl1 & Ht1 & Hd1 & _); [nia|]. cbn [mbind option_bind].
  destruct (IH (S a) packets mem1) as (mem2 & Hrun & Hl2 & Ht2 & Hh); [rewrite Hl1; nia|].
  rewrite Hrun. cbn [mbind option_bind]. exists mem2. split_and!; [done|congruence| |].
  - rewrite <- Ht1. replace (a * M)%nat with ((a * M) `min` (S a * M))%nat at 1 2 by lia.
    rewrite <- !take_take. by rewrite Ht2.
  - intros [|i] q; cbn [lookup list_lookup].
    + intros [= <-]. rewrite Nat.add_0_r. apply (packet_kept _ _ mem1 _ (S a * M)); [lia|done|done].
    + intros Hq. rewrite <- Nat.add_succ_comm. by apply Hh.
Qed.

Lemma listen_slot_ok count : ∀ off (p mem : bytes) l,
  (off + length p ≤ length mem)%nat → (count * msg_bytes ≤ length p)%nat →
  take (length p) (drop off mem) = p →
  listen_slot count off mem l = listen_packet (decode_message <$> records count msg_bytes p) l.
Proof.
  induction count as [|count IH]; intros off p mem l Hl Hc Hp; [done|]. cbn [listen_slot records].
  rewrite (proj2 (Nat.leb_le _ _)) by lia. rewrite read_at_ok by lia. rewrite fmap_cons. cbn [mbind option_bind listen_packet].
  assert (take msg_bytes (drop off mem) = take msg_bytes p) as ->.
  { trans (take msg_bytes (take (length p) (drop off mem))); [rewrite take_take; f_equal; lia|by rewrite Hp]. }
  destruct (listen_message _ l) as [l'|]; cbn [mbind option_bind]; [|done].
  apply IH; [rewrite length_drop; lia|rewrite length_drop; lia|].
  rewrite length_drop, <- drop_drop, <- skipn_firstn_comm, Hp. done.
Qed.

Lemma listen_slots_ok k : ∀ a ps mem l,
  ((a + k) * M ≤ length mem)%nat → (length ps ≤ k)%nat → Forall (λ p, length p ≤ M)%nat ps → slots_hold a ps mem →
  listen_slots (slots_from a k) (length <$> ps) mem l = listen_batch ps l.
Proof.
  induction k as [|k IH]; intros a ps mem l Hl Hk Hs Hh.
  { destruct ps; [done|cbn [length] in Hk; lia]. }
  destruct ps as [|p ps]; [done|]. rewrite slots_from_S, fmap_cons. cbn [listen_slots listen_batch].
  apply Forall_cons in Hs as [Hp Hs].
  pose proof (Hh 0%nat p eq_refl) as H0. rewrite Nat.add_0_r in H0.
  assert (msg_bytes ≠ 0)%nat as Hnz by done.
  assert (length p / msg_bytes * msg_bytes ≤ length p)%nat by (rewrite Nat.mul_comm; apply Nat.Div0.mul_div_le).
  rewrite (listen_slot_ok _ _ p); [|nia|done|done].
  unfold packet_messages. fold msg_bytes. destruct (listen_packet _ l) as [l'|]; cbn [mbind option_bind]; [|done].
  apply IH; [nia|cbn [length] in Hk; lia|done|]. intros i q Hq. rewrite Nat.add_succ_comm. by apply (Hh (S i)).
Qed.

End slots.

(** What the socket's datagrams become in the batch: at most [capacity] of
    them, none longer than a slot. *)
Definition batched (capacity : nat) (packets : list bytes) : list bytes :=
  take (Z.to_nat MAX_MSG_SIZE) <$> take capacity packets.

Lemma listener_mem_ok capacity ret c mem :
  length mem = (capacity * Z.to_nat MAX_MSG_SIZE)%nat →
  fst <$> listener_mem_iter (listener_init_batch capacity) ret c mem = listener_iter (batched capacity <$> ret) c.
Proof.
  intros Hl. unfold listener_mem_iter, listener_iter, batched. destruct (cl_done c) eqn:Ed; [done|].
  destruct ret as [packets|]; [|done]. cbn [fmap option_fmap option_map].
  destruct (recvmmsg_ok (Z.to_nat MAX_MSG_SIZE) capacity 0 packets mem) as (mem' & Hrun & Hl' & _ & Hh);
    [rewrite Hl; apply Nat.eq_le_incl; reflexivity|].
  change (listener_init_batch capacity) with (slots_from (Z.to_nat MAX_MSG_SIZE) 0 capacity).
  rewrite Hrun. cbn [mbind option_bind]. rewrite listen_slots_ok; [| | | |done].
  - by destruct (listen_batch _ _).
  - rewrite Hl', Hl. apply Nat.eq_le_incl. reflexivity.
  - rewrite length_fmap, length_take. lia.
  - apply Forall_fmap, Forall_forall. intros p _. cbn. rewrite length_take. lia.
Qed.

(** A packet of the feed fits its slot. *)
Lemma packet_fits ms : Z.of_nat (length ms) <= msg_per_packet →
  (length (concat (encode_message <$> ms)) ≤ Z.to_nat MAX_MSG_SIZE)%nat.
Proof.
  intros H. rewrite length_messages.
  unfold MAX_MSG_SIZE, msg_per_packet, sizeof_MarketDataMessage in *. lia.
Qed.

Lemma batched_feed capacity groups :
  (length groups ≤ capacity)%nat → Forall (λ ms, Z.of_nat (length ms) <= msg_per_packet) groups →
  batched capacity ((λ ms, concat (encode_message <$> ms)) <$> groups) = (λ ms, concat (encode_message <$> ms)) <$> groups.
Proof.
  intros Hn Hg. unfold batched. rewrite take_ge by (by rewrite length_fmap).
  rewrite <- list_fmap_compose. apply list_fmap_ext. intros i ms Hi. cbn. apply take_ge, packet_fits.
  by apply (Forall_lookup_1 _ _ _ _ Hg Hi).
Qed.

(** C28: The receive buffers.  On the memory that [init_batch] allocates, with
    [recv] delivering no more than it is asked for, [storeThread] always has
    room to receive, never leaves its block, and its ring and the bytes left
    over are those of the reassembly of the stream; and an iteration of the
    listener on its batch of 64 slots is the iteration on the first 64
    datagrams, which a datagram of the feed, of at most 23 messages, reaches
    uncut. *)
Theorem receive_buffers_refine mem chunks lmem ret c :
  (∀ n, length (mem n) = n) → recv_fits chunks Retransmitter_new →
  length lmem = (64 * Z.to_nat MAX_MSG_SIZE)%nat →
  (∃ s, store_run chunks (store_start mem) = Some s ∧ 0 < sm_room s ∧
     store_rep s (foldl (λ r c, storeThread_step c r) Retransmitter_new chunks)) ∧
  fst <$> listener_mem_iter (listener_init_batch 64) ret c lmem = listener_iter (batched 64 <$> ret) c ∧
  (∀ groups, (length groups ≤ 64)%nat → Forall (λ ms, Z.of_nat (length ms) <= msg_per_packet) groups →
     let packets := (λ ms, concat (encode_message <$> ms)) <$> groups in batched 64 packets = packets).
Proof.
  intros Hm Hf Hl. split_and!.
  - destruct (store_run_ok chunks _ _ (store_start_rep mem Hm) Hf) as (s & Hs & Hr). exists s.
    destruct (store_room _ _ Hr) as [-> H0]. done.
  - by apply listener_mem_ok.
  - intros groups Hn Hg. by apply batched_feed.
Qed.

(** One message that arrives in two pieces. *)
Definition demo_chunks : list bytes := [take 40 (encode_message (msg 1)); drop 40 (encode_message (msg 1)) ++ [7; 8; 9]].

Lemma receive_buffers_refine_witness :
  ∃ s, store_run demo_chunks (store_start (λ n, replicate n 0)) = Some s ∧ 0 < sm_room s ∧
    sm_buffer s = {[ 1 := msg 1 ]} ∧ sm_buffered s = 3%nat.
Proof.
  destruct (receive_buffers_refine (λ n, replicate n 0) demo_chunks (replicate (64 * Z.to_nat MAX_MSG_SIZE) 0) None
              (mkClientState (mkListener 0 empty_sq) false)) as ((s & H1 & H2 & H3) & _ & _).
  - intros n. apply length_replicate.
  - split; [|split; [|exact I]]; vm_compute; discriminate.
  - apply length_replicate.
  - exists s. split_and!; [exact H1|exact H2| |].
    + rewrite (sr_buffer _ _ H3). vm_compute. reflexivity.
    + rewrite (sr_buffered _ _ H3). vm_compute. reflexivity.
Defined.
