(* ===== verification/Bots.v ===== *)
(** The traffic generators: bots/run.cpp (the remote bots) and bots/bots.h
    (the demo bot).

    A bot draws random orders, corrupts some of them on purpose, drops those
    that its own validation refuses and sends the others over TCP.  The
    struct the bots send mirrors the server's [ClientOrder] field by field,
    so it is that record here.  The random number engine is the class
    [RandomEngine]; what the socket calls return is an argument.  Pauses and
    console output are left out. *)

From S2P Require Import Prelude Types RingBuffer Oms Wire Server SymbolLoader.

(** * Random numbers *)

(** [rng()], and a [std::uniform_int_distribution] over [a..b] applied to [rng]. *)
Class RandomEngine (R : Type) := {
  draw : R → Z * R;
  uniform : Z → Z → R → Z * R
}.

(** What the standard promises of them. *)
Class RandomEngineOk (R : Type) `{RandomEngine R} : Prop := {
  draw_u64 r : is_u64 (draw r).1;
  uniform_range a b r : a <= b → a <= (uniform a b r).1 <= b
}.

(** A distribution with its bounds the wrong way round is undefined: [None]. *)
Definition uniform_int {R} `{RandomEngine R} (a b : Z) (r : R) : option (Z * R) :=
  if a <=? b then Some (uniform a b r) else None.

(** * Data *)

Definition ClientOrderWire : Type := ClientOrder.

Record ValidationResult := mkResult { valid : bool; reason : string }.

(** [strncpy(dst, src, n)] into zeroed memory. *)
Fixpoint before_zero (t : text) : text :=
  match t with
  | [] => []
  | c :: t => if c =? 0 then [] else c :: before_zero t
  end.
Definition strncpy (n : nat) (src : text) : text :=
  let s := take n (before_zero src) in s ++ replicate (n - length s) 0.

Definition symbol_field (name : text) : list Z := strncpy 7 name ++ [0].

(** * Loading the symbol rules *)

(** The body of the loop for a line that is not empty: [info] starts with
    zeros and is filled field by field.  [None]: an exception of
    [std::stoul]/[std::stoull]. *)
Definition read_info (line : text) : option SymbolInfo :=
  let info := mkSymbol [] 0 0 0 0 in
  let '(symbol, ss) := getline comma (sy_symbol info) (Some line) in
  let info := mkSymbol symbol (sy_symbol_id info) (sy_ltp info) (sy_lower_limit info) (sy_upper_limit info) in
  let '(token, ss) := getline comma [] ss in
  id ← stoull token;
  let info := mkSymbol (sy_symbol info) (u32 id) (sy_ltp info) (sy_lower_limit info) (sy_upper_limit info) in
  let '(token, ss) := getline comma token ss in
  ltp ← stoull token;
  let info := mkSymbol (sy_symbol info) (sy_symbol_id info) ltp (sy_lower_limit info) (sy_upper_limit info) in
  let '(token, ss) := getline comma token ss in
  lower_limit ← stoull token;
  let info := mkSymbol (sy_symbol info) (sy_symbol_id info) (sy_ltp info) lower_limit (sy_upper_limit info) in
  let '(token, ss) := getline comma token ss in
  upper_limit ← stoull token;
  Some (mkSymbol (sy_symbol info) (sy_symbol_id info) (sy_ltp info) (sy_lower_limit info) upper_limit).

(** [while (std::getline(file, line))]; a [getline] that finds the end of the
    file at once fails.  [None]: an exception, or not enough fuel. *)
Fixpoint csv_loop (fuel : nat) (file : option text) (symbols : list SymbolInfo) : option (list SymbolInfo) :=
  match file with
  | None | Some [] => Some symbols
  | Some t =>
      match fuel with
      | O => None
      | S fuel =>
          let '(line, file) := getline newline [] (Some t) in
          if bool_decide (line = []) then csv_loop fuel file symbols
          else info ← read_info line; csv_loop fuel file (symbols ++ [info])
      end
  end.

(** The argument is [None] when the file cannot be opened; a file has at most
    as many lines after the header as it has characters. *)
Definition load_symbols_csv (file : option text) : option (list SymbolInfo) :=
  match file with
  | None => Some []
  | Some t => let '(_, rest) := getline newline [] (Some t) in csv_loop (length t) rest []
  end.

(** * Validation *)

Definition in_band (sym : SymbolInfo) (px : Z) : bool :=
  (sy_lower_limit sym <=? px) && (px <=? sy_upper_limit sym).

Definition validate_order (ord : ClientOrderWire) (sym : SymbolInfo) : ValidationResult :=
  if c_quantity ord =? 0 then mkResult false "quantity must be > 0"
  else
    match c_execution_type ord with
    | CMARKET => mkResult true "valid market order"
    | CLIMIT =>
        if negb (in_band sym (c_price ord)) then mkResult false "limit price outside symbol limits"
        else mkResult true "valid limit order"
    | CSTOP_LOSS =>
        if negb (in_band sym (c_trigger_price ord)) then mkResult false "trigger price outside symbol limits"
        else if negb (in_band sym (c_price ord)) then mkResult false "stop-loss limit price outside symbol limits"
        else mkResult true "valid stop-loss order"
    | CICEBERG =>
        if negb (in_band sym (c_price ord)) then mkResult false "iceberg price outside symbol limits"
        else if (c_display_quantity ord =? 0) || (c_quantity ord <? c_display_quantity ord)
        then mkResult false "display quantity must be in [1, quantity]"
        else mkResult true "valid iceberg order"
    end.

(** * Building orders *)

Section generate.
Context {R : Type} `{RandomEngine R}.
Implicit Types r : R.

Definition order_id (trader_id n : Z) : Z :=
  Z.lor (u64 (Z.shiftl trader_id 32)) (Z.land n 4294967295).

Definition build_random_order (sym : SymbolInfo) (trader_id : Z) r : option (ClientOrderWire * R) :=
  let '(n, r) := draw r in
  let client_order_id := order_id trader_id n in
  let '(n, r) := draw r in
  let quantity := u32 (n mod 200 + 1) in
  let '(n, r) := draw r in
  let type := if n mod 2 =? 0 then BUY else SELL in
  '(px, r) ← uniform_int (sy_lower_limit sym) (sy_upper_limit sym) r;
  '(roll, r) ← uniform_int 0 99 r;
  let ord price trigger_price display_quantity execution_type :=
    mkClientOrder client_order_id price trigger_price (symbol_field (sy_symbol sym)) (sy_symbol_id sym)
      trader_id type quantity display_quantity 0 execution_type true in
  Some (if roll <? 65 then ord px 0 0 CLIMIT
        else if roll <? 80 then ord 0 0 0 CMARKET
        else if roll <? 92 then ord px px 0 CSTOP_LOSS
        else ord px 0 (Z.max 1 (quantity / 4)) CICEBERG, r).

(** Field updates of the corrupted copy. *)
Definition set_c_quantity (q : Z) (c : ClientOrder) : ClientOrder :=
  mkClientOrder (c_client_order_id c) (c_price c) (c_trigger_price c) (c_symbol c) (c_symbol_id c) (c_trader_id c)
    (c_type c) q (c_display_quantity c) (c_filled_quantity c) (c_execution_type c) (c_is_active c).
Definition set_c_price (p : Z) (c : ClientOrder) : ClientOrder :=
  mkClientOrder (c_client_order_id c) p (c_trigger_price c) (c_symbol c) (c_symbol_id c) (c_trader_id c)
    (c_type c) (c_quantity c) (c_display_quantity c) (c_filled_quantity c) (c_execution_type c) (c_is_active c).
Definition make_iceberg (p d : Z) (c : ClientOrder) : ClientOrder :=
  mkClientOrder (c_client_order_id c) p (c_trigger_price c) (c_symbol c) (c_symbol_id c) (c_trader_id c)
    (c_type c) (c_quantity c) d (c_filled_quantity c) CICEBERG (c_is_active c).
Definition make_stop (p t : Z) (c : ClientOrder) : ClientOrder :=
  mkClientOrder (c_client_order_id c) p t (c_symbol c) (c_symbol_id c) (c_trader_id c)
    (c_type c) (c_quantity c) (c_display_quantity c) (c_filled_quantity c) CSTOP_LOSS (c_is_active c).

(** The four ways of spoiling an order. *)
Definition corrupt (mode : Z) (sym : SymbolInfo) (ord : ClientOrderWire) : ClientOrderWire :=
  if mode =? 0 then set_c_quantity 0 ord
  else if mode =? 1 then set_c_price (u64 (sy_upper_limit sym + 500)) ord
  else if mode =? 2 then make_iceberg (sy_lower_limit sym) (u32 (c_quantity ord + 1)) ord
  else make_stop (sy_lower_limit sym) (u64 (sy_lower_limit sym - 1)) ord.

Definition maybe_corrupt_order_for_negative_test (src : ClientOrderWire) (sym : SymbolInfo) r (invalid_percent : Z)
  : ClientOrderWire * R :=
  if invalid_percent <=? 0 then (src, r)
  else
    let '(n, r) := draw r in
    let roll := n mod 100 in
    if invalid_percent <=? roll then (src, r)
    else
      let '(n, r) := draw r in
      let mode := n mod 4 in
      (corrupt mode sym src, r).

(** [DemoBot::generateSingleOrder]: [Some (None, _)] when nothing is sent, as
    there are no symbols or no [send_fn_]; else the result of [send_fn_] on the
    order, with the order. *)
Definition generateSingleOrder (symbols_ : list SymbolInfo) (trader_id_ : Z)
  (send_fn_ : option (ClientOrderWire → bool)) r : option (option (bool * ClientOrderWire) * R) :=
  match symbols_, send_fn_ with
  | [], _ | _, None => Some (None, r)
  | _, Some send_fn_ =>
      '(i, r) ← uniform_int 0 (Z.of_nat (length symbols_) - 1) r;
      info ← symbols_ !! Z.to_nat i;
      let '(n, r) := draw r in
      let client_order_id := order_id trader_id_ n in
      let '(n, r) := draw r in
      let quantity := u32 (n mod 50 + 1) in
      let '(n, r) := draw r in
      let type := if n mod 2 =? 0 then BUY else SELL in
      '(rand_price, r) ← uniform_int (u64 (sy_lower_limit info + 1)) (u64 (sy_upper_limit info - 1)) r;
      '(roll, r) ← uniform_int 0 99 r;
      let ord price trigger_price display_quantity execution_type :=
        mkClientOrder client_order_id price trigger_price (symbol_field (sy_symbol info)) (sy_symbol_id info)
          trader_id_ type quantity display_quantity 0 execution_type true in
      let '(o, r) :=
        if roll <? 70 then (ord rand_price 0 0 CLIMIT, r)
        else if roll <? 85 then
          let '(n, r) := draw r in
          (ord (if n mod 2 =? 0 then u64 (rand_price + 2) else u64 (rand_price - 2)) rand_price 0 CSTOP_LOSS, r)
        else if roll <? 95 then (ord rand_price 0 (Z.max 1 (quantity / 5)) CICEBERG, r)
        else (ord 0 0 0 CMARKET, r) in
      Some (Some (send_fn_ o, o), r)
  end.

End generate.

(** * The connection *)

(** What [socket], [inet_pton] and [connect] return in one attempt. *)
Record attempt := mkAttempt { at_socket : Z; at_pton : Z; at_connect : Z }.

(** What the calls of a bot will return; attempts and sends past the lists fail. *)
Record network := mkNet { attempts : list attempt; sends : list Z }.

(** [sockfd_], with the descriptors opened and closed so far and the bytes
    written to the earlier connections and to the current one. *)
Record RemoteOrderClient := mkRemote {
  sockfd_ : Z;
  rc_opened : list Z;
  rc_closed : list Z;
  rc_earlier : list bytes;
  rc_stream : bytes
}.

Definition RemoteOrderClient_new : RemoteOrderClient := mkRemote (-1) [] [] [] [].

Definition close_socket (c : RemoteOrderClient) : RemoteOrderClient :=
  if sockfd_ c =? -1 then c
  else mkRemote (-1) (rc_opened c) (rc_closed c ++ [sockfd_ c]) (rc_earlier c ++ [rc_stream c]) [].

(** [sockfd_ = ::socket(...)]. *)
Definition open_socket (fd : Z) (c : RemoteOrderClient) : RemoteOrderClient :=
  mkRemote fd (if fd <? 0 then rc_opened c else rc_opened c ++ [fd]) (rc_closed c) (rc_earlier c) (rc_stream c).

Fixpoint connect_loop (retries : nat) (c : RemoteOrderClient) (net : list attempt)
  : bool * RemoteOrderClient * list attempt :=
  match retries with
  | O => (false, c, net)
  | S retries =>
      let a := default (mkAttempt (-1) 1 (-1)) (head net) in
      let net := tail net in
      let c := open_socket (at_socket a) c in
      if at_socket a <? 0 then connect_loop retries c net
      else if negb (at_pton a =? 1) then (false, close_socket c, net)
      else if at_connect a =? 0 then (true, c, net)
      else connect_loop retries (close_socket c) net
  end.

Definition connect_with_retry (c : RemoteOrderClient) (net : network) : bool * RemoteOrderClient * network :=
  let '(ok, c, l) := connect_loop 50 (close_socket c) (attempts net) in
  (ok, c, mkNet l (sends net)).

(** The loop over [send]: what is still to be sent and what was written.  A
    send that fails returns; the SIGPIPE that may come with it, since the flags
    are 0, is not modelled. *)
Fixpoint send_loop (rest written : bytes) (results : list Z) : bool * bytes * list Z :=
  if bool_decide (rest = []) then (true, written, results)
  else
    match results with
    | [] => (false, written, [])
    | n :: results =>
        if n <=? 0 then (false, written, results)
        else send_loop (drop (Z.to_nat n) rest) (written ++ take (Z.to_nat n) rest) results
    end.

(** A send on the descriptor [-1] fails. *)
Definition send_order (ord : ClientOrderWire) (c : RemoteOrderClient) (net : network)
  : bool * RemoteOrderClient * network :=
  if sockfd_ c =? -1 then (false, c, net)
  else
    let '(ok, written, l) := send_loop (encode_client ord) [] (sends net) in
    (ok, mkRemote (sockfd_ c) (rc_opened c) (rc_closed c) (rc_earlier c) (rc_stream c ++ written),
     mkNet (attempts net) l).

(** * The bots *)

(** The shared counters. *)
Record Stats := mkStats {
  active_workers : Z;
  valid_count : Z;
  invalid_count : Z;
  sent_count : Z;
  send_fail_count : Z
}.

Definition fetch_add_active (d : Z) (s : Stats) : Stats :=
  mkStats (active_workers s + d) (valid_count s) (invalid_count s) (sent_count s) (send_fail_count s).
Definition count_valid (s : Stats) : Stats :=
  mkStats (active_workers s) (u64 (valid_count s + 1)) (invalid_count s) (sent_count s) (send_fail_count s).
Definition count_invalid (s : Stats) : Stats :=
  mkStats (active_workers s) (valid_count s) (u64 (invalid_count s + 1)) (sent_count s) (send_fail_count s).
Definition count_sent (s : Stats) : Stats :=
  mkStats (active_workers s) (valid_count s) (invalid_count s) (u64 (sent_count s + 1)) (send_fail_count s).
Definition count_fail (s : Stats) : Stats :=
  mkStats (active_workers s) (valid_count s) (invalid_count s) (sent_count s) (u64 (send_fail_count s + 1)).

Inductive phase := Idle | Connecting | Running | Ended.

#[export] Instance phase_eq_dec : EqDecision phase.
Proof. solve_decision. Defined.

(** A bot: its thread has not started, is connecting, is in its loop, or has
    returned. *)
Record Bot (R : Type) := mkBot {
  b_phase : phase;
  b_trader : Z;
  b_rng : R;
  b_client : RemoteOrderClient;
  b_net : network
}.
Arguments mkBot {R}. Arguments b_phase {R}. Arguments b_trader {R}. Arguments b_rng {R}.
Arguments b_client {R}. Arguments b_net {R}.

Section bots.
Context {R : Type} `{RandomEngine R}.

(** [run_bot]: the thread starts and counts itself. *)
Definition bot_enter (b : Bot R) (st : Stats) : Bot R * Stats :=
  (mkBot Connecting (b_trader b) (b_rng b) (b_client b) (b_net b), fetch_add_active 1 st).

(** It connects, or gives up. *)
Definition bot_connect (b : Bot R) (st : Stats) : Bot R * Stats :=
  let '(ok, c, net) := connect_with_retry (b_client b) (b_net b) in
  if ok : bool then (mkBot Running (b_trader b) (b_rng b) c net, st)
  else (mkBot Ended (b_trader b) (b_rng b) (close_socket c) net, fetch_add_active (-1) st).

(** One iteration of the loop of [run_bot]. *)
Definition bot_iterate (symbols : list SymbolInfo) (invalid_percent : Z) (b : Bot R) (st : Stats)
  : option (Bot R * Stats) :=
  '(i, r) ← uniform_int 0 (u64 (Z.of_nat (length symbols) - 1)) (b_rng b);
  sym ← symbols !! Z.to_nat i;
  '(base, r) ← build_random_order sym (b_trader b) r;
  let '(ord, r) := maybe_corrupt_order_for_negative_test base sym r invalid_percent in
  if negb (valid (validate_order ord sym)) then
    Some (mkBot (b_phase b) (b_trader b) r (b_client b) (b_net b), count_invalid st)
  else
    let st := count_valid st in
    let '(ok, c, net) := send_order ord (b_client b) (b_net b) in
    if ok : bool then Some (mkBot (b_phase b) (b_trader b) r c net, count_sent st)
    else
      let st := count_fail st in
      let '(_, c, net) := connect_with_retry c net in
      Some (mkBot (b_phase b) (b_trader b) r c net, st).

(** The loop ends when [keep_running] is reset; the client is destroyed. *)
Definition bot_exit (b : Bot R) (st : Stats) : Bot R * Stats :=
  (mkBot Ended (b_trader b) (b_rng b) (close_socket (b_client b)) (b_net b), fetch_add_active (-1) st).

(** ** [main] *)

(** [std::stoi]; [None]: it throws. *)
Definition stoi (t : text) : option Z :=
  let t := skip_spaces t in
  let '(neg, t) := match t with
                   | c :: t' => if c =? 45 then (true, t') else if c =? 43 then (false, t') else (false, t)
                   | [] => (false, t)
                   end in
  let ds := take_digits t in
  if bool_decide (ds = []) then None
  else
    let n := if neg : bool then - digits_value ds else digits_value ds in
    if (- 2 ^ 31 <=? n) && (n <? 2 ^ 31) then Some n else None.

Record Config := mkConfig {
  server_ip : text;
  server_port : Z;
  csv_path : text;
  bot_count : Z;
  orders_per_sec_per_bot : Z;
  invalid_percent : Z
}.


(** [argv[0]] is the program's name. *)
Definition parse_args (argv : list text) : option Config :=
  let number i d := match argv !! i with Some t => stoi t | None => Some d end in
  port ← number 2%nat 9000;
  bots ← number 4%nat 3;
  rate ← number 5%nat 200;
  percent ← number 6%nat 5;
  Some (mkConfig (default (literal "127.0.0.1") (argv !! 1%nat)) (port mod 2 ^ 16)
          (default (literal "data/symbols.csv") (argv !! 3%nat)) bots rate percent).

Definition usage_error (c : Config) : bool :=
  (bot_count c <=? 0) || (orders_per_sec_per_bot c <=? 0) || (invalid_percent c <? 0) || (100 <? invalid_percent c).

Definition trader_id_base : Z := 50000.

Record Runner := mkRunner { bots : list (Bot R); stats : Stats }.

Definition make_bots (rng : nat → R) (net : nat → network) (n : nat) : list (Bot R) :=
  (λ i, mkBot Idle (u64 (trader_id_base + Z.of_nat i)) (rng i) RemoteOrderClient_new (net i)) <$> seq 0 n.

(** [main] until all threads are created: [inl] is the exit code of an early
    return, [None] an exception.  The file system, the seeds and the results
    of the bots' socket calls are arguments. *)
Definition bots_main (argv : list text) (open_file : text → option text) (rng : nat → R) (net : nat → network)
  : option (Z + Config * list SymbolInfo * Runner) :=
  cfg ← parse_args argv;
  if usage_error cfg then Some (inl 1)
  else
    symbols ← load_symbols_csv (open_file (csv_path cfg));
    if bool_decide (symbols = []) then Some (inl 1)
    else Some (inr (cfg, symbols, mkRunner (make_bots rng net (Z.to_nat (bot_count cfg))) (mkStats 0 0 0 0 0))).

(** The threads of the bots, in any order.  [bot_exit] may happen at any time:
    [BotMain] adds [keep_running], which decides it. *)
Inductive runner_step (symbols : list SymbolInfo) (percent : Z) : Runner → Runner → Prop :=
| run_enter i b st l b' st' : l !! i = Some b → b_phase b = Idle → bot_enter b st = (b', st') →
    runner_step symbols percent (mkRunner l st) (mkRunner (<[i := b']> l) st')
| run_connect i b st l b' st' : l !! i = Some b → b_phase b = Connecting → bot_connect b st = (b', st') →
    runner_step symbols percent (mkRunner l st) (mkRunner (<[i := b']> l) st')
| run_iterate i b st l b' st' : l !! i = Some b → b_phase b = Running →
    bot_iterate symbols percent b st = Some (b', st') →
    runner_step symbols percent (mkRunner l st) (mkRunner (<[i := b']> l) st')
| run_exit i b st l b' st' : l !! i = Some b → b_phase b = Running → bot_exit b st = (b', st') →
    runner_step symbols percent (mkRunner l st) (mkRunner (<[i := b']> l) st').

End bots.
Arguments Runner : clear implicits.

(** * Loading the rules and loading the symbols *)

Lemma mapM_parse_empty l : [] ∈ l → mapM parse_line l = None.
Proof.
  induction l as [|x l IH]; intros Hin; [by apply elem_of_nil in Hin|]. cbn [mapM].
  apply elem_of_cons in Hin as [<-|Hin]; [done|].
  destruct (parse_line x); cbn [mbind option_bind]; [|done]. by rewrite IH.
Qed.

(** The two bodies do the same to a line. *)
Lemma read_info_ok line : read_info line = parse_line line.
Proof. reflexivity. Qed.

Lemma split_at_length d t a r : split_at d t = (a, Some r) → length t = S (length a + length r).
Proof.
  revert a. induction t as [|c t IH]; intros a; cbn [split_at]; [done|]. destruct (c =? d).
  - by intros [= <- <-].
  - destruct (split_at d t) as [a' r'] eqn:E. intros [= <- ->]. cbn [length]. by rewrite (IH a' eq_refl).
Qed.

Lemma split_at_not_in d t : d ∉ (split_at d t).1.
Proof.
  induction t as [|c t IH]; cbn [split_at]; [apply not_elem_of_nil|].
  destruct (Z.eqb_spec c d) as [->|Hne]; [apply not_elem_of_nil|].
  destruct (split_at d t) as [a r]. cbn [fst] in *. apply not_elem_of_cons. split; congruence.
Qed.

Lemma lines_no_newline fuel : ∀ t, Forall (λ l, newline ∉ l) (lines fuel t).
Proof.
  induction fuel as [|fuel IH]; intros [|c t]; cbn [lines]; try constructor.
  pose proof (split_at_not_in newline (c :: t)) as Hn. destruct (split_at newline (c :: t)) as [l [r|]]; cbn [fst] in Hn.
  - constructor; [done|apply IH].
  - constructor; [done|constructor].
Qed.

(** The loop reads the lines and leaves out the empty ones. *)
Lemma csv_loop_ok fuel : ∀ t acc, (length t ≤ fuel)%nat →
  csv_loop fuel (Some t) acc = (acc ++.) <$> mapM parse_line (filter (λ l, l ≠ []) (lines fuel t)).
Proof.
  induction fuel as [|fuel IH]; intros [|c t] acc Hf; cbn [csv_loop lines].
  1,3: cbn; by rewrite app_nil_r.
  { simpl in Hf. lia. }
  unfold getline. destruct (split_at newline (c :: t)) as [l r] eqn:E.
  assert (∀ acc', csv_loop fuel r acc' = (acc' ++.) <$> mapM parse_line (filter (λ l, l ≠ [])
            match r with Some r => lines fuel r | None => [] end)) as Hrest.
  { intros acc'. destruct r as [r|]; [|by destruct fuel; cbn; rewrite app_nil_r].
    apply IH. apply split_at_length in E. simpl in E, Hf. lia. }
  assert (match r with Some r => l :: lines fuel r | None => [l] end
          = l :: match r with Some r => lines fuel r | None => [] end) as -> by (by destruct r).
  case_bool_decide as Hl.
  - rewrite filter_cons_False by (intros Hn; done). apply Hrest.
  - rewrite filter_cons_True by done. cbn [mapM]. rewrite read_info_ok.
    destruct (parse_line l) as [info|]; cbn [mbind option_bind]; [|done]. rewrite Hrest.
    destruct (mapM parse_line _) as [infos|]; cbn; [|done]. by rewrite <- app_assoc.
Qed.

Lemma load_symbols_csv_ok file :
  load_symbols_csv (Some file) = mapM parse_line (filter (λ l, l ≠ []) (drop 1 (lines (S (length file)) file))).
Proof.
  unfold load_symbols_csv, getline. destruct file as [|c t]; [done|].
  change (lines (S (length (c :: t))) (c :: t)) with
    (match split_at newline (c :: t) with (l, Some r) => l :: lines (length (c :: t)) r | (l, None) => [l] end).
  destruct (split_at newline (c :: t)) as [l [r|]] eqn:E; [|done]. apply split_at_length in E.
  rewrite csv_loop_ok by lia. cbn [drop]. by destruct (mapM parse_line _).
Qed.

(** The same file without the empty lines after the header. *)
Definition without_blank (file : text) : text :=
  let ls := lines (S (length file)) file in
  concat ((λ l, l ++ [newline]) <$> take 1 ls ++ filter (λ l, l ≠ []) (drop 1 ls)).

(** C37: The bots' loader and the exchange's loader of the symbol file, which
    are separate pieces of code: they return the same symbols, or both throw,
    on every file without an empty line after the header; with one the
    exchange's loader throws, while the bots' loader returns what the
    exchange's one makes of the file without its empty lines.  A file that
    cannot be opened gives no symbols. *)
Theorem load_symbols_csv_equiv file :
  loadSymbolCSV file =
    (if bool_decide ([] ∈ drop 1 (lines (S (length file)) file)) then None else load_symbols_csv (Some file)) ∧
  load_symbols_csv (Some file) = loadSymbolCSV (without_blank file) ∧
  load_symbols_csv None = Some [].
Proof.
  rewrite load_symbols_csv_ok. unfold loadSymbolCSV. split_and!; [| |done].
  - case_bool_decide as Hin; [by apply mapM_parse_empty|]. rewrite filter_all; [done|]. by intros x Hx ->.
  - unfold without_blank. pose proof (lines_no_newline (S (length file)) file) as Hn. cbn zeta.
    set (ls := lines (S (length file)) file) in *. rewrite lines_ok; [|apply Forall_app; split|lia].
    + by destruct ls as [|l ls].
    + by apply Forall_take.
    + apply Forall_forall. intros l [_ Hl]%list_elem_of_filter. rewrite Forall_forall in Hn. apply Hn.
      rewrite <- (take_drop 1 ls), elem_of_app. by right.
Qed.

(** * Generated orders *)

(** A symbol rule the generators can work with. *)
Record bot_symbol_ok (s : SymbolInfo) : Prop := {
  bs_name : Forall (λ c, -128 <= c < 128) (sy_symbol s);
  bs_id : is_u32 (sy_symbol_id s);
  bs_band : 0 <= sy_lower_limit s <= sy_upper_limit s;
  bs_upper : sy_upper_limit s < 2 ^ 64 - 500
}.

Lemma before_zero_Forall (P : Z → Prop) t : Forall P t → Forall P (before_zero t).
Proof. induction 1 as [|c t Hc _ IH]; cbn [before_zero]; [done|]. destruct (c =? 0); by constructor. Qed.

Lemma symbol_field_ok name :
  Forall (λ c, -128 <= c < 128) name →
  length (symbol_field name) = 8%nat ∧ Forall (λ c, -128 <= c < 128) (symbol_field name).
Proof.
  intros Hn. unfold symbol_field, strncpy. split.
  - rewrite !length_app, length_replicate, length_take. cbn [length]. lia.
  - repeat (apply Forall_app; split); [by apply Forall_take, before_zero_Forall| |by repeat constructor].
    apply Forall_replicate. lia.
Qed.

(** The name the OMS finds in the field: the first seven characters. *)
Lemma symbol_field_string name : c_string (symbol_field name) = Some (take 7 (before_zero name)).
Proof.
  unfold symbol_field, strncpy. cbn zeta.
  assert (Forall (λ c, c ≠ 0) (take 7 (before_zero name))) as Hz.
  { apply Forall_take. induction name as [|c name IH]; cbn [before_zero]; [done|].
    destruct (Z.eqb_spec c 0); [done|by constructor]. }
  rewrite <- app_assoc. generalize (7 - length (take 7 (before_zero name)))%nat as k. intros k.
  induction Hz as [|c l Hc _ IH]; cbn [app c_string].
  - destruct k; reflexivity.
  - rewrite (proj2 (Z.eqb_neq c 0)) by done. by rewrite IH.
Qed.

Lemma order_id_trader t n : 0 <= t < 2 ^ 32 → is_u64 n →
  Z.shiftr (order_id t n) 32 = t ∧ is_u64 (order_id t n).
Proof.
  intros Ht Hn. unfold order_id. assert (is_u64 (Z.shiftl t 32)) as Hs.
  { rewrite Z.shiftl_mul_pow2 by lia. mach. }
  rewrite u64_small by done. change 4294967295 with (Z.ones 32). rewrite Z.land_ones by lia.
  pose proof (Z.mod_pos_bound n (2 ^ 32) ltac:(lia)) as Hm.
  assert (Z.shiftr (Z.lor (Z.shiftl t 32) (n mod 2 ^ 32)) 32 = t) as Hsh.
  { rewrite Z.shiftr_lor, Z.shiftr_shiftl_l, (Z.shiftr_div_pow2 (n mod 2 ^ 32)) by lia.
    rewrite Z.div_small by lia. by rewrite Z.lor_0_r, Z.sub_diag, Z.shiftl_0_r. }
  split; [done|]. assert (0 <= Z.lor (Z.shiftl t 32) (n mod 2 ^ 32)) by (apply Z.lor_nonneg; mach).
  rewrite Z.shiftr_div_pow2 in Hsh by lia.
  pose proof (Z.div_mod (Z.lor (Z.shiftl t 32) (n mod 2 ^ 32)) (2 ^ 32) ltac:(lia)).
  pose proof (Z.mod_pos_bound (Z.lor (Z.shiftl t 32) (n mod 2 ^ 32)) (2 ^ 32) ltac:(lia)). mach.
Qed.

(** What every order of a bot satisfies: it passes validation for its symbol
    and carries the bot's number, alone and in its id. *)
Record bot_order (symbols : list SymbolInfo) (trader : Z) (o : ClientOrderWire) : Prop := {
  bo_typed : client_typed o;
  bo_valid : ∃ sym, sym ∈ symbols ∧ valid (validate_order o sym) = true ∧
    c_string (c_symbol o) = Some (take 7 (before_zero (sy_symbol sym)));
  bo_trader : c_trader_id o = trader ∧ Z.shiftr (c_client_order_id o) 32 = trader;
  bo_quantity : 1 <= c_quantity o <= 200
}.

Section generated.
Context {R : Type} `{RandomEngineOk R}.
Implicit Types r : R.

Lemma uniform_int_ok a b r : a <= b → ∃ n r', uniform_int a b r = Some (n, r') ∧ a <= n <= b.
Proof.
  intros Hab. unfold uniform_int. rewrite (proj2 (Z.leb_le a b)) by done.
  pose proof (uniform_range a b r Hab). destruct (uniform a b r) as [n r']. eauto.
Qed.

Lemma draw_ok r : ∃ n r', draw r = (n, r') ∧ is_u64 n.
Proof. pose proof (draw_u64 r). destruct (draw r) as [n r']. eauto. Qed.

Lemma in_band_spec sym px : in_band sym px = true ↔ sy_lower_limit sym <= px <= sy_upper_limit sym.
Proof. unfold in_band. rewrite andb_true_iff. zbool. done. Qed.

Lemma build_random_order_ok symbols sym trader r :
  bot_symbol_ok sym → sym ∈ symbols → 0 <= trader < 2 ^ 32 →
  ∃ o r', build_random_order sym trader r = Some (o, r') ∧ bot_order symbols trader o ∧
    valid (validate_order o sym) = true ∧ c_symbol o = symbol_field (sy_symbol sym).
Proof.
  intros [Hname Hid Hband Hup] Hin Ht. unfold build_random_order.
  destruct (draw_ok r) as (n1 & r1 & -> & Hn1). destruct (draw_ok r1) as (n2 & r2 & -> & Hn2).
  destruct (draw_ok r2) as (n3 & r3 & -> & Hn3).
  destruct (uniform_int_ok (sy_lower_limit sym) (sy_upper_limit sym) r3) as (px & r4 & -> & Hpx); [lia|].
  cbn [mbind option_bind]. destruct (uniform_int_ok 0 99 r4) as (roll & r5 & -> & Hroll); [lia|].
  cbn [mbind option_bind]. eexists _, r5. split; [done|].
  destruct (order_id_trader trader n1 Ht Hn1) as [Htid Hidr].
  destruct (symbol_field_ok (sy_symbol sym) Hname) as [Hlen Hchars].
  pose proof (symbol_field_string (sy_symbol sym)) as Hstr.
  pose proof (Z.mod_pos_bound n2 200 ltac:(lia)) as Hq. rewrite (u32_small (n2 mod 200 + 1)) by mach.
  set (q := n2 mod 200 + 1) in *. assert (1 <= q <= 200) as Hqr by (subst q; lia). clearbody q.
  pose proof (Z.div_le_upper_bound q 4 q ltac:(lia) ltac:(lia)) as Hq4.
  assert (in_band sym px = true) as Hpb by by apply in_band_spec.
  set (ty := if n3 mod 2 =? 0 then BUY else SELL). clearbody ty.
  match goal with |- bot_order _ _ ?o ∧ _ => assert (valid (validate_order o sym) = true ∧ client_typed o) as [Hv Hty] end.
  { unfold validate_order.
    destruct (roll <? 65), (roll <? 80), (roll <? 92); cbn [c_quantity c_execution_type c_price c_trigger_price
      c_display_quantity]; rewrite (proj2 (Z.eqb_neq q 0)) by lia; rewrite ?Hpb; cbn [negb];
      rewrite ?(proj2 (Z.eqb_neq (Z.max 1 (q / 4)) 0)), ?(proj2 (Z.ltb_ge q (Z.max 1 (q / 4)))) by lia;
      (split; [done|]); split; cbn [c_client_order_id c_price c_trigger_price c_symbol c_symbol_id c_trader_id
        c_quantity c_display_quantity c_filled_quantity]; (done || mach). }
  split_and!; [split; [done|exists sym| |]| done |].
  - split_and!; [done..|]. by destruct (roll <? 65), (roll <? 80), (roll <? 92).
  - by destruct (roll <? 65), (roll <? 80), (roll <? 92).
  - by destruct (roll <? 65), (roll <? 80), (roll <? 92).
  - by destruct (roll <? 65), (roll <? 80), (roll <? 92).
Qed.

(** ** Corruption *)

(** Whether the two draws decide to spoil the order, and how. *)
Definition injected r (percent : Z) : bool := (0 <? percent) && ((draw r).1 mod 100 <? percent).
Definition mode_of r : Z := (draw (draw r).2).1 mod 4.

Lemma maybe_corrupt_eq src sym r percent :
  (maybe_corrupt_order_for_negative_test src sym r percent).1 =
  if injected r percent then corrupt (mode_of r) sym src else src.
Proof.
  unfold maybe_corrupt_order_for_negative_test, injected, mode_of.
  destruct (Z.leb_spec percent 0) as [Hp|Hp]; [by rewrite (proj2 (Z.ltb_ge 0 percent)) by lia|].
  rewrite (proj2 (Z.ltb_lt 0 percent)) by lia. cbn [andb]. destruct (draw r) as [n r1]. cbn [fst snd].
  destruct (Z.leb_spec percent (n mod 100)) as [Hr|Hr].
  - by rewrite (proj2 (Z.ltb_ge _ _)) by lia.
  - rewrite (proj2 (Z.ltb_lt _ _)) by lia. by destruct (draw r1).
Qed.

Lemma corrupt_valid mode sym src :
  bot_symbol_ok sym → valid (validate_order src sym) = true → 1 <= c_quantity src <= 200 → 0 <= mode < 4 →
  valid (validate_order (corrupt mode sym src) sym) =
  (mode =? 1) && bool_decide (c_execution_type src = CMARKET).
Proof.
  intros [_ _ Hband Hup] Hv Hq Hm. assert (mode = 0 ∨ mode = 1 ∨ mode = 2 ∨ mode = 3) as Hmode by lia.
  assert (in_band sym (u64 (sy_upper_limit sym + 500)) = false) as Hhigh.
  { apply not_true_iff_false. rewrite in_band_spec, u64_small by mach. lia. }
  assert (in_band sym (u64 (sy_lower_limit sym - 1)) = false) as Hlow.
  { apply not_true_iff_false. rewrite in_band_spec. destruct (decide (sy_lower_limit sym = 0)) as [->|Hne].
    - change (u64 (0 - 1)) with (2 ^ 64 - 1). lia.
    - rewrite u64_small by mach. lia. }
  assert (in_band sym (sy_lower_limit sym) = true) as Hin by (apply in_band_spec; lia).
  destruct Hmode as [-> | [-> | [-> | ->]]]; unfold corrupt; cbn -[validate_order u64 u32].
  - done.
  - unfold validate_order, set_c_price in *. cbn [c_quantity c_execution_type c_price c_trigger_price] in *.
    rewrite (proj2 (Z.eqb_neq _ 0)) in * by lia.
    destruct (c_execution_type src); rewrite ?Hhigh; try done.
    cbn [negb]. by destruct (in_band sym (c_trigger_price src)).
  - unfold validate_order, make_iceberg. cbn [c_quantity c_execution_type c_price c_display_quantity].
    rewrite u32_small by mach. rewrite (proj2 (Z.eqb_neq _ 0)) by lia. rewrite Hin. cbn [negb].
    by rewrite (proj2 (Z.ltb_lt (c_quantity src) (c_quantity src + 1))), orb_true_r by lia.
  - unfold validate_order, make_stop. cbn [c_quantity c_execution_type c_price c_trigger_price].
    rewrite (proj2 (Z.eqb_neq _ 0)) by lia. by rewrite Hlow.
Qed.

Lemma corrupt_same mode sym src :
  c_symbol (corrupt mode sym src) = c_symbol src ∧ c_trader_id (corrupt mode sym src) = c_trader_id src ∧
  c_client_order_id (corrupt mode sym src) = c_client_order_id src.
Proof. unfold corrupt. repeat case_match; done. Qed.

Lemma corrupt_typed mode sym src :
  bot_symbol_ok sym → client_typed src → client_typed (corrupt mode sym src).
Proof.
  intros [_ _ Hband Hup] [H1 H2 H3 H4 H5 H6 H7 H8 H9]. pose proof (u64_range (sy_upper_limit sym + 500)).
  pose proof (u64_range (sy_lower_limit sym - 1)). pose proof (u32_range (c_quantity src + 1)).
  unfold corrupt. destruct (mode =? 0), (mode =? 1), (mode =? 2); split;
    cbn [c_client_order_id c_price c_trigger_price c_symbol c_symbol_id c_trader_id c_quantity c_display_quantity
      c_filled_quantity set_c_quantity set_c_price make_iceberg make_stop]; (done || mach).
Qed.

(** The orders a bot produces are those of [bot_order] as far as it sends them. *)
Lemma corrupted_order symbols sym trader src r percent :
  bot_symbol_ok sym → sym ∈ symbols → bot_order symbols trader src → valid (validate_order src sym) = true →
  c_symbol src = symbol_field (sy_symbol sym) →
  let ord := (maybe_corrupt_order_for_negative_test src sym r percent).1 in
  valid (validate_order ord sym) = true → bot_order symbols trader ord.
Proof.
  intros Hs Hin Ho Hv Hsym ord. subst ord. rewrite maybe_corrupt_eq. destruct (injected r percent); [|done].
  intros Hc. pose proof (Z.mod_pos_bound (draw (draw r).2).1 4 ltac:(lia)) as Hm. fold (mode_of r) in Hm.
  destruct (corrupt_same (mode_of r) sym src) as (E1 & E2 & E3). destruct Ho as [Hty _ Htr Hq].
  rewrite (corrupt_valid (mode_of r) sym src) in Hc by done.
  split; [by apply corrupt_typed|exists sym|by rewrite E2, E3|].
  - rewrite E1, Hsym. split_and!; [done| |apply symbol_field_string]. by rewrite corrupt_valid.
  - unfold corrupt. apply andb_true_iff in Hc as [Hm1 _]. apply Z.eqb_eq in Hm1. by rewrite Hm1.
Qed.

End generated.

(** Orders for the examples: the generator below draws from a list. *)
#[export] Instance list_engine : RandomEngine (list Z) := {
  draw r := (u64 (default 0 (head r)), tail r);
  uniform a b r := (a + default 0 (head r) mod (b - a + 1), tail r)
}.

#[export] Instance list_engine_ok : RandomEngineOk (list Z).
Proof.
  split; cbn [draw uniform list_engine fst].
  - intros r. apply u64_range.
  - intros a b r Hab. pose proof (Z.mod_pos_bound (default 0 (head r)) (b - a + 1) ltac:(lia)). lia.
Qed.

Definition aapl : SymbolInfo := mkSymbol [65; 65; 80; 76] 0 100 90 110.

Lemma aapl_ok : bot_symbol_ok aapl.
Proof. split; [apply (bool_decide_eq_true_1 _); reflexivity|split; [discriminate|reflexivity]|split; discriminate|reflexivity]. Qed.

(** A bot's own orders always pass its validation, for every symbol whose
    band is not empty: they have a quantity between 1 and 200, prices inside
    the band and, for icebergs, a display quantity between 1 and the
    quantity; the order keeps to its C++ field types and names its trader in
    the high half of its id.  No distribution is asked for an empty range. *)
Theorem build_random_order_valid {R} `{RandomEngineOk R} sym trader (r : R) :
  bot_symbol_ok sym → 0 <= trader < 2 ^ 32 →
  ∃ o r', build_random_order sym trader r = Some (o, r') ∧ bot_order [sym] trader o.
Proof.
  intros Hs Ht. destruct (build_random_order_ok [sym] sym trader r Hs) as (o & r' & H1 & H2 & _); [left|done|].
  eauto.
Qed.

Lemma build_random_order_valid_witness :
  ∃ o r', build_random_order aapl 50000 [7; 399; 1; 5; 95] = Some (o, r') ∧ bot_order [aapl] 50000 o.
Proof. apply (build_random_order_valid aapl 50000 [7; 399; 1; 5; 95]); [apply aapl_ok|lia]. Defined.

(** Which of the orders spoiled on purpose the bot recognises: exactly
    those it injected, except that the mode that raises the price above the
    band leaves a market order valid, since the price of a market order is
    not looked at. *)
Theorem corruption_detected {R} `{RandomEngineOk R} symbols trader src sym (r : R) percent :
  bot_symbol_ok sym → bot_order symbols trader src → valid (validate_order src sym) = true →
  valid (validate_order (maybe_corrupt_order_for_negative_test src sym r percent).1 sym) =
  negb (injected r percent) || ((mode_of r =? 1) && bool_decide (c_execution_type src = CMARKET)).
Proof.
  intros Hs Ho Hv. rewrite maybe_corrupt_eq. destruct (injected r percent); [|done]. cbn [negb orb].
  apply corrupt_valid; [done..|apply Ho|]. unfold mode_of. apply Z.mod_pos_bound. lia.
Qed.

(** A market order whose price is raised by 500. *)
Definition aapl_market : ClientOrderWire :=
  mkClientOrder 214748364800007 0 0 [65; 65; 80; 76; 0; 0; 0; 0] 0 50000 BUY 10 0 0 CMARKET true.

Lemma corruption_detected_witness :
  valid (validate_order (maybe_corrupt_order_for_negative_test aapl_market aapl [3; 1] 5).1 aapl) = true.
Proof.
  rewrite (corruption_detected [aapl] 50000 aapl_market aapl [3; 1] 5).
  - reflexivity.
  - apply aapl_ok.
  - split.
    + split; try (split; [discriminate|reflexivity]).
      split; [reflexivity|]. apply (bool_decide_eq_true_1 _). reflexivity.
    + exists aapl. split; [left|]. split; reflexivity.
    + split; reflexivity.
    + split; discriminate.
  - reflexivity.
Defined.

(** ** The demo bot *)

(** The prices of the demo bot lie strictly inside the band, except that the
    limit of a stop loss, two away from its trigger, may miss it by one. *)
Lemma generateSingleOrder_ok {R} `{RandomEngineOk R} symbols trader send (r : R) :
  symbols ≠ [] → Forall (λ s, bot_symbol_ok s ∧ 1 <= sy_lower_limit s ∧ sy_lower_limit s + 2 <= sy_upper_limit s) symbols →
  ∃ o r' sym, generateSingleOrder symbols trader (Some send) r = Some (Some (send o, o), r') ∧ sym ∈ symbols ∧
    c_symbol_id o = sy_symbol_id sym ∧
    (valid (validate_order o sym) = true ∨
     (c_execution_type o = CSTOP_LOSS ∧ in_band sym (c_trigger_price o) = true ∧
      sy_lower_limit sym - 1 <= c_price o <= sy_upper_limit sym + 1)).
Proof.
  intros Hne Hsy. unfold generateSingleOrder. destruct symbols as [|s0 ss] eqn:Es; [done|]. rewrite <- Es in *.
  assert ((0 < length symbols)%nat) by (subst symbols; simpl; lia). clear Es Hne.
  destruct (uniform_int_ok 0 (Z.of_nat (length symbols) - 1) r) as (i & r1 & -> & Hi); [lia|].
  cbn [mbind option_bind]. destruct (lookup_lt_is_Some_2 symbols (Z.to_nat i)) as [sym Hsym]; [lia|].
  rewrite Hsym. cbn [mbind option_bind]. apply list_elem_of_lookup_2 in Hsym as Hin.
  rewrite Forall_forall in Hsy. destruct (Hsy sym Hin) as ([Hname Hid Hband Hup] & Hlo & Hw).
  destruct (draw_ok r1) as (n1 & r2 & -> & _). destruct (draw_ok r2) as (n2 & r3 & -> & Hn2).
  destruct (draw_ok r3) as (n3 & r4 & -> & _). rewrite !u64_small by mach.
  destruct (uniform_int_ok (sy_lower_limit sym + 1) (sy_upper_limit sym - 1) r4) as (px & r5 & -> & Hpx); [lia|].
  cbn [mbind option_bind]. destruct (uniform_int_ok 0 99 r5) as (roll & r6 & -> & _); [lia|].
  cbn [mbind option_bind]. pose proof (Z.mod_pos_bound n2 50 ltac:(lia)) as Hq.
  rewrite (u32_small (n2 mod 50 + 1)) by mach. set (q := n2 mod 50 + 1) in *.
  assert (1 <= q) by (subst q; lia). assert (q / 5 <= q) by (apply Z.div_le_upper_bound; lia). clearbody q.
  assert (in_band sym px = true) as Hpb by (apply in_band_spec; lia).
  destruct (roll <? 70), (roll <? 85), (roll <? 95); cbn zeta beta iota;
    try (destruct (draw_ok r6) as (n4 & r7 & -> & _)); eexists _, _, sym; (split; [done|]); split_and!; try done;
    unfold validate_order; cbn [c_quantity c_execution_type c_price c_trigger_price c_display_quantity];
    rewrite (proj2 (Z.eqb_neq q 0)), ?Hpb by lia; cbn [negb];
    rewrite ?(proj2 (Z.eqb_neq (Z.max 1 (q / 5)) 0)), ?(proj2 (Z.ltb_ge q (Z.max 1 (q / 5)))) by lia; try by left.
  all: right; split_and!; try done; destruct (n4 mod 2 =? 0); rewrite u64_small by mach; lia.
Qed.

(** It does miss it: a sell stop at 109 in the band 90..110 with limit 111. *)
Example demo_stop_outside :
  ∃ o r', generateSingleOrder [aapl] 7 (Some (λ _, true)) [0; 1; 4; 1; 18; 70; 0] = Some (Some (true, o), r') ∧
    c_trigger_price o = 109 ∧ c_price o = 111 ∧ valid (validate_order o aapl) = false.
Proof. eexists _, _. split; [vm_compute; reflexivity|]. vm_compute. done. Qed.

(** * Connections *)

(** [orders] were written to a connection, perhaps followed by a part of one more. *)
Definition stream_of (symbols : list SymbolInfo) (trader : Z) (orders : list ClientOrderWire) (bs : bytes) : Prop :=
  Forall (bot_order symbols trader) orders ∧
  ∃ tail, bs = concat (encode_client <$> orders) ++ tail ∧ (length tail < sizeof_ClientOrder)%nat.

(** [sent] gives the complete orders of each earlier connection, [cur] those
    of the current one. *)
Record client_inv (symbols : list SymbolInfo) (trader : Z) (c : RemoteOrderClient)
  (earlier : list (list ClientOrderWire)) (cur : list ClientOrderWire) : Prop := {
  ci_fds : rc_opened c = rc_closed c ++ (if sockfd_ c =? -1 then [] else [sockfd_ c]);
  ci_fd : -1 <= sockfd_ c;
  ci_earlier : Forall2 (stream_of symbols trader) earlier (rc_earlier c);
  ci_cur : stream_of symbols trader cur (rc_stream c);
  ci_none : sockfd_ c = -1 → cur = [] ∧ rc_stream c = []
}.

(** No partial order on the current connection. *)
Definition aligned (c : RemoteOrderClient) (cur : list ClientOrderWire) : Prop :=
  rc_stream c = concat (encode_client <$> cur).

Definition net_ok (net : network) : Prop := Forall (λ a, -1 <= at_socket a) (attempts net).

Section connection.
Context (symbols : list SymbolInfo) (trader : Z).
Local Abbreviation inv := (client_inv symbols trader).

Lemma stream_of_nil : stream_of symbols trader [] [].
Proof. split; [constructor|]. exists []. split; [done|]. cbn. unfold sizeof_ClientOrder. lia. Qed.

Lemma close_socket_inv c earlier cur :
  inv c earlier cur →
  sockfd_ (close_socket c) = -1 ∧
  ∃ earlier', inv (close_socket c) earlier' [] ∧ concat earlier' = concat earlier ++ cur.
Proof.
  intros [Hf Hfd He Hc Hn]. unfold close_socket. destruct (Z.eqb_spec (sockfd_ c) (-1)) as [E|E].
  - destruct (Hn E) as [-> Hs]. split; [done|]. exists earlier. rewrite app_nil_r. split; [|done].
    by split; rewrite ?E.
  - split; [done|]. exists (earlier ++ [cur]). rewrite concat_app. cbn [concat]. rewrite app_nil_r.
    split; [|done]. split; cbn [sockfd_ rc_opened rc_closed rc_earlier rc_stream]; try done.
    + by rewrite app_nil_r.
    + apply Forall2_app; [done|by constructor].
    + apply stream_of_nil.
Qed.

Lemma open_socket_inv c earlier fd :
  inv c earlier [] → sockfd_ c = -1 → -1 <= fd → inv (open_socket fd c) earlier [].
Proof.
  intros [Hf Hfd He Hc Hn] E Hge. destruct (Hn E) as [_ Hs]. rewrite E, app_nil_r in Hf.
  split; cbn [open_socket sockfd_ rc_opened rc_closed rc_earlier rc_stream]; try done.
  rewrite Hf. destruct (Z.eqb_spec fd (-1)) as [->|Hne]; [by rewrite app_nil_r|].
  by rewrite (proj2 (Z.ltb_ge fd 0)) by lia.
Qed.

Lemma connect_loop_inv retries : ∀ c earlier net,
  inv c earlier [] → sockfd_ c = -1 → Forall (λ a, -1 <= at_socket a) net →
  ∃ ok c' net' earlier', connect_loop retries c net = (ok, c', net') ∧ inv c' earlier' [] ∧ aligned c' [] ∧
    concat earlier' = concat earlier ∧ (ok = false → sockfd_ c' = -1) ∧
    Forall (λ a, -1 <= at_socket a) net'.
Proof.
  induction retries as [|retries IH]; intros c earlier net Hi E Hnet; cbn [connect_loop].
  { eexists false, c, net, earlier. split_and!; try done. by apply (ci_none _ _ _ _ _ Hi). }
  set (a := default _ (head net)). assert (-1 <= at_socket a) as Ha.
  { subst a. destruct Hnet; cbn; [lia|done]. }
  assert (Forall (λ a, -1 <= at_socket a) (tail net)) as Hnet' by (destruct Hnet; [constructor|done]).
  pose proof (open_socket_inv c earlier (at_socket a) Hi E Ha) as Ho.
  destruct (close_socket_inv _ _ _ Ho) as (Ec & earlier' & Hc & Hcat). rewrite app_nil_r in Hcat.
  destruct (Z.ltb_spec (at_socket a) 0) as [Hneg|Hpos].
  - apply (IH _ earlier); [done| |done]. cbn. lia.
  - destruct (negb (at_pton a =? 1)); [eexists false, _, _, earlier'|destruct (at_connect a =? 0); [eexists true, _, _, earlier|]].
    + split_and!; try done. by apply (ci_none _ _ _ _ _ Hc).
    + split_and!; try done. by apply (ci_none _ _ _ _ _ Hi).
    + destruct (IH _ earlier' (tail net) Hc Ec Hnet') as (ok & c' & net' & e2 & Hrun & H1 & H2 & H3 & H4 & H5).
      eexists ok, c', net', e2. split_and!; try done. by rewrite H3.
Qed.

Lemma connect_inv c net earlier cur :
  inv c earlier cur → net_ok net →
  ∃ ok c' net' earlier', connect_with_retry c net = (ok, c', net') ∧ inv c' earlier' [] ∧ aligned c' [] ∧
    concat earlier' = concat earlier ++ cur ∧ (ok = false → sockfd_ c' = -1) ∧ net_ok net'.
Proof.
  intros Hi Hn. destruct (close_socket_inv _ _ _ Hi) as (Ec & e1 & Hc & Hcat). unfold connect_with_retry.
  destruct (connect_loop_inv 50 _ e1 (attempts net) Hc Ec Hn) as (ok & c' & l & e2 & Hrun & H1 & H2 & H3 & H4 & H5).
  rewrite Hrun. eexists ok, c', _, e2. split_and!; try done. by rewrite H3.
Qed.

Lemma send_loop_spec results : ∀ rest written,
  ∃ ok out results', send_loop rest written results = (ok, out, results') ∧
    if ok : bool then out = written ++ rest
    else ∃ k, (k < length rest)%nat ∧ out = written ++ take k rest.
Proof.
  induction results as [|n results IH]; intros rest written; cbn [send_loop]; case_bool_decide as Hr.
  - eexists true, _, _. split; [done|]. by rewrite Hr, app_nil_r.
  - eexists false, _, _. split; [done|]. exists 0%nat. rewrite app_nil_r. split; [|done].
    destruct rest; [done|simpl; lia].
  - eexists true, _, _. split; [done|]. by rewrite Hr, app_nil_r.
  - destruct (Z.leb_spec n 0).
    + eexists false, _, _. split; [done|]. exists 0%nat. rewrite app_nil_r. split; [|done].
      destruct rest; [done|simpl; lia].
    + destruct (IH (drop (Z.to_nat n) rest) (written ++ take (Z.to_nat n) rest)) as (ok & out & rs & Hrun & Hout).
      eexists ok, out, rs. split; [done|]. destruct ok.
      * by rewrite Hout, <- app_assoc, take_drop.
      * destruct Hout as (k & Hk & ->). rewrite length_drop in Hk. exists (Z.to_nat n + k)%nat.
        split; [lia|]. rewrite <- app_assoc. f_equal. rewrite <- take_take_drop. done.
Qed.

Lemma send_order_inv c net earlier cur o :
  inv c earlier cur → aligned c cur → net_ok net → bot_order symbols trader o →
  ∃ ok c' net' cur', send_order o c net = (ok, c', net') ∧ inv c' earlier cur' ∧ net_ok net' ∧
    if ok : bool then cur' = cur ++ [o] ∧ aligned c' cur' else cur' = cur.
Proof.
  intros Hi Ha Hn Ho. unfold send_order. destruct (Z.eqb_spec (sockfd_ c) (-1)) as [E|E].
  { by eexists false, c, net, cur. }
  destruct (send_loop_spec (sends net) (encode_client o) []) as (ok & out & rs & Hrun & Hout).
  rewrite Hrun. destruct Hi as [Hf Hfd He [Hc _] _].
  pose proof (length_encode_client o (proj1 (ct_symbol _ (bo_typed _ _ _ Ho)))) as Hlen. destruct ok.
  - cbn [app] in Hout. subst out. eexists true, _, _, (cur ++ [o]).
    assert (rc_stream c ++ encode_client o = concat (encode_client <$> cur ++ [o])) as Hs.
    { rewrite Ha, fmap_app, concat_app. cbn. by rewrite app_nil_r. }
    split_and!; try done. split; cbn [sockfd_ rc_opened rc_closed rc_earlier rc_stream]; try done.
    split; [apply Forall_app; split; [done|by constructor]|]. exists []. rewrite app_nil_r. split; [done|].
    unfold sizeof_ClientOrder. simpl. lia.
  - destruct Hout as (k & Hk & ->). cbn [app]. eexists false, _, _, cur. split_and!; try done.
    split; cbn [sockfd_ rc_opened rc_closed rc_earlier rc_stream]; try done.
    split; [done|]. eexists. rewrite Ha. split; [done|]. rewrite length_take. lia.
Qed.

End connection.

(** * All bots together *)

(** The sum of [f] over a list. *)
Definition total {A} (f : A → Z) (l : list A) : Z := foldr (λ x n, f x + n) 0 l.

Lemma total_app {A} (f : A → Z) l1 l2 : total f (l1 ++ l2) = total f l1 + total f l2.
Proof. induction l1 as [|x l1 IH]; cbn [app total foldr]; [done|]. unfold total in IH. rewrite IH. unfold total. lia. Qed.

Lemma total_insert {A} (f : A → Z) l i x y :
  l !! i = Some x → total f (<[i := y]> l) = total f l - f x + f y.
Proof.
  intros Hi. pose proof (lookup_lt_Some _ _ _ Hi). rewrite <- (take_drop_middle l i x Hi) at 2.
  rewrite insert_take_drop, !total_app by done. cbn [total foldr]. unfold total. lia.
Qed.

Definition running {R} (b : Bot R) : Z := match b_phase b with Connecting | Running => 1 | _ => 0 end.
Definition count {A} (l : list A) : Z := Z.of_nat (length l).

(** The orders [os] are those the bot has sent completely, over all its connections. *)
Definition bot_inv {R} (symbols : list SymbolInfo) (b : Bot R) (os : list ClientOrderWire) : Prop :=
  ∃ earlier cur, client_inv symbols (b_trader b) (b_client b) earlier cur ∧ aligned (b_client b) cur ∧
    net_ok (b_net b) ∧ os = concat earlier ++ cur ∧ 0 <= b_trader b < 2 ^ 32 ∧
    (b_phase b ≠ Running → sockfd_ (b_client b) = -1).

(** How one step of a bot moves the counters. *)
Record stats_step (d_active d_sent : Z) (st st' : Stats) : Prop := {
  ss_active : active_workers st' = active_workers st + d_active;
  ss_sent : sent_count st' = u64 (sent_count st + d_sent);
  ss_valid : valid_count st = u64 (sent_count st + send_fail_count st) →
    valid_count st' = u64 (sent_count st' + send_fail_count st')
}.

Definition stats_typed (st : Stats) : Prop := is_u64 (sent_count st).

Lemma u64_incr a b : a = u64 b → u64 (a + 1) = u64 (b + 1).
Proof. intros ->. unfold u64. by rewrite Zplus_mod_idemp_l. Qed.

Section steps.
Context {R : Type} `{RandomEngineOk R} (symbols : list SymbolInfo) (percent : Z).
Implicit Types b : Bot R.

Lemma bot_enter_inv b st os :
  bot_inv symbols b os → b_phase b = Idle → stats_typed st →
  ∃ b' st', bot_enter b st = (b', st') ∧ bot_inv symbols b' os ∧ b_trader b' = b_trader b ∧
    stats_step (running b' - running b) 0 st st'.
Proof.
  intros (earlier & cur & Hc & Ha & Hn & -> & Ht & Hs) Hph Hst.
  eexists _, _. split; [done|]. split_and!; [|done|].
  - exists earlier, cur. split_and!; try done; [apply Ht..|]. intros _. apply Hs. by rewrite Hph.
  - unfold running. rewrite Hph. split; [cbn; lia|cbn; by rewrite Z.add_0_r, u64_small|done].
Qed.

Lemma bot_connect_inv b st os :
  bot_inv symbols b os → b_phase b = Connecting → stats_typed st →
  ∃ b' st', bot_connect b st = (b', st') ∧ bot_inv symbols b' os ∧ b_trader b' = b_trader b ∧
    stats_step (running b' - running b) 0 st st'.
Proof.
  intros (earlier & cur & Hc & Ha & Hn & -> & Ht & _) Hph Hst. unfold bot_connect.
  destruct (connect_inv symbols (b_trader b) _ _ _ _ Hc Hn) as (ok & c' & net' & e' & Hrun & Hc' & Ha' & Hcat & Hok & Hn').
  assert (running b = 1) as Hr0 by (unfold running; by rewrite Hph). rewrite Hrun. destruct ok.
  - eexists _, _. split; [done|]. split_and!; [|done|].
    + exists e', []. rewrite app_nil_r, Hcat. split_and!; try done; apply Ht.
    + rewrite Hr0. split; [cbn; lia|cbn; by rewrite Z.add_0_r, u64_small|done].
  - destruct (close_socket_inv symbols (b_trader b) _ _ _ Hc') as (Hm & e2 & Hc2 & Hcat2).
    eexists _, _. split; [done|]. split_and!; [|done|].
    + exists e2, []. rewrite app_nil_r in *. split_and!; try done; [by apply (ci_none _ _ _ _ _ Hc2)|congruence|apply Ht..].
    + rewrite Hr0. split; [cbn; lia|cbn; by rewrite Z.add_0_r, u64_small|done].
Qed.

Lemma bot_exit_inv b st os :
  bot_inv symbols b os → b_phase b = Running → stats_typed st →
  ∃ b' st', bot_exit b st = (b', st') ∧ bot_inv symbols b' os ∧ b_trader b' = b_trader b ∧
    stats_step (running b' - running b) 0 st st'.
Proof.
  intros (earlier & cur & Hc & Ha & Hn & -> & Ht & _) Hph Hst.
  destruct (close_socket_inv symbols (b_trader b) _ _ _ Hc) as (Hm & e2 & Hc2 & Hcat2).
  eexists _, _. split; [done|]. split_and!; [|done|].
  - exists e2, []. rewrite app_nil_r. split_and!; try done; [by apply (ci_none _ _ _ _ _ Hc2)|apply Ht..].
  - assert (running b = 1) as -> by (unfold running; by rewrite Hph).
    split; [cbn; lia|cbn; by rewrite Z.add_0_r, u64_small|done].
Qed.

Lemma bot_iterate_inv b st os :
  Forall bot_symbol_ok symbols → symbols ≠ [] → Z.of_nat (length symbols) < 2 ^ 64 →
  bot_inv symbols b os → b_phase b = Running → stats_typed st →
  ∃ b' st' new, bot_iterate symbols percent b st = Some (b', st') ∧ bot_inv symbols b' (os ++ new) ∧
    b_trader b' = b_trader b ∧ b_phase b' = Running ∧ stats_step 0 (count new) st st'.
Proof.
  intros Hsy Hne Hlen (earlier & cur & Hc & Ha & Hn & -> & Ht & Hph) Hrun Hst. unfold bot_iterate.
  assert ((0 < length symbols)%nat) by (destruct symbols; [done|simpl; lia]).
  rewrite (u64_small (Z.of_nat (length symbols) - 1)) by mach.
  destruct (uniform_int_ok 0 (Z.of_nat (length symbols) - 1) (b_rng b)) as (i & r & -> & Hi); [lia|].
  cbn [mbind option_bind]. destruct (lookup_lt_is_Some_2 symbols (Z.to_nat i)) as [sym Hsym]; [lia|].
  rewrite Hsym. cbn [mbind option_bind]. apply list_elem_of_lookup_2 in Hsym as Hin.
  assert (bot_symbol_ok sym) as Hok by (by eapply Forall_forall in Hsy).
  destruct (build_random_order_ok symbols sym (b_trader b) r Hok Hin Ht) as (o & r1 & -> & Ho & Hov & Hos).
  cbn [mbind option_bind].
  pose proof (corrupted_order symbols sym (b_trader b) o r1 percent Hok Hin Ho Hov Hos) as Hord. cbn zeta in Hord.
  destruct (maybe_corrupt_order_for_negative_test o sym r1 percent) as [ord r2]. cbn [fst] in Hord.
  destruct (valid (validate_order ord sym)); cbn [negb].
  2: { eexists _, _, []. split; [done|]. rewrite app_nil_r. split_and!; try done; [by exists earlier, cur|].
       split; cbn; [lia|by rewrite Z.add_0_r, u64_small|done]. }
  destruct (send_order_inv symbols (b_trader b) _ _ _ _ ord Hc Ha Hn (Hord eq_refl))
    as (ok & c1 & net1 & cur1 & Hsend & Hc1 & Hn1 & Hres).
  rewrite Hsend. destruct ok.
  - destruct Hres as [-> Ha1]. eexists _, _, [ord]. split; [done|]. split_and!; try done.
    + exists earlier, (cur ++ [ord]). rewrite app_assoc. split_and!; try done; apply Ht.
    + split; cbn [active_workers sent_count valid_count send_fail_count count_sent count_valid]; [lia|done|].
      intros Hv. rewrite (u64_incr _ _ Hv). unfold u64. rewrite Zplus_mod_idemp_l. f_equal. lia.
  - subst cur1.
    destruct (connect_inv symbols (b_trader b) c1 net1 earlier cur Hc1 Hn1)
      as (ok2 & c2 & net2 & e2 & Hcon & Hc2 & Ha2 & Hcat & _ & Hn2).
    rewrite Hcon. eexists _, _, []. split; [done|]. rewrite app_nil_r. split_and!; try done.
    + exists e2, []. rewrite app_nil_r. split_and!; try done; apply Ht.
    + split; cbn [active_workers sent_count valid_count send_fail_count count_fail count_valid];
        [lia|by rewrite Z.add_0_r, u64_small|].
      intros Hv. rewrite (u64_incr _ _ Hv). unfold u64. rewrite Zplus_mod_idemp_r. f_equal. lia.
Qed.

(** ** Every reachable state *)

Record runner_inv (r : Runner R) (os : list (list ClientOrderWire)) : Prop := {
  ri_bots : Forall2 (bot_inv symbols) (bots r) os;
  ri_traders : ∀ i b, bots r !! i = Some b → b_trader b = trader_id_base + Z.of_nat i;
  ri_typed : stats_typed (stats r);
  ri_active : active_workers (stats r) = total running (bots r);
  ri_sent : sent_count (stats r) = u64 (total count os);
  ri_valid : valid_count (stats r) = u64 (sent_count (stats r) + send_fail_count (stats r))
}.

(** One bot moved. *)
Lemma runner_update l st os i b b' st' o new :
  runner_inv (mkRunner l st) os → l !! i = Some b → os !! i = Some o →
  bot_inv symbols b' (o ++ new) → b_trader b' = b_trader b →
  stats_step (running b' - running b) (count new) st st' →
  runner_inv (mkRunner (<[i := b']> l) st') (<[i := o ++ new]> os).
Proof.
  intros [Hb Htr Hty Hact Hs Hv] Hl Ho Hb' Ht [Sa Ss Sv]. cbn [bots stats] in *.
  split; cbn [bots stats].
  - by apply Forall2_insert.
  - intros j b1 Hj. apply list_lookup_insert_Some in Hj as [(-> & <- & _)|[_ Hj]]; [|by apply Htr].
    rewrite Ht. by apply Htr.
  - unfold stats_typed. rewrite Ss. apply u64_range.
  - rewrite Sa, Hact, (total_insert running l i b b' Hl). lia.
  - rewrite Ss, Hs, (total_insert count os i o _ Ho). unfold u64. rewrite Zplus_mod_idemp_l.
    f_equal. unfold count. rewrite length_app. lia.
  - by apply Sv.
Qed.

Lemma runner_step_inv r r' os :
  Forall bot_symbol_ok symbols → symbols ≠ [] → Z.of_nat (length symbols) < 2 ^ 64 →
  runner_inv r os → runner_step symbols percent r r' → ∃ os', runner_inv r' os'.
Proof.
  intros Hsy Hne Hlen Hi Hst. pose proof (ri_bots _ _ Hi) as Hb. pose proof (ri_typed _ _ Hi) as Hty.
  destruct Hst as [i b st l b' st' Hl Hph Hrun|i b st l b' st' Hl Hph Hrun|i b st l b' st' Hl Hph Hrun|i b st l b' st' Hl Hph Hrun];
    cbn [bots stats] in *; destruct (Forall2_lookup_l _ _ _ _ _ Hb Hl) as (o & Ho & Hbi).
  - destruct (bot_enter_inv b st o Hbi Hph Hty) as (b2 & st2 & Hrun2 & Hb2 & Ht & Hss).
    rewrite Hrun in Hrun2. simplify_eq. eexists. eapply (runner_update _ _ _ _ _ _ _ _ []); try done.
    by rewrite app_nil_r.
  - destruct (bot_connect_inv b st o Hbi Hph Hty) as (b2 & st2 & Hrun2 & Hb2 & Ht & Hss).
    rewrite Hrun in Hrun2. simplify_eq. eexists. eapply (runner_update _ _ _ _ _ _ _ _ []); try done.
    by rewrite app_nil_r.
  - destruct (bot_iterate_inv b st o Hsy Hne Hlen Hbi Hph Hty) as (b2 & st2 & new & Hrun2 & Hb2 & Ht & Hph2 & Hss).
    rewrite Hrun in Hrun2. simplify_eq. eexists. eapply runner_update; try done.
    unfold running. by rewrite Hph, Hph2.
  - destruct (bot_exit_inv b st o Hbi Hph Hty) as (b2 & st2 & Hrun2 & Hb2 & Ht & Hss).
    rewrite Hrun in Hrun2. simplify_eq. eexists. eapply (runner_update _ _ _ _ _ _ _ _ []); try done.
    by rewrite app_nil_r.
Qed.

Lemma make_bots_inv rng net n :
  (∀ i, net_ok (net i)) → Z.of_nat n < 2 ^ 31 →
  runner_inv (mkRunner (make_bots rng net n) (mkStats 0 0 0 0 0)) (replicate n []).
Proof.
  intros Hnet Hn. assert (trader_id_base = 50000) as HB by done.
  assert (∀ i b, make_bots rng net n !! i = Some b →
    b = mkBot Idle (trader_id_base + Z.of_nat i) (rng i) RemoteOrderClient_new (net i) ∧ (i < n)%nat) as Hlook.
  { intros i b Hb. unfold make_bots in Hb. rewrite list_lookup_fmap in Hb.
    destruct (seq 0 n !! i) as [j|] eqn:Ej; [|done]. apply lookup_seq in Ej as [-> Hj]. simplify_eq/=.
    split; [|done]. rewrite u64_small by mach. done. }
  split; cbn [bots stats].
  - apply Forall2_lookup. intros i. destruct (make_bots rng net n !! i) as [b|] eqn:Eb.
    + destruct (Hlook i b Eb) as [-> Hi]. rewrite lookup_replicate_2 by done. constructor.
      exists [], []. split_and!; try done; cbn [b_net b_trader]; try lia; [|apply Hnet].
      split; cbn; try done. apply stream_of_nil.
    + apply lookup_ge_None in Eb. unfold make_bots in Eb. rewrite length_fmap, length_seq in Eb.
      rewrite lookup_ge_None_2 by (rewrite length_replicate; lia). constructor.
  - intros i b Hb. by destruct (Hlook i b Hb) as [-> _].
  - split; cbn; lia.
  - cbn. unfold make_bots. induction (seq 0 n) as [|j l IH]; [done|]. rewrite fmap_cons. cbn [total foldr].
    unfold total in IH. by rewrite <- IH.
  - cbn. assert (total count (replicate n ([] : list ClientOrderWire)) = 0) as ->; [|done].
    clear. induction n as [|n IH]; [done|]. cbn [replicate total foldr]. unfold total in IH. by rewrite IH.
  - done.
Qed.

End steps.

Section traffic.
Context {R : Type} `{RandomEngineOk R}.

(** What a successful start of [main] has checked. *)
Lemma bots_main_run argv open_file (rng : nat → R) net cfg symbols r0 :
  bots_main argv open_file rng net = Some (inr (cfg, symbols, r0)) →
  0 < bot_count cfg < 2 ^ 31 ∧ 0 <= invalid_percent cfg <= 100 ∧ symbols ≠ [] ∧
  r0 = mkRunner (make_bots rng net (Z.to_nat (bot_count cfg))) (mkStats 0 0 0 0 0).
Proof.
  unfold bots_main. destruct (parse_args argv) as [c|] eqn:Ep; cbn [mbind option_bind]; [|done].
  destruct (usage_error c) eqn:Eu; [done|].
  destruct (load_symbols_csv _) as [l|]; cbn [mbind option_bind]; [|done]. case_bool_decide as Hl; [done|].
  intros [= <- <- <-]. unfold usage_error in Eu. rewrite !orb_false_iff in Eu. split_and!; try done; try zb.
  assert (∀ t n, stoi t = Some n → n < 2 ^ 31) as Hst.
  { intros t n. unfold stoi. destruct (match skip_spaces t with [] => _ | _ => _ end) as [neg u].
    case_bool_decide; [done|]. cbn zeta. destruct (_ && _) eqn:E; [|done]. intros [= <-].
    apply andb_true_iff in E as [_ E]. zb. }
  revert Ep. unfold parse_args. destruct (match argv !! 2%nat with Some _ => _ | None => _ end); [|done].
  cbn [mbind option_bind]. destruct (argv !! 4%nat) as [t|]; [destruct (stoi t) as [n|] eqn:E4; [|done]|];
    cbn [mbind option_bind];
    (destruct (match argv !! 5%nat with Some _ => _ | None => _ end); [|done]); cbn [mbind option_bind];
    (destruct (match argv !! 6%nat with Some _ => _ | None => _ end); [|done]); cbn [mbind option_bind];
    intros [= <-]; cbn [bot_count]; [by apply (Hst t)|done].
Qed.

Lemma reachable_inv argv open_file (rng : nat → R) net cfg symbols r0 r :
  bots_main argv open_file rng net = Some (inr (cfg, symbols, r0)) →
  Forall bot_symbol_ok symbols → Z.of_nat (length symbols) < 2 ^ 64 → (∀ i, net_ok (net i)) →
  rtc (runner_step symbols (invalid_percent cfg)) r0 r → ∃ os, runner_inv symbols r os.
Proof.
  intros (Hb & Hp & Hne & ->)%bots_main_run Hsy Hlen Hnet Hst.
  assert (∃ os, runner_inv symbols (mkRunner (make_bots rng net (Z.to_nat (bot_count cfg))) (mkStats 0 0 0 0 0)) os)
    as Hi by (eexists; apply make_bots_inv; [done|lia]).
  induction Hst as [|r1 r2 r3 Hst _ IH]; [done|]. apply IH. destruct Hi as [os Hi]. by eapply runner_step_inv.
Qed.

(** C31: Everything the bots put on the wire: with symbol rules whose lower
    limit is not above the upper one ([bot_symbol_ok]), in every reachable
    state of the bot threads, every connection of every bot carries a sequence of complete
    orders, each well-typed and valid for one of the loaded symbols, followed
    by less than one order; [sent_count] is their number over all bots,
    [valid_count] counts sent and failed ones, [active_workers] the threads
    that connect or are in their loop; every descriptor opened is closed or is the current one;
    and the next iteration of a running bot is defined. *)
Theorem bots_traffic argv open_file (rng : nat → R) net cfg symbols r0 r :
  bots_main argv open_file rng net = Some (inr (cfg, symbols, r0)) →
  Forall bot_symbol_ok symbols → Z.of_nat (length symbols) < 2 ^ 64 → (∀ i, net_ok (net i)) →
  rtc (runner_step symbols (invalid_percent cfg)) r0 r →
  ∃ os, Forall2 (λ b o, ∃ earlier cur, o = concat earlier ++ cur ∧
          Forall2 (stream_of symbols (b_trader b)) (earlier ++ [cur])
            (rc_earlier (b_client b) ++ [rc_stream (b_client b)]) ∧
          rc_opened (b_client b) = rc_closed (b_client b) ++
            (if sockfd_ (b_client b) =? -1 then [] else [sockfd_ (b_client b)])) (bots r) os ∧
    sent_count (stats r) = u64 (total count os) ∧
    valid_count (stats r) = u64 (sent_count (stats r) + send_fail_count (stats r)) ∧
    active_workers (stats r) = total running (bots r) ∧
    (∀ i b, bots r !! i = Some b → b_phase b = Running →
       is_Some (bot_iterate symbols (invalid_percent cfg) b (stats r))).
Proof.
  intros Hmain Hsy Hlen Hnet Hst. destruct (reachable_inv _ _ _ _ _ _ _ _ Hmain Hsy Hlen Hnet Hst) as (os & Hi).
  apply bots_main_run in Hmain as (_ & _ & Hne & _). destruct Hi as [Hb Htr Hty Hact Hs Hv].
  exists os. split_and!; try done.
  - eapply Forall2_impl; [exact Hb|]. intros b o (earlier & cur & [Hf _ He Hc _] & _ & _ & -> & _).
    exists earlier, cur. split_and!; [done| |done]. apply Forall2_app; [done|by constructor].
  - intros i b Hl Hph. destruct (Forall2_lookup_l _ _ _ _ _ Hb Hl) as (o & Ho & Hbi).
    destruct (bot_iterate_inv symbols (invalid_percent cfg) b (stats r) o Hsy Hne Hlen Hbi Hph Hty)
      as (b' & st' & new & -> & _). done.
Qed.

Lemma length_clients orders :
  Forall client_typed orders → length (concat (encode_client <$> orders)) = (length orders * sizeof_ClientOrder)%nat.
Proof.
  induction 1 as [|c orders Hc _ IH]; [done|]. rewrite fmap_cons. cbn [concat].
  rewrite length_app, IH, length_encode_client by apply Hc. cbn [length]. lia.
Qed.

(** C32: From the bots to the order management system: whatever a bot wrote to
    one connection, its complete orders are valid orders for the symbols that
    carry the bot's number in the high half of their ids, which keeps the ids
    of different bots apart.  In whatever pieces the bytes arrive, whether the
    connection fails or the server is stopped in between, and whenever the OMS
    takes orders from its queue while the session waits for room, the session
    puts the first of these orders into the queue, in order and behind those
    that are there, and nothing else; and all of them when the connection
    lasts to its end and the OMS takes orders often enough: once for every
    order that does not find room at the start. *)
Theorem bot_orders_enqueued argv open_file (rng : nat → R) net cfg symbols r0 r i b bs sock env s n l :
  bots_main argv open_file rng net = Some (inr (cfg, symbols, r0)) →
  Forall bot_symbol_ok symbols → Z.of_nat (length symbols) < 2 ^ 64 → (∀ i, net_ok (net i)) →
  rtc (runner_step symbols (invalid_percent cfg)) r0 r →
  bots r !! i = Some b → bs ∈ rc_earlier (b_client b) ++ [rc_stream (b_client b)] →
  payload sock = bs → 1 < n → rb_rep n (incoming_orders s) l → Forall (takes n) env →
  ∃ orders s' handed k, Z.of_nat (length orders) = Z.of_nat (length bs) / Z.of_nat sizeof_ClientOrder ∧
    Forall (bot_order symbols (trader_id_base + Z.of_nat i)) orders ∧
    concat (encode_client <$> orders) `prefix_of` bs ∧
    clientSession (S (length orders)) env sock s = Some s' ∧ handed `prefix_of` orders ∧
    rb_rep n (incoming_orders s') (drop k (l ++ handed)) ∧
    (healthy sock → Z.of_nat (length l + length orders) < n + Z.of_nat (length env) → handed = orders).
Proof.
  intros Hmain Hsy Hlen Hnet Hst Hb Hbs Hp Hn Hq Henv.
  destruct (reachable_inv _ _ _ _ _ _ _ _ Hmain Hsy Hlen Hnet Hst) as (os & [Hbots Htr _ _ _ _]).
  destruct (Forall2_lookup_l _ _ _ _ _ Hbots Hb) as (o & _ & earlier & cur & [_ _ He Hc _] & _).
  rewrite (Htr i b Hb) in He, Hc.
  assert (∃ orders, stream_of symbols (trader_id_base + Z.of_nat i) orders bs) as (orders & Ho & tail & -> & Htail).
  { apply elem_of_app in Hbs as [Hbs|Hbs].
    - apply list_elem_of_lookup_1 in Hbs as [k Hk]. destruct (Forall2_lookup_r _ _ _ _ _ He Hk) as (x & _ & Hx). eauto.
    - apply list_elem_of_singleton in Hbs as ->. eauto. }
  assert (Forall client_typed orders) as Hty by (eapply Forall_impl; [exact Ho|]; by intros ? []).
  unfold ClientOrderWire in *.
  assert (Z.of_nat (length (concat (encode_client <$> orders) ++ tail)) / Z.of_nat sizeof_ClientOrder
          = Z.of_nat (length orders)) as Hdiv.
  { rewrite length_app, length_clients by done. unfold sizeof_ClientOrder in *. symmetry.
    apply (Z.div_unique _ _ _ (Z.of_nat (length tail))); lia. }
  destruct (session_any n Hn orders tail env sock s l (S (length orders)) Hp Hty Htail Henv Hq) as (s' & handed & k & H1 & H2 & H3 & H4);
    [lia|]. exists orders, s', handed, k. rewrite Hdiv. split_and!; try done. by eexists.
Qed.

End traffic.

(** ** Examples *)

Definition no_net : network := mkNet [mkAttempt 3 1 0] [30; 42; 72].
Definition demo_file : text := header ++ [newline] ++ print_line aapl.

(** One bot connects and sends one order, in two pieces. *)
Definition demo_rng : nat → list Z := λ _, [0; 7; 399; 1; 5; 10; 99].
Definition demo_start : option (Z + Config * list SymbolInfo * Runner (list Z)) :=
  bots_main [literal "remote_bots"; literal "127.0.0.1"; literal "9000"; literal "s.csv"; literal "1"]
    (λ _, Some demo_file) demo_rng (λ _, no_net).

Definition demo_config : Config := mkConfig (literal "127.0.0.1") 9000 (literal "s.csv") 1 200 5.
Definition demo_r0 : Runner (list Z) := mkRunner (make_bots demo_rng (λ _, no_net) 1) (mkStats 0 0 0 0 0).
Definition demo_rc : Runner (list Z) :=
  match bots demo_r0 with b :: _ => let '(b, st) := bot_enter b (stats demo_r0) in mkRunner [b] st | [] => demo_r0 end.
Definition demo_r1 : Runner (list Z) :=
  match bots demo_rc with b :: _ => let '(b, st) := bot_connect b (stats demo_rc) in mkRunner [b] st | [] => demo_r0 end.
Definition demo_r2 : Runner (list Z) :=
  match bots demo_r1 with
  | b :: _ => match bot_iterate [aapl] 5 b (stats demo_r1) with Some (b, st) => mkRunner [b] st | None => demo_r1 end
  | [] => demo_r1
  end.

Definition demo_bot : Bot (list Z) := mkBot Idle 0 [] RemoteOrderClient_new no_net.

Lemma demo_main : demo_start = Some (inr (demo_config, [aapl], demo_r0)).
Proof. vm_compute. reflexivity. Qed.

(** A step of bot 0, given by its result. *)
Lemma demo_step r r' b' :
  r' = mkRunner (<[0%nat := b']> (bots r)) (stats r') → (∃ b, bots r !! 0%nat = Some b ∧
    ((b_phase b = Idle ∧ bot_enter b (stats r) = (b', stats r')) ∨
     (b_phase b = Connecting ∧ bot_connect b (stats r) = (b', stats r')) ∨
     (b_phase b = Running ∧ bot_iterate [aapl] 5 b (stats r) = Some (b', stats r')))) →
  runner_step [aapl] 5 r r'.
Proof.
  intros -> (b & Hb & [[Hp Hr]|[[Hp Hr]|[Hp Hr]]]); destruct r as [l st]; cbn [bots stats] in *.
  - by eapply run_enter.
  - by eapply run_connect.
  - by eapply run_iterate.
Qed.

Lemma demo_reachable : rtc (runner_step [aapl] 5) demo_r0 demo_r2.
Proof.
  apply (rtc_l _ _ demo_rc); [|apply (rtc_l _ _ demo_r1); [|apply rtc_once]].
  - apply (demo_step _ _ (default demo_bot (bots demo_rc !! 0%nat))); [vm_compute; reflexivity|].
    exists (default demo_bot (bots demo_r0 !! 0%nat)). split; [|left; split]; vm_compute; reflexivity.
  - apply (demo_step _ _ (default demo_bot (bots demo_r1 !! 0%nat))); [vm_compute; reflexivity|].
    exists (default demo_bot (bots demo_rc !! 0%nat)). split; [|right; left; split]; vm_compute; reflexivity.
  - apply (demo_step _ _ (default demo_bot (bots demo_r2 !! 0%nat))); [vm_compute; reflexivity|].
    exists (default demo_bot (bots demo_r1 !! 0%nat)). split; [|right; right; split]; vm_compute; reflexivity.
Qed.

Lemma no_net_ok : net_ok no_net.
Proof. constructor; [cbn; lia|constructor]. Qed.

Lemma bots_traffic_witness :
  sent_count (stats demo_r2) = 1 ∧
  valid_count (stats demo_r2) = u64 (sent_count (stats demo_r2) + send_fail_count (stats demo_r2)).
Proof.
  split; [vm_compute; reflexivity|].
  destruct (bots_traffic [literal "remote_bots"; literal "127.0.0.1"; literal "9000"; literal "s.csv"; literal "1"]
      (λ _, Some demo_file) demo_rng (λ _, no_net) demo_config [aapl] demo_r0 demo_r2)
    as (os & _ & _ & Hv & _).
  - apply demo_main.
  - constructor; [apply aapl_ok|constructor].
  - reflexivity.
  - intros _. apply no_net_ok.
  - apply demo_reachable.
  - exact Hv.
Defined.

Definition demo_stream : bytes := match bots demo_r2 with b :: _ => rc_stream (b_client b) | [] => [] end.

(** The queue has one slot, which is taken; the OMS takes the order in it. *)
Definition full_oms : OMS :=
  match push wire_order (RingBuffer_new ClientOrder_default 2) with
  | Some (_, q) => set_incoming q idle_oms
  | None => idle_oms
  end.
Definition take_one (s : OMS) : option OMS := '(_, q) ← pop (incoming_orders s); Some (set_incoming q s).

Lemma take_one_takes n : takes n take_one.
Proof.
  intros s l Hq. pose proof (pop_ok n _ l Hq) as Hp. unfold take_one. destruct l as [|c l].
  - rewrite Hp. cbn [mbind option_bind]. exists (set_incoming (incoming_orders s) s), 0%nat. by split_and!.
  - destruct Hp as (q & -> & Hq'). cbn [mbind option_bind]. exists (set_incoming q s), 1%nat.
    split_and!; [done|cbn [length]; lia|exact Hq'|lia].
Qed.

Lemma full_oms_rep : rb_rep 2 (incoming_orders full_oms) [wire_order].
Proof.
  assert (rb_rep 2 (RingBuffer_new ClientOrder_default 2) []) as Hq.
  { apply RingBuffer_new_rep. split; [exists 1, 0; split; [lia|]; split; [lia|]; split; reflexivity|lia|lia]. }
  destruct (push_ok 2 _ [] wire_order Hq) as (q & Hp & Hq'). unfold full_oms. by rewrite Hp.
Qed.

Lemma bot_orders_enqueued_witness :
  ∃ orders s' handed k, Z.of_nat (length orders) = 1 ∧ handed = orders ∧
    clientSession (S (length orders)) [take_one] [Data demo_stream; Closed] full_oms = Some s' ∧
    rb_rep 2 (incoming_orders s') (drop k ([wire_order] ++ handed)).
Proof.
  destruct (bot_orders_enqueued
      [literal "remote_bots"; literal "127.0.0.1"; literal "9000"; literal "s.csv"; literal "1"]
      (λ _, Some demo_file) demo_rng (λ _, no_net) demo_config [aapl] demo_r0 demo_r2 0
      (default demo_bot (bots demo_r2 !! 0%nat)) demo_stream
      [Data demo_stream; Closed] [take_one] full_oms 2 [wire_order])
    as (orders & s' & handed & k & H1 & _ & _ & H2 & _ & H3 & H4).
  - apply demo_main.
  - constructor; [apply aapl_ok|constructor].
  - reflexivity.
  - intros _. apply no_net_ok.
  - apply demo_reachable.
  - vm_compute. reflexivity.
  - vm_compute. left.
  - cbn [payload]. by rewrite app_nil_r.
  - reflexivity.
  - apply full_oms_rep.
  - constructor; [apply take_one_takes|constructor].
  - assert (Z.of_nat (length orders) = 1) as H5 by (rewrite H1; vm_compute; reflexivity).
    exists orders, s', handed, k. split_and!; [exact H5| |exact H2|exact H3].
    apply H4; [split; [vm_compute; discriminate|exact I]|]. cbn [length]. lia.
Defined.
