(* ===== verification/BotMain.v ===== *)
(** The end of a bot run: [main] of bots/run.cpp after the worker threads are
    created.  The monitor loop stops the program when no worker is active, a
    signal stops it at any time, and [main] then joins the workers and prints
    the final counters.

    [main_step] adds the flag [keep_running] and the main thread to the steps
    of the bots ([Bots.runner_step]).  The theorem is that [main] returns
    after a bounded number of steps once the flag is reset, whatever the
    sockets do, with every connection closed and the counters right. *)

From S2P Require Import Prelude Types Oms Wire Server SymbolLoader Bots.

(** The main thread: in the monitor loop, joining worker [k], returned. *)
Inductive main_phase := Monitoring | Joining (k : nat) | Returned (code : Z) (final : Stats).

Record Main (R : Type) := mkMain {
  runner : Runner R;
  keep_running : bool;
  main_at : main_phase
}.
Arguments mkMain {R}. Arguments runner {R}. Arguments keep_running {R}. Arguments main_at {R}.

(** What the monitor loop leaves in [keep_running]. *)
Definition monitor (st : Stats) (keep : bool) : bool := if active_workers st =? 0 then false else keep.

Definition signal_handler {R} (x : Main R) : Main R := mkMain (runner x) false (main_at x).

Section main.
Context {R : Type} `{RandomEngine R}.

(** All threads are created; no worker has run yet. *)
Definition main_created (r0 : Runner R) : Main R := mkMain r0 true Monitoring.

(** The worker threads, the main thread and the signal handler, in any order.
    A signal that finds the flag reset changes nothing and is left out. *)
Inductive main_step (symbols : list SymbolInfo) (percent : Z) : Main R → Main R → Prop :=
| main_enter i b l st b' st' keep m : l !! i = Some b → b_phase b = Idle → bot_enter b st = (b', st') →
    main_step symbols percent (mkMain (mkRunner l st) keep m) (mkMain (mkRunner (<[i := b']> l) st') keep m)
| main_connect i b l st b' st' keep m : l !! i = Some b → b_phase b = Connecting → bot_connect b st = (b', st') →
    main_step symbols percent (mkMain (mkRunner l st) keep m) (mkMain (mkRunner (<[i := b']> l) st') keep m)
| main_iterate i b l st b' st' m : l !! i = Some b → b_phase b = Running →
    bot_iterate symbols percent b st = Some (b', st') →
    main_step symbols percent (mkMain (mkRunner l st) true m) (mkMain (mkRunner (<[i := b']> l) st') true m)
| main_exit i b l st b' st' m : l !! i = Some b → b_phase b = Running → bot_exit b st = (b', st') →
    main_step symbols percent (mkMain (mkRunner l st) false m) (mkMain (mkRunner (<[i := b']> l) st') false m)
| main_signal x : keep_running x = true → main_step symbols percent x (signal_handler x)
| main_monitor r : main_step symbols percent (mkMain r true Monitoring) (mkMain r (monitor (stats r) true) Monitoring)
| main_leave r : main_step symbols percent (mkMain r false Monitoring) (mkMain r false (Joining 0))
| main_join r keep k b : bots r !! k = Some b → b_phase b = Ended →
    main_step symbols percent (mkMain r keep (Joining k)) (mkMain r keep (Joining (S k)))
| main_return r keep k : bots r !! k = None →
    main_step symbols percent (mkMain r keep (Joining k)) (mkMain r keep (Returned 0 (stats r))).

(** ** Invariants *)

Definition all_ended (l : list (Bot R)) : Prop := Forall (λ b, b_phase b = Ended) l.

(** Where the main thread is, the flag and the workers agree. *)
Definition main_inv (x : Main R) : Prop :=
  match main_at x with
  | Monitoring => True
  | Joining k => keep_running x = false ∧ all_ended (take k (bots (runner x)))
  | Returned code final => keep_running x = false ∧ all_ended (bots (runner x)) ∧ code = 0 ∧ final = stats (runner x)
  end.

Context (symbols : list SymbolInfo) (percent : Z).
Implicit Types x y : Main R.

(** A worker that moves has not ended, so the ended ones stay. *)
Lemma ended_insert (l : list (Bot R)) i b b' k :
  l !! i = Some b → b_phase b ≠ Ended → all_ended (take k l) → all_ended (take k (<[i := b']> l)).
Proof.
  intros Hi Hb Hl. destruct (decide (k ≤ i)%nat); [by rewrite take_insert_ge by lia|].
  destruct Hb. unfold all_ended in Hl. rewrite Forall_lookup in Hl. apply (Hl i). by rewrite lookup_take_lt by lia.
Qed.

Lemma main_inv_worker l st keep m i b b' st' :
  l !! i = Some b → b_phase b ≠ Ended → main_inv (mkMain (mkRunner l st) keep m) →
  main_inv (mkMain (mkRunner (<[i := b']> l) st') keep m).
Proof.
  intros Hi Hb. unfold main_inv. destruct m as [|k|code final]; cbn [main_at keep_running runner bots stats].
  - done.
  - intros [Hk Hl]. split; [done|]. by eapply ended_insert.
  - intros (_ & Hl & _). destruct Hb. unfold all_ended in Hl. rewrite Forall_lookup in Hl. by apply (Hl i).
Qed.

Lemma main_step_inv x y : main_inv x → main_step symbols percent x y → main_inv y.
Proof.
  intros Hx Hst. destruct Hst as
    [i b l st b' st' keep m Hi Hp Hr|i b l st b' st' keep m Hi Hp Hr|i b l st b' st' m Hi Hp Hr
    |i b l st b' st' m Hi Hp Hr|x Hk|r|r|r keep k b Hb Hp|r keep k Hk].
  - eapply main_inv_worker; [done|by rewrite Hp|done].
  - eapply main_inv_worker; [done|by rewrite Hp|done].
  - eapply main_inv_worker; [done|by rewrite Hp|done].
  - eapply main_inv_worker; [done|by rewrite Hp|done].
  - revert Hx. unfold main_inv, signal_handler. cbn [main_at keep_running runner]. rewrite Hk.
    destruct (main_at x); [done|naive_solver..].
  - done.
  - split; [done|]. constructor.
  - destruct Hx as [Hk Hl]. split; [done|]. cbn [runner] in *. erewrite take_S_r by done.
    apply Forall_app. split; [done|by constructor].
  - destruct Hx as [Hf Hl]. split_and!; try done. cbn [runner] in *. rewrite take_ge in Hl; [done|].
    by apply lookup_ge_None.
Qed.

(** What the workers do is a run of [Bots.runner_step]. *)
Lemma main_step_runner x y : main_step symbols percent x y → rtc (runner_step symbols percent) (runner x) (runner y).
Proof.
  intros []; cbn [runner signal_handler]; try apply rtc_refl; apply rtc_once.
  - by eapply run_enter.
  - by eapply run_connect.
  - by eapply run_iterate.
  - by eapply run_exit.
Qed.

Lemma main_run x y : main_inv x → rtc (main_step symbols percent) x y →
  main_inv y ∧ rtc (runner_step symbols percent) (runner x) (runner y).
Proof.
  intros Hx Hst. induction Hst as [x|x y z Hst _ IH]; [split; [done|apply rtc_refl]|].
  destruct (IH (main_step_inv _ _ Hx Hst)) as [H1 H2]. split; [done|].
  etrans; [by apply main_step_runner|done].
Qed.

(** The flag is reset by a signal, or by the monitor when no worker is active. *)
Lemma keep_running_reset x y :
  main_step symbols percent x y → keep_running x = true → keep_running y = false →
  y = signal_handler x ∨ active_workers (stats (runner x)) = 0.
Proof.
  intros [] Hx Hy; cbn in *; try congruence; [by left|]. right. unfold monitor in Hy.
  destruct (Z.eqb_spec (active_workers (stats r)) 0); [done|done].
Qed.

(** ** The shutdown *)

(** The steps a worker, and the main thread, have left once the flag is reset. *)
Definition todo (b : Bot R) : Z := match b_phase b with Idle => 3 | Connecting => 2 | Running => 1 | Ended => 0 end.
Definition main_todo (n : nat) (m : main_phase) : Z :=
  match m with Monitoring => Z.of_nat n + 2 | Joining k => Z.of_nat (n - k) + 1 | Returned _ _ => 0 end.
Definition remaining x : Z := total todo (bots (runner x)) + main_todo (length (bots (runner x))) (main_at x).

Lemma total_bounds {A} (f : A → Z) (c : Z) l : (∀ a, 0 <= f a <= c) → 0 <= total f l <= c * Z.of_nat (length l).
Proof. intros Hf. induction l as [|a l IH]; cbn [total foldr length]; [lia|]. specialize (Hf a). unfold total in IH. lia. Qed.

Lemma todo_bounds b : 0 <= todo b <= 3.
Proof. unfold todo. destruct (b_phase b); lia. Qed.

Lemma remaining_bounds x : 0 <= remaining x <= 4 * Z.of_nat (length (bots (runner x))) + 2.
Proof.
  unfold remaining. pose proof (total_bounds todo 3 (bots (runner x)) todo_bounds).
  unfold main_todo. destruct (main_at x); lia.
Qed.

Lemma remaining_worker l st keep m i b b' st' :
  l !! i = Some b → todo b' < todo b →
  remaining (mkMain (mkRunner (<[i := b']> l) st') keep m) < remaining (mkMain (mkRunner l st) keep m).
Proof.
  intros Hi Hb. unfold remaining. cbn [runner bots main_at]. rewrite length_insert, (total_insert todo l i b b' Hi). lia.
Qed.

Lemma remaining_step x y : keep_running x = false → main_step symbols percent x y →
  keep_running y = false ∧ remaining y < remaining x.
Proof.
  intros Hx Hst. destruct Hst as
    [i b l st b' st' keep m Hi Hp Hr|i b l st b' st' keep m Hi Hp Hr|i b l st b' st' m Hi Hp Hr
    |i b l st b' st' m Hi Hp Hr|x Hk|r|r|r keep k b Hb Hp|r keep k Hk]; cbn in Hx; try congruence;
    (split; [done|]).
  - apply (remaining_worker _ _ _ _ _ b); [done|]. injection Hr as <- <-. unfold todo. by rewrite Hp.
  - apply (remaining_worker _ _ _ _ _ b); [done|]. revert Hr. unfold bot_connect.
    destruct (connect_with_retry _ _) as [[[] c] net]; intros [= <- <-]; unfold todo; by rewrite Hp.
  - apply (remaining_worker _ _ _ _ _ b); [done|]. injection Hr as <- <-. unfold todo. by rewrite Hp.
  - unfold remaining. cbn [runner main_at main_todo]. lia.
  - apply lookup_lt_Some in Hb. unfold remaining. cbn [runner main_at main_todo]. lia.
  - unfold remaining. cbn [runner main_at main_todo]. lia.
Qed.

Lemma remaining_run n x y : keep_running x = false → nsteps (main_step symbols percent) n x y →
  keep_running y = false ∧ Z.of_nat n + remaining y <= remaining x.
Proof.
  intros Hx Hst. induction Hst as [x|n x y z Hst _ IH]; [split; [done|lia]|].
  destruct (remaining_step _ _ Hx Hst) as [Hy Hlt]. destruct (IH Hy) as [Hz Hle]. split; [done|lia].
Qed.

Lemma runner_run_length (r r' : Runner R) :
  rtc (runner_step symbols percent) r r' → length (bots r') = length (bots r).
Proof.
  intros Hst. induction Hst as [r|r1 r2 r3 Hst _ IH]; [done|]. rewrite IH.
  destruct Hst; cbn [bots]; apply length_insert.
Qed.

(** Until it returns, some thread can move. *)
Lemma main_progress x : keep_running x = false → (∀ code final, main_at x ≠ Returned code final) →
  ∃ y, main_step symbols percent x y.
Proof.
  destruct x as [[l st] keep m]. cbn [keep_running main_at]. intros -> Hm. destruct m as [|k|code final].
  - eexists. apply main_leave.
  - destruct (l !! k) as [b|] eqn:Hb; [|eexists; by apply main_return].
    destruct (b_phase b) eqn:Hp.
    + destruct (bot_enter b st) as [b' st'] eqn:E. eexists. by eapply main_enter.
    + destruct (bot_connect b st) as [b' st'] eqn:E. eexists. by eapply main_connect.
    + destruct (bot_exit b st) as [b' st'] eqn:E. eexists. by eapply main_exit.
    + eexists. by eapply main_join.
  - by destruct (Hm code final).
Qed.

End main.

Lemma all_ended_total {R} (l : list (Bot R)) : all_ended l → total running l = 0.
Proof.
  intros Hl. induction Hl as [|b l Hb _ IH]; [done|]. cbn [total foldr]. unfold total in IH. rewrite IH.
  unfold running. by rewrite Hb.
Qed.

Section shutdown.
Context {R : Type} `{RandomEngineOk R}.

(** The state in which [main] returns: the orders of each bot's connections,
    all of them closed, and the counters. *)
Record clean_end (symbols : list SymbolInfo) (x : Main R) (os : list (list ClientOrderWire)) : Prop := {
  ce_returned : main_at x = Returned 0 (stats (runner x));
  ce_ended : all_ended (bots (runner x));
  ce_closed : Forall (λ b, rc_closed (b_client b) = rc_opened (b_client b)) (bots (runner x));
  ce_orders : Forall2 (λ b o, ∃ streams, o = concat streams ∧
    Forall2 (stream_of symbols (b_trader b)) streams (rc_earlier (b_client b))) (bots (runner x)) os;
  ce_active : active_workers (stats (runner x)) = 0;
  ce_sent : sent_count (stats (runner x)) = u64 (total count os);
  ce_valid : valid_count (stats (runner x)) = u64 (sent_count (stats (runner x)) + send_fail_count (stats (runner x)))
}.

Lemma ended_clean symbols x os : runner_inv symbols (runner x) os → all_ended (bots (runner x)) →
  main_at x = Returned 0 (stats (runner x)) → clean_end symbols x os.
Proof.
  intros [Hb _ _ Hact Hs Hv] He Hr. split; try done.
  - apply Forall_lookup. intros i b Hi. destruct (Forall2_lookup_l _ _ _ _ _ Hb Hi) as (o & _ & e & cur & Hc & _ & _ & _ & _ & Hfd).
    assert (b_phase b ≠ Running) as Hp by (by rewrite (Forall_lookup_1 _ _ _ _ He Hi)).
    rewrite (ci_fds _ _ _ _ _ Hc), (Hfd Hp). cbn. by rewrite app_nil_r.
  - apply Forall2_same_length_lookup_2; [by eapply Forall2_length|]. intros i b o Hi Ho.
    destruct (Forall2_lookup_lr _ _ _ _ _ _ Hb Hi Ho) as (e & cur & Hc & _ & _ & -> & _ & Hfd).
    assert (b_phase b ≠ Running) as Hp by (by rewrite (Forall_lookup_1 _ _ _ _ He Hi)).
    destruct (ci_none _ _ _ _ _ Hc (Hfd Hp)) as [-> _]. exists e. rewrite app_nil_r. split; [done|apply Hc].
  - rewrite Hact. by apply all_ended_total.
Qed.

(** C33: The bot runner stops.  From any state of the run in which [keep_running]
    is reset, by a signal or by the monitor, and whatever the sockets do, at
    most four steps per bot and two more are possible, some thread can move
    until [main] has returned, and it returns 0 with every worker ended, every
    descriptor closed, on every connection complete valid orders followed by
    less than one, and counters that agree with what was sent. *)
Theorem bots_shutdown argv open_file (rng : nat → R) net cfg symbols r0 x :
  bots_main argv open_file rng net = Some (inr (cfg, symbols, r0)) →
  Forall bot_symbol_ok symbols → Z.of_nat (length symbols) < 2 ^ 64 → (∀ i, net_ok (net i)) →
  rtc (main_step symbols (invalid_percent cfg)) (main_created r0) x → keep_running x = false →
  (∀ n y, nsteps (main_step symbols (invalid_percent cfg)) n x y → Z.of_nat n <= 4 * bot_count cfg + 2) ∧
  (∀ y, rtc (main_step symbols (invalid_percent cfg)) x y →
     (∃ z, main_step symbols (invalid_percent cfg) y z) ∨ ∃ os, clean_end symbols y os).
Proof.
  intros Hmain Hsy Hlen Hnet Hx Hk. destruct (main_run _ _ _ _ (I : main_inv (main_created r0)) Hx) as [Hi Hr]. cbn [runner main_created] in Hr. split.
  - intros n y Hn. destruct (remaining_run _ _ _ _ _ Hk Hn) as [_ Hle]. pose proof (remaining_bounds y).
    pose proof (remaining_bounds x) as Hbx. rewrite (runner_run_length _ _ _ _ Hr) in Hbx.
    destruct (bots_main_run _ _ _ _ _ _ _ Hmain) as (Hb & _ & _ & ->). cbn [bots] in Hbx.
    unfold make_bots in Hbx. rewrite length_fmap, length_seq in Hbx. lia.
  - intros y Hy. destruct (main_run _ _ _ _ Hi Hy) as [Hiy Hry].
    assert (keep_running y = false) as Hky.
    { apply rtc_nsteps in Hy as [n Hn]. by destruct (remaining_run _ _ _ _ _ Hk Hn). }
    destruct (main_at y) as [|k|code final] eqn:Em; [left; apply main_progress; [done|by rewrite Em]..|right].
    unfold main_inv in Hiy. rewrite Em in Hiy. destruct Hiy as (_ & He & -> & ->).
    destruct (reachable_inv _ _ _ _ _ _ _ (runner y) Hmain Hsy Hlen Hnet) as [os Hos]; [by etrans|].
    exists os. by apply ended_clean.
Qed.

End shutdown.

(** ** Examples *)

(** [SIGINT] after the bot of [Bots.demo_r2] has sent its order. *)
Definition demo_stopped : Main (list Z) := mkMain demo_r2 false Monitoring.

(** A worker that moves before the signal. *)
Lemma demo_worker r r' b' keep :
  r' = mkRunner (<[0%nat := b']> (bots r)) (stats r') → (∃ b, bots r !! 0%nat = Some b ∧
    ((b_phase b = Idle ∧ bot_enter b (stats r) = (b', stats r')) ∨
     (b_phase b = Connecting ∧ bot_connect b (stats r) = (b', stats r')) ∨
     (b_phase b = Running ∧ keep = true ∧ bot_iterate [aapl] 5 b (stats r) = Some (b', stats r')))) →
  main_step [aapl] 5 (mkMain r keep Monitoring) (mkMain r' keep Monitoring).
Proof.
  intros -> (b & Hb & [[Hp Hr]|[[Hp Hr]|(Hp & -> & Hr)]]); destruct r as [l st]; cbn [bots stats] in *.
  - by eapply main_enter.
  - by eapply main_connect.
  - by eapply main_iterate.
Qed.

Lemma demo_stops : rtc (main_step [aapl] 5) (main_created demo_r0) demo_stopped.
Proof.
  apply (rtc_l _ _ (mkMain demo_rc true Monitoring)).
  { apply (demo_worker _ _ (default demo_bot (bots demo_rc !! 0%nat))); [vm_compute; reflexivity|].
    exists (default demo_bot (bots demo_r0 !! 0%nat)). split; [|left; split]; vm_compute; reflexivity. }
  apply (rtc_l _ _ (mkMain demo_r1 true Monitoring)).
  { apply (demo_worker _ _ (default demo_bot (bots demo_r1 !! 0%nat))); [vm_compute; reflexivity|].
    exists (default demo_bot (bots demo_rc !! 0%nat)). split; [|right; left; split]; vm_compute; reflexivity. }
  apply (rtc_l _ _ (mkMain demo_r2 true Monitoring)).
  { apply (demo_worker _ _ (default demo_bot (bots demo_r2 !! 0%nat))); [vm_compute; reflexivity|].
    exists (default demo_bot (bots demo_r1 !! 0%nat)). split; [|right; right; split_and!]; vm_compute; reflexivity. }
  apply rtc_once. by apply (main_signal [aapl] 5 (mkMain demo_r2 true Monitoring)).
Qed.

Lemma bots_shutdown_witness :
  (∃ z, main_step [aapl] 5 demo_stopped z) ∨ ∃ os, clean_end [aapl] demo_stopped os.
Proof.
  destruct (bots_shutdown [literal "remote_bots"; literal "127.0.0.1"; literal "9000"; literal "s.csv"; literal "1"]
      (λ _, Some demo_file) demo_rng (λ _, no_net) demo_config [aapl] demo_r0 demo_stopped) as [_ H].
  - apply demo_main.
  - constructor; [apply aapl_ok|constructor].
  - reflexivity.
  - intros _. apply no_net_ok.
  - apply demo_stops.
  - reflexivity.
  - apply H, rtc_refl.
Defined.

(** The workers count themselves in their own threads: a monitor round that
    comes before the first worker runs finds no active worker and stops the
    program, and the bots then connect and send nothing. *)
Lemma stopped_before_started {R} `{RandomEngine R} symbols percent (rng : nat → R) net n :
  main_step symbols percent (main_created (mkRunner (make_bots rng net n) (mkStats 0 0 0 0 0)))
    (mkMain (mkRunner (make_bots rng net n) (mkStats 0 0 0 0 0)) false Monitoring).
Proof. apply (main_monitor symbols percent (mkRunner (make_bots rng net n) (mkStats 0 0 0 0 0))). Qed.
