(* ===== verification/OmsLoop.v ===== *)
(** The OMS thread as it runs beside the engine: [listenForClientOrder] of
    src/oms.cpp cut into the pieces between two accesses to shared memory,
    and the invariant every piece keeps.

    [listenForClientOrder_step] of [Oms] is an iteration of the loop on a
    shared memory that does not change meanwhile; here the memory may be a
    different one for every piece.  [run_oms_iteration] relates the two. *)

From S2P Require Import Prelude Types Heap TradeRing RingBuffer Engine Oms OmsTheorems Wire.

(** * The loop as a machine *)

(** Where the thread stands: before the intake, at the test of the [while] loop over
    ring [i], before the look at the price of symbol [i]. *)
Inductive oms_pc := AtIntake | AtRing (i : nat) | AtPrice (i : nat).

Section machine.
Context (clock : nat → Z) (junk_price : Z).
Implicit Types s : OMS.

Definition intake s : option OMS :=
  '(item, q) ← pop (incoming_orders s);
  let s := set_incoming q s in
  match item with Some c => handle_client_order clock junk_price c s | None => Some s end.

(** [None] as first component: [any_new_trade] was false. *)
Definition poll_one (i : nat) (mem : ring_mem) s : option (option Trade * OMS) :=
  h ← trade_consumers s !! i;
  if any_new_trade h mem then
    let '(t, h) := get_trade 0 (mkTrade 0 0 0 0 0 0 0) h mem in
    t ← t;
    s ← check_fill clock t (set_consumers (<[i := h]> (trade_consumers s)) s);
    Some (Some t, s)
  else Some (None, s).

Definition look_price (i : nat) (current_ltp : Z) s : option OMS :=
  seen ← last_seen_price s !! i;
  if current_ltp =? seen then Some s
  else
    s ← checkAndTriggerSL clock (Z.of_nat i) current_ltp s;
    Some (set_last_seen (<[i := current_ltp]> (last_seen_price s)) s).

(** [mems] and [ltp] are the rings and the prices at the moment of the step;
    [ltp = None] when the prices could not be mapped. *)
Definition oms_micro (mems : list ring_mem) (ltp : option (list Z)) (pc : oms_pc) s : option (oms_pc * OMS) :=
  match pc with
  | AtIntake => s ← intake s; Some (AtRing 0, s)
  | AtRing i =>
      if (Z.to_nat GROUP_COUNT <=? i)%nat
      then Some (match ltp with Some _ => AtPrice 0 | None => AtIntake end, s)
      else
        mem ← mems !! i;
        '(t, s) ← poll_one i mem s;
        Some (match t with Some _ => AtRing i | None => AtRing (S i) end, s)
  | AtPrice i =>
      if (Z.to_nat MAX_SYMBOLS <=? i)%nat then Some (AtIntake, s)
      else
        l ← ltp;
        current_ltp ← l !! i;
        s ← look_price i current_ltp s;
        Some (AtPrice (S i), s)
  end.

(** Run to the next intake on a memory that stays as it is. *)
Fixpoint run_oms (k : nat) (mems : list ring_mem) (ltp : option (list Z)) (pc : oms_pc) s : option OMS :=
  match pc with
  | AtIntake => Some s
  | _ =>
      match k with
      | O => None
      | S k => '(pc, s) ← oms_micro mems ltp pc s; run_oms k mems ltp pc s
      end
  end.

(** ** Equivalence with the iteration *)

Lemma send_slice_consumers l pid s :
  send_slice clock pid (set_consumers l s) = set_consumers l (send_slice clock pid s).
Proof. unfold send_slice. cbn [active_icebergs set_consumers]. by repeat case_match. Qed.

Lemma leg_consumers l cid t s :
  process_iceberg_leg clock cid t (set_consumers l s) = set_consumers l <$> process_iceberg_leg clock cid t s.
Proof.
  unfold process_iceberg_leg. cbn [child_to_parent set_consumers]. destruct (child_to_parent s !! cid) as [pid|]; [|done].
  cbn [active_icebergs]. destruct (c_display_quantity _ =? 0); [done|].
  cbn [fmap option_fmap option_map]. f_equal. destruct (_ || _); [|done].
  rewrite <- send_slice_consumers. done.
Qed.

Lemma check_fill_consumers l t s :
  check_fill clock t (set_consumers l s) = set_consumers l <$> check_fill clock t s.
Proof.
  unfold check_fill. destruct (_ && _); [done|].
  destruct (has_iceberg_bit (t_buy_order_id t)), (has_iceberg_bit (t_sell_order_id t)); cbn [mbind option_bind]; try done.
  - rewrite leg_consumers. destruct (process_iceberg_leg _ _ _ s); [|done]. cbn. apply leg_consumers.
  - rewrite leg_consumers. by destruct (process_iceberg_leg _ _ _ s).
  - apply leg_consumers.
Qed.

Lemma check_fill_keeps t s s' :
  check_fill clock t s = Some s' → trade_consumers s' = trade_consumers s.
Proof.
  intros H. pose proof (check_fill_consumers (trade_consumers s) t s) as Hc.
  replace (set_consumers (trade_consumers s) s) with s in Hc by by destruct s.
  rewrite H in Hc. apply (inj Some) in Hc. by rewrite Hc.
Qed.

Section still.
Context (mems : list ring_mem) (ltp : option (list Z)).

(** The next intake is reached from [pc] with state [r]. *)
Definition reaches (pc : oms_pc) s (r : OMS) : Prop := ∃ k, run_oms k mems ltp pc s = Some r.

Lemma reaches_step pc s pc' s' r :
  pc ≠ AtIntake → oms_micro mems ltp pc s = Some (pc', s') → reaches pc' s' r → reaches pc s r.
Proof. intros Hpc Hm [k Hk]. exists (S k). cbn [run_oms]. rewrite Hm. by destruct pc. Qed.

(** One test of the [while] loop over ring [i]. *)
Lemma ring_micro i mem l h s :
  mems !! i = Some mem → (i < Z.to_nat GROUP_COUNT)%nat → (i < length l)%nat →
  oms_micro mems ltp (AtRing i) (set_consumers (<[i := h]> l) s) =
  if any_new_trade h mem then
    let '(t, h) := get_trade 0 (mkTrade 0 0 0 0 0 0 0) h mem in
    t ← t; s ← check_fill clock t s; Some (AtRing i, set_consumers (<[i := h]> l) s)
  else Some (AtRing (S i), set_consumers (<[i := h]> l) s).
Proof.
  intros Hmem Hi Hl. cbn [oms_micro]. rewrite (proj2 (Nat.leb_gt _ _) Hi), Hmem. cbn [mbind option_bind].
  unfold poll_one. cbn [trade_consumers set_consumers]. rewrite list_lookup_insert_eq by done.
  cbn [mbind option_bind]. destruct (any_new_trade h mem); [|done].
  destruct (get_trade _ _ h mem) as [[t|] h']; [|done]. cbn [mbind option_bind].
  rewrite list_insert_insert_eq. change (mkOMS _ _ _ _ _ _ _ _ ?l' _ _) with (set_consumers l' s).
  change (set_consumers (<[i := h']> l) (set_consumers _ s)) with (set_consumers (<[i := h']> l) s).
  rewrite check_fill_consumers. by destruct (check_fill clock t s).
Qed.

Lemma ring_reaches i mem l fuel : ∀ h s h' s' r,
  mems !! i = Some mem → (i < Z.to_nat GROUP_COUNT)%nat → (i < length l)%nat →
  poll_ring clock fuel h mem s = Some (h', s') →
  reaches (AtRing (S i)) (set_consumers (<[i := h']> l) s') r → reaches (AtRing i) (set_consumers (<[i := h]> l) s) r.
Proof.
  induction fuel as [|fuel IH]; intros h s h' s' r Hmem Hi Hl Hp Hr;
    pose proof (ring_micro i mem l h s Hmem Hi Hl) as Hm; cbn [poll_ring] in Hp;
    destruct (any_new_trade h mem); [done|injection Hp as <- <-; by eapply reaches_step| |
      injection Hp as <- <-; by eapply reaches_step].
  destruct (get_trade _ _ h mem) as [t h1]. apply bind_Some in Hp as (t' & -> & Hp).
  apply bind_Some in Hp as (s1 & Hc & Hp). cbn [mbind option_bind] in Hm. rewrite Hc in Hm.
  eapply reaches_step; [done|exact Hm|]. by eapply IH.
Qed.

Lemma poll_ring_keeps fuel : ∀ h mem s h' s',
  poll_ring clock fuel h mem s = Some (h', s') → trade_consumers s' = trade_consumers s.
Proof.
  induction fuel as [|fuel IH]; intros h mem s h' s'; cbn [poll_ring];
    (destruct (any_new_trade h mem); [|by intros [= <- <-]]); [done|].
  destruct (get_trade _ _ h mem) as [t h1]. intros (t' & _ & H)%bind_Some.
  apply bind_Some in H as (s1 & H1%check_fill_keeps & H). rewrite <- H1. by eapply IH.
Qed.

Lemma rings_reach fuel s s' r :
  poll_rings clock fuel mems s = Some s' →
  reaches (AtRing (Z.to_nat GROUP_COUNT)) s' r → reaches (AtRing 0) s r.
Proof.
  unfold poll_rings. change (seq 0 (Z.to_nat GROUP_COUNT)) with [0%nat; 1%nat]. cbn [foldl].
  intros (s1 & H1 & H)%bind_Some Hr. apply bind_Some in H as (h1 & Hh1 & H).
  apply bind_Some in H as (m1 & Hm1 & H). apply bind_Some in H as ([h1' s2] & Hp2 & H).
  apply (inj Some) in H. subst s'. cbn [mbind option_bind] in H1.
  apply bind_Some in H1 as (h0 & Hh0 & H1). apply bind_Some in H1 as (m0 & Hm0 & H1).
  apply bind_Some in H1 as ([h0' s0] & Hp0 & H1). apply (inj Some) in H1. subst s1.
  pose proof (poll_ring_keeps _ _ _ _ _ _ Hp0) as Hk0. pose proof (poll_ring_keeps _ _ _ _ _ _ Hp2) as Hk2.
  cbn [trade_consumers set_consumers] in *. apply lookup_lt_Some in Hh0 as Hl0. apply lookup_lt_Some in Hh1 as Hl1.
  assert (∀ i h x, trade_consumers x !! i = Some h → x = set_consumers (<[i := h]> (trade_consumers x)) x) as Hid.
  { intros i h x Hx. rewrite list_insert_id by done. by destruct x. }
  rewrite (Hid 0%nat h0 s Hh0). eapply ring_reaches; [exact Hm0|unfold GROUP_COUNT; lia|done|exact Hp0|].
  rewrite <- Hk0. rewrite (Hid 1%nat h1 (set_consumers (<[0%nat := h0']> (trade_consumers s0)) s0) Hh1).
  eapply ring_reaches; [exact Hm1|unfold GROUP_COUNT; lia|done|exact Hp2|].
  cbn [trade_consumers set_consumers]. rewrite <- Hk2. exact Hr.
Qed.

Lemma prices_reach l n : ∀ i s s', ltp = Some l → (i + n = Z.to_nat MAX_SYMBOLS)%nat →
  foldl (λ (st : option OMS) i,
      s ← st;
      current_ltp ← l !! i;
      seen ← last_seen_price s !! i;
      if current_ltp =? seen then Some s
      else
        s ← checkAndTriggerSL clock (Z.of_nat i) current_ltp s;
        Some (set_last_seen (<[i := current_ltp]> (last_seen_price s)) s)) (Some s) (seq i n) = Some s' →
  reaches (AtPrice i) s s'.
Proof.
  induction n as [|n IH]; intros i s s' Hltp Hi H; cbn [seq foldl] in H.
  { apply (inj Some) in H. subst s'. exists 1%nat. cbn [run_oms oms_micro].
    by rewrite (proj2 (Nat.leb_le _ _)) by lia. }
  set (step := λ (st : option OMS) (i : nat), _) in H.
  destruct (step (Some s) i) as [s1|] eqn:E; cycle 1.
  { assert (∀ js, foldl step None js = None) as HN by (induction js; [done|assumption]).
    change (foldl step (step (Some s) i) (seq (S i) n) = Some s') in H. rewrite E, HN in H. done. }
  change (foldl step (step (Some s) i) (seq (S i) n) = Some s') in H. rewrite E in H.
  eapply reaches_step; [done| |by apply (IH (S i) s1); [|lia|]].
  cbn [oms_micro]. rewrite (proj2 (Nat.leb_gt _ _)), Hltp by lia. cbn [mbind option_bind].
  unfold step in E. cbn [mbind option_bind] in E. destruct (l !! i); [|done]. cbn [mbind option_bind] in *.
  unfold look_price. rewrite E. done.
Qed.

(** On a memory that stays as it is, the machine goes through the iteration
    of [listenForClientOrder] and returns to the intake with its result. *)
Lemma run_oms_iteration fuel s s' :
  listenForClientOrder_step clock junk_price fuel mems ltp s = Some s' →
  ∃ s1, oms_micro mems ltp AtIntake s = Some (AtRing 0, s1) ∧ reaches (AtRing 0) s1 s'.
Proof.
  unfold listenForClientOrder_step. intros ([item q] & Hpop & H)%bind_Some.
  apply bind_Some in H as (s1 & H1 & H). apply bind_Some in H as (s2 & H2 & H).
  exists s1. split.
  { cbn [oms_micro]. unfold intake. rewrite Hpop. cbn [mbind option_bind]. by rewrite H1. }
  eapply rings_reach; [exact H2|]. eapply reaches_step; [done|reflexivity|]. destruct ltp as [l|] eqn:Hltp.
  - by eapply prices_reach.
  - apply (inj Some) in H. subst s'. by exists 0%nat.
Qed.
End still.

(** * The invariant of the OMS *)

(** What the OMS needs of a client's order: values of their C++ types, a
    terminated symbol, a positive quantity and, for an iceberg, a positive
    display quantity. *)
Record client_fit (c : ClientOrder) : Prop := {
  cf_typed : client_typed c;
  cf_symbol : is_Some (c_string (c_symbol c));
  cf_quantity : 0 < c_quantity c;
  cf_display : c_execution_type c = CICEBERG → 0 < c_display_quantity c
}.

(** An order the engine can take. *)
Record order_fit (o : Order) : Prop := {
  of_typed : order_typed o;
  of_quantity : 0 < o_quantity o;
  of_symbol : 0 <= o_symbol_id o < TOTAL_SYMBOLS
}.

Record iceberg_fit (p : ClientOrder) : Prop := {
  if_price : is_u64 (c_price p);
  if_trader : is_u64 (c_trader_id p);
  if_symbol : 0 <= c_symbol_id p < TOTAL_SYMBOLS;
  if_display : 0 < c_display_quantity p < 2 ^ 32
}.

(** The symbol of a registered stop is known, with the table [tbl]. *)
Record stop_fit (tbl : gmap Z Z) (c : ClientOrder) : Prop := {
  sf_client : client_fit c;
  sf_listed : 0 <= find_id tbl (default [] (c_string (c_symbol c))) < TOTAL_SYMBOLS
}.

Record oms_good (n : Z) s : Prop := {
  og_table h v : symbolLookupTable s !! h = Some v → 0 <= v < TOTAL_SYMBOLS;
  og_ids : is_u64 (next_oms_order_id s) ∧ is_u64 (next_child_order_id s);
  og_registry : length (stop_loss_registry s) = Z.to_nat MAX_SYMBOLS;
  og_stops ct : ct ∈ stop_loss_registry s →
    stops_ok ct ∧ ∀ c, c ∈ sell_stops ct ++ buy_stops ct → stop_fit (symbolLookupTable s) c;
  og_seen : length (last_seen_price s) = Z.to_nat MAX_SYMBOLS;
  og_icebergs i p : active_icebergs s !! i = Some p → iceberg_fit p;
  og_children c i : child_to_parent s !! c = Some i → is_Some (active_icebergs s !! i);
  og_queue : ∃ l, rb_rep n (incoming_orders s) l ∧ Forall client_fit l;
  og_consumers : length (trade_consumers s) = Z.to_nat GROUP_COUNT ∧
    Forall (λ h, 0 <= index h < RING_SIZE) (trade_consumers s);
  og_sent : Forall order_fit (sent s)
}.

Context (Hclock : ∀ k, is_u64 (clock k)) (Hjunk : is_u64 junk_price).

Lemma find_id_range tbl sym :
  (∀ h v, tbl !! h = Some v → 0 <= v < TOTAL_SYMBOLS) →
  find_id tbl sym = -1 ∨ 0 <= find_id tbl sym < TOTAL_SYMBOLS.
Proof.
  intros Ht. unfold find_id. case_match; [by left|].
  destruct (tbl !! _) as [v|] eqn:E; [right; by eapply Ht|by left].
Qed.

Lemma symbol_known tbl sym :
  (∀ h v, tbl !! h = Some v → 0 <= v < TOTAL_SYMBOLS) → u32 (find_id tbl sym) ≠ UINT32_MAX →
  0 <= find_id tbl sym < TOTAL_SYMBOLS ∧ u32 (find_id tbl sym) = find_id tbl sym.
Proof.
  intros Ht Hne. destruct (find_id_range tbl sym Ht) as [H|H]; [by rewrite H in Hne|].
  split; [done|]. apply u32_small. assert (TOTAL_SYMBOLS = 2048) by done. mach.
Qed.

(** ** Icebergs *)

Lemma send_slice_good n pid s :
  oms_good n s → is_Some (active_icebergs s !! pid) → oms_good n (send_slice clock pid s).
Proof.
  intros Hg [p Hp]. pose proof Hg as [Ht [Hi Hci] Hr Hs Hl Hice Hch Hq Hc Hsent].
  destruct (Hice _ _ Hp) as [H1 H2 H3 H4]. unfold send_slice. rewrite Hp. cbn [from_option id].
  assert (∀ p', iceberg_fit p' → oms_good n (set_icebergs (<[pid := p']> (active_icebergs s)) s)) as Hset.
  { intros p' Hp'. split; oms_cbn; try done.
    - intros i x. rewrite lookup_insert. case_decide; [by intros [= <-]|apply Hice].
    - intros c i Hx. rewrite lookup_insert. case_decide; [by eexists|by eapply Hch]. }
  destruct (negb (c_is_active p)); [apply Hset; by split|].
  destruct (Z.eqb_spec (u32 (c_quantity p - c_filled_quantity p)) 0) as [|Hne].
  { oms_cbn. rewrite insert_insert_eq. apply Hset. by split. }
  assert (<[pid := p]> (active_icebergs s) = active_icebergs s) as -> by by apply insert_id.
  pose proof (u32_range (c_quantity p - c_filled_quantity p)) as Hu.
  split; oms_cbn; try done.
  - split; [done|apply u64_range].
  - intros c i. rewrite lookup_insert. case_decide; [intros [= <-]; by eexists|apply Hch].
  - apply Forall_app. split; [done|]. apply Forall_singleton. split; [|cbn [o_quantity]; mach|done].
    assert (TOTAL_SYMBOLS = 2048) by done. split; try done; [apply Hclock|..]; cbn [o_symbol_id o_quantity]; mach.
Qed.

Lemma leg_good n cid t s :
  oms_good n s → ∃ s', process_iceberg_leg clock cid t s = Some s' ∧ oms_good n s'.
Proof.
  intros Hg. pose proof Hg as [Ht Hi Hr Hs Hl Hice Hch Hq Hc Hsent]. unfold process_iceberg_leg.
  destruct (child_to_parent s !! cid) as [pid|] eqn:Hcid; [|by eexists].
  destruct (Hch _ _ Hcid) as [p Hp]. rewrite Hp. cbn [from_option id].
  destruct (Hice _ _ Hp) as [H1 H2 H3 H4]. cbn [c_display_quantity set_c_filled].
  rewrite (proj2 (Z.eqb_neq (c_display_quantity p) 0)) by lia. eexists. split; [done|].
  set (p' := set_c_filled _ p). assert (iceberg_fit p') as Hp' by by split.
  assert (∀ m, (∀ c i, m !! c = Some i → child_to_parent s !! c = Some i) →
    oms_good n (set_children m (set_icebergs (<[pid := p']> (active_icebergs s)) s))) as Hset.
  { intros m Hm. split; oms_cbn; try done.
    - intros i x. rewrite lookup_insert. case_decide; [by intros [= <-]|apply Hice].
    - intros c i Hx%Hm. rewrite lookup_insert. case_decide; [by eexists|by eapply Hch]. }
  destruct (_ || _).
  - apply send_slice_good; [apply Hset|cbn [active_icebergs set_children set_icebergs]; rewrite lookup_insert_eq; by eexists].
    intros c i. oms_cbn. rewrite lookup_delete. by case_decide.
  - by apply (Hset (child_to_parent s)).
Qed.

Lemma check_fill_good n t s :
  oms_good n s → ∃ s', check_fill clock t s = Some s' ∧ oms_good n s'.
Proof.
  intros Hg. unfold check_fill. destruct (_ && _); [by eexists|].
  assert (∃ s1, (if has_iceberg_bit (t_buy_order_id t)
    then process_iceberg_leg clock (t_buy_order_id t) (t_quantity t) s else Some s) = Some s1 ∧ oms_good n s1)
    as (s1 & -> & Hg1) by (destruct (has_iceberg_bit (t_buy_order_id t)); [by apply leg_good|by eexists]).
  cbn [mbind option_bind]. destruct (has_iceberg_bit (t_sell_order_id t)); [by apply leg_good|by eexists].
Qed.

(** ** Stop losses *)

(** A container put back in its place keeps the registry. *)
Lemma registry_good n s i ct :
  oms_good n s → stops_ok ct → (∀ c, c ∈ sell_stops ct ++ buy_stops ct → stop_fit (symbolLookupTable s) c) →
  oms_good n (set_registry (<[i := ct]> (stop_loss_registry s)) s).
Proof.
  intros [Ht Hi Hr Hs Hl Hice Hch Hq Hc Hsent] Hok Hfit. split; oms_cbn; try done.
  - by rewrite length_insert.
  - intros ct' Hct. apply list_elem_of_lookup in Hct as [j Hj]. apply list_lookup_insert_Some in Hj as [(_ & <- & _)|(_ & Hj)];
      [done|]. by eapply Hs, list_elem_of_lookup_2.
Qed.

Lemma register_good n c s :
  oms_good n s → stop_fit (symbolLookupTable s) c → 
  ∃ s', registerStopLoss c s = Some s' ∧ oms_good n s'.
Proof.
  intros Hg Hc. set (i := Z.to_nat (Z.land (c_symbol_id c) SYMBOL_MASK)).
  assert (i < Z.to_nat MAX_SYMBOLS)%nat as Hi.
  { subst i. unfold SYMBOL_MASK. rewrite land_mask by (unfold SYMBOL_BITS; lia).
    pose proof (Z.mod_pos_bound (c_symbol_id c) (2 ^ SYMBOL_BITS) ltac:(done)). change MAX_SYMBOLS with (2 ^ SYMBOL_BITS). lia. }
  destruct (lookup_lt_is_Some_2 (stop_loss_registry s) i) as [ct Hct]; [by rewrite (og_registry _ _ Hg)|].
  destruct (og_stops _ _ Hg ct) as [Hok Hfit]; [by eapply list_elem_of_lookup_2|].
  destruct (registerStopLoss_adds c s ct Hct Hok) as (ct' & Hrun & Hok' & Hadd); [apply Hc|].
  eexists. split; [exact Hrun|]. apply registry_good; [done..|]. intros x Hx.
  destruct (c_type c); destruct Hadd as [H1 H2]; rewrite H1, H2 in Hx; [|apply elem_of_app in Hx];
    [apply elem_of_app in Hx as [Hx|Hx]|destruct Hx as [Hx|Hx]];
    try (apply elem_of_cons in Hx as [->|Hx]; [done|]); apply Hfit, elem_of_app; auto.
Qed.

Lemma triggered_fit n s k c :
  oms_good n s → stop_fit (symbolLookupTable s) c → order_fit (triggered_order clock s k c).
Proof.
  intros Hg [[[] _ Hq _] Hl]. assert (TOTAL_SYMBOLS = 2048) by done.
  assert (u32 (find_id (symbolLookupTable s) (default [] (c_string (c_symbol c)))) =
          find_id (symbolLookupTable s) (default [] (c_string (c_symbol c)))) as Hu by (apply u32_small; mach).
  split; unfold triggered_order; [|done|by cbn [o_symbol_id]; rewrite Hu].
  split; cbn [o_order_id o_price o_timestamp o_trader_id o_symbol_id o_quantity o_client_order_id];
    first [done|apply u64_range|apply u32_range|apply Hclock].
Qed.

Lemma after_sends_good n s k os :
  oms_good n s → Forall order_fit os → oms_good n (after_sends s k os).
Proof.
  intros [Ht [Hi Hci] Hr Hs Hl Hice Hch Hq Hc Hsent] Hos. split; cbn [after_sends symbolLookupTable
    next_oms_order_id stop_loss_registry last_seen_price active_icebergs child_to_parent incoming_orders
    next_child_order_id trade_consumers sent]; try done.
  - split; [|done]. destruct k; [done|apply u64_range].
  - by apply Forall_app.
Qed.

Lemma check_stops_good n i ltp s :
  oms_good n s → (i < Z.to_nat MAX_SYMBOLS)%nat →
  ∃ s', checkAndTriggerSL clock (Z.of_nat i) ltp s = Some s' ∧ oms_good n s'.
Proof.
  intros Hg Hi. destruct (lookup_lt_is_Some_2 (stop_loss_registry s) i) as [ct Hct]; [by rewrite (og_registry _ _ Hg)|].
  destruct (og_stops _ _ Hg ct) as [Hok Hfit]; [by eapply list_elem_of_lookup_2|].
  destruct (check_stops_ok clock s i ct ltp Hct Hok) as (sells & buys & ct' & [H1 H2 _ _ _] & Hok' & Hrun);
    [apply (og_ids _ _ Hg)|].
  eexists. split; [exact Hrun|]. apply (registry_good n (after_sends s _ _)); [apply after_sends_good; [done|]|done|].
  - apply Forall_lookup_2. intros k o Ho. apply list_lookup_imap_Some in Ho as (c & Hc%list_elem_of_lookup_2 & ->).
    eapply triggered_fit; [done|]. apply Hfit. rewrite <- H1, <- H2. set_solver.
  - intros c Hc. apply Hfit. rewrite <- H1, <- H2. set_solver.
Qed.

(** ** The pieces of the loop *)

Lemma forward_good n ty price c s :
  oms_good n s → client_fit c → is_u64 price → 0 <= c_symbol_id c < TOTAL_SYMBOLS →
  oms_good n (forward clock ty price c s).
Proof.
  intros [Ht [Hi Hci] Hr Hs Hl Hice Hch Hq Hc Hsent] [[] _ Hqt _] Hp Hsym. unfold forward. split; oms_cbn; try done.
  - split; [apply u64_range|done].
  - apply Forall_app. split; [done|]. apply Forall_singleton. split; [|done|done].
    assert (TOTAL_SYMBOLS = 2048) by done. split; try done; apply Hclock.
Qed.

Lemma set_symbol_id i c : c_symbol_id (set_c_symbol_id i c) = i.
Proof. reflexivity. Qed.

Lemma handle_good n c s :
  oms_good n s → client_fit c →
  ∃ s', handle_client_order clock junk_price c s = Some s' ∧ oms_good n s'.
Proof.
  intros Hg Hc. destruct (cf_symbol _ Hc) as [sym Hsym]. unfold handle_client_order. rewrite Hsym.
  cbn [mbind option_bind]. set (c' := set_c_symbol_id _ c).
  destruct (Z.eqb_spec (c_symbol_id c') UINT32_MAX) as [|Hne]; [by eexists|].
  assert (c_symbol_id c' = u32 (find_id (symbolLookupTable s) sym)) as Hid0 by apply set_symbol_id. rewrite Hid0 in Hne.
  destruct (symbol_known _ sym (og_table _ _ Hg) Hne) as [Hid Hu].
  assert (0 <= c_symbol_id c' < TOTAL_SYMBOLS) as Hid' by (by rewrite Hid0, Hu).
  assert (client_fit c') as Hc'.
  { destruct Hc as [[] ? ? ?]. split; [|done..]. split; try done. apply u32_range. }
  destruct (c_execution_type c') eqn:Hty.
  - eexists. split; [done|]. by apply forward_good.
  - eexists. split; [done|]. destruct (c_price c' =? 0); [done|]. apply forward_good; try done. apply Hc'.
  - apply register_good; [done|]. split; [done|]. change (c_symbol c') with (c_symbol c). by rewrite Hsym.
  - eexists. split; [done|]. apply send_slice_good; [|oms_cbn; rewrite lookup_insert_eq; by eexists].
    assert (iceberg_fit c') as Hice.
    { pose proof (cf_display _ Hc' Hty). destruct (cf_typed _ Hc') as [? ? ? ? ? ? ? Hd ?]. split; try done. mach. }
    destruct Hg as [Ht Hi Hr Hs Hl Hic Hch Hq Hcs Hsent]. split; oms_cbn; try done.
    + intros i x. rewrite lookup_insert. case_decide; [by intros [= <-]|apply Hic].
    + intros k i Hx. rewrite lookup_insert. case_decide; [by eexists|by eapply Hch].
Qed.

Lemma intake_good n s : oms_good n s → ∃ s', intake s = Some s' ∧ oms_good n s'.
Proof.
  intros Hg. destruct (og_queue _ _ Hg) as (l & Hrep & Hl). unfold intake.
  assert (∀ q l', rb_rep n q l' → Forall client_fit l' → oms_good n (set_incoming q s)) as Hset.
  { intros q l' Hq Hl'. destruct Hg. split; oms_cbn; try done. by exists l'. }
  pose proof (pop_ok _ _ _ Hrep) as Hpop. destruct l as [|c l].
  - rewrite Hpop. cbn [mbind option_bind]. eexists. split; [done|]. by eapply Hset.
  - destruct Hpop as (q & Hpop & Hq). rewrite Hpop. cbn [mbind option_bind].
    apply Forall_cons in Hl as [Hc Hl]. apply handle_good; [|done]. by eapply Hset.
Qed.

Lemma enqueue_good n c s :
  oms_good n s → client_fit c → ∃ ok s', enqueueClientOrder c s = Some (ok, s') ∧ oms_good n s' ∧ sent s' = sent s.
Proof.
  intros Hg Hc. destruct (og_queue _ _ Hg) as (l & Hrep & Hl). unfold enqueueClientOrder.
  assert (∀ q l', rb_rep n q l' → Forall client_fit l' → oms_good n (set_incoming q s)) as Hset.
  { intros q l' Hq Hl'. destruct Hg. split; oms_cbn; try done. by exists l'. }
  pose proof (push_ok _ _ _ c Hrep) as Hpush. destruct (_ =? _).
  - rewrite Hpush. cbn [mbind option_bind]. eexists _, _. split; [done|]. split; [by eapply Hset|done].
  - destruct Hpush as (q & Hpush & Hq). rewrite Hpush. cbn [mbind option_bind]. eexists _, _. split; [done|].
    split; [|done]. eapply Hset; [done|]. apply Forall_app. by rewrite Forall_singleton.
Qed.

(** No slot of the ring is in the middle of a write. *)
Definition settled (mem : ring_mem) : Prop := ∀ i, 0 <= i < RING_SIZE → Z.odd (seq_no (slot mem i)) = false.

Lemma poll_one_good n i mem s :
  oms_good n s → settled mem → (i < Z.to_nat GROUP_COUNT)%nat →
  ∃ t s', poll_one i mem s = Some (t, s') ∧ oms_good n s'.
Proof.
  intros Hg Hmem Hi. destruct (og_consumers _ _ Hg) as [Hlen Hidx].
  destruct (lookup_lt_is_Some_2 (trade_consumers s) i) as [h Hh]; [by rewrite Hlen|].
  pose proof (Forall_lookup_1 _ _ _ _ Hidx Hh) as Hih. unfold poll_one. rewrite Hh. cbn [mbind option_bind].
  destruct (any_new_trade h mem); [|by eexists _, _].
  unfold get_trade, observe. cbn [get_trade_loop ob_seq1 ob_seq2 ob_payload].
  rewrite (Hmem _ Hih), Z.eqb_refl. cbn [mbind option_bind].
  edestruct (check_fill_good n) as (s' & Hrun & Hg'); [|rewrite Hrun; cbn [mbind option_bind]; by eexists _, _].
  destruct Hg. split; oms_cbn; try done. split; [by rewrite length_insert|].
  apply Forall_insert; [done|]. cbn [update_index_and_seq index]. unfold RING_SIZE.
  rewrite land_mask by lia. rewrite Z.shiftl_1_l. apply Z.mod_pos_bound. lia.
Qed.

Lemma look_price_good n i cur s :
  oms_good n s → (i < Z.to_nat MAX_SYMBOLS)%nat → ∃ s', look_price i cur s = Some s' ∧ oms_good n s'.
Proof.
  intros Hg Hi. destruct (lookup_lt_is_Some_2 (last_seen_price s) i) as [p Hp]; [by rewrite (og_seen _ _ Hg)|].
  unfold look_price. rewrite Hp. cbn [mbind option_bind]. destruct (cur =? p); [by eexists|].
  destruct (check_stops_good n i cur s Hg Hi) as (s' & -> & Hg'). cbn [mbind option_bind]. eexists. split; [done|].
  destruct Hg'. split; oms_cbn; try done. by rewrite length_insert.
Qed.

(** Every piece of the loop is defined and keeps the invariant. *)
Lemma oms_micro_good n mems l pc s :
  oms_good n s → length mems = Z.to_nat GROUP_COUNT → Forall settled mems → length l = Z.to_nat MAX_SYMBOLS →
  ∃ pc' s', oms_micro mems (Some l) pc s = Some (pc', s') ∧ oms_good n s'.
Proof.
  intros Hg Hlm Hm Hl. destruct pc as [|i|i]; cbn [oms_micro].
  - destruct (intake_good n s Hg) as (s' & -> & Hg'). by eexists _, _.
  - destruct (Nat.leb_spec (Z.to_nat GROUP_COUNT) i) as [|Hi]; [by eexists _, _|].
    destruct (lookup_lt_is_Some_2 mems i) as [mem Hmem]; [by rewrite Hlm|]. rewrite Hmem. cbn [mbind option_bind].
    destruct (poll_one_good n i mem s Hg (Forall_lookup_1 _ _ _ _ Hm Hmem) Hi) as (t & s' & -> & Hg').
    by eexists _, _.
  - destruct (Nat.leb_spec (Z.to_nat MAX_SYMBOLS) i) as [|Hi]; [by eexists _, _|].
    destruct (lookup_lt_is_Some_2 l i) as [cur Hcur]; [by rewrite Hl|]. cbn [mbind option_bind]. rewrite Hcur.
    cbn [mbind option_bind]. destruct (look_price_good n i cur s Hg Hi) as (s' & -> & Hg'). by eexists _, _.
Qed.

(** ** Ids *)

Lemma oms_micro_ids mems ltp pc s pc' s' :
  oms_micro mems ltp pc s = Some (pc', s') → rtc id_step s s'.
Proof.
  destruct pc as [|i|i]; cbn [oms_micro].
  - intros (s1 & H & [= _ <-])%bind_Some. unfold intake in H. apply bind_Some in H as ([item q] & _ & H).
    trans (set_incoming q s); [by apply rtc_once, id_same|].
    destruct item; [by eapply handle_ids|apply (inj Some) in H; by subst s1].
  - destruct (_ <=? i)%nat; [by intros [= _ <-]|]. intros (mem & _ & H)%bind_Some.
    apply bind_Some in H as ([t s1] & H & [= _ <-]). unfold poll_one in H. apply bind_Some in H as (h & _ & H).
    destruct (any_new_trade h mem); [|injection H as _ <-; done].
    destruct (get_trade _ _ h mem) as [t' h']. apply bind_Some in H as (t'' & _ & H).
    apply bind_Some in H as (s2 & Hf%check_fill_ids & [= _ <-]). etrans; [|exact Hf]. by apply rtc_once, id_same.
  - destruct (_ <=? i)%nat; [by intros [= _ <-]|]. intros (l & _ & H)%bind_Some. apply bind_Some in H as (cur & _ & H).
    apply bind_Some in H as (s1 & H & [= _ <-]). unfold look_price in H. apply bind_Some in H as (seen & _ & H).
    destruct (cur =? seen); [apply (inj Some) in H; by subst s1|].
    apply bind_Some in H as (s2 & Hf%check_stops_ids & [= <-]). etrans; [exact Hf|]. by apply rtc_once, id_same.
Qed.

(** Orders sent are never taken back. *)
Lemma ids_sent s s' : rtc id_step s s' → sent s `prefix_of` sent s'.
Proof.
  induction 1 as [|s s1 s' Hst _ IH]; [done|]. etrans; [|exact IH].
  destruct Hst as [s1 H _ _|s1 o H _ _ _|s1 o H _ _ _]; rewrite H; [done|by eexists..].
Qed.

(** The state after the constructor. *)
Lemma OMS_new_good capacity n boot symbols s :
  effective capacity n → is_u64 boot → Forall (λ p, 0 <= p.2 < TOTAL_SYMBOLS) symbols →
  OMS_new capacity boot symbols = Some s → oms_good n s ∧ sent s = [].
Proof.
  intros Hcap Hb Hsym. unfold OMS_new. intros (tbl & Htbl & H)%bind_Some. apply (inj Some) in H. subst s.
  split; [|done]. split; oms_cbn.
  - unfold load_lookup in Htbl.
    assert (∀ ps t, (∀ h v, t !! h = Some v → 0 <= v < TOTAL_SYMBOLS) → Forall (λ p, 0 <= p.2 < TOTAL_SYMBOLS) ps →
      foldl load_symbol (Some t) ps = Some tbl → ∀ h v, tbl !! h = Some v → 0 <= v < TOTAL_SYMBOLS) as Hload.
    { clear. intros ps. induction ps as [|p ps IH]; intros t Ht Hps H; cbn [foldl] in H.
      { apply (inj Some) in H. by subst t. }
      apply Forall_cons in Hps as [Hp Hps]. cbn [load_symbol mbind option_bind] in H. destruct (_ && _).
      - eapply IH; [|done|exact H]. intros h v. rewrite lookup_insert. case_decide; [|apply Ht].
        intros [= <-]. rewrite s32_small; [done|]. assert (TOTAL_SYMBOLS = 2048) by done. lia.
      - assert (∀ qs, foldl load_symbol None qs = None) as HN by (induction qs; done).
        rewrite HN in H. done. }
    apply (Hload symbols ∅); [intros h v Hv; by rewrite lookup_empty in Hv|done|exact Htbl].
  - split; [done|]. vm_compute. split; [discriminate|reflexivity].
  - by rewrite length_replicate.
  - intros ct [-> _]%elem_of_replicate. split; [|by intros c Hc%elem_of_nil].
    split; [by intros [] ?..|by intros c Hc%elem_of_nil].
  - by rewrite length_replicate.
  - intros i p Hp. by rewrite lookup_empty in Hp.
  - intros c i Hc. by rewrite lookup_empty in Hc.
  - exists []. split; [by apply RingBuffer_new_rep|constructor].
  - split; [by rewrite length_replicate|]. by apply Forall_replicate.
  - constructor.
Qed.
End machine.
