(* ===== verification/Iceberg.v ===== *)
(** Icebergs in the OMS: all parents at once, against the quantities that the
    trades read so far report for their slices.

    [ice_open] and [ice_closed] of [OmsTheorems] describe one parent.  Here
    [owner] remembers which parent every slice ever sent belongs to, also
    after [child_to_parent] has forgotten it, and [L] are the legs of the
    trades read: the parents' filled quantities are what [L] says about their
    slices, as long as no slice trades more than its quantity, which [Ledger]
    shows of the engine. *)

From S2P Require Import Prelude Types PriceTime RingBuffer Engine Oms OmsTheorems OmsLoop Ledger.

(** The slices of parent [pid] among the orders sent. *)
Definition slices_of (owner : gmap Z Z) (pid : Z) (l : list Order) : list Order :=
  filter (λ o, owner !! o_client_order_id o = Some pid) l.

(** All of a slice has traded. *)
Definition spent (L : list leg) (o : Order) : Prop := traded (o_client_order_id o) L = o_quantity o.

(** A limit order with the parent's price, side, symbol and trader. *)
Record slice_for (p : ClientOrder) (o : Order) : Prop := {
  sl_limit : o_execution_type o = LIMIT;
  sl_price : o_price o = c_price p;
  sl_side : o_type o = c_type p;
  sl_symbol : o_symbol_id o = c_symbol_id p;
  sl_trader : o_trader_id o = c_trader_id p
}.

Definition terms (p : ClientOrder) : Z * OrderType * Z * Z := (c_price p, c_type p, c_symbol_id p, c_trader_id p).

Lemma slice_for_terms p p' l : terms p' = terms p → Forall (slice_for p) l → Forall (slice_for p') l.
Proof.
  intros [= H1 H2 H3 H4] Hl. eapply Forall_impl; [exact Hl|]. intros x [? ? ? ? ?]. split; congruence.
Qed.

Section iceberg.
Context (clock : nat → Z).
Implicit Types (s : OMS) (owner : gmap Z Z) (L : list leg).

(** The earlier slices of an open parent have traded completely, the last
    one all but [o]. *)
Definition berg_open s owner L (pid : Z) (p : ClientOrder) : Prop :=
  ∃ B o pre last, slices_of owner pid (sent s) = pre ++ [last] ∧
    ice_open s pid (o_client_order_id last) p B o (pre ++ [last]) ∧
    traded (o_client_order_id last) L = o_quantity last - o ∧ Forall (spent L) pre ∧
    Forall (slice_for p) (pre ++ [last]).

Definition berg_closed s owner L (pid : Z) (p : ClientOrder) : Prop :=
  ice_closed s pid p (slices_of owner pid (sent s)) ∧ Forall (spent L) (slices_of owner pid (sent s)) ∧
  (∀ x, x ∈ slices_of owner pid (sent s) → 0 < o_quantity x <= c_display_quantity p) ∧
  Forall (slice_for p) (slices_of owner pid (sent s)).

Definition owned owner (o : Order) : Prop := is_Some (owner !! o_client_order_id o).
#[local] Instance owned_dec owner o : Decision (owned owner o).
Proof. unfold owned. apply _. Defined.

Record ice_inv s owner L : Prop := {
  ii_ids : child_ids_ok s;
  ii_next : 2 ^ 63 <= next_child_order_id s;
  ii_owner c pid : owner !! c = Some pid →
    2 ^ 63 <= c < next_child_order_id s ∧ is_Some (active_icebergs s !! pid) ∧
    ∃ o, o ∈ sent s ∧ o_client_order_id o = c;
  ii_children c pid : child_to_parent s !! c = Some pid → owner !! c = Some pid;
  ii_sent o : o ∈ sent s → o_client_order_id o < 2 ^ 63 ∨ owned owner o;
  ii_unique : NoDup (o_client_order_id <$> filter (owned owner) (sent s));
  ii_legs l : l ∈ L → l.1 < 2 ^ 63 ∨ is_Some (owner !! l.1);
  ii_bergs pid p : active_icebergs s !! pid = Some p → berg_open s owner L pid p ∨ berg_closed s owner L pid p
}.

(** ** Frames *)

Lemma slices_of_app owner pid l1 l2 : slices_of owner pid (l1 ++ l2) = slices_of owner pid l1 ++ slices_of owner pid l2.
Proof. apply filter_app. Qed.

Lemma elem_of_slices owner pid l o :
  o ∈ slices_of owner pid l ↔ owner !! o_client_order_id o = Some pid ∧ o ∈ l.
Proof. unfold slices_of. by rewrite list_elem_of_filter. Qed.

Lemma slices_of_none owner pid l :
  (∀ o, o ∈ l → owner !! o_client_order_id o ≠ Some pid) → slices_of owner pid l = [].
Proof. apply filter_none. Qed.

Lemma ice_open_frame s s' pid cid p B o l :
  active_icebergs s' !! pid = active_icebergs s !! pid →
  (∀ c, child_to_parent s' !! c = Some pid ↔ child_to_parent s !! c = Some pid) → child_ids_ok s' →
  ice_open s pid cid p B o l → ice_open s' pid cid p B o l.
Proof.
  intros Ha Hc Hi [H1 H2 H3 H4 H5 H6 H7 H8 H9 H10]. split; try done; [by rewrite Ha|by apply Hc|].
  intros c Hx%Hc. by apply H4.
Qed.

Lemma ice_closed_frame s s' pid p l :
  active_icebergs s' !! pid = active_icebergs s !! pid →
  (∀ c, child_to_parent s' !! c = Some pid ↔ child_to_parent s !! c = Some pid) →
  ice_closed s pid p l → ice_closed s' pid p l.
Proof. intros Ha Hc [H1 H2 H3 H4 H5]. split; try done; [by rewrite Ha|]. intros c Hx%Hc. by apply (H4 c). Qed.

(** A parent that the step does not concern. *)
Lemma berg_frame s s' owner owner' L L' pid p :
  active_icebergs s' !! pid = active_icebergs s !! pid →
  (∀ c, child_to_parent s' !! c = Some pid ↔ child_to_parent s !! c = Some pid) → child_ids_ok s' →
  slices_of owner' pid (sent s') = slices_of owner pid (sent s) →
  (∀ c, owner !! c = Some pid → traded c L' = traded c L) →
  berg_open s owner L pid p ∨ berg_closed s owner L pid p →
  berg_open s' owner' L' pid p ∨ berg_closed s' owner' L' pid p.
Proof.
  intros Ha Hc Hi Hsl Ht. assert (∀ o, o ∈ slices_of owner pid (sent s) → spent L o → spent L' o) as Hsp.
  { intros o [Ho _]%elem_of_slices Hs. unfold spent. by rewrite Ht. }
  intros [(B & o & pre & last & Hs & Hio & Htr & Hpre & Hfor)|(Hic & Hsp' & Hshow & Hfor)]; [left|right].
  - exists B, o, pre, last. rewrite Hsl. split; [done|]. split; [by eapply ice_open_frame|].
    assert (∀ x, x ∈ pre ++ [last] → owner !! o_client_order_id x = Some pid) as Hown
      by (intros x Hx; rewrite <- Hs in Hx; by apply elem_of_slices in Hx as [? _]).
    split; [rewrite Ht by (apply Hown; set_solver); done|]. split; [|done]. rewrite Forall_forall in Hpre |- *. intros x Hx.
    apply Hsp; [rewrite Hs; set_solver|by apply Hpre].
  - split; rewrite Hsl; [by eapply ice_closed_frame|]. split; [|done].
    rewrite Forall_forall in Hsp' |- *. intros x Hx. by apply Hsp, Hsp'.
Qed.

Definition same_parents s s' : Prop := ∀ i, is_Some (active_icebergs s' !! i) ↔ is_Some (active_icebergs s !! i).

(** What a step on behalf of parent [pid] leaves alone.  With a new order it
    takes the next child id for it. *)
Record berg_step (pid : Z) s s' owner owner' : Prop := {
  bs_active i : i ≠ pid → active_icebergs s' !! i = active_icebergs s !! i;
  bs_child c i : i ≠ pid → (child_to_parent s' !! c = Some i ↔ child_to_parent s !! c = Some i);
  bs_ids : child_ids_ok s';
  bs_sent : (sent s' = sent s ∧ owner' = owner ∧ next_child_order_id s' = next_child_order_id s) ∨
    (∃ x, sent s' = sent s ++ [x] ∧ o_client_order_id x = next_child_order_id s ∧
       owner' = <[next_child_order_id s := pid]> owner ∧ next_child_order_id s' = next_child_order_id s + 1)
}.

(** [owner] gains at most the new order. *)
Lemma berg_step_owner pid s s' owner owner' L :
  ice_inv s owner L → berg_step pid s s' owner owner' → owner ⊆ owner'.
Proof.
  intros Hi [_ _ _ Bs]. destruct Bs as [(_ & -> & _)|(x & _ & _ & -> & _)]; [done|]. apply insert_subseteq.
  destruct (owner !! next_child_order_id s) as [i|] eqn:E; [|done]. apply (ii_owner _ _ _ Hi) in E as [? _]. lia.
Qed.

Lemma berg_step_owned pid s s' owner owner' L o :
  ice_inv s owner L → berg_step pid s s' owner owner' → o ∈ sent s → owner' !! o_client_order_id o = owner !! o_client_order_id o.
Proof.
  intros Hi [_ _ _ Bs] Ho. destruct Bs as [(_ & -> & _)|(x & _ & _ & -> & _)]; [done|]. apply lookup_insert_ne. intros Heq.
  pose proof (ii_next _ _ _ Hi). destruct (ii_sent _ _ _ Hi o Ho) as [?|[i Hx]]; [lia|].
  apply (ii_owner _ _ _ Hi) in Hx as [? _]. lia.
Qed.

Lemma berg_step_sent pid s s' owner owner' o :
  berg_step pid s s' owner owner' → o ∈ sent s' → o ∈ sent s ∨ owner' !! o_client_order_id o = Some pid.
Proof.
  intros [_ _ _ Bs] Ho. destruct Bs as [(Es & _)|(x & Es & Hx & -> & _)]; rewrite Es in Ho; [by left|].
  apply elem_of_app in Ho as [Ho|Ho]; [by left|right]. apply list_elem_of_singleton in Ho as ->. by rewrite Hx, lookup_insert_eq.
Qed.

Lemma berg_step_more pid s s' owner owner' o : berg_step pid s s' owner owner' → o ∈ sent s → o ∈ sent s'.
Proof. intros [_ _ _ [(-> & _)|(x & -> & _)]] Ho; [done|]. apply elem_of_app. by left. Qed.

Lemma berg_step_slices pid s s' owner owner' L i :
  ice_inv s owner L → berg_step pid s s' owner owner' → i ≠ pid →
  slices_of owner' i (sent s') = slices_of owner i (sent s).
Proof.
  intros Hi Hbs Hne. assert (slices_of owner' i (sent s) = slices_of owner i (sent s)) as <-.
  { apply filter_ext_in. intros o Ho. by rewrite (berg_step_owned _ _ _ _ _ _ _ Hi Hbs Ho). }
  destruct Hbs as [_ _ _ [(-> & _)|(x & -> & Hx & -> & _)]]; [done|]. rewrite slices_of_app, (slices_of_none _ _ [x]), app_nil_r; [done|].
  intros o ->%list_elem_of_singleton. rewrite Hx, lookup_insert_eq. congruence.
Qed.

Lemma berg_step_unique pid s s' owner owner' L :
  ice_inv s owner L → berg_step pid s s' owner owner' → NoDup (o_client_order_id <$> filter (owned owner') (sent s')).
Proof.
  intros Hi Hbs. assert (filter (owned owner') (sent s) = filter (owned owner) (sent s)) as Hf.
  { apply filter_ext_in. intros o Ho. unfold owned. by rewrite (berg_step_owned _ _ _ _ _ _ _ Hi Hbs Ho). }
  pose proof (ii_unique _ _ _ Hi) as Hu.
  destruct Hbs as [_ _ _ [(-> & _)|(x & -> & Hx & Eo & _)]]; [by rewrite Hf|]. rewrite filter_app, Hf, fmap_app.
  apply NoDup_app. split; [done|]. split; [|rewrite filter_cons; case_decide; cbn; [apply NoDup_singleton|constructor]].
  intros c (o & -> & [[i Hi'] _]%list_elem_of_filter)%list_elem_of_fmap
    (o' & Heq & [_ ->%list_elem_of_singleton]%list_elem_of_filter)%list_elem_of_fmap.
  apply (ii_owner _ _ _ Hi) in Hi' as [? _]. lia.
Qed.

Lemma berg_step_range pid s s' owner owner' L c i :
  ice_inv s owner L → berg_step pid s s' owner owner' → is_Some (active_icebergs s' !! pid) → owner' !! c = Some i →
  2 ^ 63 <= c < next_child_order_id s' ∧ is_Some (active_icebergs s' !! i) ∧ ∃ o, o ∈ sent s' ∧ o_client_order_id o = c.
Proof.
  intros Hi Hbs Hact Hc. pose proof (ii_next _ _ _ Hi) as Hn.
  assert (∀ j, is_Some (active_icebergs s !! j) → is_Some (active_icebergs s' !! j)) as Hstay.
  { intros j Hj. destruct (decide (j = pid)) as [->|Hne]; [done|]. by rewrite (bs_active _ _ _ _ _ Hbs). }
  assert (∀ j, owner !! c = Some j → next_child_order_id s <= next_child_order_id s' →
    2 ^ 63 <= c < next_child_order_id s' ∧ is_Some (active_icebergs s' !! j) ∧ ∃ o, o ∈ sent s' ∧ o_client_order_id o = c) as Hold.
  { intros j Hj Hle. destruct (ii_owner _ _ _ Hi c j Hj) as (Hr & Ha & o & Ho & Hoc). split; [lia|]. split; [by apply Hstay|].
    exists o. split; [by eapply berg_step_more|done]. }
  destruct (bs_sent _ _ _ _ _ Hbs) as [(_ & -> & En)|(x & Es & Hx & -> & En)]; [apply Hold; [done|lia]|].
  rewrite lookup_insert in Hc. case_decide as Hd; [|apply Hold; [done|lia]]. injection Hc as <-. split; [lia|]. split; [done|].
  exists x. split; [rewrite Es; set_solver|congruence].
Qed.

Lemma ice_inv_step pid s s' owner owner' L L' :
  ice_inv s owner L → berg_step pid s s' owner owner' → is_Some (active_icebergs s' !! pid) →
  (∀ c, child_to_parent s' !! c = Some pid → owner' !! c = Some pid) →
  (∀ c i, owner !! c = Some i → i ≠ pid → traded c L' = traded c L) →
  (∀ l, l ∈ L' → l ∈ L ∨ l.1 < 2 ^ 63 ∨ is_Some (owner' !! l.1)) →
  (∀ p, active_icebergs s' !! pid = Some p → berg_open s' owner' L' pid p ∨ berg_closed s' owner' L' pid p) →
  ice_inv s' owner' L'.
Proof.
  intros Hi Hbs Hact Hkids Htr Hlegs Hpid. pose proof Hi as [Hid Hn Ho Hch Hs Hu Hlg Hb]. pose proof Hbs as [Ba Bc Bi Bs].
  pose proof (berg_step_owner _ _ _ _ _ _ Hi Hbs) as Hsub.
  assert (∀ c i, owner !! c = Some i → owner' !! c = Some i) as Hold by (intros c i Hc; by eapply lookup_weaken).
  split.
  - done.
  - destruct Bs as [(_ & _ & ->)|(x & _ & _ & _ & ->)]; lia.
  - intros c i. by eapply berg_step_range.
  - intros c i Hc. destruct (decide (i = pid)) as [->|Hne]; [by apply Hkids|]. apply Hold, Hch. by apply Bc.
  - intros o Hin. destruct (berg_step_sent _ _ _ _ _ _ Hbs Hin) as [Hin'|Hx]; [|right; by exists pid].
    destruct (Hs o Hin') as [?|[i Hi']]; [by left|right]. exists i. by apply Hold.
  - by eapply berg_step_unique.
  - intros l Hl. destruct (Hlegs l Hl) as [Hin|?]; [|done]. destruct (Hlg l Hin) as [?|[i Hi']]; [by left|right].
    exists i. by apply Hold.
  - intros i p Hp. destruct (decide (i = pid)) as [->|Hne]; [by apply Hpid|].
    apply (berg_frame s s' owner owner' L L'); [by apply Ba|intros c; by apply Bc|done|by eapply berg_step_slices| |].
    + intros c Hc. by apply (Htr c i).
    + apply Hb. by rewrite <- Ba.
Qed.

(** ** The operations *)

(** First a change for [pid] that sends nothing, then a step. *)
Lemma berg_step_after pid s s1 s2 owner owner' :
  berg_step pid s s1 owner owner → sent s1 = sent s → next_child_order_id s1 = next_child_order_id s →
  berg_step pid s1 s2 owner owner' → berg_step pid s s2 owner owner'.
Proof.
  intros [A1 C1 _ _] Hs Hn [A2 C2 I2 S2]. rewrite Hs, Hn in S2. split; [|intros c i Hi|done|done].
  - intros i Hi. by rewrite A2, A1.
  - by rewrite C2, C1.
Qed.

(** Changing the entry of [pid] and its children only. *)
Lemma berg_step_set pid p m s owner :
  child_ids_ok s → (∀ c i, i ≠ pid → m !! c = Some i ↔ child_to_parent s !! c = Some i) →
  (∀ c, is_Some (m !! c) → is_Some (child_to_parent s !! c)) →
  berg_step pid s (set_children m (set_icebergs (<[pid := p]> (active_icebergs s)) s)) owner owner.
Proof.
  intros [Hn Hc] Hm Hsub. split; oms_cbn.
  - intros i Hi. by rewrite lookup_insert_ne.
  - exact Hm.
  - split; [done|]. intros c Hx. by apply Hc, Hsub.
  - by left.
Qed.

Lemma send_slice_step pid s owner :
  child_ids_ok s → next_child_order_id s + 1 < UINT64_MAX →
  ∃ owner', berg_step pid s (send_slice clock pid s) owner owner' ∧
    (∀ c, child_to_parent (send_slice clock pid s) !! c = Some pid →
       child_to_parent s !! c = Some pid ∨ owner' !! c = Some pid) ∧
    (sent (send_slice clock pid s) = sent s ∧ owner' = owner ∨ owner' = <[next_child_order_id s := pid]> owner) ∧
    is_Some (active_icebergs (send_slice clock pid s) !! pid).
Proof.
  intros [Hn Hc] Hroom. unfold send_slice. set (p := default _ _). destruct (negb (c_is_active p)); cbn zeta.
  { exists owner. split; [by apply (berg_step_set pid p (child_to_parent s) s)|]. oms_cbn.
    rewrite lookup_insert_eq.
    split_and!; [intros x Hx; by left|by left|by eexists]. }
  case_match.
  { exists owner. oms_cbn. rewrite insert_insert_eq.
    split; [by apply (berg_step_set pid (set_c_active false p) (child_to_parent s) s)|].
    rewrite lookup_insert_eq.
    split_and!; [intros x Hx; by left|by left|by eexists]. }
  exists (<[next_child_order_id s := pid]> owner). split; [|split; [|split; [by right|]]].
  - split; oms_cbn.
    + intros i Hi. by rewrite lookup_insert_ne.
    + intros c i Hi. rewrite lookup_insert. case_decide as Hd; [|done]. subst c. split; [by intros [= ->]|].
      intros Hx. specialize (Hc (next_child_order_id s) ltac:(by eexists)). lia.
    + unfold child_ids_ok. oms_cbn. rewrite u64_small by mach. split; [lia|]. intros c. rewrite lookup_insert.
      case_decide; [lia|]. intros Hx%Hc. lia.
    + right. eexists. split; [reflexivity|]. split; [done|]. split; [done|]. apply u64_small. mach.
  - oms_cbn. intros c. rewrite !lookup_insert. case_decide; [by right|by left].
  - oms_cbn. rewrite lookup_insert_eq. by eexists.
Qed.

Lemma leg_step c q pid s s' owner :
  child_ids_ok s → next_child_order_id s + 1 < UINT64_MAX → child_to_parent s !! c = Some pid →
  process_iceberg_leg clock c q s = Some s' →
  ∃ owner', berg_step pid s s' owner owner' ∧
    (∀ x, child_to_parent s' !! x = Some pid → child_to_parent s !! x = Some pid ∨ owner' !! x = Some pid) ∧
    (sent s' = sent s ∧ owner' = owner ∨ owner' = <[next_child_order_id s := pid]> owner) ∧
    is_Some (active_icebergs s' !! pid).
Proof.
  intros Hi Hroom Hc. unfold process_iceberg_leg. rewrite Hc. cbn zeta.
  set (p := set_c_filled _ _). destruct (c_display_quantity p =? 0); [done|]. intros H. apply (inj Some) in H. subst s'.
  destruct (_ || _).
  - oms_cbn. set (s1 := set_children (delete c (child_to_parent s)) (set_icebergs (<[pid := p]> (active_icebergs s)) s)).
    assert (berg_step pid s s1 owner owner) as H1.
    { apply berg_step_set; [done| |].
      - intros x i Hne. rewrite lookup_delete. case_decide as Hd; [|done]. subst x. rewrite Hc. split; [done|congruence].
      - intros x. rewrite lookup_delete. case_decide; [by intros []|done]. }
    destruct (send_slice_step pid s1 owner (bs_ids _ _ _ _ _ H1) Hroom) as (owner' & H2 & Hk & Ho & Ha).
    exists owner'. split; [by eapply berg_step_after|]. split; [|done]. intros x Hx. apply Hk in Hx as [Hx|Hx]; [left|by right].
    cbn [s1 child_to_parent set_children set_icebergs] in Hx. rewrite lookup_delete in Hx. by case_decide.
  - exists owner. split; [by apply (berg_step_set pid p (child_to_parent s) s)|]. oms_cbn. rewrite lookup_insert_eq.
    split_and!; [intros x Hx; by left|by left|by eexists].
Qed.

(** ** A leg of a trade *)

Lemma traded_snoc c L x q : traded c (L ++ [(x, q)]) = traded c L + (if x =? c then q else 0).
Proof. unfold traded. by rewrite tally_snoc. Qed.

Lemma slices_unique s owner L pid : ice_inv s owner L → NoDup (o_client_order_id <$> slices_of owner pid (sent s)).
Proof.
  intros Hi. assert (slices_of owner pid (sent s) = slices_of owner pid (filter (owned owner) (sent s))) as ->.
  { unfold slices_of. rewrite list_filter_filter_l; [done|]. intros o Ho. by exists pid. }
  apply nodup_fmap_filter, (ii_unique _ _ _ Hi).
Qed.

(** A slice that still has something to trade is the open one of its parent. *)
Lemma leg_open s owner L c q :
  ice_inv s owner L → 0 < q → is_Some (owner !! c) →
  (∀ o, o ∈ sent s → o_client_order_id o = c → traded c L + q <= o_quantity o) →
  ∃ pid p B o pre last, owner !! c = Some pid ∧ slices_of owner pid (sent s) = pre ++ [last] ∧
    o_client_order_id last = c ∧ ice_open s pid c p B o (pre ++ [last]) ∧ q <= o ∧
    traded c L = o_quantity last - o ∧ Forall (spent L) pre ∧ Forall (slice_for p) (pre ++ [last]).
Proof.
  intros Hi Hq [pid Hc] Hroom. destruct (ii_owner _ _ _ Hi _ _ Hc) as (_ & [p Hp] & x & Hx & Hxc).
  specialize (Hroom x Hx Hxc).
  assert (x ∈ slices_of owner pid (sent s)) as Hsl by (apply elem_of_slices; by rewrite Hxc).
  assert (¬ spent L x) as Hns by (unfold spent; rewrite Hxc; lia).
  destruct (ii_bergs _ _ _ Hi _ _ Hp) as [(B & o & pre & last & Hs & Hio & Htr & Hpre & Hfor)|(_ & Hsp & _)].
  - rewrite Hs in Hsl. apply elem_of_app in Hsl as [Hin|Hin]; [by rewrite Forall_forall in Hpre; apply Hpre in Hin|].
    apply list_elem_of_singleton in Hin as <-. rewrite Hxc in *. exists pid, p, B, o, pre, x. split_and!; try done. lia.
  - rewrite Forall_forall in Hsp. by apply Hsp in Hsl.
Qed.

(** The other slices of the parent have other ids, so the leg is not theirs. *)
Lemma spent_snoc L c q l : Forall (spent L) l → (c ∉ (o_client_order_id <$> l)) → Forall (spent (L ++ [(c, q)])) l.
Proof.
  intros Hl Hc. rewrite Forall_forall in *. intros x Hx. unfold spent. rewrite traded_snoc, Hl by done.
  rewrite (proj2 (Z.eqb_neq _ _)); [lia|]. intros ->. apply Hc. by apply list_elem_of_fmap_2.
Qed.

(** The next child id is new: no order sent and no leg has it. *)
Lemma next_fresh s owner L : ice_inv s owner L → owner !! next_child_order_id s = None.
Proof.
  intros Hi. destruct (owner !! next_child_order_id s) as [i|] eqn:E; [|done].
  apply (ii_owner _ _ _ Hi) in E as [? _]. lia.
Qed.

Lemma next_untraded s owner L : ice_inv s owner L → traded (next_child_order_id s) L = 0.
Proof.
  intros Hi. apply tally_none. intros l Hl Heq. pose proof (ii_next _ _ _ Hi).
  destruct (ii_legs _ _ _ Hi l Hl) as [?|[i Hx]]; [lia|]. rewrite Heq, (next_fresh _ _ _ Hi) in Hx. done.
Qed.

Lemma slices_of_new s owner L pid x :
  ice_inv s owner L → o_client_order_id x = next_child_order_id s →
  slices_of (<[next_child_order_id s := pid]> owner) pid (sent s ++ [x]) = slices_of owner pid (sent s) ++ [x].
Proof.
  intros Hi Hx. rewrite slices_of_app. f_equal.
  - apply filter_ext_in. intros o Ho. rewrite lookup_insert. case_decide as Hd; [|done].
    pose proof (ii_next _ _ _ Hi). pose proof (next_fresh _ _ _ Hi) as Hf.
    destruct (ii_sent _ _ _ Hi o Ho) as [?|[i Hix]]; [lia|]. rewrite <- Hd, Hf in Hix. done.
  - unfold slices_of. by rewrite filter_cons_True by (rewrite Hx; apply lookup_insert_eq).
Qed.

Lemma berg_step_same pid s s' owner owner' : berg_step pid s s' owner owner' → sent s' = sent s → owner' = owner.
Proof.
  intros Hbs Es. destruct (bs_sent _ _ _ _ _ Hbs) as [(_ & -> & _)|(x & Es' & _)]; [done|].
  rewrite Es in Es'. apply (f_equal length) in Es'. rewrite length_app in Es'. cbn in Es'. lia.
Qed.

Lemma berg_step_new pid s s' owner owner' x : berg_step pid s s' owner owner' → sent s' = sent s ++ [x] →
  owner' = <[next_child_order_id s := pid]> owner.
Proof.
  intros Hbs Es. destruct (bs_sent _ _ _ _ _ Hbs) as [(Es' & _)|(y & _ & _ & -> & _)]; [|done].
  rewrite Es in Es'. apply (f_equal length) in Es'. rewrite length_app in Es'. cbn in Es'. lia.
Qed.

(** A slice that was just sent. *)
Lemma new_slice_open s s' owner owner' L L' pid p B o pre x :
  ice_inv s owner L → berg_step pid s s' owner owner' → sent s' = sent s ++ [x] →
  o_client_order_id x = next_child_order_id s → slices_of owner pid (sent s) = pre →
  Forall (spent L') pre → traded (next_child_order_id s) L' = traded (next_child_order_id s) L →
  o_quantity x = o → ice_open s' pid (next_child_order_id s) p B o (pre ++ [x]) → Forall (slice_for p) (pre ++ [x]) →
  berg_open s' owner' L' pid p.
Proof.
  intros Hi Hbs Es Hx Hpre Hsp Ht Ho Hio Hfor. exists B, o, pre, x.
  rewrite Es, (berg_step_new _ _ _ _ _ _ Hbs Es), (slices_of_new _ _ _ _ _ Hi Hx), Hpre, Hx.
  split; [done|]. split; [done|]. split; [|by split]. rewrite Ht, (next_untraded _ _ _ Hi). lia.
Qed.

(** What the leg makes of its parent. *)
Lemma leg_berg s s' owner owner' L c q pid p B o pre last :
  ice_inv s owner L → owner !! c = Some pid → slices_of owner pid (sent s) = pre ++ [last] →
  o_client_order_id last = c → ice_open s pid c p B o (pre ++ [last]) →
  traded c L = o_quantity last - o → Forall (spent L) pre → Forall (slice_for p) (pre ++ [last]) → 0 < q <= o → berg_step pid s s' owner owner' →
  (let p' := set_c_filled (filled p + q) p in
   if q <? o then sent s' = sent s ∧ ice_open s' pid c p' B (o - q) (pre ++ [last])
   else if filled p + q =? c_quantity p then
     sent s' = sent s ∧ ice_closed s' pid (set_c_active false p') (pre ++ [last])
   else sent s' = sent s ++ [slice_of clock s p'] ∧
     ice_open s' pid (next_child_order_id s) p' (B + c_display_quantity p)
       (Z.min (c_display_quantity p) (c_quantity p - (filled p + q))) ((pre ++ [last]) ++ [slice_of clock s p'])) →
  ∀ p1, active_icebergs s' !! pid = Some p1 →
    berg_open s' owner' (L ++ [(c, q)]) pid p1 ∨ berg_closed s' owner' (L ++ [(c, q)]) pid p1.
Proof.
  intros Hi Hc Hsl Hlast Hio0 Htr Hpre Hfor Hq Hbs Hres p1 Hp1.
  pose proof (slices_unique _ _ _ pid Hi) as Hnd. rewrite Hsl, fmap_app in Hnd. apply NoDup_app in Hnd as (_ & Hdis & _).
  assert (c ∉ (o_client_order_id <$> pre)) as Hni.
  { intros Hin. apply (Hdis c Hin). cbn. rewrite Hlast. by left. }
  pose proof (spent_snoc L c q pre Hpre Hni) as Hpre'.
  assert (traded c (L ++ [(c, q)]) = o_quantity last - (o - q)) as Htr' by (rewrite traded_snoc, Z.eqb_refl; lia).
  pose proof (berg_step_same _ _ _ _ _ Hbs) as Hsame. cbn zeta in Hres. destruct (Z.ltb_spec q o) as [Hlt|Hge].
  - destruct Hres as [Es Hio]. rewrite (io_parent _ _ _ _ _ _ _ Hio) in Hp1. injection Hp1 as <-. left.
    exists B, (o - q), pre, last. rewrite Es, Hsame, Hsl, Hlast by done. split_and!; try done.
    by apply (slice_for_terms p).
  - assert (Forall (spent (L ++ [(c, q)])) (pre ++ [last])) as Hall.
    { apply Forall_app. split; [done|]. constructor; [|constructor]. unfold spent. rewrite Hlast. lia. }
    destruct (Z.eqb_spec (filled p + q) (c_quantity p)).
    + destruct Hres as [Es Hic]. rewrite (ic_parent _ _ _ _ Hic) in Hp1. injection Hp1 as <-. right.
      split; rewrite Es, Hsame, Hsl by done; [done|]. split; [done|]. split; [apply (io_show _ _ _ _ _ _ _ Hio0)|by apply (slice_for_terms p)].
    + destruct Hres as [Es Hio]. rewrite (io_parent _ _ _ _ _ _ _ Hio) in Hp1. injection Hp1 as <-. left.
      eapply new_slice_open; [done|done|exact Es|done|done|done| |done|exact Hio|].
      2: { apply Forall_app. split; [by apply (slice_for_terms p)|by apply Forall_singleton]. }
      rewrite traded_snoc, (proj2 (Z.eqb_neq _ _)); [lia|]. intros ->. by rewrite (next_fresh _ _ _ Hi) in Hc.
Qed.

(** A leg of a slice, which the engine has traded within its quantity. *)
Lemma leg_credited s owner L c q :
  ice_inv s owner L → next_child_order_id s + 1 < UINT64_MAX → 0 < q → is_Some (owner !! c) →
  (∀ o, o ∈ sent s → o_client_order_id o = c → traded c L + q <= o_quantity o) →
  ∃ s' owner' pid, process_iceberg_leg clock c q s = Some s' ∧ ice_inv s' owner' (L ++ [(c, q)]) ∧
    owner ⊆ owner' ∧ berg_step pid s s' owner owner' ∧ same_parents s s'.
Proof.
  intros Hi Hroom Hq Hc Hle. destruct (leg_open s owner L c q Hi Hq Hc Hle)
    as (pid & p & B & o & pre & last & Hpid & Hsl & Hlast & Hio & Hqo & Htr & Hpre & Hfor).
  destruct (iceberg_leg clock s pid c p B o (pre ++ [last]) q Hio ltac:(lia) Hroom) as (s' & Hrun & Hres).
  destruct (leg_step c q pid s s' owner (ii_ids _ _ _ Hi) Hroom (io_child _ _ _ _ _ _ _ Hio) Hrun)
    as (owner' & Hbs & Hk & Hown & Ha).
  assert (owner ⊆ owner') as Hsub.
  { destruct Hown as [[_ ->]| ->]; [done|]. apply insert_subseteq, (next_fresh _ _ _ Hi). }
  assert (same_parents s s') as Hsp.
  { intros i. destruct (decide (i = pid)) as [->|Hne]; [|by rewrite (bs_active _ _ _ _ _ Hbs)].
    rewrite (io_parent _ _ _ _ _ _ _ Hio). split; [by eexists|done]. }
  exists s', owner', pid. split; [done|]. split; [|done]. eapply ice_inv_step; [done|exact Hbs|done| | | |].
  - intros x Hx. apply Hk in Hx as [Hx|?]; [|done]. eapply lookup_weaken; [by apply (ii_children _ _ _ Hi)|done].
  - intros x i Hx Hne. rewrite traded_snoc, (proj2 (Z.eqb_neq _ _)); [lia|]. intros <-. congruence.
  - intros l [Hl|Hl]%elem_of_app; [by left|]. apply list_elem_of_singleton in Hl as ->. right. right.
    exists pid. by eapply lookup_weaken.
  - eapply leg_berg; try done.
Qed.

(** A leg that is not of a slice. *)
Lemma leg_ignored s owner L c q : ice_inv s owner L → c < 2 ^ 63 → ice_inv s owner (L ++ [(c, q)]).
Proof.
  intros Hi Hc. assert (∀ x i, owner !! x = Some i → traded x (L ++ [(c, q)]) = traded x L) as Ht.
  { intros x i Hx. rewrite traded_snoc, (proj2 (Z.eqb_neq _ _)); [lia|]. intros ->.
    apply (ii_owner _ _ _ Hi) in Hx as [? _]. lia. }
  pose proof Hi as [H1 H2 H3 H4 H5 H6 H7 H8]. split; try done.
  - intros l [Hl|Hl]%elem_of_app; [by apply H7|]. apply list_elem_of_singleton in Hl as ->. by left.
  - intros pid p Hp. apply (berg_frame s s owner owner L); try done; [|by apply H8]. intros x Hx. by eapply Ht.
Qed.

(** ** A trade *)

Lemma iceberg_bit c : is_u64 c → has_iceberg_bit c = (2 ^ 63 <=? c).
Proof.
  intros Hc. unfold has_iceberg_bit. assert (∀ i, Z.testbit (Z.land c ICEBERG_BIT) i = Z.testbit c i && (63 =? i)) as Hb.
  { intros i. unfold ICEBERG_BIT. by rewrite Z.land_spec, Z.shiftl_1_l, Z.pow2_bits_eqb by lia. }
  destruct (Z.leb_spec (2 ^ 63) c) as [Hle|Hlt].
  - apply negb_true_iff, Z.eqb_neq. intros H0. specialize (Hb 63). rewrite H0, Z.bits_0, Z.eqb_refl, andb_true_r in Hb.
    assert (Z.testbit c 63 = true) as Ht; [|congruence]. apply Z.testbit_true; [lia|].
    replace (c / 2 ^ 63) with 1; [done|]. apply (Z.div_unique _ _ _ (c - 2 ^ 63)); mach.
  - apply negb_false_iff, Z.eqb_eq. apply Z.bits_inj_0. intros i. rewrite Hb.
    destruct (Z.eqb_spec 63 i) as [<-|]; [|apply andb_false_r]. rewrite andb_true_r. apply Z.testbit_false; [lia|].
    rewrite Z.div_small by mach. done.
Qed.

(** One leg, whether of a slice or not. *)
Lemma leg_taken s owner L c q :
  ice_inv s owner L → next_child_order_id s + 1 < UINT64_MAX → 0 < q → is_u64 c →
  (c < 2 ^ 63 ∨ is_Some (owner !! c)) →
  (∀ o, o ∈ sent s → owned owner o → o_client_order_id o = c → traded c L + q <= o_quantity o) →
  ∃ s' owner', (if has_iceberg_bit c then process_iceberg_leg clock c q s else Some s) = Some s' ∧
    ice_inv s' owner' (L ++ [(c, q)]) ∧ owner ⊆ owner' ∧ next_child_order_id s' <= next_child_order_id s + 1 ∧
    same_parents s s' ∧ (∀ o, o ∈ sent s' → o ∈ sent s ∨ o_client_order_id o = next_child_order_id s).
Proof.
  intros Hi Hroom Hq Hc Ho Hle. rewrite iceberg_bit by done. destruct (Z.leb_spec (2 ^ 63) c) as [Hge|Hlt].
  - destruct Ho as [?|Ho]; [lia|]. destruct (leg_credited s owner L c q Hi Hroom Hq Ho)
      as (s' & owner' & pid & Hrun & Hi' & Hsub & Hbs & Hsp); [intros o Hin Hoc; apply Hle; [done|by rewrite <- Hoc in Ho|done]|].
    exists s', owner'. split_and!; try done.
    + destruct (bs_sent _ _ _ _ _ Hbs) as [(_ & _ & ->)|(x & _ & _ & _ & ->)]; lia.
    + intros o Hin. destruct (bs_sent _ _ _ _ _ Hbs) as [(Es & _)|(x & Es & Hx & _)]; rewrite Es in Hin; [by left|].
      apply elem_of_app in Hin as [?|Hin]; [by left|]. apply list_elem_of_singleton in Hin as ->. by right.
  - exists s, owner. split_and!; try done; [by apply leg_ignored|lia|by left].
Qed.

(** The trades that the OMS reads keep all parents right. *)
Lemma check_fill_credited s owner L t :
  ice_inv s owner L → next_child_order_id s + 2 < UINT64_MAX → 0 < t_quantity t →
  is_u64 (t_buy_order_id t) → is_u64 (t_sell_order_id t) →
  (∀ l, l ∈ legs_of t → l.1 < 2 ^ 63 ∨ is_Some (owner !! l.1)) →
  (∀ o, o ∈ sent s → owned owner o → traded (o_client_order_id o) (L ++ legs_of t) <= o_quantity o) →
  ∃ s' owner', check_fill clock t s = Some s' ∧ ice_inv s' owner' (L ++ legs_of t) ∧ owner ⊆ owner' ∧ same_parents s s'.
Proof.
  intros Hi Hroom Hq Hb Hs Hl Hle. unfold legs_of in *. set (b := t_buy_order_id t) in *. set (a := t_sell_order_id t) in *.
  set (q := t_quantity t) in *.
  assert (check_fill clock t s = (s1 ← if has_iceberg_bit b then process_iceberg_leg clock b q s else Some s;
    if has_iceberg_bit a then process_iceberg_leg clock a q s1 else Some s1)) as ->.
  { unfold check_fill. fold b a q. by destruct (has_iceberg_bit b), (has_iceberg_bit a). }
  assert (L ++ [(b, q); (a, q)] = (L ++ [(b, q)]) ++ [(a, q)]) as E by by rewrite <- app_assoc.
  assert (∀ c, traded c (L ++ [(b, q); (a, q)]) = traded c L + (if b =? c then q else 0) + (if a =? c then q else 0)) as Ht
    by (intros c; by rewrite E, !traded_snoc).
  destruct (leg_taken s owner L b q Hi ltac:(lia) Hq Hb (Hl (b, q) ltac:(left))) as (s1 & o1 & -> & Hi1 & Hsub1 & Hn1 & Hp1 & Hs1).
  { intros o Ho Hown Hob. specialize (Hle o Ho Hown). rewrite Ht, Hob, Z.eqb_refl in Hle. destruct (a =? b); lia. }
  cbn [mbind option_bind]. assert (a < 2 ^ 63 ∨ is_Some (owner !! a)) as Ha by (apply (Hl (a, q)); right; left).
  destruct (leg_taken s1 o1 (L ++ [(b, q)]) a q Hi1 ltac:(lia) Hq Hs) as (s2 & o2 & Hrun & Hi2 & Hsub2 & _ & Hp2 & _).
  { destruct Ha as [?|[i Hx]]; [by left|right]. exists i. by eapply lookup_weaken. }
  { intros o Ho [i Hx] Hoa. destruct (ii_owner _ _ _ Hi1 _ _ Hx) as [Hr _]. rewrite Hoa in Hr, Hx.
    destruct Ha as [?|Ha]; [lia|]. destruct (Hs1 o Ho) as [Hin|Hnx].
    - specialize (Hle o Hin). unfold owned in Hle. rewrite Hoa in Hle. specialize (Hle Ha).
      rewrite Ht, Z.eqb_refl in Hle. rewrite traded_snoc. lia.
    - rewrite <- Hoa, Hnx, (next_fresh _ _ _ Hi) in Ha. by destruct Ha. }
  exists s2, o2. rewrite E. split_and!; [done|done|by etrans|]. intros i. by rewrite (Hp2 i).
Qed.

(** ** The other orders *)

(** Orders of clients, with ids below those of slices, and whatever else
    changes outside the icebergs. *)
Lemma ice_inv_plain s s' owner L l :
  ice_inv s owner L → sent s' = sent s ++ l → Forall (λ o, o_client_order_id o < 2 ^ 63) l →
  active_icebergs s' = active_icebergs s → child_to_parent s' = child_to_parent s →
  next_child_order_id s' = next_child_order_id s → ice_inv s' owner L.
Proof.
  intros [H1 H2 H3 H4 H5 H6 H7 H8] Es Hl Ea Ec En. rewrite Forall_forall in Hl.
  assert (∀ o, o ∈ l → owner !! o_client_order_id o = None) as Hno.
  { intros o Ho. destruct (owner !! o_client_order_id o) as [i|] eqn:E; [|done]. apply H3 in E as [? _].
    specialize (Hl o Ho). cbn in Hl. lia. }
  assert (child_ids_ok s') as Hids by (unfold child_ids_ok; by rewrite Ec, En).
  split; rewrite ?En, ?Ec, ?Ea; try done.
  - intros c pid Hc. destruct (H3 c pid Hc) as (Hr & Ha & o & Ho & Hoc). split; [done|]. split; [done|].
    exists o. split; [|done]. rewrite Es. set_solver.
  - intros o Ho. rewrite Es in Ho. apply elem_of_app in Ho as [Ho|Ho]; [by apply H5|left; by apply Hl].
  - rewrite Es, filter_app. replace (filter (owned owner) l) with (@nil Order); [by rewrite app_nil_r|].
    symmetry. apply filter_none. intros o Ho [i Hi]. by rewrite Hno in Hi.
  - intros pid p Hp. apply (berg_frame s s' owner owner L L); [by rewrite Ea|by rewrite Ec|done| |done|by apply H8].
    rewrite Es, slices_of_app, (slices_of_none _ _ l), app_nil_r; [done|]. intros o Ho. by rewrite Hno.
Qed.

(** The intake of an iceberg whose id is not in use. *)
Lemma iceberg_taken s owner L c :
  ice_inv s owner L → next_child_order_id s + 1 < UINT64_MAX → active_icebergs s !! c_client_order_id c = None →
  c_is_active c = true → filled c = 0 → 0 < c_display_quantity c < 2 ^ 32 → 0 < c_quantity c < 2 ^ 32 →
  ∃ owner', ice_inv (send_slice clock (c_client_order_id c)
    (set_icebergs (<[c_client_order_id c := c]> (active_icebergs s)) s)) owner' L ∧ owner ⊆ owner'.
Proof.
  intros Hi Hroom Hnew Hact Hfill HD HQ. set (pid := c_client_order_id c) in *.
  set (s1 := set_icebergs (<[pid := c]> (active_icebergs s)) s).
  assert (∀ x, owner !! x ≠ Some pid) as Hnone.
  { intros x Hx. apply (ii_owner _ _ _ Hi) in Hx as (_ & [? Hx] & _). congruence. }
  assert (berg_step pid s s1 owner owner) as H1
    by (apply (berg_step_set pid c (child_to_parent s) s); [apply (ii_ids _ _ _ Hi)|done|done]).
  destruct (send_slice_step pid s1 owner (bs_ids _ _ _ _ _ H1) Hroom) as (owner' & H2 & Hk & Hown & Ha).
  assert (berg_step pid s (send_slice clock pid s1) owner owner') as Hbs by by eapply berg_step_after.
  assert (owner ⊆ owner') as Hsub.
  { destruct Hown as [[_ ->]| ->]; [done|]. apply insert_subseteq, (next_fresh _ _ _ Hi). }
  destruct (send_slice_open clock s1 pid c 0 []) as [Es Hio]; try done.
  { apply lookup_insert_eq. }
  { intros x Hx. by apply (Hnone x), (ii_children _ _ _ Hi). }
  { apply (bs_ids _ _ _ _ _ H1). }
  { lia. }
  { intros x Hx. by apply elem_of_nil in Hx. }
  exists owner'. split; [|done]. eapply ice_inv_step; [done|exact Hbs|done| |done|by left|].
  - intros x Hx. apply Hk in Hx as [Hx|?]; [|done]. by apply (ii_children _ _ _ Hi), Hnone in Hx.
  - intros p Hp. rewrite (io_parent _ _ _ _ _ _ _ Hio) in Hp. injection Hp as <-. left.
    eapply (new_slice_open s _ owner owner' L L pid c 0 _ []); try done; [|by apply Forall_singleton].
    apply slices_of_none. intros o _. apply Hnone.
Qed.

(** The ids of slices are not used twice, so a slice is all that is ordered
    under its id. *)
Lemma slice_ordered s owner L o :
  ice_inv s owner L → o ∈ sent s → owned owner o → ordered (o_client_order_id o) (sent s) = o_quantity o.
Proof.
  intros Hi Ho Hown. unfold ordered. set (c := o_client_order_id o).
  rewrite <- (tally_unique o_client_order_id o_quantity c (filter (owned owner) (sent s)) o);
    [|by apply list_elem_of_filter|done|apply (ii_unique _ _ _ Hi)].
  clear Ho Hi. induction (sent s) as [|x l IH]; [done|]. rewrite filter_cons, tally_cons, IH.
  case_decide as Hx; [by rewrite tally_cons|]. rewrite (proj2 (Z.eqb_neq _ _)); [done|]. intros Heq.
  apply Hx. unfold owned. rewrite Heq. exact Hown.
Qed.
End iceberg.

(** * The OMS with its queue and its stops *)

(** A client's order with an id below those of slices; an iceberg comes
    active and unfilled. *)
Record plain_client (c : ClientOrder) : Prop := {
  pc_fit : client_fit c;
  pc_id : c_client_order_id c < 2 ^ 63;
  pc_berg : c_execution_type c = CICEBERG → c_is_active c = true ∧ c_filled_quantity c = 0
}.

Definition is_berg (c : ClientOrder) : Prop := c_execution_type c = CICEBERG.
#[export] Instance client_type_eq_dec : EqDecision ClientOrderType.
Proof. solve_decision. Defined.
#[export] Instance is_berg_dec c : Decision (is_berg c) := decide (c_execution_type c = CICEBERG).

(** What a step that is not about icebergs leaves alone. *)
Record same_rest (s s' : OMS) : Prop := {
  sm_registry : stop_loss_registry s' = stop_loss_registry s;
  sm_incoming : incoming_orders s' = incoming_orders s;
  sm_table : symbolLookupTable s' = symbolLookupTable s
}.

Section orderly.
Context (clock : nat → Z) (junk_price n : Z).
Implicit Types (s : OMS) (owner : gmap Z Z) (L : list leg) (used : gset Z).

(** [used] are the ids of the icebergs handed over so far. *)
Record orderly s owner L used : Prop := {
  od_ice : ice_inv s owner L;
  od_stops ct c : ct ∈ stop_loss_registry s → c ∈ sell_stops ct ++ buy_stops ct → c_client_order_id c < 2 ^ 63;
  od_queue : ∃ l, rb_rep n (incoming_orders s) l ∧ Forall plain_client l ∧
    NoDup (c_client_order_id <$> filter is_berg l) ∧
    ∀ c, c ∈ l → is_berg c → c_client_order_id c ∈ used ∧ active_icebergs s !! c_client_order_id c = None;
  od_used pid : is_Some (active_icebergs s !! pid) → pid ∈ used
}.

Lemma send_slice_rest pid s : same_rest s (send_slice clock pid s).
Proof. unfold send_slice. cbn zeta. destruct (negb _); [done|]. by case_match. Qed.

Lemma leg_rest c q s s' : process_iceberg_leg clock c q s = Some s' → same_rest s s'.
Proof.
  unfold process_iceberg_leg. destruct (child_to_parent s !! c); [|by intros [= <-]]. cbn zeta.
  destruct (_ =? 0); [done|]. intros H. apply (inj Some) in H. subst s'. destruct (_ || _); [|done].
  match goal with |- same_rest s (send_slice clock ?i ?s1) => pose proof (send_slice_rest i s1) as [H1 H2 H3] end.
  split; [rewrite H1|rewrite H2|rewrite H3]; done.
Qed.

Lemma same_rest_trans s1 s2 s3 : same_rest s1 s2 → same_rest s2 s3 → same_rest s1 s3.
Proof. intros [A1 A2 A3] [B1 B2 B3]. split; congruence. Qed.

Lemma check_fill_rest t s s' : check_fill clock t s = Some s' → same_rest s s'.
Proof.
  unfold check_fill. destruct (_ && _); [by intros [= <-]|]. intros (s1 & H1 & H2)%bind_Some.
  eapply same_rest_trans.
  - destruct (has_iceberg_bit (t_buy_order_id t)); [by eapply leg_rest|apply (inj Some) in H1; by subst s1].
  - destruct (has_iceberg_bit (t_sell_order_id t)); [by eapply leg_rest|apply (inj Some) in H2; by subst s'].
Qed.

(** A trade read from a ring. *)
Lemma fill_orderly s owner L used t :
  orderly s owner L used → next_child_order_id s + 2 < UINT64_MAX → 0 < t_quantity t →
  is_u64 (t_buy_order_id t) → is_u64 (t_sell_order_id t) →
  (∀ l, l ∈ legs_of t → l.1 < 2 ^ 63 ∨ is_Some (owner !! l.1)) →
  (∀ o, o ∈ sent s → owned owner o → traded (o_client_order_id o) (L ++ legs_of t) <= o_quantity o) →
  ∃ s' owner', check_fill clock t s = Some s' ∧ orderly s' owner' (L ++ legs_of t) used ∧ owner ⊆ owner'.
Proof.
  intros [Hi Hst (l & Hq & Hl & Hnd & Hb) Hu] Hroom Hqt H1 H2 Hlegs Hle.
  destruct (check_fill_credited clock s owner L t Hi Hroom Hqt H1 H2 Hlegs Hle) as (s' & owner' & Hrun & Hi' & Hsub & Hsp).
  destruct (check_fill_rest _ _ _ Hrun) as [Er Eq Et]. exists s', owner'. split; [done|]. split; [|done].
  split; [done|by rewrite Er| |].
  - exists l. rewrite Eq. split_and!; try done. intros c Hc Hbc. destruct (Hb c Hc Hbc) as [H3 H4]. split; [done|].
    apply eq_None_not_Some. rewrite (Hsp _). by apply eq_None_not_Some.
  - intros pid Hp%Hsp. by apply Hu.
Qed.

(** Steps that only send orders of clients. *)
Lemma plain_orderly s s' owner L used l :
  orderly s owner L used → sent s' = sent s ++ l → Forall (λ o, o_client_order_id o < 2 ^ 63) l →
  active_icebergs s' = active_icebergs s → child_to_parent s' = child_to_parent s →
  next_child_order_id s' = next_child_order_id s → incoming_orders s' = incoming_orders s →
  (∀ ct c, ct ∈ stop_loss_registry s' → c ∈ sell_stops ct ++ buy_stops ct → c_client_order_id c < 2 ^ 63) →
  orderly s' owner L used.
Proof.
  intros [Hi _ Hq Hu] Es Hl Ea Ec En Ei Hst. split; [by eapply ice_inv_plain|done| |by rewrite Ea].
  by rewrite Ei, Ea.
Qed.

Lemma look_price_orderly s s' owner L used i cur :
  orderly s owner L used → oms_good n s → (i < Z.to_nat MAX_SYMBOLS)%nat →
  look_price clock i cur s = Some s' → orderly s' owner L used.
Proof.
  intros Ho Hg Hi. unfold look_price. intros (seen & Hseen & H)%bind_Some.
  destruct (cur =? seen); [apply (inj Some) in H; by subst s'|].
  apply bind_Some in H as (s1 & H1 & H). apply (inj Some) in H. subst s'.
  destruct (lookup_lt_is_Some_2 (stop_loss_registry s) i) as [ct Hct]; [by rewrite (og_registry _ _ Hg)|].
  apply list_elem_of_lookup_2 in Hct as Hin.
  destruct (og_stops _ _ Hg ct Hin) as [Hok _].
  destruct (check_stops_ok clock s i ct cur Hct Hok) as (sells & buys & ct' & [F1 F2 _ _ _] & _ & Hrun);
    [apply (og_ids _ _ Hg)|]. rewrite Hrun in H1. apply (inj Some) in H1. subst s1.
  assert (∀ c, c ∈ (sells ++ buys) ++ sell_stops ct' ++ buy_stops ct' → c_client_order_id c < 2 ^ 63) as Hids.
  { intros c Hc. apply (od_stops _ _ _ _ Ho ct); [done|]. rewrite <- F1, <- F2. set_solver. }
  eapply plain_orderly; try done; cbn [sent set_last_seen set_registry after_sends stop_loss_registry].
  - apply Forall_lookup_2. intros k o Hk. apply list_lookup_imap_Some in Hk as (c & Hc%list_elem_of_lookup_2 & ->).
    apply (Hids c). set_solver.
  - intros ct1 c Hct1 Hc. apply list_elem_of_lookup in Hct1 as [j Hj].
    apply list_lookup_insert_Some in Hj as [(_ & <- & _)|(_ & Hj)]; [apply Hids; set_solver|].
    apply (od_stops _ _ _ _ Ho ct1); [by eapply list_elem_of_lookup_2|done].
Qed.

(** A client hands over an order. *)
Lemma enqueue_orderly s s' owner L used c ok :
  orderly s owner L used → plain_client c → (is_berg c → c_client_order_id c ∉ used) →
  enqueueClientOrder c s = Some (ok, s') →
  orderly s' owner L (if decide (is_berg c) then {[c_client_order_id c]} ∪ used else used).
Proof.
  intros [Hi Hst (l & Hq & Hl & Hnd & Hb) Hu] Hc Hnew. unfold enqueueClientOrder. intros ([ok' q] & Hpush & H)%bind_Some.
  apply (inj Some) in H. injection H as -> <-. set (used' := if decide (is_berg c) then _ else _).
  assert (used ⊆ used') as Hsub by (unfold used'; case_decide; set_solver).
  assert (ice_inv (set_incoming q s) owner L) as Hi' by (eapply (ice_inv_plain s _ owner L []); try done; by rewrite app_nil_r).
  pose proof (push_ok _ _ _ c Hq) as Hok. split; [done|done| |intros pid Hp; apply Hsub; by apply Hu].
  assert (∀ x, x ∈ l → is_berg x → c_client_order_id x ∈ used' ∧ active_icebergs s !! c_client_order_id x = None) as Hb'.
  { intros x Hx Hxb. destruct (Hb x Hx Hxb). split; [by apply Hsub|done]. }
  destruct (_ =? _).
  - rewrite Hpush in Hok. injection Hok as -> ->. by exists l.
  - destruct Hok as (q' & Hok & Hq'). rewrite Hpush in Hok. injection Hok as -> ->. exists (l ++ [c]). split_and!; try done.
    + apply Forall_app. by rewrite Forall_singleton.
    + rewrite filter_app, fmap_app. apply NoDup_app. split; [done|]. split.
      * intros x (y & -> & [Hyb Hy]%list_elem_of_filter)%list_elem_of_fmap (z & Hz & [Hzb ->%list_elem_of_singleton]%list_elem_of_filter)%list_elem_of_fmap.
        apply (Hnew Hzb). rewrite <- Hz. by apply Hb.
      * rewrite filter_cons. case_decide; cbn; [apply NoDup_singleton|constructor].
    + intros x [Hx|Hx]%elem_of_app Hxb; [by apply Hb'|]. apply list_elem_of_singleton in Hx as ->.
      split; [unfold used'; rewrite decide_True by done; set_solver|].
      destruct (active_icebergs s !! c_client_order_id c) eqn:E; [|done]. destruct (Hnew Hxb). apply Hu. by rewrite E.
Qed.

(** Registering a stop. *)
Lemma register_orderly s s' owner L used c :
  orderly s owner L used → oms_good n s → client_fit c → c_client_order_id c < 2 ^ 63 →
  registerStopLoss c s = Some s' → orderly s' owner L used.
Proof.
  intros Ho Hg Hc Hid Hrun. pose proof Hrun as Hrun'. unfold registerStopLoss in Hrun'.
  apply bind_Some in Hrun' as (ct & Hct & _). apply list_elem_of_lookup_2 in Hct as Hin.
  destruct (og_stops _ _ Hg ct Hin) as [Hok _].
  destruct (registerStopLoss_adds c s ct Hct Hok) as (ct' & Hrun' & _ & Hadd); [apply Hc|].
  rewrite Hrun in Hrun'. apply (inj Some) in Hrun'. subst s'.
  eapply (plain_orderly s _ owner L used []); try done; [by rewrite app_nil_r|].
  intros ct1 x Hct1 Hx. cbn [stop_loss_registry set_registry] in Hct1. apply list_elem_of_lookup in Hct1 as [j Hj].
  apply list_lookup_insert_Some in Hj as [(_ & <- & _)|(_ & Hj)].
  - assert (x = c ∨ x ∈ sell_stops ct ++ buy_stops ct) as [->|Hold]; [|done|by apply (od_stops _ _ _ _ Ho ct)].
    destruct (c_type c); destruct Hadd as [A1 A2]; rewrite A1, A2 in Hx; set_solver.
  - apply (od_stops _ _ _ _ Ho ct1); [by eapply list_elem_of_lookup_2|done].
Qed.

Lemma forward_orderly s owner L used ty price c :
  orderly s owner L used → c_client_order_id c < 2 ^ 63 → orderly (forward clock ty price c s) owner L used.
Proof.
  intros Ho Hc. eapply plain_orderly; [done|reflexivity|by apply Forall_singleton|reflexivity..|apply (od_stops _ _ _ _ Ho)].
Qed.

(** Taking an iceberg in that is not in the queue any more. *)
Lemma iceberg_orderly s owner L used c l :
  orderly s owner L used → next_child_order_id s + 1 < UINT64_MAX → plain_client c → is_berg c →
  c_client_order_id c ∈ used → active_icebergs s !! c_client_order_id c = None →
  rb_rep n (incoming_orders s) l → Forall plain_client l → NoDup (c_client_order_id <$> filter is_berg (c :: l)) →
  (∀ x, x ∈ l → is_berg x → c_client_order_id x ∈ used ∧ active_icebergs s !! c_client_order_id x = None) →
  ∃ owner', orderly (send_slice clock (c_client_order_id c)
    (set_icebergs (<[c_client_order_id c := c]> (active_icebergs s)) s)) owner' L used ∧ owner ⊆ owner'.
Proof.
  intros [Hi Hst _ Hu] Hroom [Hfit Hid Hpb] Hb Huse Hnew Hq Hl Hnd Hbl. destruct (Hpb Hb) as [Hact Hfill].
  pose proof (cf_display _ Hfit Hb). pose proof (cf_quantity _ Hfit). pose proof (cf_typed _ Hfit) as [].
  destruct (iceberg_taken clock s owner L c Hi Hroom Hnew Hact Hfill) as (owner' & Hi' & Hsub); [mach|mach|].
  set (pid := c_client_order_id c) in *. set (s1 := set_icebergs (<[pid := c]> (active_icebergs s)) s) in *.
  destruct (send_slice_step clock pid s1 owner) as (o2 & Hbs & _); [apply (ii_ids _ _ _ Hi)|done|].
  destruct (send_slice_rest pid s1) as [Er Eq Et]. exists owner'. split; [|done].
  assert (∀ i, i ≠ pid → active_icebergs (send_slice clock pid s1) !! i = active_icebergs s !! i) as Hoth.
  { intros i Hne. rewrite (bs_active _ _ _ _ _ Hbs) by done. cbn [s1 active_icebergs set_icebergs]. by rewrite lookup_insert_ne. }
  rewrite filter_cons_True, fmap_cons in Hnd by done. apply NoDup_cons in Hnd as [Hni Hnd].
  split; [done|rewrite Er; exact Hst| |].
  - exists l. rewrite Eq. split_and!; try done. intros x Hx Hxb. destruct (Hbl x Hx Hxb). split; [done|].
    rewrite Hoth; [done|]. intros Heq. apply Hni, list_elem_of_fmap. exists x.
    split; [by rewrite Heq|]. by apply list_elem_of_filter.
  - intros i Hx. destruct (decide (i = pid)) as [->|Hne]; [done|]. rewrite Hoth in Hx by done. by apply Hu.
Qed.

Lemma handle_orderly s s' owner L used c l :
  orderly s owner L used → oms_good n s → next_child_order_id s + 1 < UINT64_MAX → plain_client c →
  rb_rep n (incoming_orders s) l → Forall plain_client l → NoDup (c_client_order_id <$> filter is_berg (c :: l)) →
  (∀ x, x ∈ c :: l → is_berg x → c_client_order_id x ∈ used ∧ active_icebergs s !! c_client_order_id x = None) →
  handle_client_order clock junk_price c s = Some s' →
  ∃ owner', orderly s' owner' L used ∧ owner ⊆ owner'.
Proof.
  intros Ho Hg Hroom Hpc Hq Hl Hnd Hb. unfold handle_client_order. intros (sym & Hsym & H)%bind_Some.
  set (c' := set_c_symbol_id _ c) in H.
  assert (plain_client c') as Hpc'.
  { destruct Hpc as [[[] ? ? ?] ? ?]. split; try done. split; try done. split; try done. apply u32_range. }
  destruct (c_symbol_id c' =? UINT32_MAX); [apply (inj Some) in H; subst s'; by exists owner|].
  destruct (c_execution_type c') eqn:Ety.
  - apply (inj Some) in H. subst s'. exists owner. split; [|done]. apply forward_orderly; [done|apply Hpc'].
  - apply (inj Some) in H. subst s'. exists owner. split; [|done]. destruct (c_price c' =? 0); [done|].
    apply forward_orderly; [done|apply Hpc'].
  - exists owner. split; [|done]. eapply register_orderly; [done|done|apply Hpc'|apply Hpc'|exact H].
  - apply (inj Some) in H. subst s'. destruct (Hb c ltac:(left) Ety) as [H1 H2].
    apply (iceberg_orderly s owner L used c' l); try done; [|intros x Hx; apply Hb; by right].
    rewrite filter_cons_True in Hnd |- * by done. exact Hnd.
Qed.

Lemma intake_orderly s s' owner L used :
  orderly s owner L used → oms_good n s → next_child_order_id s + 1 < UINT64_MAX →
  intake clock junk_price s = Some s' → ∃ owner', orderly s' owner' L used ∧ owner ⊆ owner'.
Proof.
  intros Ho Hg Hroom. pose proof Ho as [Hi Hst (l & Hq & Hl & Hnd & Hb) Hu]. unfold intake.
  intros ([item q] & Hpop & H)%bind_Some. pose proof (pop_ok _ _ _ Hq) as Hok.
  assert (∀ l', rb_rep n q l' → Forall plain_client l' → NoDup (c_client_order_id <$> filter is_berg l') →
    (∀ c, c ∈ l' → c ∈ l) → orderly (set_incoming q s) owner L used ∧ oms_good n (set_incoming q s)) as Hset.
  { intros l' Hq' Hl' Hnd' Hsub. split.
    - split; [|done|exists l'; split_and!; try done; intros c Hc; by apply Hb, Hsub|done].
      eapply (ice_inv_plain s _ owner L []); try done. by rewrite app_nil_r.
    - destruct Hg. split; oms_cbn; try done. exists l'. split; [done|]. eapply Forall_impl; [done|]. by intros c []. }
  destruct l as [|c l]; [rewrite Hpop in Hok; injection Hok as -> ->|destruct Hok as (q' & Hok & Hq'); rewrite Hpop in Hok; injection Hok as -> ->].
  - apply (inj Some) in H. subst s'. exists owner. split; [|done]. by apply (Hset []).
  - apply Forall_cons in Hl as [Hc Hl]. assert (NoDup (c_client_order_id <$> filter is_berg l)) as Hnd'.
    { rewrite filter_cons in Hnd. case_decide; [|done]. rewrite fmap_cons in Hnd. by apply NoDup_cons in Hnd as [_ ?]. }
    destruct (Hset l Hq' Hl Hnd') as [Ho' Hg']; [by right|]. eapply handle_orderly; try done.
Qed.
End orderly.
