(* ===== verification/System.v ===== *)
(** The exchange as a whole: the OMS thread, the dispatcher and the group
    threads running beside each other and beside the clients, as
    src/tests/pipeline_server.cpp puts them together, against an abstract
    machine that only moves orders from one list to the next. *)

From stdpp Require Import relations.
From S2P Require Import Prelude Types Heap MemPool PriceTime OrderBook BookInv TradeRing RingBuffer Engine Group EngineTheorems Oms OmsTheorems Wire Bots OmsLoop.

(** * The system *)

(** [sys_outbox] holds the orders of [sent] for which [dispatch_order] has
    not returned yet: the OMS thread is inside it until the list is empty.
    What the OMS does between two orders of one piece of its loop only
    touches its own state, so these orders can be collected first. *)
Record System := mkSystem {
  sys_oms : OMS;
  sys_pc : oms_pc;
  sys_outbox : list Order;
  sys_engine : MatchingEngineDispatcher
}.

Inductive thread := OmsThread | GroupThread (i : nat).

#[export] Instance thread_eq_dec : EqDecision thread.
Proof. solve_decision. Defined.

Section system.
Context (clock : nat → Z) (junk_price : Z).
Implicit Types x : System.

(** The OMS thread: the next attempt of [dispatch_order], or else the next
    piece of its loop on the rings and prices as they are now. *)
Definition oms_turn x : option System :=
  match sys_outbox x with
  | o :: os =>
      '(ok, d) ← try_dispatch o (sys_engine x);
      Some (mkSystem (sys_oms x) (sys_pc x) (if ok : bool then os else o :: os) d)
  | [] =>
      let d := sys_engine x in
      '(pc, m) ← oms_micro clock junk_price (trade_mem <$> groups d) (Some (last_price d)) (sys_pc x) (sys_oms x);
      Some (mkSystem m pc (drop (length (sent (sys_oms x))) (sent m)) d)
  end.

(** An iteration of the thread of group [i]. *)
Definition group_turn (i : nat) x : option System :=
  d ← run_group i (sys_engine x);
  Some (mkSystem (sys_oms x) (sys_pc x) (sys_outbox x) d).

Definition turn (t : thread) x : option System :=
  match t with OmsThread => oms_turn x | GroupThread i => group_turn i x end.

Definition thread_ok (t : thread) : Prop :=
  match t with OmsThread => True | GroupThread i => (i < Z.to_nat GROUP_COUNT)%nat end.

Fixpoint run_turns (ts : list thread) x : option System :=
  match ts with
  | [] => Some x
  | t :: ts => x ← turn t x; run_turns ts x
  end.

(** What can happen next: a session of the server hands an order of a client
    to the OMS, or a thread takes its turn.  The clients are those whose orders
    are [client_fit]: values of their C++ types, a terminated symbol, a
    positive quantity and, for an iceberg, a positive display quantity.
    Neither the server nor the OMS checks this; the theorems about the running
    exchange are about such clients only. *)
Inductive sys_step x : System → Prop :=
| step_client c ok m : client_fit c → enqueueClientOrder c (sys_oms x) = Some (ok, m) →
    sys_step x (mkSystem m (sys_pc x) (sys_outbox x) (sys_engine x))
| step_turn t x' : thread_ok t → turn t x = Some x' → sys_step x x'.

(** The construction in [main]: the dispatcher with its books, the OMS, and
    the group threads running. *)
Definition System_new (engine_capacity oms_capacity boot : Z) (mems : Z → Z → option (list OrderNode))
  (junk : Z → Z → Z * Z) (lower upper : list Z) (symbols : list (list Z * Z)) : option System :=
  d ← initialize_engine mems junk lower upper (MatchingEngineDispatcher_new engine_capacity []);
  m ← OMS_new oms_capacity boot symbols;
  Some (mkSystem m AtIntake [] (start d)).

(** * The abstract machine *)

Definition group_of (o : Order) : nat := Z.to_nat (o_symbol_id o / MAX_SYMBOLS).
Definition routed (i : nat) (o : Order) : Prop := group_of o = i.
#[export] Instance routed_dec i o : Decision (routed i o) := decide (group_of o = i).

(** For each group, the orders it has processed and those in its queue. *)
Record flow := mkFlow {
  f_sent : list Order;
  f_out : list Order;
  f_groups : list (list Order * list Order)
}.

Definition flow_new : flow := mkFlow [] [] (replicate (Z.to_nat GROUP_COUNT) ([], [])).

(** [nq - 1] orders fit in a queue; [new] are the orders a piece of the OMS
    loop sends. *)
Definition flow_turn (nq : Z) (t : thread) (new : list Order) (f : flow) : flow :=
  match t with
  | OmsThread =>
      match f_out f with
      | [] => mkFlow (f_sent f ++ new) new (f_groups f)
      | o :: os =>
          match f_groups f !! group_of o with
          | Some (dn, pd) =>
              if Z.of_nat (length pd) =? nq - 1 then f
              else mkFlow (f_sent f) os (<[group_of o := (dn, pd ++ [o])]> (f_groups f))
          | None => f
          end
      end
  | GroupThread i =>
      match f_groups f !! i with
      | Some (dn, o :: pd) => mkFlow (f_sent f) (f_out f) (<[i := (dn ++ [o], pd)]> (f_groups f))
      | _ => f
      end
  end.

Definition flow_step (nq : Z) (f f' : flow) : Prop := ∃ t new, f' = flow_turn nq t new f.

(** Nothing is lost, doubled or overtaken within a group: [d] is what has
    left the outbox. *)
Record flow_ok (f : flow) : Prop := {
  fo_fit : Forall order_fit (f_sent f);
  fo_groups : length (f_groups f) = Z.to_nat GROUP_COUNT;
  fo_split : ∃ d, f_sent f = d ++ f_out f ∧
    ∀ i dn pd, f_groups f !! i = Some (dn, pd) → filter (routed i) d = dn ++ pd
}.

Lemma group_of_lt o : order_fit o → (group_of o < Z.to_nat GROUP_COUNT)%nat.
Proof.
  intros [_ _ Hs]. unfold group_of. assert (o_symbol_id o / MAX_SYMBOLS < GROUP_COUNT).
  { apply Z.div_lt_upper_bound; [done|]. unfold TOTAL_SYMBOLS in Hs. lia. }
  assert (0 <= o_symbol_id o / MAX_SYMBOLS) by (apply Z.div_pos; [lia|done]). lia.
Qed.

Lemma flow_new_ok : flow_ok flow_new.
Proof.
  split; [constructor|done|]. exists []. split; [done|]. intros i dn pd H. cbn [flow_new f_groups] in H.
  apply lookup_replicate in H as [[= -> ->] _]. done.
Qed.

Lemma filter_routed_snoc i d o :
  filter (routed i) (d ++ [o]) = filter (routed i) d ++ (if decide (group_of o = i) then [o] else []).
Proof. by rewrite filter_app. Qed.

Lemma flow_turn_ok nq t new f : flow_ok f → Forall order_fit new → flow_ok (flow_turn nq t new f).
Proof.
  intros Hf Hnew. pose proof Hf as [Hfit Hlen (d & Hd & Hg)]. destruct t as [|i]; cbn [flow_turn].
  - destruct (f_out f) as [|o os] eqn:Ho.
    { split; [by apply Forall_app|done|]. exists d. rewrite Hd, app_nil_r. done. }
    destruct (f_groups f !! group_of o) as [[dn pd]|] eqn:Hi; [|done].
    destruct (_ =? _); [done|]. split; cbn [f_sent f_out f_groups]; [done|by rewrite length_insert|].
    exists (d ++ [o]). split; [by rewrite <- app_assoc|]. intros j dn' pd' Hj. rewrite filter_routed_snoc.
    apply list_lookup_insert_Some in Hj as [(<- & [= <- <-] & _)|(Hne & Hj)].
    + rewrite decide_True, (Hg _ _ _ Hi) by done. by rewrite <- app_assoc.
    + rewrite decide_False, app_nil_r by done. by apply Hg.
  - destruct (f_groups f !! i) as [[dn [|o pd]]|] eqn:Hi; [done| |done].
    split; cbn [f_sent f_out f_groups]; [done|by rewrite length_insert|]. exists d. split; [done|].
    intros j dn' pd' Hj. apply list_lookup_insert_Some in Hj as [(<- & [= <- <-] & _)|(Hne & Hj)]; [|by apply Hg].
    rewrite (Hg _ _ _ Hi). by rewrite <- app_assoc.
Qed.

(** * The refinement *)

(** [n] and [nq] are the effective sizes of the OMS queue and of the group
    queues, [A0] the groups with their empty books. *)
Context (n nq : Z) (A0 : nat → AGroup).

(** An abstract group that serves orders one after the other. *)
Definition aserve (A : AGroup) (os : list Order) : AGroup := foldl (λ A o, aprocess_order o A) A os.

Lemma aserve_nil A : aserve A [] = A.
Proof. done. Qed.

Lemma aserve_snoc A os o : aserve A (os ++ [o]) = aprocess_order o (aserve A os).
Proof. unfold aserve. by rewrite foldl_app. Qed.

(** What a group looks like after serving [dn]. *)
Record serves (dn : list Order) (A : AGroup) : Prop := {
  sv_books j : 0 <= j < MAX_SYMBOLS → is_Some (ag_books A !! j);
  sv_ids j sb o : ag_books A !! j = Some sb → o ∈ resting (sb_book sb) → o_order_id o ∈ (o_order_id <$> dn);
  sv_trades : Z.of_nat (length (ag_trades A)) <= Z.of_nat (length dn) * 2 ^ 31
}.

Record group_state (i : nat) (g : GroupProcessor) (dn pd : list Order) : Prop := {
  gs_rep : group_rep nq g (set_pending pd (aserve (A0 i) dn));
  gs_serves : serves dn (aserve (A0 i) dn)
}.

Lemma serves_batch dn pd A :
  serves dn A → Forall order_fit pd → NoDup (o_order_id <$> dn ++ pd) → batch_ok A pd.
Proof.
  intros [Hb Hi _] Hfit Hnd. rewrite fmap_app in Hnd. apply NoDup_app in Hnd as (_ & Hdisj & Hnd).
  rewrite Forall_forall in Hfit. split.
  - intros o Ho. destruct (Hfit o Ho). done.
  - intros o _. apply Hb, symbol_index_range.
  - done.
  - intros j sb x o Hj Hx Ho Heq. apply (Hdisj (o_order_id x)); [by eapply Hi|].
    rewrite Heq. by apply list_elem_of_fmap_2.
Qed.

Lemma serves_snoc g pd dn A o :
  group_rep nq g (set_pending pd A) → acceptable o A → serves dn A → serves (dn ++ [o]) (aprocess_order o A).
Proof.
  intros Hrep Hacc [Hb Hi Ht]. pose proof (aprocess_trades nq g (set_pending pd A) o Hrep Hacc) as Hlen.
  rewrite aprocess_pending in Hlen. cbn [set_pending ag_trades] in Hlen.
  destruct Hacc as (sb & Hsb & _). split.
  - intros j Hj. unfold aprocess_order. rewrite Hsb. destruct (aengine _ _ _ _ _). cbn [ag_books].
    rewrite lookup_insert. case_decide; [by eexists|by apply Hb].
  - intros j sb' x Hj Hx. unfold aprocess_order in Hj. rewrite Hsb in Hj.
    destruct (aengine _ _ _ o (sb_book sb)) as [fs a'] eqn:Ha. cbn [ag_books] in Hj.
    rewrite fmap_app, elem_of_app. rewrite lookup_insert in Hj. case_decide; [|left; by eapply Hi].
    apply (inj Some) in Hj. subst sb'. cbn [sb_book] in Hx.
    assert (x ∈ resting (aengine (sb_lo sb) (sb_hi sb) (sb_cap sb) o (sb_book sb)).2)
      as [Hid|(y & Hy & Hid)]%aengine_resting by by rewrite Ha.
    + right. rewrite Hid. apply list_elem_of_singleton. done.
    + left. rewrite Hid. by eapply Hi.
  - rewrite length_app. cbn [length]. lia.
Qed.

(** An iteration of a group thread. *)
Lemma group_thread_sim i g ltp dn pd :
  group_state i g dn pd → Forall order_fit pd → NoDup (o_order_id <$> dn ++ pd) →
  Z.of_nat (length (dn ++ pd)) * 2 ^ 31 + 2 < MOD →
  ∃ g' ltp', group_thread_step (g, ltp) = Some (g', ltp') ∧ length ltp' = length ltp ∧
    match pd with
    | [] => group_state i g' dn []
    | o :: rest => group_state i g' (dn ++ [o]) rest
    end.
Proof.
  intros [Hrep Hsv] Hfit Hnd Hroom. set (A := aserve (A0 i) dn) in *.
  pose proof (serves_batch dn pd A Hsv Hfit Hnd) as Hbo.
  assert (∀ o rest, pd = o :: rest → acceptable o A) as Hacc by (intros o rest ->; by eapply batch_head).
  destruct (group_step_ok nq g ltp _ Hrep) as (g' & ltp' & Hstep & Hg' & Hlen).
  { intros o rest Hp. cbn [set_pending ag_pending] in Hp. split; [by eapply Hacc|].
    intros sb Hsb. pose proof (fills_bound nq g _ o sb Hrep Hsb) as Hfb. unfold seq_room.
    cbn [ag_trades set_pending]. pose proof (sv_trades _ _ Hsv). rewrite Hp, length_app in Hroom. cbn [length] in Hroom. lia. }
  exists g', ltp'. split; [done|]. split; [done|]. unfold agroup_step in Hg'. cbn [ag_pending set_pending] in Hg'.
  destruct pd as [|o rest]; [by split|]. split; rewrite aserve_snoc; fold A.
  - rewrite <- aprocess_pending. exact Hg'.
  - eapply serves_snoc; [done|by eapply Hacc|done].
Qed.

(** Between two trades of the producer every slot has an even number. *)
Lemma ring_settled hist mem : ring_inv hist mem → settled mem.
Proof.
  intros [Hs He] i Hi. set (len := Z.of_nat (length hist)) in *.
  destruct (Z.le_gt_cases len i) as [Hle|Hgt]; [rewrite He by lia; done|].
  set (k := i + RING_SIZE * ((len - 1 - i) / RING_SIZE)).
  assert (0 < RING_SIZE) as HR by done.
  pose proof (Z.div_mod (len - 1 - i) RING_SIZE ltac:(lia)) as Hdm.
  pose proof (Z.mod_pos_bound (len - 1 - i) RING_SIZE HR) as Hmb.
  assert (0 <= (len - 1 - i) / RING_SIZE) by (apply Z.div_pos; lia).
  assert (0 <= k < len ∧ len <= k + RING_SIZE) as [Hk Hk'] by (unfold k; nia).
  destruct (lookup_lt_is_Some_2 hist (Z.to_nat k)) as [t Ht]; [lia|].
  specialize (Hs _ _ Ht). rewrite Z2Nat.id in Hs by lia. specialize (Hs Hk').
  replace (k mod RING_SIZE) with i in Hs.
  - rewrite Hs. cbn [seq_no]. replace (2 * (k + 1) + 2) with (2 * (k + 2)) by lia. by rewrite Z.odd_mul.
  - unfold k. rewrite Z.mul_comm, Z_mod_plus_full, Z.mod_small by lia. done.
Qed.

(** The system stands for the state [f] of the abstract machine. *)
Record sys_rep x (f : flow) : Prop := {
  sr_oms : oms_good n (sys_oms x);
  sr_flow : flow_ok f;
  sr_sent : f_sent f = sent (sys_oms x);
  sr_out : f_out f = sys_outbox x;
  sr_length : length (groups (sys_engine x)) = Z.to_nat GROUP_COUNT;
  sr_prices : length (last_price (sys_engine x)) = Z.to_nat MAX_SYMBOLS;
  sr_group i g : groups (sys_engine x) !! i = Some g →
    ∃ dn pd, f_groups f !! i = Some (dn, pd) ∧ group_state i g dn pd
}.

(** Room for the ids and the trades of all orders sent. *)
Definition small (boot : Z) x : Prop :=
  boot + Z.of_nat (length (sent (sys_oms x))) < 2 ^ 63 - 1 ∧
  Z.of_nat (length (sent (sys_oms x))) * 2 ^ 31 + 2 < MOD.

Lemma rep_settled x f : sys_rep x f → Forall settled (trade_mem <$> groups (sys_engine x)).
Proof.
  intros Hr. apply Forall_fmap, Forall_lookup_2. intros i g Hg. cbn.
  destruct (sr_group _ _ Hr i g Hg) as (dn & pd & _ & [Hrep _]).
  eapply ring_settled. apply (gr_trades _ _ _ Hrep).
Qed.

(** Where the orders of a group are, and what its books and trades are. *)
Lemma rep_groups x f i g :
  sys_rep x f → groups (sys_engine x) !! i = Some g → ∃ dn pd, f_groups f !! i = Some (dn, pd) ∧
    filter (routed i) (sent (sys_oms x)) = dn ++ pd ++ filter (routed i) (sys_outbox x) ∧
    group_rep nq g (set_pending pd (aserve (A0 i) dn)).
Proof.
  intros [Hg Hfo Hsent Ho Hl Hp Hgr] Hi. destruct (Hgr i g Hi) as (dn & pd & Hfg & [Hrep _]). exists dn, pd.
  split; [done|]. split; [|done]. destruct (fo_split _ Hfo) as (d & Hd & Hsplit).
  rewrite <- Hsent, Hd, filter_app, Ho, (Hsplit _ _ _ Hfg). by rewrite app_assoc.
Qed.

Context (Hclock : ∀ k, is_u64 (clock k)) (Hjunk : is_u64 junk_price).

(** A piece of the OMS loop. *)
Lemma oms_piece_sim x f :
  sys_rep x f → sys_outbox x = [] →
  ∃ x' new, oms_turn x = Some x' ∧ Forall order_fit new ∧ sys_rep x' (flow_turn nq OmsThread new f).
Proof.
  intros Hr Hout. pose proof Hr as [Hg Hf Hs Ho Hl Hp Hgr]. unfold oms_turn. rewrite Hout.
  destruct (oms_micro_good clock junk_price Hclock Hjunk n (trade_mem <$> groups (sys_engine x))
    (last_price (sys_engine x)) (sys_pc x) (sys_oms x)) as (pc' & m & Hrun & Hg');
    [done|by rewrite length_fmap|by eapply rep_settled|done|].
  rewrite Hrun. cbn [mbind option_bind].
  destruct (ids_sent _ _ (oms_micro_ids _ _ _ _ _ _ _ _ Hrun)) as [new Hnew].
  assert (Forall order_fit new) as Hfit.
  { pose proof (og_sent _ _ Hg') as H. rewrite Hnew in H. by apply Forall_app in H as [_ H]. }
  eexists _, new. split; [done|]. split; [done|]. rewrite Hnew, drop_app_length.
  split; try done; [by apply flow_turn_ok|..]; cbn [flow_turn sys_oms sys_outbox sys_engine];
    rewrite Ho, Hout; cbn [f_sent f_out f_groups].
  - by rewrite Hs.
  - done.
  - done.
Qed.

(** An attempt of [dispatch_order]. *)
Lemma dispatch_sim x f o os :
  sys_rep x f → sys_outbox x = o :: os →
  ∃ x', oms_turn x = Some x' ∧ sys_oms x' = sys_oms x ∧ sys_rep x' (flow_turn nq OmsThread [] f).
Proof.
  intros Hr Hout. pose proof Hr as [Hg Hf Hs Ho Hl Hp Hgr].
  assert (order_fit o) as Hfo.
  { destruct (fo_split _ Hf) as (d & Hd & _). rewrite Ho, Hout in Hd. pose proof (fo_fit _ Hf) as H. rewrite Hd in H.
    apply Forall_app in H as [_ H]. by apply Forall_cons in H as [? _]. }
  pose proof (flow_turn_ok nq OmsThread [] f Hf ltac:(constructor)) as Hf'.
  unfold oms_turn. rewrite Hout. unfold try_dispatch.
  destruct (route_symbol (sys_engine x) o Hl (of_symbol _ Hfo)) as [Hroute _]. rewrite Hroute. fold (group_of o).
  destruct (lookup_lt_is_Some_2 (groups (sys_engine x)) (group_of o)) as [g Hgo];
    [rewrite Hl; by apply group_of_lt|].
  destruct (Hgr _ _ Hgo) as (dn & pd & Hfg & [Hrep Hsv]). rewrite Hgo. cbn [mbind option_bind].
  unfold enqueue_order. pose proof (push_ok _ _ _ o (gr_queue _ _ _ Hrep)) as Hpush.
  cbn [flow_turn] in *. rewrite Ho, Hout, Hfg in *. cbn [set_pending ag_pending] in Hpush.
  destruct (Z.of_nat (length pd) =? nq - 1); [|destruct Hpush as (q & Hpush & Hq)]; rewrite Hpush; cbn [mbind option_bind].
  - assert (set_groups (<[group_of o := set_group_queue (group_queue g) g]> (groups (sys_engine x))) (sys_engine x)
            = sys_engine x) as ->.
    { replace (set_group_queue (group_queue g) g) with g by by destruct g.
      rewrite list_insert_id by done. by destruct (sys_engine x). }
    eexists. split; [done|]. split; [done|]. by split.
  - eexists. split; [done|]. split; [done|]. split; try done; cbn [sys_engine set_groups groups f_groups].
    + by rewrite length_insert.
    + intros i g' Hi. apply list_lookup_insert_Some in Hi as [(<- & <- & _)|(Hne & Hi)].
      * eexists _, _. split; [by rewrite list_lookup_insert_eq by (by eapply lookup_lt_Some)|]. split; [|done].
        destruct Hrep as [Hb [Ht1 Ht2] Hid Hidr _ Hal]. by split.
      * rewrite list_lookup_insert_ne by done. by apply Hgr.
Qed.

(** An iteration of a group thread. *)
Lemma group_turn_sim i x f :
  sys_rep x f → NoDup (o_order_id <$> sent (sys_oms x)) → Z.of_nat (length (sent (sys_oms x))) * 2 ^ 31 + 2 < MOD →
  (i < Z.to_nat GROUP_COUNT)%nat →
  ∃ x', group_turn i x = Some x' ∧ sys_oms x' = sys_oms x ∧ sys_rep x' (flow_turn nq (GroupThread i) [] f).
Proof.
  intros Hr Hnd Hroom Hi. pose proof Hr as [Hg Hf Hs Ho Hl Hp Hgr].
  destruct (lookup_lt_is_Some_2 (groups (sys_engine x)) i) as [g Hgi]; [by rewrite Hl|].
  destruct (Hgr _ _ Hgi) as (dn & pd & Hfg & Hst). destruct (fo_split _ Hf) as (d & Hd & Hsplit).
  assert (dn ++ pd `sublist_of` sent (sys_oms x)) as Hsub.
  { rewrite <- (Hsplit _ _ _ Hfg), <- Hs, Hd. etrans; [apply sublist_filter|]. by apply sublist_inserts_r. }
  assert (Forall order_fit pd) as Hfit.
  { pose proof (fo_fit _ Hf) as H. rewrite Hs, Forall_forall in H. apply Forall_forall. intros o Hpd. apply H.
    eapply elem_of_submseteq; [|by apply sublist_submseteq]. apply elem_of_app. by right. }
  destruct (group_thread_sim i g (last_price (sys_engine x)) dn pd Hst Hfit) as (g' & ltp' & Hrun & Hlen & Hst').
  { eapply sublist_NoDup; [exact Hnd|]. by apply fmap_sublist. }
  { apply sublist_length in Hsub. lia. }
  pose proof (flow_turn_ok nq (GroupThread i) [] f Hf ltac:(constructor)) as Hf'.
  unfold group_turn, run_group. rewrite Hgi. cbn [mbind option_bind]. rewrite Hrun. cbn [mbind option_bind].
  eexists. split; [done|]. split; [done|]. cbn [flow_turn] in *. rewrite Hfg in *.
  apply lookup_lt_Some in Hfg as Hlt. apply lookup_lt_Some in Hgi as Hlt'.
  destruct pd as [|o rest]; (split; try done); cbn [sys_engine groups last_price f_groups];
    try (by rewrite length_insert); try lia;
    intros j gj Hj; (apply list_lookup_insert_Some in Hj as [(<- & <- & _)|(Hne & Hj)]).
  - by eexists _, _.
  - by apply Hgr.
  - eexists _, _. by rewrite list_lookup_insert_eq by done.
  - rewrite list_lookup_insert_ne by done. by apply Hgr.
Qed.

(** Every turn of every thread is defined, and is a turn of the abstract machine. *)
Lemma turn_sim boot t x f :
  sys_rep x f → ids_inv boot (sys_oms x) → small boot x → thread_ok t →
  ∃ x' new, turn t x = Some x' ∧ Forall order_fit new ∧ sys_rep x' (flow_turn nq t new f).
Proof.
  intros Hr Hids [Hs1 Hs2] Ht. destruct (Hids Hs1) as (a & b & Hit). destruct t as [|i]; cbn [turn].
  - destruct (sys_outbox x) as [|o os] eqn:Hout; [by apply oms_piece_sim|].
    destruct (dispatch_sim x f o os Hr Hout) as (x' & H1 & _ & H2). eexists _, []. split; [done|]. split; [constructor|done].
  - destruct (group_turn_sim i x f Hr (it_nodup _ _ _ _ Hit) Hs2 Ht) as (x' & H1 & _ & H2).
    eexists _, []. split; [done|]. split; [constructor|done].
Qed.

(** ** Runs *)

(** What a step does to the OMS, as far as ids are concerned. *)
Lemma turn_ids t x x' : turn t x = Some x' → rtc id_step (sys_oms x) (sys_oms x').
Proof.
  destruct t as [|i]; cbn [turn].
  - unfold oms_turn. destruct (sys_outbox x) as [|o os].
    + intros ([pc m] & H & [= <-])%bind_Some. by eapply oms_micro_ids.
    + intros ([ok d] & H & [= <-])%bind_Some. done.
  - unfold group_turn. intros (d & H & [= <-])%bind_Some. done.
Qed.

Lemma sys_step_ids x x' : sys_step x x' → rtc id_step (sys_oms x) (sys_oms x').
Proof.
  intros [c ok m Hc H|t x1 _ H]; [|by eapply turn_ids]. unfold enqueueClientOrder in H.
  apply bind_Some in H as ([b q] & _ & [= <- <-]). by apply rtc_once, id_same.
Qed.

Lemma small_mono boot x x' : rtc id_step (sys_oms x) (sys_oms x') → small boot x' → small boot x.
Proof. intros H%ids_sent%prefix_length [H1 H2]. split; lia. Qed.

Lemma sys_run_rep boot x0 x :
  0 <= boot → ids_inv boot (sys_oms x0) → sys_rep x0 flow_new → rtc sys_step x0 x →
  ids_inv boot (sys_oms x) ∧ (small boot x → ∃ f, rtc (flow_step nq) flow_new f ∧ sys_rep x f).
Proof.
  intros Hb Hi0 Hr0. revert x. apply rtc_ind_r; [split; [done|]; intros _; by exists flow_new|].
  intros x x' _ Hst [IHi IH].
  pose proof (sys_step_ids _ _ Hst) as Hids. split; [by eapply id_steps_inv|]. intros Hsm.
  pose proof (small_mono _ _ _ Hids Hsm) as Hsm0. destruct (IH Hsm0) as (f & Hf & Hr).
  destruct Hst as [c ok m Hc Henq|t x' Ht Hturn].
  - exists f. split; [done|]. destruct Hr as [Hg Hfo Hs Ho Hl Hp Hgr].
    destruct (enqueue_good n c _ Hg Hc) as (ok' & m' & Henq' & Hg' & Hsent).
    rewrite Henq in Henq'. injection Henq' as <- <-. split; try done. cbn [sys_oms]. by rewrite Hsent.
  - destruct (turn_sim boot t x f Hr IHi Hsm0 Ht) as (x'' & new & Hturn' & _ & Hr').
    rewrite Hturn in Hturn'. apply (inj Some) in Hturn'. subst x''. exists (flow_turn nq t new f).
    split; [|done]. eapply rtc_r; [done|]. by exists t, new.
Qed.

(** * Progress

    The thread that helps next keeps being the one that helps while the other
    threads take their turns, so a schedule that comes back to every thread
    processes every order. *)

Inductive flow_run : list thread → flow → flow → Prop :=
| run_nil f : flow_run [] f f
| run_cons t ts new f f' : Forall order_fit new → flow_run ts (flow_turn nq t new f) f' → flow_run (t :: ts) f f'.

Section progress.
Context (N : nat) (Hnq : 2 <= nq).

(** The orders among the first [N] that group [i] has not processed. *)
Definition old (f : flow) (i : nat) : nat := length (filter (routed i) (take N (f_sent f))).
Definition served (f : flow) (i : nat) : nat := length (default ([], []) (f_groups f !! i)).1.
Definition owed (f : flow) (i : nat) : nat := old f i - served f i.

(** And those that have not been dispatched. *)
Definition undispatched (f : flow) : nat := N - (length (f_sent f) - length (f_out f)).
Definition work (f : flow) : nat := undispatched f + owed f 0 + owed f 1.

(** A turn of [t] would take one of these orders further. *)
Definition helpful (t : thread) (f : flow) : Prop :=
  match t with
  | OmsThread => (0 < undispatched f)%nat ∧ ∃ o os dn pd, f_out f = o :: os ∧
      f_groups f !! group_of o = Some (dn, pd) ∧ Z.of_nat (length pd) < nq - 1
  | GroupThread i => (0 < owed f i)%nat ∧ ∃ dn o pd, f_groups f !! i = Some (dn, o :: pd)
  end.

Lemma old_app f l g : (N ≤ length (f_sent f))%nat → old (mkFlow (f_sent f ++ l) l g) = old f.
Proof. intros HN. unfold old. cbn [f_sent]. by rewrite take_app_le by done. Qed.

Lemma served_insert f s o i j dn pd :
  (i < length (f_groups f))%nat →
  served (mkFlow s o (<[i := (dn, pd)]> (f_groups f))) j = if decide (i = j) then length dn else served f j.
Proof.
  intros Hi. unfold served. cbn [f_groups]. case_decide as Hij.
  - subst j. by rewrite list_lookup_insert_eq.
  - by rewrite list_lookup_insert_ne.
Qed.

Lemma someone_helps f :
  flow_ok f → (N ≤ length (f_sent f))%nat → (0 < work f)%nat → ∃ t, thread_ok t ∧ helpful t f.
Proof.
  intros [Hfit Hlen (d & Hd & Hg)] HN Hw. assert (length (f_sent f) = length d + length (f_out f))%nat as Hl
    by (by rewrite Hd, length_app).
  destruct (decide (0 < undispatched f)%nat) as [Hu|Hu].
  - destruct (f_out f) as [|o os] eqn:Ho; [unfold undispatched in Hu; rewrite Ho in Hu; cbn [length] in *; lia|].
    assert (order_fit o) as Hfo.
    { rewrite Hd in Hfit. apply Forall_app in Hfit as [_ Hfit]. by apply Forall_cons in Hfit as [? _]. }
    pose proof (group_of_lt o Hfo) as Hlt.
    destruct (lookup_lt_is_Some_2 (f_groups f) (group_of o)) as [[dn pd] Hi]; [by rewrite Hlen|].
    destruct (decide (Z.of_nat (length pd) < nq - 1)) as [Hroom|Hfull].
    { exists OmsThread. split; [done|]. split; [done|]. by exists o, os, dn, pd. }
    exists (GroupThread (group_of o)). split; [done|].
    destruct pd as [|o' pd]; [cbn [length] in Hfull; lia|]. split; [|by exists dn, o', pd].
    unfold owed, old, served. rewrite Hi. cbn [from_option id fst].
    assert (dn ++ o' :: pd `prefix_of` filter (routed (group_of o)) (take N (f_sent f))) as Hpre%prefix_length.
    { rewrite <- (Hg _ _ _ Hi), Hd. unfold undispatched in Hu. rewrite take_app_ge, filter_app by (rewrite Ho in Hu; lia).
      by apply prefix_app_r. }
    rewrite length_app in Hpre. cbn [length] in Hpre. lia.
  - assert (∃ i, (i < Z.to_nat GROUP_COUNT)%nat ∧ (0 < owed f i)%nat) as (i & Hi & How).
    { unfold work in Hw. destruct (decide (0 < owed f 0)%nat); [exists 0%nat|exists 1%nat];
        (split; [unfold GROUP_COUNT; lia|lia]). }
    exists (GroupThread i). split; [done|]. split; [done|].
    destruct (lookup_lt_is_Some_2 (f_groups f) i) as [[dn pd] Hgi]; [by rewrite Hlen|].
    destruct pd as [|o pd]; [|by exists dn, o, pd]. exfalso.
    unfold owed, old, served in How. rewrite Hgi in How. cbn [from_option id fst] in How.
    pose proof (Hg _ _ _ Hgi) as Hdn. rewrite app_nil_r in Hdn. unfold undispatched in Hu.
    rewrite Hd, take_app_le in How by lia.
    assert (length (filter (routed i) (take N d)) ≤ length (filter (routed i) d))%nat.
    { rewrite <- (take_drop N d) at 2. rewrite filter_app, length_app. lia. }
    rewrite Hdn in *. lia.
Qed.

(** What a turn does to the work, and whether it helps. *)
Lemma turn_work t new f :
  flow_ok f → (N ≤ length (f_sent f))%nat →
  (work (flow_turn nq t new f) ≤ work f)%nat ∧ (helpful t f → (work (flow_turn nq t new f) < work f)%nat) ∧
  (N ≤ length (f_sent (flow_turn nq t new f)))%nat.
Proof.
  intros [Hfit Hlen (d & Hd & Hg)] HN. destruct t as [|i]; cbn [flow_turn helpful].
  - destruct (f_out f) as [|o os] eqn:Ho.
    { split; [|split; [intros (_ & o & os & _ & _ & H & _); done|cbn [f_sent]; rewrite length_app; lia]].
      unfold work, owed. rewrite old_app by done. unfold served, undispatched. cbn [f_sent f_out f_groups].
      rewrite Ho, length_app. cbn [length]. lia. }
    destruct (f_groups f !! group_of o) as [[dn pd]|] eqn:Hi.
    2: { split; [done|]. split; [|done]. intros (_ & o' & os' & dn & pd & [= <- <-] & Hi' & _). congruence. }
    destruct (Z.eqb_spec (Z.of_nat (length pd)) (nq - 1)) as [Hfull|Hroom].
    { split; [done|]. split; [|done]. intros (_ & o' & os' & dn' & pd' & [= <- <-] & Hi' & Hlt).
      rewrite Hi in Hi'. injection Hi' as <- <-. lia. }
    set (f' := mkFlow _ _ _). assert (∀ j, owed f' j = owed f j) as How.
    { intros j. unfold owed, f'. rewrite served_insert by (by eapply lookup_lt_Some).
      unfold old. cbn [f_sent]. case_decide; [|done]. subst j. unfold served. by rewrite Hi. }
    unfold work. rewrite !How. unfold undispatched, f'. cbn [f_sent f_out]. rewrite Ho. cbn [length].
    rewrite Hd, length_app in HN |- *. cbn [length] in *. split; [lia|]. split; [|lia]. intros [H _]. lia.
  - destruct (f_groups f !! i) as [[dn [|o pd]]|] eqn:Hi.
    1,3: split; [done|]; split; [|done]; intros (_ & dn' & o' & pd' & Hi'); congruence.
    apply lookup_lt_Some in Hi as Hlt. rewrite Hlen in Hlt. unfold GROUP_COUNT in Hlt.
    unfold work, undispatched, owed, old. cbn [f_sent f_out]. rewrite !served_insert by (by eapply lookup_lt_Some).
    assert (served f i = length dn) as Hs by (unfold served; by rewrite Hi).
    rewrite length_app. cbn [length].
    destruct i as [|[|i]]; [..|lia]; repeat case_decide; try lia; rewrite <- Hs;
      (split; [lia|]; split; [intros [H _]; lia|done]).
Qed.

(** A turn of another thread does not take the help away. *)
Lemma helpful_stays t t' new f :
  flow_ok f → (N ≤ length (f_sent f))%nat → t' ≠ t → helpful t f → helpful t (flow_turn nq t' new f).
Proof.
  intros [Hfit Hlen (d & Hd & Hg)] HN Hne Hh. destruct t' as [|i]; cbn [flow_turn].
  - destruct t as [|i]; [done|]. destruct Hh as (How & dn & o & pd & Hi).
    destruct (f_out f) as [|o' os] eqn:Ho.
    { split; [|by exists dn, o, pd]. unfold owed. rewrite old_app by done. done. }
    destruct (f_groups f !! group_of o') as [[dn' pd']|] eqn:Hi'; [|by split; [|exists dn, o, pd]].
    destruct (_ =? _); [by split; [|exists dn, o, pd]|]. apply lookup_lt_Some in Hi' as Hlt. split.
    + unfold owed, old in *. rewrite served_insert by done. case_decide; [|done]. subst i.
      unfold served in How. by rewrite Hi' in How.
    + cbn [f_groups]. rewrite list_lookup_insert. case_decide as Hx; [|by exists dn, o, pd].
      destruct Hx as [<- _]. rewrite Hi in Hi'. injection Hi' as <- <-. by eexists _, _, _.
  - destruct (f_groups f !! i) as [[dn [|o pd]]|] eqn:Hi; [done| |done]. apply lookup_lt_Some in Hi as Hlt.
    destruct t as [|j].
    + destruct Hh as (Hu & o' & os & dn' & pd' & Ho & Hi' & Hroom). split; [done|]. cbn [f_out f_groups].
      destruct (decide (i = group_of o')) as [->|Hio].
      * rewrite Hi in Hi'. injection Hi' as <- <-. eexists _, _, _, _. rewrite list_lookup_insert_eq by done.
        split; [done|]. split; [done|]. cbn [length] in Hroom. lia.
      * eexists _, _, _, _. by rewrite list_lookup_insert_ne by done.
    + destruct Hh as (How & dn' & o' & pd' & Hj). assert (i ≠ j) by congruence. split.
      * unfold owed, old in *. rewrite served_insert by done. by rewrite decide_False.
      * cbn [f_groups]. rewrite list_lookup_insert_ne by done. by exists dn', o', pd'.
Qed.

(** A block of turns in which every thread appears. *)
Definition fair_block (b : list thread) : Prop := ∀ t, thread_ok t → t ∈ b.

Lemma run_work b f f' :
  flow_run b f f' → flow_ok f → (N ≤ length (f_sent f))%nat →
  flow_ok f' ∧ (N ≤ length (f_sent f'))%nat ∧ (work f' ≤ work f)%nat ∧
  ∀ t, helpful t f → t ∈ b → (work f' < work f)%nat.
Proof.
  induction 1 as [f|t ts new f f' Hnew Hrun IH]; intros Hf HN.
  { split_and!; try done. intros t _ Ht. by apply elem_of_nil in Ht. }
  destruct (turn_work t new f Hf HN) as (Hle & Hlt & HN').
  destruct IH as (Hf' & HN'' & Hle' & Hh'); [by apply flow_turn_ok|done|]. split_and!; [done|done|lia|].
  intros u Hu Hin. destruct (decide (u = t)) as [->|Hne]; [specialize (Hlt Hu); lia|].
  apply elem_of_cons in Hin as [?|Hin]; [done|].
  specialize (Hh' u (helpful_stays u t new f Hf HN ltac:(done) Hu) Hin). lia.
Qed.

Lemma flow_run_app a b f f' : flow_run (a ++ b) f f' → ∃ f1, flow_run a f f1 ∧ flow_run b f1 f'.
Proof.
  revert f. induction a as [|t a IH]; intros f H; [exists f; split; [constructor|done]|].
  cbn [app] in H. inversion H as [|t' ts new f1 f2 Hnew Hr]; subst. destruct (IH _ Hr) as (f3 & H1 & H2).
  exists f3. split; [by econstructor|done].
Qed.

Lemma flow_run_sent ts f f' : flow_run ts f f' → f_sent f `prefix_of` f_sent f'.
Proof.
  induction 1 as [f|t ts new f f' _ _ IH]; [done|]. etrans; [|exact IH]. destruct t as [|i]; cbn [flow_turn].
  - destruct (f_out f) as [|o os]; [by eexists|]. destruct (f_groups f !! group_of o) as [[dn pd]|]; [|done].
    by destruct (_ =? _).
  - by destruct (f_groups f !! i) as [[dn [|o pd]]|].
Qed.

Lemma work_bound f : (work f ≤ 3 * N)%nat.
Proof.
  unfold work, undispatched, owed, old. pose proof (λ i, length_filter (routed i) (take N (f_sent f))) as H.
  pose proof (H 0%nat). pose proof (H 1%nat). pose proof (length_take_le (f_sent f) N). rewrite length_take in *. lia.
Qed.

Lemma blocks_work blocks : ∀ f f',
  Forall fair_block blocks → flow_run (concat blocks) f f' → flow_ok f → (N ≤ length (f_sent f))%nat →
  flow_ok f' ∧ (N ≤ length (f_sent f'))%nat ∧ (work f' ≤ work f - length blocks)%nat.
Proof.
  induction blocks as [|b blocks IH]; intros f f' Hfair Hrun Hf HN; cbn [concat] in Hrun.
  { inversion Hrun; subst. split_and!; [done|done|cbn [length]; lia]. }
  apply Forall_cons in Hfair as [Hb Hfair]. apply flow_run_app in Hrun as (f1 & H1 & H2).
  destruct (run_work b f f1 H1 Hf HN) as (Hf1 & HN1 & Hle & Hlt).
  destruct (IH f1 f' Hfair H2 Hf1 HN1) as (Hf' & HN' & Hw). split_and!; [done|done|]. cbn [length].
  destruct (decide (0 < work f)%nat) as [Hpos|Hz]; [|lia].
  destruct (someone_helps f Hf HN Hpos) as (t & Ht & Hh). specialize (Hlt t Hh (Hb t Ht)). lia.
Qed.

(** No work left: the groups have processed the first [N] orders. *)
Lemma no_work f i dn pd :
  flow_ok f → (N ≤ length (f_sent f))%nat → work f = 0%nat → f_groups f !! i = Some (dn, pd) →
  filter (routed i) (take N (f_sent f)) `prefix_of` dn.
Proof.
  intros [Hfit Hlen (d & Hd & Hg)] HN Hw Hi. apply lookup_lt_Some in Hi as Hlt. rewrite Hlen in Hlt.
  unfold GROUP_COUNT in Hlt. assert (owed f i = 0%nat) as How.
  { unfold work in Hw. destruct i as [|[|i]]; lia. }
  unfold owed, old, served in How. rewrite Hi in How. cbn [from_option id fst] in How.
  assert (filter (routed i) (take N (f_sent f)) `prefix_of` dn ++ pd) as Hpre.
  { rewrite <- (Hg _ _ _ Hi). unfold work, undispatched in Hw. rewrite Hd, length_app in Hw.
    rewrite Hd, take_app_le by lia. rewrite <- (take_drop N d) at 2. rewrite filter_app. by apply prefix_app_r. }
  destruct (prefix_weak_total _ dn _ Hpre ltac:(by apply prefix_app_r)) as [H|H]; [done|].
  apply prefix_length_eq in H; [by rewrite H|lia].
Qed.
End progress.

#[export] Instance small_dec boot x : Decision (small boot x).
Proof. unfold small. apply _. Defined.

(** A schedule runs to its end, or until the ids or the trade numbers are
    used up. *)
Lemma run_sched boot ts : ∀ x f,
  0 <= boot → sys_rep x f → ids_inv boot (sys_oms x) → Forall thread_ok ts →
  ∃ pre post x' f', ts = pre ++ post ∧ run_turns pre x = Some x' ∧ flow_run pre f f' ∧ sys_rep x' f' ∧
    (¬ small boot x' ∨ post = []).
Proof.
  induction ts as [|t ts IH]; intros x f Hb Hr Hi Hts.
  { exists [], [], x, f. split_and!; try done; [constructor|by right]. }
  destruct (decide (small boot x)) as [Hs|Hs].
  2: { exists [], (t :: ts), x, f. split_and!; try done; [constructor|by left]. }
  apply Forall_cons in Hts as [Ht Hts]. destruct (turn_sim boot t x f Hr Hi Hs Ht) as (x1 & new & Hrun & Hnew & Hr1).
  destruct (IH x1 _ Hb Hr1) as (pre & post & x' & f' & -> & Hrun' & Hfl & Hr' & Hend); [|done|].
  { eapply id_steps_inv; [done|by eapply turn_ids|done]. }
  exists (t :: pre), post, x', f'. split_and!; try done; [|by econstructor].
  cbn [run_turns]. rewrite Hrun. done.
Qed.
End system.

(** * Set-up *)

Section boot.
Context (engine_capacity oms_capacity boot : Z) (pools : Z → Z → list OrderNode) (totals : Z → Z → Z * Z) (lower upper : list Z).
Context (cap : nat) (symbols : list (list Z * Z)).

(** Group [i] with an empty book for each of its symbols. *)
Definition empty_book (i : nat) (j : Z) : symbol_book :=
  let limit l := default 0 (l !! Z.to_nat (Z.of_nat i * MAX_SYMBOLS + j)) in
  mkSymbolBook (limit lower) (limit upper) cap (mkABook [] []).
Definition agroup_new (i : nat) : AGroup :=
  mkAGroup (list_to_map ((λ j, (j, empty_book i j)) <$> seqZ 0 MAX_SYMBOLS)) [] 1 [].

(** [pools] are the blocks for the orders of each book, [totals] what the
    memory of its two totals holds. *)
Definition boot_system : option System :=
  System_new engine_capacity oms_capacity boot (λ i j, Some (pools i j)) totals lower upper symbols.

(** What the start relies on: [malloc] returns blocks of the requested size,
    the totals that the constructor of a book leaves uninitialised happen to
    be zero, each symbol has a band of prices, and the ids of the symbol file
    are below 2048. *)
Record boot_ok (n nq : Z) : Prop := {
  bk_engine : effective engine_capacity nq;
  bk_oms : effective oms_capacity n;
  bk_boot : is_u64 boot;
  bk_cap : (0 < cap)%nat ∧ Z.of_nat cap <= 2 ^ 31;
  bk_pools i j : length (pools i j) = cap;
  bk_totals i j : totals i j = (0, 0);
  bk_limits sym : 0 <= sym < TOTAL_SYMBOLS → ∃ lo hi,
    lower !! Z.to_nat sym = Some lo ∧ upper !! Z.to_nat sym = Some hi ∧ band_ok lo hi;
  bk_symbols : Forall (λ p, 0 <= p.2 < TOTAL_SYMBOLS) symbols
}.

Lemma agroup_new_books i j : ag_books (agroup_new i) !! j = Some (empty_book i j) ↔ 0 <= j < MAX_SYMBOLS.
Proof.
  cbn [agroup_new ag_books]. split.
  - intros H%elem_of_list_to_map_2. apply list_elem_of_fmap in H as (k & [= -> _] & Hk). apply elem_of_seqZ in Hk. lia.
  - intros Hj. apply elem_of_list_to_map_1.
    + rewrite <- list_fmap_compose. cbn. rewrite list_fmap_id. apply NoDup_seqZ.
    + apply list_elem_of_fmap. exists j. split; [done|]. apply elem_of_seqZ. lia.
Qed.

Lemma agroup_new_book i j sb : ag_books (agroup_new i) !! j = Some sb → sb = empty_book i j ∧ 0 <= j < MAX_SYMBOLS.
Proof.
  intros H. assert (0 <= j < MAX_SYMBOLS) as Hj.
  { cbn [agroup_new ag_books] in H. apply elem_of_list_to_map_2, list_elem_of_fmap in H as (k & [= -> _] & Hk).
    apply elem_of_seqZ in Hk. lia. }
  split; [|done]. pose proof (proj2 (agroup_new_books i j) Hj) as H'. rewrite H in H'. by injection H'.
Qed.

Lemma group_new_state n nq i m :
  boot_ok n nq → (i < Z.to_nat GROUP_COUNT)%nat →
  (∀ j, 0 <= j < MAX_SYMBOLS → book_ready lower upper cap (Z.of_nat i * MAX_SYMBOLS) m j) →
  group_state nq agroup_new i
    (mark_running (set_bookmanager m (setup_book_manager (GroupProcessor_new (Z.of_nat i) engine_capacity ∅)))) [] [].
Proof.
  intros Hbk Hi Hready. split; rewrite aserve_nil; [|split].
  - split.
    + exists m. split; [done|]. intros j sb Hsb. destruct (agroup_new_book i j sb Hsb) as [-> Hj].
      split; [lia|]. destruct (Hready j Hj) as (lo & hi & b & Hlo & Hhi & Hb & Hrep). exists b. split; [done|].
      unfold empty_book. rewrite Hlo, Hhi. exact Hrep.
    + destruct ring_inv_new as [H1 H2]. split; [exact H1|exact H2].
    + done.
    + apply (u64_range 1).
    + apply (RingBuffer_new_rep Order_default). apply Hbk.
    + done.
  - intros j Hj. exists (empty_book i j). apply agroup_new_books. exact Hj.
  - intros j sb o Hsb Ho. apply agroup_new_book in Hsb as [-> _].
    change (o ∈ @nil Order) in Ho. destruct (proj1 (elem_of_nil o) Ho).
  - done.
Qed.

Lemma for_groups_length f gs : ∀ i gs', for_groups f i gs = Some gs' → length gs' = length gs.
Proof.
  induction gs as [|g gs IH]; intros i gs'; cbn [for_groups]; [by intros [= <-]|].
  intros (g' & _ & H)%bind_Some. apply bind_Some in H as (gs1 & H%IH & [= <-]). cbn [length]. by rewrite H.
Qed.

Lemma boot_rep n nq x0 :
  boot_ok n nq → boot_system = Some x0 → sys_rep n nq agroup_new x0 flow_new ∧ ids_inv boot (sys_oms x0).
Proof.
  intros Hbk. unfold boot_system, System_new. intros (d & Hd & H)%bind_Some.
  apply bind_Some in H as (m & Hm & H). apply (inj Some) in H. subst x0.
  destruct (OMS_new_good oms_capacity n boot symbols m) as [Hg Hsent]; [apply Hbk..|done|].
  unfold initialize_engine in Hd. apply bind_Some in Hd as (gs & Hgs & Hd). apply (inj Some) in Hd. subst d.
  set (gs0 := groups (MatchingEngineDispatcher_new engine_capacity [])) in *.
  set (f := init_group (λ i j, Some (pools i j)) totals lower upper) in *.
  assert (∀ i g, 0 <= i < GROUP_COUNT → ∃ m, f i g = Some (set_bookmanager m (setup_book_manager g)) ∧
    ∀ j, 0 <= j < MAX_SYMBOLS → book_ready lower upper cap (i * MAX_SYMBOLS) m j) as Hf.
  { intros i g. apply (init_group_ready lower upper cap); apply Hbk. }
  assert (length gs0 = Z.to_nat GROUP_COUNT) as Hl0 by done.
  destruct (for_groups_lookup cap (bk_cap _ _ Hbk) f 0 gs0) as (gs' & Hgs' & Hall).
  { intros k g Hk%lookup_lt_Some. destruct (Hf (0 + Z.of_nat k) g) as (m' & Hm' & _); [lia|by eexists]. }
  rewrite Hgs in Hgs'. apply (inj Some) in Hgs'. subst gs'. split.
  - split; cbn [sys_oms sys_outbox sys_engine start groups last_price flow_new f_sent f_out f_groups set_groups].
    + done.
    + apply flow_new_ok.
    + by rewrite Hsent.
    + done.
    + rewrite length_fmap. by rewrite (for_groups_length _ _ _ _ Hgs).
    + apply length_replicate.
    + intros i g Hi. apply list_lookup_fmap_Some in Hi as (g1 & -> & Hi). apply lookup_lt_Some in Hi as Hlt.
      rewrite (for_groups_length _ _ _ _ Hgs), Hl0 in Hlt. exists [], [].
      split; [apply lookup_replicate; split; [done|exact Hlt]|].
      destruct (lookup_lt_is_Some_2 gs0 i) as [g0 Hg0]; [by rewrite Hl0|].
      destruct (Hall i g0 Hg0) as (g' & Hg' & Hfg). rewrite Hi in Hg'. apply (inj Some) in Hg'. subst g'.
      destruct (Hf (0 + Z.of_nat i) g0) as (m' & Hm' & Hready); [lia|]. rewrite Hfg in Hm'. apply (inj Some) in Hm'. subst g1.
      assert (g0 = GroupProcessor_new (Z.of_nat i) engine_capacity ∅) as ->.
      { unfold gs0 in Hg0. cbn [groups MatchingEngineDispatcher_new] in Hg0.
        apply list_lookup_fmap_Some in Hg0 as (k & -> & Hk). apply lookup_seq in Hk as [-> _]. done. }
      by apply (group_new_state n).
  - intros _. unfold OMS_new in Hm. apply bind_Some in Hm as (tbl & _ & Hm). apply (inj Some) in Hm. subst m.
    exists 0%nat, 0%nat. split; cbn [sys_oms]; oms_cbn; [done|lia|done|constructor|]. intros o Ho. destruct (proj1 (elem_of_nil o) Ho).
Qed.

(** ** What every reachable state satisfies *)

Context (clock : nat → Z) (junk_price : Z) (Hclock : ∀ k, is_u64 (clock k)) (Hjunk : is_u64 junk_price).
Context (n nq : Z) (Hbk : boot_ok n nq).

Lemma reachable_rep x0 x :
  boot_system = Some x0 → rtc (sys_step clock junk_price) x0 x → small boot x →
  ids_inv boot (sys_oms x) ∧ ∃ f, rtc (flow_step nq) flow_new f ∧ sys_rep n nq agroup_new x f.
Proof.
  intros H0 Hrun Hs. destruct (boot_rep n nq x0 Hbk H0) as [Hr0 Hi0].
  destruct (sys_run_rep clock junk_price n nq agroup_new Hclock Hjunk boot x0 x) as [Hi Hf]; [apply Hbk|done..|].
  split; [done|by apply Hf].
Qed.

(** C11: The exchange implements its abstract machine, in every interleaving of
    clients whose orders are [client_fit], the OMS thread and the group
    threads, as long as the ids and the trade numbers are not used up
    ([small]): the orders the OMS has
    sent are, in this order and for each group, those it has processed, those
    in its queue, and those still to be dispatched; none is lost, doubled or
    overtaken; and the group's books and the trades in its ring are what the
    price-time contract makes of the processed orders. *)
Theorem system_refines x0 x :
  boot_system = Some x0 → rtc (sys_step clock junk_price) x0 x → small boot x →
  ∃ f, rtc (flow_step nq) flow_new f ∧ f_sent f = sent (sys_oms x) ∧ f_out f = sys_outbox x ∧
    ∀ i g, groups (sys_engine x) !! i = Some g → ∃ dn pd, f_groups f !! i = Some (dn, pd) ∧
      filter (routed i) (sent (sys_oms x)) = dn ++ pd ++ filter (routed i) (sys_outbox x) ∧
      group_rep nq g (set_pending pd (aserve (agroup_new i) dn)).
Proof.
  intros H0 Hrun Hs. destruct (reachable_rep x0 x H0 Hrun Hs) as (_ & f & Hf & Hr). clear H0 Hrun.
  exists f. split; [done|]. split; [apply Hr|]. split; [apply Hr|]. intros i g. by eapply rep_groups.
Qed.

(** C12: With clients whose orders are [client_fit] (typed values, a terminated
    symbol, a positive quantity and, for an iceberg, a positive display
    quantity, none of which the server or the OMS checks), nothing in the
    exchange goes wrong: in every reachable state in which the ids and trade
    numbers are not used up ([small]) the next turn of every thread is defined
    (no access outside an array, no division by zero, no loop without end), a
    client can hand over an order, and every order sent to the engine, the
    slices of icebergs and the triggered stops included, is well-typed, has a
    positive quantity, a symbol below 2048 and an id of its own. *)
Theorem system_safe x0 x :
  boot_system = Some x0 → rtc (sys_step clock junk_price) x0 x → small boot x →
  (∀ t, thread_ok t → is_Some (turn clock junk_price t x)) ∧
  (∀ c, client_fit c → is_Some (enqueueClientOrder c (sys_oms x))) ∧
  Forall order_fit (sent (sys_oms x)) ∧ NoDup (o_order_id <$> sent (sys_oms x)).
Proof.
  intros H0 Hrun Hs. destruct (reachable_rep x0 x H0 Hrun Hs) as (Hi & f & _ & Hr).
  split; [|split; [|split]].
  - intros t Ht. destruct (turn_sim clock junk_price n nq agroup_new Hclock Hjunk boot t x f Hr Hi Hs Ht)
      as (x' & new & Hturn & _). by exists x'.
  - intros c Hc. destruct (enqueue_good n c _ (sr_oms _ _ _ _ _ Hr) Hc) as (ok & m & H & _). by eexists.
  - apply (og_sent n). apply (sr_oms _ _ _ _ _ Hr).
  - destruct Hs as [Hs _]. destruct (Hi Hs) as (a & b & Hit). apply Hit.
Qed.

(** C13: Every order is processed: with clients whose orders are [client_fit],
    under every schedule in which each thread
    keeps getting turns, three rounds per order sent so far are enough for
    the groups to have processed all of them, whatever the OMS sends
    meanwhile, unless it sends so many orders that the ids or the trade
    numbers are used up; no thread ever waits for the OMS to read a ring. *)
Theorem system_drains x0 x blocks :
  boot_system = Some x0 → rtc (sys_step clock junk_price) x0 x → small boot x →
  Forall fair_block blocks → Forall thread_ok (concat blocks) →
  (3 * length (sent (sys_oms x)) ≤ length blocks)%nat →
  ∃ pre post x', concat blocks = pre ++ post ∧ run_turns clock junk_price pre x = Some x' ∧
    (¬ small boot x' ∨ post = [] ∧
      ∀ i g, groups (sys_engine x') !! i = Some g → ∃ dn pd,
        filter (routed i) (sent (sys_oms x)) `prefix_of` dn ∧
        group_rep nq g (set_pending pd (aserve (agroup_new i) dn))).
Proof.
  intros H0 Hrun Hs Hfair Hok Hlen. destruct (reachable_rep x0 x H0 Hrun Hs) as (Hi & f & _ & Hr).
  destruct (run_sched clock junk_price n nq agroup_new Hclock Hjunk boot (concat blocks) x f)
    as (pre & post & x' & f' & Hsplit & Hpre & Hfl & Hr' & Hend); [apply Hbk|done..|].
  exists pre, post, x'. split; [done|]. split; [done|]. destruct Hend as [?|Hpost]; [by left|right].
  split; [done|]. subst post. rewrite app_nil_r in Hsplit. subst pre. intros i g Hg.
  destruct (sr_group _ _ _ _ _ Hr' i g Hg) as (dn & pd & Hfg & [Hrep _]). exists dn, pd. split; [|done].
  set (N := length (sent (sys_oms x))) in *. pose proof (sr_sent _ _ _ _ _ Hr) as Hsent.
  destruct (blocks_work nq N (ef_two _ _ (bk_engine _ _ Hbk)) blocks f f' Hfair Hfl) as (Hfo' & HN' & Hw);
    [apply Hr|by rewrite Hsent|].
  pose proof (work_bound N f). apply flow_run_sent in Hfl as [l Hl].
  replace (sent (sys_oms x)) with (take N (f_sent f')); [|by unfold N; rewrite Hl, Hsent, take_app_length].
  eapply no_work; [done|done|lia|done].
Qed.
End boot.

(** The orders of the bots are orders the exchange is safe with. *)
Lemma bot_order_fit infos trader o : bot_order infos trader o → client_fit o.
Proof.
  intros [Hty (sym & _ & Hval & Hsym) _ Hq]. split; [done|by eexists|lia|]. intros Hice.
  unfold validate_order in Hval. rewrite Hice in Hval. destruct (c_quantity o =? 0); [done|].
  destruct (negb _); [done|]. destruct (Z.eqb_spec (c_display_quantity o) 0) as [|Hd]; [done|].
  pose proof (ct_display _ Hty). mach.
Qed.

(** * Witnesses *)

(** An exchange with small pools and bands, and one listed symbol. *)
Definition demo_pools (i j : Z) : list OrderNode := [Demo.node; Demo.node].
Definition demo_totals (i j : Z) : Z * Z := (0, 0).
Definition demo_lower : list Z := replicate (Z.to_nat TOTAL_SYMBOLS) 100.
Definition demo_upper : list Z := replicate (Z.to_nat TOTAL_SYMBOLS) 110.
Definition demo_symbols : list (list Z * Z) := [([65; 65; 80; 76], 0)].
Definition no_system : System := mkSystem demo_oms AtIntake [] (MatchingEngineDispatcher_new 16 []).
Definition demo_start : System :=
  default no_system (boot_system 16 16 1000 demo_pools demo_totals demo_lower demo_upper demo_symbols).

(** A client's limit order, handed over, taken in, and dispatched. *)
Definition demo_limit : ClientOrder := mkClientOrder 6 101 0 OmsTheorems.aapl 0 1 BUY 25 0 0 CLIMIT true.
Definition hand_over (c : ClientOrder) (x : System) : option System :=
  '(ok, m) ← enqueueClientOrder c (sys_oms x);
  Some (mkSystem m (sys_pc x) (sys_outbox x) (sys_engine x)).
Definition demo_received : System := default no_system (hand_over demo_limit demo_start).
Definition demo_dispatched : System :=
  default no_system (run_turns (λ _, 7) 0 [OmsThread; OmsThread] demo_received).

Lemma demo_boot_ok :
  boot_ok 16 16 1000 demo_pools demo_totals demo_lower demo_upper 2 demo_symbols 16 16.
Proof.
  assert (effective 16 16) as He by (split; [exists 4, 0; done|lia..]). split; [exact He|exact He|mach|lia|done|done|..].
  - intros sym Hsym. exists 100, 110. unfold demo_lower, demo_upper. rewrite !lookup_replicate_2 by lia. split; [done|]. split; [done|].
    unfold band_ok. mach.
  - apply Forall_singleton. done.
Qed.

(** What a computation returns is a state when it is not [None]. *)
Lemma computed {A} (d : A) (o : option A) :
  match o with Some _ => true | None => false end = true → o = Some (default d o).
Proof. by destruct o. Qed.

Lemma demo_boots : boot_system 16 16 1000 demo_pools demo_totals demo_lower demo_upper demo_symbols = Some demo_start.
Proof. apply computed. vm_compute. reflexivity. Qed.

Lemma run_turns_steps clock junk_price ts : ∀ x x',
  Forall thread_ok ts → run_turns clock junk_price ts x = Some x' → rtc (sys_step clock junk_price) x x'.
Proof.
  induction ts as [|t ts IH]; intros x x' Hok H; cbn [run_turns] in H; [injection H as <-; done|].
  apply Forall_cons in Hok as [Ht Hok]. apply bind_Some in H as (x1 & H1 & H2).
  eapply rtc_l; [by eapply step_turn|by apply IH].
Qed.

Lemma demo_limit_fit : client_fit demo_limit.
Proof.
  split; [|by eexists|done|done].
  split; try (vm_compute; split; [discriminate|reflexivity]).
  split; [done|]. repeat (constructor; [lia|]). constructor.
Qed.

Lemma hand_over_step clock junk_price c x x' :
  client_fit c → hand_over c x = Some x' → sys_step clock junk_price x x'.
Proof.
  intros Hc. unfold hand_over. intros ([ok m] & Henq & H)%bind_Some. apply (inj Some) in H. subst x'.
  by eapply step_client.
Qed.

Lemma demo_reached : rtc (sys_step (λ _, 7) 0) demo_start demo_dispatched.
Proof.
  apply (rtc_l _ _ demo_received).
  - apply (hand_over_step _ _ demo_limit); [apply demo_limit_fit|]. apply computed. vm_compute. reflexivity.
  - apply (run_turns_steps _ _ [OmsThread; OmsThread]); [by repeat constructor|].
    apply computed. vm_compute. reflexivity.
Qed.

Lemma demo_small : small 1000 demo_dispatched.
Proof. vm_compute. split; reflexivity. Qed.

Lemma demo_clock : ∀ k : nat, is_u64 ((λ _, 7) k).
Proof. intros k. mach. Qed.

Lemma system_refines_witness :
  ∃ f, f_sent f = sent (sys_oms demo_dispatched) ∧ f_out f = sys_outbox demo_dispatched.
Proof.
  destruct (system_refines 16 16 1000 demo_pools demo_totals demo_lower demo_upper 2 demo_symbols (λ _, 7) 0 demo_clock ltac:(mach)
    16 16 demo_boot_ok demo_start demo_dispatched demo_boots demo_reached demo_small) as (f & _ & H1 & H2 & _).
  exists f. split; [exact H1|exact H2].
Defined.

Lemma system_safe_witness :
  is_Some (turn (λ _, 7) 0 OmsThread demo_dispatched) ∧ is_Some (turn (λ _, 7) 0 (GroupThread 1) demo_dispatched).
Proof.
  destruct (system_safe 16 16 1000 demo_pools demo_totals demo_lower demo_upper 2 demo_symbols (λ _, 7) 0 demo_clock ltac:(mach)
    16 16 demo_boot_ok demo_start demo_dispatched demo_boots demo_reached demo_small) as [H _].
  split; apply H; [exact I|unfold thread_ok, GROUP_COUNT; lia].
Defined.

Definition demo_rounds : list (list thread) := replicate 3 [OmsThread; GroupThread 0; GroupThread 1].

Lemma demo_fair : Forall fair_block demo_rounds ∧ Forall thread_ok (concat demo_rounds).
Proof.
  split.
  - apply Forall_replicate. intros [|i] Ht; [by left|]. cbn in Ht. unfold GROUP_COUNT in Ht.
    destruct i as [|[|i]]; [by right; left|by right; right; left|lia].
  - cbn. repeat constructor; unfold GROUP_COUNT; lia.
Qed.

Lemma demo_enough : (3 * length (sent (sys_oms demo_dispatched)) ≤ length demo_rounds)%nat.
Proof. vm_compute. reflexivity. Qed.

Lemma system_drains_witness :
  ∃ pre x', pre `prefix_of` concat demo_rounds ∧ run_turns (λ _, 7) 0 pre demo_dispatched = Some x'.
Proof.
  destruct (system_drains 16 16 1000 demo_pools demo_totals demo_lower demo_upper 2 demo_symbols (λ _, 7) 0 demo_clock ltac:(mach)
    16 16 demo_boot_ok demo_start demo_dispatched demo_rounds demo_boots demo_reached demo_small
    (proj1 demo_fair) (proj2 demo_fair) demo_enough) as (pre & post & x' & H1 & H2 & _).
  exists pre, x'. split; [exists post; exact H1|exact H2].
Defined.
