(* ===== verification/IcebergRun.v ===== *)
(** Icebergs through the whole exchange: in every run of the clients, the OMS
    thread and the group threads, what the OMS books for an iceberg is what
    the trades it has read say about the iceberg's slices.

    [Ledger] bounds what a group trades under an id by what was ordered under
    it, [Iceberg] keeps the parents right as long as no slice trades more
    than its quantity, [System] says which orders a group has processed; here
    the three are put together. *)

From stdpp Require Import relations.
From S2P Require Import Prelude Types MemPool PriceTime TradeRing RingBuffer Engine Group EngineTheorems Ledger Oms OmsTheorems Bots OmsLoop Iceberg System.

(** * The readers' handles *)

Section keeps.
Context (clock : nat → Z) (junk_price : Z).

Lemma send_slice_keeps pid s : trade_consumers (send_slice clock pid s) = trade_consumers s.
Proof. unfold send_slice. cbn zeta. destruct (negb _); [done|]. by case_match. Qed.

Lemma intake_keeps s s' : intake clock junk_price s = Some s' → trade_consumers s' = trade_consumers s.
Proof.
  unfold intake. intros ([item q] & _ & H)%bind_Some. destruct item as [c|]; [|by injection H as <-].
  unfold handle_client_order in H. apply bind_Some in H as (sym & _ & H).
  set (c' := set_c_symbol_id _ c) in H. destruct (c_symbol_id c' =? UINT32_MAX); [by injection H as <-|].
  destruct (c_execution_type c').
  - apply (inj Some) in H. subst s'. reflexivity.
  - apply (inj Some) in H. subst s'. destruct (c_price c' =? 0); reflexivity.
  - unfold registerStopLoss in H. apply bind_Some in H as (ct & _ & H). apply (inj Some) in H.
    subst s'. reflexivity.
  - injection H as <-. by rewrite send_slice_keeps.
Qed.

Lemma look_price_keeps n i cur s s' :
  oms_good n s → (i < Z.to_nat MAX_SYMBOLS)%nat → look_price clock i cur s = Some s' →
  trade_consumers s' = trade_consumers s.
Proof.
  intros Hg Hi. unfold look_price. intros (seen & _ & H)%bind_Some.
  destruct (cur =? seen); [by injection H as <-|]. apply bind_Some in H as (s1 & H1 & H). injection H as <-.
  destruct (lookup_lt_is_Some_2 (stop_loss_registry s) i) as [ct Hct]; [by rewrite (og_registry _ _ Hg)|].
  destruct (og_stops _ _ Hg ct ltac:(by eapply list_elem_of_lookup_2)) as [Hok _].
  destruct (check_stops_ok clock s i ct cur Hct Hok) as (sells & buys & ct' & _ & _ & Hrun);
    [apply (og_ids _ _ Hg)|]. rewrite Hrun in H1. by injection H1 as <-.
Qed.
End keeps.

(** * What a group has traded *)

Lemma process_trades o A : ag_trades A `prefix_of` ag_trades (aprocess_order o A).
Proof.
  unfold aprocess_order. destruct (ag_books A !! _) as [sb|]; [|done].
  destruct (aengine _ _ _ _ _) as [fs a]. by eexists.
Qed.

Section ledger.
Context (nq : Z) (A0 : nat → AGroup).
Implicit Types (f : flow) (reads : list (list Trade)).

Definition trades_at (i : nat) (dn : list Order) : list Trade := ag_trades (aserve (A0 i) dn).

(** Every group is balanced. *)
Definition accounts f : Prop :=
  ∀ i dn pd, f_groups f !! i = Some (dn, pd) → balanced dn (aserve (A0 i) dn).

Lemma flow_turn_groups t new f i dn pd :
  f_groups f !! i = Some (dn, pd) →
  ∃ dn' pd', f_groups (flow_turn nq t new f) !! i = Some (dn', pd') ∧
    (dn' = dn ∨ ∃ o, dn' = dn ++ [o] ∧ o ∈ pd).
Proof.
  intros Hi. assert (∃ dn' pd', f_groups f !! i = Some (dn', pd') ∧ (dn' = dn ∨ ∃ o, dn' = dn ++ [o] ∧ o ∈ pd)) as Hsame
    by (exists dn, pd; split; [done|by left]).
  apply lookup_lt_Some in Hi as Hlt. destruct t as [|j]; cbn [flow_turn].
  - destruct (f_out f) as [|o os]; [done|]. destruct (f_groups f !! group_of o) as [[dn1 pd1]|] eqn:Hg; [|done].
    destruct (_ =? _); [done|]. cbn [f_groups]. rewrite list_lookup_insert. case_decide as Hd; [|done].
    destruct Hd as [<- _]. rewrite Hi in Hg. injection Hg as <- <-. eexists _, _. split; [done|by left].
  - destruct (f_groups f !! j) as [[dn1 [|o pd1]]|] eqn:Hg; [done| |done].
    cbn [f_groups]. rewrite list_lookup_insert. case_decide as Hd; [|done].
    destruct Hd as [<- _]. rewrite Hi in Hg. injection Hg as -> ->. eexists _, _. split; [done|].
    right. exists o. split; [done|left].
Qed.

Lemma trades_grow t new f i dn pd :
  f_groups f !! i = Some (dn, pd) →
  ∃ dn' pd', f_groups (flow_turn nq t new f) !! i = Some (dn', pd') ∧ trades_at i dn `prefix_of` trades_at i dn'.
Proof.
  intros Hi. destruct (flow_turn_groups t new f i dn pd Hi) as (dn' & pd' & Hi' & Hdn). exists dn', pd'. split; [done|].
  destruct Hdn as [->|(o & -> & _)]; [done|]. unfold trades_at. rewrite aserve_snoc. apply process_trades.
Qed.

Lemma flow_groups_lookup f f' i :
  length (f_groups f) = length (f_groups f') → is_Some (f_groups f !! i) ↔ is_Some (f_groups f' !! i).
Proof. intros H. by rewrite !lookup_lt_is_Some, H. Qed.

(** The orders of a group are among those sent. *)
Lemma group_sublist f i dn pd :
  flow_ok f → f_groups f !! i = Some (dn, pd) → dn ++ pd `sublist_of` f_sent f.
Proof.
  intros [_ _ (d & Hd & Hg)] Hi. rewrite <- (Hg _ _ _ Hi), Hd. etrans; [apply sublist_filter|].
  by apply sublist_inserts_r.
Qed.

Lemma group_orders f i dn pd o : flow_ok f → f_groups f !! i = Some (dn, pd) → o ∈ dn ++ pd → o ∈ f_sent f.
Proof. intros Hf Hi Ho. eapply elem_of_submseteq; [exact Ho|]. by apply sublist_submseteq, (group_sublist f i). Qed.

(** [reads] are the trades the OMS has read from each ring. *)
Definition read_from f reads : Prop :=
  length reads = Z.to_nat GROUP_COUNT ∧
  ∀ i ts, reads !! i = Some ts → ∃ dn pd, f_groups f !! i = Some (dn, pd) ∧ ts `prefix_of` trades_at i dn.

(** What the trades read say about the id [c]. *)
Definition traded_in (c : Z) reads : Z := total (λ ts, traded c (legs ts)) reads.

Lemma read_from_turn t new f reads : read_from f reads → read_from (flow_turn nq t new f) reads.
Proof.
  intros [Hl Hr]. split; [done|]. intros i ts Hi. destruct (Hr i ts Hi) as (dn & pd & Hg & Hp).
  destruct (trades_grow t new f i dn pd Hg) as (dn' & pd' & Hg' & Hp'). exists dn', pd'. split; [done|]. by etrans.
Qed.

Lemma traded_prefix c ts hist :
  ts `prefix_of` hist → Forall (λ t, 0 < t_quantity t) hist → traded c (legs ts) <= traded c (legs hist).
Proof.
  intros [k ->] Hpos. apply tally_prefix; [|rewrite legs_app; by eexists].
  apply Forall_forall. intros l Hl. rewrite Forall_forall in Hpos. unfold legs in Hl.
  apply list_elem_of_In, in_concat in Hl as (ls & Hls & Hl). apply list_elem_of_In in Hls, Hl.
  apply list_elem_of_fmap in Hls as (t & -> & Ht). specialize (Hpos t Ht).
  apply elem_of_cons in Hl as [->|Hl]; [cbn; lia|]. apply list_elem_of_singleton in Hl as ->. cbn. lia.
Qed.

Lemma ordered_routed c d :
  Forall order_fit d → ordered c (filter (routed 0) d) + ordered c (filter (routed 1) d) <= ordered c d.
Proof.
  unfold ordered. induction 1 as [|o d Ho _ IH]; [done|]. pose proof (of_quantity _ Ho). rewrite !filter_cons, tally_cons.
  assert (routed 0 o → routed 1 o → False) by (unfold routed; lia).
  repeat case_decide; try tauto; rewrite ?tally_cons; destruct (_ =? c); lia.
Qed.

(** No more is traded under an id than was sent under it. *)
Lemma traded_bound f reads c :
  flow_ok f → accounts f → read_from f reads → traded_in c reads <= ordered c (f_sent f).
Proof.
  intros Hf Ha [Hl Hr]. change (Z.to_nat GROUP_COUNT) with 2%nat in Hl.
  destruct reads as [|r0 [|r1 [|]]]; try done. pose proof (fo_fit _ Hf) as Hfit. destruct (fo_split _ Hf) as (d & Hd & Hg).
  rewrite Hd in Hfit |- *. apply Forall_app in Hfit as [Hfd Hfo].
  assert (∀ l, Forall order_fit l → Forall (λ o, 0 <= o_quantity o) l) as Hnn
    by (intros l Hx; eapply Forall_impl; [exact Hx|]; intros o []; lia).
  assert (∀ i ts, [r0; r1] !! i = Some ts → traded c (legs ts) <= ordered c (filter (routed i) d)) as Hone.
  { intros i ts Hi. destruct (Hr i ts Hi) as (dn & pd & Hfg & Hp). pose proof (Ha _ _ _ Hfg) as Hb.
    etrans; [apply (traded_prefix c _ _ Hp), Hb|]. etrans; [by apply balanced_traded|]. rewrite (Hg _ _ _ Hfg).
    apply tally_prefix; [|by eexists]. rewrite <- (Hg _ _ _ Hfg). apply Hnn, Forall_forall.
    intros o [_ Ho]%list_elem_of_filter. rewrite Forall_forall in Hfd. by apply Hfd. }
  pose proof (Hone 0%nat r0 eq_refl). pose proof (Hone 1%nat r1 eq_refl). pose proof (ordered_routed c d Hfd).
  unfold ordered at 1. rewrite tally_app. fold (ordered c d).
  pose proof (tally_nonneg o_client_order_id o_quantity c (f_out f) (Hnn _ Hfo)).
  unfold traded_in, total. cbn [foldr]. lia.
Qed.

(** Groups that start balanced stay so, whatever they process. *)
Lemma rep_accounts f : (∀ i, balanced [] (A0 i)) → flow_ok f → accounts f.
Proof.
  intros H0 Hf i dn pd Hi. assert (Forall order_fit dn) as Hfit.
  { pose proof (fo_fit _ Hf) as H. rewrite Forall_forall in H. apply Forall_forall. intros o Ho. apply H.
    apply (group_orders f i dn pd); [done|done|]. apply elem_of_app. by left. }
  clear Hi. induction dn as [|o dn IH] using rev_ind; [apply H0|]. apply Forall_app in Hfit as [Hfit Ho].
  apply Forall_cons in Ho as [Ho _]. rewrite aserve_snoc. apply balanced_snoc; [apply Ho|apply Ho|by apply IH].
Qed.

(** A trade read belongs to orders sent. *)
Lemma read_legs f i dn pd t l :
  flow_ok f → accounts f → f_groups f !! i = Some (dn, pd) → t ∈ trades_at i dn → l ∈ legs_of t →
  ∃ o, o ∈ f_sent f ∧ o_client_order_id o = l.1.
Proof.
  intros Hf Ha Hi Ht Hl. assert (l ∈ legs (trades_at i dn)) as Hin.
  { unfold legs. apply list_elem_of_In, in_concat. exists (legs_of t). split; apply list_elem_of_In; [|done].
    by apply list_elem_of_fmap_2. }
  apply (ba_legs _ _ (Ha _ _ _ Hi)) in Hin. apply list_elem_of_fmap in Hin as (o & Heq & Ho). exists o.
  split; [|done]. apply (group_orders f i dn pd); [done|done|]. apply elem_of_app. by left.
Qed.
End ledger.

(** * Runs *)

Section run.
Context (clock : nat → Z) (junk_price : Z) (Hclock : ∀ k, is_u64 (clock k)) (Hjunk : is_u64 junk_price).
Context (n nq boot : Z) (A0 : nat → AGroup) (Hboot : 0 <= boot) (HA0 : ∀ i, balanced [] (A0 i)).
Implicit Types (x : System) (used : gset Z) (reads : list (list Trade)).

(** No ring has wrapped. *)
Definition few x : Prop :=
  ∀ i g, groups (sys_engine x) !! i = Some g → next_expected_seq (trade_buffer g) <= RING_SIZE.

(** Steps of the system with clients whose orders are [plain_client]
    ([client_fit], numbered below the ids of slices and, for icebergs, active
    and unfilled on arrival) and which do not use the id of an iceberg again;
    [used] are those ids.  The OMS checks none of this. *)
Inductive run_step : System * gset Z → System * gset Z → Prop :=
| run_client x used c ok m : plain_client c → (is_berg c → c_client_order_id c ∉ used) →
    enqueueClientOrder c (sys_oms x) = Some (ok, m) →
    run_step (x, used) (mkSystem m (sys_pc x) (sys_outbox x) (sys_engine x),
      if decide (is_berg c) then {[c_client_order_id c]} ∪ used else used)
| run_turn x used t x' : thread_ok t → turn clock junk_price t x = Some x' → run_step (x, used) (x', used).

Definition handles_at (s : OMS) reads : Prop :=
  ∀ i ts, reads !! i = Some ts → ∃ h, trade_consumers s !! i = Some h ∧ handle_at (length ts) h.

(** [L] are the legs of the trades in [reads], in the order of reading. *)
Record booked (s : OMS) used f owner L reads : Prop := {
  bk_reads : read_from A0 f reads;
  bk_handles : handles_at s reads;
  bk_orderly : orderly n s owner L used;
  bk_legs c : traded c L = traded_in c reads
}.

Record run_inv x used f owner L reads : Prop := {
  rv_rep : sys_rep n nq A0 x f;
  rv_ids : ids_inv boot (sys_oms x);
  rv_booked : booked (sys_oms x) used f owner L reads
}.

Lemma child_room x : ids_inv boot (sys_oms x) → small boot x → next_child_order_id (sys_oms x) + 2 < UINT64_MAX.
Proof.
  intros Hi [H1 H2]. destruct (Hi H1) as (a & b & [Hc _ Hch _ _]). rewrite Hch. pose proof first_child_eq.
  assert (MOD = 2 ^ 60) by done. mach.
Qed.

Lemma booked_turn s used t new f owner L reads :
  booked s used f owner L reads → booked s used (flow_turn nq t new f) owner L reads.
Proof. intros [H1 H2 H3 H4]. split; [by apply read_from_turn|done..]. Qed.

(** The steps of the OMS that read no trade. *)
Lemma booked_same s s' used used' f owner owner' L reads :
  booked s used f owner L reads → trade_consumers s' = trade_consumers s → orderly n s' owner' L used' →
  booked s' used' f owner' L reads.
Proof. intros [H1 H2 H3 H4] Hc Ho. split; [done| |done|done]. unfold handles_at. by rewrite Hc. Qed.

(** A look into ring [i] finds nothing, or the next trade of the group. *)
Lemma poll_reads x used f owner L reads i g t s' :
  run_inv x used f owner L reads → few x → groups (sys_engine x) !! i = Some g →
  poll_one clock i (trade_mem g) (sys_oms x) = Some (t, s') →
  s' = sys_oms x ∨ ∃ ts t' dn pd h,
    reads !! i = Some ts ∧ f_groups f !! i = Some (dn, pd) ∧ ts ++ [t'] `prefix_of` trades_at A0 i dn ∧
    (i < length (trade_consumers (sys_oms x)))%nat ∧ handle_at (length (ts ++ [t'])) h ∧
    check_fill clock t' (set_consumers (<[i := h]> (trade_consumers (sys_oms x))) (sys_oms x)) = Some s'.
Proof.
  intros [Hr _ [[Hlen Hrd] Hh _ _]] Hfew Hg. set (s := sys_oms x) in *.
  destruct (sr_group _ _ _ _ _ Hr i g Hg) as (dn & pd & Hfg & [Hrep _]). apply lookup_lt_Some in Hg as Hlt.
  rewrite (sr_length _ _ _ _ _ Hr), <- Hlen in Hlt. destruct (lookup_lt_is_Some_2 reads i Hlt) as [ts Hts].
  destruct (Hrd i ts Hts) as (dn' & pd' & Hfg' & [k Hk]). rewrite Hfg in Hfg'. injection Hfg' as <- <-.
  destruct (Hh i ts Hts) as (h & Hcons & Hat). pose proof (gr_trades _ _ _ Hrep) as [Hring Hhist].
  change (ag_trades (set_pending pd (aserve (A0 i) dn))) with (trades_at A0 i dn) in Hring, Hhist. rewrite Hk in Hring, Hhist.
  specialize (Hfew i g Hg). rewrite (proj2 Hhist) in Hfew.
  assert (MOD = 2 ^ 60 ∧ RING_SIZE = 2 ^ 20) as [HM HR] by done.
  assert (seq_room (length (ts ++ k))) as Hroom by (unfold seq_room; lia).
  unfold poll_one. rewrite Hcons. cbn [mbind option_bind]. destruct k as [|t' k].
  { rewrite app_nil_r in *. rewrite (caught_up_signal h _ ts) by done.
    destruct (Z.leb_spec (2 * RING_SIZE - 3) (Z.of_nat (length ts))) as [Hle|_]; [lia|]. intros [= _ <-]. by left. }
  destruct (reader_next 0 (mkTrade 0 0 0 0 0 0 0) h (trade_mem g) (ts ++ t' :: k) (length ts) t') as [-> ->]; try done;
    [by apply list_lookup_middle|lia|].
  cbn [mbind option_bind]. intros (s1 & Hfill & [= _ <-])%bind_Some. right.
  exists ts, t', dn, pd, (update_index_and_seq h). split_and!; try done.
  - rewrite Hk. exists k. by rewrite <- app_assoc.
  - by eapply lookup_lt_Some.
  - rewrite length_app, Nat.add_comm. apply update_handle; [done|]. unfold seq_room in *. rewrite length_app in Hroom. lia.
Qed.

Lemma traded_in_insert c reads i ts t :
  reads !! i = Some ts → traded_in c (<[i := ts ++ [t]]> reads) = traded_in c reads + traded c (legs_of t).
Proof.
  intros Hts. unfold traded_in. rewrite (total_insert _ _ _ ts) by done. rewrite legs_snoc. unfold traded.
  rewrite tally_app. lia.
Qed.

Lemma poll_booked x used f owner L reads i g t s' :
  run_inv x used f owner L reads → few x → small boot x → groups (sys_engine x) !! i = Some g →
  poll_one clock i (trade_mem g) (sys_oms x) = Some (t, s') →
  ∃ owner' L' reads', booked s' used f owner' L' reads'.
Proof.
  intros Hinv Hfew Hsm Hg Hpoll. pose proof Hinv as [Hr Hids Hb]. pose proof Hb as [[Hlen Hrd] Hh Ho HL].
  pose proof (rep_accounts A0 f HA0 (sr_flow _ _ _ _ _ Hr)) as Ha.
  destruct (poll_reads x used f owner L reads i g t s' Hinv Hfew Hg Hpoll)
    as [->|(ts & t' & dn & pd & h & Hts & Hfg & Hpre & Hlt & Hat & Hfill)]; [by exists owner, L, reads|].
  set (s := sys_oms x) in *. set (s0 := set_consumers _ s) in Hfill. set (reads' := <[i := ts ++ [t']]> reads).
  pose proof (sr_flow _ _ _ _ _ Hr) as Hfo. pose proof (sr_sent _ _ _ _ _ Hr) as Hsent.
  assert (orderly n s0 owner L used) as Ho0.
  { eapply (plain_orderly n s _ owner L used []); try done; [by rewrite app_nil_r|apply (od_stops _ _ _ _ _ Ho)]. }
  assert (read_from A0 f reads') as Hrd'.
  { split; [unfold reads'; by rewrite length_insert|]. intros j ts' Hj. unfold reads' in Hj.
    apply list_lookup_insert_Some in Hj as [(<- & <- & _)|(_ & Hj)]; [by exists dn, pd|by apply Hrd]. }
  assert (∀ c, traded c (L ++ legs_of t') = traded_in c reads') as HL'.
  { intros c. unfold reads'. rewrite (traded_in_insert c reads i ts t' Hts), <- HL. unfold traded. by rewrite tally_app. }
  assert (t' ∈ trades_at A0 i dn) as Hin by (destruct Hpre as [k ->]; set_solver).
  assert (∀ l, l ∈ legs_of t' → is_u64 l.1 ∧ (l.1 < 2 ^ 63 ∨ is_Some (owner !! l.1))) as Hleg.
  { intros l Hl. destruct (read_legs A0 f i dn pd t' l Hfo Ha Hfg Hin Hl) as (o & Ho' & <-). rewrite Hsent in Ho'.
    split; [|apply (ii_sent _ _ _ (od_ice _ _ _ _ _ Ho) o Ho')].
    pose proof (og_sent _ _ (sr_oms _ _ _ _ _ Hr)) as Hfit. rewrite Forall_forall in Hfit. apply (Hfit o Ho'). }
  destruct (fill_orderly clock n s0 owner L used t' Ho0) as (s1 & owner' & Hrun & Ho1 & _).
  - by apply child_room.
  - pose proof (ba_trades _ _ (Ha _ _ _ Hfg)) as Hpos. rewrite Forall_forall in Hpos. by apply Hpos.
  - apply (Hleg (t_buy_order_id t', t_quantity t')). left.
  - apply (Hleg (t_sell_order_id t', t_quantity t')). right. left.
  - intros l Hl. by apply Hleg.
  - intros o Ho' Hown. rewrite HL', <- (slice_ordered s owner L o (od_ice _ _ _ _ _ Ho) Ho' Hown). unfold s. rewrite <- Hsent.
    by apply (traded_bound A0).
  - rewrite Hfill in Hrun. injection Hrun as <-. exists owner', (L ++ legs_of t'), reads'. split; try done.
    intros j ts' Hj. unfold reads' in Hj. rewrite (check_fill_keeps _ _ _ _ Hfill). cbn [s0 trade_consumers set_consumers].
    apply list_lookup_insert_Some in Hj as [(<- & <- & _)|(Hne & Hj)].
    + exists h. split; [|done]. by apply list_lookup_insert_eq.
    + rewrite list_lookup_insert_ne by done. by apply Hh.
Qed.

(** A piece of the OMS loop. *)
Lemma micro_booked x used f owner L reads pc m :
  run_inv x used f owner L reads → few x → small boot x →
  oms_micro clock junk_price (trade_mem <$> groups (sys_engine x)) (Some (last_price (sys_engine x)))
    (sys_pc x) (sys_oms x) = Some (pc, m) →
  ∃ owner' L' reads', booked m used f owner' L' reads'.
Proof.
  intros Hinv Hfew Hsm. pose proof Hinv as [Hr Hids Hb]. pose proof (bk_orderly _ _ _ _ _ _ Hb) as Ho.
  pose proof (child_room x Hids Hsm) as Hroom. pose proof (sr_oms _ _ _ _ _ Hr) as Hg.
  destruct (sys_pc x) as [|i|i]; cbn [oms_micro].
  - intros (s' & Hrun & [= _ <-])%bind_Some. destruct (intake_orderly clock junk_price n (sys_oms x) s' owner L used Ho Hg)
      as (owner' & Ho' & _); [lia|done|]. exists owner', L, reads. eapply booked_same; [done| |done]. by eapply intake_keeps.
  - destruct (_ <=? i)%nat; [intros [= _ <-]; by exists owner, L, reads|]. intros (mem & Hmem & H)%bind_Some.
    apply list_lookup_fmap_Some in Hmem as (g & -> & Hgi). apply bind_Some in H as ([t s'] & Hpoll & [= _ <-]).
    by eapply poll_booked.
  - destruct (Nat.leb_spec (Z.to_nat MAX_SYMBOLS) i) as [_|Hi]; [intros [= _ <-]; by exists owner, L, reads|].
    intros (l & [= <-] & H)%bind_Some. apply bind_Some in H as (cur & _ & H). apply bind_Some in H as (s' & Hlook & [= _ <-]).
    exists owner, L, reads. eapply booked_same; [done|by eapply look_price_keeps|by eapply look_price_orderly].
Qed.

Lemma turn_run x used f owner L reads t x' :
  run_inv x used f owner L reads → few x → small boot x → thread_ok t → turn clock junk_price t x = Some x' →
  ∃ f' owner' L' reads', run_inv x' used f' owner' L' reads'.
Proof.
  intros Hinv Hfew Hsm Ht Hturn. pose proof Hinv as [Hr Hids Hb].
  destruct (turn_sim clock junk_price n nq A0 Hclock Hjunk boot t x f Hr Hids Hsm Ht) as (x1 & new & Hturn1 & Hnew & Hr').
  rewrite Hturn in Hturn1. apply (inj Some) in Hturn1. subst x1.
  assert (∃ owner' L' reads', booked (sys_oms x') used f owner' L' reads') as (owner' & L' & reads' & Hb').
  { destruct t as [|i]; cbn [turn] in Hturn.
    - unfold oms_turn in Hturn. destruct (sys_outbox x) as [|o os].
      + apply bind_Some in Hturn as ([pc m] & Hm & H). apply (inj Some) in H. subst x'. by eapply micro_booked.
      + apply bind_Some in Hturn as ([ok d] & _ & H). apply (inj Some) in H. subst x'. by exists owner, L, reads.
    - unfold group_turn in Hturn. apply bind_Some in Hturn as (d & _ & H). apply (inj Some) in H. subst x'.
      by exists owner, L, reads. }
  exists (flow_turn nq t new f), owner', L', reads'. split; [done| |by apply booked_turn].
  eapply id_steps_inv; [done|by eapply turn_ids|done].
Qed.

(** Rings only fill up. *)
Lemma turn_few x f t x' :
  sys_rep n nq A0 x f → ids_inv boot (sys_oms x) → small boot x → thread_ok t →
  turn clock junk_price t x = Some x' → few x' → few x.
Proof.
  intros Hr Hids Hsm Ht Hturn Hfew i g Hg.
  destruct (turn_sim clock junk_price n nq A0 Hclock Hjunk boot t x f Hr Hids Hsm Ht) as (x1 & new & Hturn1 & Hnew & Hr').
  rewrite Hturn in Hturn1. apply (inj Some) in Hturn1. subst x1.
  destruct (sr_group _ _ _ _ _ Hr i g Hg) as (dn & pd & Hfg & [Hrep _]).
  destruct (lookup_lt_is_Some_2 (groups (sys_engine x')) i) as [g' Hg'].
  { rewrite (sr_length _ _ _ _ _ Hr'), <- (sr_length _ _ _ _ _ Hr). by eapply lookup_lt_Some. }
  destruct (sr_group _ _ _ _ _ Hr' i g' Hg') as (dn' & pd' & Hfg' & [Hrep' _]).
  destruct (trades_grow nq A0 t new f i dn pd Hfg) as (dn1 & pd1 & Hfg1 & Hp%prefix_length).
  rewrite Hfg' in Hfg1. injection Hfg1 as <- <-. specialize (Hfew i g' Hg').
  rewrite (proj2 (pb_handle _ _ (gr_trades _ _ _ Hrep'))) in Hfew. rewrite (proj2 (pb_handle _ _ (gr_trades _ _ _ Hrep))).
  unfold trades_at in Hp. cbn [set_pending ag_trades] in *. lia.
Qed.

Lemma client_run x used f owner L reads c ok m :
  run_inv x used f owner L reads → plain_client c → (is_berg c → c_client_order_id c ∉ used) →
  enqueueClientOrder c (sys_oms x) = Some (ok, m) →
  run_inv (mkSystem m (sys_pc x) (sys_outbox x) (sys_engine x))
    (if decide (is_berg c) then {[c_client_order_id c]} ∪ used else used) f owner L reads.
Proof.
  intros [Hr Hids Hb] Hc Hnew Henq. pose proof Hr as [Hg Hfo Hs Ho Hl Hp Hgr].
  destruct (enqueue_good n c _ Hg (pc_fit _ Hc)) as (ok' & m' & Henq' & Hg' & Hsent).
  rewrite Henq in Henq'. injection Henq' as <- <-. split; cbn [sys_oms].
  - split; try done. cbn [sys_oms]. by rewrite Hsent.
  - eapply id_steps_inv; [done| |done]. apply (sys_step_ids clock junk_price x (mkSystem m (sys_pc x) (sys_outbox x) (sys_engine x))).
    eapply step_client; [apply Hc|done].
  - eapply booked_same; [done| |eapply enqueue_orderly; [apply Hb|done..]].
    unfold enqueueClientOrder in Henq. apply bind_Some in Henq as ([b q] & _ & H). by injection H as _ <-.
Qed.

Lemma run_step_sys y y' : run_step y y' → sys_step clock junk_price y.1 y'.1.
Proof. intros [x used c ok m Hc _ Henq|x used t x' Ht Hturn]; [eapply step_client; [apply Hc|done]|by eapply step_turn]. Qed.

Lemma run_system y y' : rtc run_step y y' → rtc (sys_step clock junk_price) y.1 y'.1.
Proof. induction 1 as [|y y1 y' Hst _ IH]; [done|]. eapply rtc_l; [by apply run_step_sys|done]. Qed.

(** A reachable state is booked as long as the ids last and no ring has
    wrapped. *)
Lemma reachable_run x0 L y :
  run_inv x0 ∅ flow_new ∅ L [[]; []] → rtc run_step (x0, ∅) y → small boot y.1 → few y.1 →
  ∃ f owner L' reads, run_inv y.1 y.2 f owner L' reads.
Proof.
  intros H0. pose proof H0 as [Hr0 Hi0 _]. revert y. apply (rtc_ind_r (λ y, small boot y.1 → few y.1 → ∃ f owner L' reads, run_inv y.1 y.2 f owner L' reads)).
  { intros _ _. by eexists _, _, _, _. }
  intros y y' Hrun Hst IH Hsm Hfew.
  destruct (sys_run_rep clock junk_price n nq A0 Hclock Hjunk boot x0 y.1 Hboot Hi0 Hr0) as [Hids Hrep];
    [by apply (run_system (x0, ∅))|].
  assert (small boot y.1) as Hsm0 by (eapply small_mono; [by eapply sys_step_ids, run_step_sys|done]).
  destruct (Hrep Hsm0) as (f0 & _ & Hr). destruct Hst as [x used c ok m Hc Hnew Henq|x used t x' Ht Hturn]; cbn [fst snd] in *.
  - destruct (IH Hsm0 Hfew) as (f & owner & L' & reads & Hinv). exists f, owner, L', reads. by eapply client_run.
  - assert (few x) as Hfew0 by by eapply turn_few.
    destruct (IH Hsm0 Hfew0) as (f & owner & L' & reads & Hinv). by eapply turn_run.
Qed.
End run.

(** * Accounts *)

(** What the OMS knows of the parent [p]: its slices carry its terms, show at
    most the display quantity and trade within their quantity, each completely
    before the next is sent; they add up to the filled quantity and what is
    open of the last one. *)
Record berg_account (s : OMS) (owner : gmap Z Z) (reads : list (list Trade)) (pid : Z) (p : ClientOrder) : Prop := {
  ac_terms : Forall (slice_for p) (slices_of owner pid (sent s));
  ac_shown o : o ∈ slices_of owner pid (sent s) → 0 < o_quantity o <= c_display_quantity p;
  ac_traded o : o ∈ slices_of owner pid (sent s) → 0 <= traded_in (o_client_order_id o) reads <= o_quantity o;
  ac_settled l1 l2 : slices_of owner pid (sent s) = l1 ++ l2 → l2 ≠ [] →
    Forall (λ o, traded_in (o_client_order_id o) reads = o_quantity o) l1;
  ac_filled : c_filled_quantity p = total (λ o, traded_in (o_client_order_id o) reads) (slices_of owner pid (sent s));
  ac_open : if c_is_active p
    then c_filled_quantity p < total o_quantity (slices_of owner pid (sent s))
         <= Z.min (c_filled_quantity p + c_display_quantity p) (c_quantity p)
    else total o_quantity (slices_of owner pid (sent s)) = c_quantity p ∧ c_filled_quantity p = c_quantity p
}.

Lemma traded_in_nonneg A0 f c reads : accounts A0 f → read_from A0 f reads → 0 <= traded_in c reads.
Proof.
  intros Ha [_ Hr]. assert (∀ ts, ts ∈ reads → 0 <= traded c (legs ts)) as Hnn.
  { intros ts [i Hi]%list_elem_of_lookup. destruct (Hr i ts Hi) as (dn & pd & Hfg & [k Hk]).
    pose proof (ba_trades _ _ (Ha _ _ _ Hfg)) as Hpos. change (ag_trades _) with (trades_at A0 i dn) in Hpos.
    rewrite Hk in Hpos. apply Forall_app in Hpos as [Hpos _]. apply (traded_prefix c [] ts); [apply prefix_nil|done]. }
  unfold traded_in. clear Hr. induction reads as [|ts reads IH]; [done|]. cbn [total foldr].
  pose proof (Hnn ts ltac:(left)). assert (0 <= total (λ ts, traded c (legs ts)) reads) by (apply IH; intros; apply Hnn; by right).
  unfold total in *. lia.
Qed.

Lemma total_ext {A} (g h : A → Z) l : (∀ a, a ∈ l → g a = h a) → total g l = total h l.
Proof.
  induction l as [|a l IH]; intros Hl; [done|]. cbn [total foldr]. rewrite (Hl a ltac:(left)). f_equal. apply IH.
  intros b Hb. apply Hl. by right.
Qed.

Lemma berg_accounted n A0 s used f owner L reads pid p :
  accounts A0 f → booked n A0 s used f owner L reads → active_icebergs s !! pid = Some p →
  berg_account s owner reads pid p.
Proof.
  intros Ha [Hr _ Ho HL] Hp. pose proof (traded_in_nonneg A0 f) as Hnn.
  assert (∀ l, Forall (spent L) l → Forall (λ o, traded_in (o_client_order_id o) reads = o_quantity o) l) as Hset.
  { intros l Hl. eapply Forall_impl; [exact Hl|]. intros o Hx. by rewrite <- HL. }
  assert (∀ l, Forall (spent L) l → total (λ o, traded_in (o_client_order_id o) reads) l = total o_quantity l) as Hall.
  { intros l Hl%Hset. apply total_ext. by rewrite Forall_forall in Hl. }
  destruct (ii_bergs _ _ _ (od_ice _ _ _ _ _ Ho) pid p Hp)
    as [(B & q & pre & last & Hs & Hio & Htr & Hpre & Hfor)|(Hic & Hsp & Hshow & Hfor)].
  - destruct Hio as [_ Hact _ _ _ Hrange [Hmod HB] [Hq Hopen] Htot Hshow].
    change (total o_quantity (pre ++ [last]) = filled p + q) in Htot. rewrite total_app in Htot. unfold filled in *.
    cbn [total foldr] in Htot. rewrite HL in Htr. split; rewrite ?Hs; try done.
    + intros o Hx. split; [by apply Hnn|]. apply elem_of_app in Hx as [Hx|Hx].
      * rewrite Forall_forall in Hpre. rewrite <- HL, (Hpre o Hx). lia.
      * apply list_elem_of_singleton in Hx as ->. lia.
    + intros l1 l2 Heq Hl2. destruct (exists_last Hl2) as (l & y & ->). rewrite app_assoc in Heq.
      apply app_inj_tail in Heq as [-> _]. apply Forall_app in Hpre as [Hpre _]. by apply Hset.
    + rewrite total_app, Hall by done. cbn [total foldr]. lia.
    + rewrite Hact, total_app. cbn [total foldr]. lia.
  - destruct Hic as [_ Hact Hfill _ Htot]. unfold filled in *.
    change (total o_quantity (slices_of owner pid (sent s)) = c_quantity p) in Htot. split; try done.
    + intros o Hx. split; [by apply Hnn|]. rewrite Forall_forall in Hsp. rewrite <- HL, (Hsp o Hx). lia.
    + intros l1 l2 Heq _. rewrite Heq in Hsp. apply Forall_app in Hsp as [Hsp _]. by apply Hset.
    + rewrite Hall, Htot by done. done.
    + by rewrite Hact.
Qed.

Section boot.
Context (engine_capacity oms_capacity boot : Z) (pools : Z → Z → list OrderNode) (totals : Z → Z → Z * Z) (lower upper : list Z).
Context (cap : nat) (symbols : list (list Z * Z)).
Context (clock : nat → Z) (junk_price : Z) (Hclock : ∀ k, is_u64 (clock k)) (Hjunk : is_u64 junk_price).
Context (n nq : Z) (Hbk : boot_ok engine_capacity oms_capacity boot pools totals lower upper cap symbols n nq).

Lemma balanced_new i : balanced [] (agroup_new lower upper cap i).
Proof.
  assert (∀ j sb, ag_books (agroup_new lower upper cap i) !! j = Some sb → resting (sb_book sb) = []) as He.
  { intros j sb [-> _]%agroup_new_book. done. }
  split.
  - intros j sb ->%He. constructor.
  - constructor.
  - intros c. change (0 + books_rest c (ag_books (agroup_new lower upper cap i)) <= 0). revert He.
    generalize (ag_books (agroup_new lower upper cap i)). intros m He. unfold books_rest.
    assert (map_fold (λ _ sb k, ordered c (resting (sb_book sb)) + k) 0 m = 0) as ->; [|done].
    revert He. apply (map_fold_weak_ind (λ k m, (∀ j sb, m !! j = Some sb → resting (sb_book sb) = []) → k = 0)); [done|].
    intros j sb m' k Hj IH Hm. rewrite (Hm j sb) by apply lookup_insert_eq. cbn. apply IH. intros j' sb' Hj'.
    apply (Hm j'). rewrite lookup_insert_ne; [done|]. intros ->. congruence.
  - intros j sb x ->%He Hx. by apply elem_of_nil in Hx.
  - intros l Hl. by apply elem_of_nil in Hl.
  - intros j sb x ->%He Hx. by apply elem_of_nil in Hx.
  - constructor.
  - apply (u64_range 1).
Qed.

Lemma new_orderly s :
  OMS_new oms_capacity boot symbols = Some s → orderly n s ∅ [] ∅ ∧ trade_consumers s = replicate 2 (trade_ring_buffer_new false).
Proof.
  unfold OMS_new. intros (tbl & _ & H)%bind_Some. apply (inj Some) in H. subst s. split; [|reflexivity].
  pose proof first_child_eq as E. unfold first_child in E. split; oms_cbn.
  - split; oms_cbn; try done; try (intros ? ?; rewrite lookup_empty; done).
    + split; oms_cbn; [rewrite E; mach|]. intros c. rewrite lookup_empty. by intros [].
    + intros o Ho. by apply elem_of_nil in Ho.
    + constructor.
    + intros l Hl. by apply elem_of_nil in Hl.
  - intros ct c [-> _]%elem_of_replicate Hc. by apply elem_of_nil in Hc.
  - exists []. split; [apply RingBuffer_new_rep, Hbk|]. split; [constructor|]. split; [constructor|].
    intros c Hc. by apply elem_of_nil in Hc.
  - intros pid. rewrite lookup_empty. by intros [].
Qed.

Lemma boot_run x0 :
  boot_system engine_capacity oms_capacity boot pools totals lower upper symbols = Some x0 →
  run_inv n nq boot (agroup_new lower upper cap) x0 ∅ flow_new ∅ [] [[]; []].
Proof.
  intros H0. destruct (boot_rep _ _ _ _ _ _ _ _ _ n nq x0 Hbk H0) as [Hr Hi]. split; [exact Hr|exact Hi|].
  - assert (orderly n (sys_oms x0) ∅ [] ∅ ∧ trade_consumers (sys_oms x0) = replicate 2 (trade_ring_buffer_new false)) as [Ho Hc].
    { clear Hr Hi. unfold boot_system, System_new in H0. apply bind_Some in H0 as (d & _ & H0).
      apply bind_Some in H0 as (m & Hm & H0). apply (inj Some) in H0. subst x0. by apply new_orderly. }
    clear H0 Hr Hi. assert (∀ i ts, [[]; []] !! i = Some ts → ts = @nil Trade ∧ (i < 2)%nat) as Hnil.
    { intros [|[|i]] ts; cbn; [intros [= <-]; split; [done|lia]..|done]. }
    split; [|..|exact Ho|].
    + split; [reflexivity|]. intros i ts [-> Hi]%Hnil. exists [], []. split; [by apply lookup_replicate|]. apply prefix_nil.
    + intros i ts [-> Hi]%Hnil. rewrite Hc. exists (trade_ring_buffer_new false).
      split; [by apply lookup_replicate|]. split; reflexivity.
    + intros c. reflexivity.
Qed.

(** C14: Icebergs are accounted for, when the clients' orders are [client_fit]
    with ids below [2^63], icebergs arrive active and unfilled, and no client
    uses the id of an iceberg again, none of which the OMS checks: in every
    interleaving of such clients, the OMS thread and the group threads, as
    long as no trade ring has wrapped and the ids are not used up,
    every order under a slice id is the slice of one iceberg and carries its
    price, side, symbol and trader; no slice shows more than the display
    quantity or trades more than its own; the filled quantity of an iceberg is
    exactly what the trades the OMS has read so far report for its slices;
    each slice trades completely before the next one is sent, all of them
    together never exceed the iceberg, and an iceberg has an open slice until
    it is completely filled and is then closed. *)
Theorem iceberg_accounts x0 x used :
  boot_system engine_capacity oms_capacity boot pools totals lower upper symbols = Some x0 →
  rtc (run_step clock junk_price) (x0, ∅) (x, used) → small boot x → few x →
  ∃ owner reads,
    (∀ o, o ∈ sent (sys_oms x) → 2 ^ 63 <= o_client_order_id o →
       ∃ pid p, owner !! o_client_order_id o = Some pid ∧ active_icebergs (sys_oms x) !! pid = Some p) ∧
    (∀ i g, groups (sys_engine x) !! i = Some g → ∃ ts hist h,
       reads !! i = Some ts ∧ published hist g ∧ ts `prefix_of` hist ∧
       trade_consumers (sys_oms x) !! i = Some h ∧ handle_at (length ts) h) ∧
    ∀ pid p, active_icebergs (sys_oms x) !! pid = Some p → berg_account (sys_oms x) owner reads pid p.
Proof.
  intros H0 Hrun Hsm Hfew. pose proof (boot_run x0 H0) as Hinv0. clear H0.
  destruct (reachable_run clock junk_price Hclock Hjunk n nq boot (agroup_new lower upper cap)
    ltac:(apply Hbk) balanced_new x0 [] (x, used) Hinv0 Hrun Hsm Hfew) as (f & owner & L & reads & [Hr _ Hb]).
  pose proof (rep_accounts _ f balanced_new (sr_flow _ _ _ _ _ Hr)) as Ha.
  clear Hinv0 Hrun. cbn [fst snd] in *. exists owner, reads. pose proof Hb as [[Hlen Hrd] Hh Ho _]. split; [|split].
  - intros o Hin Hge. pose proof (od_ice _ _ _ _ _ Ho) as Hi. destruct (ii_sent _ _ _ Hi o Hin) as [?|[pid Hp]]; [lia|].
    destruct (ii_owner _ _ _ Hi _ _ Hp) as (_ & [p Hact] & _). by exists pid, p.
  - intros i g Hg. destruct (sr_group _ _ _ _ _ Hr i g Hg) as (dn & pd & Hfg & [Hrep _]). apply lookup_lt_Some in Hg.
    rewrite (sr_length _ _ _ _ _ Hr), <- Hlen in Hg. destruct (lookup_lt_is_Some_2 reads i Hg) as [ts Hts].
    destruct (Hrd i ts Hts) as (dn' & pd' & Hfg' & Hp). rewrite Hfg in Hfg'. injection Hfg' as <- <-.
    destruct (Hh i ts Hts) as (h & Hc & Hat). exists ts, (trades_at (agroup_new lower upper cap) i dn), h.
    split_and!; try done. apply (gr_trades _ _ _ Hrep).
  - intros pid p Hp. by eapply berg_accounted.
Qed.
End boot.

(** * Witness *)

(** A client's iceberg, handed over and taken in; its first slice goes to its
    group and rests in the book. *)
Definition berg_received : System := default no_system (hand_over OmsTheorems.berg demo_start).
Definition berg_resting : System :=
  default no_system (run_turns (λ _, 7) 0 [OmsThread; OmsThread; GroupThread 0] berg_received).

Lemma berg_plain : plain_client OmsTheorems.berg.
Proof.
  split; [|done|done]. split; [|by eexists|done|done].
  split; try (vm_compute; split; [discriminate|reflexivity]).
  split; [done|]. repeat (constructor; [lia|]). constructor.
Qed.

Lemma run_turns_run clock junk_price used ts : ∀ x x',
  Forall thread_ok ts → run_turns clock junk_price ts x = Some x' → rtc (run_step clock junk_price) (x, used) (x', used).
Proof.
  induction ts as [|t ts IH]; intros x x' Hok H; cbn [run_turns] in H; [injection H as <-; done|].
  apply Forall_cons in Hok as [Ht Hok]. apply bind_Some in H as (x1 & H1 & H2).
  eapply rtc_l; [by eapply run_turn|by apply IH].
Qed.

Lemma hand_over_run clock junk_price c used x x' :
  plain_client c → (is_berg c → c_client_order_id c ∉ used) → hand_over c x = Some x' →
  run_step clock junk_price (x, used) (x', if decide (is_berg c) then {[c_client_order_id c]} ∪ used else used).
Proof.
  intros Hc Hnew. unfold hand_over. intros ([ok m] & Henq & H)%bind_Some. apply (inj Some) in H. subst x'.
  by eapply run_client.
Qed.

Lemma berg_reached : rtc (run_step (λ _, 7) 0) (demo_start, ∅) (berg_resting, {[5]} ∪ ∅).
Proof.
  apply (rtc_l _ _ (berg_received, {[5]} ∪ ∅)).
  - apply (hand_over_run _ _ OmsTheorems.berg ∅); [apply berg_plain|intros _; apply not_elem_of_empty|].
    apply computed. vm_compute. reflexivity.
  - apply (run_turns_run _ _ _ [OmsThread; OmsThread; GroupThread 0]); [repeat constructor; unfold GROUP_COUNT; lia|].
    apply computed. vm_compute. reflexivity.
Qed.

Lemma berg_small : small 1000 berg_resting.
Proof. vm_compute. split; reflexivity. Qed.

(** [few] as a computation. *)
Definition few_b (x : System) : bool :=
  forallb (λ g, next_expected_seq (trade_buffer g) <=? RING_SIZE) (groups (sys_engine x)).

Lemma few_computed x : few_b x = true → few x.
Proof.
  unfold few_b. rewrite forallb_forall. intros H i g Hg%list_elem_of_lookup_2%list_elem_of_In. apply Z.leb_le. by apply H.
Qed.

Lemma iceberg_accounts_witness :
  ∃ p owner reads, active_icebergs (sys_oms berg_resting) !! 5 = Some p ∧ c_quantity p = 25 ∧
    berg_account (sys_oms berg_resting) owner reads 5 p.
Proof.
  destruct (iceberg_accounts 16 16 1000 demo_pools demo_totals demo_lower demo_upper 2 demo_symbols (λ _, 7) 0 demo_clock ltac:(mach)
    16 16 demo_boot_ok demo_start berg_resting ({[5]} ∪ ∅) demo_boots berg_reached berg_small) as (owner & reads & _ & _ & H).
  - apply few_computed. vm_compute. reflexivity.
  - exists OmsTheorems.berg, owner, reads. assert (active_icebergs (sys_oms berg_resting) !! 5 = Some OmsTheorems.berg) as Hp
      by (vm_compute; reflexivity).
    split; [exact Hp|]. split; [reflexivity|]. apply H. exact Hp.
Defined.
