(* ===== verification/Exchange.v ===== *)
(** The exchange with its front: the order receiving server of
    src/oms_order_receiving_server.cpp, one thread per connection, running
    beside the OMS and the engine of [System].

    [Server] has a session as a function of all that [recv] will report; here
    a session is a machine that makes one system call or one attempt to
    enqueue at a time, so that sessions, clients and the threads of the
    exchange interleave.  Runs carry a trace of what happened on the
    connections. *)

From stdpp Require Import relations.
From S2P Require Import Prelude Types Heap MemPool PriceTime TradeRing RingBuffer Engine Group EngineTheorems Oms OmsTheorems Wire Server Bots OmsLoop Iceberg System.

(** * A session as a machine *)

(** Inside [readExact] with the bytes received so far, inside the loop that
    enqueues, behind [close] and before [removeClientFd], or at the end of the
    thread. *)
Inductive session_pc := Reading (acc : bytes) | Offering (c : ClientOrder) | Ended | Gone.

(** One pass through a loop of [clientSession] or [readExact], or what follows
    the loop: [down] is the
    shutdown flag the pass sees, [ev] what [recv] reports if it is called.  An
    empty [Data] is the result 0 of [recv]. *)
Definition session_turn (down : bool) (ev : event) (pc : session_pc) (s : OMS) : option (session_pc * OMS) :=
  match pc with
  | Reading acc =>
      if down then Some (Ended, s)
      else
        match ev with
        | Data bs =>
            if bool_decide (bs = []) then Some (Ended, s)
            else
              let acc := acc ++ bs in
              Some (if (sizeof_ClientOrder <=? length acc)%nat then Offering (decode_client acc) else Reading acc, s)
        | Interrupt => Some (Reading acc, s)
        | _ => Some (Ended, s)
        end
  | Offering c =>
      if down then Some (Ended, s)
      else
        '(enqueued, s) ← enqueueClientOrder c s;
        Some (if enqueued : bool then Reading [] else Offering c, s)
  | Ended | Gone => Some (Gone, s)
  end.

(** ** Equivalence with [clientSession] *)

Section alone.
Implicit Types (s : OMS) (sock : socket) (env : list (OMS → option OMS)).

(** A call of [recv] for what is missing, on a socket. *)
Definition recv_next (missing : nat) sock : event * socket :=
  match sock with
  | Data bs :: sock =>
      if (length bs <=? missing)%nat then (Data bs, sock)
      else (Data (take missing bs), Data (drop missing bs) :: sock)
  | ev :: sock => (ev, sock)
  | [] => (Closed, [])
  end.

(** The machine on its socket; [env] acts between two attempts to enqueue,
    and a session that waits when it is exhausted is left waiting. *)
Fixpoint run_session (k : nat) env (pc : session_pc) sock s : option OMS :=
  match k with
  | O => None
  | S k =>
      match pc with
      | Ended | Gone => Some s
      | Reading acc =>
          let '(ev, sock) := recv_next (sizeof_ClientOrder - length acc) sock in
          '(pc, s) ← session_turn (match ev with ShutdownFlag => true | _ => false end) ev pc s;
          run_session k env pc sock s
      | Offering c =>
          '(pc, s) ← session_turn false Interrupt pc s;
          match pc, env with
          | Offering _, [] => Some s
          | Offering _, f :: env => s ← f s; run_session k env pc sock s
          | _, _ => run_session k env pc sock s
          end
      end
  end.

Definition ends env (pc : session_pc) sock s (r : OMS) : Prop := ∃ k, run_session k env pc sock s = Some r.

Lemma ended_ends env sock s : ends env Ended sock s s.
Proof. by exists 1%nat. Qed.

Lemma read_ends env sock s r : ∀ acc, (length acc < sizeof_ClientOrder)%nat →
  match readExact sizeof_ClientOrder acc sock with
  | (Some bs, sock') => ends env (Offering (decode_client bs)) sock' s r → ends env (Reading acc) sock s r
  | (None, _) => ends env (Reading acc) sock s s
  end.
Proof.
  induction sock as [|ev sock IH]; intros acc Hacc; cbn [readExact];
    rewrite (proj2 (Nat.leb_gt _ _)) by done; [by exists 2%nat|].
  destruct ev as [bs| | | |]; [|specialize (IH acc Hacc)|by exists 2%nat..].
  - remember (sizeof_ClientOrder - length acc)%nat as m eqn:Hm. case_bool_decide as Hbs.
    { exists 2%nat. subst bs. cbn [run_session recv_next length]. done. }
    destruct (Nat.leb_spec (length bs) m) as [Hle|Hgt].
    + assert (∀ k, run_session (S k) env (Reading acc) (Data bs :: sock) s =
        run_session k env (if (sizeof_ClientOrder <=? length (acc ++ bs))%nat
          then Offering (decode_client (acc ++ bs)) else Reading (acc ++ bs)) sock s) as Hk.
      { intros k. cbn [run_session recv_next]. rewrite <- Hm, (proj2 (Nat.leb_le _ _)) by done.
        cbn [session_turn]. by rewrite bool_decide_eq_false_2. }
      destruct (Nat.leb_spec sizeof_ClientOrder (length (acc ++ bs))) as [Hfull|Hless].
      * assert (readExact sizeof_ClientOrder (acc ++ bs) sock = (Some (acc ++ bs), sock)) as ->.
        { destruct sock; cbn [readExact]; by rewrite (proj2 (Nat.leb_le _ _)). }
        intros [k Hr]. exists (S k). by rewrite Hk.
      * specialize (IH (acc ++ bs) Hless). destruct (readExact _ _ sock) as [[bs'|] sock'].
        { intros Hr. destruct (IH Hr) as [k Hk']. exists (S k). by rewrite Hk. }
        destruct IH as [k Hk']. exists (S k). by rewrite Hk.
    + intros [k Hr]. exists (S k). cbn [run_session recv_next]. rewrite <- Hm, (proj2 (Nat.leb_gt _ _)) by done.
      cbn [session_turn]. rewrite bool_decide_eq_false_2.
      2: { intros H%(f_equal length). rewrite length_take in H. cbn in H. lia. }
      cbn [mbind option_bind]. rewrite (proj2 (Nat.leb_le _ _)); [done|]. rewrite length_app, length_take. lia.
  - destruct (readExact _ acc sock) as [[bs'|] sock'].
    { intros Hr. destruct (IH Hr) as [k Hk]. by exists (S k). }
    destruct IH as [k Hk]. by exists (S k).
Qed.

Lemma enqueue_ends sock r : ∀ env c s enqueued env' s',
  enqueue_loop env c s = Some (enqueued, env', s') →
  (if enqueued : bool then ends env' (Reading []) sock s' r else r = s') → ends env (Offering c) sock s r.
Proof.
  induction env as [|f env IH]; intros c s enqueued env' s' H Hr; cbn [enqueue_loop] in H;
    apply bind_Some in H as ([ok s1] & Henq & H); destruct ok.
  1,3: injection H as <- <- <-; destruct Hr as [k Hk]; exists (S k); cbn [run_session session_turn];
    rewrite Henq; exact Hk.
  - injection H as <- <- <-. subst r. exists 1%nat. cbn [run_session session_turn]. by rewrite Henq.
  - apply bind_Some in H as (s2 & Hf & H). destruct (IH c s2 _ _ _ H Hr) as [k Hk]. exists (S k).
    cbn [run_session session_turn]. rewrite Henq. cbn [mbind option_bind]. by rewrite Hf.
Qed.

(** The machine does what the function does. *)
Lemma run_session_agrees fuel : ∀ env sock s r,
  clientSession fuel env sock s = Some r → ends env (Reading []) sock s r.
Proof.
  induction fuel as [|fuel IH]; intros env sock s r H; [done|]. cbn [clientSession] in H.
  pose proof (read_ends env sock s r [] ltac:(vm_compute; lia)) as Hread.
  destruct (readExact sizeof_ClientOrder [] sock) as [[bs|] sock'].
  - apply bind_Some in H as ([[enqueued env'] s'] & Henq & H). apply Hread. eapply enqueue_ends; [exact Henq|].
    destruct enqueued; [by apply IH|by injection H].
  - by injection H as <-.
Qed.
End alone.

(** * The exchange *)

(** A connection: its descriptor at the server, the bytes on their way,
    whether the client still holds its end, and the thread that serves it. *)
Record conn := mkConn {
  cn_fd : Z;
  cn_wire : bytes;
  cn_open : bool;
  cn_pc : session_pc
}.

Record Exchange := mkExchange {
  ex_system : System;
  ex_server : OrderReceivingServer;
  ex_conns : list conn
}.

Definition set_oms (m : OMS) (x : System) : System := mkSystem m (sys_pc x) (sys_outbox x) (sys_engine x).

(** What [recv] may report, when [acc] is there already: it delivers at most
    what it was asked for, and the end only after everything else. *)
Definition recv_ok (acc : bytes) (cn : conn) (ev : event) : Prop :=
  match ev with
  | Data bs => bs ≠ [] ∧ bs `prefix_of` cn_wire cn ∧ (length bs ≤ sizeof_ClientOrder - length acc)%nat
  | Interrupt | Failure => True
  | Closed => cn_wire cn = [] ∧ cn_open cn = false
  | ShutdownFlag => False
  end.

(** What is left on the wire. *)
Definition wire_after (down : bool) (ev : event) (cn : conn) : bytes :=
  match cn_pc cn, ev with
  | Reading _, Data bs => if down then cn_wire cn else drop (length bs) (cn_wire cn)
  | _, _ => cn_wire cn
  end.

Inductive label := Wrote (i : nat) (c : ClientOrder) | Handed (i : nat) (c : ClientOrder) | Took (c : ClientOrder) | Quiet.

Definition session_label (i : nat) (pc pc' : session_pc) : label :=
  match pc, pc' with Offering c, Reading _ => Handed i c | _, _ => Quiet end.

(** A turn of the OMS thread takes an order when it is at the intake. *)
Definition turn_label (t : thread) (x : System) : label :=
  match t, sys_outbox x, sys_pc x, pop (incoming_orders (sys_oms x)) with
  | OmsThread, [], AtIntake, Some (Some c, _) => Took c
  | _, _, _, _ => Quiet
  end.

Lemma turn_label_cases t x : turn_label t x = Quiet ∨ ∃ c, turn_label t x = Took c.
Proof.
  unfold turn_label. destruct t as [|i]; [|by left]. destruct (sys_outbox x); [|by left]. destruct (sys_pc x); [|by left..].
  destruct (pop _) as [[[c|] q]|]; [right; by exists c|by left..].
Qed.

(** The descriptors that are open, and those in the table of the server: a
    session closes its descriptor before it takes it out. *)
Definition fds_of (p : session_pc → bool) (cs : list conn) : list Z :=
  omap (λ cn, if p (cn_pc cn) then Some (cn_fd cn) else None) cs.
Definition fd_open (pc : session_pc) : bool := match pc with Reading _ | Offering _ => true | _ => false end.
Definition in_table (pc : session_pc) : bool := match pc with Gone => false | _ => true end.
Definition open_fds (cs : list conn) : list Z := fds_of fd_open cs.
Definition table_fds (cs : list conn) : list Z := fds_of in_table cs.

Section exchange.
Context (clock : nat → Z) (junk_price : Z).
Implicit Types (e : Exchange) (tr : list label).

(** The server accepts a connection, for which the system hands out a
    descriptor that is not open; a client writes an order, or closes its
    end, perhaps in the middle of an order; a session makes a pass; a thread of the exchange takes its turn;
    the flag of the server is set. *)
Inductive ex_step e : label → Exchange → Prop :=
| ex_accept fd : 0 <= fd → fd ∉ open_fds (ex_conns e) → srv_shutdown (ex_server e) = false →
    ex_step e Quiet (mkExchange (ex_system e) (accept_client fd (ex_server e))
      (ex_conns e ++ [mkConn fd [] true (Reading [])]))
| ex_write i cn c : ex_conns e !! i = Some cn → cn_open cn = true → client_fit c →
    ex_step e (Wrote i c) (mkExchange (ex_system e) (ex_server e)
      (<[i := mkConn (cn_fd cn) (cn_wire cn ++ encode_client c) true (cn_pc cn)]> (ex_conns e)))
| ex_hang_up i cn bs : ex_conns e !! i = Some cn → cn_open cn = true → (length bs < sizeof_ClientOrder)%nat →
    ex_step e Quiet (mkExchange (ex_system e) (ex_server e)
      (<[i := mkConn (cn_fd cn) (cn_wire cn ++ bs) false (cn_pc cn)]> (ex_conns e)))
| ex_session i cn ev pc m : ex_conns e !! i = Some cn → cn_pc cn ≠ Gone →
    (∀ acc, cn_pc cn = Reading acc → recv_ok acc cn ev) →
    session_turn (srv_shutdown (ex_server e)) ev (cn_pc cn) (sys_oms (ex_system e)) = Some (pc, m) →
    ex_step e (session_label i (cn_pc cn) pc) (mkExchange (set_oms m (ex_system e))
      (match pc with Gone => removeClientFd (cn_fd cn) (ex_server e) | _ => ex_server e end)
      (<[i := mkConn (cn_fd cn) (wire_after (srv_shutdown (ex_server e)) ev cn) (cn_open cn) pc]> (ex_conns e)))
| ex_turn t x : thread_ok t → turn clock junk_price t (ex_system e) = Some x →
    ex_step e (turn_label t (ex_system e)) (mkExchange x (ex_server e) (ex_conns e))
| ex_shutdown :
    ex_step e Quiet (mkExchange (ex_system e)
      (mkServer true (server_fd (ex_server e)) (client_threads (ex_server e)) (active_client_fds (ex_server e))) (ex_conns e)).

Inductive ex_run e0 : list label → Exchange → Prop :=
| run_start : ex_run e0 [] e0
| run_more tr e l e' : ex_run e0 tr e → ex_step e l e' → ex_run e0 (tr ++ [l]) e'.

(** What the trace says about connection [i], and about all. *)
Definition written (i : nat) tr : list ClientOrder :=
  omap (λ l, match l with Wrote j c => if decide (j = i) then Some c else None | _ => None end) tr.
Definition handed (i : nat) tr : list ClientOrder :=
  omap (λ l, match l with Handed j c => if decide (j = i) then Some c else None | _ => None end) tr.
Definition arrived tr : list ClientOrder := omap (λ l, match l with Handed _ c => Some c | _ => None end) tr.
Definition taken tr : list ClientOrder := omap (λ l, match l with Took c => Some c | _ => None end) tr.

(** What a client leaves of an incomplete order when it hangs up. *)
Definition scrap (tail : bytes) (cn : conn) : Prop :=
  (length tail < sizeof_ClientOrder)%nat ∧ (cn_open cn = true → tail = []).

(** What has been written and not handed over is on the connection: the
    order being offered, the bytes received and those on the wire.  A session
    that has ended has handed over the first orders. *)
Definition conn_inv (wr hd : list ClientOrder) (cn : conn) : Prop :=
  match cn_pc cn with
  | Reading acc => ∃ rest tail, wr = hd ++ rest ∧ acc ++ cn_wire cn = concat (encode_client <$> rest) ++ tail ∧
      scrap tail cn ∧ (length acc < sizeof_ClientOrder)%nat
  | Offering c => ∃ rest tail, wr = hd ++ c :: rest ∧ cn_wire cn = concat (encode_client <$> rest) ++ tail ∧ scrap tail cn
  | Ended | Gone => hd `prefix_of` wr
  end.

Lemma concat_snoc (l : list ClientOrder) c :
  concat (encode_client <$> l ++ [c]) = concat (encode_client <$> l) ++ encode_client c.
Proof. rewrite fmap_app, concat_app. cbn. by rewrite app_nil_r. Qed.

Lemma conn_write wr hd cn c :
  conn_inv wr hd cn → cn_open cn = true →
  conn_inv (wr ++ [c]) hd (mkConn (cn_fd cn) (cn_wire cn ++ encode_client c) true (cn_pc cn)).
Proof.
  unfold conn_inv. intros Hinv Ho. cbn [cn_pc cn_wire]. destruct (cn_pc cn) as [acc|c'| |].
  - destruct Hinv as (rest & tail & -> & Hw & [Ht ->%(λ H, H Ho)] & Hl). exists (rest ++ [c]), [].
    rewrite app_nil_r in Hw |- *. rewrite concat_snoc, <- Hw, !app_assoc. done.
  - destruct Hinv as (rest & tail & -> & Hw & [Ht ->%(λ H, H Ho)]). exists (rest ++ [c]), [].
    rewrite app_nil_r in Hw |- *. rewrite concat_snoc, <- Hw, <- app_assoc. done.
  - destruct Hinv as [k ->]. exists (k ++ [c]). by rewrite app_assoc.
  - destruct Hinv as [k ->]. exists (k ++ [c]). by rewrite app_assoc.
Qed.

Lemma conn_hang_up wr hd cn bs :
  conn_inv wr hd cn → cn_open cn = true → (length bs < sizeof_ClientOrder)%nat →
  conn_inv wr hd (mkConn (cn_fd cn) (cn_wire cn ++ bs) false (cn_pc cn)).
Proof.
  unfold conn_inv. intros Hinv Ho Hbs. cbn [cn_pc cn_wire]. destruct (cn_pc cn) as [acc|c'| |]; [| |done..].
  - destruct Hinv as (rest & tail & -> & Hw & [Ht ->%(λ H, H Ho)] & Hl). exists rest, bs.
    rewrite app_nil_r in Hw. by rewrite <- Hw, app_assoc.
  - destruct Hinv as (rest & tail & -> & Hw & [Ht ->%(λ H, H Ho)]). exists rest, bs.
    rewrite app_nil_r in Hw. by rewrite <- Hw.
Qed.

(** Bytes arrive; a complete order is the next one written. *)
Lemma conn_data wr hd cn acc bs :
  Forall client_fit wr → conn_inv wr hd cn → cn_pc cn = Reading acc → recv_ok acc cn (Data bs) →
  conn_inv wr hd (mkConn (cn_fd cn) (drop (length bs) (cn_wire cn)) (cn_open cn)
    (if (sizeof_ClientOrder <=? length (acc ++ bs))%nat then Offering (decode_client (acc ++ bs)) else Reading (acc ++ bs))).
Proof.
  unfold conn_inv. intros Hfit Hinv Hpc (Hne & [w Hw] & Hlen). rewrite Hpc in Hinv. cbn [cn_pc cn_wire].
  destruct Hinv as (rest & tail & -> & Hc & Hs & Hl). rewrite Hw, drop_app_length. rewrite Hw, app_assoc in Hc.
  destruct (Nat.leb_spec sizeof_ClientOrder (length (acc ++ bs))) as [Hfull|Hless]; [|by exists rest, tail].
  assert (length (acc ++ bs) = sizeof_ClientOrder) as Hsz by (rewrite length_app in *; lia).
  destruct rest as [|c rest].
  { apply (f_equal length) in Hc. rewrite length_app, Hsz in Hc. change (length (concat (encode_client <$> []) ++ tail)) with (length tail) in Hc.
    destruct Hs as [Hs _]. lia. }
  rewrite fmap_cons in Hc. cbn [concat] in Hc. rewrite <- (app_assoc (encode_client c)) in Hc. apply Forall_app in Hfit as [_ Hfit]. apply Forall_cons in Hfit as [Hfc _].
  pose proof (cf_typed _ Hfc) as Hty.
  pose proof (length_encode_client c (proj1 (ct_symbol _ Hty))) as Hle.
  apply app_inj_1 in Hc as [-> ->]; [|congruence]. rewrite decode_encode_client by done. by exists rest, tail.
Qed.

(** What a pass does for the queue and the connection. *)
Lemma session_conn wr hd cn i down ev pc s m :
  Forall client_fit wr → conn_inv wr hd cn → (∀ acc, cn_pc cn = Reading acc → recv_ok acc cn ev) →
  session_turn down ev (cn_pc cn) s = Some (pc, m) → cn_pc cn ≠ Gone →
  conn_inv wr (hd ++ handed i [session_label i (cn_pc cn) pc])
    (mkConn (cn_fd cn) (wire_after down ev cn) (cn_open cn) pc) ∧
  (m = s ∧ session_label i (cn_pc cn) pc = Quiet ∨
   ∃ c ok, client_fit c ∧ enqueueClientOrder c s = Some (ok, m) ∧
     session_label i (cn_pc cn) pc = if ok : bool then Handed i c else Quiet).
Proof.
  intros Hfit Hinv Hrecv Hturn Hne.
  assert (conn_inv wr hd (mkConn (cn_fd cn) (cn_wire cn) (cn_open cn) (cn_pc cn))) as Hsame by exact Hinv.
  assert (∀ w, conn_inv wr hd (mkConn (cn_fd cn) w (cn_open cn) Ended)) as Hend.
  { intros w. unfold conn_inv in *. cbn [cn_pc]. destruct (cn_pc cn) as [acc|c| |]; [| |done|done];
      destruct Hinv as (rest & tail & -> & _); by eexists. }
  destruct (cn_pc cn) as [acc|c| |] eqn:Hpc; [|clear Hrecv| |done]; unfold wire_after; rewrite Hpc; cbn [session_turn] in Hturn.
  - specialize (Hrecv acc eq_refl). destruct down.
    { injection Hturn as <- <-. rewrite app_nil_r. split; [apply Hend|by left]. }
    destruct ev as [bs| | | |]; [|injection Hturn as <- <-; rewrite app_nil_r; split; [apply Hend || exact Hsame|by left]..].
    destruct Hrecv as (Hbs & Hpre & Hlen). rewrite bool_decide_eq_false_2 in Hturn by done.
    apply (inj Some), pair_equal_spec in Hturn as [<- <-].
    pose proof (conn_data wr hd cn acc bs Hfit Hinv Hpc ltac:(done)) as Hd.
    destruct (_ <=? _)%nat; rewrite app_nil_r; (split; [exact Hd|by left]).
  - destruct down.
    { injection Hturn as <- <-. rewrite app_nil_r. split; [destruct ev; apply Hend|by left]. }
    apply bind_Some in Hturn as ([ok m'] & Henq & H). injection H as <- <-.
    unfold conn_inv in Hinv. rewrite Hpc in Hinv. destruct Hinv as (rest & tail & -> & Hw & Hs).
    assert (client_fit c) as Hc by (apply Forall_app in Hfit as [_ Hfit]; by apply Forall_cons in Hfit as [? _]).
    destruct ok; cbn [session_label].
    + split; [|right; by exists c, true]. unfold handed. cbn [omap list_omap]. rewrite decide_True by done.
      destruct ev; (exists rest, tail; cbn [cn_wire]; rewrite <- app_assoc; split_and!; [done|done|exact Hs|unfold sizeof_ClientOrder; cbn; lia]).
    + rewrite app_nil_r. split; [destruct ev; exact Hsame|right; by exists c, false].
  - injection Hturn as <- <-. rewrite app_nil_r. split; [|by left].
    assert (hd `prefix_of` wr) as Hp by exact (Hend []). destruct ev; exact Hp.
Qed.

(** ** The intake *)

Lemma trigger_incoming c s s' : trigger clock c s = Some s' → incoming_orders s' = incoming_orders s.
Proof. unfold trigger. intros (sym & _ & H)%bind_Some. apply (inj Some) in H. subst s'. reflexivity. Qed.

Lemma trigger_loop_incoming comp fires fuel : ∀ stops s stops' s',
  trigger_loop clock comp fires fuel stops s = Some (stops', s') → incoming_orders s' = incoming_orders s.
Proof.
  induction fuel as [|fuel IH]; intros stops s stops' s'; cbn [trigger_loop];
    (destruct (heap_top stops) as [c|]; [|by intros [= _ <-]]); (destruct (fires c); [|by intros [= _ <-]]); [done|].
  intros (s1 & H1%trigger_incoming & H)%bind_Some. rewrite <- H1. by eapply IH.
Qed.

Lemma look_price_incoming i cur s s' : look_price clock i cur s = Some s' → incoming_orders s' = incoming_orders s.
Proof.
  unfold look_price. intros (seen & _ & H)%bind_Some. destruct (cur =? seen); [apply (inj Some) in H; by subst s'|].
  apply bind_Some in H as (s1 & H1 & H). apply (inj Some) in H. subst s'. unfold checkAndTriggerSL in H1.
  apply bind_Some in H1 as (ct & _ & H1). rewrite trigger_sells_eq in H1.
  apply bind_Some in H1 as ([sells s2] & H2%trigger_loop_incoming & H1). rewrite trigger_buys_eq in H1.
  apply bind_Some in H1 as ([buys s3] & H3%trigger_loop_incoming & H1). apply (inj Some) in H1. subst s1.
  cbn [incoming_orders set_last_seen set_registry]. congruence.
Qed.

Lemma handle_incoming c s s' : handle_client_order clock junk_price c s = Some s' → incoming_orders s' = incoming_orders s.
Proof.
  unfold handle_client_order. intros (sym & _ & H)%bind_Some. set (c' := set_c_symbol_id _ c) in H.
  destruct (c_symbol_id c' =? UINT32_MAX); [apply (inj Some) in H; by subst s'|]. destruct (c_execution_type c').
  - apply (inj Some) in H. subst s'. reflexivity.
  - apply (inj Some) in H. subst s'. destruct (c_price c' =? 0); reflexivity.
  - unfold registerStopLoss in H. apply bind_Some in H as (ct & _ & H). apply (inj Some) in H. subst s'. reflexivity.
  - apply (inj Some) in H. subst s'. rewrite (sm_incoming _ _ (send_slice_rest clock _ _)). reflexivity.
Qed.

Lemma poll_incoming i mem s t s' : poll_one clock i mem s = Some (t, s') → incoming_orders s' = incoming_orders s.
Proof.
  unfold poll_one. intros (h & _ & H)%bind_Some. destruct (any_new_trade h mem); [|injection H as _ <-; done].
  destruct (get_trade _ _ h mem) as [t' h']. apply bind_Some in H as (t'' & _ & H).
  apply bind_Some in H as (s2 & Hf%check_fill_rest & H). injection H as _ <-. apply (sm_incoming _ _ Hf).
Qed.

(** Only the intake takes from the queue. *)
Lemma micro_incoming mems ltp pc s pc' s' :
  oms_micro clock junk_price mems ltp pc s = Some (pc', s') →
  match pc with
  | AtIntake => ∃ item, pop (incoming_orders s) = Some (item, incoming_orders s')
  | _ => incoming_orders s' = incoming_orders s
  end.
Proof.
  destruct pc as [|i|i]; cbn [oms_micro].
  - intros (s1 & H & H')%bind_Some. injection H' as _ <-. unfold intake in H.
    apply bind_Some in H as ([item q] & Hpop & H). exists item. rewrite Hpop. destruct item as [c|].
    + by rewrite (handle_incoming _ _ _ H).
    + apply (inj Some) in H. by subst s1.
  - destruct (_ <=? i)%nat; [intros H; by injection H as _ <-|]. intros (mem & _ & H)%bind_Some.
    apply bind_Some in H as ([t s1] & H%poll_incoming & H'). by injection H' as _ <-.
  - destruct (_ <=? i)%nat; [intros H; by injection H as _ <-|]. intros (l & _ & H)%bind_Some. apply bind_Some in H as (cur & _ & H).
    apply bind_Some in H as (s1 & H%look_price_incoming & H'). by injection H' as _ <-.
Qed.

(** A turn takes the oldest order of the queue, or leaves the queue alone. *)
Lemma turn_queue n t x x' l :
  turn clock junk_price t x = Some x' → rb_rep n (incoming_orders (sys_oms x)) l →
  ∃ l', rb_rep n (incoming_orders (sys_oms x')) l' ∧ l = taken [turn_label t x] ++ l'.
Proof.
  intros Hturn Hl. assert (incoming_orders (sys_oms x') = incoming_orders (sys_oms x) → turn_label t x = Quiet →
    ∃ l', rb_rep n (incoming_orders (sys_oms x')) l' ∧ l = taken [turn_label t x] ++ l') as Hstay
    by (intros -> ->; by exists l).
  destruct t as [|i]; cbn [turn] in Hturn; cbn [turn_label] in *.
  2: { unfold group_turn in Hturn. apply bind_Some in Hturn as (d & _ & H). apply (inj Some) in H. subst x'. by apply Hstay. }
  unfold oms_turn in Hturn. destruct (sys_outbox x) as [|o os].
  2: { apply bind_Some in Hturn as ([ok d] & _ & H). apply (inj Some) in H. subst x'. by apply Hstay. }
  apply bind_Some in Hturn as ([pc m] & Hm%micro_incoming & H). apply (inj Some) in H. subst x'.
  cbn [sys_oms] in *. destruct (sys_pc x) as [|i|i]; [|by apply Hstay..]. destruct Hm as [item Hpop].
  pose proof (pop_ok _ _ _ Hl) as Hok. destruct l as [|c l].
  - rewrite Hok in Hpop |- *. apply (inj Some), pair_equal_spec in Hpop as [<- <-]. by exists [].
  - destruct Hok as (q & Hok & Hq). rewrite Hok in Hpop |- *. apply (inj Some), pair_equal_spec in Hpop as [<- <-]. by exists l.
Qed.

(** ** The table of descriptors *)

Lemma fds_of_middle p cs1 cn cs2 :
  fds_of p (cs1 ++ cn :: cs2) = fds_of p cs1 ++ (if p (cn_pc cn) then [cn_fd cn] else []) ++ fds_of p cs2.
Proof. unfold fds_of. rewrite omap_app. cbn [omap list_omap]. by destruct (p (cn_pc cn)). Qed.

(** A session changes its own entry. *)
Lemma fds_of_update p cs i cn cn' :
  cs !! i = Some cn → cn_fd cn' = cn_fd cn → (p (cn_pc cn') = true → p (cn_pc cn) = true) →
  fds_of p cs ≡ₚ (if p (cn_pc cn) && negb (p (cn_pc cn')) then [cn_fd cn] else []) ++ fds_of p (<[i := cn']> cs).
Proof.
  intros Hi Hfd Hp. apply list_elem_of_split_length in Hi as (cs1 & cs2 & -> & ->).
  rewrite insert_middle, !fds_of_middle, Hfd. destruct (p (cn_pc cn)), (p (cn_pc cn')); cbn [andb negb app]; try done.
  - symmetry. apply Permutation_middle.
  - by specialize (Hp eq_refl).
Qed.

Lemma fds_of_same p cs i cn cn' :
  cs !! i = Some cn → p (cn_pc cn') = p (cn_pc cn) → cn_fd cn' = cn_fd cn → fds_of p (<[i := cn']> cs) = fds_of p cs.
Proof.
  intros Hi Hpc Hfd. apply list_elem_of_split_length in Hi as (cs1 & cs2 & -> & ->).
  by rewrite insert_middle, !fds_of_middle, Hpc, Hfd.
Qed.

Lemma erase_first_found fd l : fd ∈ l → l ≡ₚ fd :: erase_first fd l.
Proof.
  induction l as [|x l IH]; [by intros ?%elem_of_nil|]. cbn [erase_first]. destruct (Z.eqb_spec x fd) as [->|Hne]; [done|].
  intros [?|Hin]%elem_of_cons; [congruence|]. rewrite (IH Hin) at 1. apply Permutation_swap.
Qed.

(** The pass of a session and the two tables. *)
Lemma session_fds down ev cs i cn cn' s m l :
  cs !! i = Some cn → cn_fd cn' = cn_fd cn → cn_pc cn ≠ Gone →
  session_turn down ev (cn_pc cn) s = Some (cn_pc cn', m) → NoDup (open_fds cs) → l ≡ₚ table_fds cs →
  NoDup (open_fds (<[i := cn']> cs)) ∧
  match cn_pc cn' with Gone => erase_first (cn_fd cn) l | _ => l end ≡ₚ table_fds (<[i := cn']> cs).
Proof.
  intros Hi Hfd Hne Hturn Hnd Hl.
  assert ((fd_open (cn_pc cn') = true → fd_open (cn_pc cn) = true) ∧ in_table (cn_pc cn) = true) as [Ho Ht].
  { destruct (cn_pc cn) as [acc|c| |]; [by split..| |done]. split; [|done]. by injection Hturn as <- _. }
  pose proof (fds_of_update fd_open cs i cn cn' Hi Hfd Ho) as H1.
  pose proof (fds_of_update in_table cs i cn cn' Hi Hfd (λ _, Ht)) as H2. rewrite Ht in H2. cbn [andb] in H2. split.
  - unfold open_fds in *. rewrite H1 in Hnd. by apply NoDup_app in Hnd as (_ & _ & ?).
  - unfold table_fds in *. destruct (cn_pc cn') as [acc|c| |]; cbn [in_table negb app] in H2; [by rewrite Hl, H2..|].
    assert (cn_fd cn ∈ l) as Hin by (rewrite Hl, H2; left). pose proof (erase_first_found _ _ Hin) as E.
    apply (Permutation_cons_inv (a := cn_fd cn)). by rewrite <- E, Hl.
Qed.

(** ** The invariant *)

Context (n : Z).

Record ex_inv tr e : Prop := {
  ei_conns i cn : ex_conns e !! i = Some cn → conn_inv (written i tr) (handed i tr) cn;
  ei_fit i : Forall client_fit (written i tr);
  ei_fresh i : ex_conns e !! i = None → written i tr = [] ∧ handed i tr = [];
  ei_queue : ∃ l, rb_rep n (incoming_orders (sys_oms (ex_system e))) l ∧ arrived tr = taken tr ++ l;
  ei_active : active_client_fds (ex_server e) ≡ₚ table_fds (ex_conns e);
  ei_threads : client_threads (ex_server e) = cn_fd <$> ex_conns e;
  ei_nodup : NoDup (open_fds (ex_conns e))
}.

Lemma written_snoc i tr l : written i (tr ++ [l]) = written i tr ++ written i [l].
Proof. apply omap_app. Qed.
Lemma handed_snoc i tr l : handed i (tr ++ [l]) = handed i tr ++ handed i [l].
Proof. apply omap_app. Qed.
Lemma arrived_snoc tr l : arrived (tr ++ [l]) = arrived tr ++ arrived [l].
Proof. apply omap_app. Qed.
Lemma taken_snoc tr l : taken (tr ++ [l]) = taken tr ++ taken [l].
Proof. apply omap_app. Qed.

(** A step that concerns connection [i] only. *)
Lemma ex_inv_conn tr e l i cn cn' x srv :
  ex_inv tr e → ex_conns e !! i = Some cn → cn_fd cn' = cn_fd cn →
  (∀ j, j ≠ i → written j [l] = [] ∧ handed j [l] = []) → Forall client_fit (written i [l]) →
  conn_inv (written i (tr ++ [l])) (handed i (tr ++ [l])) cn' →
  (∃ q, rb_rep n (incoming_orders (sys_oms x)) q ∧ arrived (tr ++ [l]) = taken (tr ++ [l]) ++ q) →
  active_client_fds srv ≡ₚ table_fds (<[i := cn']> (ex_conns e)) → NoDup (open_fds (<[i := cn']> (ex_conns e))) →
  client_threads srv = client_threads (ex_server e) →
  ex_inv (tr ++ [l]) (mkExchange x srv (<[i := cn']> (ex_conns e))).
Proof.
  intros [H1 H2 H3 H4 H5 H6 H7] Hi Hfd Hoth Hfit Hcn Hq Ha Hnd Ht. split; cbn [ex_conns ex_system ex_server]; try done.
  - intros j cj Hj. apply list_lookup_insert_Some in Hj as [(<- & <- & _)|(Hne & Hj)]; [done|].
    destruct (Hoth j ltac:(done)) as [Hw Hh]. rewrite written_snoc, handed_snoc, Hw, Hh, !app_nil_r. by apply H1.
  - intros j. rewrite written_snoc. apply Forall_app. split; [done|].
    destruct (decide (j = i)) as [->|Hne]; [done|]. by rewrite (proj1 (Hoth j Hne)).
  - intros j Hj. assert (j ≠ i) as Hne by (intros ->; rewrite list_lookup_insert_eq in Hj by (by eapply lookup_lt_Some); done).
    rewrite list_lookup_insert_ne in Hj by done. destruct (H3 j Hj) as [Hw Hh], (Hoth j Hne) as [Hw' Hh'].
    by rewrite written_snoc, handed_snoc, Hw, Hh, Hw', Hh'.
  - rewrite Ht, H6. apply list_eq. intros j. rewrite !list_lookup_fmap, list_lookup_insert. case_decide as Hd; [|done].
    destruct Hd as [<- _]. rewrite Hi. cbn. by rewrite Hfd.
Qed.

(** A step that concerns none. *)
Lemma ex_inv_none tr e l e' :
  ex_inv tr e → (∀ j, written j [l] = [] ∧ handed j [l] = []) →
  (∃ q, rb_rep n (incoming_orders (sys_oms (ex_system e'))) q ∧ arrived (tr ++ [l]) = taken (tr ++ [l]) ++ q) →
  ex_conns e' = ex_conns e → active_client_fds (ex_server e') = active_client_fds (ex_server e) →
  client_threads (ex_server e') = client_threads (ex_server e) → ex_inv (tr ++ [l]) e'.
Proof.
  intros [H1 H2 H3 H4 H5 H6 H7] Hoth Hq Ec Ea Et. assert (∀ j, written j (tr ++ [l]) = written j tr ∧ handed j (tr ++ [l]) = handed j tr) as Hj.
  { intros j. destruct (Hoth j) as [Hw Hh]. by rewrite written_snoc, handed_snoc, Hw, Hh, !app_nil_r. }
  split; rewrite ?Ec, ?Ea, ?Et; try done; intros j; destruct (Hj j) as [E1 E2]; rewrite ?E1, ?E2; by auto.
Qed.

Lemma quiet_queue tr q : arrived tr = taken tr ++ q → arrived (tr ++ [Quiet]) = taken (tr ++ [Quiet]) ++ q.
Proof. intros H. by rewrite arrived_snoc, taken_snoc, !app_nil_r. Qed.

(** Handing an order over. *)
Lemma enqueue_queue tr s c i ok m l :
  rb_rep n (incoming_orders s) l → arrived tr = taken tr ++ l → enqueueClientOrder c s = Some (ok, m) →
  ∃ q, rb_rep n (incoming_orders m) q ∧
    arrived (tr ++ [if ok : bool then Handed i c else Quiet]) = taken (tr ++ [if ok then Handed i c else Quiet]) ++ q.
Proof.
  intros Hl Ht Henq. unfold enqueueClientOrder in Henq. apply bind_Some in Henq as ([ok' q] & Hpush & H). injection H as -> <-.
  pose proof (push_ok _ _ _ c Hl) as Hok. destruct (_ =? _).
  - rewrite Hok in Hpush. injection Hpush as <- <-. exists l. split; [done|by apply quiet_queue].
  - destruct Hok as (q' & Hok & Hq'). rewrite Hok in Hpush. injection Hpush as <- <-. exists (l ++ [c]). split; [done|].
    rewrite arrived_snoc, taken_snoc, Ht. cbn. by rewrite app_nil_r, app_assoc.
Qed.

Lemma accept_inv tr e fd :
  ex_inv tr e → 0 <= fd → (fd ∉ open_fds (ex_conns e)) → srv_shutdown (ex_server e) = false →
  ex_inv (tr ++ [Quiet]) (mkExchange (ex_system e) (accept_client fd (ex_server e))
    (ex_conns e ++ [mkConn fd [] true (Reading [])])).
Proof.
  intros [Hcs Hfit Hfr (q & Hq & Htr) Hac Hth Hnd] Hfd Hnew Hdown.
  assert (∀ p, p (Reading []) = true → fds_of p (ex_conns e ++ [mkConn fd [] true (Reading [])]) = fds_of p (ex_conns e) ++ [fd]) as Ho
    by (intros p Hp; rewrite fds_of_middle; cbn [cn_pc cn_fd]; by rewrite Hp).
  assert (∀ j, written j (tr ++ [Quiet]) = written j tr ∧ handed j (tr ++ [Quiet]) = handed j tr) as Hj
    by (intros j; by rewrite written_snoc, handed_snoc, !app_nil_r).
  unfold accept_client. rewrite Hdown. destruct (Z.ltb_spec fd 0) as [|_]; [lia|].
  split; cbn [ex_conns ex_system ex_server active_client_fds client_threads].
  - intros i cn Hi. destruct (Hj i) as [-> ->]. apply lookup_app_Some in Hi as [Hi|[Hge Hi]]; [by apply Hcs|].
    apply list_lookup_singleton_Some in Hi as [_ <-]. destruct (Hfr i) as [-> ->]; [by apply lookup_ge_None|].
    exists [], []. unfold scrap, sizeof_ClientOrder. cbn. split_and!; [done|done|lia|done|lia].
  - intros i. by destruct (Hj i) as [-> _].
  - intros i Hi. destruct (Hj i) as [-> ->]. apply Hfr. apply lookup_ge_None in Hi. rewrite length_app in Hi.
    apply lookup_ge_None. lia.
  - exists q. split; [done|by apply quiet_queue].
  - unfold table_fds. by rewrite Ho, Hac.
  - by rewrite fmap_app, Hth.
  - unfold open_fds. rewrite Ho by done. apply NoDup_app. split; [done|]. split; [|apply NoDup_singleton].
    intros x Hx ->%list_elem_of_singleton. done.
Qed.

Lemma write_inv tr e i cn c :
  ex_inv tr e → ex_conns e !! i = Some cn → cn_open cn = true → client_fit c →
  ex_inv (tr ++ [Wrote i c]) (mkExchange (ex_system e) (ex_server e)
    (<[i := mkConn (cn_fd cn) (cn_wire cn ++ encode_client c) true (cn_pc cn)]> (ex_conns e))).
Proof.
  intros Hinv Hi Ho Hc. pose proof Hinv as [Hcs Hfit Hfr (q & Hq & Htr) Hac Hth Hnd].
  assert (written i [Wrote i c] = [c]) as Hw by (unfold written; cbn; by rewrite decide_True).
  assert (handed i [Wrote i c] = []) as Hh by done.
  eapply ex_inv_conn; try done; cbn [cn_fd cn_pc].
  - intros j Hne. split; [|done]. unfold written. cbn. by rewrite decide_False.
  - rewrite Hw. by apply Forall_singleton.
  - rewrite written_snoc, handed_snoc, Hw, Hh, app_nil_r. by apply conn_write; [apply Hcs|].
  - exists q. split; [done|]. by rewrite arrived_snoc, taken_snoc, !app_nil_r.
  - unfold table_fds. by rewrite (fds_of_same _ _ _ _ _ Hi).
  - unfold open_fds. by rewrite (fds_of_same _ _ _ _ _ Hi).
Qed.

Lemma hang_up_inv tr e i cn bs :
  ex_inv tr e → ex_conns e !! i = Some cn → cn_open cn = true → (length bs < sizeof_ClientOrder)%nat →
  ex_inv (tr ++ [Quiet]) (mkExchange (ex_system e) (ex_server e)
    (<[i := mkConn (cn_fd cn) (cn_wire cn ++ bs) false (cn_pc cn)]> (ex_conns e))).
Proof.
  intros Hinv Hi Ho Hbs. pose proof Hinv as [Hcs Hfit Hfr (q & Hq & Htr) Hac Hth Hnd].
  apply (ex_inv_conn tr e Quiet i cn); try done; cbn [cn_fd cn_pc].
  - rewrite written_snoc, handed_snoc, !app_nil_r. by apply conn_hang_up; [apply Hcs|..].
  - exists q. split; [done|by apply quiet_queue].
  - unfold table_fds. by rewrite (fds_of_same _ _ _ _ _ Hi).
  - unfold open_fds. by rewrite (fds_of_same _ _ _ _ _ Hi).
Qed.

Lemma session_inv tr e i cn ev pc m :
  ex_inv tr e → ex_conns e !! i = Some cn → cn_pc cn ≠ Gone →
  (∀ acc, cn_pc cn = Reading acc → recv_ok acc cn ev) →
  session_turn (srv_shutdown (ex_server e)) ev (cn_pc cn) (sys_oms (ex_system e)) = Some (pc, m) →
  ex_inv (tr ++ [session_label i (cn_pc cn) pc]) (mkExchange (set_oms m (ex_system e))
    (match pc with Gone => removeClientFd (cn_fd cn) (ex_server e) | _ => ex_server e end)
    (<[i := mkConn (cn_fd cn) (wire_after (srv_shutdown (ex_server e)) ev cn) (cn_open cn) pc]> (ex_conns e))) ∧
  (m = sys_oms (ex_system e) ∨ ∃ c ok, client_fit c ∧ enqueueClientOrder c (sys_oms (ex_system e)) = Some (ok, m)).
Proof.
  intros Hinv Hi Hne Hrecv Hturn. pose proof Hinv as [Hcs Hfit Hfr (q & Hq & Htr) Hac Hth Hnd].
  set (cn' := mkConn (cn_fd cn) (wire_after (srv_shutdown (ex_server e)) ev cn) (cn_open cn) pc).
  destruct (session_conn _ _ cn i _ ev pc _ m (Hfit i) (Hcs i cn Hi) Hrecv Hturn Hne) as [Hcn Hm]. fold cn' in Hcn.
  destruct (session_fds _ ev (ex_conns e) i cn cn' _ m _ Hi eq_refl Hne Hturn Hnd Hac) as [Hnd' Ho].
  set (l := session_label i (cn_pc cn) pc) in *.
  assert (∀ j, written j [l] = [] ∧ (j ≠ i → handed j [l] = [])) as Hl.
  { intros j. unfold l, session_label. destruct (cn_pc cn) as [|c| |], pc; (split; [done|]); try done.
    intros Hj. unfold handed. cbn. by rewrite decide_False. }
  split.
  - eapply ex_inv_conn; try done.
    + intros j Hj. split; by apply Hl.
    + by rewrite (proj1 (Hl i)).
    + rewrite written_snoc, handed_snoc, (proj1 (Hl i)), app_nil_r. exact Hcn.
    + destruct Hm as [[-> ->]|(c & ok & _ & Henq & ->)]; [exists q; split; [done|by apply quiet_queue]|].
      by eapply enqueue_queue.
    + cbn [cn' cn_pc] in Ho. by destruct pc.
    + by destruct pc.
  - destruct Hm as [[-> _]|(c & ok & Hc & Henq & _)]; [by left|right; by exists c, ok].
Qed.

(** Every step keeps the invariant, and is a step of [System] or none. *)
Lemma ex_step_inv tr e l e' :
  ex_inv tr e → ex_step e l e' →
  ex_inv (tr ++ [l]) e' ∧ (ex_system e' = ex_system e ∨ sys_step clock junk_price (ex_system e) (ex_system e')).
Proof.
  intros Hinv Hst. destruct Hst as [fd Hfd Hnew Hdown|i cn c Hi Hopen Hc|i cn bs Hi Hopen Hbs|i cn ev pc m Hi Hne Hrecv Hturn|t x Ht Hturn|].
  - split; [by apply accept_inv|by left].
  - split; [by apply write_inv|by left].
  - split; [by apply hang_up_inv|by left].
  - destruct (session_inv tr e i cn ev pc m Hinv Hi Hne Hrecv Hturn) as [Hinv' Hm]. split; [done|].
    destruct Hm as [->|(c & ok & Hc & Henq)]; [left; by destruct (ex_system e)|right; by eapply step_client].
  - destruct (ei_queue _ _ Hinv) as (q & Hq & Htr). destruct (turn_queue n t _ _ q Hturn Hq) as (q' & Hq' & ->).
    split; [|right; by eapply step_turn].
    pose proof (turn_label_cases t (ex_system e)) as Hl.
    apply (ex_inv_none tr e); try done; [intros j; by destruct Hl as [->|[c ->]]|]. exists q'. split; [done|].
    rewrite arrived_snoc, taken_snoc, Htr, <- !app_assoc. f_equal. destruct Hl as [->|[c ->]]; by rewrite app_nil_r.
  - split; [|by left]. destruct (ei_queue _ _ Hinv) as (q & Hq & Htr). apply (ex_inv_none tr e); try done.
    exists q. split; [done|by apply quiet_queue].
Qed.

Lemma ex_run_inv e0 tr e :
  ex_inv [] e0 → ex_run e0 tr e →
  ex_inv tr e ∧ rtc (sys_step clock junk_price) (ex_system e0) (ex_system e).
Proof.
  intros H0. induction 1 as [|tr e l e' _ [IH Hrun] Hst]; [done|].
  destruct (ex_step_inv tr e l e' IH Hst) as [Hinv Hx]. split; [done|].
  destruct Hx as [->|Hx]; [done|]. by eapply rtc_r.
Qed.
End exchange.

(** * Limit and market orders, from the wire to the engine *)

Definition simple (c : ClientOrder) : Prop := c_execution_type c = CLIMIT ∨ c_execution_type c = CMARKET.

(** The symbol id the OMS finds for an order. *)
Definition symbol_of (tbl : gmap Z Z) (c : ClientOrder) : Z := u32 (find_id tbl (default [] (c_string (c_symbol c)))).

(** Orders for unknown symbols and limit orders without a price are dropped. *)
Definition accepted (tbl : gmap Z Z) (c : ClientOrder) : bool :=
  negb (symbol_of tbl c =? UINT32_MAX) && negb (match c_execution_type c with CLIMIT => c_price c =? 0 | _ => false end).

Section simple.
Context (clock : nat → Z) (junk_price boot : Z) (tbl : gmap Z Z).
Implicit Types (s : OMS) (tk : list ClientOrder).

(** What becomes of the [k]-th accepted order. *)
Definition order_for (k : nat) (c : ClientOrder) : Order :=
  let market := match c_execution_type c with CMARKET => true | _ => false end in
  mkOrder (u64 (boot + Z.of_nat k)) (if market then MARKET else LIMIT) (if market then junk_price else c_price c)
    (clock k) (c_trader_id c) (c_type c) (symbol_of tbl c) (c_quantity c) (c_client_order_id c).

Definition orders_for tk : list Order := imap order_for (filter (λ c, accepted tbl c = true) tk).

(** An OMS that has taken the orders [tk], all of them simple. *)
Record plain_oms tk s : Prop := {
  po_table : symbolLookupTable s = tbl;
  po_children : child_to_parent s = ∅;
  po_registry : Forall (λ ct, ct = mkStops [] []) (stop_loss_registry s);
  po_id : next_oms_order_id s = u64 (boot + Z.of_nat (length (sent s)));
  po_clock : clock_reads s = length (sent s);
  po_sent : sent s = orders_for tk
}.

Lemma orders_for_snoc tk c :
  orders_for (tk ++ [c]) = orders_for tk ++ (if accepted tbl c then [order_for (length (orders_for tk)) c] else []).
Proof.
  unfold orders_for. rewrite filter_app, imap_app. f_equal. rewrite filter_cons, filter_nil.
  destruct (accepted tbl c); [|done]. rewrite decide_True by done. cbn. by rewrite Nat.add_0_r, length_imap.
Qed.

Lemma forward_plain tk s c ty price :
  plain_oms tk s → accepted tbl c = true → simple c →
  ty = (match c_execution_type c with CMARKET => MARKET | _ => LIMIT end) →
  price = (match c_execution_type c with CMARKET => junk_price | _ => c_price c end) →
  plain_oms (tk ++ [c]) (forward clock ty price (set_c_symbol_id (symbol_of tbl c) c) s).
Proof.
  intros [Ht Hc Hr Hi Hk Hs] Hacc Hsim -> ->. split; try done.
  - cbn [forward sendToEngine sent set_sent_clock next_oms_order_id set_oms_id]. rewrite Hi, length_app. cbn [length].
    unfold u64. rewrite Zplus_mod_idemp_l. f_equal. lia.
  - cbn [forward sendToEngine sent set_sent_clock clock_reads set_oms_id]. rewrite length_app, Hk. cbn [length]. lia.
  - rewrite orders_for_snoc, Hacc, <- Hs. unfold forward, sendToEngine. cbn [sent set_sent_clock set_oms_id]. f_equal.
    f_equal. unfold order_for, getCurrentTimestamp. cbn [clock_reads set_oms_id]. rewrite Hi, Hk.
    by destruct Hsim as [-> | ->].
Qed.

(** The intake of a simple order. *)
Lemma handle_simple c s sym :
  simple c → c_string (c_symbol c) = Some sym →
  handle_client_order clock junk_price c s =
  let i := u32 (find_id (symbolLookupTable s) sym) in
  Some (if i =? UINT32_MAX then s
        else match c_execution_type c with
             | CMARKET => forward clock MARKET junk_price (set_c_symbol_id i c) s
             | _ => if c_price c =? 0 then s else forward clock LIMIT (c_price c) (set_c_symbol_id i c) s
             end).
Proof.
  intros Hsim Hsym. unfold handle_client_order. rewrite Hsym. cbn [mbind option_bind]. cbv zeta.
  generalize (u32 (find_id (symbolLookupTable s) sym)). intros i. cbn [c_symbol_id c_execution_type c_price set_c_symbol_id].
  destruct (i =? UINT32_MAX); [done|]. by destruct Hsim as [-> | ->].
Qed.

Lemma accepted_eq c :
  accepted tbl c = negb (symbol_of tbl c =? UINT32_MAX) && negb (match c_execution_type c with CLIMIT => c_price c =? 0 | _ => false end).
Proof. reflexivity. Qed.

Lemma handle_plain tk s s' c :
  plain_oms tk s → simple c → handle_client_order clock junk_price c s = Some s' → plain_oms (tk ++ [c]) s'.
Proof.
  intros Hp Hsim H. pose proof H as H'. unfold handle_client_order in H'. apply bind_Some in H' as (sym & Hsym & _).
  rewrite (handle_simple c s sym Hsim Hsym) in H. apply (inj Some) in H. subst s'.
  assert (u32 (find_id (symbolLookupTable s) sym) = symbol_of tbl c) as ->
    by (unfold symbol_of; by rewrite Hsym, (po_table _ _ Hp)).
  pose proof (forward_plain tk s c) as Hfw. pose proof (orders_for_snoc tk c) as Hsn.
  assert (accepted tbl c = false → plain_oms (tk ++ [c]) s) as Hdrop.
  { intros Hacc. rewrite Hacc, app_nil_r in Hsn. destruct Hp. split; try done. by rewrite Hsn. }
  rewrite accepted_eq in Hfw, Hdrop. destruct (symbol_of tbl c =? UINT32_MAX); [by apply Hdrop|].
  pose proof Hsim as [Ety|Ety]; rewrite Ety in *; [destruct (c_price c =? 0); [by apply Hdrop|]|]; by apply Hfw.
Qed.

(** What a step that sends nothing leaves alone. *)
Lemma plain_frame tk s s' :
  plain_oms tk s → symbolLookupTable s' = symbolLookupTable s → child_to_parent s' = child_to_parent s →
  stop_loss_registry s' = stop_loss_registry s → next_oms_order_id s' = next_oms_order_id s →
  clock_reads s' = clock_reads s → sent s' = sent s → plain_oms tk s'.
Proof. intros [H1 H2 H3 H4 H5 H6] E1 E2 E3 E4 E5 E6. split; congruence. Qed.

Lemma check_fill_plain s t : child_to_parent s = ∅ → check_fill clock t s = Some s.
Proof.
  intros Hc. assert (∀ c q, process_iceberg_leg clock c q s = Some s) as Hleg.
  { intros c q. unfold process_iceberg_leg. by rewrite Hc, lookup_empty. }
  unfold check_fill. destruct (has_iceberg_bit (t_buy_order_id t)), (has_iceberg_bit (t_sell_order_id t)); cbn [negb andb];
    rewrite ?Hleg; cbn [mbind option_bind]; rewrite ?Hleg; done.
Qed.

Lemma poll_plain tk i mem s t s' : plain_oms tk s → poll_one clock i mem s = Some (t, s') → plain_oms tk s'.
Proof.
  intros Hp. unfold poll_one. intros (h & _ & H)%bind_Some. destruct (any_new_trade h mem); [|injection H as _ <-; done].
  destruct (get_trade _ _ h mem) as [t' h']. apply bind_Some in H as (t'' & _ & H).
  rewrite check_fill_plain in H by apply Hp. cbn [mbind option_bind] in H. injection H as _ <-. by eapply plain_frame.
Qed.

Lemma look_price_plain tk i cur s s' : plain_oms tk s → look_price clock i cur s = Some s' → plain_oms tk s'.
Proof.
  intros Hp. unfold look_price. intros (seen & _ & H)%bind_Some. destruct (cur =? seen); [apply (inj Some) in H; by subst s'|].
  apply bind_Some in H as (s1 & H1 & H). apply (inj Some) in H. subst s'. unfold checkAndTriggerSL in H1.
  rewrite Nat2Z.id in H1. apply bind_Some in H1 as (ct & Hct & H1).
  pose proof (Forall_lookup_1 _ _ _ _ (po_registry _ _ Hp) Hct) as Hnil. cbn in Hnil. subst ct.
  cbn [sell_stops buy_stops length trigger_sells trigger_buys heap_top mbind option_bind] in H1.
  apply (inj Some) in H1. subst s1. eapply plain_frame; try done. cbn [stop_loss_registry set_last_seen set_registry].
  by apply list_insert_id.
Qed.

Lemma turn_plain tk t x x' :
  plain_oms tk (sys_oms x) → (∀ c, turn_label t x = Took c → simple c) → turn clock junk_price t x = Some x' →
  plain_oms (tk ++ taken [turn_label t x]) (sys_oms x').
Proof.
  intros Hp Hsim Hturn.
  assert (sys_oms x' = sys_oms x → turn_label t x = Quiet → plain_oms (tk ++ taken [turn_label t x]) (sys_oms x')) as Hstay
    by (intros -> ->; by rewrite app_nil_r).
  destruct t as [|i]; cbn [turn] in Hturn; cbn [turn_label] in *.
  2: { unfold group_turn in Hturn. apply bind_Some in Hturn as (d & _ & H). apply (inj Some) in H. subst x'. by apply Hstay. }
  unfold oms_turn in Hturn. destruct (sys_outbox x) as [|o os].
  2: { apply bind_Some in Hturn as ([ok d] & _ & H). apply (inj Some) in H. subst x'. by apply Hstay. }
  apply bind_Some in Hturn as ([pc m] & Hm & H). apply (inj Some) in H. subst x'. cbn [sys_oms] in *. clear Hstay.
  destruct (sys_pc x) as [|i|i]; cbn [oms_micro] in Hm.
  - apply bind_Some in Hm as (s1 & Hin & H). injection H as _ <-. unfold intake in Hin.
    apply bind_Some in Hin as ([item q] & Hpop & H). rewrite Hpop in *.
    assert (plain_oms tk (set_incoming q (sys_oms x))) as Hp' by by eapply plain_frame.
    destruct item as [c|]; [|apply (inj Some) in H; subst s1; by rewrite app_nil_r].
    eapply handle_plain; [exact Hp'|by apply Hsim|exact H].
  - rewrite app_nil_r. destruct (_ <=? i)%nat; [by injection Hm as _ <-|]. apply bind_Some in Hm as (mem & _ & Hm).
    apply bind_Some in Hm as ([t s1] & Hpoll & H). injection H as _ <-. by eapply poll_plain.
  - rewrite app_nil_r. destruct (_ <=? i)%nat; [by injection Hm as _ <-|]. apply bind_Some in Hm as (l & _ & Hm).
    apply bind_Some in Hm as (cur & _ & Hm). apply bind_Some in Hm as (s1 & Hlook & H). injection H as _ <-.
    by eapply look_price_plain.
Qed.

(** Orders taken were written. *)
Lemma arrived_written n tr e c : ex_inv n tr e → c ∈ arrived tr → ∃ i, c ∈ written i tr.
Proof.
  intros Hinv Hc. unfold arrived in Hc. apply list_elem_of_omap in Hc as (l & Hl & Hc). destruct l as [|i c'| |]; try done.
  injection Hc as ->. exists i. assert (c ∈ handed i tr) as Hh.
  { unfold handed. apply list_elem_of_omap. exists (Handed i c). split; [done|]. cbn. by rewrite decide_True. }
  assert (handed i tr `prefix_of` written i tr) as [k ->]; [|apply elem_of_app; by left].
  destruct (ex_conns e !! i) as [cn|] eqn:Hi.
  - pose proof (ei_conns _ _ _ Hinv i cn Hi) as Hcn. unfold conn_inv in Hcn.
    destruct (cn_pc cn); [destruct Hcn as (rest & tail & -> & _); by eexists..|done|done].
  - destruct (ei_fresh _ _ _ Hinv i Hi) as [_ Hn]. rewrite Hn in Hh. by apply elem_of_nil in Hh.
Qed.

Lemma ex_step_plain n tr e l e' :
  ex_inv n tr e → ex_step clock junk_price e l e' → (∀ i, Forall simple (written i tr)) →
  plain_oms (taken tr) (sys_oms (ex_system e)) → plain_oms (taken (tr ++ [l])) (sys_oms (ex_system e')).
Proof.
  intros Hinv Hst Hsim Hp. rewrite taken_snoc.
  destruct Hst as [fd Hfd Hnew Hdown|i cn c Hi Hopen Hc|i cn bs Hi Hopen Hbs|i cn ev pc m Hi Hne Hrecv Hturn|t x Ht Hturn|];
    try (rewrite app_nil_r; exact Hp).
  - destruct (session_inv n tr e i cn ev pc m Hinv Hi Hne Hrecv Hturn) as [_ Hm].
    assert (taken [session_label i (cn_pc cn) pc] = []) as -> by (unfold session_label; by destruct (cn_pc cn), pc).
    rewrite app_nil_r. destruct Hm as [->|(c & ok & _ & Henq)]; [exact Hp|]. unfold enqueueClientOrder in Henq.
    apply bind_Some in Henq as ([b q] & _ & H). injection H as _ <-. by eapply plain_frame.
  - apply turn_plain; [done| |done]. intros c Hl. destruct (ei_queue _ _ _ Hinv) as (q & Hq & Htr).
    destruct (turn_queue clock junk_price n t _ _ q Hturn Hq) as (q' & _ & Hq').
    destruct (arrived_written n tr e c Hinv) as [i Hi]; [|pose proof (Hsim i) as H; rewrite Forall_forall in H; by apply H].
    rewrite Htr, Hq', Hl. cbn. apply elem_of_app. right. left.
Qed.

Lemma ex_run_plain n e0 tr e :
  ex_inv n [] e0 → plain_oms [] (sys_oms (ex_system e0)) → ex_run clock junk_price e0 tr e →
  (∀ i, Forall simple (written i tr)) → plain_oms (taken tr) (sys_oms (ex_system e)).
Proof.
  intros H0 Hp0. induction 1 as [|tr e l e' Hrun IH Hst]; intros Hsim; [done|].
  destruct (ex_run_inv clock junk_price n e0 tr e H0 Hrun) as [Hinv _].
  assert (∀ i, Forall simple (written i tr)) as Hsim0
    by (intros i; specialize (Hsim i); rewrite written_snoc in Hsim; by apply Forall_app in Hsim as [? _]).
  eapply ex_step_plain; [done|done|done|by apply IH].
Qed.
End simple.

(** * Every run from the start of the exchange *)

Definition ex_start (x0 : System) : Exchange := mkExchange x0 OrderReceivingServer_new [].

Section boot.
Context (engine_capacity oms_capacity boot : Z) (pools : Z → Z → list OrderNode) (totals : Z → Z → Z * Z) (lower upper : list Z).
Context (cap : nat) (symbols : list (list Z * Z)).
Context (clock : nat → Z) (junk_price : Z) (Hclock : ∀ k, is_u64 (clock k)) (Hjunk : is_u64 junk_price).
Context (n nq : Z) (Hbk : boot_ok engine_capacity oms_capacity boot pools totals lower upper cap symbols n nq).

Lemma boot_oms x0 :
  boot_system engine_capacity oms_capacity boot pools totals lower upper symbols = Some x0 →
  OMS_new oms_capacity boot symbols = Some (sys_oms x0).
Proof.
  unfold boot_system, System_new. intros (d & _ & H)%bind_Some. apply bind_Some in H as (m & Hm & H).
  apply (inj Some) in H. subst x0. exact Hm.
Qed.

Lemma start_inv x0 :
  boot_system engine_capacity oms_capacity boot pools totals lower upper symbols = Some x0 → ex_inv n [] (ex_start x0).
Proof.
  intros H0%boot_oms. split; try done; try (by constructor). exists []. split; [|done].
  unfold OMS_new in H0. apply bind_Some in H0 as (t & _ & H0). apply (inj Some) in H0. cbn [ex_start ex_system]. rewrite <- H0.
  apply RingBuffer_new_rep, Hbk.
Qed.

Lemma start_plain x0 tbl :
  boot_system engine_capacity oms_capacity boot pools totals lower upper symbols = Some x0 → load_lookup symbols = Some tbl →
  plain_oms clock junk_price boot tbl [] (sys_oms x0).
Proof.
  intros H0%boot_oms Ht. unfold OMS_new in H0. rewrite Ht in H0. apply (inj Some) in H0. rewrite <- H0.
  split; oms_cbn; try done; [by apply Forall_replicate|]. cbn [length Z.of_nat].
  rewrite Z.add_0_r, u64_small; [done|apply Hbk].
Qed.

(** C15: The sessions of the server hand over exactly what the clients write:
    in every interleaving of clients whose orders are [client_fit], sessions,
    OMS thread and group threads,
    however TCP cuts the bytes, the orders handed to the OMS from a connection
    are, in order, the first ones written to it, and the others are on the
    connection; the OMS takes the orders of all connections in the order in
    which they were handed over; the table of descriptors holds exactly
    those of the sessions that have not taken theirs out, of which the open
    ones are distinct; every pass of a session is defined; and the part behind
    the server makes a run of the exchange without one. *)
Theorem exchange_sessions x0 tr e :
  boot_system engine_capacity oms_capacity boot pools totals lower upper symbols = Some x0 →
  ex_run clock junk_price (ex_start x0) tr e → small boot (ex_system e) →
  rtc (sys_step clock junk_price) x0 (ex_system e) ∧
  (∀ i cn, ex_conns e !! i = Some cn → conn_inv (written i tr) (handed i tr) cn ∧
     ∀ down ev, is_Some (session_turn down ev (cn_pc cn) (sys_oms (ex_system e)))) ∧
  (∃ l, rb_rep n (incoming_orders (sys_oms (ex_system e))) l ∧ arrived tr = taken tr ++ l) ∧
  (∀ c, c ∈ arrived tr → ∃ i, c ∈ written i tr) ∧
  active_client_fds (ex_server e) ≡ₚ table_fds (ex_conns e) ∧ NoDup (open_fds (ex_conns e)).
Proof.
  intros H0 Hrun Hsm. destruct (ex_run_inv clock junk_price n (ex_start x0) tr e (start_inv x0 H0) Hrun) as [Hinv Hsys].
  destruct (reachable_rep _ _ _ _ _ _ _ _ _ clock junk_price Hclock Hjunk n nq Hbk x0 (ex_system e) H0 Hsys Hsm)
    as (_ & f & _ & Hr). clear H0 Hrun. split; [done|].
  split; [|split; [apply Hinv|split; [intros c; by eapply arrived_written|split; apply Hinv]]].
  intros i cn Hi. pose proof (ei_conns _ _ _ Hinv i cn Hi) as Hcn. split; [done|]. intros down ev.
  destruct (cn_pc cn) as [acc|c| |] eqn:Hpc; cbn [session_turn]; [|destruct down; [by eexists|]|by eexists..].
  - destruct down; [by eexists|]. destruct ev; [case_bool_decide; by eexists|by eexists..].
  - assert (client_fit c) as Hc.
    { unfold conn_inv in Hcn. rewrite Hpc in Hcn. destruct Hcn as (rest & tail & Hw & _). pose proof (ei_fit _ _ _ Hinv i) as Hf.
      rewrite Hw in Hf. apply Forall_app in Hf as [_ Hf]. by apply Forall_cons in Hf as [? _]. }
    destruct (enqueue_good n c _ (sr_oms _ _ _ _ _ Hr) Hc) as (ok & m & -> & _). cbn [mbind option_bind]. by eexists.
Qed.

End boot.

(** * Witnesses *)

(** A client connects and writes a limit order, which arrives in two pieces,
    is handed over, taken in and dispatched. *)
Definition demo_bytes : bytes := encode_client demo_limit.
Definition demo_srv : OrderReceivingServer := accept_client 5 OrderReceivingServer_new.
Definition demo_conn (w : bytes) (pc : session_pc) : list conn := [mkConn 5 w true pc].
Definition demo_taken : System := default no_system (turn (λ _, 7) 0 OmsThread demo_received).
Definition demo_sent : System := default no_system (turn (λ _, 7) 0 OmsThread demo_taken).
Definition demo_trace : list label :=
  [Quiet; Wrote 0 demo_limit; Quiet; Quiet; Handed 0 demo_limit; Took demo_limit; Quiet].
Definition demo_exchange : Exchange := mkExchange demo_sent demo_srv (demo_conn [] (Reading [])).

Lemma hand_over_enqueue c x x' :
  hand_over c x = Some x' → (match enqueueClientOrder c (sys_oms x) with Some (ok, _) => ok | None => false end) = true →
  enqueueClientOrder c (sys_oms x) = Some (true, sys_oms x') ∧ x' = set_oms (sys_oms x') x.
Proof.
  unfold hand_over. intros ([ok m] & Henq & H)%bind_Some. apply (inj Some) in H. subst x'. rewrite Henq. intros ->. done.
Qed.

Lemma demo_handed :
  enqueueClientOrder demo_limit (sys_oms demo_start) = Some (true, sys_oms demo_received) ∧
  demo_received = set_oms (sys_oms demo_received) demo_start.
Proof. apply hand_over_enqueue; [apply computed|]; vm_compute; reflexivity. Qed.

(** The steps of the session, on any exchange [x]. *)
Section demo.
Context (x : System).
Abbreviation step := (ex_step (λ _, 7) 0).
Abbreviation at_conn x w pc := (mkExchange x demo_srv (demo_conn w pc)).

Lemma demo_accept : step (ex_start x) Quiet (at_conn x [] (Reading [])).
Proof. apply (ex_accept _ _ (ex_start x) 5); [lia|apply not_elem_of_nil|reflexivity]. Qed.

Lemma demo_write c : client_fit c → step (at_conn x [] (Reading [])) (Wrote 0 c) (at_conn x (encode_client c) (Reading [])).
Proof. intros Hc. by apply (ex_write _ _ (at_conn x [] (Reading [])) 0 (mkConn 5 [] true (Reading [])) c). Qed.

Lemma set_oms_same : set_oms (sys_oms x) x = x.
Proof. by destruct x. Qed.

(** A pass that leaves the OMS alone. *)
Lemma demo_pass w acc bs pc :
  recv_ok acc (mkConn 5 w true (Reading acc)) (Data bs) →
  session_turn false (Data bs) (Reading acc) (sys_oms x) = Some (pc, sys_oms x) → pc ≠ Gone →
  step (at_conn x w (Reading acc)) Quiet (at_conn x (drop (length bs) w) pc).
Proof.
  intros Hr Ht Hpc. pose proof (ex_session (λ _, 7) 0 (at_conn x w (Reading acc)) 0 (mkConn 5 w true (Reading acc)) (Data bs) pc
    (sys_oms x) eq_refl ltac:(done) ltac:(by intros acc' [= <-]) Ht) as H.
  cbn [ex_system ex_server ex_conns demo_conn] in H. rewrite set_oms_same in H. by destruct pc.
Qed.

Lemma demo_piece1 : step (at_conn x demo_bytes (Reading [])) Quiet (at_conn x (drop 30 demo_bytes) (Reading (take 30 demo_bytes))).
Proof.
  apply (demo_pass demo_bytes [] (take 30 demo_bytes)); [|reflexivity|done].
  split; [done|]. split; [exists (drop 30 demo_bytes); by rewrite take_drop|vm_compute; lia].
Qed.

Lemma demo_piece2 : step (at_conn x (drop 30 demo_bytes) (Reading (take 30 demo_bytes))) Quiet (at_conn x [] (Offering demo_limit)).
Proof.
  apply (demo_pass (drop 30 demo_bytes) (take 30 demo_bytes) (drop 30 demo_bytes)); [|reflexivity|done].
  split; [done|]. split; [done|vm_compute; lia].
Qed.

Lemma demo_hand_over c x' :
  enqueueClientOrder c (sys_oms x) = Some (true, sys_oms x') → x' = set_oms (sys_oms x') x →
  step (at_conn x [] (Offering c)) (Handed 0 c) (at_conn x' [] (Reading [])).
Proof.
  intros Henq Hx. rewrite Hx.
  apply (ex_session (λ _, 7) 0 (at_conn x [] (Offering c)) 0 (mkConn 5 [] true (Offering c)) Interrupt (Reading [])
    (sys_oms x')); [reflexivity|done|done|]. cbn [cn_pc session_turn ex_system ex_server].
  change (srv_shutdown demo_srv) with false. cbn iota. rewrite Henq. reflexivity.
Qed.

Lemma demo_turn x' l : turn (λ _, 7) 0 OmsThread x = Some x' → turn_label OmsThread x = l →
  step (at_conn x [] (Reading [])) l (at_conn x' [] (Reading [])).
Proof. intros Hx <-. by apply (ex_turn (λ _, 7) 0 (at_conn x [] (Reading [])) OmsThread). Qed.

(** Up to the order being offered. *)
Lemma demo_arrives : ex_run (λ _, 7) 0 (ex_start x) (take 4 demo_trace) (at_conn x [] (Offering demo_limit)).
Proof.
  eapply (run_more _ _ _ (take 3 demo_trace)); [|apply demo_piece2].
  eapply (run_more _ _ _ (take 2 demo_trace)); [|apply demo_piece1].
  eapply (run_more _ _ _ (take 1 demo_trace)); [|apply demo_write, demo_limit_fit].
  eapply (run_more _ _ _ []); [apply run_start|apply demo_accept].
Qed.
End demo.

(** The whole run, for any states with the transitions between them. *)
Lemma demo_run_from x x1 x2 x3 :
  enqueueClientOrder demo_limit (sys_oms x) = Some (true, sys_oms x1) → x1 = set_oms (sys_oms x1) x →
  turn (λ _, 7) 0 OmsThread x1 = Some x2 → turn_label OmsThread x1 = Took demo_limit →
  turn (λ _, 7) 0 OmsThread x2 = Some x3 → turn_label OmsThread x2 = Quiet →
  ex_run (λ _, 7) 0 (ex_start x) demo_trace (mkExchange x3 demo_srv (demo_conn [] (Reading []))).
Proof.
  intros H1 H1' H2 H2' H3 H3'. eapply (run_more _ _ _ (take 6 demo_trace)); [|by apply (demo_turn x2)].
  eapply (run_more _ _ _ (take 5 demo_trace)); [|by apply (demo_turn x1)].
  eapply (run_more _ _ _ (take 4 demo_trace)); [apply demo_arrives|by apply demo_hand_over].
Qed.

Lemma demo_run : ex_run (λ _, 7) 0 (ex_start demo_start) demo_trace demo_exchange.
Proof.
  destruct demo_handed as [H1 H2]. apply (demo_run_from demo_start demo_received demo_taken demo_sent H1 H2);
    [apply computed| |apply computed|]; vm_compute; reflexivity.
Qed.

Lemma demo_sent_small : small 1000 (ex_system demo_exchange).
Proof. vm_compute. split; reflexivity. Qed.

Lemma exchange_sessions_witness :
  conn_inv (written 0 demo_trace) (handed 0 demo_trace) (mkConn 5 [] true (Reading [])) ∧
  written 0 demo_trace = [demo_limit] ∧ handed 0 demo_trace = [demo_limit] ∧
  active_client_fds (ex_server demo_exchange) ≡ₚ [5].
Proof.
  destruct (exchange_sessions 16 16 1000 demo_pools demo_totals demo_lower demo_upper 2 demo_symbols (λ _, 7) 0 demo_clock ltac:(mach)
    16 16 demo_boot_ok demo_start demo_trace demo_exchange demo_boots demo_run demo_sent_small) as (_ & H & _ & _ & Ha & _).
  split; [apply (H 0%nat); reflexivity|]. split; [reflexivity|]. split; [reflexivity|exact Ha].
Defined.
