(* ===== verification/Market.v ===== *)
(** The exchange with its market data: clients, sessions, OMS and engine of
    [Exchange] together with the feed reader of [Feed], which reads the rings
    that the engine groups write.

    [Feed] leaves open which trades are published; here they are those of the
    groups of [System], so that the feed can be traced back to the orders. *)

From stdpp Require Import relations.
From S2P Require Import Prelude Types MemPool PriceTime TradeRing Fifo RingBuffer Spsc Engine Group EngineTheorems Ledger Oms OmsTheorems Wire Server MarketFeed Recovery Feed OmsLoop System IcebergRun Exchange.

(** * Rings seen by the feed *)

Definition with_rings (R : list (list Trade * ring_mem)) (f : Feed) : Feed :=
  mkFeed R (mf_reader f) (mf_flag f) (mf_done f) (mf_sending f) (mf_udp f) (mf_tcp f).

(** The rings of the engine, as another process sees them: the memory. *)
Definition rings_of (x : System) : list (list Trade * ring_mem) := (λ g, ([], trade_mem g)) <$> groups (sys_engine x).

(** ** The history of a ring is not visible *)

Lemma rings_lookup (R R' : list (list Trade * ring_mem)) i h m :
  snd <$> R' = snd <$> R → R !! i = Some (h, m) → ∃ h', R' !! i = Some (h', m).
Proof.
  intros E Hi. assert ((snd <$> R') !! i = Some m) as H by (rewrite E, list_lookup_fmap, Hi; done).
  apply list_lookup_fmap_Some in H as ([h' m'] & -> & H). by exists h'.
Qed.

Lemma read_visit_rings js jt n i f f' R :
  snd <$> R = snd <$> mf_rings f → read_visit js jt n i f = Some f' →
  mf_rings f' = mf_rings f ∧ read_visit js jt n i (with_rings R f) = Some (with_rings R f').
Proof.
  intros E. unfold read_visit. intros ([hist mem] & Hr & H)%bind_Some. apply bind_Some in H as (h & Hh & H).
  apply bind_Some in H as ([[h' seq] q] & Hrun & H). apply (inj Some) in H. subst f'.
  destruct (rings_lookup _ R i hist mem E Hr) as [hist' Hr']. cbn [with_rings mf_rings mf_reader].
  rewrite Hr'. cbn [mbind option_bind]. rewrite Hh. cbn [mbind option_bind]. by rewrite Hrun.
Qed.

Lemma send_iter_rings udp tcp f f' R :
  send_iter udp tcp f = Some f' → send_iter udp tcp (with_rings R f) = Some (with_rings R f').
Proof.
  unfold send_iter. cbn [with_rings mf_sending mf_done mf_reader].
  destruct (negb (mf_sending f)); [by intros [= <-]|]. destruct (mf_done f && _); [by intros [= <-]|].
  intros ([[[ps cs] alive] q] & Hrun & H)%bind_Some. apply (inj Some) in H. subst f'. by rewrite Hrun.
Qed.

(** A step of the feed's threads, on rings with the same contents. *)
Lemma feed_step_rings js jt es f e f' R log lost queue :
  feed_step js jt f e f' → mf_rings f' = mf_rings f → snd <$> R = snd <$> mf_rings f →
  feed_inv es (with_rings R f) log lost queue → ∃ log' lost' queue', feed_inv (es ++ e) (with_rings R f') log' lost' queue'.
Proof.
  intros Hst Hsame E Hi. destruct Hst as [i hist mem hist' mem' f Hr Hp Hring Hlen|n i f f' Hd Hn Hrun|f|f Hfl|udp tcp f f' Hrun].
  - rewrite app_nil_r. by exists log, lost, queue.
  - destruct (read_visit_rings js jt n i f f' R E Hrun) as [_ Hrun'].
    destruct (read_visit_ok js jt n i es _ log lost queue (with_rings R f') Hi Hn Hrun') as (ts & Hi').
    eexists _, _, _. exact Hi'.
  - exists log, lost, queue. rewrite app_nil_r. by destruct Hi.
  - exists log, lost, queue. rewrite app_nil_r. by destruct Hi.
  - destruct (send_iter_ok udp tcp es _ log lost queue Hi) as (f2 & lost' & queue' & Hrun' & Hi').
    rewrite (send_iter_rings udp tcp f f' R Hrun) in Hrun'. apply (inj Some) in Hrun'. subst f2. by eexists _, _, _.
Qed.

(** The rings move on. *)
Lemma feed_inv_grow es f log lost queue R :
  feed_inv es f log lost queue → length R = 2%nat →
  (∀ i h m, R !! i = Some (h, m) → ring_inv h m ∧ Z.of_nat (length h) <= RING_SIZE ∧
     ∃ h0 m0, mf_rings f !! i = Some (h0, m0) ∧ h0 `prefix_of` h) →
  feed_inv es (with_rings R f) log lost queue.
Proof.
  intros [H1 H2 H3 H4 H5 H6 H7 H8 H9 H10 H11 H12] Hl HR. split; try done; cbn [with_rings mf_rings mf_reader].
  - intros i h m Hi. destruct (HR i h m Hi) as (Hr & Hle & h0 & m0 & H0 & Hp). split; [done|]. split; [done|].
    etrans; [by apply (H1 i h0 m0)|done].
  - split; [done|apply H3].
Qed.

(** * The market *)

Record Market := mkMarket {
  mk_exchange : Exchange;
  mk_feed : Feed
}.

Section market.
Context (clock : nat → Z) (junk_price : Z) (js : Z) (jt : Trade).

(** A step of the exchange, or of the feed reader on the rings as they are,
    with the troubles of the feed. *)
Inductive market_step (y : Market) : list label → list trouble → Market → Prop :=
| market_exchange l e : ex_step clock junk_price (mk_exchange y) l e → market_step y [l] [] (mkMarket e (mk_feed y))
| market_feed es f :
    let R := rings_of (ex_system (mk_exchange y)) in
    feed_step js jt (with_rings R (mk_feed y)) es f → mf_rings f = R →
    market_step y [] es (mkMarket (mk_exchange y) f).

Inductive market_run (y0 : Market) : list label → list trouble → Market → Prop :=
| market_start : market_run y0 [] [] y0
| market_more tr es y l e y' : market_run y0 tr es y → market_step y l e y' → market_run y0 (tr ++ l) (es ++ e) y'.

(** Without the feed it is a run of the exchange. *)
Lemma market_ex_run y0 tr es y : market_run y0 tr es y → ex_run clock junk_price (mk_exchange y0) tr (mk_exchange y).
Proof.
  induction 1 as [|tr es y l e y' _ IH Hst]; [constructor|]. destruct Hst as [l e Hst|e f R Hst HR]; [by eapply run_more|].
  by rewrite app_nil_r.
Qed.

Context (Hclock : ∀ k, is_u64 (clock k)) (Hjunk : is_u64 junk_price).
Context (n nq boot : Z) (A0 : nat → AGroup) (Hboot : 0 <= boot).

(** The rings with the trades the groups have published. *)
Definition tape_of (fl : flow) (x : System) : list (list Trade * ring_mem) :=
  imap (λ i g, (trades_at A0 i (default ([], []) (f_groups fl !! i)).1, trade_mem g)) (groups (sys_engine x)).

Lemma tape_mems fl x : snd <$> tape_of fl x = snd <$> rings_of x.
Proof.
  unfold tape_of, rings_of. rewrite fmap_imap, <- list_fmap_compose. apply list_eq. intros i.
  rewrite list_lookup_imap, list_lookup_fmap. by destruct (groups (sys_engine x) !! i).
Qed.

Lemma tape_lookup fl x i h m :
  sys_rep n nq A0 x fl → tape_of fl x !! i = Some (h, m) → ∃ g dn pd, groups (sys_engine x) !! i = Some g ∧
    f_groups fl !! i = Some (dn, pd) ∧ h = trades_at A0 i dn ∧ ring_inv h m ∧
    next_expected_seq (trade_buffer g) = Z.of_nat (length h) + 1.
Proof.
  intros Hr Hi. unfold tape_of in Hi. apply list_lookup_imap_Some in Hi as (g & Hg & H).
  destruct (sr_group _ _ _ _ _ Hr i g Hg) as (dn & pd & Hfg & [Hrep _]). rewrite Hfg in H. injection H as -> ->.
  exists g, dn, pd. pose proof (gr_trades _ _ _ Hrep) as [Hring [_ Hseq]]. done.
Qed.

(** What a step of the system does to the tapes. *)
Lemma sys_step_tape x x' fl :
  sys_step clock junk_price x x' → sys_rep n nq A0 x fl → ids_inv boot (sys_oms x) → small boot x →
  ∃ fl', sys_rep n nq A0 x' fl' ∧ (few x' → few x) ∧
    ∀ i h m, tape_of fl' x' !! i = Some (h, m) → ∃ h0 m0, tape_of fl x !! i = Some (h0, m0) ∧ h0 `prefix_of` h.
Proof.
  intros Hst Hr Hids Hsm. destruct Hst as [c ok m Hc Henq|t x' Ht Hturn].
  - pose proof Hr as [Hg Hfo Hs Ho Hl Hp Hgr]. exists fl.
    destruct (enqueue_good n c _ Hg Hc) as (ok' & m' & Henq' & Hg' & Hsent).
    rewrite Henq in Henq'. injection Henq' as <- <-. split; [|split; [done|intros i h m1 Hi; by exists h, m1]].
    split; try done. cbn [sys_oms]. by rewrite Hsent.
  - destruct (turn_sim clock junk_price n nq A0 Hclock Hjunk boot t x fl Hr Hids Hsm Ht) as (x1 & new & Hturn1 & _ & Hr').
    rewrite Hturn in Hturn1. apply (inj Some) in Hturn1. subst x1. exists (flow_turn nq t new fl). split; [done|].
    split; [intros Hfew; by eapply turn_few|]. intros i h m Hi.
    destruct (tape_lookup _ x' i h m Hr' Hi) as (g' & dn' & pd' & Hg' & Hfg' & -> & _).
    destruct (lookup_lt_is_Some_2 (groups (sys_engine x)) i) as [g Hg].
    { rewrite (sr_length _ _ _ _ _ Hr), <- (sr_length _ _ _ _ _ Hr'). by eapply lookup_lt_Some. }
    destruct (sr_group _ _ _ _ _ Hr i g Hg) as (dn & pd & Hfg & _).
    destruct (trades_grow nq A0 t new fl i dn pd Hfg) as (dn1 & pd1 & Hfg1 & Hpre). rewrite Hfg' in Hfg1. injection Hfg1 as <- <-.
    exists (trades_at A0 i dn), (trade_mem g). split; [|done]. unfold tape_of. by rewrite list_lookup_imap, Hg, Hfg.
Qed.

(** The feed is right about the tapes of the groups. *)
Definition tape_inv es x f fl log lost queue : Prop :=
  sys_rep n nq A0 x fl ∧ feed_inv es (with_rings (tape_of fl x) f) log lost queue.

Lemma tape_inv_step es x x' f fl log lost queue :
  sys_step clock junk_price x x' → ids_inv boot (sys_oms x) → small boot x → few x' →
  tape_inv es x f fl log lost queue → ∃ fl', tape_inv es x' f fl' log lost queue.
Proof.
  intros Hst Hids Hsm Hfew [Hr Hi]. destruct (sys_step_tape x x' fl Hst Hr Hids Hsm) as (fl' & Hr' & _ & Hgrow).
  exists fl'. split; [done|]. apply (feed_inv_grow _ _ _ _ _ (tape_of fl' x')) in Hi; [exact Hi| |].
  - unfold tape_of. rewrite length_imap. by rewrite (sr_length _ _ _ _ _ Hr').
  - intros i h m Hx. destruct (tape_lookup fl' x' i h m Hr' Hx) as (g & dn & pd & Hg & _ & _ & Hring & Hseq).
    split; [done|]. split; [specialize (Hfew i g Hg); lia|]. by apply (Hgrow i h m).
Qed.

Lemma market_step_inv es y l e y' fl log lost queue tr :
  ex_inv n tr (mk_exchange y) → market_step y l e y' → ids_inv boot (sys_oms (ex_system (mk_exchange y))) →
  small boot (ex_system (mk_exchange y)) → few (ex_system (mk_exchange y')) →
  tape_inv es (ex_system (mk_exchange y)) (mk_feed y) fl log lost queue →
  ∃ fl' log' lost' queue', tape_inv (es ++ e) (ex_system (mk_exchange y')) (mk_feed y') fl' log' lost' queue'.
Proof.
  intros Hex Hst Hids Hsm Hfew Hi. destruct Hst as [l e Hst|e f R Hst HR]; cbn [mk_exchange mk_feed] in *.
  - rewrite app_nil_r. destruct (ex_step_inv clock junk_price n tr _ l e Hex Hst) as [_ [->|Hsys]]; [by eexists _, _, _, _|].
    destruct (tape_inv_step es _ _ _ fl log lost queue Hsys Hids Hsm Hfew Hi) as [fl' Hi']. by eexists _, _, _, _.
  - destruct Hi as [Hr Hi]. destruct (feed_step_rings js jt es _ e f (tape_of fl (ex_system (mk_exchange y))) log lost queue Hst)
      as (log' & lost' & queue' & Hi'); [by rewrite HR|apply tape_mems|exact Hi|].
    exists fl, log', lost', queue'. by split.
Qed.
End market.

(** * Every run from the start *)

Definition market_new (x0 : System) (junk : list MarketDataMessage) : Market := mkMarket (ex_start x0) (Feed_new junk).

Section boot.
Context (engine_capacity oms_capacity boot : Z) (pools : Z → Z → list OrderNode) (totals : Z → Z → Z * Z) (lower upper : list Z).
Context (cap : nat) (symbols : list (list Z * Z)).
Context (clock : nat → Z) (junk_price : Z) (Hclock : ∀ k, is_u64 (clock k)) (Hjunk : is_u64 junk_price).
Context (js : Z) (jt : Trade) (junk : list MarketDataMessage) (Hqueue : Z.of_nat (length junk) = queue_buffer_size).
Context (n nq : Z) (Hbk : boot_ok engine_capacity oms_capacity boot pools totals lower upper cap symbols n nq).

#[local] Abbreviation A0 := (agroup_new lower upper cap).
#[local] Abbreviation boots x0 := (boot_system engine_capacity oms_capacity boot pools totals lower upper symbols = Some x0).

Lemma start_tape x0 : boots x0 → tape_inv n nq A0 [] x0 (Feed_new junk) flow_new [] [] [].
Proof.
  intros H0. destruct (boot_rep _ _ _ _ _ _ _ _ _ n nq x0 Hbk H0) as [Hr _]. clear H0. split; [done|].
  apply feed_inv_grow; [by apply feed_new_inv| |].
  - unfold tape_of. rewrite length_imap. by rewrite (sr_length _ _ _ _ _ Hr).
  - intros i h m Hi. destruct (tape_lookup n nq A0 flow_new x0 i h m Hr Hi) as (g & dn & pd & Hg & Hfg & -> & Hring & _).
    cbn [flow_new f_groups] in Hfg. apply lookup_replicate in Hfg as [[= -> ->] Hlt]. split; [done|]. split; [done|].
    exists [], ∅. split; [|apply prefix_nil]. by apply lookup_replicate.
Qed.

(** The bounds at the end of a run held before. *)
Lemma step_back x0 x x' :
  boots x0 → rtc (sys_step clock junk_price) x0 x → x' = x ∨ sys_step clock junk_price x x' → small boot x' → few x' →
  ids_inv boot (sys_oms x) ∧ small boot x ∧ few x.
Proof.
  intros H0 Hx Hst Hsm Hfew.
  assert (small boot x) as Hs by (destruct Hst as [<-|Hst]; [exact Hsm|eapply small_mono; [by eapply sys_step_ids|exact Hsm]]).
  destruct (reachable_rep _ _ _ _ _ _ _ _ _ clock junk_price Hclock Hjunk n nq Hbk x0 x H0 Hx Hs) as (Hi & f & _ & Hr). clear H0 Hx.
  split; [exact Hi|]. split; [exact Hs|]. destruct Hst as [<-|Hst]; [exact Hfew|].
  destruct (sys_step_tape clock junk_price Hclock Hjunk n nq boot A0 _ _ f Hst Hr Hi Hs) as (fl' & _ & Hb & _). by apply Hb.
Qed.

Lemma market_reachable x0 tr es y :
  boots x0 → market_run clock junk_price js jt (market_new x0 junk) tr es y →
  small boot (ex_system (mk_exchange y)) → few (ex_system (mk_exchange y)) →
  ∃ fl log lost queue, tape_inv n nq A0 es (ex_system (mk_exchange y)) (mk_feed y) fl log lost queue.
Proof.
  intros H0 Hrun. pose proof (start_tape x0 H0) as Ht0. pose proof (start_inv _ _ _ _ _ _ _ _ _ n nq Hbk x0 H0) as Hex0.
  pose proof (λ x x', step_back x0 x x' H0) as Hback. clear H0.
  induction Hrun as [|tr es y l e y' Hrun IH Hst]; intros Hsm Hfew; [by eexists _, _, _, _|].
  destruct (ex_run_inv clock junk_price n _ _ _ Hex0 (market_ex_run _ _ _ _ _ _ _ _ Hrun)) as [Hex Hsys].
  destruct (Hback (ex_system (mk_exchange y)) (ex_system (mk_exchange y')) Hsys) as (Hids & Hsm0 & Hfew0); [|exact Hsm|exact Hfew|].
  { destruct Hst as [l e Hst|e f R Hst HR]; [|by left]. cbn [mk_exchange]. by apply (ex_step_inv clock junk_price n tr _ l e Hex Hst). }
  destruct (IH Hsm0 Hfew0) as (fl & log & lost & queue & Hi).
  by eapply (market_step_inv clock junk_price js jt Hclock Hjunk n nq boot A0 es y l e y').
Qed.

(** What is in the log of group [i]. *)
Lemma tape_groups es x f fl log lost queue i g :
  tape_inv n nq A0 es x f fl log lost queue → groups (sys_engine x) !! i = Some g → ∃ dn pd,
    filter (routed i) (sent (sys_oms x)) = dn ++ pd ++ filter (routed i) (sys_outbox x) ∧
    group_rep nq g (set_pending pd (aserve (agroup_new lower upper cap i) dn)) ∧
    of_ring i log `prefix_of` ag_trades (aserve (agroup_new lower upper cap i) dn).
Proof.
  intros [Hr Hi] Hg. destruct (rep_groups n nq A0 x fl i g Hr Hg) as (dn & pd & Hfg & Hsent & Hrep).
  exists dn, pd. split; [exact Hsent|]. split; [exact Hrep|].
  destruct (fi_rings _ _ _ _ _ Hi i (trades_at A0 i dn) (trade_mem g)) as (_ & _ & Hp); [|exact Hp].
  cbn [with_rings mf_rings]. unfold tape_of. by rewrite list_lookup_imap, Hg, Hfg.
Qed.

(** C16: From the clients to the market data, in every interleaving of clients,
    sessions, OMS, engine groups and the two threads of the feed reader, with
    orders that are [client_fit], as long as the counters are [small] and no
    trade ring has received more than [2^20] trades ([few]).  When the clients
    send limit and market orders, the orders sent to the engine are the
    accepted ones with symbol, side, price, quantity and ids as written, in
    the order in which the OMS took them from the connections.  Each group has
    processed the first orders of its share, and its books and the trades in
    its ring are what the price-time contract makes of these.  The trades the
    feed reader has read are for each group its first ones in order, and they
    are numbered from 0.  The messages that left in UDP packets, those of an
    aborted batch and those still queued are messages of these trades, in
    order and each at most once, and the retransmitter's stream carries
    nothing else; unless a push found the queue of the reader full they are
    all the messages, without gap; as long as the sender runs no batch was
    aborted, and unless a send reported [EAGAIN] the retransmitter's stream
    then carries the same messages as the packets. *)
Theorem market_end_to_end x0 tbl tr es y :
  boots x0 → load_lookup symbols = Some tbl →
  market_run clock junk_price js jt (market_new x0 junk) tr es y →
  small boot (ex_system (mk_exchange y)) → few (ex_system (mk_exchange y)) →
  let x := ex_system (mk_exchange y) in
  let f := mk_feed y in
  ((∀ i, Forall simple (written i tr)) → sent (sys_oms x) = orders_for clock junk_price boot tbl (taken tr)) ∧
  ∃ log lost queue,
    concat (mf_udp f) ++ lost ++ queue `sublist_of` messages log ∧
    mf_tcp f `sublist_of` concat (encode_message <$> concat (mf_udp f)) ∧
    (QueueFull ∉ es → concat (mf_udp f) ++ lost ++ queue = messages log) ∧
    (mf_sending f = true → lost = [] ∧
       (SendAgain ∉ es → mf_tcp f = concat (encode_message <$> concat (mf_udp f)))) ∧
    Forall (λ p, p.1 < 2)%nat log ∧
    ∀ i g, groups (sys_engine x) !! i = Some g → ∃ dn pd,
      filter (routed i) (sent (sys_oms x)) = dn ++ pd ++ filter (routed i) (sys_outbox x) ∧
      group_rep nq g (set_pending pd (aserve (agroup_new lower upper cap i) dn)) ∧
      of_ring i log `prefix_of` ag_trades (aserve (agroup_new lower upper cap i) dn).
Proof.
  intros H0 Ht Hrun Hsm Hfew x f. split.
  { intros Hsim. pose proof (start_inv _ _ _ _ _ _ _ _ _ n nq Hbk x0 H0) as Hi0.
    destruct (ex_run_plain clock junk_price boot tbl n (ex_start x0) tr (mk_exchange y) Hi0) as [_ _ _ _ _ Hsent]; [|exact (market_ex_run _ _ _ _ _ _ _ _ Hrun)|done|exact Hsent].
    by eapply start_plain. }
  destruct (market_reachable x0 tr es y H0 Hrun Hsm Hfew) as (fl & log & lost & queue & Hti). clear H0 Ht Hrun.
  pose proof Hti as [_ Hi]. exists log, lost, queue. split; [apply (fi_order _ _ _ _ _ Hi)|]. split; [apply (fi_bytes _ _ _ _ _ Hi)|].
  split; [apply (fi_sent _ _ _ _ _ Hi)|]. split.
  { intros Hs. split; [apply (fi_alive _ _ _ _ _ Hi Hs)|]. intros Hes. apply (fi_tcp _ _ _ _ _ Hi Hes Hs). }
  split; [apply Hi|]. intros i g. by eapply tape_groups.
Qed.

(** The messages of the feed have values of their types. *)
Lemma tape_typed es x f fl log lost queue :
  tape_inv n nq A0 es x f fl log lost queue → Forall message_typed (messages log).
Proof.
  intros [Hr Hi]. pose proof (rep_accounts A0 fl (balanced_new lower upper cap) (sr_flow _ _ _ _ _ Hr)) as Ha.
  pose proof (log_bound _ _ _ _ _ Hi) as Hlb. apply Forall_lookup_2. intros k m Hk. unfold messages, numbered in Hk.
  apply list_lookup_imap_Some in Hk as (t & Ht & ->). apply list_lookup_fmap_Some in Ht as ([i t'] & -> & Hl). cbn [snd].
  assert (i < 2)%nat as Hi2.
  { pose proof (fi_tags _ _ _ _ _ Hi) as H. rewrite Forall_forall in H. by apply (H (i, t')), list_elem_of_lookup_2 with k. }
  assert (t' ∈ of_ring i log) as Hin.
  { unfold of_ring. apply list_elem_of_fmap. exists (i, t'). split; [done|]. apply list_elem_of_filter.
    split; [done|by eapply list_elem_of_lookup_2]. }
  destruct (fi_count _ _ _ _ _ Hi) as [Hc _]. destruct (lookup_lt_is_Some_2 (mf_rings (with_rings (tape_of A0 fl x) f)) i) as [[h mem] Hx]; [lia|].
  destruct (fi_rings _ _ _ _ _ Hi i h mem Hx) as (_ & _ & Hp).
  destruct (tape_lookup n nq A0 fl x i h mem Hr Hx) as (g & dn & pd & _ & Hfg & -> & _).
  pose proof (ba_typed _ _ (Ha i dn pd Hfg)) as Hty. rewrite Forall_forall in Hty.
  destruct (Hty t') as [H1 H2 H3 H4 H5].
  { change (ag_trades (aserve (A0 i) dn)) with (trades_at A0 i dn). destruct Hp as [rest ->]. apply elem_of_app. by left. }
  apply lookup_lt_Some in Hl. assert (RING_SIZE = 2 ^ 20) by done. split; try done. cbn [message_of formatMarketData fst m_seq_num]. mach.
Qed.

(** C17: What a client of the feed gets, behind the whole exchange (with
    [client_fit] orders, [small] counters and [few] trades in every ring) and
    over a network that loses packets.  As long as the sender runs, at most
    [2^20] messages have left, no push has found the queue of the reader full
    and no send has reported [EAGAIN]: a listener that received any of the
    messages, in order, or in any order and repeatedly as far as the numbers
    it skips fit into its queue, and asks the retransmitter, whom the stream
    reaches in whatever pieces, for those it misses, gets every message up to
    any one received, except number 0; and the messages are, numbered from 0,
    the first trades that the price-time contract makes of the orders the
    groups have processed. *)
Theorem tape_recovered x0 tr es y mjunk got chunks q :
  boots x0 → market_run clock junk_price js jt (market_new x0 junk) tr es y →
  small boot (ex_system (mk_exchange y)) → few (ex_system (mk_exchange y)) →
  let x := ex_system (mk_exchange y) in
  let out := concat (mf_udp (mk_feed y)) in
  mf_sending (mk_feed y) = true → (QueueFull ∉ es) → (SendAgain ∉ es) → Z.of_nat (length out) <= SIZE →
  concat chunks = mf_tcp (mk_feed y) → (∀ m, m ∈ got → m ∈ out) → queue_holds (m_seq_num <$> got) →
  fq_rep (FifoQueue:=spsc_fifo queue_buffer_size) q [] →
  let r := foldl (λ r c, storeThread_step c r) Retransmitter_new chunks in
  ∃ l requested log, listen_packet got (mkListener 0 q) = Some l ∧
    fq_rep (FifoQueue:=spsc_fifo queue_buffer_size) (missing l) requested ∧
    (∀ m m', m ∈ out → m' ∈ got → m_seq_num m <= m_seq_num m' →
       m ∈ got ∨ (m_seq_num m ∈ requested ∧ serve mjunk (m_seq_num m) r = Some m) ∨ m_seq_num m = 0) ∧
    out `prefix_of` messages log ∧ Forall (λ p, p.1 < 2)%nat log ∧
    ∀ i g, groups (sys_engine x) !! i = Some g → ∃ dn pd,
      filter (routed i) (sent (sys_oms x)) = dn ++ pd ++ filter (routed i) (sys_outbox x) ∧
      group_rep nq g (set_pending pd (aserve (agroup_new lower upper cap i) dn)) ∧
      of_ring i log `prefix_of` ag_trades (aserve (agroup_new lower upper cap i) dn).
Proof.
  intros H0 Hrun Hsm Hfew x out Hsend Hfull Hagain Hsize Hchunks Hsub Hroom Hq r.
  destruct (market_reachable x0 tr es y H0 Hrun Hsm Hfew) as (fl & log & lost & queue & Hti). clear H0 Hrun.
  pose proof Hti as [_ Hi]. pose proof (fi_tcp _ _ _ _ _ Hi Hagain Hsend) as Htcp.
  pose proof (fi_sent _ _ _ _ _ Hi Hfull) as Hs. cbn [with_rings mf_udp mf_tcp] in Hs, Htcp. fold out in Hs, Htcp.
  assert (out `prefix_of` messages log) as Hpre by (rewrite <- Hs; by eexists).
  assert (numbered_from 0 out) as Hnum.
  { intros k m Hk. apply (messages_numbered log k m). by eapply prefix_lookup_Some. }
  assert (Forall message_typed out) as Hty.
  { pose proof (tape_typed es x _ fl log lost queue Hti) as H. destruct Hpre as [k Hk]. rewrite Hk in H. by apply Forall_app in H as [? _]. }
  destruct (recovery_ok mjunk out got chunks q Hnum Hty Hsize) as (l & req & H1 & H2 & H3 & _); try done.
  { by rewrite Hchunks, <- Htcp. }
  exists l, req, log. split_and!; try done; [apply (fi_tags _ _ _ _ _ Hi)|]. intros i g. by eapply tape_groups.
Qed.
End boot.

(** * Witnesses *)

(** ** A trade on the feed *)

Lemma ex_run_app clock junk_price e0 tr e tr' e' :
  ex_run clock junk_price e0 tr e → ex_run clock junk_price e tr' e' → ex_run clock junk_price e0 (tr ++ tr') e'.
Proof.
  intros H0. induction 1 as [|tr' e1 l e2 _ IH Hst]; [by rewrite app_nil_r|]. rewrite app_assoc. by eapply run_more.
Qed.

Lemma ex_run_market clock junk_price js jt e0 tr e f :
  ex_run clock junk_price e0 tr e → market_run clock junk_price js jt (mkMarket e0 f) tr [] (mkMarket e f).
Proof.
  induction 1 as [|tr e1 l e2 _ IH Hst]; [constructor|]. eapply (market_more _ _ _ _ _ _ []); [exact IH|].
  by apply (market_exchange _ _ _ _ (mkMarket e1 f)).
Qed.

(** With a few trades in its ring, the feed reads and sends them. *)
Lemma trades_fed clock junk_price js jt junk n nq A0 x0 tr e fl h m :
  Z.of_nat (length junk) = queue_buffer_size → ex_run clock junk_price (ex_start x0) tr e →
  sys_rep n nq A0 (ex_system e) fl → tape_of A0 fl (ex_system e) !! 0%nat = Some (h, m) → (length h ≤ 10)%nat →
  ∃ f, market_run clock junk_price js jt (market_new x0 junk) tr [] (mkMarket e f) ∧ mf_sending f = true ∧
    concat (mf_udp f) = numbered 0 h.
Proof.
  intros Hj Hrun Hr Htape Hlen. destruct (tape_lookup n nq A0 fl _ 0 h m Hr Htape) as (g & dn & pd & _ & _ & _ & Hring & _).
  set (R := rings_of (ex_system e)). set (f0 := with_rings R (Feed_new junk)).
  destruct (rings_lookup (tape_of A0 fl (ex_system e)) R 0 h m (eq_sym (tape_mems A0 fl _)) Htape) as [h' HR0].
  assert (RING_SIZE = 2 ^ 20) as HS by done.
  destruct (read_ring_ok 10 js jt m h (trade_ring_buffer_new false) 0 0 (mf_queue (mf_reader (Feed_new junk))) [])
    as (hd & q & Hread & _ & Hq); [done..|lia|lia|lia|apply (fi_queue _ _ _ _ _ (feed_new_inv junk Hj))|done|done|done|].
  rewrite drop_0, take_ge in Hread, Hq by lia. cbn [app] in Hq.
  set (f1 := set_reader (mkMFR (0 + Z.of_nat (length h)) q (<[0%nat := hd]> (trb_vec (mf_reader f0)))) f0).
  assert (read_trouble f0 f1 = []) as Hfit.
  { unfold read_trouble. change (mf_queue (mf_reader f0)) with (mf_queue (mf_reader (Feed_new junk))).
    rewrite (spsc_count_ok _ _ (fi_queue _ _ _ _ _ (feed_new_inv junk Hj))).
    change (seq_num (mf_reader f1)) with (0 + Z.of_nat (length h)). change (seq_num (mf_reader f0)) with 0.
    assert (queue_buffer_size = 2 ^ 20) by done. cbn [length]. by rewrite (proj2 (Z.leb_le _ _)) by lia. }
  assert (feed_step js jt f0 [] f1) as Hst1.
  { rewrite <- Hfit. apply (feed_read _ _ 10 0); [done|lia|]. unfold read_visit.
    change (mf_rings f0) with R. rewrite HR0. cbn [mbind option_bind].
    change (trb_vec (mf_reader f0) !! 0%nat) with (Some (trade_ring_buffer_new false)). cbn [mbind option_bind].
    change (seq_num (mf_reader f0)) with 0. change (mf_queue (mf_reader f0)) with (mf_queue (mf_reader (Feed_new junk))).
    by rewrite Hread. }
  destruct (send_round_good steady_net.1 steady_net.2 q (numbered 0 h) Hq steady_net_good) as (ps & q' & Hsend & _ & Hps).
  rewrite take_ge in Hps by (unfold numbered; rewrite length_imap; lia).
  eexists. split.
  - rewrite <- (app_nil_r tr). eapply (market_more _ _ _ _ _ _ []); cycle 1.
    { apply (market_feed _ _ _ _ (mkMarket e f1)).
      - rewrite <- steady_trouble. apply (feed_send _ _ steady_net.1 steady_net.2). unfold send_iter.
        change (mf_queue (mf_reader (with_rings _ (mk_feed (mkMarket e f1))))) with q. rewrite Hsend. reflexivity.
      - reflexivity. }
    rewrite <- (app_nil_r tr). eapply (market_more _ _ _ _ _ _ []); [exact (ex_run_market clock junk_price js jt _ tr e (Feed_new junk) Hrun)|].
    by apply (market_feed _ _ _ _ (mkMarket e (Feed_new junk))).
  - by cbn.
Qed.

(** ** An idle iteration *)

Definition at_pc (pc : oms_pc) (x : System) : System := mkSystem (sys_oms x) pc (sys_outbox x) (sys_engine x).

Section idle.
Context (clock : nat → Z) (junk_price : Z) (x : System) (srv : OrderReceivingServer) (cs : list conn).
Context (Hout : sys_outbox x = []).
Context (Hrings : ∀ i, (i < Z.to_nat GROUP_COUNT)%nat → ∃ g h, groups (sys_engine x) !! i = Some g ∧
  trade_consumers (sys_oms x) !! i = Some h ∧ any_new_trade h (trade_mem g) = false).
Context (Hprices : take (Z.to_nat MAX_SYMBOLS) (last_price (sys_engine x)) = last_seen_price (sys_oms x)).
Context (Hseen : length (last_seen_price (sys_oms x)) = Z.to_nat MAX_SYMBOLS).

#[local] Abbreviation idle pc := (mkExchange (at_pc pc x) srv cs).

Lemma idle_step pc pc' :
  pc ≠ AtIntake →
  oms_micro clock junk_price (trade_mem <$> groups (sys_engine x)) (Some (last_price (sys_engine x))) pc (sys_oms x) =
    Some (pc', sys_oms x) →
  ex_step clock junk_price (idle pc) Quiet (idle pc').
Proof.
  intros Hpc Hm. replace Quiet with (turn_label OmsThread (at_pc pc x))
    by (unfold turn_label; cbn [at_pc sys_outbox sys_pc]; rewrite Hout; by destruct pc).
  apply (ex_turn _ _ (idle pc) OmsThread); [done|]. cbn [turn]. unfold oms_turn. cbn [ex_system at_pc sys_outbox sys_pc sys_oms sys_engine].
  rewrite Hout, Hm. cbn [mbind option_bind]. unfold at_pc. by rewrite drop_all, Hout.
Qed.

Lemma idle_ring i : (i < Z.to_nat GROUP_COUNT)%nat → ex_step clock junk_price (idle (AtRing i)) Quiet (idle (AtRing (S i))).
Proof.
  intros Hi. destruct (Hrings i Hi) as (g & h & Hg & Hh & Hno). apply idle_step; [done|]. cbn [oms_micro].
  rewrite (proj2 (Nat.leb_gt _ _)) by done. rewrite list_lookup_fmap, Hg. cbn [fmap option_fmap option_map mbind option_bind].
  unfold poll_one. rewrite Hh. cbn [mbind option_bind]. by rewrite Hno.
Qed.

Lemma idle_price i : (i < Z.to_nat MAX_SYMBOLS)%nat → ex_step clock junk_price (idle (AtPrice i)) Quiet (idle (AtPrice (S i))).
Proof.
  intros Hi. apply idle_step; [done|]. cbn [oms_micro]. rewrite (proj2 (Nat.leb_gt _ _)) by done. cbn [mbind option_bind].
  destruct (lookup_lt_is_Some_2 (last_seen_price (sys_oms x)) i) as [v Hv]; [by rewrite Hseen|].
  pose proof Hv as Hv'. rewrite <- Hprices, lookup_take_lt in Hv' by done. rewrite Hv'. cbn [mbind option_bind].
  unfold look_price. rewrite Hv. cbn [mbind option_bind]. by rewrite Z.eqb_refl.
Qed.

(** Nothing to read and no price to look at: the thread is back at the intake. *)
Lemma idle_run : ∃ k, ex_run clock junk_price (idle (AtRing 0)) (replicate k Quiet) (idle AtIntake).
Proof.
  assert (∀ k, (k ≤ Z.to_nat GROUP_COUNT)%nat → ex_run clock junk_price (idle (AtRing 0)) (replicate k Quiet) (idle (AtRing k))) as H1.
  { induction k as [|k IH]; intros Hk; [constructor|]. rewrite replicate_S_end. eapply run_more; [apply IH; lia|by apply idle_ring]. }
  assert (∀ k, (k ≤ Z.to_nat MAX_SYMBOLS)%nat → ex_run clock junk_price (idle (AtPrice 0)) (replicate k Quiet) (idle (AtPrice k))) as H2.
  { induction k as [|k IH]; intros Hk; [constructor|]. rewrite replicate_S_end. eapply run_more; [apply IH; lia|by apply idle_price]. }
  exists (Z.to_nat GROUP_COUNT + 1 + Z.to_nat MAX_SYMBOLS + 1)%nat. rewrite !replicate_add.
  eapply ex_run_app; [eapply ex_run_app; [eapply ex_run_app; [by apply H1|]|by apply H2]|];
    (eapply (run_more _ _ _ []); [constructor|apply idle_step; [done|]]); cbn [oms_micro];
    by rewrite (proj2 (Nat.leb_le _ _)).
Qed.
End idle.

(** ** Three orders that trade *)

(** Two buy orders and a sell order for both, handed over in this order; each
    is taken in and dispatched, with idle iterations between; then the group
    makes two trades. *)
Definition trade_buy : ClientOrder := mkClientOrder 8 101 0 OmsTheorems.aapl 0 3 BUY 25 0 0 CLIMIT true.
Definition trade_sell : ClientOrder := mkClientOrder 7 101 0 OmsTheorems.aapl 0 2 SELL 50 0 0 CLIMIT true.
Definition trade_handed1 : System := default no_system (hand_over trade_buy demo_received).
Definition trade_handed2 : System := default no_system (hand_over trade_sell trade_handed1).
Definition trade_take : list thread := [OmsThread; OmsThread].
Definition trade_turns : list thread := [OmsThread; OmsThread; GroupThread 0; GroupThread 0; GroupThread 0].
Definition trade_taken1 : System := default no_system (run_turns (λ _, 7) 0 trade_take trade_handed2).
Definition trade_taken2 : System := default no_system (run_turns (λ _, 7) 0 trade_take (at_pc AtIntake trade_taken1)).
Definition trade_done : System := default no_system (run_turns (λ _, 7) 0 trade_turns (at_pc AtIntake trade_taken2)).
Definition trade_exchange : Exchange := mkExchange trade_done demo_srv (demo_conn [] (Reading [])).

Fixpoint turn_labels clock junk_price (ts : list thread) (x : System) : list label :=
  match ts with
  | [] => []
  | t :: ts => turn_label t x :: turn_labels clock junk_price ts (default x (turn clock junk_price t x))
  end.

Definition trade_trace (k1 k2 : nat) : list label :=
  take 5 demo_trace ++ [Wrote 0 trade_buy; Quiet; Handed 0 trade_buy] ++ [Wrote 0 trade_sell; Quiet; Handed 0 trade_sell] ++
  turn_labels (λ _, 7) 0 trade_take trade_handed2 ++ replicate k1 Quiet ++
  turn_labels (λ _, 7) 0 trade_take (at_pc AtIntake trade_taken1) ++ replicate k2 Quiet ++
  turn_labels (λ _, 7) 0 trade_turns (at_pc AtIntake trade_taken2).

Lemma turns_run clock junk_price srv cs ts : ∀ x x',
  Forall thread_ok ts → run_turns clock junk_price ts x = Some x' →
  ex_run clock junk_price (mkExchange x srv cs) (turn_labels clock junk_price ts x) (mkExchange x' srv cs).
Proof.
  induction ts as [|t ts IH]; intros x x' Hok H; cbn [run_turns turn_labels] in *.
  { apply (inj Some) in H. subst x'. constructor. }
  apply Forall_cons in Hok as [Ht Hok]. apply bind_Some in H as (x1 & H1 & H). rewrite H1. cbn [default].
  apply (ex_run_app _ _ _ [turn_label t x] (mkExchange x1 srv cs)); [|by apply IH].
  eapply (run_more _ _ _ []); [constructor|by apply (ex_turn _ _ (mkExchange x srv cs))].
Qed.

Lemma trade_fit : client_fit trade_buy ∧ client_fit trade_sell.
Proof.
  split; (split; [|by eexists|done|done]; split; try (vm_compute; split; [discriminate|reflexivity]);
    split; [done|]; repeat (constructor; [lia|]); constructor).
Qed.

(** An order arrives in one piece and is handed over. *)
Lemma demo_delivers c x x' :
  client_fit c → hand_over c x = Some x' →
  (match enqueueClientOrder c (sys_oms x) with Some (ok, _) => ok | None => false end) = true →
  ex_run (λ _, 7) 0 (mkExchange x demo_srv (demo_conn [] (Reading []))) [Wrote 0 c; Quiet; Handed 0 c]
    (mkExchange x' demo_srv (demo_conn [] (Reading []))).
Proof.
  intros Hc Hx Hok. destruct (hand_over_enqueue c x x' Hx Hok) as [H1 H2]. pose proof (cf_typed _ Hc) as Hty.
  pose proof (length_encode_client c (proj1 (ct_symbol _ Hty))) as Hle.
  assert (encode_client c ≠ []) as Hne by (intros E; rewrite E in Hle; done).
  eapply (run_more _ _ _ [Wrote 0 c; Quiet]); [|by apply (demo_hand_over x c)].
  eapply (run_more _ _ _ [Wrote 0 c]); [eapply (run_more _ _ _ []); [constructor|by apply demo_write]|].
  pose proof (demo_pass x (encode_client c) [] (encode_client c) (Offering c)) as H. rewrite drop_all in H. apply H; [|..|done].
  - split; [done|]. split; [done|]. rewrite Hle. reflexivity.
  - cbn [session_turn app]. rewrite bool_decide_eq_false_2 by done. rewrite decode_encode_client by done.
    by rewrite (proj2 (Nat.leb_le _ _)) by (rewrite Hle; done).
Qed.

(** The conditions of an idle iteration, computed. *)
Definition idle_b (x : System) : bool :=
  match sys_outbox x, sys_pc x, groups (sys_engine x), trade_consumers (sys_oms x) with
  | [], AtRing 0, [g0; g1], [h0; h1] =>
      negb (any_new_trade h0 (trade_mem g0)) && negb (any_new_trade h1 (trade_mem g1)) &&
      bool_decide (take (Z.to_nat MAX_SYMBOLS) (last_price (sys_engine x)) = last_seen_price (sys_oms x)) &&
      bool_decide (length (last_seen_price (sys_oms x)) = Z.to_nat MAX_SYMBOLS)
  | _, _, _, _ => false
  end.

Lemma idle_computed clock junk_price x srv cs :
  idle_b x = true →
  ∃ k, ex_run clock junk_price (mkExchange x srv cs) (replicate k Quiet) (mkExchange (at_pc AtIntake x) srv cs).
Proof.
  unfold idle_b. destruct (sys_outbox x) as [|] eqn:Ho; [|done]. destruct (sys_pc x) as [|[|?]|] eqn:Hpc; [done| |done..].
  destruct (groups (sys_engine x)) as [|g0 [|g1 [|? ?]]] eqn:Hg; [done..| |done].
  destruct (trade_consumers (sys_oms x)) as [|h0 [|h1 [|? ?]]] eqn:Hh; [done..| |done].
  rewrite !andb_true_iff, !negb_true_iff, !bool_decide_eq_true. intros [[[H0 H1] Hp] Hl].
  destruct (idle_run clock junk_price x srv cs Ho) as [k Hk]; [|done|done|].
  - intros i Hi. change (Z.to_nat GROUP_COUNT) with 2%nat in Hi. rewrite Hg, Hh.
    destruct i as [|[|i]]; [exists g0, h0|exists g1, h1|lia]; done.
  - exists k. replace x with (at_pc (AtRing 0) x) at 1; [done|]. destruct x. cbn in Hpc. by subst.
Qed.

(** The whole run, for any states with the transitions between them. *)
Lemma trade_run_from x x1 x2 x3 y1 y2 y3 ts1 ts2 ts3 :
  ex_run (λ _, 7) 0 (ex_start x) (take 5 demo_trace) (mkExchange x1 demo_srv (demo_conn [] (Reading []))) →
  hand_over trade_buy x1 = Some x2 →
  (match enqueueClientOrder trade_buy (sys_oms x1) with Some (ok, _) => ok | None => false end) = true →
  hand_over trade_sell x2 = Some x3 →
  (match enqueueClientOrder trade_sell (sys_oms x2) with Some (ok, _) => ok | None => false end) = true →
  Forall thread_ok ts1 → Forall thread_ok ts2 → Forall thread_ok ts3 →
  run_turns (λ _, 7) 0 ts1 x3 = Some y1 → idle_b y1 = true →
  run_turns (λ _, 7) 0 ts2 (at_pc AtIntake y1) = Some y2 → idle_b y2 = true →
  run_turns (λ _, 7) 0 ts3 (at_pc AtIntake y2) = Some y3 →
  ∃ k1 k2, ex_run (λ _, 7) 0 (ex_start x)
    (take 5 demo_trace ++ [Wrote 0 trade_buy; Quiet; Handed 0 trade_buy] ++ [Wrote 0 trade_sell; Quiet; Handed 0 trade_sell] ++
     turn_labels (λ _, 7) 0 ts1 x3 ++ replicate k1 Quiet ++ turn_labels (λ _, 7) 0 ts2 (at_pc AtIntake y1) ++
     replicate k2 Quiet ++ turn_labels (λ _, 7) 0 ts3 (at_pc AtIntake y2))
    (mkExchange y3 demo_srv (demo_conn [] (Reading []))).
Proof.
  intros H1 H2 H2' H3 H3' Ht1 Ht2 Ht3 Hy1 Hi1 Hy2 Hi2 Hy3. destruct trade_fit as [Hf1 Hf2].
  destruct (idle_computed (λ _, 7) 0 y1 demo_srv (demo_conn [] (Reading [])) Hi1) as [k1 Hk1].
  destruct (idle_computed (λ _, 7) 0 y2 demo_srv (demo_conn [] (Reading [])) Hi2) as [k2 Hk2].
  exists k1, k2. eapply ex_run_app; [exact H1|]. eapply ex_run_app; [by apply demo_delivers|].
  eapply ex_run_app; [by apply demo_delivers|]. eapply ex_run_app; [by apply turns_run|]. eapply ex_run_app; [exact Hk1|].
  eapply ex_run_app; [by apply turns_run|]. eapply ex_run_app; [exact Hk2|]. by apply turns_run.
Qed.

Lemma trade_run : ∃ k1 k2, ex_run (λ _, 7) 0 (ex_start demo_start) (trade_trace k1 k2) trade_exchange.
Proof.
  apply (trade_run_from demo_start demo_received trade_handed1 trade_handed2 trade_taken1 trade_taken2 trade_done
    trade_take trade_take trade_turns).
  - destruct demo_handed as [H1 H2]. eapply (run_more _ _ _ (take 4 demo_trace)); [apply demo_arrives|by apply demo_hand_over].
  - apply computed. vm_compute. reflexivity.
  - vm_compute. reflexivity.
  - apply computed. vm_compute. reflexivity.
  - vm_compute. reflexivity.
  - repeat constructor.
  - repeat constructor.
  - repeat constructor; unfold GROUP_COUNT; lia.
  - apply computed. vm_compute. reflexivity.
  - vm_compute. reflexivity.
  - apply computed. vm_compute. reflexivity.
  - vm_compute. reflexivity.
  - apply computed. vm_compute. reflexivity.
Qed.

Lemma trade_few : few trade_done.
Proof. apply few_computed. vm_compute. reflexivity. Qed.

Lemma trade_small : small 1000 trade_done.
Proof. vm_compute. split; reflexivity. Qed.

(** What the trace says. *)
Lemma quiet_labels {A} (p : label → option A) k : p Quiet = None → omap p (replicate k Quiet) = [].
Proof. intros H. induction k as [|k IH]; [done|]. cbn. by rewrite H. Qed.

Lemma trade_labels :
  turn_labels (λ _, 7) 0 trade_take trade_handed2 = [Took demo_limit; Quiet] ∧
  turn_labels (λ _, 7) 0 trade_take (at_pc AtIntake trade_taken1) = [Took trade_buy; Quiet] ∧
  turn_labels (λ _, 7) 0 trade_turns (at_pc AtIntake trade_taken2) = [Took trade_sell; Quiet; Quiet; Quiet; Quiet].
Proof. vm_compute. split; [|split]; reflexivity. Qed.

Lemma trade_taken_orders k1 k2 : taken (trade_trace k1 k2) = [demo_limit; trade_buy; trade_sell].
Proof.
  unfold taken, trade_trace. destruct trade_labels as (-> & -> & ->). rewrite !omap_app, !quiet_labels by done. reflexivity.
Qed.

Lemma trade_simple k1 k2 i : Forall simple (written i (trade_trace k1 k2)).
Proof.
  unfold written, trade_trace. destruct trade_labels as (-> & -> & ->). rewrite !omap_app, !quiet_labels by done.
  destruct (decide (0%nat = i)) as [<-|Hi]; cbn; [repeat constructor|]. by rewrite !decide_False.
Qed.

(** The feed has sent two messages, when the run has made two trades. *)
Lemma two_fed engine_capacity oms_capacity boot pools totals lower upper cap symbols clock junk_price js jt junk n nq x0 tr e :
  boot_ok engine_capacity oms_capacity boot pools totals lower upper cap symbols n nq →
  (∀ k, is_u64 (clock k)) → is_u64 junk_price → Z.of_nat (length junk) = queue_buffer_size →
  boot_system engine_capacity oms_capacity boot pools totals lower upper symbols = Some x0 →
  ex_run clock junk_price (ex_start x0) tr e → small boot (ex_system e) →
  (λ g, next_expected_seq (trade_buffer g)) <$> groups (sys_engine (ex_system e)) !! 0%nat = Some 3 →
  ∃ f m1 m2, market_run clock junk_price js jt (market_new x0 junk) tr [] (mkMarket e f) ∧
    mf_sending f = true ∧ concat (mf_udp f) = [m1; m2] ∧ m_seq_num m2 = 1.
Proof.
  intros Hbk Hclock Hjunk Hj H0 Hrun Hsm (g & Hg & Hseq)%fmap_Some.
  pose proof (start_inv _ _ _ _ _ _ _ _ _ n nq Hbk x0 H0) as Hex0.
  destruct (ex_run_inv clock junk_price n _ _ _ Hex0 Hrun) as [_ Hsys].
  destruct (reachable_rep _ _ _ _ _ _ _ _ _ clock junk_price Hclock Hjunk n nq Hbk x0 _ H0 Hsys Hsm) as (_ & fl & _ & Hr).
  clear H0 Hex0 Hsys. destruct (sr_group _ _ _ _ _ Hr 0%nat g Hg) as (dn & pd & Hfg & _).
  set (A0 := agroup_new lower upper cap) in *. set (h := trades_at A0 0 dn).
  assert (tape_of A0 fl (ex_system e) !! 0%nat = Some (h, trade_mem g)) as Htape
    by (unfold tape_of; rewrite list_lookup_imap, Hg, Hfg; reflexivity).
  destruct (tape_lookup n nq A0 fl _ 0 h _ Hr Htape) as (g' & _ & _ & Hg' & _ & _ & _ & Hn).
  rewrite Hg in Hg'. apply (inj Some) in Hg'. subst g'. rewrite <- Hseq in Hn. generalize dependent h. intros h Htape Hn.
  destruct (trades_fed clock junk_price js jt junk n nq A0 x0 tr e fl h _ Hj Hrun Hr Htape) as (f & Hm & Hs & Hu); [lia|].
  destruct h as [|t1 [|t2 [|? ?]]]; cbn [length] in Hn; try lia.
  exists f, (message_of 0 t1), (message_of 1 t2). split; [exact Hm|]. split; [exact Hs|]. split; [exact Hu|reflexivity].
Qed.

Lemma trade_fed : ∃ k1 k2 f m1 m2,
  market_run (λ _, 7) 0 0 day_trade (market_new demo_start junk_mq) (trade_trace k1 k2) [] (mkMarket trade_exchange f) ∧
  mf_sending f = true ∧ concat (mf_udp f) = [m1; m2] ∧ m_seq_num m2 = 1.
Proof.
  destruct trade_run as (k1 & k2 & Hrun). exists k1, k2.
  apply (two_fed 16 16 1000 demo_pools demo_totals demo_lower demo_upper 2 demo_symbols (λ _, 7) 0 0 day_trade junk_mq 16 16
    demo_start (trade_trace k1 k2) trade_exchange demo_boot_ok demo_clock ltac:(mach) junk_mq_length demo_boots Hrun trade_small).
  vm_compute. reflexivity.
Qed.

Lemma market_end_to_end_witness :
  ∃ f log lost queue m1 m2, concat (mf_udp f) = [m1; m2] ∧ concat (mf_udp f) ++ lost ++ queue = messages log ∧ lost = [] ∧
    sent (sys_oms (ex_system trade_exchange)) =
      orders_for (λ _, 7) 0 1000 (default ∅ (load_lookup demo_symbols)) [demo_limit; trade_buy; trade_sell].
Proof.
  destruct trade_fed as (k1 & k2 & f & m1 & m2 & Hrun & Hs & Hu & _).
  destruct (market_end_to_end 16 16 1000 demo_pools demo_totals demo_lower demo_upper 2 demo_symbols (λ _, 7) 0 demo_clock ltac:(mach)
    0 day_trade junk_mq junk_mq_length 16 16 demo_boot_ok demo_start (default ∅ (load_lookup demo_symbols)) (trade_trace k1 k2) []
    (mkMarket trade_exchange f) demo_boots) as [H (log & lost & queue & _ & _ & Hm & Hl & _)].
  - apply computed. vm_compute. reflexivity.
  - exact Hrun.
  - exact trade_small.
  - exact trade_few.
  - exists f, log, lost, queue, m1, m2. split; [exact Hu|]. split; [apply Hm, not_elem_of_nil|]. split; [apply (Hl Hs)|].
    rewrite trade_taken_orders in H. cbn [mk_exchange] in H. exact (H (trade_simple k1 k2)).
Defined.

Lemma tape_recovered_witness :
  ∃ f m1 m2 l requested, concat (mf_udp f) = [m1; m2] ∧
    listen_packet [m2] (mkListener 0 empty_sq) = Some l ∧
    fq_rep (FifoQueue:=spsc_fifo queue_buffer_size) (missing l) requested.
Proof.
  destruct trade_fed as (k1 & k2 & f & m1 & m2 & Hrun & Hs & Hu & Hm2).
  destruct (tape_recovered 16 16 1000 demo_pools demo_totals demo_lower demo_upper 2 demo_symbols (λ _, 7) 0 demo_clock ltac:(mach)
    0 day_trade junk_mq junk_mq_length 16 16 demo_boot_ok demo_start (trade_trace k1 k2) []
    (mkMarket trade_exchange f) m1 [m2] [mf_tcp f] empty_sq demo_boots Hrun trade_small trade_few Hs) as (l & req & log & H1 & H2 & _).
  - apply not_elem_of_nil.
  - apply not_elem_of_nil.
  - cbn [mk_feed]. rewrite Hu. discriminate.
  - cbn [concat]. apply app_nil_r.
  - cbn [mk_feed]. rewrite Hu. intros m ->%list_elem_of_singleton. right. left.
  - left. split; [rewrite Hm2; reflexivity|exact I].
  - exact empty_sq_rep.
  - exists f, m1, m2, l, req. split; [exact Hu|]. split; [exact H1|exact H2].
Defined.
