(* ===== verification/Archive.v ===== *)
(** src/live_tp.cpp: the process that keeps the trades in files, with a trade
    processor per ring, on the rings that the engine groups of [System] write.

    [TradeProcessor] leaves open which trades are published; here they are
    those of the groups, so that what is in the files can be traced back to
    the orders. *)

From stdpp Require Import relations.
From S2P Require Import Prelude Types MemPool PriceTime TradeRing Fifo RingBuffer Spsc Engine Group EngineTheorems Ledger Oms OmsTheorems SymbolLoader TradeProcessor MarketFeed Feed OmsLoop System IcebergRun Exchange Market.

(** * The construction *)

(** ["file_" + std::to_string(i) + "_"], and the name of the file with number
    [n]: the counter [fileNumber] is one for the process. *)
Definition file_name_base (i : nat) : text := literal "file_" ++ print_dec (Z.of_nat i) ++ literal "_".
Definition region_name (base : text) (n : Z) : text := literal "./file_output/" ++ base ++ print_dec n.

Section construction.
(** What the calls on the file of a name return; the uninitialised arrays of
    processor [i]. *)
Context (fs : text → file_result) (junk : nat → list Z * list Z * list Z).

(** The first loop of [main], on the processors still to be constructed;
    [inl] is the code of [exit]. *)
Fixpoint construct (todo : list nat) (fileNumber : Z) : option (Z + list TradeProcessor) :=
  match todo with
  | [] => Some (inr [])
  | i :: todo =>
      let '(jf, jw, jp) := junk i in
      r ← TradeProcessor_new (λ j, fs (region_name (file_name_base i) (fileNumber + j))) jf jw jp;
      match r with
      | inl code => Some (inl code)
      | inr t =>
          r ← construct todo (fileNumber + region_count);
          Some (match r with inl code => inl code | inr ts => inr (t :: ts) end)
      end
  end.

Definition live_tp : option (Z + list TradeProcessor) := construct (seq 0 (Z.to_nat total_ring_buffer_count)) 1.

(** The files, in the order in which they are opened. *)
Fixpoint names_from (todo : list nat) (fileNumber : Z) : list text :=
  match todo with
  | [] => []
  | i :: todo => ((λ j, region_name (file_name_base i) (fileNumber + j)) <$> seqZ 0 region_count) ++
      names_from todo (fileNumber + region_count)
  end.
Definition live_names : list text := names_from (seq 0 (Z.to_nat total_ring_buffer_count)) 1.

Context (Hjunk : ∀ i, length (junk i).1.2 = Z.to_nat mem_regions ∧ length (junk i).2 = Z.to_nat mem_regions).

Definition constructed (todo : list nat) (n : Z) (r : Z + list TradeProcessor) : Prop :=
  match r with
  | inl code => code = -1 ∧ ∃ name, name ∈ names_from todo n ∧ ¬ file_good (fs name)
  | inr ts => length ts = length todo ∧ (∀ name, name ∈ names_from todo n → file_good (fs name)) ∧
      Forall (λ t, tp_inv [] t (seqZ 0 region_count) []) ts
  end.

Lemma construct_cases todo : ∀ n, ∃ r, construct todo n = Some r ∧ constructed todo n r.
Proof.
  induction todo as [|i todo IH]; intros n; cbn [construct].
  { exists (inr []). split; [done|]. split; [done|]. split; [by intros name ?%elem_of_nil|constructor]. }
  destruct (junk i) as [[jf jw] jp] eqn:Hj. destruct (Hjunk i) as [Hw Hp]. rewrite Hj in Hw, Hp. cbn [fst snd] in Hw, Hp.
  destruct (tp_new_cases (λ j, fs (region_name (file_name_base i) (n + j))) jf jw jp Hw Hp) as (r & -> & Hcase).
  cbn [mbind option_bind]. destruct r as [code|t].
  { destruct Hcase as (-> & j & Hj' & Hb). exists (inl (-1)). split; [done|]. split; [done|]. eexists. split; [|exact Hb].
    cbn [names_from]. apply elem_of_app. left. apply list_elem_of_fmap. exists j. split; [done|]. apply elem_of_seqZ. lia. }
  destruct Hcase as [Hgood Ht]. destruct (IH (n + region_count)) as (r & -> & Hr). cbn [mbind option_bind].
  eexists. split; [reflexivity|]. destruct r as [code|ts]; cbn [constructed names_from] in *.
  - destruct Hr as (-> & name & Hn & Hb). split; [done|]. exists name. split; [apply elem_of_app; by right|done].
  - destruct Hr as (Hl & Hall & Hts). split; [cbn; by rewrite Hl|]. split; [|by constructor].
    intros name [Hn|Hn]%elem_of_app; [|by apply Hall]. apply list_elem_of_fmap in Hn as (j & -> & Hj'%elem_of_seqZ).
    apply Hgood. lia.
Qed.
End construction.

(** No two regions share a file. *)
Lemma live_names_distinct : NoDup live_names.
Proof. apply (bool_decide_unpack _). vm_compute. exact I. Qed.

(** The process starts with two trade processors when all 62 files can be
    opened, enlarged and mapped, and otherwise exits with -1. *)
Theorem live_tp_starts fs junk :
  (∀ i, length (junk i).1.2 = Z.to_nat mem_regions ∧ length (junk i).2 = Z.to_nat mem_regions) →
  ∃ r, live_tp fs junk = Some r ∧
    match r with
    | inl code => code = -1 ∧ ∃ name, name ∈ live_names ∧ ¬ file_good (fs name)
    | inr ts => length ts = 2%nat ∧ ∀ name, name ∈ live_names → file_good (fs name)
    end.
Proof.
  intros Hj. destruct (construct_cases fs junk Hj (seq 0 (Z.to_nat total_ring_buffer_count)) 1) as (r & Hrun & Hr).
  exists r. split; [exact Hrun|]. destruct r as [code|ts]; [exact Hr|]. by destruct Hr as (Hl & Hall & _).
Qed.

(** * The exchange and its archive *)

Record Archive := mkArchive {
  ar_system : System;
  ar_tps : list TradeProcessor
}.

Section archive.
Context (clock : nat → Z) (junk_price : Z) (js : Z) (jt : Trade).

(** A step of the exchange, of the writer of a processor, which sees the ring
    of its group as it is, or of its persistence thread. *)
Inductive ar_step (a : Archive) : Archive → Prop :=
| ar_exchange x : sys_step clock junk_price (ar_system a) x → ar_step a (mkArchive x (ar_tps a))
| ar_write i g t t' : groups (sys_engine (ar_system a)) !! i = Some g → ar_tps a !! i = Some t →
    writer_step js jt (trade_mem g) t = Some t' → ar_step a (mkArchive (ar_system a) (<[i := t']> (ar_tps a)))
| ar_persist i t t' : ar_tps a !! i = Some t → persist_step t = Some t' →
    ar_step a (mkArchive (ar_system a) (<[i := t']> (ar_tps a))).

Lemma ar_step_sys a a' : ar_step a a' → ar_system a' = ar_system a ∨ sys_step clock junk_price (ar_system a) (ar_system a').
Proof. intros []; by auto. Qed.

Lemma ar_run_sys a a' : rtc ar_step a a' → rtc (sys_step clock junk_price) (ar_system a) (ar_system a').
Proof.
  induction 1 as [|a1 a2 a3 [E|H]%ar_step_sys _ IH]; [done|by rewrite E in IH|by eapply rtc_l].
Qed.

Context (Hclock : ∀ k, is_u64 (clock k)) (Hjunk : is_u64 junk_price).
Context (n nq boot : Z) (A0 : nat → AGroup) (Hboot : 0 <= boot).

(** Every processor is right about the tape of its group. *)
Definition archive_inv (a : Archive) (fl : flow) : Prop :=
  sys_rep n nq A0 (ar_system a) fl ∧
  ∀ i t h m, ar_tps a !! i = Some t → tape_of A0 fl (ar_system a) !! i = Some (h, m) → state_inv (h, m, t).

Lemma archive_tp a fl i t t' g :
  archive_inv a fl → ar_tps a !! i = Some t → groups (sys_engine (ar_system a)) !! i = Some g →
  (∀ h, tp_step js jt (h, trade_mem g, t) (h, trade_mem g, t')) →
  archive_inv (mkArchive (ar_system a) (<[i := t']> (ar_tps a))) fl.
Proof.
  intros [Hr Hi] Ht Hg Hst. split; [done|]. cbn [ar_system ar_tps]. intros j u h m Hj Hx.
  apply list_lookup_insert_Some in Hj as [(<- & <- & _)|(Hne & Hj)]; [|by eapply Hi].
  destruct (tape_lookup n nq A0 fl _ _ _ _ Hr Hx) as (g' & _ & _ & Hg' & _). pose proof Hx as Hx'.
  unfold tape_of in Hx'. rewrite list_lookup_imap, Hg in Hx'. injection Hx' as _ Hm.
  eapply tp_steps_inv; [|by apply (Hi i t h m)]. rewrite <- Hm. by apply rtc_once.
Qed.

Lemma archive_step a a' fl :
  ar_step a a' → ids_inv boot (sys_oms (ar_system a)) → small boot (ar_system a) → few (ar_system a') →
  archive_inv a fl → ∃ fl', archive_inv a' fl'.
Proof.
  intros Hst Hids Hsm Hfew Hinv. pose proof Hinv as [Hr Hi]. destruct Hst as [x Hst|i g t t' Hg Ht Hrun|i t t' Ht Hrun].
  - cbn [ar_system] in Hfew. destruct (sys_step_tape clock junk_price Hclock Hjunk n nq boot A0 _ x fl Hst Hr Hids Hsm)
      as (fl' & Hr' & _ & Hgrow).
    exists fl'. split; [done|]. cbn [ar_system ar_tps]. intros i t h m Ht Hx.
    destruct (Hgrow i h m Hx) as (h0 & m0 & H0 & Hp). destruct (Hi i t h0 m0 Ht H0) as (_ & _ & w & p & Htp).
    destruct (tape_lookup n nq A0 fl' x i h m Hr' Hx) as (g & dn & pd & Hg & _ & _ & Hring & Hseq).
    split; [done|]. split; [specialize (Hfew i g Hg); lia|]. exists w, p. by eapply tp_inv_mono.
  - exists fl. eapply archive_tp; [done..|]. intros h. by apply tp_write.
  - exists fl. destruct (groups (sys_engine (ar_system a)) !! i) as [g|] eqn:Hg.
    { eapply archive_tp; [done..|]. intros h. by apply tp_persist. }
    split; [done|]. cbn [ar_system ar_tps]. intros j u h m Hj Hx.
    destruct (tape_lookup n nq A0 fl _ _ _ _ Hr Hx) as (g' & _ & _ & Hg' & _).
    apply list_lookup_insert_Some in Hj as [(<- & _)|(_ & Hj)]; [congruence|by eapply Hi].
Qed.
End archive.

(** * Every run from the start *)

Section boot.
Context (engine_capacity oms_capacity boot : Z) (pools : Z → Z → list OrderNode) (totals : Z → Z → Z * Z) (lower upper : list Z).
Context (cap : nat) (symbols : list (list Z * Z)).
Context (clock : nat → Z) (junk_price : Z) (Hclock : ∀ k, is_u64 (clock k)) (Hjunk : is_u64 junk_price).
Context (js : Z) (jt : Trade) (fs : text → file_result) (junk : nat → list Z * list Z * list Z).
Context (Harrays : ∀ i, length (junk i).1.2 = Z.to_nat mem_regions ∧ length (junk i).2 = Z.to_nat mem_regions).
Context (n nq : Z) (Hbk : boot_ok engine_capacity oms_capacity boot pools totals lower upper cap symbols n nq).

#[local] Abbreviation A0 := (agroup_new lower upper cap).
#[local] Abbreviation boots x0 := (boot_system engine_capacity oms_capacity boot pools totals lower upper symbols = Some x0).

Lemma start_archive x0 tps0 :
  boots x0 → live_tp fs junk = Some (inr tps0) → archive_inv n nq A0 (mkArchive x0 tps0) flow_new.
Proof.
  intros H0 Htp. destruct (boot_rep _ _ _ _ _ _ _ _ _ n nq x0 Hbk H0) as [Hr _]. clear H0.
  destruct (construct_cases fs junk Harrays (seq 0 (Z.to_nat total_ring_buffer_count)) 1) as (r & Hrun & Hcase).
  unfold live_tp in Htp. rewrite Htp in Hrun. apply (inj Some) in Hrun. subst r. destruct Hcase as (_ & _ & Hall).
  split; [done|]. cbn [ar_system ar_tps]. intros i t h m Ht Hx.
  destruct (tape_lookup n nq A0 flow_new x0 i h m Hr Hx) as (g & dn & pd & Hg & Hfg & -> & Hring & _).
  cbn [flow_new f_groups] in Hfg. apply lookup_replicate in Hfg as [[= -> ->] Hlt]. split; [done|]. split; [done|].
  exists (seqZ 0 region_count), []. rewrite Forall_forall in Hall. by eapply Hall, list_elem_of_lookup_2.
Qed.

Lemma archive_reachable x0 tps0 a :
  boots x0 → live_tp fs junk = Some (inr tps0) → rtc (ar_step clock junk_price js jt) (mkArchive x0 tps0) a →
  small boot (ar_system a) → few (ar_system a) → ∃ fl, archive_inv n nq A0 a fl.
Proof.
  intros H0 Htp Hrun. pose proof (start_archive x0 tps0 H0 Htp) as Hi0.
  pose proof (λ x x', step_back _ _ _ _ _ _ _ _ _ clock junk_price Hclock Hjunk n nq Hbk x0 x x' H0) as Hback. clear H0 Htp.
  remember (mkArchive x0 tps0) as a0 eqn:Ha0. assert (ar_system a0 = x0) as Hx0 by (by subst a0). clear Ha0.
  revert a Hrun. apply (rtc_ind_r (λ a, small boot (ar_system a) → few (ar_system a) → ∃ fl, archive_inv n nq A0 a fl));
    [by eexists|]. intros a a' Hrun Hst IH Hsm Hfew.
  pose proof (ar_run_sys clock junk_price js jt _ _ Hrun) as Hsys. rewrite Hx0 in Hsys.
  destruct (Hback (ar_system a) (ar_system a') Hsys) as (Hids & Hsm0 & Hfew0); [by eapply ar_step_sys|exact Hsm|exact Hfew|].
  destruct (IH Hsm0 Hfew0) as [fl Hi]. by eapply (archive_step clock junk_price js jt Hclock Hjunk n nq boot A0 a a').
Qed.

(** C18: What is in the files are the trades of the exchange: in every
    interleaving of clients whose orders are [client_fit], OMS, engine groups
    and the writers and persistence threads of live_tp, each on its own 31
    files, and as long as no ring has wrapped ([few]: at most [2^20] trades a
    ring, so that a writer that lags behind finds none overwritten) and the ids
    are not used up ([small]), the trades that
    the processor of a ring has copied are, in order, the first trades that
    the price-time contract makes of the orders the group has processed,
    which are the first of those the OMS sent to it; each region is in exactly
    one place, and the next step of both threads is defined; and once the
    group has made 50000 trades, 500401 rounds of both threads, in any
    schedule, end with exactly the first 50000 copied, every copy followed by
    a sync of its region. *)
Theorem archive_faithful x0 tps0 a :
  boots x0 → live_tp fs junk = Some (inr tps0) → rtc (ar_step clock junk_price js jt) (mkArchive x0 tps0) a →
  small boot (ar_system a) → few (ar_system a) →
  NoDup live_names ∧ ∀ i g t, groups (sys_engine (ar_system a)) !! i = Some g → ar_tps a !! i = Some t → ∃ dn rest,
    let trades := ag_trades (aserve (agroup_new lower upper cap i) dn) in
    filter (routed i) (sent (sys_oms (ar_system a))) = dn ++ rest ∧
    (snd <$> writes (tp_trace t)) `prefix_of` trades ∧
    (∃ w p, holds (rb_write t) w ∧ holds (rb_persist t) p ∧
       unmapped (tp_trace t) ++ w ++ hand (tp_persister t) ++ p ++ current (tp_writer t) ≡ₚ seqZ 0 region_count) ∧
    is_Some (writer_step js jt (trade_mem g) t) ∧ is_Some (persist_step t) ∧
    ∀ blocks, maxTradesPerTP <= Z.of_nat (length trades) →
      Forall (λ b, Writer ∈ b ∧ Persister ∈ b) blocks → 500400 < Z.of_nat (length blocks) →
      ∃ t', run_threads js jt (trade_mem g) (concat blocks) t = Some t' ∧
        w_pc (tp_writer t') = WEnd ∧ p_pc (tp_persister t') = PEnd ∧
        (snd <$> writes (tp_trace t')) = take (Z.to_nat maxTradesPerTP) trades ∧
        ∀ k r o x, tp_trace t' !! k = Some (EWrite r o x) → ∃ j, (k < j)%nat ∧ tp_trace t' !! j = Some (ESync r).
Proof.
  intros H0 Htp Hrun Hsm Hfew. split; [exact live_names_distinct|].
  destruct (archive_reachable x0 tps0 a H0 Htp Hrun Hsm Hfew) as [fl [Hr Hi]]. clear H0 Htp Hrun. intros i g t Hg Ht.
  destruct (rep_groups n nq A0 _ fl i g Hr Hg) as (dn & pd & Hfg & Hsent & _). eexists dn, _. split; [exact Hsent|].
  assert (state_inv (trades_at A0 i dn, trade_mem g, t)) as Hst.
  { apply (Hi i t); [exact Ht|]. unfold tape_of. by rewrite list_lookup_imap, Hg, Hfg. }
  destruct (tp_state_safe js jt _ _ _ Hst) as (H1 & H2 & H3 & H4 & _). split; [exact H4|]. split; [exact H1|].
  split; [exact H2|]. split; [exact H3|]. intros blocks Hmax Hb Hn.
  destruct (tp_state_ends js jt _ _ _ blocks Hst Hmax Hb Hn) as (t' & E1 & E2 & E3 & E4 & E5 & _). by exists t'.
Qed.
End boot.

(** * Witness *)

(** Two trades are made and the writer of the first processor copies one. *)
Definition demo_junk (i : nat) : list Z * list Z * list Z := ([], replicate 32 0, replicate 32 0).
Definition demo_fs (name : text) : file_result := mkFile 3 0 true.
Definition demo_tps : list TradeProcessor := match live_tp demo_fs demo_junk with Some (inr ts) => ts | _ => [] end.
Definition ring_of (x : System) : ring_mem := default ∅ (trade_mem <$> groups (sys_engine x) !! 0%nat).
Definition copied_tp : TradeProcessor :=
  default fresh_tp (t ← demo_tps !! 0%nat; writer_step 0 day_trade (ring_of (ex_system trade_exchange)) t).
Definition demo_archive : Archive := mkArchive (ex_system trade_exchange) (<[0%nat := copied_tp]> demo_tps).

Lemma demo_live : live_tp demo_fs demo_junk = Some (inr demo_tps).
Proof. vm_compute. reflexivity. Qed.

(** A run of the exchange and a step of the writer, for any states. *)
Lemma archive_run_from clock junk_price js jt n x0 tr e tps g t t' :
  ex_inv n [] (ex_start x0) → ex_run clock junk_price (ex_start x0) tr e →
  groups (sys_engine (ex_system e)) !! 0%nat = Some g → tps !! 0%nat = Some t → writer_step js jt (trade_mem g) t = Some t' →
  rtc (ar_step clock junk_price js jt) (mkArchive x0 tps) (mkArchive (ex_system e) (<[0%nat := t']> tps)).
Proof.
  intros Hi Hrun Hg Ht Hw. destruct (ex_run_inv clock junk_price n _ _ _ Hi Hrun) as [_ Hx].
  eapply rtc_r; [|by apply (ar_write _ _ _ _ (mkArchive (ex_system e) tps) 0 g t t')]. clear Hg Hw Hi Hrun.
  change x0 with (ex_system (ex_start x0)). revert Hx. generalize (ex_system (ex_start x0)), (ex_system e). intros x1 x2 Hx.
  induction Hx as [|x1 x2 x3 Hst _ IH]; [done|]. eapply rtc_l; [|exact IH]. by apply (ar_exchange _ _ _ _ (mkArchive x1 tps)).
Qed.

Lemma demo_copied : ∃ g t, groups (sys_engine (ex_system trade_exchange)) !! 0%nat = Some g ∧ demo_tps !! 0%nat = Some t ∧
  writer_step 0 day_trade (trade_mem g) t = Some copied_tp.
Proof.
  destruct (groups (sys_engine (ex_system trade_exchange)) !! 0%nat) as [g|] eqn:Hg; [|vm_compute in Hg; discriminate].
  destruct (demo_tps !! 0%nat) as [t|] eqn:Ht; [|vm_compute in Ht; discriminate].
  exists g, t. split; [reflexivity|]. split; [reflexivity|].
  assert (trade_mem g = ring_of (ex_system trade_exchange)) as -> by (unfold ring_of; by rewrite Hg).
  unfold copied_tp. rewrite Ht. apply computed. vm_compute in Ht. apply (inj Some) in Ht. subst t. vm_compute. reflexivity.
Qed.

Lemma demo_archived : rtc (ar_step (λ _, 7) 0 0 day_trade) (mkArchive demo_start demo_tps) demo_archive.
Proof.
  destruct trade_run as (k1 & k2 & Hrun), demo_copied as (g & t & Hg & Ht & Hw).
  pose proof (start_inv _ _ _ _ _ _ _ _ _ 16 16 demo_boot_ok demo_start demo_boots) as Hex0.
  exact (archive_run_from (λ _, 7) 0 0 day_trade 16 demo_start _ trade_exchange demo_tps g t copied_tp Hex0 Hrun Hg Ht Hw).
Qed.

Lemma archive_faithful_witness :
  ∃ trade, (snd <$> writes (tp_trace copied_tp)) = [trade] ∧ (∃ dn rest,
    filter (routed 0) (sent (sys_oms (ar_system demo_archive))) = dn ++ rest ∧
    [trade] `prefix_of` ag_trades (aserve (agroup_new demo_lower demo_upper 2 0) dn)).
Proof.
  destruct demo_copied as (g & t & Hg & Ht & _).
  destruct (archive_faithful 16 16 1000 demo_pools demo_totals demo_lower demo_upper 2 demo_symbols (λ _, 7) 0 demo_clock ltac:(mach)
    0 day_trade demo_fs demo_junk (λ _, conj eq_refl eq_refl) 16 16 demo_boot_ok demo_start demo_tps demo_archive demo_boots demo_live
    demo_archived trade_small trade_few) as [_ H].
  assert (ar_tps demo_archive !! 0%nat = Some copied_tp) as Hc
    by (apply list_lookup_insert_eq; by eapply lookup_lt_Some).
  destruct (H 0%nat g copied_tp Hg Hc) as (dn & rest & Hs & Hp & _).
  assert (∃ trade, (snd <$> writes (tp_trace copied_tp)) = [trade]) as [trade E] by (vm_compute; eexists; reflexivity).
  exists trade. split; [exact E|]. exists dn, rest. split; [exact Hs|]. rewrite <- E. exact Hp.
Defined.
