(* ===== verification/Pipeline.v ===== *)
(** [main] of src/tests/pipeline_server.cpp: the command line, the symbol
    file, the construction of the exchange, and its stop in the order server,
    OMS, engine, with the end-of-day file.

    [pipeline_start] ties the symbol file to [System]: the theorems there
    assume a price band for every symbol and ids below 2048, and here they
    follow from the file.  [pipe_step] runs the exchange together with the
    main thread until [main] returns. *)

From S2P Require Import Prelude Types Heap MemPool PriceTime OrderBook BookInv TradeRing RingBuffer Engine Group EngineTheorems Oms OmsSymbols OmsTheorems SymbolLoader Wire Bots OmsLoop System.

(** * Set-up *)

(** [port] and [runtime_seconds]; [None]: [std::stoi] throws. *)
Definition pipeline_args (argv : list text) : option (Z * Z) :=
  let number i d := match argv !! i with Some t => stoi t | None => Some d end in
  port ← number 1%nat 9000;
  runtime_seconds ← number 2%nat 20;
  Some (port mod 2 ^ 16, runtime_seconds).

(** The body of the loop over [symbol_data]. *)
Definition set_limit (lu : list Z * list Z) (s : SymbolInfo) : list Z * list Z :=
  if sy_symbol_id s <? TOTAL_SYMBOLS then
    (<[Z.to_nat (sy_symbol_id s) := sy_lower_limit s]> lu.1, <[Z.to_nat (sy_symbol_id s) := sy_upper_limit s]> lu.2)
  else lu.

Definition pipeline_limits (symbol_data : list SymbolInfo) : list Z * list Z :=
  let zeros := replicate (Z.to_nat TOTAL_SYMBOLS) 0 in foldl set_limit (zeros, zeros) symbol_data.

(** What the OMS takes from the same file. *)
Definition listed (symbol_data : list SymbolInfo) : list (list Z * Z) :=
  (λ s, (sy_symbol s, sy_symbol_id s)) <$> symbol_data.

Inductive started := Failed (code : Z) | Started (port runtime_seconds : Z) (symbol_data : list SymbolInfo) (x : System).

(** [main] up to the start of the threads.  [file] is what data/symbols.csv
    holds, nothing when it does not exist. *)
Definition pipeline_start (argv : list text) (file : text) (mems : Z → Z → option (list OrderNode))
  (junk : Z → Z → Z * Z) (boot_timestamp : Z) : option started :=
  '(port, runtime_seconds) ← pipeline_args argv;
  symbol_data ← loadSymbolCSV file;
  if bool_decide (symbol_data = []) then Some (Failed 1)
  else
    let '(lower, upper) := pipeline_limits symbol_data in
    x ← System_new 65536 131072 boot_timestamp mems junk lower upper (listed symbol_data);
    Some (Started port runtime_seconds symbol_data x).

(** A symbol file for all 2048 books. *)
Record market_file (ss : list SymbolInfo) : Prop := {
  mf_ids : NoDup (sy_symbol_id <$> ss);
  mf_range : Forall (λ s, 0 <= sy_symbol_id s < TOTAL_SYMBOLS) ss;
  mf_all sym : 0 <= sym < TOTAL_SYMBOLS → sym ∈ (sy_symbol_id <$> ss);
  mf_bands : Forall (λ s, band_ok (sy_lower_limit s) (sy_upper_limit s)) ss;
  mf_tickers : Forall (λ s, ticker (sy_symbol s)) ss;
  mf_names : NoDup ((λ s, upper (sy_symbol s)) <$> ss)
}.

Lemma ids_listed : 0 <= 0 < TOTAL_SYMBOLS ∧ 0 <= MAX_SYMBOLS < TOTAL_SYMBOLS.
Proof. done. Qed.

(** The arrays hold the limits of every line. *)
Lemma limits_ok ss : ∀ lu,
  NoDup (sy_symbol_id <$> ss) → Forall (λ s, 0 <= sy_symbol_id s < TOTAL_SYMBOLS) ss →
  length lu.1 = Z.to_nat TOTAL_SYMBOLS → length lu.2 = Z.to_nat TOTAL_SYMBOLS →
  let lu' := foldl set_limit lu ss in
  (∀ s, s ∈ ss → lu'.1 !! Z.to_nat (sy_symbol_id s) = Some (sy_lower_limit s) ∧
     lu'.2 !! Z.to_nat (sy_symbol_id s) = Some (sy_upper_limit s)) ∧
  (∀ k, (∀ s, s ∈ ss → Z.to_nat (sy_symbol_id s) ≠ k) → lu'.1 !! k = lu.1 !! k ∧ lu'.2 !! k = lu.2 !! k).
Proof.
  induction ss as [|s ss IH]; intros lu Hnd Hr Hl1 Hl2; cbn [foldl].
  { split; [intros s Hs; by apply elem_of_nil in Hs|done]. }
  rewrite fmap_cons in Hnd. apply NoDup_cons in Hnd as [Hni Hnd]. apply Forall_cons in Hr as [Hs Hr].
  assert (set_limit lu s = (<[Z.to_nat (sy_symbol_id s) := sy_lower_limit s]> lu.1,
    <[Z.to_nat (sy_symbol_id s) := sy_upper_limit s]> lu.2)) as ->.
  { unfold set_limit. by rewrite (proj2 (Z.ltb_lt _ _)) by lia. }
  destruct (IH (<[Z.to_nat (sy_symbol_id s) := sy_lower_limit s]> lu.1,
    <[Z.to_nat (sy_symbol_id s) := sy_upper_limit s]> lu.2) Hnd Hr) as [Hin Hout];
    [cbn [fst]; by rewrite length_insert|cbn [snd]; by rewrite length_insert|]. cbn [fst snd] in Hout.
  assert (∀ s', s' ∈ ss → Z.to_nat (sy_symbol_id s') ≠ Z.to_nat (sy_symbol_id s)) as Hne.
  { intros s' Hs' Heq. apply Hni. apply list_elem_of_fmap. exists s'. split; [|done].
    rewrite Forall_forall in Hr. specialize (Hr _ Hs'). lia. }
  split.
  - intros s' [->|Hs']%elem_of_cons; [|by apply Hin].
    destruct (Hout (Z.to_nat (sy_symbol_id s)) Hne) as [-> ->]. by rewrite !list_lookup_insert_eq by lia.
  - intros k Hk. destruct (Hout k) as [-> ->]; [intros s' Hs'; apply Hk; by right|].
    by rewrite !list_lookup_insert_ne by (apply Hk; left).
Qed.

Lemma market_limits ss s : market_file ss → s ∈ ss →
  (pipeline_limits ss).1 !! Z.to_nat (sy_symbol_id s) = Some (sy_lower_limit s) ∧
  (pipeline_limits ss).2 !! Z.to_nat (sy_symbol_id s) = Some (sy_upper_limit s).
Proof.
  intros Hm Hs. unfold pipeline_limits.
  apply (limits_ok ss (replicate (Z.to_nat TOTAL_SYMBOLS) 0, replicate (Z.to_nat TOTAL_SYMBOLS) 0)); try apply Hm;
    [apply length_replicate..|done].
Qed.

Lemma market_table ss : market_file ss → table_ok (listed ss).
Proof.
  intros [_ Hr _ _ Ht Hn]. split.
  - apply Forall_fmap. rewrite Forall_forall in *. intros s Hs. split; [by apply Ht|]. specialize (Hr _ Hs).
    cbn in *. unfold TOTAL_SYMBOLS, GROUP_COUNT, MAX_SYMBOLS, SYMBOL_BITS in Hr. change (Z.shiftl 1 10) with 1024 in Hr. lia.
  - unfold listed. rewrite <- list_fmap_compose. exact Hn.
Qed.

Lemma boot_succeeds ec oc boot pools totals lower upper cap symbols n nq tbl :
  boot_ok ec oc boot pools totals lower upper cap symbols n nq → load_lookup symbols = Some tbl →
  ∃ x0, boot_system ec oc boot pools totals lower upper symbols = Some x0 ∧ symbolLookupTable (sys_oms x0) = tbl.
Proof.
  intros Hbk Htbl. unfold boot_system, System_new, initialize_engine, OMS_new. rewrite Htbl.
  set (gs0 := groups (MatchingEngineDispatcher_new ec [])).
  destruct (for_groups_lookup cap (bk_cap _ _ _ _ _ _ _ _ _ _ _ Hbk)
    (init_group (λ i j, Some (pools i j)) totals lower upper) 0 gs0) as (gs & Hgs & _).
  { intros k g Hk%lookup_lt_Some. destruct (init_group_ready lower upper cap (bk_cap _ _ _ _ _ _ _ _ _ _ _ Hbk) pools totals (0 + Z.of_nat k) g)
      as (m & Hm & _); [apply Hbk|apply Hbk|apply Hbk|change (length gs0) with (Z.to_nat GROUP_COUNT) in Hk; lia|by eexists]. }
  rewrite Hgs. cbn [mbind option_bind]. eexists. split; [reflexivity|done].
Qed.

(** The capacity that [initialize_engine] gives to [addBook]. *)
Definition pool_size : nat := Z.to_nat 10000.

Section setup.
Context (pools : Z → Z → list OrderNode) (totals : Z → Z → Z * Z) (boot : Z).

(** The blocks for [pool_size] orders that [addBook] allocates, the memory of
    the uninitialised totals, which happens to be zero, and the clock. *)
Context (Hpools : ∀ i j, length (pools i j) = pool_size) (Htotals : ∀ i j, totals i j = (0, 0)) (Hboot : is_u64 boot).

Lemma market_boot_ok ss : market_file ss →
  boot_ok 65536 131072 boot pools totals (pipeline_limits ss).1 (pipeline_limits ss).2 pool_size (listed ss) 131072 65536.
Proof.
  intros Hm. split.
  - split; [exists 16, 0; by split_and!|lia|lia].
  - split; [exists 17, 0; by split_and!|lia|lia].
  - done.
  - split; apply (bool_decide_eq_true_1 _); vm_compute; reflexivity.
  - apply Hpools.
  - apply Htotals.
  - intros sym Hsym. apply (mf_all _ Hm) in Hsym as Hin. apply list_elem_of_fmap in Hin as (s & -> & Hs).
    destruct (market_limits ss s Hm Hs) as [Hlo Hhi]. eexists _, _. split; [exact Hlo|]. split; [exact Hhi|].
    by apply (proj1 (Forall_forall _ _) (mf_bands _ Hm)).
  - apply Forall_fmap. exact (mf_range _ Hm).
Qed.

(** The first state of the exchange: where a ticker leads. *)
Definition reaches_book (x : System) (s : SymbolInfo) : Prop :=
  find_id (symbolLookupTable (sys_oms x)) (sy_symbol s) = sy_symbol_id s ∧
  ∃ g m b, groups (sys_engine x) !! Z.to_nat (sy_symbol_id s / MAX_SYMBOLS) = Some g ∧ bookmanager g = Some m ∧
    get m (Z.land (sy_symbol_id s) SYMBOL_MASK) = Some b ∧
    book_rep (sy_lower_limit s) (sy_upper_limit s) pool_size b (mkABook [] []).

Lemma market_books ss x0 s : market_file ss → s ∈ ss →
  boot_system 65536 131072 boot pools totals (pipeline_limits ss).1 (pipeline_limits ss).2 (listed ss) = Some x0 →
  ∃ g m b, groups (sys_engine x0) !! Z.to_nat (sy_symbol_id s / MAX_SYMBOLS) = Some g ∧ bookmanager g = Some m ∧
    get m (Z.land (sy_symbol_id s) SYMBOL_MASK) = Some b ∧
    book_rep (sy_lower_limit s) (sy_upper_limit s) pool_size b (mkABook [] []).
Proof.
  intros Hm Hs H0. destruct (boot_rep _ _ _ _ _ _ _ _ _ _ _ _ (market_boot_ok ss Hm) H0) as [[_ _ _ _ Hlen _ Hgr] _].
  pose proof (proj1 (Forall_forall _ _) (mf_range _ Hm) _ Hs) as Hid. cbn in Hid. set (id := sy_symbol_id s) in *.
  assert (MAX_SYMBOLS = 1024 ∧ TOTAL_SYMBOLS = 2048 ∧ GROUP_COUNT = 2) as (HM & HT & HG) by (split_and!; reflexivity).
  pose proof (Z.div_mod id MAX_SYMBOLS ltac:(done)) as Hdm. pose proof (Z.mod_pos_bound id MAX_SYMBOLS ltac:(done)) as Hmod.
  destruct (lookup_lt_is_Some_2 (groups (sys_engine x0)) (Z.to_nat (id / MAX_SYMBOLS))) as [g Hg]; [lia|].
  destruct (Hgr _ _ Hg) as (dn & pd & Hf & [Hrep _]).
  cbn [flow_new f_groups] in Hf. apply lookup_replicate in Hf as [[= -> ->] _].
  rewrite aserve_nil in Hrep. destruct (gr_books _ _ _ Hrep) as (m & Hgm & Hbooks).
  destruct (Hbooks (id mod MAX_SYMBOLS) (empty_book (pipeline_limits ss).1 (pipeline_limits ss).2 pool_size
    (Z.to_nat (id / MAX_SYMBOLS)) (id mod MAX_SYMBOLS))) as (_ & b & Hget & Hb).
  { exact (proj2 (agroup_new_books (pipeline_limits ss).1 (pipeline_limits ss).2 pool_size (Z.to_nat (id / MAX_SYMBOLS)) (id mod MAX_SYMBOLS)) Hmod). }
  exists g, m, b. split; [exact Hg|]. split; [exact Hgm|]. split.
  - unfold SYMBOL_MASK. rewrite land_mask by (unfold SYMBOL_BITS; lia). exact Hget.
  - destruct (market_limits ss s Hm Hs) as [Hlo Hhi]. fold id in Hlo, Hhi.
    unfold empty_book in Hb. cbn [sb_lo sb_hi sb_cap sb_book] in Hb.
    replace (Z.of_nat (Z.to_nat (id / MAX_SYMBOLS)) * MAX_SYMBOLS + id mod MAX_SYMBOLS) with id in Hb by lia.
    rewrite Hlo, Hhi in Hb. exact Hb.
Qed.

Lemma pipeline_start_ok argv port seconds file ss :
  pipeline_args argv = Some (port, seconds) → loadSymbolCSV file = Some ss → market_file ss → ∃ x0,
  pipeline_start argv file (λ i j, Some (pools i j)) totals boot = Some (Started port seconds ss x0) ∧
  boot_system 65536 131072 boot pools totals (pipeline_limits ss).1 (pipeline_limits ss).2 (listed ss) = Some x0 ∧
  load_lookup (listed ss) = Some (symbolLookupTable (sys_oms x0)).
Proof.
  intros Ha Hl Hm. unfold pipeline_start. rewrite Ha, Hl. cbn [mbind option_bind].
  destruct (load_from (listed ss) ∅ (proj1 (market_table ss Hm))) as (tbl & Htbl & _ & _).
  destruct (boot_succeeds _ _ _ _ _ _ _ _ _ _ _ tbl (market_boot_ok ss Hm) Htbl) as (x0 & H0 & <-). exists x0.
  rewrite bool_decide_eq_false_2.
  2: { intros ->. destruct (proj1 (elem_of_nil 0) (mf_all _ Hm 0 (proj1 ids_listed))). }
  split; [|split; [exact H0|exact Htbl]].
  unfold boot_system in H0. destruct (pipeline_limits ss) as [lower upper]. cbn [fst snd] in H0. by rewrite H0.
Qed.

(** C19: The exchange starts from its symbol file, if every block for the
    orders of a book can be allocated and the memory of the totals of every
    book, which the constructor leaves uninitialised, happens to be zero.
    With a file that lists the 2048 symbols once each, under tickers of one
    to four letters that differ in more than case and with a band of prices,
    [main] then gets through its set-up, every listed ticker is translated to
    its id and every id leads to an empty book with that ticker's limits, and
    the hypotheses of the theorems about the running exchange hold; without
    any symbol it returns 1. *)
Theorem pipeline_starts argv port seconds file ss :
  pipeline_args argv = Some (port, seconds) → loadSymbolCSV file = Some ss →
  (ss = [] → pipeline_start argv file (λ i j, Some (pools i j)) totals boot = Some (Failed 1)) ∧
  (market_file ss → ∃ x0,
     pipeline_start argv file (λ i j, Some (pools i j)) totals boot = Some (Started port seconds ss x0) ∧
     (∀ s, s ∈ ss → reaches_book x0 s) ∧
     boot_system 65536 131072 boot pools totals (pipeline_limits ss).1 (pipeline_limits ss).2 (listed ss) = Some x0 ∧
     boot_ok 65536 131072 boot pools totals (pipeline_limits ss).1 (pipeline_limits ss).2 pool_size (listed ss) 131072 65536).
Proof.
  intros Ha Hl. split; [intros ->; unfold pipeline_start; by rewrite Ha, Hl|].
  intros Hm. destruct (pipeline_start_ok argv port seconds file ss Ha Hl Hm) as (x0 & Hst & H0 & Htab). exists x0.
  split_and!; [exact Hst| |exact H0|by apply market_boot_ok]. intros s Hs. split; [|by apply (market_books ss)].
  pose proof (market_table ss Hm) as Ht. destruct (load_from (listed ss) ∅ (proj1 Ht)) as (tbl & Htbl & _ & Hnew).
  specialize (Hnew (table_hashes_nodup _ Ht)). unfold load_lookup in Htab. rewrite Htbl in Htab. injection Htab as <-.
  rewrite find_id_hash by (by apply (proj1 (Forall_forall _ _) (mf_tickers _ Hm))).
  rewrite (Hnew (sy_symbol s) (sy_symbol_id s)); [reflexivity|]. apply list_elem_of_fmap. exists s. split; [reflexivity|exact Hs].
Qed.

End setup.

(** * Running and stopping *)

(** What became of data/symbols.csv at the end of the day: left alone, since
    the prices were not mapped; not written, since the prices were read
    outside their array; or written. *)
Inductive day_end := NotMapped | OutOfArray | Saved (csv : text).

(** [if (oms_system.shared_memory_ptr != nullptr) saveEndOfDayCSV(...)]; the
    pointer with what it points to. *)
Definition end_of_day_file (shared_memory_ptr : option (list Z)) (symbol_data : list SymbolInfo) : day_end :=
  match shared_memory_ptr with
  | None => NotMapped
  | Some last_price =>
      match saveEndOfDayCSV last_price symbol_data with
      | None => OutOfArray
      | Some csv => Saved csv
      end
  end.

(** The pointer of the OMS of [System], whose turns give the same prices to
    [oms_micro]: the mapping has succeeded. *)
Definition shared_memory_ptr (x : System) : option (list Z) := Some (last_price (sys_engine x)).

(** The main thread: waiting, inside [server.stop], [oms_system.stop], between
    [engine.terminate] and the last join, returned. *)
Inductive pipe_pc := Serving | StoppingServer | StoppingOms | Terminating | Returned (file : day_end).

Record Pipe := mkPipe {
  p_sys : System;
  p_keep_running : bool;
  p_oms_done : bool;
  p_groups_done : list bool;
  p_main : pipe_pc
}.

Definition pipe_created (x0 : System) : Pipe :=
  mkPipe x0 true false (replicate (Z.to_nat GROUP_COUNT) false) Serving.

(** The OMS thread is at the test of its loop. *)
Definition at_loop_head (x : System) : Prop := sys_pc x = AtIntake ∧ sys_outbox x = [].

Definition with_engine (d : MatchingEngineDispatcher) (x : System) : System :=
  mkSystem (sys_oms x) (sys_pc x) (sys_outbox x) d.

(** [shutdown] of the OMS and [terminate_flag] of the groups have been set. *)
Definition oms_shut (m : pipe_pc) : bool := match m with Serving | StoppingServer => false | _ => true end.
Definition engine_shut (m : pipe_pc) : bool := match m with Terminating | Returned _ => true | _ => false end.

Section stop.
Context (clock : nat → Z) (junk_price : Z) (runtime_seconds : Z) (symbol_data : list SymbolInfo).

(** Sessions hand over orders until [server.stop] has joined them; the OMS
    and group threads leave at the test of their loops when their flags are
    set; the wait ends with the flag or, with a time limit, at any time. *)
Inductive pipe_step : Pipe → Pipe → Prop :=
| pipe_client x x' keep od gd m c ok o : (m = Serving ∨ m = StoppingServer) → client_fit c →
    enqueueClientOrder c (sys_oms x) = Some (ok, o) → x' = mkSystem o (sys_pc x) (sys_outbox x) (sys_engine x) →
    pipe_step (mkPipe x keep od gd m) (mkPipe x' keep od gd m)
| pipe_oms x x' keep gd m : ¬ (at_loop_head x ∧ oms_shut m = true) → oms_turn clock junk_price x = Some x' →
    pipe_step (mkPipe x keep false gd m) (mkPipe x' keep false gd m)
| pipe_oms_exit x keep gd m : at_loop_head x → oms_shut m = true →
    pipe_step (mkPipe x keep false gd m) (mkPipe x keep true gd m)
| pipe_group x x' keep od gd m i : gd !! i = Some false → engine_shut m = false → group_turn i x = Some x' →
    pipe_step (mkPipe x keep od gd m) (mkPipe x' keep od gd m)
| pipe_group_exit x keep od gd m i : gd !! i = Some false → engine_shut m = true →
    pipe_step (mkPipe x keep od gd m) (mkPipe x keep od (<[i := true]> gd) m)
| pipe_signal x keep od gd m : pipe_step (mkPipe x keep od gd m) (mkPipe x false od gd m)
| pipe_wait_over x keep od gd : keep = false ∨ 0 < runtime_seconds →
    pipe_step (mkPipe x keep od gd Serving) (mkPipe x keep od gd StoppingServer)
| pipe_server_stopped x keep od gd :
    pipe_step (mkPipe x keep od gd StoppingServer) (mkPipe x keep od gd StoppingOms)
| pipe_oms_stopped x keep gd :
    pipe_step (mkPipe x keep true gd StoppingOms)
      (mkPipe (with_engine (disp_terminate (sys_engine x)) x) keep true gd Terminating)
| pipe_joined x keep od gd : Forall (λ b, b = true) gd →
    pipe_step (mkPipe x keep od gd Terminating)
      (mkPipe x keep od gd (Returned (end_of_day_file (shared_memory_ptr x) symbol_data))).

(** The exchange inside: a reachable state of [System], and once the engine is
    terminated, one with the OMS at its loop head and the flags set on top. *)
Definition pipe_inv (x0 : System) (p : Pipe) : Prop :=
  length (p_groups_done p) = Z.to_nat GROUP_COUNT ∧
  (p_oms_done p = true → at_loop_head (p_sys p) ∧ oms_shut (p_main p) = true) ∧
  (engine_shut (p_main p) = true → p_oms_done p = true) ∧
  (engine_shut (p_main p) = false → rtc (sys_step clock junk_price) x0 (p_sys p)) ∧
  (engine_shut (p_main p) = true → ∃ x, rtc (sys_step clock junk_price) x0 x ∧
     p_sys p = with_engine (disp_terminate (sys_engine x)) x) ∧
  (∀ file, p_main p = Returned file →
     Forall (λ b, b = true) (p_groups_done p) ∧ file = end_of_day_file (shared_memory_ptr (p_sys p)) symbol_data).

Lemma pipe_created_inv x0 : pipe_inv x0 (pipe_created x0).
Proof. split_and!; [apply length_replicate|done|done|intros _; apply rtc_refl|done|done]. Qed.

(** The exchange moves: nothing else of the invariant changes. *)
Lemma pipe_inv_sys x0 x x' keep od gd m :
  pipe_inv x0 (mkPipe x keep od gd m) → engine_shut m = false → sys_step clock junk_price x x' →
  (od = true → at_loop_head x' ∧ oms_shut m = true) → pipe_inv x0 (mkPipe x' keep od gd m).
Proof.
  intros (H1 & H2 & H3 & H4 & H5 & H6) He Hst Hod. cbn [p_sys p_oms_done p_groups_done p_main] in *.
  split_and!; cbn [p_sys p_oms_done p_groups_done p_main]; try done.
  - intros _. eapply rtc_r; [by apply H4|done].
  - by rewrite He.
  - intros csv ->. done.
Qed.

Lemma group_turn_head i x x' : group_turn i x = Some x' → at_loop_head x → at_loop_head x'.
Proof. unfold group_turn. intros (d & _ & H)%bind_Some. apply (inj Some) in H. by subst x'. Qed.

Lemma pipe_step_inv x0 p p' : pipe_inv x0 p → pipe_step p p' → pipe_inv x0 p'.
Proof.
  intros Hi Hst. pose proof Hi as (H1 & H2 & H3 & H4 & H5 & H6).
  destruct Hst as [x x' keep od gd m c ok o Hm Hc He ->|x x' keep gd m Hn Ht|x keep gd m Hh Hs|x x' keep od gd m i Hg Hs Ht
    |x keep od gd m i Hg Hs|x keep od gd m|x keep od gd Hw|x keep od gd|x keep gd|x keep od gd Hall];
    cbn [p_sys p_oms_done p_groups_done p_main] in *.
  - apply (pipe_inv_sys _ x); [done|by destruct Hm as [->| ->]|by eapply step_client|].
    intros ->. destruct (H2 eq_refl) as [_ Hsh]. by destruct Hm as [->| ->].
  - destruct (engine_shut m) eqn:Ee; [by specialize (H3 eq_refl)|].
    by apply (pipe_inv_sys _ x); [done|done|apply (step_turn clock junk_price x OmsThread)|].
  - split_and!; try done.
  - apply (pipe_inv_sys _ x); [done|done| |].
    + apply (step_turn clock junk_price x (GroupThread i)); [|done]. apply lookup_lt_Some in Hg. cbn. lia.
    + intros ->. destruct (H2 eq_refl) as [Hh Hsh]. split; [by eapply group_turn_head|done].
  - split_and!; try done; cbn [p_sys p_oms_done p_groups_done p_main]; [by rewrite length_insert|].
    intros csv Hm. destruct (H6 csv Hm) as [Hall _]. rewrite Forall_lookup in Hall. by specialize (Hall _ _ Hg).
  - by split_and!.
  - split_and!; cbn [p_sys p_oms_done p_groups_done p_main]; try done; intros Ho; by destruct (H2 Ho).
  - split_and!; cbn [p_sys p_oms_done p_groups_done p_main]; try done; intros Ho; by destruct (H2 Ho).
  - destruct (H2 eq_refl) as [Hh _]. split_and!; try done. intros _. exists x. split; [by apply H4|done].
  - split_and!; try done. intros csv [= <-]. done.
Qed.

Lemma pipe_run_inv x0 p : rtc pipe_step (pipe_created x0) p → pipe_inv x0 p.
Proof.
  revert p. apply rtc_ind_r; [apply pipe_created_inv|]. intros p p' _ Hst Hi. by eapply pipe_step_inv.
Qed.

End stop.

Section stopped.
Context (pools : Z → Z → list OrderNode) (totals : Z → Z → Z * Z) (boot : Z).
Context (Hpools : ∀ i j, length (pools i j) = pool_size) (Htotals : ∀ i j, totals i j = (0, 0)) (Hboot : is_u64 boot).
Context (clock : nat → Z) (junk_price : Z) (Hclock : ∀ k, is_u64 (clock k)) (Hjunk : is_u64 junk_price).

(** C20: The stop of the exchange.  When [main] returns, in whatever order the
    threads have run, no session, OMS or group thread is left, no order is
    stuck between OMS and engine, and the books of each group are what the
    price-time contract makes of the orders it has processed; but what the
    client queue and the group queues still hold is dropped, and the
    end-of-day file is not written: the prices are read outside their array.
    All this for a symbol file with a symbol for every book, clients whose
    orders are [client_fit], and an OMS that could map the prices. *)
Theorem pipeline_stops argv file port seconds ss x0 p day :
  pipeline_start argv file (λ i j, Some (pools i j)) totals boot = Some (Started port seconds ss x0) →
  market_file ss → rtc (pipe_step clock junk_price seconds ss) (pipe_created x0) p →
  p_main p = Returned day → small boot (p_sys p) →
  day = OutOfArray ∧ p_oms_done p = true ∧ Forall (λ b, b = true) (p_groups_done p) ∧ sys_outbox (p_sys p) = [] ∧
  (∃ dropped, rb_rep 131072 (incoming_orders (sys_oms (p_sys p))) dropped) ∧
  ∀ i g, groups (sys_engine (p_sys p)) !! i = Some g → ∃ g0 dn dropped,
    g = terminate g0 ∧ filter (routed i) (sent (sys_oms (p_sys p))) = dn ++ dropped ∧
    group_rep 65536 g0 (set_pending dropped
      (aserve (agroup_new (pipeline_limits ss).1 (pipeline_limits ss).2 pool_size i) dn)).
Proof.
  intros Hst Hm Hrun Hret Hsmall. pose proof (market_boot_ok pools totals boot Hpools Htotals Hboot ss Hm) as Hbk.
  assert (boot_system 65536 131072 boot pools totals (pipeline_limits ss).1 (pipeline_limits ss).2 (listed ss) = Some x0) as H0.
  { revert Hst. unfold pipeline_start. intros ([pt sc] & _ & H)%bind_Some. apply bind_Some in H as (ss' & _ & H).
    case_bool_decide; [done|]. destruct (pipeline_limits ss') as [lo hi] eqn:El.
    apply bind_Some in H as (x & Hx & H). apply (inj Some) in H. injection H as -> -> -> ->.
    unfold boot_system. by rewrite El. }
  destruct (pipe_run_inv _ _ _ _ _ _ Hrun) as (_ & Hod & Heng & _ & Hsys & Hcsv). rewrite Hret in *.
  specialize (Heng eq_refl). destruct (Hod Heng) as [[_ Hout] _]. destruct (Hsys eq_refl) as (x & Hx & Hp).
  destruct (Hcsv day eq_refl) as [Hgd Hc]. clear Hsys Hcsv Hod. rewrite Hp in *. cbn [with_engine sys_oms sys_outbox sys_engine] in *.
  destruct (reachable_rep _ _ _ _ _ _ _ _ _ _ _ Hclock Hjunk _ _ Hbk x0 x H0 Hx Hsmall)
    as (_ & f & _ & [Hg Hfo Hsent Ho Hl Hlp Hgr]).
  split_and!; [|done|done|done| |].
  - rewrite Hc. destruct (proj1 (list_elem_of_fmap _ _ _) (mf_all _ Hm MAX_SYMBOLS (proj2 ids_listed))) as (s & Hs & Hin).
    change (end_of_day_file (Some (last_price (sys_engine x))) ss = OutOfArray). unfold end_of_day_file.
    by rewrite (end_of_day_out_of_bounds _ _ s Hlp Hin) by (by rewrite <- Hs).
  - destruct (og_queue _ _ Hg) as (l & Hq & _). by exists l.
  - intros i g Hi. apply list_lookup_fmap_Some in Hi as (g0 & -> & Hi).
    destruct (Hgr i g0 Hi) as (dn & pd & Hfg & [Hrep _]). exists g0, dn, pd. split; [done|]. split; [|done].
    destruct (fo_split _ Hfo) as (d & Hd & Hsplit). rewrite <- Hsent, Hd, Ho, Hout, app_nil_r. by apply Hsplit.
Qed.

End stopped.

(** * Witnesses *)

(** Tickers AAA, AAB, ... for all ids. *)
Definition demo_ticker (i : Z) : text := [65 + i / 676; 65 + i / 26 mod 26; 65 + i mod 26].
Definition demo_market : list SymbolInfo := (λ i, mkSymbol (demo_ticker i) i 100 90 110) <$> seqZ 0 TOTAL_SYMBOLS.
Definition demo_csv : text := header ++ [newline] ++ concat (print_line <$> demo_market).

Lemma demo_loads : loadSymbolCSV demo_csv = Some demo_market.
Proof. vm_compute. reflexivity. Qed.

Lemma demo_ticker_inj i j : 0 <= i → 0 <= j → upper (demo_ticker i) = upper (demo_ticker j) → i < 2048 → j < 2048 → i = j.
Proof.
  intros Hi Hj Heq Hi2 Hj2. pose proof (Z.div_mod i 26 ltac:(lia)). pose proof (Z.div_mod j 26 ltac:(lia)).
  pose proof (Z.div_mod (i / 26) 26 ltac:(lia)). pose proof (Z.div_mod (j / 26) 26 ltac:(lia)).
  pose proof (Z.mod_pos_bound i 26 ltac:(lia)). pose proof (Z.mod_pos_bound j 26 ltac:(lia)).
  pose proof (Z.mod_pos_bound (i / 26) 26 ltac:(lia)). pose proof (Z.mod_pos_bound (j / 26) 26 ltac:(lia)).
  rewrite Z.div_div in * by lia. change (26 * 26) with 676 in *.
  assert (∀ c, 65 <= c <= 90 → toupper c = c) as Hup by (intros c Hc; unfold toupper; case_match; lia).
  unfold upper, demo_ticker in Heq. cbn [fmap list_fmap] in Heq. rewrite !Hup in Heq by lia.
  injection Heq as E1 E2 E3. lia.
Qed.

Lemma demo_market_file : market_file demo_market.
Proof.
  assert (sy_symbol_id <$> demo_market = seqZ 0 TOTAL_SYMBOLS) as Hids.
  { unfold demo_market. rewrite <- list_fmap_compose. apply list_fmap_id. }
  split.
  - rewrite Hids. apply NoDup_seqZ.
  - apply (bool_decide_eq_true_1 _). vm_compute. reflexivity.
  - intros sym Hsym. rewrite Hids. apply elem_of_seqZ. lia.
  - unfold band_ok. apply Forall_fmap, Forall_forall. intros i _. cbn. mach.
  - apply (bool_decide_eq_true_1 _). vm_compute. reflexivity.
  - unfold demo_market. rewrite <- list_fmap_compose. apply NoDup_fmap_2_strong; [|apply NoDup_seqZ].
    intros i j Hi%elem_of_seqZ Hj%elem_of_seqZ Heq. change (0 + TOTAL_SYMBOLS) with 2048 in *.
    apply demo_ticker_inj; [lia|lia|exact Heq|lia|lia].
Qed.

Definition blank_pools (i j : Z) : list OrderNode := replicate pool_size Demo.node.

Lemma blank_pools_size i j : length (blank_pools i j) = pool_size.
Proof. apply length_replicate. Qed.

Lemma pipeline_starts_witness :
  ∃ x0, pipeline_start [literal "pipeline_server"; literal "9001"] demo_csv (λ i j, Some (blank_pools i j)) demo_totals 1000
    = Some (Started 9001 20 demo_market x0) ∧ reaches_book x0 (mkSymbol (demo_ticker 1029) 1029 100 90 110).
Proof.
  destruct (pipeline_starts blank_pools demo_totals 1000 blank_pools_size (λ _ _, eq_refl) ltac:(mach) [literal "pipeline_server"; literal "9001"]
    9001 20 demo_csv demo_market) as [_ H].
  - vm_compute. reflexivity.
  - apply demo_loads.
  - destruct (H demo_market_file) as (x0 & H1 & H2 & _). exists x0. split; [exact H1|].
    apply H2. apply list_elem_of_fmap. exists 1029. split; [reflexivity|]. apply elem_of_seqZ. split; [discriminate|reflexivity].
Defined.

(** A server that is stopped before anybody connects. *)
Lemma demo_stop_run clock junk_price x0 : at_loop_head x0 →
  rtc (pipe_step clock junk_price 20 demo_market) (pipe_created x0)
    (mkPipe (with_engine (disp_terminate (sys_engine x0)) x0) true true [true; true]
       (Returned (end_of_day_file (shared_memory_ptr x0) demo_market))).
Proof.
  intros Hh. eapply rtc_l; [apply (pipe_wait_over _ _ 20); by right|].
  eapply rtc_l; [apply pipe_server_stopped|]. eapply rtc_l; [by apply pipe_oms_exit|].
  eapply rtc_l; [apply pipe_oms_stopped|].
  eapply rtc_l; [by apply (pipe_group_exit _ _ _ _ _ _ _ _ _ 0%nat)|].
  eapply rtc_l; [by apply (pipe_group_exit _ _ _ _ _ _ _ _ _ 1%nat)|].
  eapply rtc_l; [apply pipe_joined; by repeat constructor|apply rtc_refl].
Qed.

Lemma boot_at_head ec oc boot pools totals lower upper symbols x0 :
  boot_system ec oc boot pools totals lower upper symbols = Some x0 → at_loop_head x0 ∧ sent (sys_oms x0) = [].
Proof.
  unfold boot_system, System_new. intros (d & _ & H)%bind_Some. apply bind_Some in H as (m & Hm & H).
  apply (inj Some) in H. subst x0. split; [done|]. unfold OMS_new in Hm. apply bind_Some in Hm as (tbl & _ & Hm).
  apply (inj Some) in Hm. by subst m.
Qed.

Lemma pipeline_stops_witness :
  ∃ x0, pipeline_start [literal "pipeline_server"] demo_csv (λ i j, Some (blank_pools i j)) demo_totals 1000
    = Some (Started 9000 20 demo_market x0) ∧
  end_of_day_file (shared_memory_ptr x0) demo_market = OutOfArray.
Proof.
  destruct (pipeline_start_ok blank_pools demo_totals 1000 blank_pools_size (λ _ _, eq_refl) ltac:(mach) [literal "pipeline_server"]
    9000 20 demo_csv demo_market eq_refl demo_loads demo_market_file) as (x0 & Hst & H0 & _).
  destruct (boot_at_head _ _ _ _ _ _ _ _ _ H0) as [Hh Hs]. exists x0. split; [exact Hst|].
  apply (pipeline_stops blank_pools demo_totals 1000 blank_pools_size (λ _ _, eq_refl) ltac:(mach) (λ _, 7) 0 demo_clock ltac:(mach)
    [literal "pipeline_server"] demo_csv 9000 20 demo_market x0
    (mkPipe (with_engine (disp_terminate (sys_engine x0)) x0) true true [true; true]
       (Returned (end_of_day_file (shared_memory_ptr x0) demo_market)))).
  - exact Hst.
  - exact demo_market_file.
  - apply demo_stop_run. exact Hh.
  - reflexivity.
  - unfold small. cbn [p_sys with_engine sys_oms]. rewrite Hs. split; reflexivity.
Defined.
