(* ===== verification/Net.v ===== *)
(** How the programs of the market feed set up their sockets: the
    constructors of MarketFeedReader (src/MarketFeedReader.cpp), Retransmitter
    (src/retransmitter.cpp) and Listener (src/listener.cpp), the beginning of
    sendThread and of OrderReceivingServer::acceptLoop.

    The socket calls of the operating system are the operations of the class
    [Sockets]; a program runs on a state [W] of the machine and may end the
    process.  [IdleMachine] states what the calls do on a machine that has
    descriptors to give and on which nobody else uses the ports. *)

From S2P Require Import Prelude Types SymbolLoader.

(** * Programs that call the system *)

Inductive result (A : Type) := Done (a : A) | Exit (status : Z).
Arguments Done {A} a.
Arguments Exit {A} status.

Definition prog (W A : Type) : Type := W → result A * W.

#[export] Instance prog_ret W : MRet (prog W) := λ A a w, (Done a, w).
#[export] Instance prog_bind W : MBind (prog W) := λ A B k p w,
  match p w with
  | (Done a, w) => k a w
  | (Exit status, w) => (Exit status, w)
  end.

Definition exit {W A} (status : Z) : prog W A := λ w, (Exit status, w).
Definition EXIT_FAILURE : Z := 1.

(** * Addresses *)

(** A port and an address, both in network byte order; the family is
    always AF_INET. *)
Record sockaddr_in := mkAddr { sin_port : Z; sin_addr : Z }.

Definition htons (p : Z) : Z := Z.lor (Z.shiftl (Z.land p 255) 8) (Z.shiftr p 8).
Definition htonl (a : Z) : Z :=
  Z.lor (Z.shiftl (htons (Z.land a 65535)) 16) (htons (Z.shiftr a 16)).

(** [inet_pton]: four decimal numbers up to 255 without leading zeros; the
    first one is in the lowest byte. *)
Definition octet (t : text) : option Z :=
  if bool_decide (t ≠ []) && forallb is_digit t && (length t <=? 3)%nat && (digits_value t <=? 255)
     && (bool_decide (head t ≠ Some 48) || (length t =? 1)%nat)
  then Some (digits_value t) else None.

Definition dot : Z := 46.
Definition inet_pton (s : string) : option Z :=
  let '(a, r) := split_at dot (literal s) in
  r ← r; let '(b, r) := split_at dot r in
  r ← r; let '(c, r) := split_at dot r in
  d ← r;
  a ← octet a; b ← octet b; c ← octet c; d ← octet d;
  Some (a + Z.shiftl b 8 + Z.shiftl c 16 + Z.shiftl d 24).

Definition INADDR_NONE : Z := UINT32_MAX.
Definition inet_addr (s : string) : Z := default INADDR_NONE (inet_pton s).
Definition INADDR_ANY : Z := 0.
Definition INADDR_LOOPBACK : Z := 2130706433.

Definition multicast_group : Z := 239 + Z.shiftl 1 8 + Z.shiftl 1 16 + Z.shiftl 1 24.
Example group_addr : inet_pton "239.1.1.1" = Some multicast_group.
Proof. reflexivity. Qed.

Example loopback_addr : inet_pton "127.0.0.1" = Some (htonl INADDR_LOOPBACK).
Proof. reflexivity. Qed.

(** * The calls *)

Inductive sock_type := SOCK_DGRAM | SOCK_STREAM.
Inductive sockopt :=
| IP_MULTICAST_IF (addr : Z)
| IP_MULTICAST_LOOP (on : Z)
| IP_ADD_MEMBERSHIP (imr_multiaddr imr_interface : Z)
| SO_SNDBUF (bytes : Z)
| SO_REUSEADDR (on : Z).

Class Sockets (W : Type) := {
  sys_socket : sock_type → prog W Z;
  sys_setsockopt : Z → sockopt → prog W Z;
  sys_bind : Z → sockaddr_in → prog W Z;
  sys_listen : Z → Z → prog W Z;
  sys_connect : Z → sockaddr_in → prog W Z;
  sys_accept : Z → prog W Z;
  sys_set_nonblock : Z → prog W Z;
  sys_close : Z → prog W Z
}.

Section setup.
Context {W : Type} `{Sockets W}.

Definition SOMAXCONN : Z := 4096.

(** The descriptors of a MarketFeedReader and where it sends to. *)
Record mfr_net := mkMfrNet { mfr_sockfd : Z; mfr_addr : sockaddr_in; mfr_sockfd_tcp : Z }.

Definition mfr_sockets : prog W mfr_net :=
  sockfd ← sys_socket SOCK_DGRAM;
  match inet_pton "127.0.0.1" with
  | None => exit EXIT_FAILURE
  | Some local_ip =>
      _ ← sys_setsockopt sockfd (IP_MULTICAST_IF local_ip);
      _ ← sys_setsockopt sockfd (IP_MULTICAST_LOOP 1);
      _ ← sys_setsockopt sockfd (SO_SNDBUF (Z.shiftl 1 20));
      match inet_pton "239.1.1.1" with
      | None => exit EXIT_FAILURE
      | Some group =>
          sockfd_tcp ← sys_socket SOCK_STREAM;
          if sockfd_tcp =? -1 then exit EXIT_FAILURE
          else
            _ ← sys_setsockopt sockfd_tcp (SO_REUSEADDR 1);
            r ← sys_bind sockfd_tcp (mkAddr (htons 8000) (inet_addr "127.0.0.1"));
            if negb (r =? 0) then exit 0
            else
              r ← sys_listen sockfd_tcp SOMAXCONN;
              if negb (r =? 0) then exit 0
              else mret (mkMfrNet sockfd (mkAddr (htons 5000) group) sockfd_tcp)
      end
  end.

(** The beginning of sendThread: the connection to the retransmitter. *)
Definition mfr_accept (m : mfr_net) : prog W Z :=
  connect_ ← sys_accept (mfr_sockfd_tcp m);
  _ ← sys_set_nonblock connect_;
  if connect_ <? 0 then exit EXIT_FAILURE else mret connect_.

(** The descriptors of a Retransmitter: to the feed, and for the listeners. *)
Record rt_net := mkRtNet { rt_sockfd_recv : Z; rt_sockfd_send : Z }.

Definition rt_sockets : prog W rt_net :=
  sockfd_tcp_recv ← sys_socket SOCK_STREAM;
  if sockfd_tcp_recv <? 0 then exit EXIT_FAILURE
  else
    sockfd_tcp_send ← sys_socket SOCK_STREAM;
    if sockfd_tcp_send <? 0 then exit EXIT_FAILURE
    else
      status ← sys_connect sockfd_tcp_recv (mkAddr (htons 8000) (inet_addr "127.0.0.1"));
      if status <? 0 then exit EXIT_FAILURE
      else
        _ ← sys_setsockopt sockfd_tcp_send (SO_REUSEADDR 1);
        r ← sys_bind sockfd_tcp_send (mkAddr (htons 8080) (htonl INADDR_ANY));
        if negb (r =? 0) then exit 0
        else
          r ← sys_listen sockfd_tcp_send 1;
          if negb (r =? 0) then exit 0 else mret (mkRtNet sockfd_tcp_recv sockfd_tcp_send).

(** The descriptors of a Listener. *)
Record listener_net := mkListenerNet { ls_sockfd_udp : Z; ls_sockfd_tcp : Z }.

Definition listener_sockets : prog W listener_net :=
  sockfd_udp ← sys_socket SOCK_DGRAM;
  if sockfd_udp <? 0 then exit EXIT_FAILURE
  else
    r ← sys_bind sockfd_udp (mkAddr (htons 5000) INADDR_ANY);
    if negb (r =? 0) then exit EXIT_FAILURE
    else
      match inet_pton "239.1.1.1", inet_pton "127.0.0.1" with
      | Some imr_multiaddr, Some imr_interface =>
          r ← sys_setsockopt sockfd_udp (IP_ADD_MEMBERSHIP imr_multiaddr imr_interface);
          if r <? 0 then exit EXIT_FAILURE
          else
            _ ← sys_setsockopt sockfd_udp (IP_MULTICAST_LOOP 1);
            sockfd_tcp ← sys_socket SOCK_STREAM;
            if sockfd_tcp <? 0 then exit EXIT_FAILURE
            else
              r ← sys_connect sockfd_tcp (mkAddr (htons 8080) (inet_addr "127.0.0.1"));
              if r <? 0 then exit EXIT_FAILURE else mret (mkListenerNet sockfd_udp sockfd_tcp)
      | _, _ => exit EXIT_FAILURE
      end.

(** The beginning of acceptLoop: the value left in [server_fd], and whether
    the loop is entered. *)
Definition server_socket (port : Z) : prog W (Z * bool) :=
  server_fd ← sys_socket SOCK_STREAM;
  if server_fd <? 0 then mret (server_fd, false)
  else
    _ ← sys_setsockopt server_fd (SO_REUSEADDR 1);
    r ← sys_bind server_fd (mkAddr (htons port) (htonl INADDR_LOOPBACK));
    if r <? 0 then _ ← sys_close server_fd; mret (-1, false)
    else
      r ← sys_listen server_fd 64;
      if r <? 0 then _ ← sys_close server_fd; mret (-1, false)
      else mret (server_fd, true).
End setup.

(** * Errors

    A machine that answers the calls from a list, any list, and notes them. *)

Inductive call :=
| CSocket (t : sock_type)
| CSetsockopt (fd : Z) (o : sockopt)
| CBind (fd : Z) (a : sockaddr_in)
| CListen (fd backlog : Z)
| CConnect (fd : Z) (a : sockaddr_in)
| CAccept (fd : Z)
| CNonblock (fd : Z)
| CClose (fd : Z).

Record script := mkScript { sc_answers : list Z; sc_log : list (call * Z) }.

Definition answer (c : call) : prog script Z := λ w,
  let r := default (-1) (head (sc_answers w)) in
  (Done r, mkScript (tail (sc_answers w)) (sc_log w ++ [(c, r)])).

#[export] Instance script_sockets : Sockets script := {|
  sys_socket t := answer (CSocket t);
  sys_setsockopt fd o := answer (CSetsockopt fd o);
  sys_bind fd a := answer (CBind fd a);
  sys_listen fd n := answer (CListen fd n);
  sys_connect fd a := answer (CConnect fd a);
  sys_accept fd := answer (CAccept fd);
  sys_set_nonblock fd := answer (CNonblock fd);
  sys_close fd := answer (CClose fd)
|}.

(** [fatal c r] is the status with which a program is to end when [c] returns
    [r], and [None] when it is to go on.  [obeys]: it ends at the first such
    result, with this status, and otherwise goes through. *)
Definition obeys {A} (fatal : call → Z → option Z) (p : prog script A) : Prop := ∀ w,
  let '(res, w') := p w in
  ∃ calls, sc_log w' = sc_log w ++ calls ∧
    match res with
    | Done _ => Forall (λ cr, fatal cr.1 cr.2 = None) calls
    | Exit status => ∃ before c r, calls = before ++ [(c, r)] ∧
        Forall (λ cr, fatal cr.1 cr.2 = None) before ∧ fatal c r = Some status
    end.

Lemma obeys_ret {A} fatal (a : A) : obeys fatal (mret a).
Proof. intros w. exists []. rewrite app_nil_r. split; [done|constructor]. Qed.

Lemma obeys_call {A} fatal c (k : Z → prog script A) :
  (∀ r, match fatal c r with Some status => k r = exit status | None => obeys fatal (k r) end) →
  obeys fatal (r ← answer c; k r).
Proof.
  intros Hk w. unfold mbind, prog_bind, answer. set (r := default (-1) _).
  set (w1 := mkScript _ _). specialize (Hk r). destruct (fatal c r) as [status|] eqn:Hf.
  - rewrite Hk. exists [(c, r)]. split; [done|]. exists [], c, r. done.
  - specialize (Hk w1). destruct (k r w1) as [res w']. destruct Hk as (calls & Hlog & Hres).
    exists ((c, r) :: calls). split; [by rewrite Hlog; cbn [w1 sc_log]; rewrite <- app_assoc|].
    destruct res as [a|status]; [by constructor|]. destruct Hres as (before & c' & r' & -> & Hb & Hs).
    exists ((c, r) :: before), c', r'. split; [done|]. split; [by constructor|done].
Qed.

(** What each program takes for fatal. *)
Definition mfr_fatal (c : call) (r : Z) : option Z :=
  match c with
  | CSocket SOCK_STREAM => if r =? -1 then Some EXIT_FAILURE else None
  | CBind _ _ | CListen _ _ => if r =? 0 then None else Some 0
  | _ => None
  end.
Definition rt_fatal (c : call) (r : Z) : option Z :=
  match c with
  | CSocket _ | CConnect _ _ => if r <? 0 then Some EXIT_FAILURE else None
  | CBind _ _ | CListen _ _ => if r =? 0 then None else Some 0
  | _ => None
  end.
Definition listener_fatal (c : call) (r : Z) : option Z :=
  match c with
  | CSocket _ | CConnect _ _ | CSetsockopt _ (IP_ADD_MEMBERSHIP _ _) => if r <? 0 then Some EXIT_FAILURE else None
  | CBind _ _ => if r =? 0 then None else Some EXIT_FAILURE
  | _ => None
  end.
Ltac obey :=
  repeat first
    [ apply obeys_ret
    | apply obeys_call; intros ?; cbn [mfr_fatal rt_fatal listener_fatal]
    | match goal with
      | |- match (if ?b then _ else _) with _ => _ end => destruct b eqn:?; cbn [negb]; try reflexivity
      end ].

Lemma mfr_obeys : obeys mfr_fatal mfr_sockets.
Proof. unfold mfr_sockets. obey. Qed.

Lemma rt_obeys : obeys rt_fatal rt_sockets.
Proof. unfold rt_sockets. obey. Qed.

Lemma listener_obeys : obeys listener_fatal listener_sockets.
Proof. unfold listener_sockets. obey. Qed.

(** C36: Which failures end the programs of the feed, and with which status,
    whatever the calls return: the first fatal one ends the program, and
    nothing else does.  A failing bind or listen ends the feed reader and the
    retransmitter with status 0, as if nothing had happened; the feed reader
    does not look at the result of creating its UDP socket; of the options
    only the listener's membership in the group is checked. *)
Theorem setup_exits :
  obeys mfr_fatal mfr_sockets ∧ obeys rt_fatal rt_sockets ∧ obeys listener_fatal listener_sockets.
Proof. split; [apply mfr_obeys|split; [apply rt_obeys|apply listener_obeys]]. Qed.

(** ** The order server *)

Definition opened (calls : list (call * Z)) : list Z :=
  cr ← calls; match cr with (CSocket _, r) => if r <? 0 then [] else [r] | _ => [] end.
Definition closed (calls : list (call * Z)) : list Z :=
  cr ← calls; match cr with (CClose fd, _) => [fd] | _ => [] end.

(** The order server leaves a descriptor open only when it enters its loop. *)
Lemma server_socket_clean port w :
  let '(res, w') := server_socket port w in
  ∃ calls fd entered, sc_log w' = sc_log w ++ calls ∧ res = Done (fd, entered) ∧
    if entered : bool then opened calls = [fd] ∧ closed calls = [] else fd < 0 ∧ opened calls = closed calls.
Proof.
  unfold server_socket, mbind, prog_bind, sys_socket, sys_setsockopt, sys_bind, sys_listen, sys_close, script_sockets, answer.
  set (fd := default (-1) (head (sc_answers w))). cbn [sc_answers sc_log]. destruct (Z.ltb_spec fd 0) as [Hfd|Hfd].
  { eexists _, fd, false. split; [done|]. split; [done|]. split; [done|]. cbn. by rewrite (proj2 (Z.ltb_lt _ _) Hfd). }
  cbn [sc_answers sc_log]. rewrite <- !app_assoc. cbn [app].
  repeat match goal with |- context [if ?r <? 0 then _ else _] => destruct (r <? 0) eqn:? end;
    cbn [sc_answers sc_log]; rewrite <- ?app_assoc; cbn [app].
  all: eexists _, _, _; (split; [done|]; split; [reflexivity|]); cbn; rewrite ?(proj2 (Z.ltb_ge _ _) Hfd); done.
Qed.

(** * Starting the programs together *)

(** What matters of a machine's sockets: the type and the port of each
    descriptor, the ports with a listening socket, and the connections made
    to them that have not been accepted. *)
Record netview := mkView {
  nv_sockets : gmap Z (sock_type * option Z);
  nv_listening : gset Z;
  nv_waiting : list Z
}.

#[export] Instance sock_type_eq_dec : EqDecision sock_type.
Proof. solve_decision. Defined.

(** A socket of this type is bound to the port. *)
Definition in_use (v : netview) (t : sock_type) (port : Z) : Prop :=
  map_Exists (λ _ s, s = (t, Some port)) (nv_sockets v).
#[export] Instance in_use_dec v t port : Decision (in_use v t port).
Proof. unfold in_use. apply _. Defined.

(** Documented behaviour of the calls, as far as the programs rely on it:
    there are descriptors, options can be set, a port can be bound by one
    socket of a type, and a connection to the machine itself is refused
    unless somebody listens. *)
Class IdleMachine (W : Type) `{Sockets W} (view : W → netview) : Prop := {
  im_socket t w : ∃ fd w', sys_socket t w = (Done fd, w') ∧ 0 <= fd ∧ nv_sockets (view w) !! fd = None ∧
    view w' = mkView (<[fd := (t, None)]> (nv_sockets (view w))) (nv_listening (view w)) (nv_waiting (view w));
  im_option fd o w : ∃ w', sys_setsockopt fd o w = (Done 0, w') ∧ view w' = view w;
  im_bind fd a t w : nv_sockets (view w) !! fd = Some (t, None) →
    if decide (in_use (view w) t (sin_port a))
    then ∃ w', sys_bind fd a w = (Done (-1), w') ∧ view w' = view w
    else ∃ w', sys_bind fd a w = (Done 0, w') ∧
      view w' = mkView (<[fd := (t, Some (sin_port a))]> (nv_sockets (view w))) (nv_listening (view w)) (nv_waiting (view w));
  im_listen fd n p w : nv_sockets (view w) !! fd = Some (SOCK_STREAM, Some p) →
    ∃ w', sys_listen fd n w = (Done 0, w') ∧
      view w' = mkView (nv_sockets (view w)) ({[p]} ∪ nv_listening (view w)) (nv_waiting (view w));
  im_connect fd a w : nv_sockets (view w) !! fd = Some (SOCK_STREAM, None) →
    if decide (sin_port a ∈ nv_listening (view w))
    then ∃ w', sys_connect fd a w = (Done 0, w') ∧
      view w' = mkView (nv_sockets (view w)) (nv_listening (view w)) (nv_waiting (view w) ++ [sin_port a])
    else ∃ w', sys_connect fd a w = (Done (-1), w') ∧ view w' = view w;
  im_accept fd p w : nv_sockets (view w) !! fd = Some (SOCK_STREAM, Some p) → p ∈ nv_waiting (view w) →
    ∃ c w', sys_accept fd w = (Done c, w') ∧ 0 <= c;
  im_nonblock fd w : ∃ w', sys_set_nonblock fd w = (Done 0, w')
}.

Section startup.
Context {W : Type} `{Sockets W} (view : W → netview) `{!IdleMachine W view}.

(** Take the next call of the program with the law for it. *)
Lemma bind_done {A B} (p : prog W A) (k : A → prog W B) w a w' : p w = (Done a, w') → (p ≫= k) w = k a w'.
Proof. intros Hp. unfold mbind, prog_bind. by rewrite Hp. Qed.

Definition free (v : netview) (t : sock_type) (port : Z) : Prop :=
  ¬ in_use v t port ∧ (t = SOCK_STREAM → (port ∉ nv_listening v)).

Lemma in_use_insert v t p fd s l q :
  nv_sockets v !! fd = None ∨ (∃ t', nv_sockets v !! fd = Some (t', None)) →
  in_use (mkView (<[fd := s]> (nv_sockets v)) l q) t p ↔ s = (t, Some p) ∨ in_use v t p.
Proof.
  intros Hfd. unfold in_use, map_Exists. cbn [nv_sockets]. split.
  - intros (i & x & Hi & ->). rewrite lookup_insert in Hi. case_decide; [left; congruence|right; eauto].
  - intros [->|(i & x & Hi & ->)]; [exists fd, (t, Some p); by rewrite lookup_insert_eq|].
    exists i, (t, Some p). rewrite lookup_insert_ne; [done|]. intros ->. destruct Hfd as [|[t' ?]]; congruence.
Qed.

Definition port8000 : Z := htons 8000.
Definition port8080 : Z := htons 8080.
Definition port5000 : Z := htons 5000.

(** Sockets that have a port keep it. *)
Definition keeps (w w' : W) : Prop := ∀ i t p,
  nv_sockets (view w) !! i = Some (t, Some p) → nv_sockets (view w') !! i = Some (t, Some p).

(** The end of two of the programs: take the port and listen. *)
Lemma bind_listen {A} fd a n (x : A) w :
  nv_sockets (view w) !! fd = Some (SOCK_STREAM, None) →
  let p := r ← sys_bind fd a; if negb (r =? 0) then exit 0 else
           r ← sys_listen fd n; if negb (r =? 0) then exit 0 else mret x in
  if decide (in_use (view w) SOCK_STREAM (sin_port a)) then (p w).1 = Exit 0
  else ∃ w', p w = (Done x, w') ∧ nv_sockets (view w') !! fd = Some (SOCK_STREAM, Some (sin_port a)) ∧
    keeps w w' ∧
    nv_listening (view w') = {[sin_port a]} ∪ nv_listening (view w) ∧ nv_waiting (view w') = nv_waiting (view w) ∧
    ∀ t q, in_use (view w') t q ↔ (t, q) = (SOCK_STREAM, sin_port a) ∨ in_use (view w) t q.
Proof.
  intros Hfd. cbn zeta. pose proof (im_bind fd a SOCK_STREAM w Hfd) as Hbind. case_decide as Hin.
  - destruct Hbind as (w1 & Hb & _). by rewrite (bind_done _ _ _ _ _ Hb).
  - destruct Hbind as (w1 & Hb & V1). rewrite (bind_done _ _ _ _ _ Hb). cbn [Z.eqb negb].
    destruct (im_listen fd n (sin_port a) w1) as (w2 & Hl & V2).
    { rewrite V1. cbn [nv_sockets]. by rewrite lookup_insert_eq. }
    rewrite (bind_done _ _ _ _ _ Hl). cbn [Z.eqb negb]. exists w2. split; [done|].
    rewrite V2, V1. cbn [nv_sockets nv_listening nv_waiting]. rewrite lookup_insert_eq. split_and!; try done.
    + intros i t q Hi. rewrite V2, V1. cbn [nv_sockets]. rewrite lookup_insert_ne; congruence.
    + intros t q. rewrite in_use_insert by eauto. naive_solver.
Qed.

(** A stream socket and its option leave the ports alone. *)
Lemma new_socket t w :
  ∃ fd w', sys_socket t w = (Done fd, w') ∧ 0 <= fd ∧ nv_sockets (view w') !! fd = Some (t, None) ∧
    (∀ i s, nv_sockets (view w) !! i = Some s → nv_sockets (view w') !! i = Some s) ∧
    nv_listening (view w') = nv_listening (view w) ∧ nv_waiting (view w') = nv_waiting (view w) ∧
    ∀ t q, in_use (view w') t q ↔ in_use (view w) t q.
Proof.
  destruct (im_socket t w) as (fd & w' & H1 & Hfd & Hnone & V). exists fd, w'. rewrite V.
  cbn [nv_sockets nv_listening nv_waiting]. rewrite lookup_insert_eq. split_and!; try done.
  - intros i s Hi. rewrite lookup_insert_ne; congruence.
  - intros t' q. rewrite in_use_insert by (by left). naive_solver.
Qed.

(** Started where its port is taken the feed reader ends with status 0, and
    otherwise it listens. *)
Lemma mfr_start w :
  if decide (in_use (view w) SOCK_STREAM port8000) then (mfr_sockets w).1 = Exit 0
  else ∃ m w', mfr_sockets w = (Done m, w') ∧
    nv_sockets (view w') !! mfr_sockfd_tcp m = Some (SOCK_STREAM, Some port8000) ∧
    nv_listening (view w') = {[port8000]} ∪ nv_listening (view w) ∧ nv_waiting (view w') = nv_waiting (view w) ∧
    ∀ t p, in_use (view w') t p ↔ (t, p) = (SOCK_STREAM, port8000) ∨ in_use (view w) t p.
Proof.
  destruct (new_socket SOCK_DGRAM w) as (ufd & w1 & H1 & _ & _ & _ & L1 & Q1 & U1).
  destruct (im_option ufd (IP_MULTICAST_IF (htonl INADDR_LOOPBACK)) w1) as (w2 & H2 & V2).
  destruct (im_option ufd (IP_MULTICAST_LOOP 1) w2) as (w3 & H3 & V3).
  destruct (im_option ufd (SO_SNDBUF (Z.shiftl 1 20)) w3) as (w4 & H4 & V4).
  destruct (new_socket SOCK_STREAM w4) as (fd & w5 & H5 & Hfd & Hf & _ & L5 & Q5 & U5).
  destruct (im_option fd (SO_REUSEADDR 1) w5) as (w6 & H6 & V6).
  rewrite V4, V3, V2 in *. rewrite <- V6 in *.
  pose proof (bind_listen fd (mkAddr port8000 (inet_addr "127.0.0.1")) SOMAXCONN
    (mkMfrNet ufd (mkAddr (htons 5000) multicast_group) fd) w6 Hf) as Hbl. cbn [sin_port] in Hbl.
  unfold mfr_sockets. rewrite loopback_addr, group_addr, (bind_done _ _ _ _ _ H1), (bind_done _ _ _ _ _ H2),
    (bind_done _ _ _ _ _ H3), (bind_done _ _ _ _ _ H4), (bind_done _ _ _ _ _ H5).
  rewrite (proj2 (Z.eqb_neq fd (-1))), (bind_done _ _ _ _ _ H6) by lia. fold port8000.
  destruct (decide (in_use (view w) SOCK_STREAM port8000)) as [Hin|Hout].
  - by rewrite decide_True in Hbl by (by apply U5, U1).
  - rewrite decide_False in Hbl by (by rewrite U5, U1). destruct Hbl as (w' & Hrun & Hs & _ & Hl & Hq & Hu).
    eexists _, w'. split; [exact Hrun|]. cbn [mfr_sockfd_tcp]. split_and!; [done|congruence|congruence|].
    intros t p. by rewrite Hu, U5, U1.
Qed.

(** The retransmitter needs the feed reader, and a port of its own. *)
Lemma rt_start w :
  if decide (port8000 ∈ nv_listening (view w)) then
    if decide (in_use (view w) SOCK_STREAM port8080) then (rt_sockets w).1 = Exit 0
    else ∃ r w', rt_sockets w = (Done r, w') ∧ keeps w w' ∧
      nv_listening (view w') = {[port8080]} ∪ nv_listening (view w) ∧
      nv_waiting (view w') = nv_waiting (view w) ++ [port8000] ∧
      ∀ t p, in_use (view w') t p ↔ (t, p) = (SOCK_STREAM, port8080) ∨ in_use (view w) t p
  else (rt_sockets w).1 = Exit EXIT_FAILURE.
Proof.
  destruct (new_socket SOCK_STREAM w) as (fd1 & w1 & H1 & F1 & S1 & K1 & L1 & Q1 & U1).
  destruct (new_socket SOCK_STREAM w1) as (fd2 & w2 & H2 & F2 & S2 & K2 & L2 & Q2 & U2).
  pose proof (im_connect fd1 (mkAddr port8000 (inet_addr "127.0.0.1")) w2 (K2 _ _ S1)) as Hcon.
  cbn [sin_port] in Hcon. rewrite L2, L1 in Hcon. unfold rt_sockets.
  rewrite (bind_done _ _ _ _ _ H1), (proj2 (Z.ltb_ge fd1 0) F1), (bind_done _ _ _ _ _ H2), (proj2 (Z.ltb_ge fd2 0) F2).
  fold port8000 port8080. case_decide; destruct Hcon as (w3 & H3 & V3); rewrite (bind_done _ _ _ _ _ H3); [|done].
  cbn [Z.ltb Z.compare]. destruct (im_option fd2 (SO_REUSEADDR 1) w3) as (w4 & H4 & V4).
  rewrite (bind_done _ _ _ _ _ H4).
  assert (nv_sockets (view w4) = nv_sockets (view w2)) as S4 by by rewrite V4, V3.
  assert (∀ t q, in_use (view w4) t q ↔ in_use (view w) t q) as U4.
  { intros t q. rewrite <- U1, <- U2. unfold in_use. by rewrite S4. }
  pose proof (bind_listen fd2 (mkAddr port8080 (htonl INADDR_ANY)) 1 (mkRtNet fd1 fd2) w4) as Hbl.
  rewrite S4 in Hbl. specialize (Hbl S2). cbn [sin_port] in Hbl.
  destruct (decide (in_use (view w) SOCK_STREAM port8080)) as [Hin|Hout].
  - by rewrite decide_True in Hbl by (by apply U4).
  - rewrite decide_False in Hbl by (by rewrite U4). destruct Hbl as (w' & Hrun & Hs & Hk & Hl & Hq & Hu).
    eexists _, w'. split; [exact Hrun|]. split_and!.
    + intros i t p Hi. apply Hk. rewrite S4. by apply K2, K1.
    + rewrite Hl, V4, V3. cbn [nv_listening]. congruence.
    + rewrite Hq, V4, V3. cbn [nv_waiting]. congruence.
    + intros t p. by rewrite Hu, U4.
Qed.

(** The listener needs the retransmitter, and the UDP port for itself. *)
Lemma listener_start w :
  if decide (in_use (view w) SOCK_DGRAM port5000) then (listener_sockets w).1 = Exit EXIT_FAILURE
  else if decide (port8080 ∈ nv_listening (view w)) then
    ∃ l w', listener_sockets w = (Done l, w') ∧ keeps w w' ∧ nv_listening (view w') = nv_listening (view w) ∧
      nv_waiting (view w') = nv_waiting (view w) ++ [port8080] ∧
      ∀ t p, in_use (view w') t p ↔ (t, p) = (SOCK_DGRAM, port5000) ∨ in_use (view w) t p
  else (listener_sockets w).1 = Exit EXIT_FAILURE.
Proof.
  destruct (new_socket SOCK_DGRAM w) as (fd1 & w1 & H1 & F1 & S1 & K1 & L1 & Q1 & U1).
  pose proof (im_bind fd1 (mkAddr port5000 INADDR_ANY) SOCK_DGRAM w1 S1) as Hbind. cbn [sin_port] in Hbind.
  unfold listener_sockets. rewrite (bind_done _ _ _ _ _ H1), (proj2 (Z.ltb_ge fd1 0) F1). fold port5000 port8080.
  destruct (decide (in_use (view w) SOCK_DGRAM port5000)) as [Hin|Hout].
  { rewrite decide_True in Hbind by (by apply U1). destruct Hbind as (w2 & H2 & _).
    by rewrite (bind_done _ _ _ _ _ H2). }
  rewrite decide_False in Hbind by (by rewrite U1). destruct Hbind as (w2 & H2 & V2).
  rewrite (bind_done _ _ _ _ _ H2). cbn [Z.eqb negb]. rewrite loopback_addr, group_addr.
  destruct (im_option fd1 (IP_ADD_MEMBERSHIP multicast_group (htonl INADDR_LOOPBACK)) w2) as (w3 & H3 & V3).
  destruct (im_option fd1 (IP_MULTICAST_LOOP 1) w3) as (w4 & H4 & V4).
  destruct (new_socket SOCK_STREAM w4) as (fd2 & w5 & H5 & F5 & S5 & K5 & L5 & Q5 & U5).
  rewrite V4, V3 in *. clear V3 V4.
  rewrite (bind_done _ _ _ _ _ H3). cbn [Z.ltb Z.compare].
  rewrite (bind_done _ _ _ _ _ H4), (bind_done _ _ _ _ _ H5), (proj2 (Z.ltb_ge fd2 0) F5).
  pose proof (im_connect fd2 (mkAddr port8080 (inet_addr "127.0.0.1")) w5 S5) as Hcon. cbn [sin_port] in Hcon.
  rewrite L5, V2 in Hcon. cbn [nv_listening] in Hcon. rewrite L1 in Hcon.
  case_decide; destruct Hcon as (w6 & H6 & V6); rewrite (bind_done _ _ _ _ _ H6); [|done].
  cbn [Z.ltb Z.compare]. eexists _, w6. split; [done|]. rewrite V6. cbn [nv_listening nv_waiting]. split_and!.
  - intros i t p Hi. rewrite V6. cbn [nv_sockets]. apply K5. rewrite V2. cbn [nv_sockets].
    rewrite lookup_insert_ne; [by apply K1|]. intros ->. apply K1 in Hi. congruence.
  - done.
  - rewrite Q5, V2. cbn [nv_waiting]. by rewrite Q1.
  - intros t p. change (in_use (view w5) t p ↔ (t, p) = (SOCK_DGRAM, port5000) ∨ in_use (view w) t p).
    rewrite U5, V2, in_use_insert, U1 by eauto. naive_solver.
Qed.

(** C35: The feed comes up in one order.  On a machine that can give
    descriptors and on which the ports 8000, 8080 and 5000 are free, starting
    the feed reader, then the retransmitter, then a listener brings all three
    up, and the feed reader's sender gets its connection.  Started before the
    program it connects to, the retransmitter and the listener end with
    EXIT_FAILURE, and so does a second listener on the same machine; a second
    feed reader or retransmitter ends with status 0. *)
Theorem startup_order w :
  free (view w) SOCK_STREAM port8000 → free (view w) SOCK_STREAM port8080 → free (view w) SOCK_DGRAM port5000 →
  ∃ m w1 r w2 l w3 c w4,
    mfr_sockets w = (Done m, w1) ∧ rt_sockets w1 = (Done r, w2) ∧ listener_sockets w2 = (Done l, w3) ∧
    mfr_accept m w3 = (Done c, w4) ∧
    (rt_sockets w).1 = Exit EXIT_FAILURE ∧ (listener_sockets w1).1 = Exit EXIT_FAILURE ∧
    (listener_sockets w3).1 = Exit EXIT_FAILURE ∧ (mfr_sockets w3).1 = Exit 0 ∧ (rt_sockets w3).1 = Exit 0.
Proof.
  intros [N8000 L8000] [N8080 L8080] [N5000 _].
  pose proof (mfr_start w) as Hm. rewrite decide_False in Hm by done.
  destruct Hm as (m & w1 & Hm & Sm & Lm & Qm & Um).
  pose proof (rt_start w1) as Hr. rewrite decide_True, decide_False in Hr by (rewrite ?Lm, ?Um; set_solver).
  destruct Hr as (r & w2 & Hr & Kr & Lr & Qr & Ur).
  pose proof (listener_start w2) as Hl.
  rewrite decide_False, decide_True in Hl by (rewrite ?Lr, ?Ur, ?Um; set_solver).
  destruct Hl as (l & w3 & Hl & Kl & Ll & Ql & Ul).
  destruct (im_accept (mfr_sockfd_tcp m) port8000 w3) as (c & w4 & Hc & Hc0);
    [by apply Kl, Kr|rewrite Ql, Qr; set_solver|].
  destruct (im_nonblock c w4) as [w5 Hn].
  exists m, w1, r, w2, l, w3, c, w5. split_and!; [done..| | | | | |].
  - unfold mfr_accept. rewrite (bind_done _ _ _ _ _ Hc), (bind_done _ _ _ _ _ Hn).
    by rewrite (proj2 (Z.ltb_ge c 0)) by done.
  - pose proof (rt_start w) as H'. by rewrite decide_False in H' by auto.
  - pose proof (listener_start w1) as H'. rewrite decide_False in H' by (rewrite Um; set_solver).
    rewrite decide_False in H'; [done|]. rewrite Lm. specialize (L8080 eq_refl).
    assert (port8080 ≠ port8000) by done. set_solver.
  - pose proof (listener_start w3) as H'. by rewrite decide_True in H' by (rewrite Ul; auto).
  - pose proof (mfr_start w3) as H'. rewrite decide_True in H'; [done|]. rewrite Ul, Ur, Um. auto.
  - pose proof (rt_start w3) as H'. rewrite !decide_True in H'; [done|..].
    + rewrite Ul, Ur. auto.
    + rewrite Ll, Lr, Lm. set_solver.
Qed.
End startup.

(** * Witness: a machine with these calls *)

Definition free_fd (v : netview) : Z := Z.of_N (fresh (set_map Z.to_N (dom (nv_sockets v)) : gset N)).

Definition set_sockets (m : gmap Z (sock_type * option Z)) (v : netview) : netview :=
  mkView m (nv_listening v) (nv_waiting v).

#[export] Instance machine_sockets : Sockets netview := {|
  sys_socket t v := (Done (free_fd v), set_sockets (<[free_fd v := (t, None)]> (nv_sockets v)) v);
  sys_setsockopt fd o v := (Done 0, v);
  sys_bind fd a v :=
    match nv_sockets v !! fd with
    | Some (t, None) =>
        if decide (in_use v t (sin_port a)) then (Done (-1), v)
        else (Done 0, set_sockets (<[fd := (t, Some (sin_port a))]> (nv_sockets v)) v)
    | _ => (Done (-1), v)
    end;
  sys_listen fd n v :=
    match nv_sockets v !! fd with
    | Some (SOCK_STREAM, Some p) => (Done 0, mkView (nv_sockets v) ({[p]} ∪ nv_listening v) (nv_waiting v))
    | _ => (Done (-1), v)
    end;
  sys_connect fd a v :=
    if decide (sin_port a ∈ nv_listening v)
    then (Done 0, mkView (nv_sockets v) (nv_listening v) (nv_waiting v ++ [sin_port a]))
    else (Done (-1), v);
  sys_accept fd v := (Done (free_fd v), set_sockets (<[free_fd v := (SOCK_STREAM, None)]> (nv_sockets v)) v);
  sys_set_nonblock fd v := (Done 0, v);
  sys_close fd v := (Done 0, set_sockets (delete fd (nv_sockets v)) v)
|}.

Lemma free_fd_ok v : 0 <= free_fd v ∧ nv_sockets v !! free_fd v = None.
Proof.
  split; [unfold free_fd; lia|]. apply not_elem_of_dom. intros Hin.
  pose proof (is_fresh (set_map Z.to_N (dom (nv_sockets v)) : gset N)) as Hf. apply Hf.
  apply elem_of_map. exists (free_fd v). split; [|done]. unfold free_fd. by rewrite N2Z.id.
Qed.

#[export] Instance machine_idle : IdleMachine netview id.
Proof.
  split; unfold id.
  - intros t v. destruct (free_fd_ok v). eexists _, _. split; [reflexivity|]. done.
  - intros fd o v. by eexists.
  - intros fd a t v Hfd. cbn. rewrite Hfd. case_decide; by eexists.
  - intros fd n p v Hfd. cbn. rewrite Hfd. by eexists.
  - intros fd a v Hfd. cbn. case_decide; by eexists.
  - intros fd p v _ _. eexists _, _. split; [reflexivity|]. apply free_fd_ok.
  - intros fd v. by eexists.
Qed.

Definition new_machine : netview := mkView ∅ ∅ [].

Lemma new_machine_free t p : free new_machine t p.
Proof. split; [|intros _; set_solver]. intros (i & x & Hi & _). cbn [new_machine nv_sockets] in Hi. by rewrite lookup_empty in Hi. Qed.

Lemma startup_order_witness :
  ∃ m w1 r w2, mfr_sockets new_machine = (Done m, w1) ∧ rt_sockets w1 = (Done r, w2).
Proof.
  destruct (startup_order (W:=netview) id new_machine (new_machine_free _ _) (new_machine_free _ _) (new_machine_free _ _))
    as (m & w1 & r & w2 & l & w3 & c & w4 & H1 & H2 & _).
  exists m, w1, r, w2. split; [exact H1|exact H2].
Defined.
