(* ===== verification/Shm.v ===== *)
(** How the processes of the exchange come to share memory: the names of the
    ring objects (include/trade_ring_buffer.h), the constructor and destructor
    of trade_ring_buffer (src/trade_ring_buffer.cpp), and the market state
    object created by MatchingEngineDispatcher (src/producer_consumer.cpp) and
    opened by OrderManagementSystem (src/oms.cpp).

    The calls on shared memory objects are the operations of the class
    [SharedMemory]; [SharedMemoryOk] states their documented behaviour. *)

From S2P Require Import Prelude Types TradeRing SymbolLoader Net.

(** * The table of names *)

(** One character into the storage of 32; [None]: outside it. *)
Definition put_char (st : option (text * nat)) (c : Z) : option (text * nat) :=
  '(storage, p) ← st;
  if (p <? 32)%nat then Some (<[p := c]> storage, S p) else None.

(** The [do] loop that fills [digits], lowest digit first; at most 20 fit. *)
Fixpoint low_digits (fuel : nat) (x : Z) : option text :=
  match fuel with
  | O => None
  | S fuel =>
      let c := 48 + x mod 10 in
      if 0 <? x / 10 then ds ← low_digits fuel (x / 10); Some (c :: ds) else Some [c]
  end.

Definition name_prefix : text := literal "/Trade_Ring_Buffer_".

(** Entry [i] of the table: the characters of its view. *)
Definition filename (i : Z) : option text :=
  digits ← low_digits 20 i;
  '(storage, p) ← foldl put_char (Some (replicate 32 0, 0%nat)) (name_prefix ++ reverse digits);
  if (p <? 32)%nat then Some (take p (<[p := 0]> storage)) else None.

Lemma put_chars cs : ∀ storage p,
  length storage = 32%nat → (p + length cs ≤ 32)%nat →
  ∃ storage', foldl put_char (Some (storage, p)) cs = Some (storage', (p + length cs)%nat) ∧
    length storage' = 32%nat ∧ take (p + length cs) storage' = take p storage ++ cs.
Proof.
  induction cs as [|c cs IH]; intros storage p Hl Hp; cbn [foldl length] in *.
  { exists storage. rewrite Nat.add_0_r, app_nil_r. done. }
  unfold put_char at 2. cbn [mbind option_bind]. rewrite (proj2 (Nat.ltb_lt p 32)) by lia.
  destruct (IH (<[p := c]> storage) (S p)) as (st' & Hrun & Hlen & Htake); [by rewrite length_insert|lia|].
  exists st'. replace (p + S (length cs))%nat with (S p + length cs)%nat by lia. split; [done|]. split; [done|].
  rewrite Htake, (take_S_r _ _ c) by (apply list_lookup_insert_eq; lia).
  rewrite take_insert_ge by lia. by rewrite <- app_assoc.
Qed.

Lemma low_digits_print fuel x :
  0 <= x < 10 ^ Z.of_nat fuel → (0 < fuel)%nat → ∃ ds, low_digits fuel x = Some ds ∧ reverse ds = dec_digits fuel x.
Proof.
  revert x. induction fuel as [|fuel IH]; intros x Hx Hf; [lia|]. cbn [low_digits dec_digits].
  rewrite Nat2Z.inj_succ, Z.pow_succ_r in Hx by lia.
  destruct (Z.ltb_spec x 10) as [Hlt|Hge].
  - rewrite Z.div_small, Z.mod_small by lia. cbn [Z.ltb Z.compare]. by eexists.
  - assert (0 < x / 10) as Hd by (apply Z.div_str_pos; lia). rewrite (proj2 (Z.ltb_lt _ _) Hd).
    destruct (IH (x / 10)) as (ds & -> & Hr).
    { split; [lia|]. apply Z.div_lt_upper_bound; lia. }
    { destruct fuel; [simpl in Hx; lia|lia]. }
    cbn [mbind option_bind]. eexists. split; [done|]. by rewrite reverse_cons, Hr.
Qed.

Lemma dec_digits_length fuel n k :
  0 <= n < 10 ^ Z.of_nat (S k) → (length (dec_digits fuel n) ≤ S k)%nat.
Proof.
  revert n k. induction fuel as [|fuel IH]; intros n k Hn; cbn [dec_digits length]; [lia|].
  destruct (Z.ltb_spec n 10); [simpl; lia|]. rewrite length_app. cbn [length].
  destruct k as [|k]; [simpl in Hn; lia|]. specialize (IH (n / 10) k).
  rewrite (Nat2Z.inj_succ (S k)), Z.pow_succ_r in Hn by lia.
  enough (length (dec_digits fuel (n / 10)) ≤ S k)%nat by lia. apply IH.
  split; [apply Z.div_pos; lia|]. apply Z.div_lt_upper_bound; lia.
Qed.

(** The name of buffer [i], for every table of up to [10^12] entries. *)
Lemma filename_ok i : 0 <= i < 10 ^ 12 → filename i = Some (name_prefix ++ print_dec i).
Proof.
  intros Hi. unfold filename.
  destruct (low_digits_print 20 i) as (ds & -> & Hds); [lia|lia|]. cbn [mbind option_bind].
  pose proof (dec_digits_length 20 i 11 Hi) as Hlen. change (dec_digits 20 i) with (print_dec i) in *. rewrite Hds.
  destruct (put_chars (name_prefix ++ print_dec i) (replicate 32 0) 0) as (st & -> & Hl & Ht);
    [done|rewrite length_app; change (length name_prefix) with 19%nat; lia|].
  cbn [mbind option_bind Nat.add] in *.
  assert (length (name_prefix ++ print_dec i) ≤ 31)%nat by (rewrite length_app; change (length name_prefix) with 19%nat; lia).
  rewrite (proj2 (Nat.ltb_lt _ 32)) by lia. rewrite take_insert_ge by lia. by rewrite Ht.
Qed.

Lemma filename_inj i j : 0 <= i < 10 ^ 12 → 0 <= j < 10 ^ 12 → filename i = filename j → i = j.
Proof.
  intros Hi Hj. rewrite !filename_ok by done. intros [= H].
  destruct (print_dec_ok i) as (_ & <- & _); [mach|]. destruct (print_dec_ok j) as (_ & <- & _); [mach|]. by rewrite H.
Qed.

(** * Shared memory objects *)

Class SharedMemory (W : Type) := {
  shm_open : bool (* O_CREAT *) → bool (* O_EXCL *) → text → prog W Z;
  sys_ftruncate : Z → Z → prog W Z;
  (** The object mapped; [None] is MAP_FAILED. *)
  sys_mmap : Z → bool (* PROT_WRITE *) → Z → prog W (option nat);
  shm_close : Z → prog W Z;
  shm_unlink : text → prog W Z
}.

Definition sizeof_ring_buffer : Z := RING_SIZE * 64.
Definition sizeof_MarketState : Z := MAX_SYMBOLS * 8.
Definition market_name : text := literal "/oms_market_data".

Section programs.
Context {W : Type} `{SharedMemory W}.

(** The constructor of trade_ring_buffer: the object its [rb] points to.
    After a failing ftruncate it goes on with the closed descriptor. *)
Definition ring_attach (is_producer : bool) (name : text) : prog W (option nat) :=
  fd ← shm_open true true name;
  fd ← (if fd =? -1 then shm_open false false name
        else
          r ← sys_ftruncate fd sizeof_ring_buffer;
          if r =? -1 then _ ← shm_close fd; mret fd else mret fd);
  ptr ← sys_mmap sizeof_ring_buffer is_producer fd;
  _ ← shm_close fd;
  mret ptr.

(** The destructor, [munmap] apart. *)
Definition ring_detach (is_producer : bool) (name : text) : prog W () :=
  if is_producer then _ ← shm_unlink name; mret () else mret ().

(** The dispatcher's part: the object, which stays open. *)
Definition market_create : prog W (Z * option nat) :=
  fd ← shm_open true false market_name;
  _ ← sys_ftruncate fd sizeof_MarketState;
  ptr ← sys_mmap sizeof_MarketState true fd;
  mret (fd, ptr).

(** The OMS's part: [None] is the null pointer. *)
Definition market_open : prog W (option nat) :=
  fd ← shm_open false false market_name;
  if negb (fd =? -1) then
    ptr ← sys_mmap sizeof_MarketState false fd;
    _ ← shm_close fd;
    mret ptr
  else mret None.

(** The dispatcher's destructor, [munmap] apart. *)
Definition market_destroy (fd : Z) : prog W () :=
  _ ← shm_close fd; _ ← shm_unlink market_name; mret ().

(** Processes attach one after the other, each constructor as a whole: producer
    or consumer, and name.  What a consumer finds between the producer's
    [shm_open] and [ftruncate] is not modelled. *)
Fixpoint attach_all (ps : list (bool * text)) : prog W (list (option nat)) :=
  match ps with
  | [] => mret []
  | (is_producer, name) :: ps => o ← ring_attach is_producer name; os ← attach_all ps; mret (o :: os)
  end.
End programs.

(** The objects of a machine: names, sizes, and open descriptors. *)
Record shmview := mkShm {
  sv_names : gmap text nat;
  sv_sizes : gmap nat Z;
  sv_fds : gmap Z nat
}.

(** The documented behaviour: an exclusive creation makes a new, empty object
    or fails when the name is taken; opening finds the object of a name;
    unlinking frees the name and leaves the object to those who have it. *)
Class SharedMemoryOk (W : Type) `{SharedMemory W} (view : W → shmview) : Prop := {
  so_create excl name w : sv_names (view w) !! name = None →
    ∃ fd o w', shm_open true excl name w = (Done fd, w') ∧ fd ≠ -1 ∧ sv_sizes (view w) !! o = None ∧
      view w' = mkShm (<[name := o]> (sv_names (view w))) (<[o := 0]> (sv_sizes (view w))) (<[fd := o]> (sv_fds (view w)));
  so_exists name w o : sv_names (view w) !! name = Some o →
    ∃ w', shm_open true true name w = (Done (-1), w') ∧ view w' = view w;
  so_open name w creat o : sv_names (view w) !! name = Some o →
    ∃ fd w', shm_open creat false name w = (Done fd, w') ∧ fd ≠ -1 ∧
      view w' = mkShm (sv_names (view w)) (sv_sizes (view w)) (<[fd := o]> (sv_fds (view w)));
  so_missing name w : sv_names (view w) !! name = None →
    ∃ w', shm_open false false name w = (Done (-1), w') ∧ view w' = view w;
  so_truncate fd n w o : sv_fds (view w) !! fd = Some o →
    ∃ w', sys_ftruncate fd n w = (Done 0, w') ∧
      view w' = mkShm (sv_names (view w)) (<[o := n]> (sv_sizes (view w))) (sv_fds (view w));
  so_map n writable fd w o : sv_fds (view w) !! fd = Some o →
    ∃ w', sys_mmap n writable fd w = (Done (Some o), w') ∧ view w' = view w;
  so_close fd w : ∃ r w', shm_close fd w = (Done r, w') ∧
    sv_names (view w') = sv_names (view w) ∧ sv_sizes (view w') = sv_sizes (view w);
  so_unlink name w : ∃ r w', shm_unlink name w = (Done r, w') ∧
    sv_names (view w') = delete name (sv_names (view w)) ∧ sv_sizes (view w') = sv_sizes (view w)
}.

Section sharing.
Context {W : Type} `{SharedMemory W} (view : W → shmview) `{!SharedMemoryOk W view}.

(** Attaching to a name: the object of the name, which is made if need be. *)
Lemma attach_ok is_producer name w :
  ∃ o w', ring_attach is_producer name w = (Done (Some o), w') ∧
    match sv_names (view w) !! name with
    | Some o' => o' = o ∧ sv_names (view w') = sv_names (view w) ∧ sv_sizes (view w') = sv_sizes (view w)
    | None => sv_sizes (view w) !! o = None ∧ sv_names (view w') = <[name := o]> (sv_names (view w)) ∧
        sv_sizes (view w') = <[o := sizeof_ring_buffer]> (sv_sizes (view w))
    end.
Proof.
  unfold ring_attach. destruct (sv_names (view w) !! name) as [o|] eqn:Hn.
  - destruct (so_exists name w o Hn) as (w1 & H1 & V1). rewrite (bind_done _ _ _ _ _ H1). cbn [Z.eqb].
    destruct (so_open name w1 false o) as (fd & w2 & H2 & Hfd & V2); [by rewrite V1|].
    cbn [Pos.eqb]. rewrite (bind_done _ _ _ _ _ H2).
    destruct (so_map sizeof_ring_buffer is_producer fd w2 o) as (w3 & H3 & V3);
      [rewrite V2; cbn [sv_fds]; by rewrite lookup_insert_eq|].
    rewrite (bind_done _ _ _ _ _ H3). destruct (so_close fd w3) as (r & w4 & H4 & N4 & S4).
    rewrite (bind_done _ _ _ _ _ H4). exists o, w4. split; [done|]. by rewrite N4, S4, V3, V2, V1.
  - destruct (so_create true name w Hn) as (fd & o & w1 & H1 & Hfd & Ho & V1). rewrite (bind_done _ _ _ _ _ H1).
    rewrite (proj2 (Z.eqb_neq fd (-1)) Hfd).
    destruct (so_truncate fd sizeof_ring_buffer w1 o) as (w2 & H2 & V2);
      [rewrite V1; cbn [sv_fds]; by rewrite lookup_insert_eq|].
    erewrite (bind_done _ _ w1); [|by rewrite (bind_done _ _ _ _ _ H2)].
    destruct (so_map sizeof_ring_buffer is_producer fd w2 o) as (w3 & H3 & V3);
      [rewrite V2, V1; cbn [sv_fds]; by rewrite lookup_insert_eq|].
    rewrite (bind_done _ _ _ _ _ H3). destruct (so_close fd w3) as (r & w4 & H4 & N4 & S4).
    rewrite (bind_done _ _ _ _ _ H4). exists o, w4. split; [done|]. split; [done|].
    rewrite N4, S4, V3, V2, V1. cbn [sv_names sv_sizes]. by rewrite insert_insert_eq.
Qed.

(** Different names have different objects, and the objects exist. *)
Record shm_good (v : shmview) : Prop := {
  sg_inj n n' o : sv_names v !! n = Some o → sv_names v !! n' = Some o → n = n';
  sg_size n o : sv_names v !! n = Some o → is_Some (sv_sizes v !! o)
}.

Lemma attach_good is_producer name w :
  shm_good (view w) →
  ∃ o w', ring_attach is_producer name w = (Done (Some o), w') ∧ shm_good (view w') ∧
    sv_names (view w') !! name = Some o ∧ sv_names (view w) ⊆ sv_names (view w') ∧
    (∀ n, sv_names (view w) !! n = None → n ≠ name → sv_names (view w') !! n = None) ∧
    (∀ x sz, sv_sizes (view w) !! x = Some sz → sv_sizes (view w') !! x = Some sz) ∧
    (sv_names (view w) !! name = None → sv_sizes (view w') !! o = Some sizeof_ring_buffer).
Proof.
  intros [Hinj Hsize]. destruct (attach_ok is_producer name w) as (o & w' & Hrun & Hres). exists o, w'. split; [done|].
  destruct (sv_names (view w) !! name) as [o'|] eqn:Hn; destruct Hres as (H1 & H2 & H3); rewrite ?H2, ?H3.
  - subst o'. split_and!; try done. split; rewrite ?H2, ?H3; done.
  - split_and!.
    + split; rewrite ?H2, ?H3.
      * intros n n' x. rewrite !lookup_insert. repeat case_decide; try congruence.
        -- intros [= <-] Hn'. destruct (Hsize _ _ Hn'). congruence.
        -- intros Hn' [= <-]. destruct (Hsize _ _ Hn'). congruence.
        -- apply Hinj.
      * intros n x Hx. rewrite lookup_insert. case_decide; [by eexists|].
        rewrite lookup_insert in Hx. case_decide; [congruence|]. by eapply Hsize.
    + apply lookup_insert_eq.
    + by apply insert_subseteq.
    + intros n Hnone Hne. by rewrite lookup_insert_ne.
    + intros x sz Hx. rewrite lookup_insert_ne; [done|congruence].
    + intros _. apply lookup_insert_eq.
Qed.

Lemma attach_all_good ps : ∀ w, shm_good (view w) →
  ∃ os w', attach_all ps w = (Done os, w') ∧ shm_good (view w') ∧ sv_names (view w) ⊆ sv_names (view w') ∧
    (∀ n, sv_names (view w) !! n = None → (n ∉ snd <$> ps) → sv_names (view w') !! n = None) ∧
    (∀ x sz, sv_sizes (view w) !! x = Some sz → sv_sizes (view w') !! x = Some sz) ∧
    os = (λ p, sv_names (view w') !! p.2) <$> ps ∧ (∀ n, (n ∈ snd <$> ps) → is_Some (sv_names (view w') !! n)) ∧
    (∀ n o, (n ∈ snd <$> ps) → sv_names (view w) !! n = None → sv_names (view w') !! n = Some o →
       sv_sizes (view w') !! o = Some sizeof_ring_buffer).
Proof.
  induction ps as [|[is_producer name] ps IH]; intros w Hg; cbn [attach_all].
  { exists [], w. split_and!; try done; intros n; [|intros o]; intros Hn; by apply elem_of_nil in Hn. }
  destruct (attach_good is_producer name w Hg) as (o & w1 & H1 & Hg1 & Hn1 & Hsub1 & Hkeep1 & Hsz1 & Hfull1).
  destruct (IH w1 Hg1) as (os & w' & Hrun & Hg' & Hsub' & Hkeep' & Hsz' & -> & Hin' & Hfull').
  rewrite (bind_done _ _ _ _ _ H1), (bind_done _ _ _ _ _ Hrun). eexists _, w'.
  assert (sv_names (view w') !! name = Some o) as Hno by (by eapply lookup_weaken).
  split; [done|]. split_and!.
  - done.
  - by etrans.
  - intros n Hn Hnin. rewrite fmap_cons, elem_of_cons in Hnin. apply Hkeep'; [apply Hkeep1|]; naive_solver.
  - auto.
  - by rewrite fmap_cons; cbn [snd]; rewrite Hno.
  - intros n Hin. rewrite fmap_cons, elem_of_cons in Hin. destruct Hin as [->|Hin]; [by exists o|by apply Hin'].
  - intros n x Hin Hn Hx. destruct (decide (n = name)) as [->|Hne].
    + rewrite Hno in Hx. injection Hx as <-. auto.
    + apply (Hfull' n); [|auto|done]. rewrite fmap_cons, elem_of_cons in Hin. by destruct Hin.
Qed.

Definition ring_name (i : Z) : text := default [] (filename i).

Lemma ring_name_inj i j : 0 <= i < 10 ^ 12 → 0 <= j < 10 ^ 12 → ring_name i = ring_name j → i = j.
Proof.
  intros Hi Hj. unfold ring_name. rewrite (filename_ok i Hi), (filename_ok j Hj). intros Heq.
  apply filename_inj; [done..|]. rewrite (filename_ok i Hi), (filename_ok j Hj). by f_equal.
Qed.

(** C34: All processes share the rings.  On a machine without old ring objects,
    in whatever order producers and consumers attach to buffers of the table,
    one constructor after the other, each gets a mapped object of full size, two of them the same one exactly
    when they attach to the same buffer. *)
Theorem rings_shared (ps : list (bool * Z)) w :
  shm_good (view w) → (∀ p, p ∈ ps → 0 <= p.2 < 10 ^ 12 ∧ sv_names (view w) !! ring_name p.2 = None) →
  ∃ os w', attach_all ((λ p, (p.1, ring_name p.2)) <$> ps) w = (Done os, w') ∧ length os = length ps ∧
    (∀ k p, ps !! k = Some p → ∃ o, os !! k = Some (Some o) ∧ sv_sizes (view w') !! o = Some sizeof_ring_buffer) ∧
    ∀ k k' p p', ps !! k = Some p → ps !! k' = Some p' → (os !! k = os !! k' ↔ p.2 = p'.2).
Proof.
  intros Hg Hps. destruct (attach_all_good ((λ p, (p.1, ring_name p.2)) <$> ps) w Hg)
    as (os & w' & Hrun & Hg' & _ & _ & _ & -> & Hin & Hfull). eexists _, w'. split; [exact Hrun|].
  split; [by rewrite !length_fmap|].
  assert (∀ k p, ps !! k = Some p → ∃ o, sv_names (view w') !! ring_name p.2 = Some o ∧
    sv_sizes (view w') !! o = Some sizeof_ring_buffer) as Hmapped.
  { intros k p Hk. apply list_elem_of_lookup_2 in Hk as Hp.
    assert (ring_name p.2 ∈ snd <$> ((λ p, (p.1, ring_name p.2)) <$> ps)) as Hnm.
    { rewrite <- list_fmap_compose. apply list_elem_of_fmap. by exists p. }
    destruct (Hin _ Hnm) as [o Ho]. exists o. split; [done|]. eapply Hfull; [exact Hnm|by apply Hps|done]. }
  assert (∀ k p, ps !! k = Some p → ((λ p, sv_names (view w') !! p.2) <$> ((λ p, (p.1, ring_name p.2)) <$> ps)) !! k
    = Some (sv_names (view w') !! ring_name p.2)) as Hlook.
  { intros k p Hk. by rewrite !list_lookup_fmap, Hk. }
  split.
  - intros k p Hk. destruct (Hmapped k p Hk) as (o & Ho & Hsz). exists o. by rewrite (Hlook k p Hk), Ho.
  - intros k k' p p' Hk Hk'. rewrite (Hlook k p Hk), (Hlook k' p' Hk').
    destruct (Hmapped k p Hk) as (o & Ho & _), (Hmapped k' p' Hk') as (o' & Ho' & _).
    rewrite Ho, Ho'. split; [|intros Heq; rewrite Heq in Ho; congruence]. intros [= <-].
    apply ring_name_inj; [by eapply Hps, list_elem_of_lookup_2..|]. by eapply sg_inj.
Qed.

(** A producer that ends and is started again takes a new object, while
    those who attached before keep the old one, into which nobody writes. *)
Lemma restart_separates name w o :
  shm_good (view w) → sv_names (view w) !! name = Some o →
  ∃ w1 o' w2, ring_detach true name w = (Done (), w1) ∧ ring_attach true name w1 = (Done (Some o'), w2) ∧ o' ≠ o.
Proof.
  intros Hg Hn. unfold ring_detach. destruct (so_unlink name w) as (r & w1 & H1 & N1 & S1).
  rewrite (bind_done _ _ _ _ _ H1). destruct (attach_ok true name w1) as (o' & w2 & H2 & Hres).
  rewrite N1, lookup_delete_eq in Hres. destruct Hres as (Ho' & _). exists w1, o', w2. split; [done|]. split; [done|].
  intros ->. destruct (sg_size _ Hg _ _ Hn). congruence.
Qed.

(** The OMS finds the prices exactly when the dispatcher has created them,
    and then maps the dispatcher's object. *)
Lemma market_shared w :
  ∃ fd o w' w'', market_create w = (Done (fd, Some o), w') ∧ market_open w' = (Done (Some o), w'').
Proof.
  unfold market_create. assert (∃ fd o w1, shm_open true false market_name w = (Done fd, w1) ∧
    sv_fds (view w1) !! fd = Some o ∧ sv_names (view w1) !! market_name = Some o) as (fd & o & w1 & H1 & F1 & N1).
  { destruct (sv_names (view w) !! market_name) as [o|] eqn:Hn.
    - destruct (so_open market_name w true o Hn) as (fd & w1 & H1 & _ & V1). exists fd, o, w1.
      rewrite V1. cbn [sv_fds sv_names]. by rewrite lookup_insert_eq.
    - destruct (so_create false market_name w Hn) as (fd & o & w1 & H1 & _ & _ & V1). exists fd, o, w1.
      rewrite V1. cbn [sv_fds sv_names]. by rewrite !lookup_insert_eq. }
  rewrite (bind_done _ _ _ _ _ H1). destruct (so_truncate fd sizeof_MarketState w1 o F1) as (w2 & H2 & V2).
  rewrite (bind_done _ _ _ _ _ H2). destruct (so_map sizeof_MarketState true fd w2 o) as (w3 & H3 & V3);
    [by rewrite V2|].
  rewrite (bind_done _ _ _ _ _ H3). unfold market_open.
  destruct (so_open market_name w3 false o) as (fd' & w4 & H4 & Hfd & V4); [by rewrite V3, V2|].
  destruct (so_map sizeof_MarketState false fd' w4 o) as (w5 & H5 & V5);
    [rewrite V4; cbn [sv_fds]; by rewrite lookup_insert_eq|].
  destruct (so_close fd' w5) as (r & w6 & H6 & _). exists fd, o, w3, w6. split; [done|].
  rewrite (bind_done _ _ _ _ _ H4), (proj2 (Z.eqb_neq _ _) Hfd). cbn [negb].
  by rewrite (bind_done _ _ _ _ _ H5), (bind_done _ _ _ _ _ H6).
Qed.

Lemma market_missing w :
  sv_names (view w) !! market_name = None → ∃ w', market_open w = (Done None, w').
Proof.
  intros Hn. unfold market_open. destruct (so_missing market_name w Hn) as (w1 & H1 & _).
  rewrite (bind_done _ _ _ _ _ H1). by eexists.
Qed.
End sharing.

(** * Witness: a machine with these calls *)

Definition next_object (v : shmview) : nat := fresh (dom (sv_sizes v) : gset nat).
Definition next_fd (v : shmview) : Z := Z.of_N (fresh (set_map Z.to_N (dom (sv_fds v)) : gset N)).

#[export] Instance shm_machine : SharedMemory shmview := {|
  shm_open creat excl name v :=
    match sv_names v !! name with
    | Some o =>
        if creat && excl then (Done (-1), v)
        else (Done (next_fd v), mkShm (sv_names v) (sv_sizes v) (<[next_fd v := o]> (sv_fds v)))
    | None =>
        if creat then
          let o := next_object v in
          (Done (next_fd v), mkShm (<[name := o]> (sv_names v)) (<[o := 0]> (sv_sizes v)) (<[next_fd v := o]> (sv_fds v)))
        else (Done (-1), v)
    end;
  sys_ftruncate fd n v :=
    match sv_fds v !! fd with
    | Some o => (Done 0, mkShm (sv_names v) (<[o := n]> (sv_sizes v)) (sv_fds v))
    | None => (Done (-1), v)
    end;
  sys_mmap n writable fd v := (Done (sv_fds v !! fd), v);
  shm_close fd v := (Done 0, mkShm (sv_names v) (sv_sizes v) (delete fd (sv_fds v)));
  shm_unlink name v := (Done 0, mkShm (delete name (sv_names v)) (sv_sizes v) (sv_fds v))
|}.

Lemma next_object_ok v : sv_sizes v !! next_object v = None.
Proof. apply not_elem_of_dom. exact (is_fresh (dom (sv_sizes v) : gset nat)). Qed.

Lemma next_fd_ok v : next_fd v ≠ -1.
Proof. unfold next_fd. lia. Qed.

#[export] Instance shm_machine_ok : SharedMemoryOk shmview id.
Proof.
  split; unfold id.
  - intros excl name v Hn. exists (next_fd v), (next_object v). cbn. rewrite Hn. eexists.
    split; [done|]. split; [apply next_fd_ok|]. split; [apply next_object_ok|done].
  - intros name v o Hn. cbn. rewrite Hn. by eexists.
  - intros name v creat o Hn. exists (next_fd v). cbn. rewrite Hn, andb_false_r. eexists.
    split; [done|]. split; [apply next_fd_ok|done].
  - intros name v Hn. cbn. rewrite Hn. by eexists.
  - intros fd n v o Ho. cbn. rewrite Ho. by eexists.
  - intros n writable fd v o Ho. cbn. rewrite Ho. by eexists.
  - intros fd v. by eexists _, _.
  - intros name v. by eexists _, _.
Qed.

Definition fresh_shm : shmview := mkShm ∅ ∅ ∅.

(** The two producers of the engine and the consumers of the OMS. *)
Lemma rings_shared_witness :
  ∃ os w', attach_all ((λ p, (p.1, ring_name p.2)) <$> [(true, 0); (true, 1); (false, 0); (false, 1)]) fresh_shm
    = (Done os, w') ∧ os !! 0%nat = os !! 2%nat.
Proof.
  destruct (rings_shared (W:=shmview) id [(true, 0); (true, 1); (false, 0); (false, 1)] fresh_shm)
    as (os & w' & H1 & _ & _ & H2).
  - split; intros n; [intros n'|]; intros o Hn; cbn in Hn; rewrite lookup_empty in Hn; discriminate.
  - intros p Hp. split; [|apply lookup_empty]. repeat (apply elem_of_cons in Hp as [->|Hp]; [simpl; lia|]).
    by apply elem_of_nil in Hp.
  - exists os, w'. split; [exact H1|]. apply (H2 0%nat 2%nat (true, 0) (false, 0)); reflexivity.
Defined.
