(* ===== verification/Live.v ===== *)
(** src/live_mfr.cpp: the process of the market feed reader, the set-up of
    [Net] followed by the threads of [Feed]. *)

From stdpp Require Import relations.
From S2P Require Import Prelude Types TradeRing Spsc MarketFeed Feed Net.

(** [main] up to the start of the threads: [running] is true, the constructor
    opens the sockets. *)
Definition live_mfr {W} `{Sockets W} (junk : list MarketDataMessage) : prog W (mfr_net * Feed) :=
  m ← mfr_sockets;
  mret (m, Feed_new junk).

(** Nobody has a reference to [running] that could reset it. *)
Definition live_step (js : Z) (jt : Trade) (f f' : Feed) : Prop := (∃ es, feed_step js jt f es f') ∧ mf_flag f' = mf_flag f.

Lemma live_reading js jt f f' :
  rtc (live_step js jt) f f' → mf_flag f = true → mf_done f = false → mf_flag f' = true ∧ mf_done f' = false.
Proof.
  induction 1 as [|f1 f2 f3 [[es Hst] Hsame] _ IH]; intros Hf Hd; [done|]. apply IH; [congruence|].
  destruct Hst as [i hist mem hist' mem' f1 Hr Hp Hring Hl|n i f1 f2 _ Hn Hrun|f1|f1 Hno|udp tcp f1 f2 Hrun];
    try done; [|congruence|].
  - unfold read_visit in Hrun. apply bind_Some in Hrun as ([hist mem] & _ & Hrun). apply bind_Some in Hrun as (h & _ & Hrun).
    apply bind_Some in Hrun as ([[h' seq] q] & _ & Hrun). apply (inj Some) in Hrun. by subst f2.
  - unfold send_iter in Hrun. destruct (negb (mf_sending f1)); [apply (inj Some) in Hrun; by subst f2|].
    rewrite Hd in Hrun. cbn [andb] in Hrun. apply bind_Some in Hrun as ([[[ps cs] alive] q] & _ & Hrun).
    apply (inj Some) in Hrun. by subst f2.
Qed.

(** The process ends in its set-up, at the first fatal call and with its
    status, or never: [reader.join()] does not return, since the reader keeps
    reading. *)
Theorem live_mfr_runs junk js jt w :
  match live_mfr junk w with
  | (Exit status, w') => ∃ calls before c r, sc_log w' = sc_log w ++ calls ∧ calls = before ++ [(c, r)] ∧ mfr_fatal c r = Some status
  | (Done (_, f0), _) => ∀ f, rtc (live_step js jt) f0 f → mf_done f = false
  end.
Proof.
  unfold live_mfr, mbind, prog_bind. pose proof (mfr_obeys w) as Ho. destruct (mfr_sockets w) as [[m|status] w'].
  - intros f Hrun. by apply (live_reading js jt (Feed_new junk) f).
  - destruct Ho as (calls & Hlog & before & c & r & Hc & _ & Hf). by exists calls, before, c, r.
Qed.
